(* ===== verification/_CoqProject ===== *)
-Q . S2P
Prelude.v
GoLib.v
GoFloat.v
Admission.v
AdmissionProps.v
GoStrings.v
GoRunes.v
Hlc.v
GoTime.v
Ledger.v
LedgerInv.v
LedgerProps.v
LedgerCodec.v
Reader.v
LedgerSnapshot.v
Ring.v
Storage.v
TwoPC.v
ShardMachine.v
ShardInv.v
ShardProps.v
ShardSnapshot.v
Coordinator.v
CoordinatorProps.v
Recovery.v
ScriptedGroups.v
RaftTypes.v
Transport.v
Listener.v
Security.v
RaftLog.v
RaftCodec.v
Peers.v
RaftServer.v
RaftLoop.v
RaftSnapshot.v
RaftRead.v
RaftHealth.v
RaftVotes.v
RaftNode.v
RaftReplication.v
RaftCommit.v
RaftDuplicates.v
SimNetwork.v
RaftRestart.v
RaftElection.v
RaftReads.v
RaftSpec.v
RaftCluster.v
RaftRelation.v
RaftSimulate.v
RaftReceive.v
RaftLead.v
RaftInstall.v
RaftSafety.v
RaftDisk.v
RaftBank.v
RaftRuns.v
RaftScenarios.v
RaftWitnesses.v
SimCluster.v
SimChecks.v
SimView.v
Admin.v
ClientApi.v
Bankcli.v
ShardNode.v
ShardClient.v
Startup.v
Daemon.v
EventLog.v
Placement.v
Heal.v
Rereplicate.v
SimShards.v
Metrics.v
DemoHealth.v
DemoControl.v
RaftWatch.v
DemoView.v
