(* ===== verification/Prelude.v ===== *)
(** * Core Bank: a verification library

    The program is a replicated, sharded bank in Go.  A ledger state machine is
    replicated by a Raft implementation of its own; accounts are spread over shards
    by a consistent-hash ring; transfers between shards run two-phase commit, whose
    participants and coordinator are themselves replicated logs; nodes talk over
    net/rpc, and clients reach them through an API with authentication, admission
    control and redirects.  This library models those parts as executable
    definitions and proves what makes them correct.

    ** How the code is modelled

    Every region the code runs under a mutex is one function from the state to the
    state and its results; a function that releases the mutex, waits, or
    starts goroutines is one definition per region (for example [startElection],
    [vote_reply] and [tally] for the candidate in loop.go).  Goroutines interleave
    as steps of a relation over these functions.  Go's sized integers are [Z] with
    their wrap-around written out ([i64], [u64], ...); maps are [gmap]; float64 is
    the IEEE format of the Standard Library's SpecFloat ([GoFloat]); a panic is a
    value ([Panic], or [None]).  Time, randomness, the network, the disk and the
    scheduler are arguments: theorems hold for all of them.

    ** Files, in order of dependency

    Foundations.
    - [Prelude]: integers, sums over maps, tactics and hints.
    - [GoLib], [GoFloat], [GoStrings], [GoRunes], [GoTime]: bytes and byte order,
      slices, [%d] and [%q], float64, the strings package and net.SplitHostPort,
      strconv's readers, UTF-8 with padding, folding and path
      joins, dates and durations.

    hlc/, ledger/.
    - [Hlc]: hybrid logical clock (hlc.go).
    - [Ledger]: [State] and its operations (ledger.go, reserve.go); [LedgerInv] its
      invariant and what each operation changes, [LedgerProps] the
      theorems: refinement of an abstract bank, conservation, idempotent retries,
      double entry.
    - [LedgerCodec], [Reader], [LedgerSnapshot]: the command codec, the machine that
      Raft applies (codec.go) and its snapshots (snapshot.go).

    shard/, storage/.
    - [Ring] (ring.go, and the ring as demo.go draws it), [Storage] (all of
      storage/: records in files as byte lists; the atomic replacement of a file on a
      file system with a page cache, pending directory changes, failing calls and
      crashes).
    - [TwoPC], [ShardMachine], [ShardInv], [ShardProps], [ShardSnapshot]: the
      participant's log, its invariant, votes and outcomes (twopc.go, machine.go,
      snapshot.go).
    - [Coordinator] (coordinator.go) against the class [Group], [CoordinatorProps]
      and [Recovery] (atomicity, agreement of recovery, over any lawful group),
      [ScriptedGroups]: groups that follow a script, for witnesses and for the runs
      that lose or create money.

    raft/.
    - [RaftTypes] (types, interfaces as classes), [RaftLog] (log.go), [RaftCodec]
      (persist.go's and membership.go's encodings), [RaftServer] (server.go and the
      helpers of other files that run under its mutex), [RaftLoop] (loop.go,
      membership.go), [RaftSnapshot] (snapshot.go, Restore), [RaftRead] (read.go),
      [RaftHealth] (health.go, health_priority.go).
    - [RaftVotes], [RaftNode]: one server under any sequence of operations, crashes
      and restarts: votes and terms are durable.  [RaftElection]: a cluster of such
      servers with messages in flight: election safety.  [RaftReplication]: the log
      matching step between a leader's request and its receiver.  [RaftCommit]: the
      commit rule, applying, membership changes and what keeps a second one out while
      the server runs on, one server by itself.
      [RaftRestart]: compaction, and restart from a disk in step with memory.  [RaftReads]: leadership confirmed by
      ReadIndex.  [RaftDuplicates]: a request handled twice.
    - [RaftSpec]: the protocol as Raft's authors describe it, on whole logs with a
      history of candidacies, votes and reigns, and its safety.  [RaftCluster]: the
      cluster of [RaftElection] with every request, reply, read probe, snapshot and
      compaction under way, stepping by the operations of [RaftServer], [RaftLoop],
      [RaftSnapshot] and [RaftRead].  [RaftRelation] relates a server's memory, its
      disk and the messages to the specification; [RaftSimulate], [RaftReceive],
      [RaftLead] and [RaftInstall] show operation by operation that the cluster
      moves as the specification does, and [RaftSafety] has the theorems.
    - [RaftDisk]: the storage of storage/ satisfies the interface the Raft theorems
      assume.  [RaftBank]: so does its recovery, and the ledger's snapshots bring
      back the ledger.  [RaftRuns]: an executable cluster and a run of it.
      [RaftScenarios], [RaftWitnesses]: further concrete clusters, among them those
      where the code goes wrong.

    rpc/.
    - [Admission], [AdmissionProps] (admission.go, drain.go), [Peers] (peers.go,
      ParseShardAssignment), [Transport] (the connection pool of rpc.go,
      snapshot_rpc.go), [Listener] (the server of rpc.go), [Security] (security.go and
      the dialers), [Admin] (admin.go), [ClientApi] (client_api.go),
      [ShardNode] (shardnode.go: an instance of [Group] over hosted Raft servers; the
      services of rpc.go and snapshot_rpc.go and how a call finds its server),
      [ShardClient] (shardclient.go).

    sim/, demo/, obs/.
    - [SimNetwork] (network.go, network_groups.go, network_snapshot.go: the network
      that loses, delays, duplicates and partitions messages, over the Raft
      receivers).
    - [SimCluster] (cluster.go, countingsm_snapshot.go: the recording machine and the
      safety checks of the chaos tests), [SimChecks] (the checks are exact, and
      instances of the network's theorems), [SimView]
      (view.go, cluster_storage.go, cluster_submit.go, cluster_membership.go),
      [SimShards] (shardcluster.go, colocated.go, shardcluster_storage.go, the cluster
      of placement.go: another instance of [Group]).
    - [Placement] (placement.go), [Heal] (the leader of a group in shardcluster.go,
      the repair policy of demo/heal.go), [Rereplicate] (rereplicate.go: adding and
      removing replicas of a running group).
    - [EventLog] (demo/eventlog.go), [DemoHealth] (demo/health.go), [DemoControl]
      (control.go, seed.go, resize.go, the state of demo.go and the handlers of
      server.go), [RaftWatch] (raftwatch.go), [DemoView] (the
      snapshot in demo.go).
    - [Metrics] (readiness, /metrics, /status and /healthz of obs.go, with the
      adapters observability.go and admission_obs.go of rpc/ and
      node/observability.go).

    node/, cmd/.
    - [Startup] (from flag values to a serving process: node/main.go,
      cmd/shardnode/main.go, cmd/demo/main.go, obs/logging.go), [Daemon] (one tick of
      each background loop of the two servers), [Bankcli] (cmd/bankcli).

    ** What the theorems show

    - Money: every operation of the ledger refines an abstract bank; reachable
      states satisfy the invariant, conserve money, and pass the program's own
      double-entry audit; a retried command has no second effect.
    - Two-phase commit: a participant that voted yes can carry out either outcome
      and an outcome is final; the coordinator's legs agree, and so does recovery,
      for every group that keeps the interface's law; one hosted, undisturbed group
      does keep it, one whose entry is superseded does not.
    - Raft: every run of a cluster of one configuration, with messages lost, delayed
      and repeated, crashes, failing saves, compaction and snapshot transfers, is a
      run of the specification.  So what one server has committed every other server
      that commits as far has committed too, replicas that applied as far hold alike
      state machines, a leader of a later term has every committed entry, logs
      that agree at an index agree before it, and the disk of any server at any moment
      brings up a server with the same log and the machine of a prefix of it.  None of
      that is claimed beyond those runs.  With membership changes as well: one
      vote per term across crashes, and at most one leader per term among leaders
      whose configurations are equal or one server apart.  Entries are applied in
      order, exactly once, within the loop's bound; membership changes are single,
      their majorities meet, and while a leader's change is uncommitted it accepts no
      other; a confirmed read means
      that no such leader of a later term existed when the read began.
    - Storage and codecs: snapshots and commands are read back as written; a crash
      at any step of [Save], whatever the page cache and the directory lose, leaves the
      old or the new state, and after a [Save] whose directory sync went through the
      new one; a failed [Save] leaves the old one.
    - Ring: lookup finds the first point clockwise; adding a shard moves keys only
      to it.
    - Node edge: admission never exceeds its limit and its counters add up; once
      draining is announced, the counter reads zero and nobody is on the way to a
      slot, nothing more is let through; at most one dial per peer runs and no
      waiter is stranded; Close ends every handler
      and returns, though Accept blocks on an open listener and a handler until its
      connection is closed; with TLS only the intended node is accepted; a Raft call
      for one shard reaches that shard's server and no other; refusals happen
      before anything is proposed; an undisturbed single server answers with the
      ledger's own result.
    - Simulator and demo: the faults on a link depend on its own traffic alone;
      partitions separate and heal; a duplicated delivery leaves what one delivery
      leaves; placement is even; repair adds before it removes; the safety checks
      report nothing exactly when the properties they are named after hold; a fresh
      sharded cluster has a group for every account; the operator's faults and the shards keep
      the demo's state well-formed; the dashboard shows every machine, the servers'
      own state, and arcs whose owner is the ring's.
    - Running a node: a node is ready when every group it hosts is; a reader of the
      metrics page gets back the values of each shard's own server; a sharded node that
      starts hosts exactly the shards it was told to, each rebuilt from its own
      files; a compaction tick takes out of every log that reached the
      threshold the entries that were applied when its turn came, also while others
      arrive, or reports why not; becoming leader starts recovery,
      once; the client's exit status tells success, refusal and misuse apart.
    - Where the code does not do what it says, a theorem exhibits the run: a leader
      that removed itself elected beside another, membership changes that cross and
      a compaction that overwrites a newer snapshot, each losing committed entries,
      retries and superseded prepares
      that lose money, recovery racing a coordinator, stale reads, and others named
      in the comments of the files.

    ** Bounds, fuel and premises

    Loops that are not structural recursions run on fuel that the code's own
    measure bounds: [apply_loop] on commitIndex - lastApplied, [advance_loop] on
    lastIndex - commitIndex, [read_records] on the length of the file, the decoders
    on the count they have read, [itoa] on the twenty digits of its buffer,
    trimming on the length of the text, draining on the number of five-millisecond
    sleeps the timeout allows; for each there is a lemma or theorem that the fuel
    suffices.  Log theorems assume room below 2^63 for the entries they append.
    Storage theorems assume records below the 64 MiB limit ([persistable],
    [storable]); what happens above it is a scenario of its own.  Election safety
    and the read theorem compare leaders that belong to the configuration they
    counted votes under, with configurations equal or one server apart; a scenario
    shows what a leader outside its own configuration breaks.

    The theorems of [RaftSafety] are about runs whose states stay in bounds: every
    server's last index is below 2^62, the term it campaigns from below 2^64 - 1, and
    its state fits the storage.  Runs in which the code does break what is proved are
    left out, and shown as scenarios where they lose entries: membership changes, and
    an [InstallSnapshot] between the two locked regions of [MaybeCompact].  Left out
    too are an [InstallSnapshot] that counts an error (the machine is then in a state
    the code does not define) and a crash in the middle of an operation, except where
    a save fails; a crash between any two operations is a step.  Submitted commands
    are not empty and not marked as configurations; the bank's encodings are such
    commands ([RaftRuns.Encode_app]).

    ** Not modelled

    Code outside the repository: net/rpc's encoding and its matching of replies to calls, TCP, the TLS
    handshake, the operating system's files below the calls that [Storage] uses, the
    fsync switches of the write-ahead log and the applied-index file, the Go
    scheduler's fairness, package flag, encoding/json and
    the handlers of log/slog.  In the repository: starting and stopping the HTTP
    servers of src/obs and src/demo, the static files and the ticker of the event
    stream in demo/server.go, the log lines, signals and deferred closes of the two
    server binaries, the sleeps of the loops that poll, and src/fe (pages). *)

From stdpp Require Export base gmap strings list sorting numbers pretty fin_maps.
From Stdlib Require Export Lia ZArith.

#[global] Set Default Goal Selector "!".

(** ** Machine integers

    Go's sized integers are integers [Z] kept in range by an explicit
    wrap-around: [u8], [u16], [u32] and [u64] for the unsigned types, [i64]
    (two's complement) for [int64] and for [int] on a 64-bit platform. *)

Declare Scope go_scope.
Delimit Scope go_scope with go.

Definition u8 (z : Z) : Z := z `mod` 2 ^ 8.
Definition u16 (z : Z) : Z := z `mod` 2 ^ 16.
Definition u32 (z : Z) : Z := z `mod` 2 ^ 32.
Definition u64 (z : Z) : Z := z `mod` 2 ^ 64.
Definition i64 (z : Z) : Z := (z + 2 ^ 63) `mod` 2 ^ 64 - 2 ^ 63.

(** [in_i64 z] and friends: [z] is a value of the type. *)
Definition in_i64 (z : Z) : Prop := (- 2 ^ 63 ≤ z < 2 ^ 63)%Z.
Definition in_u64 (z : Z) : Prop := (0 ≤ z < 2 ^ 64)%Z.
Definition in_u32 (z : Z) : Prop := (0 ≤ z < 2 ^ 32)%Z.
Definition in_u8 (z : Z) : Prop := (0 ≤ z < 2 ^ 8)%Z.

Notation "a +ᵢ b" := (i64 (a + b)) (at level 50, left associativity) : go_scope.
Notation "a -ᵢ b" := (i64 (a - b)) (at level 50, left associativity) : go_scope.

Section MachineIntegers.
Local Open Scope Z_scope.

Lemma i64_small z : in_i64 z → i64 z = z.
Proof. unfold in_i64, i64. intros ?. rewrite Z.mod_small; lia. Qed.

Lemma i64_range z : in_i64 (i64 z).
Proof.
  unfold in_i64, i64. pose proof (Z.mod_pos_bound (z + 2 ^ 63) (2 ^ 64)). lia.
Qed.

Lemma u64_small z : in_u64 z → u64 z = z.
Proof. apply Z.mod_small. Qed.

Lemma u64_range z : in_u64 (u64 z).
Proof. apply Z.mod_pos_bound. lia. Qed.

Lemma u32_small z : in_u32 z → u32 z = z.
Proof. apply Z.mod_small. Qed.

Lemma u32_range z : in_u32 (u32 z).
Proof. apply Z.mod_pos_bound. lia. Qed.

(** Addition on [int64] is associative and commutative with its wrap: adding
    a wrapped partial sum is adding the exact one. *)
Lemma i64_add_l a b : i64 (i64 a + b) = i64 (a + b).
Proof.
  unfold i64.
  replace ((a + 2 ^ 63) `mod` 2 ^ 64 - 2 ^ 63 + b + 2 ^ 63)
    with ((a + 2 ^ 63) `mod` 2 ^ 64 + b) by lia.
  rewrite Z.add_mod_idemp_l by lia. f_equal. f_equal. lia.
Qed.

Lemma i64_add_r a b : i64 (a + i64 b) = i64 (a + b).
Proof. rewrite Z.add_comm, i64_add_l. f_equal. lia. Qed.

(** One turn past the top of the range. *)
Lemma i64_over z : 2 ^ 63 ≤ z < 2 ^ 64 + 2 ^ 63 → i64 z = z - 2 ^ 64.
Proof.
  intros Hz. unfold i64. rewrite <- (Z_mod_plus_full (z + 2 ^ 63) (-1)).
  rewrite Z.mod_small; lia.
Qed.

(** A signed word written as an unsigned one and read back is unchanged. *)
Lemma i64_u64 z : in_i64 z → i64 (u64 z) = z.
Proof.
  intros Hz. rewrite <- (i64_small z Hz) at 2. unfold i64, u64.
  rewrite Z.add_mod_idemp_l by lia. reflexivity.
Qed.
End MachineIntegers.

(** ** Tactics and hint databases *)

Create HintDb go.
Create Rewrite HintDb go_rw.

#[export] Hint Resolve i64_range u64_range u32_range : go.
#[export] Hint Unfold in_i64 in_u64 in_u32 in_u8 : go.

(** Case analysis on the scrutinee of a [match] or [if] of the goal, or of a
    hypothesis, keeping the equation. *)
Ltac case_goal :=
  match goal with
  | |- context [match ?x with _ => _ end] => destruct x eqn:?
  end.

Ltac case_in H :=
  match type of H with
  | context [match ?x with _ => _ end] => destruct x eqn:?
  end.

(** [cases_in H] splits every branch of the handler run recorded in [H] and
    drops the branches that contradict its result. *)
Ltac cases_in H := repeat (case_in H; simplify_eq/=; try done).

(** Turns the boolean tests of the source's guards into propositions. *)
Ltac bool_to_prop :=
  repeat match goal with
  | H : context [bool_decide _ = true] |- _ => rewrite bool_decide_eq_true in H
  | H : context [bool_decide _ = false] |- _ => rewrite bool_decide_eq_false in H
  | H : (_ && _)%bool = true |- _ => apply andb_true_iff in H as [? ?]
  | H : (_ || _)%bool = false |- _ => apply orb_false_iff in H as [? ?]
  | H : negb _ = true |- _ => apply negb_true_iff in H
  | H : negb _ = false |- _ => apply negb_false_iff in H
  | H : (_ <? _)%Z = true |- _ => apply Z.ltb_lt in H
  | H : (_ <? _)%Z = false |- _ => apply Z.ltb_ge in H
  | H : (_ <=? _)%Z = true |- _ => apply Z.leb_le in H
  | H : (_ <=? _)%Z = false |- _ => apply Z.leb_gt in H
  | H : (_ =? _)%Z = true |- _ => apply Z.eqb_eq in H
  | H : (_ =? _)%Z = false |- _ => apply Z.eqb_neq in H
  | H : (_ <? _) = true |- _ => apply Nat.ltb_lt in H
  | H : (_ <? _) = false |- _ => apply Nat.ltb_ge in H
  | H : (_ <=? _) = true |- _ => apply Nat.leb_le in H
  | H : (_ <=? _) = false |- _ => apply Nat.leb_gt in H
  | H : (_ =? _) = true |- _ => apply Nat.eqb_eq in H
  | H : (_ =? _) = false |- _ => apply Nat.eqb_neq in H
  end.

(** ** Sums over finite maps *)

Section MapSums.
Context {K : Type} `{Countable K} {V : Type}.
Local Open Scope Z_scope.
Implicit Types (f : V → Z) (m : gmap K V).

Definition map_sum f m : Z := map_fold (λ _ v acc, f v + acc) 0 m.

Lemma map_sum_empty f : map_sum f ∅ = 0.
Proof. unfold map_sum. apply map_fold_empty. Qed.

Lemma map_sum_insert_None f m i x :
  m !! i = None → map_sum f (<[i:=x]> m) = f x + map_sum f m.
Proof.
  intros Hi. unfold map_sum. apply (map_fold_insert_L (λ _ v acc, f v + acc) 0 i x m); [|done].
  intros; lia.
Qed.

Lemma map_sum_delete f m i x :
  m !! i = Some x → map_sum f m = f x + map_sum f (delete i m).
Proof.
  intros Hi. rewrite <- (insert_delete_id m i x Hi) at 1.
  apply map_sum_insert_None. by simplify_map_eq.
Qed.

Lemma map_sum_insert_Some f m i x y :
  m !! i = Some y → map_sum f (<[i:=x]> m) = map_sum f m - f y + f x.
Proof.
  intros Hi. rewrite <- insert_delete_eq, map_sum_insert_None by by simplify_map_eq.
  rewrite (map_sum_delete f m i y Hi). lia.
Qed.

Lemma map_sum_nonneg f m :
  (∀ i x, m !! i = Some x → 0 ≤ f x) → 0 ≤ map_sum f m.
Proof.
  induction m as [|i x m Hi IH] using map_ind; intros Hf.
  { rewrite map_sum_empty. lia. }
  rewrite map_sum_insert_None by done.
  pose proof (Hf i x (lookup_insert_eq m i x)).
  assert (0 ≤ map_sum f m); [|lia]. apply IH. intros j y Hj.
  apply (Hf j). rewrite lookup_insert_ne; [done|]. congruence.
Qed.

Lemma map_sum_ext f g m :
  (∀ i x, m !! i = Some x → f x = g x) → map_sum f m = map_sum g m.
Proof.
  induction m as [|i x m Hi IH] using map_ind; intros Hf.
  { by rewrite !map_sum_empty. }
  rewrite !map_sum_insert_None by done. f_equal.
  - apply (Hf i). by simplify_map_eq.
  - apply IH. intros j y Hj. apply (Hf j). rewrite lookup_insert_ne; [done|]. congruence.
Qed.

Lemma map_sum_zero f m :
  (∀ i x, m !! i = Some x → f x = 0) → map_sum f m = 0.
Proof.
  intros Hf. rewrite (map_sum_ext f (λ _, 0) m Hf). clear Hf.
  induction m as [|i x m Hi IH] using map_ind; [apply map_sum_empty|].
  by rewrite map_sum_insert_None, IH.
Qed.

(** The sum read off any enumeration of the map's bindings. *)
Lemma map_sum_list f m l :
  l ≡ₚ map_to_list m → map_sum f m = foldr (λ kv acc, f kv.2 + acc) 0 l.
Proof.
  intros Hl. transitivity (foldr (λ kv acc, f kv.2 + acc) 0 (map_to_list m)).
  - unfold map_sum. rewrite map_fold_foldr.
    generalize (map_to_list m). induction l0 as [|[k v] l0 IH]; simpl; congruence.
  - revert Hl. generalize (map_to_list m). intros l' Hl. symmetry.
    induction Hl as [|[k v] ?? _ IH|[k v] [k' v'] ?|??? _ IH1 _ IH2]; simpl; lia.
Qed.
End MapSums.

(** A Go loop [total += f x] over an enumeration, with its wrap-around, computes
    the wrapped exact sum, whatever the enumeration order. *)
Definition go_sum {A} (f : A → Z) (l : list A) : Z :=
  foldl (λ total x, i64 (total + f x)) 0%Z l.

Section GoSums.
Local Open Scope Z_scope.

Lemma go_sum_exact_from {A} (f : A → Z) l acc :
  foldl (λ total x, i64 (total + f x)) (i64 acc) l
  = i64 (acc + foldr (λ x s, f x + s) 0 l).
Proof.
  revert acc. induction l as [|x l IH]; intros acc; simpl.
  { f_equal. lia. }
  rewrite i64_add_l, IH. f_equal. lia.
Qed.

Lemma go_sum_exact {A} (f : A → Z) l :
  go_sum f l = i64 (foldr (λ x s, f x + s) 0 l).
Proof. apply (go_sum_exact_from f l 0). Qed.

Lemma go_sum_map `{Countable K} {V} (f : V → Z) (m : gmap K V) l :
  l ≡ₚ map_to_list m → go_sum (λ kv, f kv.2) l = i64 (map_sum f m).
Proof. intros Hl. rewrite go_sum_exact. by rewrite <- (map_sum_list f m l Hl). Qed.
End GoSums.

(** ** Lists *)

Lemma take_app_drop_same {A} (l k : list A) : take (length l) (l ++ k) = l.
Proof. apply take_app_length. Qed.

(** Two subsets of a duplicate-free list that together outnumber it meet. *)
Lemma pigeonhole_overlap {A} `{EqDecision A} (u p q : list A) :
  NoDup p → NoDup q → p ⊆ u → q ⊆ u →
  length u < length p + length q → ∃ x, x ∈ p ∧ x ∈ q.
Proof.
  intros Hp Hq Hpu Hqu Hlen.
  destruct (decide (Exists (λ x, x ∈ q) p)) as [Hex|Hno].
  { apply Exists_exists in Hex as (x & ? & ?). eauto. }
  exfalso. apply not_Exists_Forall in Hno; [|apply _].
  assert (NoDup (p ++ q)) as Hnd.
  { apply NoDup_app. split; [done|]. split; [|done].
    intros x Hx Hxq. rewrite Forall_forall in Hno. by apply (Hno x Hx). }
  assert (length (p ++ q) ≤ length u) as Hle.
  { apply submseteq_length, NoDup_submseteq; [done|]. intros x Hx.
    apply elem_of_app in Hx as [?|?]; auto. }
  rewrite length_app in Hle. lia.
Qed.
