(* ===== verification/GoLib.v ===== *)
(** * The parts of Go's standard library the sources use

    Bytes, strings as byte sequences, [encoding/binary]'s fixed-width
    encodings, [bytes.Reader], [io.ReadFull], [fmt]'s integer verbs,
    [hash/fnv] (64-bit FNV-1a), [hash/crc32] (IEEE polynomial) and
    [sort.Search]. *)

From S2P Require Import Prelude.
From Stdlib Require Strings.Byte Strings.String.

(** ** Bytes and strings *)

Abbreviation byte := Byte.byte.
Abbreviation bytes := (list Byte.byte).

#[global] Instance byte_eq_dec : EqDecision byte := Byte.byte_eq_dec.

Definition byte_Z (b : byte) : Z := Z.of_N (Byte.to_N b).

(** Go's conversion [byte(z)]. *)
Definition Z_byte (z : Z) : byte :=
  match Byte.of_N (Z.to_N (u8 z)) with Some b => b | None => Byte.x00 end.

(** A Go string is a byte sequence; [[]byte(s)] and [string(b)]. *)
Definition str_bytes (s : string) : bytes := String.list_byte_of_string s.
Definition bytes_str (b : bytes) : string := String.string_of_list_byte b.

(** [len] of a string. *)
Definition slen (s : string) : Z := Z.of_nat (String.length s).

Lemma byte_Z_range b : (0 ≤ byte_Z b < 256)%Z.
Proof. unfold byte_Z. pose proof (Byte.to_N_bounded b). lia. Qed.

Lemma Z_byte_Z b : Z_byte (byte_Z b) = b.
Proof.
  unfold Z_byte, u8, byte_Z. pose proof (Byte.to_N_bounded b).
  rewrite Z.mod_small by lia. rewrite N2Z.id, Byte.of_to_N. done.
Qed.

Lemma byte_Z_byte z : byte_Z (Z_byte z) = (z `mod` 256)%Z.
Proof.
  unfold Z_byte, u8, byte_Z. change (2 ^ 8)%Z with 256%Z.
  pose proof (Z.mod_pos_bound z 256 eq_refl).
  destruct (Byte.of_N _) as [b|] eqn:E.
  - apply Byte.to_of_N in E. rewrite E. rewrite Z2N.id; lia.
  - apply Byte.of_N_None_iff in E. lia.
Qed.

Lemma bytes_str_bytes s : bytes_str (str_bytes s) = s.
Proof. apply String.string_of_list_byte_of_string. Qed.

Lemma str_bytes_str b : str_bytes (bytes_str b) = b.
Proof. apply String.list_byte_of_string_of_list_byte. Qed.

Lemma length_str_bytes s : length (str_bytes s) = String.length s.
Proof.
  unfold str_bytes, String.list_byte_of_string. rewrite length_map.
  induction s; simpl; congruence.
Qed.

#[export] Hint Rewrite bytes_str_bytes str_bytes_str length_str_bytes : go_rw.

(** ** encoding/binary *)

(** [binary.LittleEndian.PutUint16/32/64] write [n] = 2, 4, 8 bytes; the reads
    are [le_get] on those bytes. *)
Fixpoint le_put (n : nat) (z : Z) : bytes :=
  match n with
  | 0 => []
  | S n => Z_byte z :: le_put n (z / 256)
  end.

Fixpoint le_get (bs : bytes) : Z :=
  match bs with
  | [] => 0
  | b :: bs => byte_Z b + 256 * le_get bs
  end.

Lemma length_le_put n z : length (le_put n z) = n.
Proof. revert z. induction n as [|n IH]; intros z; simpl; [done|]. by rewrite IH. Qed.

Lemma le_get_put n z : le_get (le_put n z) = (z `mod` 256 ^ Z.of_nat n)%Z.
Proof.
  revert z. induction n as [|n IH]; intros z; simpl le_get; simpl le_put.
  { by rewrite Z.mod_1_r. }
  simpl. rewrite byte_Z_byte, IH.
  rewrite Nat2Z.inj_succ, Z.pow_succ_r by lia.
  rewrite Z.rem_mul_r by lia. lia.
Qed.

Lemma le_get_put_small n z :
  (0 ≤ z < 256 ^ Z.of_nat n)%Z → le_get (le_put n z) = z.
Proof. intros Hz. rewrite le_get_put. by apply Z.mod_small. Qed.

Lemma le_get_put8 z : le_get (le_put 8 z) = u64 z.
Proof. apply le_get_put. Qed.

Lemma le_get_put4 z : le_get (le_put 4 z) = u32 z.
Proof. apply le_get_put. Qed.

Lemma le_get_put2 z : le_get (le_put 2 z) = u16 z.
Proof. apply le_get_put. Qed.

Lemma le_put_get bs : le_put (length bs) (le_get bs) = bs.
Proof.
  induction bs as [|b bs IH]; [done|]. cbn [length le_put le_get].
  pose proof (byte_Z_range b). f_equal.
  - rewrite <- (Z_byte_Z b) at 2. unfold Z_byte, u8. change (2 ^ 8)%Z with 256%Z.
    rewrite (Z.mul_comm 256), Z_mod_plus_full. done.
  - rewrite (Z.mul_comm 256), Z.div_add, (Z.div_small (byte_Z b)) by lia. done.
Qed.

Lemma le_get_range bs : (0 ≤ le_get bs < 256 ^ Z.of_nat (length bs))%Z.
Proof.
  induction bs as [|b bs IH]; simpl length; [simpl; lia|]. cbn [le_get].
  pose proof (byte_Z_range b). rewrite Nat2Z.inj_succ, Z.pow_succ_r by lia. lia.
Qed.

#[export] Hint Rewrite length_le_put : go_rw.

(** ** bytes.Reader

    A reader is its unread suffix.  [Read] with a buffer of [n] bytes fails
    (io.EOF) only when nothing is left; otherwise it copies what is there, at
    most [n] bytes, and leaves the rest of the zeroed buffer untouched. *)

Definition Read (n : nat) (r : bytes) : option (bytes * bytes) :=
  match r with
  | [] => None
  | _ => Some (take n r ++ replicate (n - length r) Byte.x00, drop n r)
  end.

Definition ReadByte (r : bytes) : option (byte * bytes) :=
  match r with
  | [] => None
  | b :: r => Some (b, r)
  end.

(** [io.ReadFull]: all [n] bytes, or [inl k] with [k < n] bytes read. *)
Definition ReadFull (n : nat) (r : bytes) : nat + bytes * bytes :=
  if n <=? length r then inr (take n r, drop n r) else inl (length r).

Lemma Read_app n bs r :
  length bs = n → bs ++ r ≠ [] → Read n (bs ++ r) = Some (bs, r).
Proof.
  intros <- Hne. unfold Read. destruct (bs ++ r) as [|b l] eqn:E; [done|].
  rewrite <- E, take_app_length, drop_app_length, length_app.
  replace (length bs - (length bs + length r)) with 0 by lia.
  by rewrite app_nil_r.
Qed.

Lemma ReadFull_app n bs r : length bs = n → ReadFull n (bs ++ r) = inr (bs, r).
Proof.
  intros <-. unfold ReadFull. rewrite length_app.
  destruct (Nat.leb_spec (length bs) (length bs + length r)); [|lia].
  by rewrite take_app_length, drop_app_length.
Qed.

(** Too few bytes: [Read] pads with zeros and succeeds, [ReadFull] fails. *)
Lemma Read_short n r :
  r ≠ [] → length r ≤ n → Read n r = Some (r ++ replicate (n - length r) Byte.x00, []).
Proof.
  intros Hne Hn. unfold Read. destruct r as [|b r]; [done|].
  by rewrite take_ge, drop_ge by done.
Qed.

Lemma ReadFull_short n r : length r < n → ReadFull n r = inl (length r).
Proof. intros Hn. unfold ReadFull. by destruct (Nat.leb_spec n (length r)); [lia|]. Qed.

(** ** fmt *)

(** The verb [%d] on an integer. *)
Definition fmt_d (z : Z) : string := pretty z.

(** The verb [%02d]: zero-padded to width 2, the sign counted in the width. *)
Definition fmt_02d (z : Z) : string :=
  if (z <? 0)%Z then fmt_d z
  else if (z <? 10)%Z then "0" +:+ fmt_d z else fmt_d z.

(** [strings.HasPrefix]. *)
Definition HasPrefix (s pre : string) : bool := String.prefix pre s.

Lemma HasPrefix_app pre s : HasPrefix (pre +:+ s) pre = true.
Proof.
  unfold HasPrefix. induction pre as [|c pre IH]; simpl; [by destruct s|].
  destruct (Ascii.ascii_dec c c); done.
Qed.

Lemma str_bytes_app a b : str_bytes (a +:+ b) = str_bytes a ++ str_bytes b.
Proof.
  unfold str_bytes, String.list_byte_of_string. induction a as [|c a IH]; simpl; [done|].
  f_equal. exact IH.
Qed.

(** Concatenation cancels on the right too. *)
Lemma str_app_inv_r a b c : a +:+ c = b +:+ c → a = b.
Proof.
  intros H%(f_equal str_bytes). rewrite !str_bytes_app in H. apply (inj (.++ _)) in H.
  by rewrite <- (bytes_str_bytes a), <- (bytes_str_bytes b), H.
Qed.

(** ** hash/fnv and hash/crc32 *)

Definition fnv64_offset : Z := 14695981039346656037.
Definition fnv64_prime : Z := 1099511628211.

(** One [h.Write] of [fnv.New64a]. *)
Definition fnv64a_write (h : Z) (data : bytes) : Z :=
  foldl (λ h b, u64 (Z.lxor h (byte_Z b) * fnv64_prime)) h data.

Definition crc32_bit (crc : Z) : Z :=
  if Z.testbit crc 0 then Z.lxor (Z.shiftr crc 1) 0xEDB88320 else Z.shiftr crc 1.

Definition crc32_byte (crc : Z) (b : byte) : Z :=
  Nat.iter 8 crc32_bit (Z.lxor crc (byte_Z b)).

(** [crc32.ChecksumIEEE]. *)
Definition ChecksumIEEE (data : bytes) : Z :=
  Z.lxor (foldl crc32_byte 0xFFFFFFFF%Z data) 0xFFFFFFFF%Z.

(** Published check values of the two algorithms. *)
Example fnv64a_check_value :
  fnv64a_write fnv64_offset (str_bytes "foobar") = 0x85944171f73967e8%Z.
Proof. vm_compute. reflexivity. Qed.

Example crc32_check_value : ChecksumIEEE (str_bytes "123456789") = 0xCBF43926%Z.
Proof. vm_compute. reflexivity. Qed.

Lemma lxor_u32 a b : in_u32 a → in_u32 b → in_u32 (Z.lxor a b).
Proof.
  unfold in_u32. intros Ha Hb.
  assert (0 ≤ Z.lxor a b)%Z by (apply Z.lxor_nonneg; lia). split; [done|].
  destruct (decide (Z.lxor a b = 0)%Z) as [->|Hnz]; [lia|].
  apply Z.log2_lt_pow2; [lia|].
  pose proof (Z.log2_lxor a b ltac:(lia) ltac:(lia)).
  assert (∀ x, 0 ≤ x < 2 ^ 32 → Z.log2 x < 32)%Z as Hlog.
  { intros x Hx. destruct (decide (x = 0)%Z) as [->|]; [done|].
    apply Z.log2_lt_pow2; lia. }
  pose proof (Hlog a Ha). pose proof (Hlog b Hb). lia.
Qed.

Lemma crc32_bit_u32 crc : in_u32 crc → in_u32 (crc32_bit crc).
Proof.
  intros Hc. assert (in_u32 (Z.shiftr crc 1)) as Hs.
  { unfold in_u32 in *. rewrite Z.shiftr_div_pow2 by lia.
    split; [apply Z.div_pos; lia|]. apply Z.div_lt_upper_bound; lia. }
  unfold crc32_bit. destruct (Z.testbit crc 0); [|done].
  apply lxor_u32; [done|]. unfold in_u32. lia.
Qed.

Lemma ChecksumIEEE_u32 data : in_u32 (ChecksumIEEE data).
Proof.
  assert (∀ crc b, in_u32 crc → in_u32 (crc32_byte crc b)) as Hbyte.
  { intros crc b Hc. unfold crc32_byte.
    assert (in_u32 (Z.lxor crc (byte_Z b))) as H0.
    { apply lxor_u32; [done|]. pose proof (byte_Z_range b). unfold in_u32. lia. }
    revert H0. generalize (Z.lxor crc (byte_Z b)) as c. intros c H0.
    do 8 (apply crc32_bit_u32 in H0). exact H0. }
  unfold ChecksumIEEE. apply lxor_u32; [|unfold in_u32; lia].
  assert (in_u32 0xFFFFFFFF) as H0 by (unfold in_u32; lia). revert H0.
  generalize 0xFFFFFFFF%Z. induction data as [|b data IH]; intros c Hc; simpl; auto.
Qed.

#[export] Hint Resolve ChecksumIEEE_u32 : go.

(** ** sort.Search

    The library's binary search: the smallest [i] in [0, n) with [f i], or [n].
    [sort_search_loop] is its loop on the interval [i, j); each iteration at
    least halves the interval, so [j - i] iterations are enough. *)

Fixpoint sort_search_loop (fuel : nat) (f : nat → bool) (i j : nat) : nat :=
  match fuel with
  | 0 => i
  | S fuel =>
      if i <? j then
        let h := (i + j) / 2 in
        if negb (f h) then sort_search_loop fuel f (h + 1) j
        else sort_search_loop fuel f i h
      else i
  end.

Definition sort_Search (n : nat) (f : nat → bool) : nat := sort_search_loop n f 0 n.

Lemma sort_search_loop_spec fuel (f : nat → bool) i j :
  j - i ≤ fuel → i ≤ j →
  (∀ a b, a ≤ b → f a = true → f b = true) →
  let k := sort_search_loop fuel f i j in
  i ≤ k ≤ j ∧ (∀ x, i ≤ x < k → f x = false) ∧ (k < j → f k = true).
Proof.
  revert i j. induction fuel as [|fuel IH]; intros i j Hfuel Hij Hmono;
    cbn [sort_search_loop].
  { split; [lia|]. split; intros; lia. }
  destruct (Nat.ltb_spec i j) as [Hlt|Hge]; [|split; [lia|split; intros; lia]].
  set (h := (i + j) / 2).
  assert (i ≤ h < j) as Hh.
  { unfold h. split; [apply Nat.div_le_lower_bound|apply Nat.Div0.div_lt_upper_bound]; lia. }
  destruct (f h) eqn:Hf; cbn [negb].
  - destruct (IH i h ltac:(lia) ltac:(lia) Hmono) as (Hk & Hlow & Hhit).
    split; [lia|]. split; [done|]. intros _.
    destruct (decide (sort_search_loop fuel f i h < h)) as [?|?]; [auto|].
    replace (sort_search_loop fuel f i h) with h by lia. done.
  - destruct (IH (h + 1) j ltac:(lia) ltac:(lia) Hmono) as (Hk & Hlow & Hhit).
    split; [lia|]. split; [|done]. intros x Hx.
    destruct (decide (x ≤ h)) as [Hxh|?]; [|apply Hlow; lia].
    destruct (f x) eqn:Hfx; [|done]. rewrite (Hmono x h Hxh Hfx) in Hf. done.
Qed.

(** Enough fuel always: [sort_Search] finds the boundary of a monotone test. *)
Lemma sort_Search_spec n (f : nat → bool) :
  (∀ a b, a ≤ b → f a = true → f b = true) →
  let k := sort_Search n f in
  k ≤ n ∧ (∀ x, x < k → f x = false) ∧ (k < n → f k = true).
Proof.
  intros Hmono. destruct (sort_search_loop_spec n f 0 n ltac:(lia) ltac:(lia) Hmono)
    as (Hk & Hlow & Hhit).
  split; [unfold sort_Search; lia|]. split; [|exact Hhit]. intros x Hx. apply Hlow.
  unfold sort_Search in Hx. lia.
Qed.

(** ** Sorting strings

    Go compares strings bytewise; [sort.Strings] and the [sort.Slice] calls on
    strings order them by that comparison.  Distinct keys have one sorted
    order, so the algorithm does not matter; a merge sort stands for it. *)

Definition str_le (a b : string) : Prop := String.leb a b = true.

#[global] Instance str_le_dec : RelDecision str_le.
Proof. intros a b. unfold str_le. apply _. Defined.

Definition sort_strings (l : list string) : list string := merge_sort str_le l.

Lemma sort_strings_perm l : sort_strings l ≡ₚ l.
Proof. apply merge_sort_Permutation. Qed.

Lemma str_le_total a b : str_le a b ∨ str_le b a.
Proof. unfold str_le. apply String.leb_total. Qed.

Lemma sort_strings_sorted l : Sorted str_le (sort_strings l).
Proof. apply Sorted_merge_sort. intros a b. apply str_le_total. Qed.

(** The keys of a map in sorted order: [sortedKeys], [sortedAccounts] and
    [sortedTxIDs] of the sources all build this list. *)
Definition sorted_keys {V} (m : gmap string V) : list string :=
  sort_strings ((map_to_list m).*1).

Lemma sorted_keys_perm {V} (m : gmap string V) : sorted_keys m ≡ₚ (map_to_list m).*1.
Proof. apply sort_strings_perm. Qed.

Lemma sorted_keys_NoDup {V} (m : gmap string V) : NoDup (sorted_keys m).
Proof. rewrite sorted_keys_perm. apply NoDup_fst_map_to_list. Qed.

Lemma elem_of_sorted_keys {V} (m : gmap string V) k :
  k ∈ sorted_keys m ↔ is_Some (m !! k).
Proof.
  rewrite sorted_keys_perm, list_elem_of_fmap. split.
  - intros ([k' v] & -> & Hkv). apply elem_of_map_to_list in Hkv. simpl. eauto.
  - intros [v Hv]. exists (k, v). split; [done|]. by apply elem_of_map_to_list.
Qed.

Lemma length_sorted_keys {V} (m : gmap string V) : length (sorted_keys m) = size m.
Proof. rewrite sorted_keys_perm, length_fmap. apply length_map_to_list. Qed.

(** Summing a map's values key by key, in sorted order. *)
Lemma sum_perm {A} (f : A → Z) (l l' : list A) :
  l ≡ₚ l' → foldr (λ x acc, f x + acc)%Z 0%Z l = foldr (λ x acc, f x + acc)%Z 0%Z l'.
Proof. induction 1; simpl; lia. Qed.

Lemma go_sum_sorted_keys (m : gmap string Z) :
  go_sum (λ k, default 0%Z (m !! k)) (sorted_keys m) = i64 (map_sum id m).
Proof.
  rewrite go_sum_exact. f_equal. rewrite (sum_perm _ _ _ (sorted_keys_perm m)).
  rewrite (map_sum_list id m (map_to_list m)) by done.
  assert (∀ kv, kv ∈ map_to_list m → default 0%Z (m !! kv.1) = kv.2) as Hl.
  { intros [k v] Hkv%elem_of_map_to_list. simpl. by rewrite Hkv. }
  induction (map_to_list m) as [|[k v] l IH]; csimpl; [done|].
  rewrite IH by (intros kv Hkv; apply Hl; by right).
  pose proof (Hl (k, v) (list_elem_of_here _ _)) as Hk. simpl in Hk. by rewrite Hk.
Qed.
