(* ===== verification/GoFloat.v ===== *)
(** * Go's float64

    IEEE 754 binary64 through the Standard Library's executable specification
    ([SpecFloat]): 53 bits of precision, largest exponent 1024, rounding to
    nearest even.  A decimal literal with a finite expansion is the quotient of
    two exact integers, which rounds as the literal does.  The conversion to
    [int64] truncates towards zero; a value that does not fit (and NaN) gives the
    smallest [int64], as on amd64. *)

From Stdlib Require Import SpecFloat.
From S2P Require Import Prelude.

Local Open Scope Z_scope.

Abbreviation float64 := spec_float.

Definition float_of_int (z : Z) : float64 := binary_normalize 53 1024 z 0 false.
Definition fadd (x y : float64) : float64 := SFadd 53 1024 x y.
Definition fsub (x y : float64) : float64 := SFsub 53 1024 x y.
Definition fmul (x y : float64) : float64 := SFmul 53 1024 x y.
Definition fdiv (x y : float64) : float64 := SFdiv 53 1024 x y.
Definition flt (x y : float64) : bool := SFltb x y.

(** [num / den] as a literal. *)
Definition literal (num den : Z) : float64 := fdiv (float_of_int num) (float_of_int den).

Definition trunc (m : positive) (e : Z) : Z :=
  if 0 <=? e then Z.pos m * 2 ^ e else Z.pos m / 2 ^ (- e).

Definition int64_of_float (x : float64) : Z :=
  match x with
  | S754_zero _ => 0
  | S754_finite sx m e =>
      let z := if sx then - trunc m e else trunc m e in
      if (- 2 ^ 63 <=? z) && (z <? 2 ^ 63) then z else - 2 ^ 63
  | _ => - 2 ^ 63
  end.

(** ** Exact integers

    Integers below 2^53 are represented exactly; their differences are computed
    without rounding and the order of the representations is theirs. *)

(** [p * 2^k] *)
Definition shl (p : positive) (k : nat) : positive := Nat.iter k xO p.

Lemma shl_shl p j k : shl (shl p j) k = shl p (k + j).
Proof. unfold shl. by rewrite Nat.iter_add. Qed.

Lemma shl_value p k : Z.pos (shl p k) = Z.pos p * 2 ^ Z.of_nat k.
Proof.
  unfold shl. induction k as [|k IH]; simpl; [lia|]. rewrite Pos2Z.inj_xO, IH.
  rewrite Nat2Z.inj_succ, Z.pow_succ_r by lia. lia.
Qed.

Lemma pos_iter_shl p d : Pos.iter xO p d = shl p (Pos.to_nat d).
Proof. rewrite Pos2Nat.inj_iter. unfold shl. by induction (Pos.to_nat d); simpl; f_equal. Qed.

Lemma iter_pos_nat {A : Type} (f : A → A) (n : positive) (x : A) :
  SpecFloat.iter_pos f n x = Nat.iter (Pos.to_nat n) f x.
Proof.
  revert x. induction n as [n IH|n IH|]; intros x; cbn [SpecFloat.iter_pos]; [| |done];
    rewrite !IH, ?Pos2Nat.inj_xI, ?Pos2Nat.inj_xO, ?Nat.iter_succ_r, <- Nat.iter_add; f_equal; lia.
Qed.

Abbreviation digits p := (Z.pos (digits2_pos p)).

Lemma digits_shl p k : digits (shl p k) = digits p + Z.of_nat k.
Proof. unfold shl. induction k as [|k IH]; simpl; [lia|]. rewrite Pos2Z.inj_succ, IH. lia. Qed.

Lemma digits_bounds p : 2 ^ (digits p - 1) ≤ Z.pos p < 2 ^ digits p.
Proof.
  induction p as [p IH|p IH|]; simpl; [| |done]; rewrite Pos2Z.inj_succ;
    replace (Z.succ (digits p) - 1) with (Z.succ (digits p - 1)) by lia;
    rewrite !Z.pow_succ_r by lia; lia.
Qed.

Lemma digits_le p k : 0 ≤ k → Z.pos p < 2 ^ k → digits p ≤ k.
Proof.
  intros Hk Hp. pose proof (digits_bounds p) as [Hb _].
  assert (digits p - 1 < k); [|lia]. apply (Z.pow_lt_mono_r_iff 2); lia.
Qed.

Lemma shr_exact p k n :
  (n ≤ k)%nat → Nat.iter n shr_1 (Build_shr_record (Z.pos (shl p k)) false false)
                 = Build_shr_record (Z.pos (shl p (k - n))) false false.
Proof.
  intros Hn. induction n as [|n IH]; [by rewrite Nat.sub_0_r|]. rewrite Nat.iter_succ, IH by lia.
  destruct (k - n)%nat as [|j] eqn:E; [lia|]. replace (k - S n)%nat with j by lia. done.
Qed.

(** Shifting right by whole zero bits, or not at all. *)
Lemma shr_fexp_exact p k e :
  digits p ≤ 53 → -1074 ≤ digits p + Z.of_nat k + e - 53 → 53 ≤ digits p + Z.of_nat k →
  shr_fexp 53 1024 (Z.pos (shl p k)) e loc_Exact
  = (Build_shr_record (Z.pos (shl p (Z.to_nat (53 - digits p)))) false false,
     digits p + Z.of_nat k + e - 53).
Proof.
  intros Hd He Hk. unfold shr_fexp, fexp, emin. cbn [Zdigits2 shr_record_of_loc].
  rewrite digits_shl. rewrite Z.max_l by lia.
  replace (digits p + Z.of_nat k + e - 53 - e) with (digits p + Z.of_nat k - 53) by lia.
  unfold shr. destruct (digits p + Z.of_nat k - 53) as [|n|n] eqn:E; [| |lia].
  - replace (Z.to_nat (53 - digits p)) with k by lia. f_equal. lia.
  - rewrite iter_pos_nat, shr_exact by lia. f_equal; [|lia]. do 3 f_equal. lia.
Qed.

Lemma round_exact p k e :
  digits p ≤ 53 → -1074 ≤ digits p + Z.of_nat k + e - 53 ≤ 971 →
  binary_round 53 1024 false (shl p k) e
  = S754_finite false (shl p (Z.to_nat (53 - digits p))) (digits p + Z.of_nat k + e - 53).
Proof.
  intros Hd He. unfold binary_round, fexp, emin. rewrite digits_shl, Z.max_l by lia.
  set (t := digits p + Z.of_nat k + e - 53) in *. set (w := Z.to_nat (53 - digits p)) in *.
  assert (∃ j e', shl_align (shl p k) e t = (shl p j, e') ∧ 53 ≤ digits p + Z.of_nat j ∧
    digits p + Z.of_nat j + e' - 53 = t) as (j & e' & Ha & Hj & Ht).
  { unfold shl_align. destruct (t - e) as [|n|n] eqn:E; [exists k, e; unfold t in *; split_and!; try done; lia..|].
    exists w, t. rewrite pos_iter_shl, shl_shl. unfold t, w in *. split_and!; [|lia..]. do 2 f_equal. lia. }
  fold t. rewrite Ha. unfold binary_round_aux. rewrite shr_fexp_exact by lia. rewrite Ht. fold w.
  cbn [shr_m loc_of_shr_record round_nearest_even]. rewrite shr_fexp_exact by (unfold w; lia).
  cbn [shr_m]. fold w. replace (digits p + Z.of_nat w + t - 53) with t by (unfold w; lia).
  by destruct (Z.leb_spec t (1024 - 53)); [|lia].
Qed.

Lemma float_of_pos p :
  digits p ≤ 53 →
  float_of_int (Z.pos p) = S754_finite false (shl p (Z.to_nat (53 - digits p))) (digits p - 53).
Proof.
  intros Hd. unfold float_of_int, binary_normalize. change p with (shl p 0) at 1.
  rewrite round_exact by (simpl; lia). by rewrite !Z.add_0_r.
Qed.

Lemma small_digits n : 0 < n < 2 ^ 53 → ∃ p, n = Z.pos p ∧ digits p ≤ 53.
Proof. intros Hn. destruct n as [|p|p]; try lia. exists p. split; [done|]. apply digits_le; lia. Qed.

Lemma fsub_one n : 1 ≤ n < 2 ^ 53 → fsub (float_of_int n) (float_of_int 1) = float_of_int (n - 1).
Proof.
  intros Hn. destruct (small_digits n) as (p & -> & Hd); [lia|]. rewrite float_of_pos by done.
  change (float_of_int 1) with (S754_finite false (shl 1 52) (-52)).
  unfold fsub, SFsub. rewrite Z.min_r by lia. cbn [cond_Zopp].
  assert (fst (shl_align (shl p (Z.to_nat (53 - digits p))) (digits p - 53) (-52)) = shl p 52) as ->.
  { unfold shl_align. destruct (-52 - (digits p - 53)) as [|j|j] eqn:E; cbn [fst];
      [by replace (Z.to_nat (53 - digits p)) with 52%nat by lia|lia|]. rewrite pos_iter_shl, shl_shl. f_equal. lia. }
  change (fst (shl_align (shl 1 52) (-52) (-52))) with (shl 1 52).
  rewrite !shl_value. replace (Z.pos p * 2 ^ Z.of_nat 52 - 1 * 2 ^ Z.of_nat 52)
    with ((Z.pos p - 1) * 2 ^ Z.of_nat 52) by lia.
  destruct (decide (p = 1%positive)) as [->|Hne]; [done|].
  destruct (small_digits (Z.pos p - 1)) as (q & Hq & Hdq); [lia|]. rewrite Hq, <- shl_value.
  rewrite float_of_pos by done. unfold binary_normalize.
  rewrite round_exact by (pose proof (digits_le q 53); lia). f_equal. lia.
Qed.

Lemma flt_spec m n :
  0 ≤ m < 2 ^ 53 → 0 ≤ n < 2 ^ 53 → flt (float_of_int m) (float_of_int n) = (m <? n).
Proof.
  intros Hm Hn. destruct (decide (m = 0)) as [->|Hm0].
  { destruct (decide (n = 0)) as [->|Hn0]; [done|]. destruct (small_digits n) as (q & -> & Hq); [lia|].
    by rewrite float_of_pos. }
  destruct (small_digits m) as (p & -> & Hp); [lia|]. rewrite float_of_pos by done.
  destruct (decide (n = 0)) as [->|Hn0]; [done|]. destruct (small_digits n) as (q & -> & Hq); [lia|].
  rewrite float_of_pos by done. unfold flt, SFltb, SFcompare.
  pose proof (digits_bounds p). pose proof (digits_bounds q).
  destruct (Z.compare_spec (digits p - 53) (digits q - 53)) as [E|E|E].
  - replace (digits p) with (digits q) by lia. set (w := Z.to_nat (53 - digits q)).
    change (Pos.compare_cont Eq (shl p w) (shl q w)) with (Z.compare (Z.pos (shl p w)) (Z.pos (shl q w))).
    rewrite !shl_value, <- Zmult_compare_compat_r by lia.
    unfold Z.ltb. by destruct (Z.compare _ _).
  - assert (2 ^ digits p ≤ 2 ^ (digits q - 1)) by (apply Z.pow_le_mono_r; lia).
    by destruct (Z.ltb_spec (Z.pos p) (Z.pos q)); [|lia].
  - assert (2 ^ digits q ≤ 2 ^ (digits p - 1)) by (apply Z.pow_le_mono_r; lia).
    by destruct (Z.ltb_spec (Z.pos p) (Z.pos q)); [lia|].
Qed.
