(* ===== verification/Admission.v ===== *)
(** * RPC: admission control and draining (src/rpc/admission.go, drain.go)

    [Admit] runs in many goroutines at once; each of its accesses to an atomic
    variable and each of its critical sections is one step of [admit_step], so
    that other goroutines can come in between.  [Admit] itself is the run of one
    goroutine that nobody interrupts.  Times are nanoseconds. *)

From S2P Require Import Prelude GoLib GoFloat.

Local Open Scope Z_scope.

(** ** Limits *)

Record Limits := mkLimits {
  MaxInFlight : Z;
  PerClientRate : float64;
  PerClientBurst : Z
}.

Definition fzero : float64 := float_of_int 0.
Definition Second : Z := 1000000000.

Definition rate_limited (l : Limits) : bool := flt fzero (PerClientRate l) && (0 <? PerClientBurst l).

Definition Enabled (l : Limits) : bool := (0 <? MaxInFlight l) || rate_limited l.

(** ** The token bucket *)

Record tokenBucket := mkBucket {
  tokens : float64;
  capacity : float64;
  rate : float64;
  b_last : Z
}.

Definition newTokenBucket (now : Z) (r : float64) (burst : Z) : tokenBucket :=
  mkBucket (float_of_int burst) (float_of_int burst) r now.

(** [Duration.Seconds] *)
Definition Seconds (d : Z) : float64 :=
  fadd (float_of_int (Z.quot d Second)) (fdiv (float_of_int (Z.rem d Second)) (float_of_int Second)).

Definition refilled (now : Z) (b : tokenBucket) : float64 :=
  let t := fadd (tokens b) (fmul (Seconds (now - b_last b)) (rate b)) in
  if flt (capacity b) t then capacity b else t.

Definition allow (now : Z) (b : tokenBucket) : tokenBucket * bool :=
  let t := refilled now b in
  if flt t (float_of_int 1) then (mkBucket t (capacity b) (rate b) now, false)
  else (mkBucket (fsub t (float_of_int 1)) (capacity b) (rate b) now, true).

(** ** The admitter *)

Record Admitter := mkAdmitter {
  limits : Limits;
  inFlight : Z;
  draining : bool;
  buckets : gmap string tokenBucket;
  shedInFlight : Z;
  shedRate : Z;
  admitted : Z
}.

Definition NewAdmitter (l : Limits) : Admitter := mkAdmitter l 0 false ∅ 0 0 0.

Definition set_inFlight (v : Z) (a : Admitter) : Admitter :=
  mkAdmitter (limits a) v (draining a) (buckets a) (shedInFlight a) (shedRate a) (admitted a).
Definition set_draining (v : bool) (a : Admitter) : Admitter :=
  mkAdmitter (limits a) (inFlight a) v (buckets a) (shedInFlight a) (shedRate a) (admitted a).
Definition set_bucket (client : string) (b : tokenBucket) (a : Admitter) : Admitter :=
  mkAdmitter (limits a) (inFlight a) (draining a) (<[client:=b]> (buckets a)) (shedInFlight a)
    (shedRate a) (admitted a).
Definition add_shedInFlight (a : Admitter) : Admitter :=
  mkAdmitter (limits a) (inFlight a) (draining a) (buckets a) (i64 (shedInFlight a + 1)) (shedRate a)
    (admitted a).
Definition add_shedRate (a : Admitter) : Admitter :=
  mkAdmitter (limits a) (inFlight a) (draining a) (buckets a) (shedInFlight a) (i64 (shedRate a + 1))
    (admitted a).
Definition add_admitted (a : Admitter) : Admitter :=
  mkAdmitter (limits a) (inFlight a) (draining a) (buckets a) (shedInFlight a) (shedRate a)
    (i64 (admitted a + 1)).

Record Rejection := mkRejection {
  Busy : bool;
  RateLimited : bool;
  Reason : string;
  RetryAfter : Z
}.

Definition draining_rejection : Rejection :=
  mkRejection true false "this node is shutting down; nothing was proposed, retry elsewhere" 0.
Definition rate_rejection (l : Limits) : Rejection :=
  mkRejection false true "rate limit exceeded for this client"
    (int64_of_float (fdiv (float_of_int Second) (PerClientRate l))).
Definition busy_rejection : Rejection :=
  mkRejection true false
    ("the leader has too many proposals in flight; " +:+ "nothing was proposed, so retrying is safe") 50000000.

(** [allowRate]: the map lookup under the admitter's mutex, then the bucket. *)
Definition find_bucket (now : Z) (client : string) (a : Admitter) : Admitter :=
  match buckets a !! client with
  | Some _ => a
  | None => set_bucket client (newTokenBucket now (PerClientRate (limits a)) (PerClientBurst (limits a))) a
  end.

Definition spend (now : Z) (client : string) (a : Admitter) : Admitter * bool :=
  match buckets a !! client with
  | Some b => let (b, ok) := allow now b in (set_bucket client b a, ok)
  | None => (a, false)
  end.

(** Where a goroutine is in [Admit]; [Holding] has returned with a slot, which
    [release] gives back. *)
Inductive pc :=
  | AtDraining
  | AtBucket
  | AtAllow
  | AtShedRate
  | AtReserve
  | AtGiveBack
  | AtShedBusy
  | AtCount
  | Holding
  | Released
  | Rejected (r : Rejection).

Definition admit_step (now : Z) (client : string) (p : pc) (a : Admitter) : Admitter * pc :=
  match p with
  | AtDraining =>
      (a, if draining a then Rejected draining_rejection
          else if rate_limited (limits a) then AtBucket else AtReserve)
  | AtBucket => (find_bucket now client a, AtAllow)
  | AtAllow => let (a, ok) := spend now client a in (a, if ok then AtReserve else AtShedRate)
  | AtShedRate => (add_shedRate a, Rejected (rate_rejection (limits a)))
  | AtReserve =>
      let n := i64 (inFlight a + 1) in
      (set_inFlight n a,
       if (0 <? MaxInFlight (limits a)) && (MaxInFlight (limits a) <? n) then AtGiveBack else AtCount)
  | AtGiveBack => (set_inFlight (i64 (inFlight a - 1)) a, AtShedBusy)
  | AtShedBusy => (add_shedInFlight a, Rejected busy_rejection)
  | AtCount => (add_admitted a, Holding)
  | Holding => (set_inFlight (i64 (inFlight a - 1)) a, Released)
  | Released => (a, Released)
  | Rejected r => (a, Rejected r)
  end.

(** [Admit] without interruption: the slot, or the rejection. *)
Definition Admit (now : Z) (client : string) (a : Admitter) : Admitter * (Rejection + unit) :=
  if draining a then (a, inl draining_rejection)
  else
    let '(a, allowed) :=
      if rate_limited (limits a) then spend now client (find_bucket now client a) else (a, true) in
    if (allowed : bool) then
      let n := i64 (inFlight a + 1) in
      let a := set_inFlight n a in
      if (0 <? MaxInFlight (limits a)) && (MaxInFlight (limits a) <? n)
      then (add_shedInFlight (set_inFlight (i64 (inFlight a - 1)) a), inl busy_rejection)
      else (add_admitted a, inr tt)
    else (add_shedRate a, inl (rate_rejection (limits a))).

Definition release (a : Admitter) : Admitter := set_inFlight (i64 (inFlight a - 1)) a.

Definition Stats (a : Admitter) : Z * Z * Z * Z :=
  (inFlight a, admitted a, shedInFlight a, shedRate a).

(** ** Drain *)

Inductive drain_pc :=
  | DrStart (timeout : Z)
  | DrLoop (deadline : Z)
  | DrLoad (deadline : Z)
  | DrFinal
  | DrDone (n : Z).

Definition drain_step (now : Z) (d : drain_pc) (a : Admitter) : Admitter * drain_pc :=
  match d with
  | DrStart timeout => (set_draining true a, DrLoop (now + timeout))
  | DrLoop deadline => (a, if now <? deadline then DrLoad deadline else DrFinal)
  | DrLoad deadline => (a, if inFlight a =? 0 then DrDone 0 else DrLoop deadline)
  | DrFinal => (a, DrDone (inFlight a))
  | DrDone n => (a, DrDone n)
  end.

Definition Draining (a : Admitter) : bool := draining a.

(** ** Goroutines *)

Record system := mkSystem {
  sy_admitter : Admitter;
  sy_requests : gmap nat (string * pc);
  sy_drain : option drain_pc
}.

Inductive sstep (y : system) : system → Prop :=
  | sstep_arrive i client :
      sy_requests y !! i = None →
      sstep y (mkSystem (sy_admitter y) (<[i:=(client, AtDraining)]> (sy_requests y)) (sy_drain y))
  | sstep_request now i client p a p' :
      sy_requests y !! i = Some (client, p) → admit_step now client p (sy_admitter y) = (a, p') →
      sstep y (mkSystem a (<[i:=(client, p')]> (sy_requests y)) (sy_drain y))
  | sstep_shutdown timeout :
      sy_drain y = None →
      sstep y (mkSystem (sy_admitter y) (sy_requests y) (Some (DrStart timeout)))
  | sstep_drain now d a d' :
      sy_drain y = Some d → drain_step now d (sy_admitter y) = (a, d') →
      sstep y (mkSystem a (sy_requests y) (Some d')).

Definition idle (l : Limits) : system := mkSystem (NewAdmitter l) ∅ None.
