(* ===== verification/AdmissionProps.v ===== *)
(** * RPC: what admission control guarantees *)

From Stdlib Require Import SpecFloat.
From S2P Require Import Prelude GoLib GoFloat Admission.

Local Open Scope Z_scope.

#[local] Opaque spend find_bucket rate_rejection busy_rejection draining_rejection i64.

(** ** One goroutine alone *)

(** The goroutine's own steps, until it returns from [Admit]. *)
Fixpoint admit_run (fuel : nat) (now : Z) (client : string) (p : pc) (a : Admitter) : Admitter * pc :=
  match fuel, p with
  | O, _ | _, Holding | _, Rejected _ => (a, p)
  | S fuel, _ => let (a, p) := admit_step now client p a in admit_run fuel now client p a
  end.

Lemma admit_run_S fuel now client p a :
  admit_run (S fuel) now client p a
  = match p with
    | Holding | Rejected _ => (a, p)
    | _ => let (a, p) := admit_step now client p a in admit_run fuel now client p a
    end.
Proof. by destruct p. Qed.

#[local] Opaque admit_run.

Lemma Admit_run now client a :
  admit_run 8 now client AtDraining a
  = let (a, r) := Admit now client a in (a, match r with inl rej => Rejected rej | inr _ => Holding end).
Proof.
  unfold Admit. rewrite admit_run_S. simpl. destruct (draining a); [by rewrite admit_run_S|].
  destruct (rate_limited (limits a)).
  - do 2 (rewrite admit_run_S; simpl). destruct (spend _ _ _) as [a' [|]].
    + rewrite admit_run_S. simpl. destruct (_ && _); by do 3 (rewrite ?admit_run_S; simpl).
    + by do 2 (rewrite admit_run_S; simpl).
  - rewrite admit_run_S. simpl. destruct (_ && _); by do 3 (rewrite ?admit_run_S; simpl).
Qed.

(** ** Counting goroutines *)

Definition ind (b : bool) : Z := if b then 1 else 0.

Definition tally (f : pc → bool) (m : gmap nat (string * pc)) : Z := map_sum (λ r, ind (f r.2)) m.

(** Between [inFlight.Add(1)] and [inFlight.Add(-1)]. *)
Definition reserved (p : pc) : bool :=
  match p with AtGiveBack | AtCount | Holding => true | _ => false end.

(** Let through: the ones that will be, are or were in flight. *)
Definition let_through (p : pc) : bool := match p with AtCount | Holding => true | _ => false end.

Definition was_admitted (p : pc) : bool := match p with Holding | Released => true | _ => false end.
Definition was_shed_busy (p : pc) : bool :=
  match p with Rejected r => bool_decide (Reason r = Reason busy_rejection) | _ => false end.
Definition was_shed_rate (p : pc) : bool :=
  match p with Rejected r => RateLimited r | _ => false end.

Lemma tally_arrive f m i client p :
  m !! i = None → f p = false → tally f (<[i:=(client, p)]> m) = tally f m.
Proof. intros Hi Hf. unfold tally. rewrite map_sum_insert_None by done. simpl. rewrite Hf. simpl. lia. Qed.

Lemma tally_move f m i client client' p p' :
  m !! i = Some (client, p) →
  tally f (<[i:=(client', p')]> m) = tally f m - ind (f p) + ind (f p').
Proof. intros Hi. unfold tally. by rewrite (map_sum_insert_Some _ _ _ _ _ Hi). Qed.

Lemma tally_nonneg f m : 0 ≤ tally f m.
Proof. apply map_sum_nonneg. intros i x _. by destruct (f x.2). Qed.

Lemma tally_le f g m : (∀ p, f p = true → g p = true) → tally f m ≤ tally g m.
Proof.
  intros Hfg. unfold tally. induction m as [|i x m Hi IH] using map_ind; [by rewrite !map_sum_empty|].
  rewrite !map_sum_insert_None by done. specialize (Hfg x.2).
  destruct (f x.2), (g x.2); simpl; lia || discriminate (Hfg eq_refl).
Qed.

Lemma tally_size f m : tally f m ≤ Z.of_nat (size m).
Proof.
  unfold tally. induction m as [|i x m Hi IH] using map_ind; [by rewrite map_sum_empty|].
  rewrite map_sum_insert_None, map_size_insert_None by done. destruct (f x.2); simpl; lia.
Qed.

(** ** Invariant *)

Record sound (y : system) : Prop := {
  so_inFlight : inFlight (sy_admitter y) = tally reserved (sy_requests y);
  so_bound : 0 < MaxInFlight (limits (sy_admitter y)) →
    tally let_through (sy_requests y) ≤ MaxInFlight (limits (sy_admitter y));
  so_admitted : admitted (sy_admitter y) = tally was_admitted (sy_requests y);
  so_busy : shedInFlight (sy_admitter y) = tally was_shed_busy (sy_requests y);
  so_rate : shedRate (sy_admitter y) = tally was_shed_rate (sy_requests y)
}.

(** Fewer than 2^63 requests in the life of the process. *)
Definition countable (y : system) : Prop := Z.of_nat (size (sy_requests y)) < 2 ^ 63.

Lemma spend_fields now client a :
  let (a', _) := spend now client a in
  limits a' = limits a ∧ inFlight a' = inFlight a ∧ draining a' = draining a ∧
  admitted a' = admitted a ∧ shedInFlight a' = shedInFlight a ∧ shedRate a' = shedRate a.
Proof.
  Transparent spend. unfold spend. destruct (buckets a !! client) as [b|]; [|done].
  by destruct (allow now b).
Qed.

Lemma find_bucket_fields now client a :
  let a' := find_bucket now client a in
  limits a' = limits a ∧ inFlight a' = inFlight a ∧ draining a' = draining a ∧
  admitted a' = admitted a ∧ shedInFlight a' = shedInFlight a ∧ shedRate a' = shedRate a.
Proof. Transparent find_bucket. unfold find_bucket. by destruct (buckets a !! client). Qed.

#[local] Opaque spend find_bucket.

(** What a step does to the counters. *)
Lemma step_counters now client p a a' p' :
  admit_step now client p a = (a', p') →
  limits a' = limits a ∧ draining a' = draining a ∧
  inFlight a' = (if bool_decide (reserved p = reserved p') then inFlight a
                 else i64 (inFlight a + (ind (reserved p') - ind (reserved p)))) ∧
  admitted a' = (if bool_decide (was_admitted p = was_admitted p') then admitted a
                 else i64 (admitted a + 1)) ∧
  shedInFlight a' = (if bool_decide (was_shed_busy p = was_shed_busy p') then shedInFlight a
                     else i64 (shedInFlight a + 1)) ∧
  shedRate a' = (if bool_decide (was_shed_rate p = was_shed_rate p') then shedRate a
                 else i64 (shedRate a + 1)) ∧
  (was_admitted p = true → was_admitted p' = true) ∧ (was_shed_busy p = true → was_shed_busy p' = true) ∧
  (was_shed_rate p = true → was_shed_rate p' = true).
Proof.
  Transparent busy_rejection draining_rejection rate_rejection.
  pose proof (find_bucket_fields now client a) as Hf. pose proof (spend_fields now client a) as Hs.
  destruct p; simpl; try (intros [= <- <-]; by split_and!).
  - intros [= <- <-]. by destruct (draining a), (rate_limited (limits a)).
  - intros [= <- <-]. by destruct Hf as (-> & -> & -> & -> & -> & ->).
  - destruct (spend now client a) as [a1 ok]. intros [= <- <-].
    destruct Hs as (-> & -> & -> & -> & -> & ->). by destruct ok.
  - intros [= <- <-]. simpl. by destruct (_ && _).
  - intros [= <- <-]. simpl. by split_and!; rewrite ?(bool_decide_eq_true_2 (_ = _)) by done.
Qed.

(** Adding one under the bound does not wrap. *)
Lemma counter_step (f : pc → bool) (n : Z) (m : gmap nat (string * pc)) i client p p' :
  n = tally f m → Z.of_nat (size m) < 2 ^ 63 → m !! i = Some (client, p) →
  (if bool_decide (f p = f p') then n else i64 (n + (ind (f p') - ind (f p))))
  = tally f (<[i:=(client, p')]> m).
Proof.
  intros -> Hsize Hi. pose proof (tally_nonneg f (<[i:=(client, p')]> m)) as H0.
  pose proof (tally_size f (<[i:=(client, p')]> m)) as H1.
  rewrite map_size_insert_Some in H1 by (by eexists). rewrite (tally_move f m i client client p p' Hi) in *.
  case_bool_decide as E; [rewrite E; lia|]. rewrite i64_small by (unfold in_i64; lia). lia.
Qed.

(** A counter that only goes up. *)
Lemma total_step (f : pc → bool) (n : Z) (m : gmap nat (string * pc)) i client p p' :
  n = tally f m → Z.of_nat (size m) < 2 ^ 63 → m !! i = Some (client, p) →
  (f p = true → f p' = true) →
  (if bool_decide (f p = f p') then n else i64 (n + 1)) = tally f (<[i:=(client, p')]> m).
Proof.
  intros Hn Hs Hi Hf. rewrite <- (counter_step f n m i client p p') by done.
  case_bool_decide as E; [done|]. destruct (f p), (f p'); try done. by specialize (Hf eq_refl).
Qed.

Lemma bound_step now client p a a' p' m i :
  inFlight a = tally reserved m → Z.of_nat (size m) < 2 ^ 63 → m !! i = Some (client, p) →
  admit_step now client p a = (a', p') → 0 < MaxInFlight (limits a) →
  tally let_through m ≤ MaxInFlight (limits a) →
  tally let_through (<[i:=(client, p')]> m) ≤ MaxInFlight (limits a).
Proof.
  intros Hin Hsize Hi Hstep Hmax Hle. pose proof (step_counters _ _ _ _ _ _ Hstep) as (_ & _ & Hc & _).
  destruct (let_through p') eqn:E'; [|rewrite (tally_move _ m i client client p p' Hi), E'; by destruct (let_through p); simpl; lia].
  destruct p'; try done.
  - etrans; [apply (tally_le let_through reserved); by intros []|].
    destruct p; simpl in Hstep; try (by repeat case_match; simplify_eq). injection Hstep as _ Hp.
    rewrite <- (counter_step reserved (inFlight a) m i client AtReserve AtCount) by done. simpl.
    destruct (_ && _) eqn:E in Hp; [done|]. rewrite Z.sub_0_r.
    destruct (Z.ltb_spec 0 (MaxInFlight (limits a))); [|lia]. simpl in E. by apply Z.ltb_ge in E.
  - rewrite (tally_move _ m i client client p _ Hi). destruct p; simplify_eq/=; try (by repeat case_match); lia.
Qed.

Lemma sound_step y y' : sound y → sstep y y' → countable y' → sound y'.
Proof.
  intros [Hi Hb Ha Hs Hr] Hstep Hc. unfold countable in Hc.
  destruct Hstep as [i client Hn|now i client p a p' Hn Hst|timeout Hd|now d a d' Hd Hst]; simpl in *.
  - by split; simpl; rewrite tally_arrive.
  - rewrite map_size_insert_Some in Hc by (by eexists).
    pose proof (step_counters _ _ _ _ _ _ Hst) as (El & _ & E1 & E2 & E3 & E4 & M2 & M3 & M4).
    split; simpl; rewrite ?El, ?E1, ?E2, ?E3, ?E4; try (by apply total_step); [by apply counter_step|].
    intros Hmax. eapply bound_step; eauto.
  - by split.
  - destruct d; simplify_eq/=; by split.
Qed.

Lemma size_step y y' : sstep y y' → (size (sy_requests y) ≤ size (sy_requests y'))%nat.
Proof.
  destruct 1 as [i client Hn|now i client p a p' Hn Hst|timeout Hd|now d a d' Hd Hst]; simpl; try done.
  - rewrite map_size_insert_None by done. lia.
  - by rewrite map_size_insert_Some by (by eexists).
Qed.

Lemma countable_step y y' : sstep y y' → countable y' → countable y.
Proof. unfold countable. intros Hs%size_step. lia. Qed.

Lemma sound_idle l : sound (idle l).
Proof. split; simpl; try done. intros ?. change (tally let_through ∅) with 0. lia. Qed.

Lemma countable_run y y' : rtc sstep y y' → countable y' → countable y.
Proof. induction 1; eauto using countable_step. Qed.

Lemma sound_reachable y0 y : sound y0 → rtc sstep y0 y → countable y → sound y.
Proof.
  intros H0 Hrun Hc. induction Hrun as [|y0 y1 y2 Hs Hrun IH]; [done|].
  apply IH; [|done]. eapply sound_step; [done..|]. by eapply countable_run.
Qed.

(** A step does not change the limits. *)
Lemma limits_step y y' : sstep y y' → limits (sy_admitter y') = limits (sy_admitter y).
Proof.
  destruct 1 as [|now i client p a p' Hn Hst| |now d a d' Hd Hst]; simpl; try done.
  - by apply step_counters in Hst as [-> _].
  - by destruct d; simplify_eq/=.
Qed.

(** C22: Admission is bounded.  However the goroutines of [Admit], the releases
    and a [Drain] interleave, the in-flight counter is the number of goroutines
    between their increment and their decrement; with a limit, no more requests
    than the limit are let through at any time; and the counters of admitted
    and shed requests are exact.  (Fewer than 2^63 requests.) *)
Theorem admission_bounded l y :
  rtc sstep (idle l) y → Z.of_nat (size (sy_requests y)) < 2 ^ 63 →
  inFlight (sy_admitter y) = tally reserved (sy_requests y) ∧
  (0 < MaxInFlight l → tally let_through (sy_requests y) ≤ MaxInFlight l) ∧
  Stats (sy_admitter y) =
    (tally reserved (sy_requests y), tally was_admitted (sy_requests y),
     tally was_shed_busy (sy_requests y), tally was_shed_rate (sy_requests y)).
Proof.
  intros Hrun Hc. pose proof (sound_reachable _ y (sound_idle l) Hrun Hc) as [H1 H2 H3 H4 H5].
  assert (limits (sy_admitter y) = limits (sy_admitter (idle l))) as El.
  { clear -Hrun. induction Hrun as [|y0 y1 y2 Hs Hrun IH]; [done|].
    by rewrite IH, (limits_step _ _ Hs). }
  rewrite El in H2. simpl in H2. unfold Stats. rewrite H1, H3, H4, H5. done.
Qed.

(** ** Draining *)

(** Past the check of [draining], without a slot yet. *)
Definition approaching (p : pc) : bool :=
  match p with AtBucket | AtAllow | AtReserve => true | _ => false end.

Definition drained (y : system) : Prop :=
  draining (sy_admitter y) = true ∧
  ∀ i r, sy_requests y !! i = Some r → approaching r.2 = false ∧ reserved r.2 = false.

Lemma drained_step y y' : drained y → sstep y y' → drained y'.
Proof.
  intros [Hd Hr] Hstep.
  destruct Hstep as [i client Hn|now i client p a p' Hn Hst|timeout Hdr|now d a d' Hdr Hst]; simpl in *.
  - split; [done|]. intros j r Hj. simpl in Hj. apply lookup_insert_Some in Hj as [[_ <-]|[_ Hj]]; eauto.
  - destruct (Hr i _ Hn) as [Hp1 Hp2]. simpl in *.
    assert (draining a = true ∧ approaching p' = false ∧ reserved p' = false) as (Ha & Hq1 & Hq2).
    { destruct p; simplify_eq/=; by rewrite ?Hd. }
    split; [done|]. intros j r Hj. simpl in Hj. apply lookup_insert_Some in Hj as [[_ <-]|[_ Hj]]; eauto.
  - by split.
  - split; [|done]. by destruct d; simplify_eq/=.
Qed.

Lemma tally_zero f m : tally f m = 0 → ∀ i r, m !! i = Some r → f r.2 = false.
Proof.
  intros Ht i r Hi. destruct (f r.2) eqn:E; [|done]. unfold tally in Ht.
  rewrite (map_sum_delete _ _ _ _ Hi), E in Ht. simpl in Ht.
  pose proof (tally_nonneg f (delete i m)). unfold tally in *. lia.
Qed.

Lemma tally_none f m : (∀ i r, m !! i = Some r → f r.2 = false) → tally f m = 0.
Proof.
  intros Hf. unfold tally. rewrite (map_sum_ext _ (λ _, 0) m).
  - induction m as [|i x m Hi IH] using map_ind; [done|]. rewrite map_sum_insert_None, IH; [done| |done].
    intros j r Hj. apply (Hf j). rewrite lookup_insert_ne; congruence.
  - intros i r Hi. by rewrite (Hf i r Hi).
Qed.

(** C23: A clean drain stays clean.  Take any reachable state in which draining
    has been announced, the in-flight counter reads zero (what [Drain] returns
    zero for) and no goroutine is between the check of [draining] and its
    reservation.  Then in every later state the counter is zero and nobody holds
    a slot: nothing more is ever let through. *)
Theorem clean_drain l y y' :
  rtc sstep (idle l) y → draining (sy_admitter y) = true → inFlight (sy_admitter y) = 0 →
  tally approaching (sy_requests y) = 0 → rtc sstep y y' →
  Z.of_nat (size (sy_requests y')) < 2 ^ 63 →
  inFlight (sy_admitter y') = 0 ∧ tally let_through (sy_requests y') = 0.
Proof.
  intros Hrun Hdr Hin Happ Hrun' Hc.
  assert (countable y) as Hc0 by by eapply countable_run.
  pose proof (sound_reachable _ y (sound_idle l) Hrun Hc0) as Hs.
  assert (drained y) as Hd.
  { split; [done|]. intros i r Hi. rewrite (so_inFlight _ Hs) in Hin.
    split; [by apply (tally_zero _ _ Happ i)|by apply (tally_zero _ _ Hin i)]. }
  assert (drained y') as [_ Hd'].
  { clear -Hd Hrun'. induction Hrun'; eauto using drained_step. }
  pose proof (sound_reachable _ y' Hs Hrun' Hc) as Hs'. rewrite (so_inFlight _ Hs').
  split; apply tally_none; intros i r Hi; [by apply (Hd' i)|].
  destruct (Hd' i r Hi) as [_ Hres]. by destruct r as [? []].
Qed.

(** ** Runs *)

Inductive event := Arrive (i : nat) (client : string) | Step (now : Z) (i : nat) | Shutdown (timeout : Z)
  | DrainStep (now : Z).

Definition play1 (e : event) (y : system) : option system :=
  match e with
  | Arrive i client =>
      match sy_requests y !! i with
      | Some _ => None
      | None => Some (mkSystem (sy_admitter y) (<[i:=(client, AtDraining)]> (sy_requests y)) (sy_drain y))
      end
  | Step now i =>
      '(client, p) ← sy_requests y !! i;
      let (a, p') := admit_step now client p (sy_admitter y) in
      Some (mkSystem a (<[i:=(client, p')]> (sy_requests y)) (sy_drain y))
  | Shutdown timeout =>
      match sy_drain y with
      | Some _ => None
      | None => Some (mkSystem (sy_admitter y) (sy_requests y) (Some (DrStart timeout)))
      end
  | DrainStep now =>
      d ← sy_drain y;
      let (a, d') := drain_step now d (sy_admitter y) in
      Some (mkSystem a (sy_requests y) (Some d'))
  end.

Fixpoint play (es : list event) (y : system) : option system :=
  match es with [] => Some y | e :: es => y ← play1 e y; play es y end.

Lemma play1_step e y y' : play1 e y = Some y' → sstep y y'.
Proof.
  destruct e; simpl.
  - destruct (sy_requests y !! i) eqn:E; [done|]. intros [= <-]. by constructor.
  - intros ([client p] & Hi & Hp)%bind_Some. destruct (admit_step _ _ _ _) as [a p'] eqn:E.
    injection Hp as <-. by econstructor.
  - destruct (sy_drain y) eqn:E; [done|]. intros [= <-]. by constructor.
  - intros (d & Hd & Hp)%bind_Some. destruct (drain_step _ _ _) as [a d'] eqn:E.
    injection Hp as <-. by econstructor.
Qed.

Lemma play_run es y y' : play es y = Some y' → rtc sstep y y'.
Proof.
  revert y. induction es as [|e es IH]; intros y; simpl; [intros [= <-]; apply rtc_refl|].
  intros (y1 & H1 & H2)%bind_Some. eapply rtc_l; [by eapply play1_step|eauto].
Qed.

Definition limited : Limits := mkLimits 1 fzero 0.

(** Two requests against a limit of one; the second is shed. *)
Definition busy_run : list event :=
  [Arrive 0 "a"; Arrive 1 "b"; Step 0 0; Step 0 1; Step 0 0; Step 0 1; Step 0 0; Step 0 1; Step 0 1].

Lemma admission_bounded_witness :
  ∃ y, play busy_run (idle limited) = Some y ∧ Stats (sy_admitter y) = (1, 1, 1, 0) ∧
    tally let_through (sy_requests y) = 1 ∧ tally let_through (sy_requests y) ≤ 1.
Proof.
  destruct (play busy_run (idle limited)) as [y|] eqn:E; [|vm_compute in E; done].
  assert (Stats (sy_admitter y) = (1, 1, 1, 0) ∧ tally let_through (sy_requests y) = 1 ∧
    Z.of_nat (size (sy_requests y)) = 2) as (H1 & H2 & H3).
  { vm_compute in E. injection E as <-. vm_compute. done. }
  exists y. split; [done|]. split; [exact H1|]. split; [exact H2|].
  destruct (admission_bounded limited y (play_run _ _ _ E)) as (_ & Hle & _); [rewrite H3; done|].
  apply Hle. done.
Defined.

(** A request in flight when the shutdown starts finishes before [Drain] looks. *)
Definition clean_run : list event :=
  [Arrive 0 "a"; Step 0 0; Step 0 0; Step 0 0; Shutdown 1000; DrainStep 0; DrainStep 0; DrainStep 0;
   Step 5 0; DrainStep 5; DrainStep 5].
Definition late_run : list event := [Arrive 1 "b"; Step 6 1].

Lemma clean_drain_witness :
  ∃ y y', play clean_run (idle limited) = Some y ∧ play late_run y = Some y' ∧
    sy_drain y = Some (DrDone 0) ∧ inFlight (sy_admitter y') = 0.
Proof.
  destruct (play clean_run (idle limited)) as [y|] eqn:E; [|vm_compute in E; done].
  destruct (play late_run y) as [y'|] eqn:E'; [|vm_compute in E; injection E as <-; vm_compute in E'; done].
  assert (draining (sy_admitter y) = true ∧ inFlight (sy_admitter y) = 0 ∧
    tally approaching (sy_requests y) = 0 ∧ sy_drain y = Some (DrDone 0)) as (H1 & H2 & H3 & H4).
  { vm_compute in E. injection E as <-. vm_compute. done. }
  assert (Z.of_nat (size (sy_requests y')) = 2) as Hsz.
  { vm_compute in E. injection E as <-. vm_compute in E'. injection E' as <-. vm_compute. done. }
  exists y, y'. split; [done|]. split; [done|]. split; [exact H4|].
  apply (clean_drain limited y y' (play_run _ _ _ E) H1 H2 H3 (play_run _ _ _ E')). rewrite Hsz. done.
Defined.

(** The request passes the check of [draining], the whole drain runs, the request
    goes on. *)
Definition race_run : list event :=
  [Arrive 0 "a"; Step 0 0; Shutdown 1000; DrainStep 0; DrainStep 0; DrainStep 0; Step 1 0; Step 1 0].

(** A drain that reports zero can be followed by a request in flight.  The
    check of [draining] and the increment of the counter are separate steps of
    [Admit]: a goroutine that has passed the check when [Drain] stores the flag
    is not counted yet, [Drain] reads zero and returns a clean drain, and the
    request is then let through and holds a slot. *)
Theorem drain_race :
  ∃ y, rtc sstep (idle limited) y ∧ sy_drain y = Some (DrDone 0) ∧ draining (sy_admitter y) = true ∧
    inFlight (sy_admitter y) = 1 ∧ sy_requests y !! 0%nat = Some ("a", Holding).
Proof.
  destruct (play race_run (idle limited)) as [y|] eqn:E; [|vm_compute in E; done].
  exists y. split; [by eapply play_run|]. vm_compute in E. injection E as <-. by split_and!.
Qed.

(** ** The token bucket *)

(** [k] calls at one instant; how many were allowed. *)
Fixpoint allow_n (now : Z) (k : nat) (b : tokenBucket) : nat :=
  match k with
  | O => O
  | S k => let (b, ok) := allow now b in ((if ok then 1 else 0) + allow_n now k b)%nat
  end.

Definition finite_positive (x : float64) : Prop := ∃ m e, x = S754_finite false m e.

Lemma no_time_no_tokens n r :
  0 ≤ n < 2 ^ 53 → finite_positive r → fadd (float_of_int n) (fmul (Seconds 0) r) = float_of_int n.
Proof.
  intros Hn (m & e & ->). change (fmul (Seconds 0) (S754_finite false m e)) with (S754_zero false).
  destruct (decide (n = 0)) as [->|]; [done|]. destruct (small_digits n) as (p & -> & Hp); [lia|].
  by rewrite float_of_pos.
Qed.

Lemma allow_n_same now k n j r :
  0 ≤ j ≤ n → n < 2 ^ 53 → finite_positive r →
  allow_n now k (mkBucket (float_of_int j) (float_of_int n) r now) = Nat.min k (Z.to_nat j).
Proof.
  intros Hj Hn Hr. revert j Hj. induction k as [|k IH]; intros j Hj; [done|]. simpl.
  unfold allow, refilled. cbn [tokens capacity rate b_last]. rewrite Z.sub_diag, no_time_no_tokens by (done || lia).
  rewrite (flt_spec n j) by lia. destruct (Z.ltb_spec n j); [lia|]. rewrite flt_spec by lia.
  destruct (Z.ltb_spec j 1).
  - rewrite IH by lia. replace j with 0 by lia. simpl. by rewrite Nat.min_0_r.
  - rewrite fsub_one, IH by lia. by replace (Z.to_nat j) with (S (Z.to_nat (j - 1))) by lia.
Qed.

(** An idle client has exactly its burst.  When the time since the last call
    has refilled the bucket to its capacity or beyond (in float64 arithmetic,
    rounding included), then of any number of calls at that instant exactly the
    burst are allowed: silence is never banked beyond it. *)
Theorem idle_burst now k burst b :
  1 ≤ burst < 2 ^ 53 → capacity b = float_of_int burst → finite_positive (rate b) →
  flt (capacity b) (fadd (tokens b) (fmul (Seconds (now - b_last b)) (rate b))) = true →
  allow_n now k b = Nat.min k (Z.to_nat burst).
Proof.
  intros Hb Hcap Hr Hfull. destruct k as [|k]; [done|]. simpl. unfold allow, refilled.
  rewrite Hfull, Hcap, flt_spec by lia. destruct (Z.ltb_spec burst 1); [lia|].
  rewrite fsub_one, allow_n_same by (done || lia).
  by replace (Z.to_nat burst) with (S (Z.to_nat (burst - 1))) by lia.
Qed.

Lemma idle_burst_witness :
  let b := mkBucket (float_of_int 0) (float_of_int 3) (float_of_int 2) 0 in
  allow_n (10 * Second) 7 b = 3%nat.
Proof.
  intros b. apply (idle_burst (10 * Second) 7 3 b); [lia|reflexivity|eexists _, _; vm_compute; reflexivity|].
  vm_compute. reflexivity.
Defined.

(** ** Drain returns

    [obs k] is the clock and the admitter that step [k] of the draining goroutine
    sees; nothing is assumed of the requests. *)
Fixpoint drain_run (fuel k : nat) (obs : nat → Z * Admitter) (d : drain_pc) : option Z :=
  match d, fuel with
  | DrDone n, _ => Some n
  | _, O => None
  | _, S fuel => drain_run fuel (S k) obs (drain_step (obs k).1 d (obs k).2).2
  end.

Definition sleep : Z := 5000000.

Lemma drain_run_done fuel k obs n : drain_run fuel k obs (DrDone n) = Some n.
Proof. by destruct fuel. Qed.

Lemma drain_loop_returns r k obs deadline :
  (∀ k, (obs k).1 + sleep ≤ (obs (S (S k))).1) → deadline - (obs k).1 ≤ Z.of_nat r * sleep →
  ∃ n, drain_run (2 * r + 2) k obs (DrLoop deadline) = Some n.
Proof.
  intros Hclock. revert k. induction r as [|r IH]; intros k Hk.
  - simpl. destruct (Z.ltb_spec (obs k).1 deadline); [lia|]. simpl. eauto.
  - replace (2 * S r + 2)%nat with (S (S (2 * r + 2))) by lia. cbn [drain_run drain_step snd].
    destruct (_ <? deadline); cbn [drain_run drain_step snd]; [|rewrite drain_run_done; eauto].
    destruct (inFlight (obs (S k)).2 =? 0); [rewrite drain_run_done; eauto|]. apply IH. specialize (Hclock k). lia.
Qed.

(** [Drain] returns.  If every sleep of the loop lets the clock advance by
    its five milliseconds, a drain with timeout [t] returns after at most
    [2 * (t / 5ms) + 7] steps, whatever the requests in flight do. *)
Theorem Drain_returns obs timeout :
  (∀ k, (obs k).1 + sleep ≤ (obs (S (S k))).1) → (obs 0%nat).1 ≤ (obs 1%nat).1 → 0 ≤ timeout →
  ∃ n, drain_run (2 * Z.to_nat (timeout / sleep) + 7) 0 obs (DrStart timeout) = Some n.
Proof.
  intros Hclock Hmono Ht.
  destruct (drain_loop_returns (Z.to_nat (timeout / sleep) + 2) 1 obs ((obs 0%nat).1 + timeout) Hclock) as [n Hn].
  { assert (timeout < sleep * (timeout / sleep) + sleep); [|unfold sleep in *; lia].
    pose proof (Z.mul_succ_div_gt timeout sleep). unfold sleep in *. lia. }
  exists n. replace (2 * Z.to_nat (timeout / sleep) + 7)%nat
    with (S (2 * (Z.to_nat (timeout / sleep) + 2) + 2)) by lia. exact Hn.
Qed.

Lemma Drain_returns_witness :
  let obs := λ k : nat, (Z.of_nat k * sleep, set_inFlight 1 (NewAdmitter limited)) in
  ∃ n, drain_run 11 0 obs (DrStart (2 * sleep)) = Some n.
Proof. intros obs. apply (Drain_returns obs (2 * sleep)); unfold obs; cbn [fst]; unfold sleep; lia. Defined.
