(* ===== verification/GoStrings.v ===== *)
(** * Go's strings package and net.SplitHostPort, as far as the flags need them

    Text is a list of bytes ([ascii]).  White space is Unicode's White_Space in
    UTF-8: [TrimSpace] takes whole encodings off either end. *)

From Stdlib Require Import Ascii.
From S2P Require Import Prelude.

Local Open Scope Z_scope.

Abbreviation text := (list ascii).

Definition to_text (s : string) : text := String.list_ascii_of_string s.
Definition of_text (t : text) : string := String.string_of_list_ascii t.

#[global] Instance to_text_inj : Inj (=) (=) to_text.
Proof.
  intros s t E. rewrite <- (String.string_of_list_ascii_of_string s), <- (String.string_of_list_ascii_of_string t).
  by f_equal.
Qed.

#[global] Instance of_text_inj : Inj (=) (=) of_text.
Proof.
  intros s t E. rewrite <- (String.list_ascii_of_string_of_list_ascii s).
  rewrite <- (String.list_ascii_of_string_of_list_ascii t). by f_equal.
Qed.

Definition byte (n : nat) : ascii := ascii_of_nat n.

(** ** strings.Split, Count, Cut with a one-byte separator *)

Fixpoint split_on (sep : ascii) (t : text) : list text :=
  match t with
  | [] => [[]]
  | c :: t =>
      if decide (c = sep) then [] :: split_on sep t
      else match split_on sep t with
           | part :: parts => (c :: part) :: parts
           | [] => [[c]]
           end
  end.

Definition count (c : ascii) (t : text) : nat := length (filter (c =.) t).

Fixpoint cut (sep : ascii) (t : text) : text * text :=
  match t with
  | [] => ([], [])
  | c :: t => if decide (c = sep) then ([], t) else let (a, b) := cut sep t in (c :: a, b)
  end.

Fixpoint join (sep : ascii) (ts : list text) : text :=
  match ts with
  | [] => []
  | [t] => t
  | t :: ts => t ++ sep :: join sep ts
  end.

(** ** strings.TrimSpace *)

Definition utf8_spaces : list text :=
  map (map byte)
    ([[9]; [10]; [11]; [12]; [13]; [32]; [194; 133]; [194; 160]; [225; 154; 128]]
     ++ ((λ n, [226; 128; n]) <$> seq 128 11)
     ++ [[226; 128; 168]; [226; 128; 169]; [226; 128; 175]; [226; 129; 159]; [227; 128; 128]])%nat.

Fixpoint strip_prefix (p t : text) : option text :=
  match p, t with
  | [], _ => Some t
  | c :: p, d :: t => if decide (c = d) then strip_prefix p t else None
  | _, [] => None
  end.

(** One space of [sps] off the front. *)
Definition strip_space (sps : list text) (t : text) : option text := head (omap (λ p, strip_prefix p t) sps).

Fixpoint trim_front (fuel : nat) (sps : list text) (t : text) : text :=
  match fuel with
  | O => t
  | S fuel => match strip_space sps t with Some t => trim_front fuel sps t | None => t end
  end.

Definition TrimSpace (t : text) : text :=
  let t := trim_front (length t) utf8_spaces t in
  reverse (trim_front (length t) (reverse <$> utf8_spaces) (reverse t)).

(** ** net.SplitHostPort *)

Definition index_of (c : ascii) (t : text) : option nat := fst <$> list_find (c =.) t.

Definition last_index_of (c : ascii) (t : text) : option nat :=
  (λ k, length t - 1 - k)%nat <$> index_of c (reverse t).

Definition missingPort : string := "missing port in address".
Definition tooManyColons : string := "too many colons in address".

Definition colon : ascii := byte 58.
Definition lbracket : ascii := byte 91.
Definition rbracket : ascii := byte 93.

(** What follows the host: no further bracket, and the port. *)
Definition host_port (t host : text) (j k i : nat) : string + text * text :=
  if bool_decide (is_Some (index_of lbracket (drop j t))) then inl "unexpected '[' in address"
  else if bool_decide (is_Some (index_of rbracket (drop k t))) then inl "unexpected ']' in address"
  else inr (host, drop (S i) t).

Definition SplitHostPort (t : text) : string + text * text :=
  match last_index_of colon t with
  | None => inl missingPort
  | Some i =>
      if bool_decide (head t = Some lbracket) then
        match index_of rbracket t with
        | None => inl "missing ']' in address"
        | Some e =>
            if (S e =? length t)%nat then inl missingPort
            else if (S e =? i)%nat then host_port t (take (e - 1) (drop 1 t)) 1 (S e) i
            else if bool_decide (t !! S e = Some colon) then inl tooManyColons
            else inl missingPort
        end
      else if bool_decide (is_Some (index_of colon (take i t))) then inl tooManyColons
      else host_port t (take i t) 0 0 i
  end.

(** ** The verb [%q]

    [strconv.Quote] on ASCII; bytes from 128 on are kept, which is what it does
    with printable UTF-8. *)

Definition hex_digit (n : nat) : ascii := if (n <? 10)%nat then byte (48 + n) else byte (87 + n).

Definition quote_byte (c : ascii) : text :=
  let n := nat_of_ascii c in
  match n with
  | 7 => [byte 92; byte 97]
  | 8 => [byte 92; byte 98]
  | 9 => [byte 92; byte 116]
  | 10 => [byte 92; byte 110]
  | 11 => [byte 92; byte 118]
  | 12 => [byte 92; byte 102]
  | 13 => [byte 92; byte 114]
  | 34 => [byte 92; byte 34]
  | 92 => [byte 92; byte 92]
  | _ =>
      if ((n <? 32) || (n =? 127))%nat then [byte 92; byte 120; hex_digit (n / 16); hex_digit (n mod 16)]
      else [c]
  end%nat.

Definition Quote (s : string) : string :=
  of_text (byte 34 :: concat (quote_byte <$> to_text s) ++ [byte 34]).

(** ** Lemmas *)

Lemma to_of_text t : to_text (of_text t) = t.
Proof. apply String.list_ascii_of_string_of_list_ascii. Qed.

Lemma of_to_text s : of_text (to_text s) = s.
Proof. apply String.string_of_list_ascii_of_string. Qed.

Lemma to_text_app a b : to_text (a +:+ b) = to_text a ++ to_text b.
Proof. unfold to_text. induction a as [|c a IH]; [done|]. simpl. by rewrite IH. Qed.

Lemma split_on_nonempty sep t : split_on sep t ≠ [].
Proof. destruct t as [|c t]; simpl; [done|]. case_decide; [done|]. by destruct (split_on sep t). Qed.

Lemma split_on_none sep t : sep ∉ t → split_on sep t = [t].
Proof.
  induction t as [|c t IH]; simpl; [done|]. rewrite not_elem_of_cons. intros [Hc Ht].
  rewrite decide_False by done. by rewrite IH.
Qed.

Lemma split_on_app sep t t' : sep ∉ t → split_on sep (t ++ sep :: t') = t :: split_on sep t'.
Proof.
  induction t as [|c t IH]; simpl; [by rewrite decide_True|]. rewrite not_elem_of_cons. intros [Hc Ht].
  rewrite decide_False by done. by rewrite IH.
Qed.

Lemma split_on_join sep ts : ts ≠ [] → Forall (λ t, sep ∉ t) ts → split_on sep (join sep ts) = ts.
Proof.
  induction ts as [|t ts IH]; [done|]. intros _ [Ht Hts]%Forall_cons. destruct ts as [|t' ts].
  - by apply split_on_none.
  - change (join sep (t :: t' :: ts)) with (t ++ sep :: join sep (t' :: ts)).
    by rewrite split_on_app, IH.
Qed.

Lemma cut_app sep t t' : sep ∉ t → cut sep (t ++ sep :: t') = (t, t').
Proof.
  induction t as [|c t IH]; simpl; [by rewrite decide_True|]. rewrite not_elem_of_cons. intros [Hc Ht].
  rewrite decide_False by done. by rewrite IH.
Qed.

Lemma count_app c t t' : count c (t ++ t') = (count c t + count c t')%nat.
Proof. unfold count. by rewrite filter_app, length_app. Qed.

Lemma count_none c t : c ∉ t → count c t = 0%nat.
Proof.
  intros Hc. unfold count. destruct (filter (c =.) t) as [|d l] eqn:E; [done|].
  assert (d ∈ filter (c =.) t) as [Hd Hin]%list_elem_of_filter by (rewrite E; by left). by subst.
Qed.

(** Nothing to trim at either end. *)
Definition trimmed (t : text) : bool :=
  bool_decide (strip_space utf8_spaces t = None)
  && bool_decide (strip_space (reverse <$> utf8_spaces) (reverse t) = None).

Lemma trim_front_none fuel sps t : strip_space sps t = None → trim_front fuel sps t = t.
Proof. intros E. destruct fuel; simpl; [done|]. by rewrite E. Qed.

Lemma TrimSpace_id t : trimmed t = true → TrimSpace t = t.
Proof.
  intros [H1%bool_decide_eq_true H2%bool_decide_eq_true]%andb_true_iff. unfold TrimSpace.
  rewrite (trim_front_none _ utf8_spaces) by done. rewrite trim_front_none by done. apply reverse_involutive.
Qed.

Lemma strip_space_None sps t : strip_space sps t = None ↔ ∀ p, p ∈ sps → strip_prefix p t = None.
Proof.
  unfold strip_space. induction sps as [|p sps IH]; simpl; [by split; [intros _ p ?%elem_of_nil|]|].
  setoid_rewrite elem_of_cons. destruct (strip_prefix p t) eqn:E; simpl.
  - split; [done|]. intros Ht. by rewrite (Ht p (or_introl eq_refl)) in E.
  - rewrite IH. split; [intros Ht q [->|Hq]; auto|auto].
Qed.

(** A space that straddles the boundary before [c] contains [c]. *)
Lemma strip_prefix_app p a c b :
  c ∉ p → a ≠ [] ∨ p ≠ [] → strip_prefix p a = None → strip_prefix p (a ++ c :: b) = None.
Proof.
  revert a. induction p as [|d p IH]; intros a Hc Hne; [done|]. apply not_elem_of_cons in Hc as [Hcd Hc].
  destruct a as [|x a]; simpl.
  - intros _. rewrite decide_False by congruence. done.
  - case_decide; [|done]. intros Ha. destruct p as [|d' p]; [done|]. apply IH; auto.
Qed.

Lemma trimmed_app a c b :
  a ≠ [] → b ≠ [] → Forall (λ p, c ∉ p) utf8_spaces → trimmed a = true → trimmed b = true →
  trimmed (a ++ c :: b) = true.
Proof.
  intros Ha Hb Hc [Ha1%bool_decide_eq_true Ha2]%andb_true_iff [Hb1 Hb2%bool_decide_eq_true]%andb_true_iff.
  rewrite Forall_forall in Hc. apply andb_true_iff.
  split; apply bool_decide_eq_true, strip_space_None; intros p Hp.
  - rewrite strip_space_None in Ha1. apply strip_prefix_app; auto.
  - rewrite strip_space_None in Hb2. apply list_elem_of_fmap in Hp as (q & -> & Hq).
    rewrite reverse_app, reverse_cons, <- app_assoc. apply strip_prefix_app.
    + rewrite elem_of_reverse. by apply Hc.
    + left. intros E. apply Hb. by rewrite <- (reverse_involutive b), E.
    + apply Hb2, list_elem_of_fmap. eauto.
Qed.

(** * strconv: reading decimal integers

    [ParseInt] with base 10 and 64 bits, and [Atoi], which agrees with it on a 64-bit
    platform: the value, and whether it is a syntax or a range error.  A syntax error
    comes with 0, a range error with the nearest value. *)

From S2P Require Import GoLib.

Inductive num_error := ErrSyntax | ErrRange.

Definition maxUint64 : Z := 2 ^ 64 - 1.

Definition digit_of (c : ascii) : option Z :=
  let n := Z.of_nat (nat_of_ascii c) in if (48 <=? n) && (n <=? 57) then Some (n - 48) else None.

(** The loop of [ParseUint]. *)
Fixpoint parse_digits (t : text) (n : Z) : Z * option num_error :=
  match t with
  | [] => (n, None)
  | c :: t =>
      match digit_of c with
      | None => (0, Some ErrSyntax)
      | Some d =>
          if maxUint64 / 10 + 1 <=? n then (maxUint64, Some ErrRange)
          else
            let n := u64 (n * 10) in
            let n1 := u64 (n + d) in
            if n1 <? n then (maxUint64, Some ErrRange) else parse_digits t n1
      end
  end.

Definition ParseUint (t : text) : Z * option num_error :=
  match t with [] => (0, Some ErrSyntax) | _ => parse_digits t 0 end.

(** A leading sign. *)
Definition sign_of (t : text) : bool * text :=
  match t with
  | c :: rest => if decide (c = "+"%char) then (false, rest) else if decide (c = "-"%char) then (true, rest) else (false, t)
  | [] => (false, [])
  end.

Definition ParseInt (s : string) : Z * option num_error :=
  match to_text s with
  | [] => (0, Some ErrSyntax)
  | t =>
      let (neg, t) := sign_of t in
      let (un, err) := ParseUint t in
      match err with
      | Some ErrSyntax => (0, Some ErrSyntax)
      | _ =>
          if negb neg && (2 ^ 63 <=? un) then (2 ^ 63 - 1, Some ErrRange)
          else if neg && (2 ^ 63 <? un) then (- 2 ^ 63, Some ErrRange)
          else (if neg : bool then i64 (- i64 un) else i64 un, None)
      end
  end.

Definition Atoi (s : string) : Z * option num_error := ParseInt s.

(** ** Properties *)

Lemma parse_digits_range t n : in_u64 n → in_u64 (parse_digits t n).1.
Proof.
  revert n. induction t as [|c t IH]; intros n Hn; simpl; [done|].
  destruct (digit_of c) as [d|]; [|simpl; unfold in_u64; lia].
  destruct (_ <=? _); [simpl; unfold in_u64, maxUint64; lia|]. destruct (_ <? _); [simpl; unfold in_u64, maxUint64; lia|].
  apply IH, u64_range.
Qed.

(** Whatever the text, the value is an int64. *)
Lemma ParseInt_range s : in_i64 (ParseInt s).1.
Proof.
  unfold ParseInt. destruct (to_text s) as [|c t]; [simpl; unfold in_i64; lia|].
  destruct (sign_of (c :: t)) as [neg t']. destruct (ParseUint t') as [un [[]|]]; simpl; [unfold in_i64; lia| |];
    destruct neg; simpl; repeat (destruct (_ <=? _)); repeat (destruct (_ <? _)); simpl;
    try apply i64_range; unfold in_i64; lia.
Qed.

Lemma parse_digits_step c d t n :
  digit_of c = Some d → 0 ≤ n → 0 ≤ d ≤ 9 → n * 10 + d ≤ maxUint64 → parse_digits (c :: t) n = parse_digits t (n * 10 + d).
Proof.
  unfold maxUint64. intros Hc Hn Hd Hle. cbn [parse_digits]. rewrite Hc. unfold maxUint64.
  destruct (Z.leb_spec ((2 ^ 64 - 1) / 10 + 1) n) as [Hge|Hlt].
  { assert ((2 ^ 64 - 1) / 10 = 1844674407370955161) as E by (vm_compute; reflexivity). lia. }
  rewrite (u64_small (n * 10)) by (unfold in_u64; lia). rewrite (u64_small (n * 10 + d)) by (unfold in_u64; lia).
  destruct (Z.ltb_spec (n * 10 + d) (n * 10)); [lia|done].
Qed.

Lemma digit_of_pretty (x : N) : (x < 10)%N → digit_of (pretty_N_char x) = Some (Z.of_N x).
Proof.
  intros Hx. assert (x = 0 ∨ x = 1 ∨ x = 2 ∨ x = 3 ∨ x = 4 ∨ x = 5 ∨ x = 6 ∨ x = 7 ∨ x = 8 ∨ x = 9)%N as Hc by lia.
  by destruct_or!; subst.
Qed.

Lemma parse_pretty_go (x : N) s :
  Z.of_N x ≤ maxUint64 → parse_digits (to_text (pretty_N_go x s)) 0 = parse_digits (to_text s) (Z.of_N x).
Proof.
  revert s. induction (N.lt_wf_0 x) as [x _ IH]; intros s Hx.
  destruct (decide (x = 0)%N) as [->|Hne]; [by rewrite pretty_N_go_0|].
  rewrite pretty_N_go_step by lia. pose proof (N.div_mod x 10 ltac:(lia)) as Hdm. pose proof (N.mod_lt x 10 ltac:(lia)) as Hm.
  assert (x `div` 10 < x)%N as Hlt by (apply N.div_lt; lia).
  rewrite IH; [|done|clear IH; lia]. clear IH. revert Hdm Hm. generalize (x `div` 10)%N (x `mod` 10)%N. intros q r Hdm Hm. change (to_text (String ?c ?s)) with (c :: to_text s).
  rewrite (parse_digits_step _ (Z.of_N r)); [|by apply digit_of_pretty|lia|lia|lia].
  f_equal. lia.
Qed.

Lemma parse_pretty_N (x : N) : Z.of_N x ≤ maxUint64 → ParseUint (to_text (pretty x)) = (Z.of_N x, None).
Proof.
  intros Hx. unfold ParseUint. destruct (to_text (pretty x)) as [|c t] eqn:E.
  - exfalso. unfold pretty, pretty_N in E. case_decide as H0; [done|]. rewrite pretty_N_go_step in E by lia.
    assert (∀ y s, to_text s ≠ [] → to_text (pretty_N_go y s) ≠ []) as Hne.
    { intros y. induction (N.lt_wf_0 y) as [y _ IH]. intros s Hs. destruct (decide (y = 0)%N) as [->|]; [by rewrite pretty_N_go_0|].
      rewrite pretty_N_go_step by lia. apply IH; [apply N.div_lt; lia|done]. }
    by eapply Hne in E.
  - rewrite <- E. unfold pretty, pretty_N. case_decide as H0; [by subst|]. by rewrite parse_pretty_go.
Qed.

Lemma sign_of_digits t n : ParseUint t = (n, None) → sign_of t = (false, t).
Proof.
  destruct t as [|c t]; [done|]. cbn [ParseUint parse_digits]. intros E. unfold sign_of.
  destruct (decide (c = "+"%char)) as [->|]; [done|]. by destruct (decide (c = "-"%char)) as [->|].
Qed.

(** What [%d] prints is read back. *)
Lemma ParseInt_fmt_d z : in_i64 z → ParseInt (fmt_d z) = (z, None).
Proof.
  intros Hz. unfold in_i64 in Hz. unfold ParseInt, fmt_d.
  destruct (Z.lt_ge_cases z 0) as [Hneg|Hpos].
  - destruct z as [|p|p]; [lia|lia|]. change (pretty (Z.neg p)) with ("-" +:+ pretty (N.pos p)).
    change (to_text ("-" +:+ pretty (N.pos p))) with ("-"%char :: to_text (pretty (N.pos p))).
    assert (∀ t, sign_of ("-"%char :: t) = (true, t)) as Hs by done. cbv beta iota. rewrite Hs.
    rewrite parse_pretty_N by (unfold maxUint64; lia). cbn [negb andb]. change (Z.of_N (N.pos p)) with (Z.pos p).
    destruct (Z.ltb_spec (2 ^ 63) (Z.pos p)); [lia|]. f_equal.
    destruct (decide (Z.pos p = 2 ^ 63)) as [E|Hne]; [change (Z.neg p) with (- Z.pos p); by rewrite E|].
    rewrite (i64_small (Z.pos p)), i64_small; [done|..]; unfold in_i64; lia.
  - assert (pretty z = pretty (Z.to_N z)) as Hp by (destruct z; [done|done|lia]). rewrite Hp.
    pose proof (parse_pretty_N (Z.to_N z) ltac:(unfold maxUint64; lia)) as Hu.
    pose proof (sign_of_digits _ _ Hu) as Hs. destruct (to_text (pretty (Z.to_N z))) as [|c t]; [done|].
    rewrite Hs, Hu. rewrite Z2N.id by lia. cbn [negb andb]. destruct (Z.leb_spec (2 ^ 63) z); [lia|].
    rewrite i64_small by (unfold in_i64; lia). done.
Qed.
