(* ===== verification/GoRunes.v ===== *)
(** * Strings as runes, and file paths (packages unicode/utf8, strings, path/filepath)

    What [for _, ch := range s] yields, the case folding that the programs use,
    and [filepath.Join].  A byte that does not start a valid encoding yields
    U+FFFD and one byte is skipped. *)

From Stdlib Require Import Ascii.
From S2P Require Import Prelude GoLib GoStrings.

Local Open Scope Z_scope.

(** ** Decoding *)

Definition RuneError : Z := 65533.

Definition between (lo hi c : Z) : bool := (lo <=? c) && (c <=? hi).

Definition low6 (c : Z) : Z := Z.land c 63.

(** What the second byte may be, given the first. *)
Definition second_ok (b c : Z) : bool :=
  if b =? 224 then between 160 191 c
  else if b =? 237 then between 128 159 c
  else if b =? 240 then between 144 191 c
  else if b =? 244 then between 128 143 c
  else between 128 191 c.

(** The rune that starts with byte [b], and how many more bytes it takes. *)
Definition decode_rune (b : Z) (rest : list Z) : Z * nat :=
  if b <? 128 then (b, 0%nat)
  else if between 194 223 b then
    match rest with
    | c :: _ => if second_ok b c then (Z.lor (Z.shiftl (Z.land b 31) 6) (low6 c), 1%nat) else (RuneError, 0%nat)
    | _ => (RuneError, 0%nat)
    end
  else if between 224 239 b then
    match rest with
    | c :: d :: _ =>
        if second_ok b c && between 128 191 d
        then (Z.lor (Z.lor (Z.shiftl (Z.land b 15) 12) (Z.shiftl (low6 c) 6)) (low6 d), 2%nat)
        else (RuneError, 0%nat)
    | _ => (RuneError, 0%nat)
    end
  else if between 240 244 b then
    match rest with
    | c :: d :: e :: _ =>
        if second_ok b c && between 128 191 d && between 128 191 e
        then (Z.lor (Z.lor (Z.shiftl (Z.land b 7) 18) (Z.shiftl (low6 c) 12)) (Z.lor (Z.shiftl (low6 d) 6) (low6 e)), 3%nat)
        else (RuneError, 0%nat)
    | _ => (RuneError, 0%nat)
    end
  else (RuneError, 0%nat).

Fixpoint decode (skip : nat) (l : list Z) : list Z :=
  match l with
  | [] => []
  | b :: l =>
      match skip with
      | S k => decode k l
      | O => let (r, n) := decode_rune b l in r :: decode n l
      end
  end.

Definition bytes_of (s : string) : list Z := (λ c, Z.of_nat (Ascii.nat_of_ascii c)) <$> to_text s.

Definition runes (s : string) : list Z := decode 0 (bytes_of s).

Lemma decode_ascii l : Forall (λ b, b < 128) l → decode 0 l = l.
Proof.
  induction 1 as [|b l Hb _ IH]; [done|]. simpl. unfold decode_rune.
  destruct (Z.ltb_spec b 128); [|lia]. by rewrite IH.
Qed.

Example runes_examples :
  runes "n1" = [110; 49] ∧ runes "é€" = [233; 8364] ∧ runes "𝄞" = [119070]
  ∧ runes (String (Ascii.ascii_of_nat 255) "a") = [RuneError; 97] ∧ runes (String (Ascii.ascii_of_nat 226) "a") = [RuneError; 97].
Proof. repeat split. Qed.

(** [%-Ns] pads on the right; the width counts runes. *)
Definition pad (w : nat) (s : string) : string :=
  s +:+ String.concat "" (replicate (w - length (runes s)) " ").

(** ** Case

    [strings.EqualFold] against a string of lower-case ASCII letters: the runes
    beyond ASCII that fold to a letter are U+017F (s) and U+212A (k).  Equality of
    [strings.ToLower] with such a string: the runes beyond ASCII whose lower case
    is a letter are U+0130 (i) and U+212A (k). *)
Definition lower_ascii (r : Z) : Z := if between 65 90 r then r + 32 else r.

Definition fold_rune (r : Z) : Z := if r =? 383 then 115 else if r =? 8490 then 107 else lower_ascii r.
Definition lower_rune (r : Z) : Z := if r =? 304 then 105 else if r =? 8490 then 107 else lower_ascii r.

Definition EqualFold (s word : string) : bool := bool_decide (fold_rune <$> runes s = bytes_of word).
Definition ToLower_is (s word : string) : bool := bool_decide (lower_rune <$> runes s = bytes_of word).

(** ** filepath.Clean and Join on Unix

    The elements kept so far are in reverse. *)
Definition slash : ascii := byte 47.

Definition clean_step (rooted : bool) (acc : list text) (e : text) : list text :=
  if bool_decide (e = [] ∨ e = to_text ".") then acc
  else if bool_decide (e = to_text "..") then
    match acc with
    | e' :: acc' => if bool_decide (e' = to_text "..") then e :: acc else acc'
    | [] => if rooted then [] else [e]
    end
  else e :: acc.

Definition Clean (p : text) : text :=
  let rooted := bool_decide (head p = Some slash) in
  let body := join slash (reverse (foldl (clean_step rooted) [] (split_on slash p))) in
  if rooted then slash :: body else if bool_decide (body = []) then to_text "." else body.

(** Empty elements are ignored. *)
Definition Join (dir name : string) : string :=
  if bool_decide (dir = "" ∧ name = "") then ""
  else if bool_decide (dir = "") then of_text (Clean (to_text name))
  else if bool_decide (name = "") then of_text (Clean (to_text dir))
  else of_text (Clean (to_text dir ++ slash :: to_text name)).

Example Join_examples :
  Join "./data" "n1-s0" = "data/n1-s0" ∧ Join "/var//lib/." "x" = "/var/lib/x" ∧ Join "" "x" = "x" ∧ Join "a" "../../b" = "../b"
  ∧ Join "/" "../b" = "/b" ∧ Join "a" ".." = ".".
Proof. repeat split. Qed.

(** The last element of a joined path, when it is a plain name. *)
Definition plain_name (t : text) : Prop := (slash ∉ t) ∧ t ≠ [] ∧ t ≠ to_text "." ∧ t ≠ to_text "..".

Lemma clean_step_plain rooted acc t : plain_name t → clean_step rooted acc t = t :: acc.
Proof.
  intros (_ & H1 & H2 & H3). unfold clean_step. rewrite bool_decide_eq_false_2 by (intros [?|?]; done).
  by rewrite bool_decide_eq_false_2.
Qed.

Lemma split_on_snoc sep p t : sep ∉ t → split_on sep (p ++ sep :: t) = split_on sep p ++ [t].
Proof.
  intros Ht. induction p as [|c p IH]; simpl.
  - rewrite decide_True by done. by rewrite split_on_none.
  - rewrite IH. destruct (decide (c = sep)); [done|].
    destruct (split_on sep p) eqn:E; [by apply split_on_nonempty in E|done].
Qed.

Lemma split_on_parts sep t : Forall (λ p, sep ∉ p) (split_on sep t).
Proof.
  induction t as [|c t IH]; simpl; [by repeat constructor; apply not_elem_of_nil|].
  destruct (decide (c = sep)); [constructor; [apply not_elem_of_nil|done]|].
  destruct IH as [|p ps Hp Hps]; constructor; [|constructor| |done].
  - by rewrite list_elem_of_singleton.
  - by apply not_elem_of_cons.
Qed.

Lemma clean_parts rooted es acc :
  Forall (λ p, slash ∉ p) es → Forall (λ p, slash ∉ p) acc → Forall (λ p, slash ∉ p) (foldl (clean_step rooted) acc es).
Proof.
  intros Hes. revert acc. induction Hes as [|e es He _ IH]; intros acc Hacc; [done|]. apply IH. unfold clean_step.
  case_bool_decide; [done|]. case_bool_decide; [|by constructor]. destruct Hacc; [by destruct rooted; repeat constructor|].
  by case_bool_decide; repeat constructor.
Qed.

(** Joined to a directory, two plain names are two paths. *)
Lemma Join_inj dir a b :
  plain_name (to_text a) → plain_name (to_text b) → Join dir a = Join dir b → a = b.
Proof.
  intros Ha Hb. set (l := λ rooted, foldl (clean_step rooted) [] (split_on slash (to_text dir))).
  assert (∀ t, plain_name (to_text t) → Join dir t = if bool_decide (dir = "") then t else
    let r := bool_decide (head (to_text dir) = Some slash) in
    of_text ((if r then [slash] else []) ++ join slash (reverse (l r) ++ [to_text t]))) as Hj.
  { intros t Ht. unfold Join. assert (t ≠ "") as Hne by (intros ->; by destruct Ht as (_ & ? & _)).
    rewrite bool_decide_eq_false_2 by (intros [_ ?]; done). case_bool_decide as Hd.
    - unfold Clean. rewrite split_on_none by apply Ht. simpl foldl.
      assert (bool_decide (head (to_text t) = Some slash) = false) as ->.
      { apply bool_decide_eq_false. destruct Ht as [Hs _]. destruct (to_text t); [done|]. intros [= ->]. apply Hs. by left. }
      rewrite clean_step_plain by done. simpl. rewrite bool_decide_eq_false_2 by apply Ht. unfold of_text, to_text.
      apply String.string_of_list_ascii_of_string.
    - rewrite bool_decide_eq_false_2 by done. unfold Clean. rewrite split_on_snoc by apply Ht.
      destruct dir as [|c dir]; [done|]. cbn [to_text String.list_ascii_of_string head app].
      rewrite foldl_app. simpl foldl. rewrite clean_step_plain, reverse_cons by done. f_equal.
      case_bool_decide; [done|]. rewrite bool_decide_eq_false_2; [done|].
      intros E. apply (f_equal (split_on slash)) in E. rewrite split_on_join in E.
      + simpl in E. apply (f_equal last) in E. rewrite last_snoc in E. destruct Ht as (_ & ? & _). naive_solver.
      + by destruct (reverse _).
      + apply Forall_app. split; [|by repeat constructor; apply Ht]. apply Forall_reverse, clean_parts; [apply (split_on_parts slash (to_text (String c dir)))|done]. }
  rewrite !Hj by done. case_bool_decide; [done|]. cbn zeta. intros E.
  apply (f_equal to_text) in E. unfold to_text, of_text in E. rewrite !String.list_ascii_of_string_of_list_ascii in E.
  apply app_inv_head, (f_equal (split_on slash)) in E.
  rewrite !split_on_join in E; try by destruct (reverse _).
  2, 3: apply Forall_app; split; [apply Forall_reverse, clean_parts; [apply split_on_parts|done]|by repeat constructor; first [apply Ha|apply Hb]].
  apply (f_equal last) in E. rewrite !last_snoc in E. injection E as E.
  apply (f_equal of_text) in E. unfold of_text, to_text in E. by rewrite !String.string_of_list_ascii_of_string in E.
Qed.
