(* ===== verification/Hlc.v ===== *)
(** * Hybrid logical clocks (src/hlc/hlc.go)

    The timestamp order, the clock's [Now] and [Update] with the counter at its
    32-bit width, and the clock condition over processes that exchange
    messages: an event that happened before another has a smaller timestamp.

    The physical clock is an input of every operation, so it may stall or run
    backwards; the mutex makes each operation atomic. *)

From S2P Require Import Prelude.

Local Open Scope Z_scope.

(** ** Timestamps *)

Record Timestamp := mkTimestamp { Wall : Z; Logical : Z }.

#[global] Instance Timestamp_eq_dec : EqDecision Timestamp.
Proof. solve_decision. Defined.

Definition Less (t other : Timestamp) : bool :=
  if negb (Wall t =? Wall other) then Wall t <? Wall other
  else Logical t <? Logical other.

Definition Equal (t other : Timestamp) : bool :=
  (Wall t =? Wall other) && (Logical t =? Logical other).

Definition After (t other : Timestamp) : bool := Less other t.

Definition IsZero (t : Timestamp) : bool := (Wall t =? 0) && (Logical t =? 0).

Definition zeroTimestamp : Timestamp := mkTimestamp 0 0.

Definition wf_ts (t : Timestamp) : Prop := in_u64 (Wall t) ∧ in_u32 (Logical t).

(** ** The clock *)

Record Clock := mkClock { last : Timestamp }.

(** [New] and [NewWithPhysical]: [last] starts at the zero value. *)
Definition New : Clock := mkClock zeroTimestamp.

Definition Now (physical : Z) (c : Clock) : Clock * Timestamp :=
  if Wall (last c) <? physical then
    let t := mkTimestamp physical 0 in (mkClock t, t)
  else
    let t := mkTimestamp (Wall (last c)) (u32 (Logical (last c) + 1)) in (mkClock t, t).

Definition Update (physical : Z) (remote : Timestamp) (c : Clock) : Clock * Timestamp :=
  let wall := physical in
  let wall := if wall <? Wall (last c) then Wall (last c) else wall in
  let wall := if wall <? Wall remote then Wall remote else wall in
  let t :=
    if (wall =? Wall (last c)) && (wall =? Wall remote) then
      let logical := if Logical (last c) <? Logical remote
                     then Logical remote else Logical (last c) in
      mkTimestamp (Wall (last c)) (u32 (logical + 1))
    else if wall =? Wall (last c) then
      mkTimestamp (Wall (last c)) (u32 (Logical (last c) + 1))
    else if wall =? Wall remote then
      mkTimestamp wall (u32 (Logical remote + 1))
    else mkTimestamp wall 0 in
  (mkClock t, t).

Arguments Now : simpl never.
Arguments Update : simpl never.

Definition Last (c : Clock) : Timestamp := last c.

(** ** The order *)

Definition ts_lt (a b : Timestamp) : Prop :=
  Wall a < Wall b ∨ (Wall a = Wall b ∧ Logical a < Logical b).

Lemma Less_lt a b : Less a b = true ↔ ts_lt a b.
Proof.
  unfold Less, ts_lt. destruct (Z.eqb_spec (Wall a) (Wall b)); simpl;
    rewrite Z.ltb_lt; lia.
Qed.

#[global] Instance ts_lt_strict : StrictOrder ts_lt.
Proof.
  split.
  - intros a. unfold complement, ts_lt. lia.
  - intros a b c. unfold ts_lt. lia.
Qed.

Lemma ts_lt_trichotomy a b : ts_lt a b ∨ a = b ∨ ts_lt b a.
Proof.
  destruct a as [wa la], b as [wb lb]. unfold ts_lt. simpl.
  destruct (Z.lt_trichotomy wa wb) as [?|[->|?]]; [tauto| |tauto].
  destruct (Z.lt_trichotomy la lb) as [?|[->|?]]; tauto.
Qed.

(** The counter has room: one more tick does not wrap. *)
Definition has_room (t : Timestamp) : Prop := 0 ≤ Logical t < 2 ^ 32 - 1.

Lemma u32_succ z : 0 ≤ z < 2 ^ 32 - 1 → u32 (z + 1) = z + 1.
Proof. intros. apply u32_small. unfold in_u32. lia. Qed.

Lemma Now_lt physical c :
  has_room (last c) → ts_lt (last c) (Now physical c).2.
Proof.
  unfold has_room, Now, ts_lt. intros Hr.
  destruct (Z.ltb_spec (Wall (last c)) physical); simpl; [lia|].
  rewrite u32_succ; lia.
Qed.

Lemma Now_last physical c : last (Now physical c).1 = (Now physical c).2.
Proof. unfold Now. by destruct (_ <? _). Qed.

Lemma Update_last physical r c : last (Update physical r c).1 = (Update physical r c).2.
Proof. done. Qed.

Lemma Update_lt physical r c :
  has_room (last c) → has_room r →
  ts_lt (last c) (Update physical r c).2 ∧ ts_lt r (Update physical r c).2.
Proof.
  unfold has_room, Update, ts_lt. intros Hc Hr. cbn [snd].
  destruct (Z.ltb_spec physical (Wall (last c)));
    case_match; bool_to_prop; repeat case_match; bool_to_prop; simpl in *;
    rewrite ?u32_succ by lia; try lia;
    repeat match goal with H : (_ && _)%bool = false |- _ => apply andb_false_iff in H as [?|?] end;
    bool_to_prop; lia.
Qed.

Lemma Now_logical_u32 physical c :
  in_u32 (Logical (last c)) → in_u32 (Logical (Now physical c).2).
Proof. unfold Now. intros. destruct (_ <? _); simpl; [unfold in_u32; lia|auto with go]. Qed.

Lemma Update_logical_u32 physical r c : in_u32 (Logical (Update physical r c).2).
Proof.
  unfold Update. cbn [snd]. repeat case_match; simpl; auto with go.
  all: unfold in_u32; lia.
Qed.

(** ** Processes exchanging messages

    Each process owns a clock.  A local event and a send read it with [Now]; a
    send attaches the reading to its message; a receive merges the message's
    timestamp with [Update].  The physical reading of every event is arbitrary. *)

Inductive event :=
  | ELocal (p : string) (physical : Z)
  | ESend (p : string) (physical : Z) (m : nat)
  | ERecv (p : string) (physical : Z) (m : nat).

Definition proc (e : event) : string :=
  match e with ELocal p _ | ESend p _ _ | ERecv p _ _ => p end.

Record system := mkSystem {
  clocks : gmap string Clock;
  msgs : gmap nat Timestamp;
  stamped : list (event * Timestamp)
}.

Definition init_system : system := mkSystem ∅ ∅ [].

Definition clock_of (st : system) (p : string) : Clock := default New (clocks st !! p).

(** One event; a receive needs its message, a send a fresh message id. *)
Definition sys_step (e : event) (st : system) : option system :=
  match e with
  | ELocal p ph =>
      let '(c, t) := Now ph (clock_of st p) in
      Some (mkSystem (<[p:=c]> (clocks st)) (msgs st) (stamped st ++ [(e, t)]))
  | ESend p ph m =>
      match msgs st !! m with
      | Some _ => None
      | None =>
          let '(c, t) := Now ph (clock_of st p) in
          Some (mkSystem (<[p:=c]> (clocks st)) (<[m:=t]> (msgs st)) (stamped st ++ [(e, t)]))
      end
  | ERecv p ph m =>
      match msgs st !! m with
      | None => None
      | Some r =>
          let '(c, t) := Update ph r (clock_of st p) in
          Some (mkSystem (<[p:=c]> (clocks st)) (msgs st) (stamped st ++ [(e, t)]))
      end
  end.

Fixpoint sys_run (es : list event) (st : system) : option system :=
  match es with
  | [] => Some st
  | e :: es => st' ← sys_step e st; sys_run es st'
  end.

(** Lamport's happened-before on the positions of a run: program order of one
    process, a send before the receive of its message, and transitivity. *)
Definition hb_base (tr : list (event * Timestamp)) (i j : nat) : Prop :=
  (i < j)%nat ∧
  ∃ e e' t t', tr !! i = Some (e, t) ∧ tr !! j = Some (e', t') ∧
    (proc e = proc e' ∨
     ∃ p ph q ph' m, e = ESend p ph m ∧ e' = ERecv q ph' m).

Definition happened_before (tr : list (event * Timestamp)) : nat → nat → Prop :=
  tc (hb_base tr).

(** No counter of the run was at its last value. *)
Definition no_wrap (tr : list (event * Timestamp)) : Prop :=
  ∀ i e t, tr !! i = Some (e, t) → has_room t.

Record sys_inv (st : system) : Prop := {
  si_clock : ∀ i e t, stamped st !! i = Some (e, t) →
    t = last (clock_of st (proc e)) ∨ ts_lt t (last (clock_of st (proc e)));
  si_last : ∀ p c, clocks st !! p = Some c →
    ∃ i e, stamped st !! i = Some (e, last c) ∧ proc e = p;
  si_msgs : ∀ i p ph m t, stamped st !! i = Some (ESend p ph m, t) → msgs st !! m = Some t;
  si_msg : ∀ m t, msgs st !! m = Some t → ∃ i e, stamped st !! i = Some (e, t);
  si_base : ∀ i j e e' t t', hb_base (stamped st) i j →
    stamped st !! i = Some (e, t) → stamped st !! j = Some (e', t') → ts_lt t t'
}.

Lemma sys_inv_init : sys_inv init_system.
Proof.
  split; simpl; intros; simplify_eq; try set_solver.
Qed.

(** The reading of a fresh event dominates the clock it was taken from, and the
    message it received. *)
Lemma sys_step_stamp e st st' :
  sys_step e st = Some st' →
  ∃ c t, stamped st' = stamped st ++ [(e, t)] ∧ clocks st' = <[proc e:=c]> (clocks st) ∧
    last c = t ∧
    (has_room (last (clock_of st (proc e))) →
     (∀ p ph m r, e = ERecv p ph m → msgs st !! m = Some r → has_room r) →
     ts_lt (last (clock_of st (proc e))) t ∧
     (∀ p ph m r, e = ERecv p ph m → msgs st !! m = Some r → ts_lt r t)) ∧
    (∀ m, msgs st' !! m = msgs st !! m ∨
      ∃ p ph, e = ESend p ph m ∧ msgs st !! m = None ∧ msgs st' !! m = Some t) ∧
    (∀ p ph m, e = ESend p ph m → msgs st' !! m = Some t).
Proof.
  intros Hst. destruct e as [p ph|p ph m|p ph m]; cbn [sys_step] in Hst.
  - destruct (Now ph _) as [c t] eqn:E. simplify_eq. exists c, t. simpl.
    pose proof (Now_last ph (clock_of st p)) as Hl. pose proof (Now_lt ph (clock_of st p)) as Hlt.
    rewrite E in Hl, Hlt. naive_solver.
  - destruct (msgs st !! m) eqn:Hm; [done|]. destruct (Now ph _) as [c t] eqn:E. simplify_eq.
    exists c, t. simpl.
    pose proof (Now_last ph (clock_of st p)) as Hl. pose proof (Now_lt ph (clock_of st p)) as Hlt.
    rewrite E in Hl, Hlt. split_and!; try naive_solver.
    + intros m'. destruct (decide (m = m')) as [->|]; simplify_map_eq; naive_solver.
    + intros ??? [= <- <- <-]. by simplify_map_eq.
  - destruct (msgs st !! m) as [r|] eqn:Hm; [|done].
    destruct (Update ph r _) as [c t] eqn:E. simplify_eq. exists c, t. simpl.
    pose proof (Update_last ph r (clock_of st p)) as Hl.
    pose proof (Update_lt ph r (clock_of st p)) as Hlt. rewrite E in Hl, Hlt.
    split_and!; naive_solver.
Qed.

(** A position of a trace extended by one event is old or the new last one. *)
Lemma lookup_snoc_cases {A} (l : list A) x i y :
  (l ++ [x]) !! i = Some y → l !! i = Some y ∨ (i = length l ∧ y = x).
Proof. intros H. apply lookup_snoc_Some in H as [[? ?]|[-> ->]]; auto. Qed.

Lemma clock_room st p :
  sys_inv st → no_wrap (stamped st) → has_room (last (clock_of st p)).
Proof.
  intros Hinv Hnw. unfold clock_of. destruct (clocks st !! p) as [c|] eqn:Hc; simpl.
  - apply (si_last _ Hinv) in Hc as (i & e & Hi & _). by eapply Hnw.
  - unfold has_room. simpl. lia.
Qed.

Lemma no_wrap_app_l tr tr' : no_wrap (tr ++ tr') → no_wrap tr.
Proof. intros H i e t Hi. apply (H i e t). by apply lookup_app_l_Some. Qed.

Lemma sys_inv_step e st st' :
  sys_step e st = Some st' → no_wrap (stamped st') → sys_inv st → sys_inv st'.
Proof.
  intros Hst Hnw' Hinv.
  destruct (sys_step_stamp e st st' Hst) as (c & t & Htr & Hcl & Hc & Hlt & Hms & Hsnd).
  assert (no_wrap (stamped st)) as Hnw by (rewrite Htr in Hnw'; by eapply no_wrap_app_l).
  assert (∀ p ph m r, e = ERecv p ph m → msgs st !! m = Some r → has_room r) as Hroom.
  { intros ???? _ Hr. apply (si_msg _ Hinv) in Hr as (i & e' & Hi). by eapply Hnw. }
  destruct (Hlt (clock_room _ _ Hinv Hnw) Hroom) as [Hlt1 Hlt2]. clear Hlt.
  assert (clock_of st' (proc e) = c) as Hc1 by (unfold clock_of; rewrite Hcl; by simplify_map_eq).
  assert (∀ p, p ≠ proc e → clock_of st' p = clock_of st p) as Hc2.
  { intros p Hp. unfold clock_of. rewrite Hcl. by rewrite lookup_insert_ne by done. }
  assert (∀ i e0 t0, stamped st !! i = Some (e0, t0) → proc e0 = proc e → ts_lt t0 t) as Hold.
  { intros i e0 t0 Hi Hp. destruct (si_clock _ Hinv i e0 t0 Hi) as [->|H]; rewrite ?Hp; [done|].
    rewrite Hp in H. by etrans. }
  split; rewrite ?Htr.
  - intros i e0 t0 [Hi|[-> [= -> ->]]]%lookup_snoc_cases.
    + destruct (decide (proc e0 = proc e)) as [Hp|Hp].
      * right. rewrite Hp, Hc1, Hc. eauto.
      * rewrite Hc2 by done. by apply (si_clock _ Hinv i).
    + left. by rewrite Hc1.
  - intros p c0. rewrite Hcl. intros [[<- <-]|[Hp Hl]]%lookup_insert_Some.
    + exists (length (stamped st)), e. rewrite Hc. split; [|done]. by apply list_lookup_middle.
    + apply (si_last _ Hinv) in Hl as (i & e0 & Hi & ?). exists i, e0. split; [|done].
      by apply lookup_app_l_Some.
  - intros i p ph m t0 [Hi|[-> [= <- ->]]]%lookup_snoc_cases; [|by eapply Hsnd].
    apply (si_msgs _ Hinv) in Hi. destruct (Hms m) as [->|(?&?&?&?&?)]; congruence.
  - intros m t0 Hm. destruct (Hms m) as [E|(p & ph & -> & Hn & Hs)].
    + rewrite E in Hm. apply (si_msg _ Hinv) in Hm as (i & e0 & Hi). exists i, e0.
      by apply lookup_app_l_Some.
    + rewrite Hs in Hm. injection Hm as <-. exists (length (stamped st)), (ESend p ph m).
      by apply list_lookup_middle.
  - intros i j e1 e2 t1 t2 (Hij & a & b & ta & tb & Ha & Hb & Hrel) Hi Hj.
    rewrite Ha in Hi. rewrite Hb in Hj. simplify_eq.
    apply lookup_snoc_cases in Hb as [Hb|[-> [= -> ->]]].
    + assert (stamped st !! i = Some (e1, t1)) as Ha'.
      { apply lookup_snoc_cases in Ha as [?|[-> _]]; [done|]. apply lookup_lt_Some in Hb. lia. }
      eapply (si_base _ Hinv i j); [|done..]. split; [done|]. eauto 10.
    + assert (stamped st !! i = Some (e1, t1)) as Ha'.
      { apply lookup_snoc_cases in Ha as [?|[-> _]]; [done|]. lia. }
      destruct Hrel as [Hp|(p & ph & q & ph' & m & -> & ->)]; [by eapply Hold|].
      apply (si_msgs _ Hinv) in Ha'. by eapply Hlt2.
Qed.

Lemma sys_run_inv es st st' :
  sys_run es st = Some st' → no_wrap (stamped st') → sys_inv st →
  sys_inv st' ∧ ∃ new, stamped st' = stamped st ++ new.
Proof.
  revert st. induction es as [|e es IH]; intros st Hrun Hnw Hinv; simpl in Hrun.
  { simplify_eq. split; [done|]. exists []. by rewrite app_nil_r. }
  destruct (sys_step e st) as [st1|] eqn:Hst; simpl in Hrun; [|done].
  destruct (sys_step_stamp e st st1 Hst) as (c & t & Htr & _).
  assert (∃ new, stamped st' = stamped st1 ++ new) as [new Hnew].
  { clear -Hrun. revert st1 Hrun. induction es as [|e es IH]; intros st1 Hrun; simpl in Hrun.
    { simplify_eq. exists []. by rewrite app_nil_r. }
    destruct (sys_step e st1) as [st2|] eqn:Hst; simpl in Hrun; [|done].
    destruct (IH st2 Hrun) as [new Hnew]. destruct (sys_step_stamp e st1 st2 Hst) as (c & t & Htr & _).
    exists ((e, t) :: new). by rewrite Hnew, Htr, <- app_assoc. }
  assert (sys_inv st1) as Hinv1.
  { eapply sys_inv_step; [done| |done]. rewrite Hnew in Hnw. by eapply no_wrap_app_l. }
  destruct (IH st1 Hrun Hnw Hinv1) as [? _]. split; [done|].
  exists ((e, t) :: new). by rewrite Hnew, Htr, <- app_assoc.
Qed.

Lemma hb_lookup tr i j : happened_before tr i j → ∃ x y, tr !! i = Some x ∧ tr !! j = Some y.
Proof.
  induction 1 as [i j (_ & e & e' & t & t' & ? & ? & _)
                 |i k j (_ & e & e' & t & t' & ? & ? & _) _ (x & y & ? & ?)]; eauto.
Qed.

Lemma hb_ts_lt st i j e e' t t' :
  sys_inv st → happened_before (stamped st) i j →
  stamped st !! i = Some (e, t) → stamped st !! j = Some (e', t') → ts_lt t t'.
Proof.
  intros Hinv Hhb. revert e e' t t'.
  induction Hhb as [i j Hb|i k j Hb Hhb IH]; intros e e' t t' Hi Hj.
  { by eapply si_base. }
  destruct (hb_lookup _ _ _ Hhb) as ([ek tk] & _ & Hk & _).
  transitivity tk; [by eapply (si_base _ Hinv i k)|eauto].
Qed.

(** ** Properties *)

(** C35: the clock condition.  In any run of processes stamping local events and
    sends with [Now] and receives with [Update], whatever the physical clocks
    read (stalled, skewed or running backwards), if no 32-bit counter was
    exhausted then an event that happened before another carries a smaller
    timestamp in [Less]'s order. *)
Theorem clock_condition es st i j e e' t t' :
  sys_run es init_system = Some st → no_wrap (stamped st) →
  happened_before (stamped st) i j →
  stamped st !! i = Some (e, t) → stamped st !! j = Some (e', t') →
  Less t t' = true.
Proof.
  intros Hrun Hnw Hhb Hi Hj. apply Less_lt.
  destruct (sys_run_inv es init_system st Hrun Hnw sys_inv_init) as [Hinv _].
  by eapply hb_ts_lt.
Qed.

(** A debit shard whose physical clock is an hour ahead sends to a credit shard
    whose clock is behind and runs backwards: the receive is still later. *)
Definition two_shards : list event :=
  [ELocal "debit" 3600000; ESend "debit" 3600000 1%nat;
   ELocal "credit" 50; ERecv "credit" 40 1%nat].

Lemma no_wrap_Forall tr : Forall (λ et, has_room et.2) tr → no_wrap tr.
Proof. intros H i e t Hi. rewrite Forall_lookup in H. by apply (H i (e, t)). Qed.

Lemma clock_condition_witness :
  ∃ st, sys_run two_shards init_system = Some st ∧
    Less (mkTimestamp 3600000 0) (mkTimestamp 3600000 2) = true.
Proof.
  eexists. split; [vm_compute; reflexivity|].
  eapply (clock_condition two_shards _ 0 3); [vm_compute; reflexivity| | | |];
    [| |reflexivity|reflexivity].
  - apply no_wrap_Forall. repeat constructor; unfold has_room; simpl; lia.
  - eapply tc_l with 1%nat; [|apply tc_once]; (split; [lia|]); simpl; eauto 20.
Defined.

(** [Now] and [Update] advance.  With room in the counters, [Now] is
    strictly later than the previous reading, [Update] strictly later than both
    the previous reading and the received one, and the wall component is the
    largest of the readings involved, so it never drifts past the largest
    physical clock it has seen. *)
Theorem clock_ops_advance physical remote c :
  has_room (last c) → has_room remote →
  Less (last c) (Now physical c).2 = true ∧
  Less (last c) (Update physical remote c).2 = true ∧
  Less remote (Update physical remote c).2 = true ∧
  Wall (Now physical c).2 = Z.max physical (Wall (last c)) ∧
  Wall (Update physical remote c).2 =
    Z.max physical (Z.max (Wall (last c)) (Wall remote)).
Proof.
  intros Hc Hr. destruct (Update_lt physical remote c Hc Hr) as [H1 H2].
  split_and!; [apply Less_lt, Now_lt, Hc|by apply Less_lt..| |].
  - unfold Now. destruct (Z.ltb_spec (Wall (last c)) physical); simpl; lia.
  - unfold Update. cbn [snd]. repeat case_match; bool_to_prop; simpl in *;
      repeat match goal with
      | H : (_ && _)%bool = false |- _ => apply andb_false_iff in H as [?|?]
      end; bool_to_prop; lia.
Qed.

Lemma clock_ops_advance_witness :
  Less (mkTimestamp 7 3) (Now 5 (mkClock (mkTimestamp 7 3))).2 = true ∧
  (Now 5 (mkClock (mkTimestamp 7 3))).2 = mkTimestamp 7 4.
Proof.
  split; [|reflexivity].
  apply (clock_ops_advance 5 (mkTimestamp 9 0) (mkClock (mkTimestamp 7 3)));
    unfold has_room; simpl; lia.
Defined.

(** the counter's last value.  [Logical] is a [uint32] and [Now] increments
    it without a check: when the physical clock has not advanced and the counter
    is at its maximum, the next reading is smaller than the previous one. *)
Theorem Now_wraps_backwards w physical :
  physical ≤ w →
  (Now physical (mkClock (mkTimestamp w (2 ^ 32 - 1)))).2 = mkTimestamp w 0 ∧
  Less (Now physical (mkClock (mkTimestamp w (2 ^ 32 - 1)))).2
       (mkTimestamp w (2 ^ 32 - 1)) = true.
Proof.
  intros Hw.
  assert ((Now physical (mkClock (mkTimestamp w (2 ^ 32 - 1)))).2 = mkTimestamp w 0) as ->.
  { unfold Now. simpl. destruct (Z.ltb_spec w physical); [lia|]. done. }
  split; [done|]. unfold Less. simpl. by rewrite Z.eqb_refl.
Qed.

Lemma Now_wraps_backwards_witness :
  (Now 1700000000000 (mkClock (mkTimestamp 1700000000000 (2 ^ 32 - 1)))).2
  = mkTimestamp 1700000000000 0.
Proof. apply (Now_wraps_backwards 1700000000000 1700000000000). lia. Defined.
