(* ===== verification/GoTime.v ===== *)
(** * Time: dates and durations (package time) and Timestamp.String (src/hlc/hlc.go)

    [time.UnixMilli(ms).UTC()] in the proleptic Gregorian calendar, printed in the
    layout 2006-01-02T15:04:05.000Z. *)

From S2P Require Import Prelude GoLib Hlc.

Local Open Scope Z_scope.

(** The date of a day counted from 1970-01-01.  Eras of 400 years start on March 1. *)
Definition civil (day : Z) : Z * Z * Z :=
  let z := day + 719468 in
  let era := z / 146097 in
  let doe := z - era * 146097 in
  let yoe := (doe - doe / 1460 + doe / 36524 - doe / 146096) / 365 in
  let doy := doe - (365 * yoe + yoe / 4 - yoe / 100) in
  let mp := (5 * doy + 2) / 153 in
  let d := doy - (153 * mp + 2) / 5 + 1 in
  let m := if mp <? 10 then mp + 3 else mp - 9 in
  (yoe + era * 400 + (if m <=? 2 then 1 else 0), m, d).

(** Zero-padded to width [w]. *)
Definition fmt_0d (w : nat) (z : Z) : string :=
  let s := fmt_d (Z.abs z) in
  (if z <? 0 then "-" else "") +:+ String.concat "" (replicate (w - String.length s) "0") +:+ s.

Definition format_utc (ms : Z) : string :=
  let day := ms / 86400000 in
  let tod := ms `mod` 86400000 in
  let '(y, m, d) := civil day in
  fmt_0d 4 y +:+ "-" +:+ fmt_0d 2 m +:+ "-" +:+ fmt_0d 2 d +:+ "T" +:+ fmt_0d 2 (tod / 3600000) +:+ ":"
    +:+ fmt_0d 2 ((tod / 60000) `mod` 60) +:+ ":" +:+ fmt_0d 2 ((tod / 1000) `mod` 60) +:+ "." +:+ fmt_0d 3 (tod `mod` 1000) +:+ "Z".

(** [Timestamp.String] *)
Definition Timestamp_String (t : Timestamp) : string :=
  if IsZero t then "hlc:unset" else format_utc (i64 (Wall t)) +:+ "+" +:+ fmt_d (Logical t).

(** ** The calendar *)

(** An era is the same calendar, 400 years later. *)
Lemma civil_era day k : civil (day + k * 146097) = let '(y, m, d) := civil day in (y + k * 400, m, d).
Proof.
  unfold civil. replace (day + k * 146097 + 719468) with ((day + 719468) + k * 146097) by lia.
  rewrite Z.div_add by lia. set (e := (day + 719468) / 146097).
  replace (day + 719468 + k * 146097 - (e + k) * 146097) with (day + 719468 - e * 146097) by lia.
  do 2 f_equal. lia.
Qed.

(** The ends of a year, a leap day, a century that is none, and the clock. *)
Example civil_dates :
  civil <$> [0; -1; 59; 11016; 11017; 47540; 47541; 19722; 19723] =
  [(1970, 1, 1); (1969, 12, 31); (1970, 3, 1); (2000, 2, 29); (2000, 3, 1); (2100, 2, 28); (2100, 3, 1);
   (2023, 12, 31); (2024, 1, 1)].
Proof. vm_compute. reflexivity. Qed.

Example format_utc_leap : format_utc 951782403123 = "2000-02-29T00:00:03.123Z".
Proof. vm_compute. reflexivity. Qed.

(** ** Durations, in nanoseconds *)

Definition Milliseconds (d : Z) : Z := Z.quot d 1000000.

(** The fraction of [v / 10^prec] without trailing zeros, and what is left of [v]. *)
Fixpoint fmtFrac (prec : nat) (v : Z) (print : bool) (acc : string) : string * Z :=
  match prec with
  | O => (if print then "." +:+ acc else acc, v)
  | S prec =>
      let digit := v `mod` 10 in
      let print := print || negb (digit =? 0) in
      fmtFrac prec (v / 10) print (if print then fmt_d digit +:+ acc else acc)
  end.

Definition Duration_String (d : Z) : string :=
  let u := Z.abs d in
  let body :=
    if u =? 0 then "0s"
    else if u <? 1000 then fmt_d u +:+ "ns"
    else if u <? 1000000 then let (f, u) := fmtFrac 3 u false "" in fmt_d u +:+ f +:+ "µs"
    else if u <? 1000000000 then let (f, u) := fmtFrac 6 u false "" in fmt_d u +:+ f +:+ "ms"
    else
      let (f, u) := fmtFrac 9 u false "" in
      let secs := fmt_d (u `mod` 60) +:+ f +:+ "s" in
      let u := u / 60 in
      if 0 <? u then
        let mins := fmt_d (u `mod` 60) +:+ "m" +:+ secs in
        let u := u / 60 in
        if 0 <? u then fmt_d u +:+ "h" +:+ mins else mins
      else secs in
  if d <? 0 then "-" +:+ body else body.

(** [Duration.Round]: halves go away from zero, and the ends saturate. *)
Definition Round (m d : Z) : Z :=
  if m <=? 0 then d
  else
    let r := Z.rem d m in
    if d <? 0 then
      let r := - r in
      if r + r <? m then d + r else Z.max (d - m + r) (- 2 ^ 63)
    else if r + r <? m then d - r else Z.min (d + m - r) (2 ^ 63 - 1).

Example Duration_strings :
  Duration_String <$> [0; 1; 1500; 150000000; 1500000; 2500000000; 3600000000000; 5025000000000; -100000000; 1100] =
  ["0s"; "1ns"; "1.5µs"; "150ms"; "1.5ms"; "2.5s"; "1h0m0s"; "1h23m45s"; "-100ms"; "1.1µs"].
Proof. vm_compute. reflexivity. Qed.

Example Round_seconds :
  Round 1000000000 <$> [1499999999; 1500000000; -1500000000; 0; 2 ^ 63 - 1] = [1000000000; 2000000000; -2000000000; 0; 2 ^ 63 - 1].
Proof. vm_compute. reflexivity. Qed.
