(* ===== verification/Ledger.v ===== *)
(** * The ledger (src/ledger/ledger.go, src/ledger/reserve.go)

    Accounts, commands, the replicated state and its operations: [Apply] with
    its idempotency check, the four operations of [applyLocked], and the
    reservations of the two-phase protocol.  Each operation is the whole
    method, a function from the state to the new state and the result; [None]
    is the panic of [record].  The mutex makes each method atomic. *)

From S2P Require Import Prelude GoLib Hlc.

Local Open Scope Z_scope.
Local Open Scope go_scope.

(** ** Data *)

Abbreviation Money := Z (only parsing).
Abbreviation AccountID := string (only parsing).

(** [Money.String]. *)
Definition Money_String (m : Money) : string :=
  let neg := m <? 0 in
  let v := if neg then i64 (- m) else m in
  let s := fmt_d (Z.quot v 100) +:+ "." +:+ fmt_02d (Z.rem v 100) in
  if neg then "-" +:+ s else s.

Definition maxMoney : Money := 2 ^ 63 - 1.

Definition internalKeyPrefix : string := "!2pc!:".

(** [Op] is a byte; the log may carry any of its values. *)
Definition OpDeposit : Z := 1.
Definition OpWithdraw : Z := 2.
Definition OpTransfer : Z := 3.
Definition OpOpenAccount : Z := 4.

Definition Op_String (o : Z) : string :=
  if o =? OpDeposit then "Deposit"
  else if o =? OpWithdraw then "Withdraw"
  else if o =? OpTransfer then "Transfer"
  else if o =? OpOpenAccount then "OpenAccount"
  else "Unknown".

Record Command := mkCommand {
  c_Op : Z;
  c_IdempotencyKey : string;
  c_From : AccountID;
  c_To : AccountID;
  c_Amount : Money;
  c_Timestamp : Timestamp
}.

Record Result := mkResult { r_OK : bool; r_Err : string; r_Balance : Money }.

Definition failed (err : string) : Result := mkResult false err 0.
Definition failed_at (err : string) (bal : Money) : Result := mkResult false err bal.
Definition succeeded (bal : Money) : Result := mkResult true "" bal.

Definition ErrInsufficientFunds : string := "insufficient funds".
Definition ErrNoSuchAccount : string := "no such account".
Definition ErrAccountExists : string := "account already exists".
Definition ErrInvalidAmount : string := "amount must be positive".
Definition ErrSameAccount : string := "cannot transfer to the same account".
Definition ErrMissingKey : string := "idempotency key required".
Definition ErrIdempotencyConflict : string :=
  "idempotency key already used for a different request".

(** [Command.fingerprint]: FNV-1a over the operation, the two accounts and the
    amount; neither the key nor the timestamp. *)
Definition fingerprint (c : Command) : Z :=
  let h := fnv64_offset in
  let h := fnv64a_write h [Z_byte (c_Op c)] in
  let h := fnv64a_write h (str_bytes (c_From c)) in
  let h := fnv64a_write h [Byte.x00] in
  let h := fnv64a_write h (str_bytes (c_To c)) in
  let h := fnv64a_write h [Byte.x00] in
  fnv64a_write h (le_put 8 (u64 (c_Amount c))).

Record Entry := mkEntry { e_Account : AccountID; e_Amount : Money }.

Record Transaction := mkTransaction {
  t_Seq : Z;
  t_Op : Z;
  t_IdempotencyKey : string;
  t_Entries : list Entry;
  t_Timestamp : Timestamp
}.

(** [Transaction.balances]: only a transfer with other than one entry is
    checked. *)
Definition Transaction_balances (t : Transaction) : bool :=
  if negb (t_Op t =? OpTransfer) then true
  else if (length (t_Entries t) =? 1)%nat then true
  else go_sum e_Amount (t_Entries t) =? 0.

Record Reserve := mkReserve { rv_TxID : string; rv_Account : AccountID; rv_Amount : Money }.

#[global] Instance Result_eq_dec : EqDecision Result.
Proof. solve_decision. Defined.
#[global] Instance Reserve_eq_dec : EqDecision Reserve.
Proof. solve_decision. Defined.
#[global] Instance Entry_eq_dec : EqDecision Entry.
Proof. solve_decision. Defined.
#[global] Instance Transaction_eq_dec : EqDecision Transaction.
Proof. solve_decision. Defined.
#[global] Instance Command_eq_dec : EqDecision Command.
Proof. solve_decision. Defined.

Record State := mkState {
  balances : gmap string Money;
  applied : gmap string Result;
  fingerprints : gmap string Z;
  history : list Transaction;
  reserves : gmap string Reserve;
  seq : Z
}.

Definition New : State := mkState ∅ ∅ ∅ [] ∅ 0.

Definition set_balance (a : AccountID) (m : Money) (s : State) : State :=
  mkState (<[a:=m]> (balances s)) (applied s) (fingerprints s) (history s) (reserves s) (seq s).

Definition set_applied (k : string) (r : Result) (s : State) : State :=
  mkState (balances s) (<[k:=r]> (applied s)) (fingerprints s) (history s) (reserves s) (seq s).

Definition set_fingerprint (k : string) (fp : Z) (s : State) : State :=
  mkState (balances s) (applied s) (<[k:=fp]> (fingerprints s)) (history s) (reserves s) (seq s).

Definition set_reserves (rs : gmap string Reserve) (s : State) : State :=
  mkState (balances s) (applied s) (fingerprints s) (history s) rs (seq s).

(** Reading a Go map yields the zero value for a missing key. *)
Definition balance_of (s : State) (a : AccountID) : Money := default 0 (balances s !! a).

(** ** Reservations and availability (reserve.go) *)

Definition internalKey (txID leg : string) : string :=
  internalKeyPrefix +:+ txID +:+ ":" +:+ leg.

Arguments internalKey : simpl never.

(** [reservedLocked] ranges over the map in an unspecified order; [rs] is the
    enumeration. *)
Definition reserved_over (rs : list (string * Reserve)) (id : AccountID) : Money :=
  go_sum (λ kr, if bool_decide (rv_Account kr.2 = id) then rv_Amount kr.2 else 0) rs.

Definition reservedLocked (s : State) (id : AccountID) : Money :=
  reserved_over (map_to_list (reserves s)) id.

Definition availableLocked (s : State) (id : AccountID) : Money * bool :=
  match balances s !! id with
  | None => (0, false)
  | Some bal => (bal -ᵢ reservedLocked s id, true)
  end.

Definition Available (s : State) (id : AccountID) : Money * bool := availableLocked s id.

Definition Reserved (s : State) (id : AccountID) : Money := reservedLocked s id.

(** [record] *)
Definition record (cmd : Command) (entries : list Entry) (s : State) : option State :=
  let seq' := u64 (seq s + 1) in
  let t := mkTransaction seq' (c_Op cmd) (c_IdempotencyKey cmd) entries (c_Timestamp cmd) in
  if negb (Transaction_balances t) then None
  else Some (mkState (balances s) (applied s) (fingerprints s)
                     (history s ++ [t]) (reserves s) seq').

(** ** Operations (ledger.go) *)

Definition applyOpen (cmd : Command) (s : State) : option (State * Result) :=
  match balances s !! c_To cmd with
  | Some _ => Some (s, failed ErrAccountExists)
  | None =>
      if c_Amount cmd <? 0 then Some (s, failed ErrInvalidAmount)
      else
        s' ← record cmd [mkEntry (c_To cmd) (c_Amount cmd)]
               (set_balance (c_To cmd) (c_Amount cmd) s);
        Some (s', succeeded (c_Amount cmd))
  end.

Definition applyDeposit (cmd : Command) (s : State) : option (State * Result) :=
  if c_Amount cmd <=? 0 then Some (s, failed ErrInvalidAmount)
  else match balances s !! c_To cmd with
  | None => Some (s, failed ErrNoSuchAccount)
  | Some bal =>
      if maxMoney -ᵢ c_Amount cmd <? bal
      then Some (s, failed "deposit would overflow the account balance")
      else
        let bal' := bal +ᵢ c_Amount cmd in
        s' ← record cmd [mkEntry (c_To cmd) (c_Amount cmd)] (set_balance (c_To cmd) bal' s);
        Some (s', succeeded bal')
  end.

Definition applyWithdraw (cmd : Command) (s : State) : option (State * Result) :=
  if c_Amount cmd <=? 0 then Some (s, failed ErrInvalidAmount)
  else match balances s !! c_From cmd with
  | None => Some (s, failed ErrNoSuchAccount)
  | Some raw =>
      let bal := (availableLocked s (c_From cmd)).1 in
      if bal <? c_Amount cmd then Some (s, failed_at ErrInsufficientFunds bal)
      else
        let bal' := raw -ᵢ c_Amount cmd in
        s' ← record cmd [mkEntry (c_From cmd) (i64 (- c_Amount cmd))]
               (set_balance (c_From cmd) bal' s);
        Some (s', succeeded bal')
  end.

Definition applyTransfer (cmd : Command) (s : State) : option (State * Result) :=
  if c_Amount cmd <=? 0 then Some (s, failed ErrInvalidAmount)
  else if bool_decide (c_From cmd = c_To cmd) then Some (s, failed ErrSameAccount)
  else match balances s !! c_From cmd with
  | None => Some (s, failed ErrNoSuchAccount)
  | Some rawFrom =>
      let from := (availableLocked s (c_From cmd)).1 in
      match balances s !! c_To cmd with
      | None => Some (s, failed ErrNoSuchAccount)
      | Some rawTo =>
          if from <? c_Amount cmd then Some (s, failed_at ErrInsufficientFunds from)
          else if maxMoney -ᵢ c_Amount cmd <? rawTo
          then Some (s, failed "transfer would overflow the destination balance")
          else
            let s1 := set_balance (c_From cmd) (rawFrom -ᵢ c_Amount cmd) s in
            let s2 := set_balance (c_To cmd) (balance_of s1 (c_To cmd) +ᵢ c_Amount cmd) s1 in
            s' ← record cmd [mkEntry (c_From cmd) (i64 (- c_Amount cmd));
                             mkEntry (c_To cmd) (c_Amount cmd)] s2;
            Some (s', succeeded (balance_of s' (c_From cmd)))
      end
  end.

Definition applyLocked (cmd : Command) (s : State) : option (State * Result) :=
  if c_Op cmd =? OpOpenAccount then applyOpen cmd s
  else if c_Op cmd =? OpDeposit then applyDeposit cmd s
  else if c_Op cmd =? OpWithdraw then applyWithdraw cmd s
  else if c_Op cmd =? OpTransfer then applyTransfer cmd s
  else Some (s, failed ("unknown op " +:+ fmt_d (c_Op cmd))).

Definition ErrReservedPrefix : string := "idempotency key uses a reserved internal prefix".

Definition Apply (cmd : Command) (s : State) : option (State * Result) :=
  if bool_decide (c_IdempotencyKey cmd = "") then Some (s, failed ErrMissingKey)
  else if HasPrefix (c_IdempotencyKey cmd) internalKeyPrefix
  then Some (s, failed ErrReservedPrefix)
  else
    let fp := fingerprint cmd in
    match applied s !! c_IdempotencyKey cmd with
    | Some prev =>
        if negb (default 0 (fingerprints s !! c_IdempotencyKey cmd) =? fp)
        then Some (s, failed ErrIdempotencyConflict)
        else Some (s, prev)
    | None =>
        '(s', res) ← applyLocked cmd s;
        Some (set_fingerprint (c_IdempotencyKey cmd) fp
                (set_applied (c_IdempotencyKey cmd) res s'), res)
    end.

(** ** Reservation operations (reserve.go) *)

Definition rebind_error (txID : string) (held : Reserve) (amount : Money) (account : string) : string :=
  "reservation " +:+ txID +:+ " already holds " +:+ Money_String (rv_Amount held) +:+ " for "
  +:+ rv_Account held +:+ "; refusing to rebind to " +:+ Money_String amount +:+ " for " +:+ account.

Definition PrepareDebit (txID : string) (account : AccountID) (amount : Money) (s : State)
    : State * Result :=
  if amount <=? 0 then (s, failed ErrInvalidAmount)
  else match balances s !! account with
  | None => (s, failed ErrNoSuchAccount)
  | Some _ =>
      match reserves s !! txID with
      | Some held =>
          if negb (bool_decide (rv_Account held = account)) || negb (rv_Amount held =? amount)
          then (s, failed (rebind_error txID held amount account))
          else (s, succeeded (availableLocked s account).1)
      | None =>
          let avail := (availableLocked s account).1 in
          if avail <? amount then (s, failed_at ErrInsufficientFunds avail)
          else
            let s' := set_reserves (<[txID:=mkReserve txID account amount]> (reserves s)) s in
            (s', succeeded (availableLocked s' account).1)
      end
  end.

Definition PrepareCredit (txID : string) (account : AccountID) (amount : Money) (s : State)
    : State * Result :=
  if amount <=? 0 then (s, failed ErrInvalidAmount)
  else match balances s !! account with
  | None => (s, failed ErrNoSuchAccount)
  | Some bal => (s, succeeded bal)
  end.

Definition CommitDebit (txID : string) (ts : Timestamp) (s : State) : option (State * Result) :=
  match reserves s !! txID with
  | None => Some (s, failed ("no reservation held for transaction " +:+ txID))
  | Some r =>
      let s1 := set_balance (rv_Account r) (balance_of s (rv_Account r) -ᵢ rv_Amount r) s in
      let s2 := set_reserves (delete txID (reserves s1)) s1 in
      s' ← record (mkCommand OpTransfer (internalKey txID "debit") (rv_Account r) ""
                             (rv_Amount r) ts)
             [mkEntry (rv_Account r) (i64 (- rv_Amount r))] s2;
      Some (s', succeeded (balance_of s' (rv_Account r)))
  end.

Definition CommitCredit (txID : string) (account : AccountID) (amount : Money) (ts : Timestamp)
    (s : State) : option (State * Result) :=
  let key := internalKey txID "credit" in
  match applied s !! key with
  | Some prev => Some (s, prev)
  | None =>
      match balances s !! account with
      | None => Some (s, failed ErrNoSuchAccount)
      | Some bal =>
          if maxMoney -ᵢ amount <? bal
          then Some (s, failed "credit would overflow the account balance")
          else
            let s1 := set_balance account (bal +ᵢ amount) s in
            s2 ← record (mkCommand OpTransfer key "" account amount ts)
                   [mkEntry account amount] s1;
            let res := succeeded (balance_of s2 account) in
            Some (set_applied key res s2, res)
      end
  end.

Definition AbortTx (txID : string) (s : State) : State * Result :=
  match reserves s !! txID with
  | None => (s, succeeded 0)
  | Some r =>
      let s' := set_reserves (delete txID (reserves s)) s in
      (s', succeeded (availableLocked s' (rv_Account r)).1)
  end.

(** [InFlight], up to the order of the map iteration. *)
Definition InFlight (s : State) : list string := (map_to_list (reserves s)).*1.

(** ** Reads and audits *)

Definition Balance (s : State) (id : AccountID) : Money * bool :=
  match balances s !! id with Some b => (b, true) | None => (0, false) end.

Definition Balances (s : State) : gmap string Money := balances s.

Definition TotalMoney (s : State) : Money :=
  go_sum (balance_of s) (sorted_keys (balances s)).

Definition History (s : State) : list Transaction := history s.

(** [VerifyConservation]: [None] is the nil error. *)
Definition VerifyConservation (expected : Money) (s : State) : option string :=
  let total := go_sum snd (map_to_list (balances s)) in
  if negb (total =? expected)
  then Some ("money conservation violated: total is " +:+ Money_String total
             +:+ ", expected " +:+ Money_String expected)
  else None.

(** The inner loop of [VerifyDoubleEntry]: [derived[e.Account] += e.Amount]. *)
Definition derive_entry (derived : gmap string Money) (e : Entry) : gmap string Money :=
  <[e_Account e := default 0 (derived !! e_Account e) +ᵢ e_Amount e]> derived.

Fixpoint derive_history (h : list Transaction) (derived : gmap string Money)
    : string + gmap string Money :=
  match h with
  | [] => inr derived
  | t :: h =>
      if negb (Transaction_balances t)
      then inl ("transaction " +:+ fmt_d (t_Seq t) +:+ " (" +:+ Op_String (t_Op t)
                +:+ ") does not balance")
      else derive_history h (foldl derive_entry derived (t_Entries t))
  end.

(** The comparison loop over the cached balances, in iteration order. *)
Fixpoint compare_balances (bs : list (string * Money)) (derived : gmap string Money)
    : option string :=
  match bs with
  | [] => None
  | (id, want) :: bs =>
      let got := default 0 (derived !! id) in
      if negb (got =? want)
      then Some ("account " +:+ id +:+ ": history derives " +:+ Money_String got
                 +:+ " but cache holds " +:+ Money_String want)
      else compare_balances bs derived
  end.

Definition VerifyDoubleEntry (s : State) : option string :=
  match derive_history (history s) ∅ with
  | inl err => Some err
  | inr derived =>
      if negb (size derived =? size (balances s))%nat
      then Some ("derived " +:+ fmt_d (Z.of_nat (size derived)) +:+ " accounts from history, cache holds "
                 +:+ fmt_d (Z.of_nat (size (balances s))))
      else compare_balances (map_to_list (balances s)) derived
  end.
