(* ===== verification/LedgerInv.v ===== *)
(** * Invariants of the ledger

    What every reachable ledger state satisfies: balances are representable
    and never negative, reservations are backed by the balance they are held
    against, the cached balances are the fold of the history, the history is
    balanced, and the money in the accounts is exactly what the history
    posted.  Every operation preserves all of it and never panics. *)

From S2P Require Import Prelude GoLib Hlc Ledger.

Local Open Scope Z_scope.

(** ** Abstract view of a state *)

(** Money held against an account by outstanding reservations. *)
Definition held_by (a : string) (r : Reserve) : Z :=
  if bool_decide (rv_Account r = a) then rv_Amount r else 0.

Definition held (rs : gmap string Reserve) (a : string) : Z := map_sum (held_by a) rs.

(** All the money in the accounts, exactly. *)
Definition total (s : State) : Z := map_sum id (balances s).

Definition entries_sum (es : list Entry) : Z := foldr (λ e acc, e_Amount e + acc) 0 es.

Definition entries_of (h : list Transaction) : list Entry := concat (t_Entries <$> h).

(** The balances a history derives. *)
Definition books (h : list Transaction) : gmap string Z := foldl derive_entry ∅ (entries_of h).

Record Inv (s : State) : Prop := {
  inv_range : ∀ a b, balances s !! a = Some b → 0 ≤ b ≤ maxMoney;
  inv_reserve : ∀ tx r, reserves s !! tx = Some r →
    rv_TxID r = tx ∧ 0 < rv_Amount r ∧ is_Some (balances s !! rv_Account r);
  inv_cover : ∀ a b, balances s !! a = Some b → held (reserves s) a ≤ b;
  inv_books : books (history s) = balances s;
  inv_balanced : Forall (λ t, Transaction_balances t = true) (history s);
  inv_total : total s = entries_sum (entries_of (history s));
  inv_seq : seq s = u64 (Z.of_nat (length (history s)));
  inv_seqs : ∀ i t, history s !! i = Some t → t_Seq t = u64 (Z.of_nat i + 1)
}.

(** ** Operations as values *)

Inductive lop :=
  | LApply (c : Command)
  | LPrepareDebit (txID : string) (account : string) (amount : Z)
  | LPrepareCredit (txID : string) (account : string) (amount : Z)
  | LCommitDebit (txID : string) (ts : Timestamp)
  | LCommitCredit (txID : string) (account : string) (amount : Z) (ts : Timestamp)
  | LAbortTx (txID : string).

Definition exec (o : lop) (s : State) : option (State * Result) :=
  match o with
  | LApply c => Apply c s
  | LPrepareDebit tx a m => Some (PrepareDebit tx a m s)
  | LPrepareCredit tx a m => Some (PrepareCredit tx a m s)
  | LCommitDebit tx ts => CommitDebit tx ts s
  | LCommitCredit tx a m ts => CommitCredit tx a m ts s
  | LAbortTx tx => Some (AbortTx tx s)
  end.

(** Amounts are [int64] values. *)
Definition wf_op (o : lop) : Prop :=
  match o with
  | LApply c => in_i64 (c_Amount c)
  | LPrepareDebit _ _ m | LPrepareCredit _ _ m | LCommitCredit _ _ m _ => in_i64 m
  | LCommitDebit _ _ | LAbortTx _ => True
  end.

Inductive reachable : State → Prop :=
  | reach_New : reachable New
  | reach_step o s s' r :
      reachable s → wf_op o → exec o s = Some (s', r) → reachable s'.

(** ** Reservations *)

Lemma held_insert rs tx r a :
  rs !! tx = None → held (<[tx:=r]> rs) a = held_by a r + held rs a.
Proof. apply map_sum_insert_None. Qed.

Lemma held_delete rs tx r a :
  rs !! tx = Some r → held rs a = held_by a r + held (delete tx rs) a.
Proof. apply map_sum_delete. Qed.

Lemma held_by_nonneg a r : 0 < rv_Amount r → 0 ≤ held_by a r.
Proof. unfold held_by. case_bool_decide; lia. Qed.

Lemma held_nonneg s a : Inv s → 0 ≤ held (reserves s) a.
Proof.
  intros Hinv. apply map_sum_nonneg. intros tx r Hr.
  apply held_by_nonneg, (inv_reserve _ Hinv tx r Hr).
Qed.

(** Nothing is held against an account that does not exist. *)
Lemma held_unknown s a : Inv s → balances s !! a = None → held (reserves s) a = 0.
Proof.
  intros Hinv Ha. unfold held. apply map_sum_zero. intros tx r Hr.
  destruct (inv_reserve _ Hinv tx r Hr) as (_ & _ & [? Hx]).
  unfold held_by. case_bool_decide; [|done]. congruence.
Qed.

(** The order in which the map is enumerated does not matter. *)
Lemma reserved_over_held rs l a :
  l ≡ₚ map_to_list rs → reserved_over l a = i64 (held rs a).
Proof. apply (go_sum_map (held_by a)). Qed.

Lemma reservedLocked_held s a b :
  Inv s → balances s !! a = Some b → reservedLocked s a = held (reserves s) a.
Proof.
  intros Hinv Hb. unfold reservedLocked. rewrite (reserved_over_held (reserves s)) by done.
  apply i64_small. pose proof (held_nonneg s a Hinv). pose proof (inv_cover _ Hinv a b Hb).
  pose proof (inv_range _ Hinv a b Hb). unfold in_i64, maxMoney in *. lia.
Qed.

(** What may be spent: the balance less what is held, never negative. *)
Lemma availableLocked_held s a b :
  Inv s → balances s !! a = Some b →
  availableLocked s a = (b - held (reserves s) a, true) ∧ 0 ≤ b - held (reserves s) a.
Proof.
  intros Hinv Hb. unfold availableLocked. rewrite Hb, (reservedLocked_held s a b) by done.
  pose proof (held_nonneg s a Hinv). pose proof (inv_cover _ Hinv a b Hb).
  pose proof (inv_range _ Hinv a b Hb). split; [|lia].
  rewrite i64_small; [done|]. unfold in_i64, maxMoney in *. lia.
Qed.

(** ** Posting entries *)

Lemma entries_of_app h1 h2 : entries_of (h1 ++ h2) = entries_of h1 ++ entries_of h2.
Proof. unfold entries_of. by rewrite fmap_app, concat_app. Qed.

Lemma entries_of_snoc h t : entries_of (h ++ [t]) = entries_of h ++ t_Entries t.
Proof. rewrite entries_of_app. unfold entries_of at 2. simpl. by rewrite app_nil_r. Qed.

Lemma entries_sum_app es1 es2 : entries_sum (es1 ++ es2) = entries_sum es1 + entries_sum es2.
Proof. unfold entries_sum. induction es1 as [|e es1 IH]; simpl; lia. Qed.

Lemma derive_entries_dom es (m : gmap string Z) a :
  is_Some (m !! a) → is_Some (foldl derive_entry m es !! a).
Proof.
  revert m. induction es as [|e es IH]; intros m Ha; simpl; [done|]. apply IH.
  unfold derive_entry. destruct (decide (e_Account e = a)) as [->|]; simplify_map_eq; eauto.
Qed.

(** The state after posting [es] with the reservations [rs]: what must hold of
    the new maps for the invariant to survive [record]. *)
Lemma record_Inv cmd es s bs rs :
  Inv s → bs = foldl derive_entry (balances s) es →
  (∀ a b, bs !! a = Some b → 0 ≤ b ≤ maxMoney) →
  (∀ tx r, rs !! tx = Some r → reserves s !! tx = Some r) →
  (∀ a b, bs !! a = Some b → held rs a ≤ b) →
  map_sum id bs = total s + entries_sum es →
  (∀ q, Transaction_balances (mkTransaction q (c_Op cmd) (c_IdempotencyKey cmd) es
                                            (c_Timestamp cmd)) = true) →
  ∃ s', record cmd es (mkState bs (applied s) (fingerprints s) (history s) rs (seq s)) = Some s'
    ∧ Inv s' ∧ balances s' = bs ∧ reserves s' = rs ∧ applied s' = applied s
    ∧ fingerprints s' = fingerprints s.
Proof.
  intros Hinv Hbs Hrange Hrs Hcover Hsum Hbal. unfold record. rewrite Hbal. simpl.
  eexists. split; [done|]. split; [|done]. split; simpl.
  - done.
  - intros tx r Hr. destruct (inv_reserve _ Hinv tx r (Hrs tx r Hr)) as (? & ? & ?).
    split_and!; [done..|]. rewrite Hbs. by apply derive_entries_dom.
  - done.
  - unfold books. rewrite entries_of_snoc, foldl_app. simpl.
    rewrite Hbs. f_equal. apply (inv_books _ Hinv).
  - apply Forall_app. split; [apply (inv_balanced _ Hinv)|]. by repeat constructor.
  - unfold total. simpl. rewrite entries_of_snoc, entries_sum_app, Hsum. simpl.
    by rewrite (inv_total _ Hinv).
  - rewrite length_app, (inv_seq _ Hinv). unfold u64. simpl.
    rewrite Z.add_mod_idemp_l by lia. f_equal. lia.
  - intros i t Hi. apply lookup_snoc_Some in Hi as [[_ Hi]|[-> <-]].
    + by apply (inv_seqs _ Hinv).
    + simpl. rewrite (inv_seq _ Hinv). unfold u64. by rewrite Z.add_mod_idemp_l by lia.
Qed.

#[local] Opaque record.

(** Writing the idempotency maps does not touch the invariant. *)
Lemma set_applied_Inv k r s : Inv s → Inv (set_applied k r s).
Proof. intros []; by split. Qed.

Lemma set_fingerprint_Inv k fp s : Inv s → Inv (set_fingerprint k fp s).
Proof. intros []; by split. Qed.

#[export] Hint Resolve set_applied_Inv set_fingerprint_Inv : go.

(** ** The abstract bank

    The contract of the ledger with none of its machinery: exact balances and
    holds, no wrap-around, no history, no cached sums.  [bank_spec o b] is the
    bank after an allowed operation, [None] when it must be refused. *)

Record bank := mkBank { bk_bal : gmap string Z; bk_res : gmap string Reserve }.

Definition abs (s : State) : bank := mkBank (balances s) (reserves s).

Definition free (b : bank) (a : string) : Z := default 0 (bk_bal b !! a) - held (bk_res b) a.

Definition bank_apply (c : Command) (b : bank) : option bank :=
  let amt := c_Amount c in
  let bal a := default 0 (bk_bal b !! a) in
  let ex a := bool_decide (is_Some (bk_bal b !! a)) in
  let post m := Some (mkBank m (bk_res b)) in
  if c_Op c =? OpOpenAccount then
    if negb (ex (c_To c)) && (0 <=? amt) then post (<[c_To c:=amt]> (bk_bal b)) else None
  else if c_Op c =? OpDeposit then
    if (0 <? amt) && ex (c_To c) && (bal (c_To c) + amt <=? maxMoney)
    then post (<[c_To c:=bal (c_To c) + amt]> (bk_bal b)) else None
  else if c_Op c =? OpWithdraw then
    if (0 <? amt) && ex (c_From c) && (amt <=? free b (c_From c))
    then post (<[c_From c:=bal (c_From c) - amt]> (bk_bal b)) else None
  else if c_Op c =? OpTransfer then
    if (0 <? amt) && negb (bool_decide (c_From c = c_To c)) && ex (c_From c) && ex (c_To c)
       && (amt <=? free b (c_From c)) && (bal (c_To c) + amt <=? maxMoney)
    then post (<[c_To c:=bal (c_To c) + amt]> (<[c_From c:=bal (c_From c) - amt]> (bk_bal b)))
    else None
  else None.

Definition bank_spec (o : lop) (b : bank) : option bank :=
  match o with
  | LApply c => bank_apply c b
  | LPrepareDebit tx a m =>
      if (0 <? m) && bool_decide (is_Some (bk_bal b !! a)) then
        match bk_res b !! tx with
        | Some h => if bool_decide (rv_Account h = a) && (rv_Amount h =? m) then Some b else None
        | None => if m <=? free b a
                  then Some (mkBank (bk_bal b) (<[tx:=mkReserve tx a m]> (bk_res b)))
                  else None
        end
      else None
  | LPrepareCredit _ a m =>
      if (0 <? m) && bool_decide (is_Some (bk_bal b !! a)) then Some b else None
  | LCommitDebit tx _ =>
      match bk_res b !! tx with
      | Some h => Some (mkBank (<[rv_Account h:=default 0 (bk_bal b !! rv_Account h) - rv_Amount h]>
                                  (bk_bal b)) (delete tx (bk_res b)))
      | None => None
      end
  | LCommitCredit _ a m _ =>
      if bool_decide (is_Some (bk_bal b !! a)) && (0 <=? m)
         && (default 0 (bk_bal b !! a) + m <=? maxMoney)
      then Some (mkBank (<[a:=default 0 (bk_bal b !! a) + m]> (bk_bal b)) (bk_res b)) else None
  | LAbortTx tx => Some (mkBank (bk_bal b) (delete tx (bk_res b)))
  end.

(** A run meets the contract: accepted exactly when the contract allows it, with
    the state the contract gives, and otherwise nothing changes. *)
Definition meets (spec : option bank) (s s' : State) (r : Result) : Prop :=
  match spec with
  | Some b => r_OK r = true ∧ abs s' = b
  | None => r_OK r = false ∧ s' = s
  end.

Definition same_keys (s s' : State) : Prop :=
  applied s' = applied s ∧ fingerprints s' = fingerprints s.

Definition runs_ok (run : option (State * Result)) (spec : option bank) (s : State) : Prop :=
  ∃ s' r, run = Some (s', r) ∧ Inv s' ∧ same_keys s s' ∧ meets spec s s' r.

Lemma runs_refused s r spec :
  Inv s → spec = None → r_OK r = false → runs_ok (Some (s, r)) spec s.
Proof. intros ? -> ?. exists s, r. unfold same_keys, meets. naive_solver. Qed.

Lemma is_Some_true {A} (o : option A) x : o = Some x → bool_decide (is_Some o) = true.
Proof. intros ->. apply bool_decide_eq_true_2. eauto. Qed.

Lemma is_Some_false {A} (o : option A) : o = None → bool_decide (is_Some o) = false.
Proof. intros ->. apply bool_decide_eq_false_2. intros [? ?]. done. Qed.

Lemma single_entry_balances q op k e ts :
  Transaction_balances (mkTransaction q op k [e] ts) = true.
Proof. unfold Transaction_balances. simpl. by destruct (negb _). Qed.

#[export] Hint Resolve single_entry_balances : go.

(** Changing one existing balance. *)
Lemma total_insert s a b b' :
  balances s !! a = Some b → map_sum id (<[a:=b']> (balances s)) = total s - b + b'.
Proof. intros Hb. unfold total. by rewrite (map_sum_insert_Some id _ a b' b). Qed.

Lemma range_insert s a b' :
  Inv s → 0 ≤ b' ≤ maxMoney →
  ∀ x b, <[a:=b']> (balances s) !! x = Some b → 0 ≤ b ≤ maxMoney.
Proof.
  intros Hinv Hb' x b [[<- <-]|[? Hx]]%lookup_insert_Some; [done|]. by eapply inv_range.
Qed.

Lemma cover_insert s a b' rs :
  Inv s → (∀ x, held rs x ≤ held (reserves s) x) → held rs a ≤ b' →
  ∀ x b, <[a:=b']> (balances s) !! x = Some b → held rs x ≤ b.
Proof.
  intros Hinv Hrs Hb' x b [[<- <-]|[? Hx]]%lookup_insert_Some; [done|].
  pose proof (inv_cover _ Hinv x b Hx). pose proof (Hrs x). lia.
Qed.

Lemma applyOpen_runs cmd s :
  Inv s → in_i64 (c_Amount cmd) → c_Op cmd = OpOpenAccount →
  runs_ok (applyOpen cmd s) (bank_apply cmd (abs s)) s.
Proof.
  intros Hinv Hamt Hop. unfold applyOpen, bank_apply. rewrite Hop. simpl.
  destruct (balances s !! c_To cmd) as [b|] eqn:Hb.
  { apply runs_refused; [done| |done]. by rewrite (is_Some_true _ b). }
  rewrite is_Some_false by done. simpl.
  destruct (Z.ltb_spec (c_Amount cmd) 0), (Z.leb_spec 0 (c_Amount cmd)); try lia.
  { by apply runs_refused. }
  destruct (record_Inv cmd [mkEntry (c_To cmd) (c_Amount cmd)] s
              (<[c_To cmd:=c_Amount cmd]> (balances s)) (reserves s))
    as (s' & Hrec & Hinv' & Hbal & Hres & ? & ?); auto with go.
  - simpl. unfold derive_entry. simpl. rewrite Hb. simpl. by rewrite i64_small.
  - apply range_insert; [done|]. unfold in_i64, maxMoney in *. lia.
  - apply cover_insert; [done..|]. by rewrite held_unknown.
  - unfold total. rewrite map_sum_insert_None by done. unfold entries_sum. simpl. lia.
  - unfold runs_ok, set_balance. rewrite Hrec. exists s', (succeeded (c_Amount cmd)).
    unfold same_keys, meets, abs. split_and!; try done. by rewrite Hbal, Hres.
Qed.

(** Posting one entry against an existing account. *)
Lemma post_one cmd a b amt s rs :
  Inv s → balances s !! a = Some b → in_i64 amt → 0 ≤ b + amt ≤ maxMoney →
  (∀ tx r, rs !! tx = Some r → reserves s !! tx = Some r) →
  (∀ x, held rs x ≤ held (reserves s) x) → held rs a ≤ b + amt →
  ∃ s', record cmd [mkEntry a amt]
          (mkState (<[a:=i64 (b + amt)]> (balances s)) (applied s) (fingerprints s)
                   (history s) rs (seq s)) = Some s'
    ∧ Inv s' ∧ same_keys s s' ∧ abs s' = mkBank (<[a:=b + amt]> (balances s)) rs.
Proof.
  intros Hinv Hb Hamt Hr Hsub Hheld Hcov.
  assert (in_i64 (b + amt)) as Hi by (unfold in_i64, maxMoney in *; lia).
  rewrite (i64_small _ Hi).
  destruct (record_Inv cmd [mkEntry a amt] s (<[a:=b + amt]> (balances s)) rs)
    as (s' & Hrec & Hinv' & Hbal & Hres & ? & ?); auto with go.
  - simpl. unfold derive_entry. simpl. rewrite Hb. simpl. by rewrite i64_small.
  - by apply range_insert.
  - by apply cover_insert.
  - rewrite (total_insert s a b) by done. unfold entries_sum. simpl. lia.
  - exists s'. unfold same_keys, abs. rewrite Hbal, Hres. done.
Qed.

Lemma applyDeposit_runs cmd s :
  Inv s → in_i64 (c_Amount cmd) → c_Op cmd = OpDeposit →
  runs_ok (applyDeposit cmd s) (bank_apply cmd (abs s)) s.
Proof.
  intros Hinv Hamt Hop. unfold applyDeposit, bank_apply. rewrite Hop. simpl.
  destruct (Z.leb_spec (c_Amount cmd) 0), (Z.ltb_spec 0 (c_Amount cmd)); try lia; simpl.
  { by apply runs_refused. }
  destruct (balances s !! c_To cmd) as [b|] eqn:Hb.
  2: { apply runs_refused; [done| |done]. by rewrite is_Some_false. }
  rewrite (is_Some_true _ b) by done. simpl.
  pose proof (inv_range _ Hinv _ _ Hb) as Hr.
  rewrite (i64_small (maxMoney - _)) by (unfold in_i64, maxMoney in *; lia).
  destruct (Z.ltb_spec (maxMoney - c_Amount cmd) b), (Z.leb_spec (b + c_Amount cmd) maxMoney);
    try lia; [by apply runs_refused|].
  destruct (post_one cmd (c_To cmd) b (c_Amount cmd) s (reserves s))
    as (s' & Hrec & Hinv' & Hk & Habs); try done; try lia.
  { pose proof (inv_cover _ Hinv _ _ Hb). lia. }
  unfold runs_ok, set_balance. rewrite Hrec. eexists s', _. by split_and!.
Qed.

Lemma applyWithdraw_runs cmd s :
  Inv s → in_i64 (c_Amount cmd) → c_Op cmd = OpWithdraw →
  runs_ok (applyWithdraw cmd s) (bank_apply cmd (abs s)) s.
Proof.
  intros Hinv Hamt Hop. unfold applyWithdraw, bank_apply. rewrite Hop. simpl.
  destruct (Z.leb_spec (c_Amount cmd) 0), (Z.ltb_spec 0 (c_Amount cmd)); try lia; simpl.
  { by apply runs_refused. }
  destruct (balances s !! c_From cmd) as [b|] eqn:Hb.
  2: { apply runs_refused; [done| |done]. by rewrite is_Some_false. }
  rewrite (is_Some_true _ b) by done. simpl.
  destruct (availableLocked_held s _ b Hinv Hb) as [-> Hav]. unfold free. simpl. rewrite Hb. simpl.
  pose proof (inv_range _ Hinv _ _ Hb) as Hr. pose proof (held_nonneg s (c_From cmd) Hinv).
  destruct (Z.ltb_spec (b - held (reserves s) (c_From cmd)) (c_Amount cmd)),
    (Z.leb_spec (c_Amount cmd) (b - held (reserves s) (c_From cmd))); try lia;
    [by apply runs_refused|].
  rewrite (i64_small (- _)) by (unfold in_i64 in *; lia).
  destruct (post_one cmd (c_From cmd) b (- c_Amount cmd) s (reserves s))
    as (s' & Hrec & Hinv' & Hk & Habs); try done; try (unfold in_i64 in *; lia).
  unfold runs_ok, set_balance. rewrite <- !Z.add_opp_r. rewrite Hrec. eexists s', _. by split_and!.
Qed.

Lemma transfer_entries_balance q k from to amt ts :
  in_i64 amt →
  Transaction_balances
    (mkTransaction q OpTransfer k [mkEntry from (i64 (- amt)); mkEntry to amt] ts) = true.
Proof.
  intros Hamt. unfold Transaction_balances. cbn [negb t_Op t_Entries length].
  change (OpTransfer =? OpTransfer) with true. cbn [negb Nat.eqb].
  rewrite go_sum_exact. cbn. rewrite i64_add_l.
  replace (- amt + (amt + 0)) with 0 by lia. done.
Qed.

(** Moving money between two existing accounts. *)
Lemma post_transfer cmd bf bt s :
  Inv s → c_Op cmd = OpTransfer → c_From cmd ≠ c_To cmd →
  balances s !! c_From cmd = Some bf → balances s !! c_To cmd = Some bt →
  0 < c_Amount cmd ≤ bf - held (reserves s) (c_From cmd) → bt + c_Amount cmd ≤ maxMoney →
  ∃ s', record cmd [mkEntry (c_From cmd) (i64 (- c_Amount cmd));
                    mkEntry (c_To cmd) (c_Amount cmd)]
          (mkState (<[c_To cmd:=bt + c_Amount cmd]> (<[c_From cmd:=bf - c_Amount cmd]> (balances s)))
                   (applied s) (fingerprints s) (history s) (reserves s) (seq s)) = Some s'
    ∧ Inv s' ∧ same_keys s s'
    ∧ abs s' = mkBank (<[c_To cmd:=bt + c_Amount cmd]>
                        (<[c_From cmd:=bf - c_Amount cmd]> (balances s))) (reserves s).
Proof.
  intros Hinv Hop Hne Hf Ht Hamt Hmax.
  pose proof (inv_range _ Hinv _ _ Hf) as Hrf. pose proof (inv_range _ Hinv _ _ Ht) as Hrt.
  pose proof (held_nonneg s (c_From cmd) Hinv). pose proof (inv_cover _ Hinv _ _ Ht).
  assert (in_i64 (c_Amount cmd)) as Hi by (unfold in_i64, maxMoney in *; lia).
  destruct (record_Inv cmd [mkEntry (c_From cmd) (i64 (- c_Amount cmd));
                            mkEntry (c_To cmd) (c_Amount cmd)] s
              (<[c_To cmd:=bt + c_Amount cmd]> (<[c_From cmd:=bf - c_Amount cmd]> (balances s)))
              (reserves s)) as (s' & Hrec & Hinv' & Hbal & Hres & ? & ?); auto.
  - simpl. unfold derive_entry. simpl. rewrite Hf. simpl.
    rewrite lookup_insert_ne, Ht by done. simpl.
    rewrite i64_add_r, !i64_small by (unfold in_i64, maxMoney in *; lia). done.
  - intros a b [[<- <-]|[? [[<- <-]|[? Ha]]%lookup_insert_Some]]%lookup_insert_Some; [lia..|].
    by eapply inv_range.
  - intros a b [[<- <-]|[? [[<- <-]|[? Ha]]%lookup_insert_Some]]%lookup_insert_Some; [lia..|].
    by eapply inv_cover.
  - unfold total. rewrite (map_sum_insert_Some id _ _ _ bt), (map_sum_insert_Some id _ _ _ bf)
      by by simplify_map_eq.
    unfold entries_sum. simpl. rewrite i64_small by (unfold in_i64 in *; lia).
    unfold id. lia.
  - intros q. rewrite Hop. by apply transfer_entries_balance.
  - exists s'. unfold same_keys, abs. rewrite Hbal, Hres. done.
Qed.

Lemma applyTransfer_runs cmd s :
  Inv s → in_i64 (c_Amount cmd) → c_Op cmd = OpTransfer →
  runs_ok (applyTransfer cmd s) (bank_apply cmd (abs s)) s.
Proof.
  intros Hinv Hamt Hop. unfold applyTransfer, bank_apply. rewrite Hop. simpl.
  destruct (Z.leb_spec (c_Amount cmd) 0), (Z.ltb_spec 0 (c_Amount cmd)); try lia; simpl.
  { by apply runs_refused. }
  case_bool_decide as Hne; simpl; [by apply runs_refused|].
  destruct (balances s !! c_From cmd) as [bf|] eqn:Hf.
  2: { apply runs_refused; [done| |done]. by rewrite is_Some_false. }
  rewrite (is_Some_true _ bf) by done. simpl.
  destruct (balances s !! c_To cmd) as [bt|] eqn:Ht.
  2: { apply runs_refused; [done| |done]. by rewrite is_Some_false. }
  rewrite (is_Some_true _ bt) by done. simpl.
  destruct (availableLocked_held s _ bf Hinv Hf) as [-> Hav]. unfold free. simpl. rewrite Hf. simpl.
  pose proof (inv_range _ Hinv _ _ Hf) as Hrf. pose proof (inv_range _ Hinv _ _ Ht) as Hrt.
  pose proof (held_nonneg s (c_From cmd) Hinv).
  destruct (Z.ltb_spec (bf - held (reserves s) (c_From cmd)) (c_Amount cmd)),
    (Z.leb_spec (c_Amount cmd) (bf - held (reserves s) (c_From cmd))); try lia; simpl;
    [by apply runs_refused|].
  rewrite (i64_small (maxMoney - _)) by (unfold in_i64, maxMoney in *; lia).
  destruct (Z.ltb_spec (maxMoney - c_Amount cmd) bt), (Z.leb_spec (bt + c_Amount cmd) maxMoney);
    try lia; [by apply runs_refused|].
  destruct (post_transfer cmd bf bt s) as (s' & Hrec & Hinv' & Hk & Habs); try done; try lia.
  unfold runs_ok, set_balance, balance_of. simpl. rewrite lookup_insert_ne, Ht by done. simpl.
  rewrite (i64_small (bf - _)), (i64_small (bt + _)) by (unfold in_i64, maxMoney in *; lia).
  rewrite Hrec. eexists s', _. by split_and!.
Qed.

Lemma applyLocked_runs cmd s :
  Inv s → in_i64 (c_Amount cmd) → runs_ok (applyLocked cmd s) (bank_apply cmd (abs s)) s.
Proof.
  intros Hinv Hamt. unfold applyLocked.
  destruct (Z.eqb_spec (c_Op cmd) OpOpenAccount); [by apply applyOpen_runs|].
  destruct (Z.eqb_spec (c_Op cmd) OpDeposit); [by apply applyDeposit_runs|].
  destruct (Z.eqb_spec (c_Op cmd) OpWithdraw); [by apply applyWithdraw_runs|].
  destruct (Z.eqb_spec (c_Op cmd) OpTransfer); [by apply applyTransfer_runs|].
  apply runs_refused; [done| |done]. unfold bank_apply.
  repeat match goal with H : c_Op cmd ≠ _ |- _ => rewrite (proj2 (Z.eqb_neq _ _) H); clear H end.
  done.
Qed.

(** ** The reservation operations *)

Lemma PrepareDebit_runs tx a m s :
  Inv s → in_i64 m → runs_ok (Some (PrepareDebit tx a m s)) (bank_spec (LPrepareDebit tx a m) (abs s)) s.
Proof.
  intros Hinv Hm. unfold PrepareDebit, bank_spec. simpl.
  destruct (Z.leb_spec m 0), (Z.ltb_spec 0 m); try lia; simpl; [by apply runs_refused|].
  destruct (balances s !! a) as [b|] eqn:Hb.
  2: { apply runs_refused; [done| |done]. by rewrite is_Some_false. }
  rewrite (is_Some_true _ b) by done.
  destruct (availableLocked_held s a b Hinv Hb) as [Hav Hfree].
  destruct (reserves s !! tx) as [h|] eqn:Hh.
  - case_bool_decide; simpl; [|by apply runs_refused].
    destruct (Z.eqb_spec (rv_Amount h) m); simpl; [|by apply runs_refused].
    exists s, (succeeded (availableLocked s a).1). unfold same_keys, meets. done.
  - rewrite Hav. unfold free. simpl. rewrite Hb. simpl.
    destruct (Z.ltb_spec (b - held (reserves s) a) m), (Z.leb_spec m (b - held (reserves s) a));
      try lia; [by apply runs_refused|].
    eexists _, _. split; [done|]. split; [|done].
    destruct Hinv as [Hr Hres Hcov Hbk Hbal Htot Hsq Hsqs]. split; simpl; try done.
    + intros tx' r [[<- <-]|[? Hr']]%lookup_insert_Some; [|by apply Hres]. simpl. eauto.
    + intros x bx Hx. rewrite held_insert by done. unfold held_by at 1. simpl.
      case_bool_decide as Hax; [|by apply Hcov].
      destruct Hax. simplify_eq. lia.
Qed.

Lemma PrepareCredit_runs tx a m s :
  Inv s → runs_ok (Some (PrepareCredit tx a m s)) (bank_spec (LPrepareCredit tx a m) (abs s)) s.
Proof.
  intros Hinv. unfold PrepareCredit, bank_spec. simpl.
  destruct (Z.leb_spec m 0), (Z.ltb_spec 0 m); try lia; simpl; [by apply runs_refused|].
  destruct (balances s !! a) as [b|] eqn:Hb.
  - rewrite (is_Some_true _ b) by done. eexists s, _. unfold same_keys, meets. done.
  - apply runs_refused; [done| |done]. by rewrite is_Some_false.
Qed.

Lemma held_delete_le s tx x :
  Inv s → held (delete tx (reserves s)) x ≤ held (reserves s) x.
Proof.
  intros Hinv. destruct (reserves s !! tx) as [r|] eqn:Hr.
  - rewrite (held_delete (reserves s) tx r x) by done.
    pose proof (held_by_nonneg x r (proj1 (proj2 (inv_reserve _ Hinv tx r Hr)))). lia.
  - by rewrite delete_id.
Qed.

Lemma CommitDebit_runs tx ts s :
  Inv s → runs_ok (CommitDebit tx ts s) (bank_spec (LCommitDebit tx ts) (abs s)) s.
Proof.
  intros Hinv. unfold CommitDebit, bank_spec. simpl.
  destruct (reserves s !! tx) as [r|] eqn:Hr; [|by apply runs_refused].
  destruct (inv_reserve _ Hinv tx r Hr) as (_ & Hpos & [b Hb]).
  pose proof (inv_range _ Hinv _ _ Hb) as Hrange. pose proof (inv_cover _ Hinv _ _ Hb) as Hcov.
  assert (held (delete tx (reserves s)) (rv_Account r) ≤ b - rv_Amount r) as Hleft.
  { rewrite (held_delete _ tx r) in Hcov by done. unfold held_by in Hcov at 1.
    rewrite bool_decide_eq_true_2 in Hcov by done. lia. }
  assert (0 ≤ held (delete tx (reserves s)) (rv_Account r)) as Hnn.
  { apply map_sum_nonneg. intros tx' r' [_ Hr']%lookup_delete_Some.
    apply held_by_nonneg, (inv_reserve _ Hinv tx' r' Hr'). }
  rewrite (i64_small (- _)) by (unfold in_i64, maxMoney in *; lia).
  destruct (post_one (mkCommand OpTransfer (internalKey tx "debit") (rv_Account r) "" (rv_Amount r) ts)
              (rv_Account r) b (- rv_Amount r) s (delete tx (reserves s)))
    as (s' & Hrec & Hinv' & Hk & Habs); try done; try (unfold in_i64, maxMoney in *; lia).
  { by intros tx' r' [_ ?]%lookup_delete_Some. }
  { intros x. by apply held_delete_le. }
  unfold runs_ok, set_balance, set_reserves, balance_of. simpl. rewrite Hb. simpl.
  rewrite <- !Z.add_opp_r. rewrite Hrec. eexists s', _. by split_and!.
Qed.

Lemma AbortTx_runs tx s :
  Inv s → runs_ok (Some (AbortTx tx s)) (bank_spec (LAbortTx tx) (abs s)) s.
Proof.
  intros Hinv. unfold AbortTx, bank_spec. simpl.
  destruct (reserves s !! tx) as [r|] eqn:Hr; eexists _, _; (split; [done|]);
    unfold same_keys, meets, abs; simpl.
  - split_and!; try done. pose proof (held_delete_le s tx) as Hle.
    destruct Hinv as [? Hres Hcov ?????]. split; simpl; try done.
    + intros tx' r' [_ Hr']%lookup_delete_Some. by apply Hres.
    + intros a b Hb. pose proof (Hcov a b Hb). etrans; [apply Hle|done]. by split.
  - rewrite delete_id by done. done.
Qed.

(** A credit leg that has not been applied yet. *)
Lemma CommitCredit_runs tx a m ts s :
  Inv s → in_i64 m → applied s !! internalKey tx "credit" = None →
  ∃ s' r, CommitCredit tx a m ts s = Some (s', r) ∧ Inv s' ∧
    fingerprints s' = fingerprints s ∧
    (∀ k, k ≠ internalKey tx "credit" → applied s' !! k = applied s !! k) ∧
    (r_OK r = true → applied s' !! internalKey tx "credit" = Some r) ∧
    meets (bank_spec (LCommitCredit tx a m ts) (abs s)) s s' r.
Proof.
  intros Hinv Hm Hfresh. unfold CommitCredit, bank_spec. rewrite Hfresh. simpl.
  destruct (balances s !! a) as [b|] eqn:Hb.
  2: { rewrite is_Some_false by done. eexists s, _. by split_and!. }
  rewrite (is_Some_true _ b) by done. simpl.
  pose proof (inv_range _ Hinv _ _ Hb) as Hr. pose proof (inv_cover _ Hinv _ _ Hb).
  destruct (Z.leb_spec 0 m) as [Hpos|Hneg]; simpl.
  2: { (* a negative amount wraps the bound below every balance *)
       rewrite i64_over by (unfold in_i64, maxMoney in *; lia).
       destruct (Z.ltb_spec (maxMoney - m - 2 ^ 64) b); [|unfold in_i64, maxMoney in *; lia].
       eexists s, _. by split_and!. }
  rewrite (i64_small (maxMoney - _)) by (unfold in_i64, maxMoney in *; lia).
  destruct (Z.ltb_spec (maxMoney - m) b), (Z.leb_spec (b + m) maxMoney); try lia.
  { eexists s, _. by split_and!. }
  destruct (post_one (mkCommand OpTransfer (internalKey tx "credit") "" a m ts) a b m s (reserves s))
    as (s' & Hrec & Hinv' & [Hka Hkf] & Habs); try done; try (unfold in_i64, maxMoney in *; lia).
  unfold set_balance. rewrite Hrec. simpl. eexists _, _. split; [done|]. simpl.
  split_and!; auto with go.
  - intros k Hk. rewrite lookup_insert_ne by done. by rewrite Hka.
  - by simplify_map_eq.
Qed.

(** ** Every operation, on every state that satisfies the invariant *)

(** A request the ledger evaluates rather than answers from its idempotency
    table or refuses for its key. *)
Definition fresh (o : lop) (s : State) : bool :=
  match o with
  | LApply c =>
      negb (bool_decide (c_IdempotencyKey c = ""))
      && negb (HasPrefix (c_IdempotencyKey c) internalKeyPrefix)
      && bool_decide (applied s !! c_IdempotencyKey c = None)
  | LCommitCredit tx _ _ _ => bool_decide (applied s !! internalKey tx "credit" = None)
  | _ => true
  end.

(** The bank after an operation: what the contract allows, or no change. *)
Definition bank_after (o : lop) (b : bank) : bank := default b (bank_spec o b).

Definition allowed (o : lop) (b : bank) : bool := bool_decide (is_Some (bank_spec o b)).

Lemma runs_ok_total run o s :
  runs_ok run (bank_spec o (abs s)) s →
  ∃ s' r, run = Some (s', r) ∧ Inv s' ∧ same_keys s s' ∧
    abs s' = bank_after o (abs s) ∧ r_OK r = allowed o (abs s).
Proof.
  intros (s' & r & Hrun & Hinv & Hk & Hm). exists s', r. unfold bank_after, allowed.
  unfold meets in Hm. destruct (bank_spec o (abs s)) as [b|]; destruct Hm as [Hok Habs]; simpl.
  - rewrite Hok. naive_solver.
  - subst s'. rewrite Hok. naive_solver.
Qed.

Lemma exec_fresh o s :
  Inv s → wf_op o → fresh o s = true →
  ∃ s' r, exec o s = Some (s', r) ∧ Inv s' ∧
    abs s' = bank_after o (abs s) ∧ r_OK r = allowed o (abs s).
Proof.
  intros Hinv Hwf Hfr. destruct o as [c|tx a m|tx a m|tx ts|tx a m ts|tx]; simpl in *.
  - apply andb_true_iff in Hfr as [[Hk Hp]%andb_true_iff Ha].
    apply negb_true_iff in Hk, Hp. unfold Apply. rewrite Hk, Hp.
    apply bool_decide_eq_true_1 in Ha. rewrite Ha.
    destruct (runs_ok_total _ (LApply c) s (applyLocked_runs c s Hinv Hwf))
      as (s' & r & -> & Hinv' & _ & Habs & Hok). simpl.
    eexists _, _. split; [done|]. auto with go.
  - destruct (runs_ok_total _ _ s (PrepareDebit_runs tx a m s Hinv Hwf)) as (?&?&->&?&_&?&?).
    eauto 10.
  - destruct (runs_ok_total _ _ s (PrepareCredit_runs tx a m s Hinv)) as (?&?&->&?&_&?&?).
    eauto 10.
  - destruct (runs_ok_total _ _ s (CommitDebit_runs tx ts s Hinv)) as (?&?&->&?&_&?&?).
    eauto 10.
  - apply bool_decide_eq_true_1 in Hfr.
    destruct (CommitCredit_runs tx a m ts s Hinv Hwf Hfr) as (s' & r & -> & ? & _ & _ & _ & Hm).
    exists s', r. unfold bank_after, allowed. unfold meets in Hm.
    destruct (bank_spec _ _); destruct Hm as [-> Hm]; simpl; [by rewrite Hm|by subst].
  - destruct (runs_ok_total _ _ s (AbortTx_runs tx s Hinv)) as (?&?&->&?&_&?&?).
    eauto 10.
Qed.

(** A request that is not fresh leaves the state as it is. *)
Lemma exec_stale o s : fresh o s = false → ∃ r, exec o s = Some (s, r).
Proof.
  destruct o as [c|tx a m|tx a m|tx ts|tx a m ts|tx]; simpl; try done.
  - unfold Apply. destruct (bool_decide (c_IdempotencyKey c = "")); simpl; [eauto|].
    destruct (HasPrefix _ _); simpl; [eauto|].
    destruct (applied s !! _) as [r|]; [|by rewrite bool_decide_eq_true_2].
    intros _. destruct (negb _); eauto.
  - unfold CommitCredit. destruct (applied s !! _) as [r|]; [eauto|].
    by rewrite bool_decide_eq_true_2.
Qed.

Lemma exec_Inv o s :
  Inv s → wf_op o → ∃ s' r, exec o s = Some (s', r) ∧ Inv s'.
Proof.
  intros Hinv Hwf. destruct (fresh o s) eqn:Hf.
  - destruct (exec_fresh o s) as (? & ? & ? & ? & _); eauto.
  - destruct (exec_stale o s Hf) as [r Hr]. eauto.
Qed.

Lemma New_Inv : Inv New.
Proof.
  split; try done; intros *; rewrite ?lookup_empty; try done; by rewrite lookup_nil.
Qed.

Lemma reachable_Inv s : reachable s → Inv s.
Proof.
  induction 1 as [|o s s' r _ IH Hwf Hex]; [apply New_Inv|].
  destruct (exec_Inv o s IH Hwf) as (s'' & r' & Hex' & ?). by simplify_eq.
Qed.

(** ** Running sequences of operations *)

Fixpoint exec_all (os : list lop) (s : State) : option State :=
  match os with
  | [] => Some s
  | o :: os => '(s', _) ← exec o s; exec_all os s'
  end.

Lemma exec_all_Inv os s :
  Inv s → Forall wf_op os → ∃ s', exec_all os s = Some s' ∧ Inv s'.
Proof.
  intros Hinv Hwf. revert s Hinv. induction Hwf as [|o os Ho _ IH]; intros s Hinv; simpl; [eauto|].
  destruct (exec_Inv o s Hinv Ho) as (s' & r & -> & Hinv'). by apply IH.
Qed.

Lemma reachable_exec_all os s s' :
  reachable s → Forall wf_op os → exec_all os s = Some s' → reachable s'.
Proof.
  intros Hr Hwf. revert s Hr. induction Hwf as [|o os Ho _ IH]; intros s Hr; simpl; [naive_solver|].
  destruct (exec o s) as [[s1 r]|] eqn:He; [|done]. simpl. apply IH. by eapply reach_step.
Qed.

(** * What each ledger operation may touch

    The footprint of every operation on the holds, the accounts and the
    idempotency table, in the form the shard machine's proofs use. *)

Lemma internalKey_inj tx tx' leg : internalKey tx leg = internalKey tx' leg → tx = tx'.
Proof. unfold internalKey. intros H%(inj _). by apply str_app_inv_r in H. Qed.

Lemma internalKey_prefixed tx leg : HasPrefix (internalKey tx leg) internalKeyPrefix = true.
Proof. apply HasPrefix_app. Qed.

(** The holds after an operation. *)
Definition holds_after (o : lop) (ok : bool) (rs : gmap string Reserve) : gmap string Reserve :=
  match o with
  | LPrepareDebit tx a m => if ok then <[tx:=mkReserve tx a m]> rs else rs
  | LCommitDebit tx _ | LAbortTx tx => delete tx rs
  | _ => rs
  end.

Lemma exec_holds o s s' r :
  Inv s → wf_op o → exec o s = Some (s', r) → reserves s' = holds_after o (r_OK r) (reserves s).
Proof.
  intros Hinv Hwf Hex. destruct (fresh o s) eqn:Hf.
  2: { destruct (exec_stale o s Hf) as [r1 Hr1]. simplify_eq. by destruct o. }
  destruct (exec_fresh o s Hinv Hwf Hf) as (s1 & r1 & Hex1 & _ & Habs & Hok). simplify_eq.
  change (reserves s') with (bk_res (abs s')). rewrite Habs, Hok.
  unfold bank_after, allowed. destruct o as [c|tx a m|tx a m|tx ts|tx a m ts|tx]; simpl.
  - unfold bank_apply. by repeat case_match.
  - destruct ((0 <? m) && _); simpl; [|done].
    destruct (reserves s !! tx) as [h|] eqn:Hh; [|by destruct (m <=? _)].
    case_bool_decide; simpl; [|done]. destruct (Z.eqb_spec (rv_Amount h) m); simpl; [|done].
    rewrite insert_id; [done|]. rewrite Hh. f_equal.
    destruct (inv_reserve _ Hinv tx h Hh) as (? & _). destruct h; simpl in *; congruence.
  - by repeat case_match.
  - destruct (reserves s !! tx) as [h|] eqn:Hh; [done|]. simpl. by rewrite delete_id.
  - by repeat case_match.
  - done.
Qed.

(** Accounts are never closed. *)
Lemma exec_accounts o s s' r a :
  Inv s → wf_op o → exec o s = Some (s', r) →
  is_Some (balances s !! a) → is_Some (balances s' !! a).
Proof.
  intros Hinv Hwf Hex Ha. destruct (fresh o s) eqn:Hf.
  2: { destruct (exec_stale o s Hf) as [r1 Hr1]. by simplify_eq. }
  destruct (exec_fresh o s Hinv Hwf Hf) as (s1 & r1 & Hex1 & _ & Habs & Hok). simplify_eq.
  change (balances s') with (bk_bal (abs s')). rewrite Habs. unfold bank_after.
  destruct o as [c|tx x m|tx x m|tx ts|tx x m ts|tx]; simpl.
  - unfold bank_apply. repeat case_match; simpl; auto; rewrite ?lookup_insert_is_Some'; auto.
  - by repeat case_match.
  - by repeat case_match.
  - repeat case_match; simpl; auto; rewrite ?lookup_insert_is_Some'; auto.
  - repeat case_match; simpl; auto; rewrite ?lookup_insert_is_Some'; auto.
  - done.
Qed.

(** Only a credit leg files a result under an internal key, and only its own. *)
Lemma exec_internal o s s' r k p :
  Inv s → wf_op o → exec o s = Some (s', r) → HasPrefix k internalKeyPrefix = true →
  applied s' !! k = Some p →
  applied s !! k = Some p ∨ ∃ tx a m ts, o = LCommitCredit tx a m ts ∧ k = internalKey tx "credit".
Proof.
  intros Hinv Hwf Hex Hk Hp. destruct (fresh o s) eqn:Hf.
  2: { destruct (exec_stale o s Hf) as [r1 Hr1]. simplify_eq. by left. }
  assert (∀ run spec, runs_ok run spec s → run = Some (s', r) → applied s' = applied s) as Hsame.
  { intros run spec (s1 & r1 & Hrun & _ & [Ha _] & _) He. simplify_eq. done. }
  destruct o as [c|tx a m|tx a m|tx ts|tx a m ts|tx]; simpl in *.
  - apply andb_true_iff in Hf as [[Hne Hpre]%andb_true_iff Ha].
    apply negb_true_iff in Hne, Hpre. apply bool_decide_eq_true_1 in Ha.
    unfold Apply in Hex. rewrite Hne, Hpre, Ha in Hex.
    destruct (applyLocked_runs c s Hinv Hwf) as (s1 & r1 & Hrun & _ & [Hka _] & _).
    rewrite Hrun in Hex. simpl in Hex. simplify_eq. simpl in Hp.
    rewrite lookup_insert_ne in Hp by congruence. left. by rewrite <- Hka.
  - left. by rewrite <- (Hsame _ _ (PrepareDebit_runs tx a m s Hinv Hwf)).
  - left. by rewrite <- (Hsame _ _ (PrepareCredit_runs tx a m s Hinv)).
  - left. by rewrite <- (Hsame _ _ (CommitDebit_runs tx ts s Hinv)).
  - apply bool_decide_eq_true_1 in Hf.
    destruct (CommitCredit_runs tx a m ts s Hinv Hwf Hf) as (s1 & r1 & Hrun & _ & _ & Hka & _).
    simplify_eq. destruct (decide (k = internalKey tx "credit")) as [->|Hne]; [naive_solver|].
    left. by rewrite <- Hka.
  - left. by rewrite <- (Hsame _ _ (AbortTx_runs tx s Hinv)).
Qed.
