(* ===== verification/LedgerProps.v ===== *)
(** * What the ledger promises

    The claims about src/ledger/ledger.go and src/ledger/reserve.go, proved from
    the invariant and the abstract bank of LedgerInv: soundness of every
    reachable state, refinement of the bank, conservation, the two audits,
    exactly-once retries, and the life of a reservation. *)

From S2P Require Import Prelude GoLib Hlc Ledger LedgerInv.

Local Open Scope Z_scope.

(** ** The idempotency tables only grow *)

Definition keeps_keys (s s' : State) : Prop :=
  ∀ k p, applied s !! k = Some p →
    applied s' !! k = Some p ∧ fingerprints s' !! k = fingerprints s !! k.

Lemma same_keys_keeps s s' : same_keys s s' → keeps_keys s s'.
Proof. intros [Ha Hf] k p Hk. by rewrite Ha, Hf. Qed.

Lemma keeps_keys_trans s1 s2 s3 : keeps_keys s1 s2 → keeps_keys s2 s3 → keeps_keys s1 s3.
Proof.
  intros H12 H23 k p Hk. destruct (H12 k p Hk) as [Hk2 Hf2].
  destruct (H23 k p Hk2) as [Hk3 Hf3]. split; congruence.
Qed.

Lemma runs_ok_keeps run spec s s' r :
  runs_ok run spec s → run = Some (s', r) → keeps_keys s s'.
Proof.
  intros (s1 & r1 & Hrun & _ & Hk & _) Hr. simplify_eq. by apply same_keys_keeps.
Qed.

#[local] Hint Resolve runs_ok_keeps applyLocked_runs PrepareDebit_runs PrepareCredit_runs
  CommitDebit_runs AbortTx_runs : go.

Lemma exec_keeps_keys o s s' r :
  Inv s → wf_op o → exec o s = Some (s', r) → keeps_keys s s'.
Proof.
  intros Hinv Hwf Hex. destruct (fresh o s) eqn:Hf.
  2: { destruct (exec_stale o s Hf) as [r' Hr]. simplify_eq. by intros ??. }
  destruct o as [c|tx a m|tx a m|tx ts|tx a m ts|tx]; simpl in *; eauto with go.
  - apply andb_true_iff in Hf as [[Hk Hp]%andb_true_iff Ha].
    apply negb_true_iff in Hk, Hp. apply bool_decide_eq_true_1 in Ha.
    unfold Apply in Hex. rewrite Hk, Hp, Ha in Hex.
    destruct (applyLocked_runs c s Hinv Hwf) as (s1 & r1 & Hrun & _ & [Hka Hkf] & _).
    rewrite Hrun in Hex. simpl in Hex. simplify_eq.
    intros k p Hkp. assert (k ≠ c_IdempotencyKey c) by congruence.
    simpl. rewrite !lookup_insert_ne by done. by rewrite Hka, Hkf.
  - apply bool_decide_eq_true_1 in Hf.
    destruct (CommitCredit_runs tx a m ts s Hinv Hwf Hf) as (s1 & r1 & Hrun & _ & Hkf & Hka & _).
    simplify_eq. intros k p Hkp. rewrite Hkf, Hka by congruence. done.
Qed.

Lemma exec_all_keeps_keys os s s' :
  Inv s → Forall wf_op os → exec_all os s = Some s' → keeps_keys s s'.
Proof.
  intros Hinv Hwf. revert s Hinv. induction Hwf as [|o os Ho _ IH]; intros s Hinv; simpl.
  - intros [= <-]. by intros ??.
  - destruct (exec_Inv o s Hinv Ho) as (s1 & r & Hex & Hinv1). rewrite Hex. simpl.
    intros Hall. apply (keeps_keys_trans s s1); [by eapply exec_keeps_keys|by apply IH].
Qed.

(** ** Retries *)

(** The same request: everything the client chose, at any later time. *)
Definition same_request (c c' : Command) : Prop :=
  c_IdempotencyKey c' = c_IdempotencyKey c ∧ c_Op c' = c_Op c ∧ c_From c' = c_From c ∧
  c_To c' = c_To c ∧ c_Amount c' = c_Amount c.

Lemma same_request_fingerprint c c' : same_request c c' → fingerprint c' = fingerprint c.
Proof. intros (_ & Ho & Hf & Ht & Ha). unfold fingerprint. by rewrite Ho, Hf, Ht, Ha. Qed.

#[local] Opaque fingerprint.

(** What is on file for a key after the request that carries it. *)
Lemma Apply_filed c s s1 r :
  bool_decide (c_IdempotencyKey c = "") = false →
  HasPrefix (c_IdempotencyKey c) internalKeyPrefix = false →
  Apply c s = Some (s1, r) →
  ∃ p, applied s1 !! c_IdempotencyKey c = Some p ∧
    r = (if default 0 (fingerprints s1 !! c_IdempotencyKey c) =? fingerprint c
         then p else failed ErrIdempotencyConflict).
Proof.
  intros Hk Hp. unfold Apply. rewrite Hk, Hp.
  destruct (applied s !! c_IdempotencyKey c) as [p|] eqn:Ha.
  - destruct (Z.eqb_spec (default 0 (fingerprints s !! c_IdempotencyKey c)) (fingerprint c))
      as [He|He]; simpl; intros [= <- <-]; exists p; (split; [done|]).
    + by rewrite (proj2 (Z.eqb_eq _ _) He).
    + by rewrite (proj2 (Z.eqb_neq _ _) He).
  - destruct (applyLocked c s) as [[s' res]|]; [|done]. simpl. intros [= <- <-].
    exists res. simpl. rewrite !lookup_insert_eq. simpl. by rewrite Z.eqb_refl.
Qed.

Lemma Apply_from_file c s p :
  bool_decide (c_IdempotencyKey c = "") = false →
  HasPrefix (c_IdempotencyKey c) internalKeyPrefix = false →
  applied s !! c_IdempotencyKey c = Some p →
  Apply c s = Some (s, if default 0 (fingerprints s !! c_IdempotencyKey c) =? fingerprint c
                       then p else failed ErrIdempotencyConflict).
Proof. intros Hk Hp Ha. unfold Apply. rewrite Hk, Hp, Ha. by destruct (_ =? _). Qed.

(** C11: A retry is answered with the original answer and moves no money.
    Whatever [Apply] returned for a request (a success, a refusal by the
    ledger, a conflict), the same request submitted again, stamped with any
    timestamp, after any sequence of further client commands and two-phase
    operations, returns that same result and leaves the state untouched. *)
Theorem Apply_retry c c' os s s1 s2 r :
  reachable s → wf_op (LApply c) → Apply c s = Some (s1, r) →
  Forall wf_op os → exec_all os s1 = Some s2 → same_request c c' →
  Apply c' s2 = Some (s2, r).
Proof.
  intros Hr Hwf Hap Hos Hall Hsame.
  pose proof (same_request_fingerprint c c' Hsame) as Hfp.
  destruct Hsame as (Hkey & _).
  destruct (bool_decide (c_IdempotencyKey c = "")) eqn:Hk.
  { unfold Apply in *. rewrite Hkey. rewrite Hk in *. congruence. }
  destruct (HasPrefix (c_IdempotencyKey c) internalKeyPrefix) eqn:Hp.
  { unfold Apply in *. rewrite Hkey. rewrite Hk, Hp in *. congruence. }
  destruct (Apply_filed c s s1 r Hk Hp Hap) as (p & Hpk & ->).
  assert (Inv s1) as Hinv1.
  { apply reachable_Inv. exact (reach_step (LApply c) s s1 _ Hr Hwf Hap). }
  destruct (exec_all_keeps_keys os s1 s2 Hinv1 Hos Hall _ _ Hpk) as [Hpk2 Hf2].
  rewrite (Apply_from_file c' s2 p) by by rewrite Hkey.
  by rewrite Hkey, Hf2, Hfp.
Qed.

(** A key is good for one request only.  Once a request has been recorded
    under a key, a request with the same key and another fingerprint is refused
    with the conflict error, now and after any further operations, and changes
    nothing. *)
Theorem Apply_conflict c c' os s s1 s2 r :
  reachable s → wf_op (LApply c) → fresh (LApply c) s = true → Apply c s = Some (s1, r) →
  Forall wf_op os → exec_all os s1 = Some s2 →
  c_IdempotencyKey c' = c_IdempotencyKey c → fingerprint c' ≠ fingerprint c →
  Apply c' s2 = Some (s2, failed ErrIdempotencyConflict).
Proof.
  intros Hr Hwf Hfr Hap Hos Hall Hkey Hne.
  pose proof (reach_step (LApply c) s s1 r Hr Hwf Hap) as Hr1%reachable_Inv.
  simpl in Hfr. apply andb_true_iff in Hfr as [[Hk Hp]%andb_true_iff Ha].
  apply negb_true_iff in Hk, Hp. apply bool_decide_eq_true_1 in Ha.
  assert (applied s1 !! c_IdempotencyKey c = Some r
          ∧ fingerprints s1 !! c_IdempotencyKey c = Some (fingerprint c)) as [Hpk Hpf].
  { unfold Apply in Hap. rewrite Hk, Hp, Ha in Hap.
    destruct (applyLocked c s) as [[s' res]|]; [|done]. simpl in Hap. simplify_eq. simpl.
    by rewrite !lookup_insert_eq. }
  destruct (exec_all_keeps_keys os s1 s2 Hr1 Hos Hall _ _ Hpk) as [Hpk2 Hf2].
  rewrite (Apply_from_file c' s2 r) by by rewrite Hkey.
  rewrite Hkey, Hf2, Hpf. simpl. rewrite (proj2 (Z.eqb_neq _ _)) by congruence. done.
Qed.

#[local] Transparent fingerprint.

(** ** Soundness and refinement *)

(** C19: No reachable ledger state is unsound and no operation on one panics.
    In every state reached from [New] by client commands and two-phase
    operations with [int64] amounts, each balance lies in [0, maxMoney], what
    may be spent from an account is its exact balance less the exact sum of its
    holds and is never negative, each hold is positive and against an existing
    account, and every further operation returns (the panic of [record] is
    unreachable). *)
Theorem reachable_sound s :
  reachable s →
  (∀ a b, balances s !! a = Some b →
     0 ≤ b ≤ maxMoney ∧
     Available s a = (b - held (reserves s) a, true) ∧ 0 ≤ (Available s a).1 ≤ b) ∧
  (∀ tx h, reserves s !! tx = Some h →
     0 < rv_Amount h ∧ is_Some (balances s !! rv_Account h)) ∧
  (∀ o, wf_op o → is_Some (exec o s)).
Proof.
  intros Hinv%reachable_Inv. split_and!.
  - intros a b Hb. destruct (availableLocked_held s a b Hinv Hb) as [Hav Hnn].
    pose proof (held_nonneg s a Hinv). unfold Available. rewrite Hav. simpl.
    split_and!; try done; try lia; by apply (inv_range _ Hinv a).
  - intros tx h Hh. by destruct (inv_reserve _ Hinv tx h Hh) as (_ & ? & ?).
  - intros o Ho. destruct (exec_Inv o s Hinv Ho) as (s' & r & -> & _). eauto.
Qed.

(** C4: The ledger implements the abstract bank.  On every reachable state, an
    operation that is evaluated (a fresh key, a credit leg not applied before)
    succeeds exactly when the bank, which computes with exact integers and has
    no history, no caches and no wrap-around, allows it, and takes the balances
    and holds exactly where the bank takes them; a refused operation leaves
    them unchanged.  An operation answered from the idempotency tables changes
    nothing at all. *)
Theorem exec_refines_bank o s :
  reachable s → wf_op o →
  ∃ s' r, exec o s = Some (s', r) ∧
    if fresh o s
    then abs s' = bank_after o (abs s) ∧ r_OK r = allowed o (abs s)
    else s' = s.
Proof.
  intros Hinv%reachable_Inv Hwf. destruct (fresh o s) eqn:Hf.
  - destruct (exec_fresh o s Hinv Hwf Hf) as (s' & r & ? & _ & ?). eauto.
  - destruct (exec_stale o s Hf) as [r Hr]. eauto.
Qed.

(** ** Conservation *)

(** The money an accepted operation brings into the accounts. *)
Definition inflow (o : lop) (s : State) : Z :=
  match o with
  | LApply c =>
      if (c_Op c =? OpOpenAccount) || (c_Op c =? OpDeposit) then c_Amount c
      else if c_Op c =? OpWithdraw then - c_Amount c else 0
  | LCommitDebit tx _ => - default 0 (rv_Amount <$> reserves s !! tx)
  | LCommitCredit _ _ m _ => m
  | LPrepareDebit _ _ _ | LPrepareCredit _ _ _ | LAbortTx _ => 0
  end.

Lemma sum_insert_existing (m : gmap string Z) a v :
  is_Some (m !! a) → map_sum id (<[a:=v]> m) = map_sum id m - default 0 (m !! a) + v.
Proof. intros [b Hb]. rewrite Hb. by rewrite (map_sum_insert_Some id _ a v b). Qed.

Lemma bank_apply_inflow c s b' :
  bank_apply c (abs s) = Some b' →
  map_sum id (bk_bal b') = total s + inflow (LApply c) s.
Proof.
  unfold bank_apply, inflow, total. simpl.
  repeat case_match; repeat match goal with
    | H : (_ =? _) = true |- _ => apply Z.eqb_eq in H
    | H : (_ =? _) = false |- _ => apply Z.eqb_neq in H
    | H : (_ && _) = true |- _ => apply andb_true_iff in H as [? ?]
    | H : negb _ = true |- _ => apply negb_true_iff in H
    | H : bool_decide _ = true |- _ => apply bool_decide_eq_true_1 in H
    | H : bool_decide _ = false |- _ => apply bool_decide_eq_false_1 in H
    | H : (_ || _) = true |- _ => apply orb_true_iff in H as [?|?]
    | H : (_ || _) = false |- _ => apply orb_false_iff in H as [? ?]
    end; try congruence; intros [= <-]; simpl.
  all: try (rewrite map_sum_insert_None by (by apply eq_None_not_Some); unfold id; lia).
  all: try (rewrite sum_insert_existing by done; lia).
  rewrite sum_insert_existing by (rewrite lookup_insert_ne; done).
  rewrite lookup_insert_ne by done. rewrite sum_insert_existing by done. lia.
Qed.

Lemma bank_spec_inflow o s b' :
  Inv s → bank_spec o (abs s) = Some b' →
  map_sum id (bk_bal b') = total s + inflow o s.
Proof.
  intros Hinv. destruct o as [c|tx a m|tx a m|tx ts|tx a m ts|tx]; simpl.
  - apply bank_apply_inflow.
  - unfold total. repeat case_match; try done; intros [= <-]; simpl; lia.
  - unfold total. repeat case_match; try done; intros [= <-]; simpl; lia.
  - destruct (reserves s !! tx) as [h|] eqn:Hh; [|done]. intros [= <-]. simpl.
    rewrite sum_insert_existing by apply (inv_reserve _ Hinv tx h Hh). unfold total. lia.
  - destruct (bool_decide _) eqn:He; simpl; [|done]. apply bool_decide_eq_true_1 in He.
    case_match; [|done]. intros [= <-]. simpl. rewrite sum_insert_existing by done.
    unfold total. lia.
  - intros [= <-]. unfold total. simpl. lia.
Qed.

Lemma exec_total o s s' r :
  Inv s → wf_op o → exec o s = Some (s', r) →
  total s' = total s + (if fresh o s && r_OK r then inflow o s else 0).
Proof.
  intros Hinv Hwf Hex. destruct (fresh o s) eqn:Hf; simpl.
  - destruct (exec_fresh o s Hinv Hwf Hf) as (s1 & r1 & Hex1 & _ & Habs & Hok). simplify_eq.
    rewrite Hok. unfold allowed, bank_after in *.
    destruct (bank_spec o (abs s)) as [b|] eqn:Hb; simpl in *.
    + apply (bank_spec_inflow o s b Hinv) in Hb. subst b. done.
    + unfold total. change (balances s') with (bk_bal (abs s')). rewrite Habs. simpl. lia.
  - destruct (exec_stale o s Hf) as [r1 Hr1]. simplify_eq. lia.
Qed.

(** C10: Money is conserved.  The exact sum of all balances after an operation
    is the sum before plus what the operation brings in: the amount of an
    accepted opening, deposit or credit leg, minus the amount of an accepted
    withdrawal or of the hold a debit leg consumes, and zero for transfers,
    prepares, aborts, refusals and retries.  [TotalMoney] reports that sum and
    [VerifyConservation] accepts it, both modulo 2^64. *)
Theorem exec_conserves o s s' r :
  reachable s → wf_op o → exec o s = Some (s', r) →
  total s' = total s + (if fresh o s && r_OK r then inflow o s else 0) ∧
  TotalMoney s' = i64 (total s') ∧ VerifyConservation (i64 (total s')) s' = None.
Proof.
  intros Hinv%reachable_Inv Hwf Hex. split; [by eapply exec_total|]. split.
  - apply go_sum_sorted_keys.
  - unfold VerifyConservation. rewrite (go_sum_map id) with (m := balances s'); [|done].
    by rewrite Z.eqb_refl.
Qed.

(** ** The double-entry audit *)

Lemma derive_history_books h m :
  Forall (λ t, Transaction_balances t = true) h →
  derive_history h m = inr (foldl derive_entry m (entries_of h)).
Proof.
  intros Hb. revert m. induction Hb as [|t h Ht _ IH]; intros m; [done|].
  simpl. rewrite Ht. simpl. rewrite IH. unfold entries_of. csimpl. by rewrite foldl_app.
Qed.

Lemma compare_balances_ok l (m : gmap string Z) :
  (∀ k v, (k, v) ∈ l → m !! k = Some v) → compare_balances l m = None.
Proof.
  induction l as [|[k v] l IH]; intros Hl; simpl; [done|].
  rewrite (Hl k v) by by left. simpl. rewrite Z.eqb_refl. simpl.
  apply IH. intros k' v' Hin. apply Hl. by right.
Qed.

(** C20: The audit that an operator runs never raises a false alarm.  In every
    reachable state the transactions of the history balance, folding their
    entries from nothing rebuilds the cached balances account by account, the
    recorded sequence numbers are 1, 2, 3, ... (modulo 2^64), and
    [VerifyDoubleEntry] returns no error. *)
Theorem VerifyDoubleEntry_reachable s :
  reachable s →
  VerifyDoubleEntry s = None ∧
  derive_history (history s) ∅ = inr (balances s) ∧
  (∀ i t, history s !! i = Some t → t_Seq t = u64 (Z.of_nat i + 1)) ∧
  total s = entries_sum (entries_of (history s)).
Proof.
  intros Hinv%reachable_Inv.
  assert (derive_history (history s) ∅ = inr (balances s)) as Hd.
  { rewrite derive_history_books by apply (inv_balanced _ Hinv).
    f_equal. apply (inv_books _ Hinv). }
  split_and!; [|done|apply (inv_seqs _ Hinv)|apply (inv_total _ Hinv)].
  unfold VerifyDoubleEntry. rewrite Hd, Nat.eqb_refl. simpl.
  apply compare_balances_ok. intros k v. by rewrite elem_of_map_to_list.
Qed.

(** ** The life of a reservation *)

(** The operation ends the reservation of [tx]. *)
Definition ends (tx : string) (o : lop) : bool :=
  match o with
  | LCommitDebit tx' _ | LAbortTx tx' => bool_decide (tx' = tx)
  | _ => false
  end.

Lemma bank_keeps_hold o b tx h :
  bk_res b !! tx = Some h → ends tx o = false → bk_res (bank_after o b) !! tx = Some h.
Proof.
  intros Hh Hn. unfold bank_after.
  destruct o as [c|tx' a m|tx' a m|tx' ts|tx' a m ts|tx']; simpl in *.
  - unfold bank_apply. repeat case_match; done.
  - repeat case_match; try done. simpl. rewrite lookup_insert_ne; [done|congruence].
  - by repeat case_match.
  - apply bool_decide_eq_false_1 in Hn. case_match; [|done]. simpl. by rewrite lookup_delete_ne.
  - by repeat case_match.
  - apply bool_decide_eq_false_1 in Hn. by rewrite lookup_delete_ne.
Qed.

Lemma exec_keeps_hold o s s' r tx h :
  Inv s → wf_op o → exec o s = Some (s', r) → reserves s !! tx = Some h → ends tx o = false →
  reserves s' !! tx = Some h.
Proof.
  intros Hinv Hwf Hex Hh Hn. destruct (fresh o s) eqn:Hf.
  - destruct (exec_fresh o s Hinv Hwf Hf) as (s1 & r1 & Hex1 & _ & Habs & _). simplify_eq.
    change (reserves s') with (bk_res (abs s')). rewrite Habs. by apply bank_keeps_hold.
  - destruct (exec_stale o s Hf) as [r1 Hr1]. by simplify_eq.
Qed.

Lemma exec_all_keeps_hold os s s' tx h :
  Inv s → Forall wf_op os → exec_all os s = Some s' → reserves s !! tx = Some h →
  Forall (λ o, ends tx o = false) os → reserves s' !! tx = Some h ∧ Inv s'.
Proof.
  intros Hinv Hwf. revert s Hinv. induction Hwf as [|o os Ho _ IH]; intros s Hinv; simpl.
  - intros [= <-]. done.
  - destruct (exec_Inv o s Hinv Ho) as (s1 & r & Hex & Hinv1). rewrite Hex. simpl.
    intros Hall Hh [Hn Hns]%Forall_cons. apply (IH s1); try done. by apply (exec_keeps_hold o s s1 r).
Qed.

Lemma PrepareDebit_holds tx a m s s1 r :
  PrepareDebit tx a m s = (s1, r) → r_OK r = true →
  ∃ h, reserves s1 !! tx = Some h ∧ rv_Account h = a ∧ rv_Amount h = m.
Proof.
  unfold PrepareDebit. destruct (m <=? 0); [by intros [= <- <-]|].
  destruct (balances s !! a) eqn:Hb; [|by intros [= <- <-]].
  destruct (reserves s !! tx) as [h|] eqn:Hh.
  - case_bool_decide; simpl; [|by intros [= <- <-]].
    destruct (Z.eqb_spec (rv_Amount h) m); simpl; intros [= <- <-] ?; [|done]. eauto.
  - destruct (_ <? m); [by intros [= <- <-]|]. intros [= <- <-] _. eexists. simpl.
    by rewrite lookup_insert_eq.
Qed.

(** A yes vote on a debit can always be honoured.  After a successful
    [PrepareDebit], whatever client commands and two-phase operations follow,
    as long as none of them commits or aborts this transaction: the hold is
    still there, [CommitDebit] succeeds, takes exactly the reserved amount from
    the account and removes the hold, and [AbortTx] instead removes the hold
    and leaves every balance as it is. *)
Theorem prepared_debit_commits tx a m ts os s s1 s2 r :
  reachable s → in_i64 m → PrepareDebit tx a m s = (s1, r) → r_OK r = true →
  Forall wf_op os → Forall (λ o, ends tx o = false) os → exec_all os s1 = Some s2 →
  (∃ s3 r3, CommitDebit tx ts s2 = Some (s3, r3) ∧ r_OK r3 = true ∧
     balances s3 = <[a:=default 0 (balances s2 !! a) - m]> (balances s2) ∧
     reserves s3 = delete tx (reserves s2)) ∧
  balances (AbortTx tx s2).1 = balances s2 ∧
  reserves (AbortTx tx s2).1 = delete tx (reserves s2).
Proof.
  intros Hr Hm Hp Hok Hwf Hn Hall.
  destruct (PrepareDebit_holds tx a m s s1 r Hp Hok) as (h & Hh & <- & <-).
  assert (Inv s1) as Hinv1.
  { apply reachable_Inv. apply (reach_step (LPrepareDebit tx (rv_Account h) (rv_Amount h)) s s1 r);
      [done..|]. simpl. by rewrite Hp. }
  destruct (exec_all_keeps_hold os s1 s2 tx h) as [Hh2 Hinv2]; try done.
  destruct (CommitDebit_runs tx ts s2 Hinv2) as (s3 & r3 & Hc & _ & _ & Hmeets).
  unfold meets in Hmeets. simpl in Hmeets. rewrite Hh2 in Hmeets.
  destruct Hmeets as [Hok3 Habs]. injection Habs as Hb3 Hr3.
  split; [by exists s3, r3|]. unfold AbortTx. by rewrite Hh2.
Qed.

(** ** Concrete runs *)

Definition run_open (a : string) (amt : Z) : Command :=
  mkCommand OpOpenAccount ("open-" +:+ a) "" a amt zeroTimestamp.

Definition run_transfer (key from to : string) (amt : Z) (ts : Timestamp) : Command :=
  mkCommand OpTransfer key from to amt ts.

Definition state_after (os : list lop) : State := default New (exec_all os New).

(** Two accounts, "a" with 100 and "b" with 5, and 30 of "a" held for "t0". *)
Definition run_setup : list lop :=
  [LApply (run_open "a" 100); LApply (run_open "b" 5); LPrepareDebit "t0" "a" 30].

Definition run_later : list lop :=
  [LApply (run_transfer "k2" "b" "a" 1 zeroTimestamp); LCommitDebit "t0" zeroTimestamp;
   LCommitCredit "t1" "b" 9 zeroTimestamp].

Definition run_pay : Command := run_transfer "k1" "a" "b" 40 zeroTimestamp.

Lemma run_setup_reachable : reachable (state_after run_setup).
Proof.
  apply (reachable_exec_all run_setup New); [apply reach_New| |vm_compute; reflexivity].
  repeat constructor; vm_compute; congruence.
Qed.

Lemma run_later_wf : Forall wf_op run_later.
Proof. repeat constructor; vm_compute; congruence. Qed.

(** The state after paying from the set-up state. *)
Definition run_paid : State := state_after (run_setup ++ [LApply run_pay]).

Lemma Apply_retry_witness :
  let s2 := state_after (run_setup ++ [LApply run_pay] ++ run_later) in
  Apply (run_transfer "k1" "a" "b" 40 (mkTimestamp 7 3)) s2 = Some (s2, succeeded 60).
Proof.
  apply (Apply_retry run_pay _ run_later (state_after run_setup) run_paid).
  - exact run_setup_reachable.
  - vm_compute. split; congruence.
  - vm_compute. reflexivity.
  - exact run_later_wf.
  - vm_compute. reflexivity.
  - vm_compute. done.
Defined.

Lemma Apply_conflict_witness :
  let s2 := state_after (run_setup ++ [LApply run_pay] ++ run_later) in
  Apply (run_transfer "k1" "a" "b" 41 zeroTimestamp) s2
  = Some (s2, failed ErrIdempotencyConflict).
Proof.
  apply (Apply_conflict run_pay _ run_later (state_after run_setup) run_paid _ (succeeded 60)).
  - exact run_setup_reachable.
  - vm_compute. split; congruence.
  - vm_compute. reflexivity.
  - vm_compute. reflexivity.
  - exact run_later_wf.
  - vm_compute. reflexivity.
  - reflexivity.
  - vm_compute. congruence.
Defined.

Lemma reachable_sound_witness :
  balances (state_after run_setup) !! "a" = Some 100 ∧
  Available (state_after run_setup) "a" = (70, true) ∧
  is_Some (exec (LApply run_pay) (state_after run_setup)).
Proof.
  destruct (reachable_sound (state_after run_setup) run_setup_reachable) as (_ & _ & Hex).
  split; [vm_compute; reflexivity|]. split; [vm_compute; reflexivity|].
  apply Hex. vm_compute. split; congruence.
Defined.

Lemma exec_refines_bank_witness :
  ∃ s' r, exec (LApply run_pay) (state_after run_setup) = Some (s', r) ∧
    abs s' = bank_after (LApply run_pay) (abs (state_after run_setup)) ∧ r_OK r = true.
Proof.
  destruct (exec_refines_bank (LApply run_pay) (state_after run_setup))
    as (s' & r & Hex & Hif).
  - exact run_setup_reachable.
  - vm_compute. split; congruence.
  - exists s', r. replace (fresh _ _) with true in Hif by (vm_compute; reflexivity).
    destruct Hif as [Habs Hok]. split; [exact Hex|]. split; [exact Habs|].
    rewrite Hok. vm_compute. reflexivity.
Defined.

Lemma exec_conserves_witness :
  total run_paid = 105 ∧ VerifyConservation 105 run_paid = None.
Proof.
  destruct (exec_conserves (LApply run_pay) (state_after run_setup) run_paid (succeeded 60))
    as (Ht & _ & Hv).
  - exact run_setup_reachable.
  - vm_compute. split; congruence.
  - vm_compute. reflexivity.
  - split; [vm_compute; reflexivity|exact Hv].
Defined.

Lemma VerifyDoubleEntry_reachable_witness :
  VerifyDoubleEntry (state_after run_setup) = None ∧
  length (history (state_after run_setup)) = 2%nat.
Proof.
  split; [|vm_compute; reflexivity].
  exact (proj1 (VerifyDoubleEntry_reachable (state_after run_setup) run_setup_reachable)).
Defined.

Lemma prepared_debit_commits_witness :
  ∃ s3 r3,
    CommitDebit "t9" zeroTimestamp
      (state_after (run_setup ++ [LPrepareDebit "t9" "a" 50] ++ run_later)) = Some (s3, r3)
    ∧ r_OK r3 = true.
Proof.
  destruct (prepared_debit_commits "t9" "a" 50 zeroTimestamp run_later (state_after run_setup)
              (state_after (run_setup ++ [LPrepareDebit "t9" "a" 50]))
              (state_after (run_setup ++ [LPrepareDebit "t9" "a" 50] ++ run_later))
              (succeeded 20)) as ((s3 & r3 & Hc & Hok & _) & _).
  - exact run_setup_reachable.
  - vm_compute. split; congruence.
  - vm_compute. reflexivity.
  - reflexivity.
  - exact run_later_wf.
  - repeat constructor.
  - vm_compute. reflexivity.
  - exists s3, r3. split; [exact Hc|exact Hok].
Defined.

(** The fingerprint does not separate account names that contain a NUL
    byte.  Two transfers with different accounts can have one fingerprint, so
    with the same key the second, which moves nothing, is answered with the
    first one's success instead of the conflict error. *)
Theorem fingerprint_nul_ambiguity :
  let nul := String (Ascii.ascii_of_nat 0) "" in
  let c := run_transfer "k" ("a" +:+ nul +:+ "b") "c" 7 zeroTimestamp in
  let c' := run_transfer "k" "a" ("b" +:+ nul +:+ "c") 7 zeroTimestamp in
  let s := state_after [LApply (run_open ("a" +:+ nul +:+ "b") 100); LApply (run_open "c" 5)] in
  c ≠ c' ∧ fingerprint c = fingerprint c' ∧
  ∃ s1, Apply c s = Some (s1, succeeded 93) ∧ Apply c' s1 = Some (s1, succeeded 93) ∧
    balances s1 !! "a" = None.
Proof.
  cbv zeta. split; [|split]; [vm_compute; congruence|vm_compute; reflexivity|].
  eexists. split; [vm_compute; reflexivity|]. split; vm_compute; reflexivity.
Qed.
