(* ===== verification/LedgerCodec.v ===== *)
(** * The ledger's wire format and replicated machine (src/ledger/codec.go)

    [Encode] and [Decode] on byte lists, with the reads of [bytes.Reader] as
    the code performs them, and [Machine], the adapter that decodes a log entry
    and applies it.  [None] of a decoder is [errBadEncoding]. *)

From S2P Require Import Prelude GoLib Hlc Ledger LedgerInv.

Local Open Scope Z_scope.

Definition errBadEncoding : string := "ledger: malformed command encoding".

Definition writeStr (s : string) : bytes := le_put 2 (u16 (slen s)) ++ str_bytes s.

Definition readStr (r : bytes) : option (string * bytes) :=
  '(l, r) ← Read 2 r;
  let n := le_get l in
  if n =? 0 then Some ("", r)
  else '(buf, r) ← Read (Z.to_nat n) r; Some (bytes_str buf, r).

(** The fields of the layout before the timestamp. *)
Definition encode_head (c : Command) : bytes :=
  [Z_byte (c_Op c)] ++ writeStr (c_IdempotencyKey c) ++ writeStr (c_From c) ++ writeStr (c_To c).

Definition encode_amount (c : Command) : bytes := le_put 8 (u64 (c_Amount c)).

Definition encode_ts (ts : Timestamp) : bytes := le_put 8 (Wall ts) ++ le_put 4 (Logical ts).

Definition Encode (c : Command) : bytes :=
  encode_head c ++ encode_amount c ++ encode_ts (c_Timestamp c).

Definition Decode (data : bytes) : option Command :=
  let r := data in
  '(op, r) ← ReadByte r;
  '(key, r) ← readStr r;
  '(from, r) ← readStr r;
  '(to, r) ← readStr r;
  '(amt, r) ← Read 8 r;
  let cmd ts := mkCommand (byte_Z op) key from to (i64 (le_get amt)) ts in
  match ReadFull 12 r with
  | inr (ts, _) => Some (cmd (mkTimestamp (le_get (take 8 ts)) (le_get (drop 8 ts))))
  | inl n => if negb (n =? 0)%nat then None else Some (cmd zeroTimestamp)
  end.

(** ** The machine *)

Record Machine := mkMachine {
  m_State : State;
  m_results : gmap string Result;
  m_fingerprints : gmap string Z
}.

Definition NewMachine (s : State) : Machine := mkMachine s ∅ ∅.

(** [Machine.Apply]; [None] is the panic of the ledger's [record]. *)
Definition Machine_Apply (cmd : bytes) (m : Machine) : option (Machine * Result) :=
  match Decode cmd with
  | None => Some (m, failed errBadEncoding)
  | Some c =>
      '(s', res) ← Apply c (m_State m);
      Some (mkMachine s' (<[c_IdempotencyKey c:=res]> (m_results m))
                         (<[c_IdempotencyKey c:=fingerprint c]> (m_fingerprints m)), res)
  end.

(** [Machine.Result] *)
Definition Machine_Result (m : Machine) (key : string) : option Result := m_results m !! key.

Inductive lookup_result :=
  | Known (r : Result)      (** (result, true, nil) *)
  | Unknown                 (** (_, false, nil) *)
  | Conflict.               (** (_, false, ErrIdempotencyConflict) *)

Definition ResultFor (m : Machine) (cmd : Command) : lookup_result :=
  match m_results m !! c_IdempotencyKey cmd with
  | None => Unknown
  | Some r =>
      if negb (default 0 (m_fingerprints m !! c_IdempotencyKey cmd) =? fingerprint cmd)
      then Conflict else Known r
  end.

(** ** Round trip *)

Definition in_u16 (z : Z) : Prop := 0 ≤ z < 2 ^ 16.

(** What the layout can carry: a byte for the operation, strings shorter than
    2^16 bytes, an [int64] amount, a [uint64] and a [uint32] in the timestamp. *)
Definition encodable (c : Command) : Prop :=
  in_u8 (c_Op c) ∧ in_u16 (slen (c_IdempotencyKey c)) ∧ in_u16 (slen (c_From c)) ∧
  in_u16 (slen (c_To c)) ∧ in_i64 (c_Amount c) ∧
  in_u64 (Wall (c_Timestamp c)) ∧ in_u32 (Logical (c_Timestamp c)).

Lemma le_put_nonempty n z r : (0 < n)%nat → le_put n z ++ r ≠ [].
Proof. destruct n; [lia|]. done. Qed.

(** The untouched part of a zeroed buffer does not change the number read. *)
Lemma le_get_pad bs n : le_get (bs ++ replicate n Byte.x00) = le_get bs.
Proof.
  induction bs as [|x bs IH]; simpl.
  - induction n as [|n IHn]; simpl; [done|]. rewrite IHn. done.
  - by rewrite IH.
Qed.

#[local] Opaque Read ReadFull le_put le_get.

Lemma readStr_writeStr s r :
  in_u16 (slen s) → readStr (writeStr s ++ r) = Some (s, r).
Proof.
  intros Hs. unfold readStr, writeStr. rewrite <- app_assoc.
  rewrite (Read_app 2) by (first [apply length_le_put | apply le_put_nonempty; lia]). simpl.
  rewrite le_get_put2. unfold u16, in_u16 in *. rewrite Zmod_mod, Z.mod_small by done.
  unfold slen in *. destruct (Z.eqb_spec (Z.of_nat (String.length s)) 0) as [Hz|Hz].
  - destruct s; [done|]. simpl in Hz. lia.
  - rewrite Nat2Z.id, (Read_app (String.length s)).
    + simpl. by rewrite bytes_str_bytes.
    + apply length_str_bytes.
    + rewrite <- (length_str_bytes s) in Hz. by destruct (str_bytes s).
Qed.

#[local] Opaque readStr writeStr.

Lemma Decode_head c r :
  encodable c →
  Decode (encode_head c ++ r) =
    ('(amt, r) ← Read 8 r;
     let cmd ts := mkCommand (c_Op c) (c_IdempotencyKey c) (c_From c) (c_To c)
                             (i64 (le_get amt)) ts in
     match ReadFull 12 r with
     | inr (ts, _) => Some (cmd (mkTimestamp (le_get (take 8 ts)) (le_get (drop 8 ts))))
     | inl n => if negb (n =? 0)%nat then None else Some (cmd zeroTimestamp)
     end).
Proof.
  intros (Hop & Hk & Hf & Ht & _). unfold Decode, encode_head. simpl.
  rewrite <- !app_assoc. rewrite readStr_writeStr by done. simpl.
  rewrite readStr_writeStr by done. simpl. rewrite readStr_writeStr by done. simpl.
  rewrite byte_Z_byte. unfold in_u8 in Hop. rewrite (Z.mod_small (c_Op c)) by done. done.
Qed.

Lemma amount_roundtrip c : encodable c → i64 (le_get (encode_amount c)) = c_Amount c.
Proof.
  intros (_ & _ & _ & _ & Ha & _). unfold encode_amount. rewrite le_get_put8.
  rewrite (u64_small (u64 _)) by apply u64_range. by apply i64_u64.
Qed.

Lemma Decode_Encode_self c : encodable c → Decode (Encode c) = Some c.
Proof.
  intros Hc. unfold Encode. rewrite Decode_head by done.
  rewrite (Read_app 8) by (first [apply length_le_put | by apply le_put_nonempty; lia]).
  simpl. rewrite amount_roundtrip by done.
  rewrite <- (app_nil_r (encode_ts _)), ReadFull_app
    by (unfold encode_ts; by rewrite length_app, !length_le_put).
  simpl. unfold encode_ts. rewrite take_app_length', drop_app_length' by (by rewrite length_le_put).
  destruct Hc as (_ & _ & _ & _ & _ & Hw & Hl).
  rewrite le_get_put8, le_get_put4, u64_small, u32_small by done. by destruct c as [????? []].
Qed.

(** The encoding is faithful.  A command within the layout's bounds decodes
    to itself, with its timestamp; and the record a writer from before the
    timestamp existed left in the log decodes to the same command, unstamped. *)
Theorem Decode_Encode c :
  encodable c →
  Decode (Encode c) = Some c ∧
  Decode (encode_head c ++ encode_amount c) =
    Some (mkCommand (c_Op c) (c_IdempotencyKey c) (c_From c) (c_To c) (c_Amount c) zeroTimestamp).
Proof.
  intros Hc. split; [by apply Decode_Encode_self|]. rewrite Decode_head by done.
  rewrite <- (app_nil_r (encode_amount c)).
  rewrite (Read_app 8) by (first [apply length_le_put | by apply le_put_nonempty; lia]).
  simpl. by rewrite amount_roundtrip.
Qed.

(** Truncation inside the timestamp is detected, truncation inside the
    amount is not.  A record cut after [k] of the twelve timestamp bytes,
    0 < k < 12, is refused.  A record cut after [k] of the eight amount bytes,
    0 < k < 8, is accepted as a command for the amount modulo 256^k, because
    [bytes.Reader.Read] reports a short read without an error. *)
Theorem Decode_truncated c k :
  encodable c → (0 < k)%nat →
  ((k < 12)%nat →
     Decode (encode_head c ++ encode_amount c ++ take k (encode_ts (c_Timestamp c))) = None) ∧
  ((k < 8)%nat →
     ∃ c', Decode (encode_head c ++ take k (encode_amount c)) = Some c' ∧
       c_Amount c' = i64 (le_get (take k (encode_amount c))) ∧
       c_IdempotencyKey c' = c_IdempotencyKey c ∧ c_From c' = c_From c ∧ c_To c' = c_To c).
Proof.
  intros Hc Hk. rewrite !Decode_head by done.
  rewrite (Read_app 8) by (first [apply length_le_put | by apply le_put_nonempty; lia]).
  split; intros Hlt; simpl.
  - assert (length (encode_ts (c_Timestamp c)) = 12%nat) as Hlen
      by (unfold encode_ts; by rewrite length_app, !length_le_put).
    rewrite ReadFull_short by (rewrite length_take; lia). rewrite length_take, Hlen.
    by replace (k `min` 12 =? 0)%nat with false by (symmetry; apply Nat.eqb_neq; lia).
  - assert (length (encode_amount c) = 8%nat) as Hlen by apply length_le_put.
    assert (length (take k (encode_amount c)) = k) as Hk8 by (rewrite length_take; lia).
    rewrite Read_short by (rewrite ?Hk8; try lia; intros E; rewrite E in Hk8; simpl in Hk8; lia).
    simpl. rewrite ReadFull_short by (simpl; lia). simpl.
    eexists. split; [done|]. simpl. split; [|done]. f_equal.
    apply le_get_pad.
Qed.

(** ** The machine applies whatever the log holds *)

Lemma Decode_amount data c : Decode data = Some c → in_i64 (c_Amount c).
Proof.
  unfold Decode. intros H.
  repeat (apply bind_Some in H as ([? ?] & _ & H)).
  repeat case_match; simplify_eq; simpl; apply i64_range.
Qed.

(** The machine after a log; [None] if an entry panics. *)
Fixpoint apply_log (log : list bytes) (m : Machine) : option Machine :=
  match log with
  | [] => Some m
  | e :: log => '(m', _) ← Machine_Apply e m; apply_log log m'
  end.

(** No log can take a node down.  From a reachable ledger the machine
    applies any byte string at all, corrupt ones included, without the
    ledger's panic, and the ledger stays reachable (so every invariant of the
    ledger holds of every replicated state); an entry that does not decode
    changes nothing and is answered with the encoding error. *)
Theorem Machine_Apply_any_log log m :
  reachable (m_State m) →
  ∃ m', apply_log log m = Some m' ∧ reachable (m_State m') ∧
    ∀ e, Decode e = None → Machine_Apply e m' = Some (m', failed errBadEncoding).
Proof.
  revert m. induction log as [|e log IH]; intros m Hr; simpl.
  { exists m. split_and!; try done. intros e He. unfold Machine_Apply. by rewrite He. }
  unfold Machine_Apply at 1. destruct (Decode e) as [c|] eqn:Hd; simpl; [|by apply IH].
  pose proof (Decode_amount e c Hd) as Ha.
  destruct (exec_Inv (LApply c) (m_State m) (reachable_Inv _ Hr) Ha) as (s' & r & Hex & _).
  simpl in Hex. rewrite Hex. simpl. apply IH. simpl.
  by apply (reach_step (LApply c) (m_State m) s' r).
Qed.

Definition cmd_of_demo (key : string) (op : Z) (to : string) (amt : Z) : Command :=
  mkCommand op key "" to amt (mkTimestamp 5 1).

(** A conflicting reuse of a key makes the machine forget the request that
    first used it.  [Machine.Apply] stores the conflict result and the new
    fingerprint under the key, so [ResultFor] then reports a conflict for the
    original request and the conflict error as the known result of the other
    one, while the ledger underneath still answers the original correctly. *)
Theorem ResultFor_after_conflict :
  let c := cmd_of_demo "k" OpOpenAccount "a" 10 in
  let c' := cmd_of_demo "k" OpOpenAccount "b" 20 in
  ∃ m1 m2,
    Machine_Apply (Encode c) (NewMachine New) = Some (m1, succeeded 10) ∧
    ResultFor m1 c = Known (succeeded 10) ∧
    Machine_Apply (Encode c') m1 = Some (m2, failed ErrIdempotencyConflict) ∧
    ResultFor m2 c = Conflict ∧ ResultFor m2 c' = Known (failed ErrIdempotencyConflict) ∧
    Apply c (m_State m2) = Some (m_State m2, succeeded 10).
Proof.
  cbv zeta. eexists _, _. split; [vm_compute; reflexivity|]. split; [vm_compute; reflexivity|].
  split; [vm_compute; reflexivity|]. split_and!; vm_compute; reflexivity.
Qed.

Lemma Decode_Encode_witness :
  let c := cmd_of_demo "k" OpDeposit "acct" (-7) in
  encodable c ∧ Decode (Encode c) = Some c.
Proof.
  cbv zeta. assert (encodable (cmd_of_demo "k" OpDeposit "acct" (-7))) as H
    by (vm_compute; repeat split; congruence).
  split; [exact H|]. exact (proj1 (Decode_Encode _ H)).
Defined.

Lemma Decode_truncated_witness :
  let c := cmd_of_demo "k" OpDeposit "acct" 258 in
  ∃ c', Decode (encode_head c ++ take 1 (encode_amount c)) = Some c' ∧ c_Amount c' = 2.
Proof.
  cbv zeta. destruct (Decode_truncated (cmd_of_demo "k" OpDeposit "acct" 258) 1) as [_ H].
  - vm_compute. repeat split; congruence.
  - lia.
  - destruct (H ltac:(lia)) as (c' & Hd & Ha & _). exists c'. split; [exact Hd|].
    rewrite Ha. vm_compute. reflexivity.
Defined.

Lemma Machine_Apply_any_log_witness :
  ∃ m', apply_log [Encode (cmd_of_demo "k" OpOpenAccount "a" 10); [Byte.x01]] (NewMachine New)
        = Some m' ∧ reachable (m_State m').
Proof.
  destruct (Machine_Apply_any_log [Encode (cmd_of_demo "k" OpOpenAccount "a" 10); [Byte.x01]]
              (NewMachine New)) as (m' & Hm & Hr & _).
  - apply reach_New.
  - exists m'. split; [exact Hm|exact Hr].
Defined.
