(* ===== verification/Reader.v ===== *)
(** * The snapshot codec helpers
    (src/ledger/snapshot.go, src/shard/snapshot.go)

    [putUint64], [putStr], [putBool] and the latching [reader]: once a read
    fails the error stays, later reads return zero values and the caller checks
    once.  The two packages have textually the same helpers (the shard's [rd]
    adds [bytes]), so one model serves both.

    Decoders are state-passing functions over the reader, composed in a small
    monad.  [codec m x bs] states what makes a decoder right: it reads [x] from
    [bs] and leaves what follows untouched, and any proper prefix of [bs] makes
    it fail; it composes along the monad's bind and the counted loops. *)

From S2P Require Import Prelude GoLib.

Local Open Scope Z_scope.

(** ** Writing *)

Definition putUint64 (v : Z) : bytes := le_put 8 (u64 v).
Definition putStr (s : string) : bytes := putUint64 (slen s) ++ str_bytes s.
Definition putBool (v : bool) : bytes := if v then [Byte.x01] else [Byte.x00].

(** ** Reading *)

Record reader := mkReader { rd_buf : bytes; rd_pos : nat; rd_err : option string }.

Definition rm (A : Type) : Type := reader → A * reader.

#[global] Instance rm_ret : MRet rm := λ A x r, (x, r).
#[global] Instance rm_bind : MBind rm := λ A B f m r, let (x, r') := m r in f x r'.

Definition remain (r : reader) : Z := Z.of_nat (length (rd_buf r)) - Z.of_nat (rd_pos r).

Definition fail_with {A} (zero : A) (msg : string) (r : reader) : A * reader :=
  (zero, mkReader (rd_buf r) (rd_pos r) (Some msg)).

Definition advance (n : nat) (r : reader) : reader :=
  mkReader (rd_buf r) (rd_pos r + n) (rd_err r).

Definition slice (r : reader) (n : nat) : bytes := take n (drop (rd_pos r) (rd_buf r)).

Definition r_uint64 : rm Z := λ r,
  match rd_err r with
  | Some _ => (0, r)
  | None =>
      if (length (rd_buf r) <? rd_pos r + 8)%nat
      then fail_with 0 ("truncated: want 8 bytes at " +:+ fmt_d (Z.of_nat (rd_pos r))
                        +:+ ", have " +:+ fmt_d (remain r)) r
      else (le_get (slice r 8), advance 8 r)
  end.

Definition r_str : rm string := λ r,
  let (n, r) := r_uint64 r in
  match rd_err r with
  | Some _ => ("", r)
  | None =>
      if remain r <? n
      then fail_with "" ("truncated string: declares " +:+ fmt_d n +:+ " bytes, "
                         +:+ fmt_d (remain r) +:+ " remain") r
      else (bytes_str (slice r (Z.to_nat n)), advance (Z.to_nat n) r)
  end.

Definition r_bool : rm bool := λ r,
  match rd_err r with
  | Some _ => (false, r)
  | None =>
      match rd_buf r !! rd_pos r with
      | None => fail_with false ("truncated bool at " +:+ fmt_d (Z.of_nat (rd_pos r))) r
      | Some b => (bool_decide (b = Byte.x01), advance 1 r)
      end
  end.

(** The shard's [rd.bytes]. *)
Definition r_bytes (n : Z) : rm bytes := λ r,
  match rd_err r with
  | Some _ => ([], r)
  | None =>
      if remain r <? n
      then fail_with [] ("truncated blob: declares " +:+ fmt_d n +:+ " bytes, "
                         +:+ fmt_d (remain r) +:+ " remain") r
      else (slice r (Z.to_nat n), advance (Z.to_nat n) r)
  end.

(** [for n := r.uint64(); n > 0; n-- { body }] over an accumulator. *)
Fixpoint r_loop {A} (n : nat) (body : A → rm A) (acc : A) : rm A :=
  match n with
  | O => mret acc
  | S n => acc' ← body acc; r_loop n body acc'
  end.

Definition r_counted {A} (body : A → rm A) (acc : A) : rm A :=
  n ← r_uint64; r_loop (Z.to_nat n) body acc.

(** ** Latching *)

(** An error that is set stays set and nothing more is consumed. *)
Class Latches {A} (m : rm A) : Prop :=
  latches : ∀ buf pos e, ∃ x, m (mkReader buf pos (Some e)) = (x, mkReader buf pos (Some e)).

#[global] Instance latches_ret {A} (x : A) : Latches (mret x).
Proof. intros buf pos e. by exists x. Qed.

#[global] Instance latches_bind {A B} (m : rm A) (f : A → rm B) :
  Latches m → (∀ x, Latches (f x)) → Latches (m ≫= f).
Proof.
  intros Hm Hf buf pos e. destruct (Hm buf pos e) as [x Hx].
  destruct (Hf x buf pos e) as [y Hy]. exists y. unfold mbind, rm_bind. by rewrite Hx.
Qed.

#[global] Instance latches_uint64 : Latches r_uint64.
Proof. intros buf pos e. by exists 0. Qed.
#[global] Instance latches_str : Latches r_str.
Proof. intros buf pos e. by exists "". Qed.
#[global] Instance latches_bool : Latches r_bool.
Proof. intros buf pos e. by exists false. Qed.
#[global] Instance latches_bytes n : Latches (r_bytes n).
Proof. intros buf pos e. by exists []. Qed.

#[global] Instance latches_loop {A} n (body : A → rm A) acc :
  (∀ a, Latches (body a)) → Latches (r_loop n body acc).
Proof. intros Hb. revert acc. induction n as [|n IH]; intros acc; simpl; apply _. Qed.

#[global] Instance latches_counted {A} (body : A → rm A) acc :
  (∀ a, Latches (body a)) → Latches (r_counted body acc).
Proof. intros Hb. unfold r_counted. apply _. Qed.

(** ** Correct decoders *)

Definition reads {A} (m : rm A) (x : A) (bs : bytes) : Prop :=
  ∀ pre rest, m (mkReader (pre ++ bs ++ rest) (length pre) None)
              = (x, mkReader (pre ++ bs ++ rest) (length pre + length bs) None).

(** Every proper prefix of [bs] at the end of the buffer is an error. *)
Definition needs {A} (m : rm A) (bs : bytes) : Prop :=
  ∀ pre p q, bs = p ++ q → q ≠ [] →
    ∃ y pos e, m (mkReader (pre ++ p) (length pre) None) = (y, mkReader (pre ++ p) pos (Some e)).

Definition codec {A} (m : rm A) (x : A) (bs : bytes) : Prop := reads m x bs ∧ needs m bs.

Lemma codec_ret {A} (x : A) : codec (mret x) x [].
Proof.
  split.
  - intros pre rest. unfold mret, rm_ret. by rewrite Nat.add_0_r.
  - intros pre p q H Hq. symmetry in H. by apply app_eq_nil in H as [_ ?].
Qed.

Lemma codec_bind {A B} (m : rm A) (f : A → rm B) x y bs1 bs2 :
  codec m x bs1 → codec (f x) y bs2 → (∀ a, Latches (f a)) → codec (m ≫= f) y (bs1 ++ bs2).
Proof.
  intros [Hr1 Hn1] [Hr2 Hn2] Hlatch. split.
  - intros pre rest. unfold mbind, rm_bind.
    rewrite <- app_assoc, Hr1.
    replace (pre ++ bs1 ++ bs2 ++ rest) with ((pre ++ bs1) ++ bs2 ++ rest)
      by (by rewrite <- app_assoc).
    rewrite <- length_app, Hr2. rewrite !length_app. by rewrite Nat.add_assoc.
  - intros pre p q Hpq Hq. unfold mbind, rm_bind.
    apply app_eq_inv in Hpq as [(k & Hp & Hk)|(k & Hp & Hk)].
    + subst bs1. destruct k as [|b k].
      * (* the first part is complete *)
        rewrite app_nil_r in *. simpl in Hk. subst q.
        pose proof (Hr1 pre []) as Hx. rewrite app_nil_r in Hx. rewrite Hx.
        destruct (Hn2 (pre ++ p) [] bs2 eq_refl Hq) as (y' & pos & e & Hy).
        rewrite app_nil_r, length_app in Hy. eauto.
      * destruct (Hn1 pre p (b :: k) eq_refl) as (y' & pos & e & Hy); [done|]. rewrite Hy.
        destruct (Hlatch y' (pre ++ p) pos e) as [z Hz]. rewrite Hz. eauto.
    + subst p. rewrite Hr1.
      destruct (Hn2 (pre ++ bs1) k q Hk Hq) as (y' & pos & e & Hy).
      rewrite <- app_assoc, length_app in Hy. eauto.
Qed.

(** ** The primitive decoders *)

Lemma length_putUint64 v : length (putUint64 v) = 8%nat.
Proof. apply length_le_put. Qed.

Lemma slice_at pre bs rest e : slice (mkReader (pre ++ bs ++ rest) (length pre) e) (length bs) = bs.
Proof. unfold slice. simpl. by rewrite drop_app_length, take_app_length. Qed.

Lemma codec_uint64 v : codec r_uint64 (u64 v) (putUint64 v).
Proof.
  pose proof (length_putUint64 v) as Hlen. split.
  - intros pre rest. unfold r_uint64. cbn [rd_err rd_buf rd_pos].
    rewrite <- Hlen. rewrite slice_at, !length_app.
    destruct (Nat.ltb_spec (length pre + (length (putUint64 v) + length rest))
                (length pre + length (putUint64 v))); [lia|].
    unfold putUint64. rewrite le_get_put8, u64_small by apply u64_range. done.
  - intros pre p q Hpq Hq. unfold r_uint64. cbn [rd_err rd_buf rd_pos].
    rewrite Hpq, length_app in Hlen. destruct q as [|b q]; [done|]. simpl in Hlen.
    rewrite length_app. destruct (Nat.ltb_spec (length pre + length p) (length pre + 8)); [|lia].
    eexists _, _, _. reflexivity.
Qed.

Lemma remain_at pre p e : remain (mkReader (pre ++ p) (length pre) e) = Z.of_nat (length p).
Proof. unfold remain. simpl. rewrite length_app. lia. Qed.

Lemma codec_bytes bs : codec (r_bytes (Z.of_nat (length bs))) bs bs.
Proof.
  split.
  - intros pre rest. unfold r_bytes. cbn [rd_err]. rewrite remain_at, length_app.
    destruct (Z.ltb_spec (Z.of_nat (length bs + length rest)) (Z.of_nat (length bs))); [lia|].
    rewrite Nat2Z.id, slice_at. done.
  - intros pre p q -> Hq. unfold r_bytes. cbn [rd_err]. rewrite remain_at, length_app.
    destruct q as [|b q]; [done|]. simpl.
    destruct (Z.ltb_spec (Z.of_nat (length p)) (Z.of_nat (length p + S (length q)))); [|lia].
    eexists _, _, _. reflexivity.
Qed.

(** [str] is the length followed by that many bytes. *)
Definition r_str_body (n : Z) : rm string := λ r,
  match rd_err r with
  | Some _ => ("", r)
  | None =>
      if remain r <? n
      then fail_with "" ("truncated string: declares " +:+ fmt_d n +:+ " bytes, "
                         +:+ fmt_d (remain r) +:+ " remain") r
      else (bytes_str (slice r (Z.to_nat n)), advance (Z.to_nat n) r)
  end.

Lemma r_str_split : r_str = r_uint64 ≫= r_str_body.
Proof. reflexivity. Qed.

Lemma codec_str_body bs : codec (r_str_body (Z.of_nat (length bs))) (bytes_str bs) bs.
Proof.
  split.
  - intros pre rest. unfold r_str_body. cbn [rd_err]. rewrite remain_at, length_app.
    destruct (Z.ltb_spec (Z.of_nat (length bs + length rest)) (Z.of_nat (length bs))); [lia|].
    rewrite Nat2Z.id, slice_at. done.
  - intros pre p q -> Hq. unfold r_str_body. cbn [rd_err]. rewrite remain_at, length_app.
    destruct q as [|b q]; [done|]. simpl.
    destruct (Z.ltb_spec (Z.of_nat (length p)) (Z.of_nat (length p + S (length q)))); [|lia].
    eexists _, _, _. reflexivity.
Qed.

Lemma codec_str s : in_u64 (slen s) → codec r_str s (putStr s).
Proof.
  intros Hs. rewrite r_str_split. unfold putStr.
  apply (codec_bind _ _ (slen s)).
  - pose proof (codec_uint64 (slen s)) as H. by rewrite u64_small in H.
  - unfold slen. rewrite <- (bytes_str_bytes s) at 2.
    rewrite <- length_str_bytes. apply codec_str_body.
  - intros n buf pos e. by exists "".
Qed.

Lemma codec_bool b : codec r_bool b (putBool b).
Proof.
  split.
  - intros pre rest. unfold r_bool. cbn [rd_err rd_buf rd_pos].
    rewrite lookup_app_r, Nat.sub_diag by lia. by destruct b.
  - intros pre p q Hpq Hq. unfold r_bool. cbn [rd_err rd_buf rd_pos].
    assert (p = []) as ->.
    { destruct p as [|x [|y p]]; [done|..]; destruct b, q; simpl in Hpq; simplify_eq; done. }
    rewrite app_nil_r, lookup_ge_None_2 by done. eexists _, _, _. reflexivity.
Qed.

(** ** Values of a given width *)

(** A decoder followed by a conversion. *)
Lemma codec_map {A B} (m : rm A) (g : A → B) x bs :
  codec m x bs → codec (y ← m; mret (g y)) (g x) bs.
Proof.
  intros Hm. rewrite <- (app_nil_r bs). apply (codec_bind _ _ x); [done|apply codec_ret|apply _].
Qed.

Lemma codec_exact v : in_u64 v → codec r_uint64 v (putUint64 v).
Proof. intros Hv. pose proof (codec_uint64 v) as H. by rewrite u64_small in H. Qed.

(** ** Counted loops *)

Lemma codec_loop {A I} (body : A → rm A) (step : A → I → A) (enc : I → bytes) items acc :
  (∀ a i, i ∈ items → codec (body a) (step a i) (enc i)) → (∀ a, Latches (body a)) →
  codec (r_loop (length items) body acc) (foldl step acc items) (concat (enc <$> items)).
Proof.
  intros Hb Hl. revert acc. induction items as [|i items IH]; intros acc; csimpl.
  - apply codec_ret.
  - apply (codec_bind _ _ (step acc i)); [|apply IH|apply _].
    + apply Hb. by left.
    + intros a j Hj. apply Hb. by right.
Qed.

Lemma codec_counted {A I} (body : A → rm A) (step : A → I → A) (enc : I → bytes) items acc :
  in_u64 (Z.of_nat (length items)) →
  (∀ a i, i ∈ items → codec (body a) (step a i) (enc i)) → (∀ a, Latches (body a)) →
  codec (r_counted body acc) (foldl step acc items)
        (putUint64 (Z.of_nat (length items)) ++ concat (enc <$> items)).
Proof.
  intros Hn Hb Hl. unfold r_counted.
  apply (codec_bind _ _ (Z.of_nat (length items))); [by apply codec_exact| |apply _].
  rewrite Nat2Z.id. by apply codec_loop.
Qed.

(** Rebuilding a map by inserting its entries in any order. *)
Definition insert_kv {V} (m : gmap string V) (kv : string * V) : gmap string V :=
  <[kv.1:=kv.2]> m.

Lemma foldl_insert_kv {V} (l : list (string * V)) (m0 : gmap string V) :
  NoDup l.*1 → foldl insert_kv m0 l = list_to_map l ∪ m0.
Proof.
  revert m0. induction l as [|[k v] l IH]; intros m0; csimpl.
  { intros _. by rewrite (left_id_L ∅ (∪)). }
  intros [Hk Hnd]%NoDup_cons. rewrite IH by done. unfold insert_kv. simpl.
  rewrite <- insert_union_r by (by apply not_elem_of_list_to_map_1).
  by rewrite insert_union_l.
Qed.

(** The entries of a map in the order of its sorted keys. *)
Definition sorted_entries {V} (m : gmap string V) : list (string * V) :=
  omap (λ k, pair k <$> m !! k) (sorted_keys m).

Lemma sorted_entries_keys {V} (m : gmap string V) : (sorted_entries m).*1 = sorted_keys m.
Proof.
  unfold sorted_entries. assert (∀ k, k ∈ sorted_keys m → is_Some (m !! k)) as Hin
    by (intros k; by rewrite elem_of_sorted_keys).
  induction (sorted_keys m) as [|k ks IH]; [done|]. csimpl.
  destruct (Hin k) as [v Hv]; [by left|]. rewrite Hv. csimpl. f_equal.
  apply IH. intros k' Hk'. apply Hin. by right.
Qed.

Lemma elem_of_sorted_entries {V} (m : gmap string V) k v :
  (k, v) ∈ sorted_entries m ↔ m !! k = Some v.
Proof.
  unfold sorted_entries. rewrite list_elem_of_omap. split.
  - intros (k' & _ & Hk). destruct (m !! k') eqn:E; simpl in Hk; by simplify_eq.
  - intros Hk. exists k. rewrite elem_of_sorted_keys, Hk. by eauto.
Qed.

Lemma sorted_entries_restore {V} (m : gmap string V) : foldl insert_kv ∅ (sorted_entries m) = m.
Proof.
  rewrite foldl_insert_kv by (rewrite sorted_entries_keys; apply sorted_keys_NoDup).
  rewrite (right_id_L ∅ (∪)). apply map_eq. intros k.
  apply option_eq. intros v. rewrite <- elem_of_list_to_map.
  - apply elem_of_sorted_entries.
  - rewrite sorted_entries_keys. apply sorted_keys_NoDup.
Qed.

Lemma length_sorted_entries {V} (m : gmap string V) : length (sorted_entries m) = size m.
Proof. by rewrite <- (length_fmap fst), sorted_entries_keys, length_sorted_keys. Qed.

(** Writing a map key by key, as the sources do, is writing its entries. *)
Lemma keys_as_entries {V} (m : gmap string V) (zero : V) (enc : string * V → bytes) :
  concat ((λ k, enc (k, default zero (m !! k))) <$> sorted_keys m)
  = concat (enc <$> sorted_entries m).
Proof.
  rewrite <- sorted_entries_keys, <- list_fmap_compose. f_equal.
  apply list_fmap_ext. intros i [k v] Hkv. simpl.
  apply list_elem_of_lookup_2, elem_of_sorted_entries in Hkv. by rewrite Hkv.
Qed.

(** A map written with its size and sorted keys is read back by the loop. *)
Lemma codec_map_entries {V} (body : gmap string V → rm (gmap string V))
    (enc : string * V → bytes) (m : gmap string V) :
  in_u64 (Z.of_nat (size m)) →
  (∀ acc k v, m !! k = Some v → codec (body acc) (<[k:=v]> acc) (enc (k, v))) →
  (∀ acc, Latches (body acc)) →
  codec (r_counted body ∅) m
        (putUint64 (Z.of_nat (size m)) ++ concat (enc <$> sorted_entries m)).
Proof.
  intros Hn Hb Hl. rewrite <- (sorted_entries_restore m) at 1.
  rewrite <- length_sorted_entries in *. apply codec_counted; [done| |done].
  intros acc [k v] Hkv%elem_of_sorted_entries. by apply Hb.
Qed.

(** From here on the writers and readers are used through their lemmas. *)
#[global] Opaque putUint64 putStr putBool r_uint64 r_str r_bool r_bytes.
