(* ===== verification/LedgerSnapshot.v ===== *)
(** * Ledger snapshots (src/ledger/snapshot.go)

    [Snapshot] writes every field of the state, maps in sorted key order;
    [RestoreSnapshot] decodes everything before it assigns anything. *)

From S2P Require Import Prelude GoLib Hlc Ledger LedgerCodec Reader.

Local Open Scope Z_scope.

(** ** Writing *)

Definition enc_balance (kv : string * Money) : bytes := putStr kv.1 ++ putUint64 kv.2.

Definition enc_applied (kv : string * Result) : bytes :=
  putStr kv.1 ++ putBool (r_OK kv.2) ++ putStr (r_Err kv.2) ++ putUint64 (r_Balance kv.2).

Definition enc_fingerprint (kv : string * Z) : bytes := putStr kv.1 ++ putUint64 kv.2.

Definition enc_reserve (kv : string * Reserve) : bytes :=
  putStr kv.1 ++ putStr (rv_TxID kv.2) ++ putStr (rv_Account kv.2) ++ putUint64 (rv_Amount kv.2).

Definition enc_entry (e : Entry) : bytes := putStr (e_Account e) ++ putUint64 (e_Amount e).

Definition enc_transaction (t : Transaction) : bytes :=
  putUint64 (t_Seq t) ++ putUint64 (t_Op t) ++ putStr (t_IdempotencyKey t)
  ++ putUint64 (Wall (t_Timestamp t)) ++ putUint64 (Logical (t_Timestamp t))
  ++ putUint64 (Z.of_nat (length (t_Entries t))) ++ concat (enc_entry <$> t_Entries t).

(** A map: its size, then for each key in sorted order the key and the value
    the map holds for it. *)
Definition put_map {V} (zero : V) (enc : string * V → bytes) (m : gmap string V) : bytes :=
  putUint64 (Z.of_nat (size m))
  ++ concat ((λ k, enc (k, default zero (m !! k))) <$> sorted_keys m).

Definition Snapshot (s : State) : bytes :=
  putUint64 (seq s)
  ++ put_map 0 enc_balance (balances s)
  ++ put_map (mkResult false "" 0) enc_applied (applied s)
  ++ put_map 0 enc_fingerprint (fingerprints s)
  ++ put_map (mkReserve "" "" 0) enc_reserve (reserves s)
  ++ putUint64 (Z.of_nat (length (history s))) ++ concat (enc_transaction <$> history s).

(** ** Reading *)

Definition read_balance (acc : gmap string Money) : rm (gmap string Money) :=
  k ← r_str; v ← r_uint64; mret (<[k:=i64 v]> acc).

Definition read_applied (acc : gmap string Result) : rm (gmap string Result) :=
  k ← r_str; ok ← r_bool; err ← r_str; bal ← r_uint64;
  mret (<[k:=mkResult ok err (i64 bal)]> acc).

Definition read_fingerprint (acc : gmap string Z) : rm (gmap string Z) :=
  k ← r_str; v ← r_uint64; mret (<[k:=v]> acc).

Definition read_reserve (acc : gmap string Reserve) : rm (gmap string Reserve) :=
  k ← r_str; tx ← r_str; a ← r_str; m ← r_uint64; mret (<[k:=mkReserve tx a (i64 m)]> acc).

Definition read_entry (acc : list Entry) : rm (list Entry) :=
  a ← r_str; m ← r_uint64; mret (acc ++ [mkEntry a (i64 m)]).

Definition read_transaction (acc : list Transaction) : rm (list Transaction) :=
  sq ← r_uint64; op ← r_uint64; key ← r_str; wall ← r_uint64; logical ← r_uint64;
  es ← r_counted read_entry [];
  mret (acc ++ [mkTransaction sq (u8 op) key es (mkTimestamp wall (u32 logical))]).

Definition read_state : rm State :=
  sq ← r_uint64;
  bs ← r_counted read_balance ∅;
  ap ← r_counted read_applied ∅;
  fps ← r_counted read_fingerprint ∅;
  rs ← r_counted read_reserve ∅;
  h ← r_counted read_transaction [];
  mret (mkState bs ap fps h rs sq).

(** [State.RestoreSnapshot]: the new state and the error, if any. *)
Definition RestoreSnapshot (data : bytes) (s : State) : State * option string :=
  let (s', r) := read_state (mkReader data 0 None) in
  match rd_err r with
  | Some e => (s, Some ("ledger: restore snapshot: " +:+ e))
  | None => (s', None)
  end.

(** [Machine.Snapshot] and [Machine.RestoreSnapshot]: the machine's own result
    tables are neither written nor replaced. *)
Definition Machine_Snapshot (m : Machine) : bytes := Snapshot (m_State m).

Definition Machine_RestoreSnapshot (data : bytes) (m : Machine) : Machine * option string :=
  let (s', err) := RestoreSnapshot data (m_State m) in
  (mkMachine s' (m_results m) (m_fingerprints m), err).

(** ** Correctness *)

(** Every field holds a value of its Go type; lengths fit in an [int]. *)
Definition str_ok (s : string) : Prop := in_u64 (slen s).

Record representable (s : State) : Prop := {
  rep_seq : in_u64 (seq s);
  rep_sizes : in_u64 (Z.of_nat (size (balances s))) ∧ in_u64 (Z.of_nat (size (applied s))) ∧
    in_u64 (Z.of_nat (size (fingerprints s))) ∧ in_u64 (Z.of_nat (size (reserves s))) ∧
    in_u64 (Z.of_nat (length (history s)));
  rep_balances : ∀ k b, balances s !! k = Some b → str_ok k ∧ in_i64 b;
  rep_applied : ∀ k r, applied s !! k = Some r →
    str_ok k ∧ str_ok (r_Err r) ∧ in_i64 (r_Balance r);
  rep_fingerprints : ∀ k f, fingerprints s !! k = Some f → str_ok k ∧ in_u64 f;
  rep_reserves : ∀ k r, reserves s !! k = Some r →
    str_ok k ∧ str_ok (rv_TxID r) ∧ str_ok (rv_Account r) ∧ in_i64 (rv_Amount r);
  rep_history : ∀ t, t ∈ history s →
    in_u64 (t_Seq t) ∧ in_u8 (t_Op t) ∧ str_ok (t_IdempotencyKey t) ∧
    in_u64 (Wall (t_Timestamp t)) ∧ in_u32 (Logical (t_Timestamp t)) ∧
    in_u64 (Z.of_nat (length (t_Entries t))) ∧
    ∀ e, e ∈ t_Entries t → str_ok (e_Account e) ∧ in_i64 (e_Amount e)
}.

Lemma put_map_entries {V} (zero : V) enc (m : gmap string V) :
  put_map zero enc m = putUint64 (Z.of_nat (size m)) ++ concat (enc <$> sorted_entries m).
Proof. unfold put_map. by rewrite (keys_as_entries m zero enc). Qed.

(** A signed amount travels as a [uint64]. *)
Lemma codec_money {B} (g : Z → B) v :
  in_i64 v → codec (m ← r_uint64; mret (g (i64 m))) (g v) (putUint64 v).
Proof.
  intros Hv. rewrite <- (i64_u64 v Hv) at 1.
  apply (codec_map r_uint64 (λ m, g (i64 m))), codec_uint64.
Qed.

Ltac codec_step :=
  first
    [ apply codec_money; by auto
    | eapply codec_bind; [first [apply codec_str; by auto | apply codec_bool
                                | apply codec_exact; by auto]| |intros; apply _] ].

Lemma read_balance_codec acc k b :
  str_ok k → in_i64 b → codec (read_balance acc) (<[k:=b]> acc) (enc_balance (k, b)).
Proof.
  intros Hk Hb. unfold read_balance, enc_balance. codec_step.
  by apply (codec_money (λ v, <[k:=v]> acc)).
Qed.

Lemma read_applied_codec acc k r :
  str_ok k → str_ok (r_Err r) → in_i64 (r_Balance r) →
  codec (read_applied acc) (<[k:=r]> acc) (enc_applied (k, r)).
Proof.
  intros Hk He Hb. unfold read_applied, enc_applied. simpl. destruct r as [ok err bal]. simpl in *.
  do 3 codec_step. by apply (codec_money (λ v, <[k:=mkResult ok err v]> acc)).
Qed.

Lemma read_fingerprint_codec acc k f :
  str_ok k → in_u64 f → codec (read_fingerprint acc) (<[k:=f]> acc) (enc_fingerprint (k, f)).
Proof.
  intros Hk Hf. unfold read_fingerprint, enc_fingerprint. codec_step. simpl.
  apply (codec_map r_uint64 (λ v, <[k:=v]> acc)), codec_exact, Hf.
Qed.

Lemma read_reserve_codec acc k r :
  str_ok k → str_ok (rv_TxID r) → str_ok (rv_Account r) → in_i64 (rv_Amount r) →
  codec (read_reserve acc) (<[k:=r]> acc) (enc_reserve (k, r)).
Proof.
  intros Hk Ht Ha Hm. unfold read_reserve, enc_reserve. destruct r as [tx a m]. simpl in *.
  do 3 codec_step. by apply (codec_money (λ v, <[k:=mkReserve tx a v]> acc)).
Qed.

Lemma read_entry_codec acc e :
  str_ok (e_Account e) → in_i64 (e_Amount e) → codec (read_entry acc) (acc ++ [e]) (enc_entry e).
Proof.
  intros Ha Hm. unfold read_entry, enc_entry. destruct e as [a m]. simpl in *.
  codec_step. by apply (codec_money (λ v, acc ++ [mkEntry a v])).
Qed.

(** Appending one item at a time rebuilds the list. *)
Lemma foldl_snoc {A} (l acc : list A) : foldl (λ a x, a ++ [x]) acc l = acc ++ l.
Proof.
  revert acc. induction l as [|x l IH]; intros acc; simpl; [by rewrite app_nil_r|].
  by rewrite IH, <- app_assoc.
Qed.

Lemma codec_list {A} (body : list A → rm (list A)) (enc : A → bytes) items :
  in_u64 (Z.of_nat (length items)) →
  (∀ acc x, x ∈ items → codec (body acc) (acc ++ [x]) (enc x)) → (∀ acc, Latches (body acc)) →
  codec (r_counted body []) items
        (putUint64 (Z.of_nat (length items)) ++ concat (enc <$> items)).
Proof.
  intros Hn Hb Hl. rewrite <- (app_nil_l items) at 1. rewrite <- foldl_snoc.
  by apply codec_counted.
Qed.

Lemma u8_small z : in_u8 z → u8 z = z.
Proof. apply Z.mod_small. Qed.

Lemma read_transaction_codec acc t :
  in_u64 (t_Seq t) → in_u8 (t_Op t) → str_ok (t_IdempotencyKey t) →
  in_u64 (Wall (t_Timestamp t)) → in_u32 (Logical (t_Timestamp t)) →
  in_u64 (Z.of_nat (length (t_Entries t))) →
  (∀ e, e ∈ t_Entries t → str_ok (e_Account e) ∧ in_i64 (e_Amount e)) →
  codec (read_transaction acc) (acc ++ [t]) (enc_transaction t).
Proof.
  intros Hs Hop Hk Hw Hl Hn He. unfold read_transaction, enc_transaction.
  destruct t as [sq op key es [wall logical]]. simpl in *.
  assert (in_u64 op) by (unfold in_u64, in_u8 in *; lia).
  assert (in_u64 logical) by (unfold in_u64, in_u32 in *; lia).
  do 5 codec_step. rewrite (u8_small op), (u32_small logical) by done.
  apply (codec_map (r_counted read_entry [])
           (λ es, acc ++ [mkTransaction sq op key es (mkTimestamp wall logical)])).
  apply codec_list; [done| |apply _].
  intros acc' e [Ha Hm]%He. by apply read_entry_codec.
Qed.

Lemma read_state_codec s : representable s → codec read_state s (Snapshot s).
Proof.
  intros [Hseq (Hs1 & Hs2 & Hs3 & Hs4 & Hs5) Hb Ha Hf Hr Hh].
  unfold read_state, Snapshot. rewrite !put_map_entries. destruct s as [bs ap fps h rs sq].
  simpl in *. codec_step.
  eapply codec_bind; [apply codec_map_entries; [done| |apply _]| |intros; apply _].
  { intros acc k v [? ?]%Hb. by apply read_balance_codec. }
  eapply codec_bind; [apply codec_map_entries; [done| |apply _]| |intros; apply _].
  { intros acc k v (? & ? & ?)%Ha. by apply read_applied_codec. }
  eapply codec_bind; [apply codec_map_entries; [done| |apply _]| |intros; apply _].
  { intros acc k v [? ?]%Hf. by apply read_fingerprint_codec. }
  eapply codec_bind; [apply codec_map_entries; [done| |apply _]| |intros; apply _].
  { intros acc k v (? & ? & ? & ?)%Hr. by apply read_reserve_codec. }
  apply (codec_map (r_counted read_transaction []) (λ h, mkState bs ap fps h rs sq)).
  apply codec_list; [done| |apply _].
  intros acc t (? & ? & ? & ? & ? & ? & ?)%Hh. by apply read_transaction_codec.
Qed.

Lemma RestoreSnapshot_codec s s0 rest :
  representable s → RestoreSnapshot (Snapshot s ++ rest) s0 = (s, None).
Proof.
  intros [Hr _]%read_state_codec. unfold RestoreSnapshot.
  pose proof (Hr [] rest) as H. simpl in H. rewrite H. done.
Qed.

(** C30: Restoring a snapshot is indistinguishable from replaying the log that
    led to it: from any ledger, restoring the snapshot of a state gives back
    exactly that state (balances, idempotency results and fingerprints,
    reservations, history with timestamps, sequence counter); and two states
    with equal snapshots are equal, so comparing snapshots compares states. *)
Theorem RestoreSnapshot_roundtrip s s' s0 :
  representable s → representable s' →
  RestoreSnapshot (Snapshot s) s0 = (s, None) ∧ (Snapshot s = Snapshot s' → s = s').
Proof.
  intros Hs Hs'. split.
  - rewrite <- (app_nil_r (Snapshot s)). by apply RestoreSnapshot_codec.
  - intros He. pose proof (RestoreSnapshot_codec s New [] Hs) as H1.
    rewrite He, (RestoreSnapshot_codec s' New [] Hs') in H1. by simplify_eq.
Qed.

(** A truncated snapshot is refused whole.  Whatever proper prefix of a
    snapshot survives, [RestoreSnapshot] reports an error and leaves the ledger
    exactly as it was. *)
Theorem RestoreSnapshot_truncated s s0 p q :
  representable s → Snapshot s = p ++ q → q ≠ [] →
  ∃ e, RestoreSnapshot p s0 = (s0, Some e).
Proof.
  intros [_ Hn]%read_state_codec Hpq Hq. unfold RestoreSnapshot.
  destruct (Hn [] p q Hpq Hq) as (y & pos & e & Hy). simpl in Hy. rewrite Hy. simpl. eauto.
Qed.

(** ** A concrete state *)

Definition snap_sample : State :=
  mkState {["a" := 100; "b" := 7]} {["k" := succeeded 100]} {["k" := 12345]}
    [mkTransaction 1 OpOpenAccount "k" [mkEntry "a" 100] (mkTimestamp 9 2)]
    {["t" := mkReserve "t" "a" 40]} 1.

Lemma snap_sample_representable : representable snap_sample.
Proof.
  split; simpl.
  - done.
  - vm_compute. repeat split; congruence.
  - intros k b [[<- <-]|[_ [<- <-]%lookup_singleton_Some]]%lookup_insert_Some;
      vm_compute; repeat split; congruence.
  - intros k b [<- <-]%lookup_singleton_Some. vm_compute. repeat split; congruence.
  - intros k b [<- <-]%lookup_singleton_Some. vm_compute. repeat split; congruence.
  - intros k b [<- <-]%lookup_singleton_Some. vm_compute. repeat split; congruence.
  - intros t ->%list_elem_of_singleton. cbn [t_Seq t_Op t_IdempotencyKey t_Timestamp t_Entries].
    do 6 (split; [vm_compute; split; congruence|]).
    intros e ->%list_elem_of_singleton. split; vm_compute; split; congruence.
Qed.

Lemma RestoreSnapshot_roundtrip_witness :
  RestoreSnapshot (Snapshot snap_sample) New = (snap_sample, None).
Proof.
  exact (proj1 (RestoreSnapshot_roundtrip snap_sample snap_sample New
                  snap_sample_representable snap_sample_representable)).
Defined.

Lemma RestoreSnapshot_truncated_witness :
  ∃ e, RestoreSnapshot (take 20 (Snapshot snap_sample)) New = (New, Some e).
Proof.
  apply (RestoreSnapshot_truncated snap_sample New _ (drop 20 (Snapshot snap_sample))).
  - exact snap_sample_representable.
  - symmetry. apply take_drop.
  - vm_compute. congruence.
Defined.
