(* ===== verification/Ring.v ===== *)
(** * Account placement (src/shard/ring.go)

    The consistent-hash ring.  [sort.Slice] promises a sorted permutation and
    nothing about the order of equal elements, so it enters through an
    interface with exactly those two laws; the theorems hold for every
    implementation of it. *)

From S2P Require Import Prelude GoLib.

Local Open Scope Z_scope.

Abbreviation ID := string (only parsing).

Record point := mkPoint { p_hash : Z; p_shard : ID }.

#[global] Instance point_eq_dec : EqDecision point.
Proof. solve_decision. Defined.

Record Ring := mkRing { points : list point; vnodes : nat; shards : list ID }.

Definition DefaultVNodes : nat := 150.

Definition hash_le (p q : point) : Prop := p_hash p ≤ p_hash q.

#[global] Instance hash_le_dec : RelDecision hash_le.
Proof. intros p q. unfold hash_le. apply _. Defined.

(** [sort.Slice] with the ring's comparison. *)
Class SortSlice := {
  sort_Slice : list point → list point;
  sort_Slice_perm l : sort_Slice l ≡ₚ l;
  sort_Slice_sorted l : Sorted hash_le (sort_Slice l)
}.

Definition hashKey (s : string) : Z := ChecksumIEEE (str_bytes s).
Definition HashKey (s : string) : Z := hashKey s.

(** The points of one shard, in the order the inner loop appends them. *)
Definition shard_points (vn : nat) (s : ID) : list point :=
  (λ i, mkPoint (hashKey (s +:+ "#" +:+ fmt_d (Z.of_nat i))) s) <$> seq 0 vn.

Definition all_points (vn : nat) (ss : list ID) : list point := concat (shard_points vn <$> ss).

(** [NewRing]; [vn] is the Go [int], defaulted when it is not positive. *)
Definition NewRing `{SortSlice} (ss : list ID) (vn : Z) : Ring :=
  let vn := if vn <=? 0 then DefaultVNodes else Z.to_nat vn in
  mkRing (sort_Slice (all_points vn ss)) vn ss.

Definition VNodes (r : Ring) : nat := vnodes r.
Definition Shards (r : Ring) : list ID := shards r.
Definition Points (r : Ring) : list (Z * ID) := (λ p, (p_hash p, p_shard p)) <$> points r.

(** The test of the binary search; [sort.Search] only asks inside the slice. *)
Definition at_or_after (pts : list point) (h : Z) (i : nat) : bool :=
  match pts !! i with Some p => h <=? p_hash p | None => true end.

Definition Lookup (r : Ring) (key : string) : ID :=
  match points r with
  | [] => ""
  | p0 :: _ =>
      let h := hashKey key in
      let i := sort_Search (length (points r)) (at_or_after (points r) h) in
      let i := if (i =? length (points r))%nat then 0%nat else i in
      p_shard (default p0 (points r !! i))
  end.

Record Segment := mkSegment { s_Start : Z; s_End : Z; s_Shard : ID }.

Definition Segments (r : Ring) : list Segment :=
  match points r with
  | [] => []
  | p0 :: _ =>
      imap (λ i p,
        let start := match i with
                     | O => p_hash (default p0 (last (points r)))
                     | S j => p_hash (default p0 (points r !! j))
                     end in
        mkSegment start (p_hash p) (p_shard p)) (points r)
  end.

Definition Distribution (r : Ring) (keys : list string) : gmap string Z :=
  let out := foldl (λ out s, <[s:=0]> out) ∅ (shards r) in
  foldl (λ out k, let s := Lookup r k in <[s:=default 0 (out !! s) + 1]> out) out keys.

Definition Ring_String (r : Ring) : string :=
  "Ring(" +:+ fmt_d (Z.of_nat (length (shards r))) +:+ " shards, "
  +:+ fmt_d (Z.of_nat (vnodes r)) +:+ " vnodes each, "
  +:+ fmt_d (Z.of_nat (length (points r))) +:+ " points)".

(** ** The clockwise distance and the nearest point *)

(** How far clockwise from [h] a position is, on the circle of 2^32. *)
Definition clockwise (h x : Z) : Z := (x - h) `mod` 2 ^ 32.

Definition nearest (pts : list point) (h : Z) (p : point) : Prop :=
  p ∈ pts ∧ ∀ q, q ∈ pts → clockwise h (p_hash p) ≤ clockwise h (p_hash q).

Lemma clockwise_ahead h x : in_u32 h → in_u32 x → h ≤ x → clockwise h x = x - h.
Proof. unfold in_u32, clockwise. intros. apply Z.mod_small. lia. Qed.

Lemma clockwise_behind h x : in_u32 h → in_u32 x → x < h → clockwise h x = x - h + 2 ^ 32.
Proof.
  unfold in_u32, clockwise. intros. rewrite <- (Z_mod_plus_full (x - h) 1), Z.mul_1_l.
  apply Z.mod_small. lia.
Qed.

Lemma clockwise_inj h x y :
  in_u32 h → in_u32 x → in_u32 y → clockwise h x = clockwise h y → x = y.
Proof.
  intros Hh Hx Hy. destruct (Z.lt_ge_cases x h), (Z.lt_ge_cases y h);
    repeat first [rewrite (clockwise_ahead h x) by (done || lia)
                 |rewrite (clockwise_behind h x) by (done || lia)
                 |rewrite (clockwise_ahead h y) by (done || lia)
                 |rewrite (clockwise_behind h y) by (done || lia)];
    unfold in_u32 in *; lia.
Qed.

Lemma hashKey_u32 s : in_u32 (hashKey s).
Proof. apply ChecksumIEEE_u32. Qed.

Lemma all_points_u32 vn ss p : p ∈ all_points vn ss → in_u32 (p_hash p).
Proof.
  unfold all_points. rewrite list_elem_of_In, in_concat. intros (l & Hl & Hp).
  apply list_elem_of_In, list_elem_of_fmap in Hl as (s & -> & _).
  apply list_elem_of_In, list_elem_of_fmap in Hp as (i & -> & _). apply hashKey_u32.
Qed.

#[local] Instance hash_le_trans : Transitive hash_le.
Proof. intros p q r. unfold hash_le. lia. Qed.

Lemma sorted_hashes pts i j p q :
  Sorted hash_le pts → (i ≤ j)%nat → pts !! i = Some p → pts !! j = Some q → p_hash p ≤ p_hash q.
Proof.
  intros Hs%Sorted_StronglySorted Hij Hi Hj; [|apply _].
  destruct (decide (i = j)) as [->|]; [simplify_eq; lia|].
  revert i j p q Hij Hi Hj n. induction Hs as [|x l Hl IH Hall]; intros i j p q Hij Hi Hj Hne.
  - by rewrite lookup_nil in Hi.
  - destruct i as [|i], j as [|j]; simpl in *; simplify_eq; try lia.
    + rewrite Forall_forall in Hall. apply (Hall q). by eapply list_elem_of_lookup_2.
    + apply (IH i j); try done; lia.
Qed.

Lemma at_or_after_mono pts h a b :
  Sorted hash_le pts → (a ≤ b)%nat → at_or_after pts h a = true → at_or_after pts h b = true.
Proof.
  intros Hs Hab. unfold at_or_after.
  destruct (pts !! a) as [p|] eqn:Ha, (pts !! b) as [q|] eqn:Hb; try done.
  - rewrite !Z.leb_le. pose proof (sorted_hashes pts a b p q Hs Hab Ha Hb). lia.
  - apply lookup_ge_None in Ha. apply lookup_lt_Some in Hb. lia.
Qed.

(** The index the code picks holds the nearest point clockwise. *)
Lemma search_nearest pts h :
  Sorted hash_le pts → pts ≠ [] → in_u32 h → (∀ p, p ∈ pts → in_u32 (p_hash p)) →
  let i := sort_Search (length pts) (at_or_after pts h) in
  ∃ p, pts !! (if (i =? length pts)%nat then 0%nat else i) = Some p ∧ nearest pts h p.
Proof.
  intros Hs Hne Hh Hu. cbv zeta.
  destruct (sort_Search_spec (length pts) (at_or_after pts h)) as (Hle & Hlow & Hhit).
  { intros a b. by apply at_or_after_mono. }
  set (i := sort_Search (length pts) (at_or_after pts h)) in *. clearbody i.
  destruct (Nat.eqb_spec i (length pts)) as [->|Hi].
  - destruct (pts !! 0%nat) as [p|] eqn:Hp; [|by destruct pts]. exists p. split; [done|].
    split; [by eapply list_elem_of_lookup_2|]. intros q [j Hj]%list_elem_of_lookup.
    assert (∀ k r, pts !! k = Some r → p_hash r < h) as Hbelow.
    { intros k r Hk. pose proof (Hlow k (lookup_lt_Some _ _ _ Hk)) as Hf.
      unfold at_or_after in Hf. rewrite Hk in Hf. by apply Z.leb_gt in Hf. }
    rewrite !clockwise_behind; eauto using list_elem_of_lookup_2.
    pose proof (sorted_hashes pts 0 j p q Hs ltac:(lia) Hp Hj). lia.
  - destruct (lookup_lt_is_Some_2 pts i) as [p Hp]; [lia|]. exists p. split; [done|].
    pose proof (Hhit ltac:(lia)) as Hge. unfold at_or_after in Hge. rewrite Hp in Hge.
    apply Z.leb_le in Hge. split; [by eapply list_elem_of_lookup_2|].
    intros q [j Hj]%list_elem_of_lookup.
    pose proof (Hu p (list_elem_of_lookup_2 _ _ _ Hp)) as Hpu.
    pose proof (Hu q (list_elem_of_lookup_2 _ _ _ Hj)) as Hqu.
    rewrite (clockwise_ahead h (p_hash p)) by done.
    destruct (decide (j < i)%nat) as [Hji|Hji].
    + pose proof (Hlow j Hji) as Hf. unfold at_or_after in Hf. rewrite Hj in Hf.
      apply Z.leb_gt in Hf. rewrite clockwise_behind by done. unfold in_u32 in *. lia.
    + pose proof (sorted_hashes pts i j p q Hs ltac:(lia) Hp Hj).
      rewrite clockwise_ahead by (done || lia). lia.
Qed.

Lemma Lookup_nearest r key :
  Sorted hash_le (points r) → points r ≠ [] → (∀ p, p ∈ points r → in_u32 (p_hash p)) →
  ∃ p, nearest (points r) (hashKey key) p ∧ Lookup r key = p_shard p.
Proof.
  intros Hs Hne Hu. destruct (search_nearest (points r) (hashKey key)) as (p & Hp & Hn);
    try done; [apply hashKey_u32|].
  exists p. split; [done|]. unfold Lookup. destruct (points r) as [|p0 l] eqn:E; [done|].
  rewrite Hp. done.
Qed.

(** The number of points per shard the ring really uses. *)
Definition ring_vn (vn : Z) : nat := if vn <=? 0 then DefaultVNodes else Z.to_nat vn.

Lemma ring_vn_pos vn : (0 < ring_vn vn)%nat.
Proof. unfold ring_vn, DefaultVNodes. destruct (Z.leb_spec vn 0); lia. Qed.

Lemma points_NewRing `{SortSlice} ss vn : points (NewRing ss vn) ≡ₚ all_points (ring_vn vn) ss.
Proof. apply sort_Slice_perm. Qed.

Lemma NewRing_Lookup `{SortSlice} ss vn key :
  ss ≠ [] →
  ∃ p, nearest (all_points (ring_vn vn) ss) (hashKey key) p
       ∧ Lookup (NewRing ss vn) key = p_shard p.
Proof.
  intros Hne. destruct (Lookup_nearest (NewRing ss vn) key) as (p & [Hin Hmin] & Hl).
  - apply sort_Slice_sorted.
  - intros E. pose proof (points_NewRing ss vn) as Hp. rewrite E in Hp.
    apply Permutation_nil in Hp. destruct ss as [|s ss]; [done|].
    unfold all_points, shard_points in Hp. pose proof (ring_vn_pos vn).
    destruct (ring_vn vn); [lia|done].
  - intros p. rewrite points_NewRing. apply all_points_u32.
  - exists p. split; [|done]. split; [by rewrite <- points_NewRing|].
    intros q Hq. apply Hmin. by rewrite points_NewRing.
Qed.

(** When positions are distinct the nearest point is unique. *)
Lemma nearest_unique pts h p q :
  in_u32 h → (∀ x, x ∈ pts → in_u32 (p_hash x)) → NoDup (p_hash <$> pts) →
  nearest pts h p → nearest pts h q → p = q.
Proof.
  intros Hh Hu Hnd [Hp Hpmin] [Hq Hqmin].
  assert (p_hash p = p_hash q) as Heq.
  { apply (clockwise_inj h); auto. pose proof (Hpmin q Hq). pose proof (Hqmin p Hp). lia. }
  apply list_elem_of_lookup in Hp as [i Hi]. apply list_elem_of_lookup in Hq as [j Hj].
  assert (i = j) as ->; [|congruence].
  eapply (NoDup_lookup (p_hash <$> pts)); [done|..]; rewrite list_lookup_fmap.
  - by rewrite Hi.
  - rewrite Hj. simpl. by rewrite Heq.
Qed.

Lemma all_points_app vn ss1 ss2 : all_points vn (ss1 ++ ss2) = all_points vn ss1 ++ all_points vn ss2.
Proof. unfold all_points. by rewrite fmap_app, concat_app. Qed.

#[local] Instance concat_perm {A} : Proper ((≡ₚ) ==> (≡ₚ)) (@concat A).
Proof.
  intros l l' Hl. induction Hl as [|x ?? _ IH|x y l|??? _ IH1 _ IH2]; simpl.
  - done.
  - by rewrite IH.
  - by rewrite !app_assoc, (Permutation_app_comm y x).
  - by rewrite IH1.
Qed.

Lemma all_points_perm vn ss ss' : ss ≡ₚ ss' → all_points vn ss ≡ₚ all_points vn ss'.
Proof. intros Hs. unfold all_points. by rewrite Hs. Qed.

Lemma shard_points_shard vn s p : p ∈ shard_points vn s → p_shard p = s.
Proof. unfold shard_points. by intros (i & -> & _)%list_elem_of_fmap. Qed.

Lemma all_points_shard vn ss p : p ∈ all_points vn ss → p_shard p ∈ ss.
Proof.
  unfold all_points. rewrite list_elem_of_In, in_concat. intros (l & Hl & Hp).
  apply list_elem_of_In, list_elem_of_fmap in Hl as (s & -> & Hs).
  apply list_elem_of_In in Hp. by rewrite (shard_points_shard _ _ _ Hp).
Qed.

(** No two virtual nodes share a position. *)
Definition distinct_positions (vn : Z) (ss : list ID) : Prop :=
  NoDup (p_hash <$> all_points (ring_vn vn) ss).

#[global] Instance distinct_positions_dec vn ss : Decision (distinct_positions vn ss).
Proof. unfold distinct_positions. apply _. Defined.

(** C33: Lookup finds the first shard clockwise.  On a ring built over at least
    one shard, with any implementation of [sort.Slice], the shard returned for
    a key is one of the ring's shards and is the shard of a virtual node whose
    clockwise distance from the key's hash, wrapping around 2^32, is the
    smallest of all virtual nodes: the binary search and its wrap-around case
    compute the definition of consistent hashing. *)
Theorem Lookup_first_clockwise `{SortSlice} ss vn key :
  ss ≠ [] →
  Lookup (NewRing ss vn) key ∈ ss ∧
  ∃ p, p ∈ points (NewRing ss vn) ∧ p_shard p = Lookup (NewRing ss vn) key ∧
    ∀ q, q ∈ points (NewRing ss vn) →
      clockwise (hashKey key) (p_hash p) ≤ clockwise (hashKey key) (p_hash q).
Proof.
  intros Hne. destruct (NewRing_Lookup ss vn key Hne) as (p & [Hin Hmin] & ->).
  split; [by eapply all_points_shard|]. exists p. split; [by rewrite points_NewRing|].
  split; [done|]. intros q. rewrite points_NewRing. apply Hmin.
Qed.

(** Placement is the same on every node.  When no two virtual nodes collide,
    two rings built from the same shards listed in different orders, with
    different sorting algorithms, place every key on the same shard. *)
Theorem Lookup_order_independent (S1 S2 : SortSlice) ss ss' vn key :
  ss ≡ₚ ss' → distinct_positions vn ss →
  Lookup (@NewRing S1 ss vn) key = Lookup (@NewRing S2 ss' vn) key.
Proof.
  intros Hp Hd. destruct (decide (ss = [])) as [->|Hne].
  { apply Permutation_nil_l in Hp as <-. unfold Lookup, NewRing. simpl.
    pose proof (@sort_Slice_perm S1 []) as H1. pose proof (@sort_Slice_perm S2 []) as H2.
    apply Permutation_nil_r in H1, H2. unfold all_points. simpl. by rewrite H1, H2. }
  assert (ss' ≠ []) as Hne' by (intros ->; by apply Permutation_nil_r in Hp).
  destruct (@NewRing_Lookup S1 ss vn key Hne) as (p & Hn & ->).
  destruct (@NewRing_Lookup S2 ss' vn key Hne') as (q & [Hin Hmin] & ->). f_equal.
  apply (nearest_unique (all_points (ring_vn vn) ss) (hashKey key));
    [apply hashKey_u32|apply all_points_u32|done|done|].
  pose proof (all_points_perm (ring_vn vn) ss ss' Hp) as Hpp.
  split; [by rewrite Hpp|]. intros x. rewrite Hpp. apply Hmin.
Qed.

(** Growing the ring relocates keys only onto the new shard.  When no two
    virtual nodes of the larger ring collide, a key either stays on the shard
    that owned it or moves to the shard that was added; no key moves between
    two existing shards (the reason the package prefers this to hash mod N). *)
Theorem Lookup_add_shard `{SortSlice} ss s vn key :
  ss ≠ [] → distinct_positions vn (ss ++ [s]) →
  Lookup (NewRing (ss ++ [s]) vn) key = Lookup (NewRing ss vn) key ∨
  Lookup (NewRing (ss ++ [s]) vn) key = s.
Proof.
  intros Hne Hd.
  destruct (NewRing_Lookup ss vn key Hne) as (p & Hp & ->).
  destruct (NewRing_Lookup (ss ++ [s]) vn key) as (q & [Hin Hmin] & ->); [by destruct ss|].
  rewrite all_points_app in Hin, Hmin.
  apply elem_of_app in Hin as [Hin|Hin].
  - left. f_equal.
    apply (nearest_unique (all_points (ring_vn vn) ss) (hashKey key));
      [apply hashKey_u32|apply all_points_u32| | |done].
    + unfold distinct_positions in Hd. rewrite all_points_app, fmap_app in Hd.
      by apply NoDup_app in Hd as (? & _ & _).
    + split; [done|]. intros x Hx. apply Hmin, elem_of_app. by left.
  - right. apply all_points_shard in Hin. by apply list_elem_of_singleton in Hin.
Qed.

(** ** Segments *)

(** Walking clockwise from [h], the end of the arc is met before its start: [h]
    lies in (Start, End]. *)
Definition in_arc (h : Z) (g : Segment) : Prop := clockwise h (s_End g) ≤ clockwise h (s_Start g).

Lemma Segments_lookup r i g :
  Segments r !! i = Some g →
  ∃ p q, points r !! i = Some p ∧ points r !! (pred (if (i =? 0)%nat then length (points r) else i)) = Some q
    ∧ g = mkSegment (p_hash q) (p_hash p) (p_shard p).
Proof.
  unfold Segments. destruct (points r) as [|p0 l] eqn:E; [done|]. rewrite <- E.
  rewrite list_lookup_imap. intros (p & Hp & Hg)%fmap_Some. simpl in Hg. subst g. exists p.
  destruct i as [|j]; simpl.
  - rewrite last_lookup.
    destruct (lookup_lt_is_Some_2 (points r) (pred (length (points r)))) as [q Hq].
    { rewrite E. simpl. lia. }
    exists q. by rewrite Hq.
  - destruct (lookup_lt_is_Some_2 (points r) j) as [q Hq].
    { apply lookup_lt_Some in Hp. lia. }
    exists q. by rewrite Hq.
Qed.

(** Distinct sorted positions are strictly increasing. *)
Lemma strict_hashes pts i j p q :
  Sorted hash_le pts → NoDup (p_hash <$> pts) → (i < j)%nat →
  pts !! i = Some p → pts !! j = Some q → p_hash p < p_hash q.
Proof.
  intros Hs Hnd Hij Hi Hj. pose proof (sorted_hashes pts i j p q Hs ltac:(lia) Hi Hj).
  destruct (decide (p_hash p = p_hash q)) as [He|]; [|lia].
  assert (i = j); [|lia].
  eapply (NoDup_lookup (p_hash <$> pts)); [done|..]; rewrite list_lookup_fmap.
  - by rewrite Hi.
  - rewrite Hj. simpl. by rewrite He.
Qed.

Lemma arc_nearest pts h i p q :
  Sorted hash_le pts → NoDup (p_hash <$> pts) → in_u32 h → (∀ x, x ∈ pts → in_u32 (p_hash x)) →
  pts !! i = Some p → pts !! (pred (if (i =? 0)%nat then length pts else i)) = Some q →
  clockwise h (p_hash p) ≤ clockwise h (p_hash q) → nearest pts h p.
Proof.
  intros Hs Hnd Hh Hu Hp Hq Harc. split; [by eapply list_elem_of_lookup_2|].
  intros x [j Hj]%list_elem_of_lookup.
  pose proof (Hu p (list_elem_of_lookup_2 _ _ _ Hp)) as Hpu.
  pose proof (Hu q (list_elem_of_lookup_2 _ _ _ Hq)) as Hqu.
  pose proof (Hu x (list_elem_of_lookup_2 _ _ _ Hj)) as Hxu.
  assert (∀ y, in_u32 y → clockwise h y = if h <=? y then y - h else y - h + 2 ^ 32) as Hd.
  { intros y Hy. destruct (Z.leb_spec h y);
      [by apply clockwise_ahead|apply clockwise_behind; done || lia]. }
  rewrite !Hd in * by done. unfold in_u32 in *.
  destruct (Nat.eqb_spec i 0) as [->|Hi].
  - pose proof (sorted_hashes pts 0 j p x Hs ltac:(lia) Hp Hj).
    pose proof (lookup_lt_Some _ _ _ Hj).
    pose proof (sorted_hashes pts j (pred (length pts)) x q Hs ltac:(lia) Hj Hq).
    repeat case_match; lia.
  - pose proof (strict_hashes pts (pred i) i q p Hs Hnd ltac:(lia) Hq Hp).
    destruct (decide (j < i)%nat).
    + pose proof (sorted_hashes pts j (pred i) x q Hs ltac:(lia) Hj Hq).
      repeat case_match; lia.
    + pose proof (sorted_hashes pts i j p x Hs ltac:(lia) Hp Hj).
      repeat case_match; lia.
Qed.

(** The arcs drawn for the dashboard are the real placement.  When no two
    virtual nodes collide, every key lies in some arc of [Segments], and the
    shard of any arc that contains it is the shard [Lookup] returns.  The arc is
    (Start, End]: a position equal to its end is inside, and one equal to its
    start is outside, except on a ring with a single point. *)
Theorem Segments_owner `{SortSlice} ss vn key :
  ss ≠ [] → distinct_positions vn ss →
  let r := NewRing ss vn in
  (∃ g, g ∈ Segments r ∧ in_arc (hashKey key) g) ∧
  (∀ g, g ∈ Segments r → in_arc (hashKey key) g → Lookup r key = s_Shard g) ∧
  (∀ g, g ∈ Segments r → in_arc (s_End g) g ∧ (s_Start g ≠ s_End g → ¬ in_arc (s_Start g) g)).
Proof.
  intros Hne Hd r.
  assert (Sorted hash_le (points r)) as Hs by apply sort_Slice_sorted.
  assert (∀ x, x ∈ points r → in_u32 (p_hash x)) as Hu
    by (intros x; unfold r; rewrite points_NewRing; apply all_points_u32).
  assert (NoDup (p_hash <$> points r)) as Hnd
    by (unfold r; by rewrite points_NewRing).
  assert (∀ p, nearest (points r) (hashKey key) p → Lookup r key = p_shard p) as Hl.
  { intros p Hp. destruct (Lookup_nearest r key) as (q & Hq & ->); [done| |done|].
    - intros E. destruct Hp as [Hp _]. rewrite E in Hp. by apply not_elem_of_nil in Hp.
    - f_equal. apply (nearest_unique (points r) (hashKey key)); [apply hashKey_u32|done..]. }
  split_and!.
  - destruct (NewRing_Lookup ss vn key Hne) as (p & [Hin Hmin] & _).
    rewrite <- points_NewRing in Hin. apply list_elem_of_lookup in Hin as [i Hi].
    destruct (Segments r !! i) as [g|] eqn:Hg.
    + exists g. split; [by eapply list_elem_of_lookup_2|].
      destruct (Segments_lookup r i g Hg) as (p' & q & Hp' & Hq & ->).
      fold r in Hi. simplify_eq. unfold in_arc. simpl. apply Hmin.
      rewrite <- points_NewRing. by eapply list_elem_of_lookup_2.
    + apply lookup_ge_None in Hg. apply lookup_lt_Some in Hi. fold r in Hi.
      unfold Segments in Hg. destruct (points r) as [|p0 l] eqn:E; [simpl in Hi; lia|].
      rewrite <- E, length_imap in Hg. rewrite <- E in Hi. lia.
  - intros g [i Hg]%list_elem_of_lookup Harc.
    destruct (Segments_lookup r i g Hg) as (p & q & Hp & Hq & ->). simpl. apply Hl.
    by apply (arc_nearest (points r) (hashKey key) i p q); [..|apply hashKey_u32| | | |].
  - intros g [i Hg]%list_elem_of_lookup.
    destruct (Segments_lookup r i g Hg) as (p & q & Hp & Hq & ->). unfold in_arc. simpl.
    pose proof (Hu p (list_elem_of_lookup_2 _ _ _ Hp)) as Hpu.
    pose proof (Hu q (list_elem_of_lookup_2 _ _ _ Hq)) as Hqu.
    unfold clockwise. rewrite !Z.sub_diag, Z.mod_0_l by lia. split.
    + by apply Z.mod_pos_bound.
    + intros Hneq Hle. apply Hneq. apply (clockwise_inj (p_hash q)); [done..|].
      unfold clockwise. rewrite Z.sub_diag, Z.mod_0_l by lia.
      pose proof (Z.mod_pos_bound (p_hash p - p_hash q) (2 ^ 32) eq_refl). lia.
Qed.

(** ** A sorting implementation *)

Definition merge_SortSlice : SortSlice := {|
  sort_Slice := merge_sort hash_le;
  sort_Slice_perm := merge_sort_Permutation hash_le;
  sort_Slice_sorted l := @Sorted_merge_sort _ hash_le _ (λ p q, Z.le_ge_cases _ _) l
|}.

(** With colliding virtual nodes placement depends on the listing order.
    The two shard names below have the same CRC-32 position for their only
    virtual node, and a ring sorted by the (stable) merge sort sends every key
    to whichever of the two was listed first. *)
Theorem Lookup_collision_order :
  let a := "nidmovh" in let b := "bubanxn" in
  ¬ distinct_positions 1 [a; b] ∧
  ∀ key, Lookup (@NewRing merge_SortSlice [a; b] 1) key = a ∧
         Lookup (@NewRing merge_SortSlice [b; a] 1) key = b.
Proof.
  cbv zeta. split.
  { apply (bool_decide_eq_false_1 _). vm_compute. reflexivity. }
  assert (∀ x y h key, Lookup (mkRing [mkPoint h x; mkPoint h y] 1 [x; y]) key = x) as Htie.
  { intros x y h key. unfold Lookup. cbn [points length].
    unfold sort_Search, sort_search_loop, at_or_after. simpl.
    destruct (hashKey key <=? h); done. }
  intros key. split.
  - replace (@NewRing merge_SortSlice ["nidmovh"; "bubanxn"] 1)
      with (mkRing [mkPoint 4246553587 "nidmovh"; mkPoint 4246553587 "bubanxn"] 1
                   ["nidmovh"; "bubanxn"]) by (vm_compute; reflexivity).
    apply Htie.
  - replace (@NewRing merge_SortSlice ["bubanxn"; "nidmovh"] 1)
      with (mkRing [mkPoint 4246553587 "bubanxn"; mkPoint 4246553587 "nidmovh"] 1
                   ["bubanxn"; "nidmovh"]) by (vm_compute; reflexivity).
    apply Htie.
Qed.

Lemma Lookup_first_clockwise_witness :
  Lookup (@NewRing merge_SortSlice ["s1"; "s2"] 3) "alice" ∈ ["s1"; "s2"].
Proof. apply (@Lookup_first_clockwise merge_SortSlice ["s1"; "s2"] 3 "alice"). congruence. Defined.

Lemma Lookup_order_independent_witness :
  Lookup (@NewRing merge_SortSlice ["s1"; "s2"] 3) "alice"
  = Lookup (@NewRing merge_SortSlice ["s2"; "s1"] 3) "alice".
Proof.
  apply (Lookup_order_independent merge_SortSlice merge_SortSlice).
  - constructor.
  - apply (bool_decide_eq_true_1 _). vm_compute. reflexivity.
Defined.

Lemma Lookup_add_shard_witness :
  Lookup (@NewRing merge_SortSlice ["s1"; "s2"; "s3"] 3) "alice"
    = Lookup (@NewRing merge_SortSlice ["s1"; "s2"] 3) "alice" ∨
  Lookup (@NewRing merge_SortSlice ["s1"; "s2"; "s3"] 3) "alice" = "s3".
Proof.
  apply (@Lookup_add_shard merge_SortSlice ["s1"; "s2"] "s3" 3 "alice").
  - congruence.
  - apply (bool_decide_eq_true_1 _). vm_compute. reflexivity.
Defined.

Lemma Segments_owner_witness :
  let r := @NewRing merge_SortSlice ["s1"; "s2"] 3 in
  ∃ g, g ∈ Segments r ∧ Lookup r "alice" = s_Shard g.
Proof.
  cbv zeta. destruct (@Segments_owner merge_SortSlice ["s1"; "s2"] 3 "alice")
    as ((g & Hg & Harc) & Hown & _).
  - congruence.
  - apply (bool_decide_eq_true_1 _). vm_compute. reflexivity.
  - exists g. split; [exact Hg|]. exact (Hown g Hg Harc).
Defined.

(** * The ring as the dashboard draws it (src/demo/demo.go: ringArcs, ringAngle)

    Positions are in units of 1/2^32 of a turn.  The program's degrees are these
    times 360/2^32, computed in float64: a hash has 32 bits and 360 needs 9, so the
    division and the product are exact, and equal or ordered positions stay equal or
    ordered.  The tolerance of 1e-9 degrees is less than one unit (8.4e-8 degrees), so
    it never joins positions that differ. *)

Definition turn : Z := 2 ^ 32.

Record RingArc := mkRingArc { ra_Start : Z; ra_End : Z; ra_Shard : ID }.

Definition ringAngle (key : string) : Z := HashKey key.

(** A segment that wraps is split at 0. *)
Definition arcs_of (g : Segment) : list RingArc :=
  if s_End g <? s_Start g then [mkRingArc (s_Start g) turn (s_Shard g); mkRingArc 0 (s_End g) (s_Shard g)]
  else [mkRingArc (s_Start g) (s_End g) (s_Shard g)].

Definition start_le (a b : RingArc) : Prop := ra_Start a ≤ ra_Start b.

#[global] Instance start_le_dec : RelDecision start_le.
Proof. intros a b. unfold start_le. apply _. Defined.

(** The merged arcs are in reverse. *)
Definition merge_step (merged : list RingArc) (a : RingArc) : list RingArc :=
  match merged with
  | m :: rest =>
      if String.eqb (ra_Shard m) (ra_Shard a) && (ra_Start a <=? ra_End m)
      then (if ra_End m <? ra_End a then mkRingArc (ra_Start m) (ra_End a) (ra_Shard m) else m) :: rest
      else a :: merged
  | [] => [a]
  end.

Definition merge_arcs (arcs : list RingArc) : list RingArc := reverse (foldl merge_step [] arcs).

(** [sort.Slice] by start. *)
Class SortArcs := {
  sort_arcs : list RingArc → list RingArc;
  sort_arcs_perm l : sort_arcs l ≡ₚ l;
  sort_arcs_sorted l : Sorted start_le (sort_arcs l)
}.

Lemma merge_sort_starts l : Sorted start_le (merge_sort start_le l).
Proof. apply Sorted_merge_sort. intros a b. unfold start_le. lia. Qed.

#[global] Instance merge_SortArcs : SortArcs := {|
  sort_arcs := merge_sort start_le;
  sort_arcs_perm l := merge_sort_Permutation start_le l;
  sort_arcs_sorted := merge_sort_starts
|}.

Definition ringArcs `{SortArcs} (r : Ring) : list RingArc :=
  merge_arcs (sort_arcs (concat (arcs_of <$> Segments r))).

(** ** Properties *)

(** The position [h] is drawn in the colour of [s]: an arc excludes its start. *)
Definition drawn (arcs : list RingArc) (h : Z) (s : ID) : Prop :=
  ∃ a, a ∈ arcs ∧ ra_Start a < h ≤ ra_End a ∧ ra_Shard a = s.

Lemma drawn_nil h s : ¬ drawn [] h s.
Proof. by intros (a & ?%elem_of_nil & _). Qed.

Lemma drawn_cons a arcs h s : drawn (a :: arcs) h s ↔ (ra_Start a < h ≤ ra_End a ∧ ra_Shard a = s) ∨ drawn arcs h s.
Proof.
  unfold drawn. setoid_rewrite elem_of_cons. split.
  - intros (x & [->|Hx] & ? & ?); [by left|right; eauto].
  - intros [[? ?]|(x & ? & ? & ?)]; eauto 6.
Qed.

Lemma drawn_app l1 l2 h s : drawn (l1 ++ l2) h s ↔ drawn l1 h s ∨ drawn l2 h s.
Proof.
  induction l1 as [|a l1 IH]; simpl; [pose proof (drawn_nil h s); tauto|]. rewrite !drawn_cons, IH. tauto.
Qed.

Lemma drawn_perm l1 l2 h s : l1 ≡ₚ l2 → drawn l1 h s ↔ drawn l2 h s.
Proof. intros Hp. unfold drawn. by setoid_rewrite Hp. Qed.

(** Merging does not change what is drawn. *)
Lemma merge_drawn arcs merged h s :
  Sorted start_le arcs → (∀ m a, m ∈ merged → a ∈ arcs → start_le m a) →
  drawn (foldl merge_step merged arcs) h s ↔ drawn (arcs ++ merged) h s.
Proof.
  revert merged. induction arcs as [|a arcs IH]; intros merged Hs Hle; [done|].
  assert (∀ b, b ∈ arcs → start_le a b) as Ha.
  { apply Sorted_StronglySorted in Hs; [|intros x y z; unfold start_le; lia]. inversion Hs as [|? ? _ Hall].
    by rewrite Forall_forall in Hall. }
  apply Sorted_inv in Hs as [Hs _]. cbn [foldl]. rewrite IH; [|done|].
  - rewrite <- app_comm_cons, drawn_cons, !drawn_app. unfold merge_step.
    destruct merged as [|m rest]; [rewrite drawn_cons; tauto|].
    destruct (String.eqb_spec (ra_Shard m) (ra_Shard a)) as [E|E]; cbn [andb]; [|rewrite drawn_cons; tauto].
    destruct (Z.leb_spec (ra_Start a) (ra_End m)) as [Ht|Ht]; [|rewrite drawn_cons; tauto].
    assert (start_le m a) as Hma by (apply Hle; by left). unfold start_le in Hma.
    destruct (Z.ltb_spec (ra_End m) (ra_End a)); rewrite !drawn_cons; cbn [ra_Start ra_End ra_Shard]; rewrite <- E; split.
    + intros [?|[[? ?]|?]]; [by right; left| |by right; right; right].
      destruct (Z.le_gt_cases h (ra_End m)); [right; right; left; split; [lia|done]|left; split; [lia|done]].
    + intros [[? ?]|[?|[[? ?]|?]]]; [right; left; split; [lia|done]|by left|right; left; split; [lia|done]|by right; right].
    + intros [?|[?|?]]; [by right; left|by right; right; left|by right; right; right].
    + intros [[? ?]|[?|[?|?]]]; [right; left; split; [lia|done]|by left|by right; left|by right; right].
  - intros m b Hm Hb. specialize (Ha b Hb). unfold start_le in *. unfold merge_step in Hm.
    destruct merged as [|m0 rest]; [apply list_elem_of_singleton in Hm as ->; done|].
    assert (ra_Start m0 ≤ ra_Start b) as H0 by (apply Hle; [by left|by right]).
    destruct (_ && _).
    + apply elem_of_cons in Hm as [->|Hm]; [by destruct (_ <? _)|]. apply Hle; by right.
    + apply elem_of_cons in Hm as [->|Hm]; [done|]. apply Hle; [done|by right].
Qed.

Lemma drawn_reverse l h s : drawn (reverse l) h s ↔ drawn l h s.
Proof. apply drawn_perm, reverse_Permutation. Qed.

Lemma ringArcs_drawn `{SortArcs} r h s : drawn (ringArcs r) h s ↔ ∃ g, g ∈ Segments r ∧ drawn (arcs_of g) h s.
Proof.
  unfold ringArcs, merge_arcs. rewrite drawn_reverse, merge_drawn; [|apply sort_arcs_sorted|by intros m a ?%elem_of_nil].
  rewrite app_nil_r, (drawn_perm _ _ _ _ (sort_arcs_perm _)). induction (Segments r) as [|g l IH].
  - split; [by intros ?%drawn_nil|by intros (g & ?%elem_of_nil & _)].
  - rewrite fmap_cons. cbn [concat]. rewrite drawn_app, IH. setoid_rewrite elem_of_cons. split.
    + intros [?|(g' & ? & ?)]; eauto.
    + intros (g' & [->|?] & ?); eauto.
Qed.

(** A segment between two positions is drawn where it is. *)
Lemma arcs_of_in_arc g h s :
  in_u32 (s_Start g) → in_u32 (s_End g) → s_Start g ≠ s_End g → in_u32 h → 0 < h →
  drawn (arcs_of g) h s ↔ in_arc h g ∧ s = s_Shard g.
Proof.
  intros Hs He Hne Hh Hpos.
  assert (∀ y, in_u32 y → clockwise h y = if h <=? y then y - h else y - h + 2 ^ 32) as Hd.
  { intros y Hy. destruct (Z.leb_spec h y); [by apply clockwise_ahead|apply clockwise_behind; done || lia]. }
  unfold in_arc. rewrite !Hd by done. unfold in_u32 in *. unfold arcs_of, drawn, turn.
  destruct (Z.ltb_spec (s_End g) (s_Start g)).
  - split.
    + intros (a & Ha & Hr & <-). repeat (apply elem_of_cons in Ha as [->|Ha]; simpl in *; [split; [|done]; repeat case_match; lia|]).
      by apply elem_of_nil in Ha.
    + intros [Hin ->]. destruct (Z.leb_spec h (s_End g)) as [Hle|Hgt].
      * eexists. split; [right; left|]. simpl. split; [lia|done].
      * eexists. split; [left|]. simpl. split; [|done]. revert Hin. case_match; lia.
  - split.
    + intros (a & ->%list_elem_of_singleton & Hr & <-). simpl in *. split; [|done]. repeat case_match; lia.
    + intros [Hin ->]. eexists. split; [left|]. simpl. split; [|done]. revert Hin. repeat case_match; lia.
Qed.

(** The drawn ring is the real placement.  On a ring of at least two virtual nodes,
    none of which collide, every position but 0 lies in an arc, and an account is drawn
    in the colour of exactly the shard that [Lookup] sends it to: splitting the arc that
    wraps and merging neighbours change nothing. *)
Theorem ringArcs_owner `{SortSlice, SortArcs} ss vn key s :
  ss ≠ [] → distinct_positions vn ss → (2 ≤ length (points (NewRing ss vn)))%nat → 0 < ringAngle key →
  drawn (ringArcs (NewRing ss vn)) (ringAngle key) s ↔ s = Lookup (NewRing ss vn) key.
Proof.
  intros Hne Hd H2 Hpos. destruct (Segments_owner ss vn key Hne Hd) as (Hex & Hall & _). set (r := NewRing ss vn) in *.
  assert (∀ x, x ∈ points r → in_u32 (p_hash x)) as Hu
    by (intros x; unfold r; rewrite points_NewRing; apply all_points_u32).
  assert (NoDup (p_hash <$> points r)) as Hnd by (unfold r; by rewrite points_NewRing).
  assert (∀ g, g ∈ Segments r → drawn (arcs_of g) (ringAngle key) s ↔ in_arc (hashKey key) g ∧ s = s_Shard g) as Hg.
  { intros g [i Hg]%list_elem_of_lookup. destruct (Segments_lookup r i g Hg) as (p & q & Hp & Hq & ->).
    apply arcs_of_in_arc; simpl.
    - apply Hu. by eapply list_elem_of_lookup_2.
    - apply Hu. by eapply list_elem_of_lookup_2.
    - intros E. assert (pred (if (i =? 0)%nat then length (points r) else i) = i) as Ei.
      { eapply (NoDup_lookup (p_hash <$> points r)); [done| |]; rewrite list_lookup_fmap; [by rewrite Hq|]. rewrite Hp. simpl. by rewrite E. }
      apply lookup_lt_Some in Hp. destruct (Nat.eqb_spec i 0); lia.
    - apply hashKey_u32.
    - done. }
  rewrite ringArcs_drawn. split.
  - intros (g & Hin & [Harc ->]%Hg); [|done]. symmetry. by apply Hall.
  - intros ->. destruct Hex as (g & Hin & Harc). exists g. split; [done|]. apply Hg; [done|]. split; [done|]. by apply Hall.
Qed.

Lemma ringArcs_owner_witness :
  let r := @NewRing merge_SortSlice ["s1"; "s2"] 3 in drawn (ringArcs r) (ringAngle "alice") (Lookup r "alice").
Proof.
  apply (ringArcs_owner (H := merge_SortSlice) ["s1"; "s2"] 3 "alice" _ ltac:(discriminate)
           ltac:(apply (bool_decide_unpack _); vm_compute; reflexivity) ltac:(vm_compute; lia) ltac:(by vm_compute)).
  reflexivity.
Defined.
