(* ===== verification/Storage.v ===== *)
(** * Durable storage (src/storage)

    Framed records, the write-ahead log with its torn-tail recovery, the
    applied-index file, the snapshot record, and the atomic replacement of a
    file.  Files are byte lists on a disk keyed by path.

    [writeFileAtomic] runs on a file system with a page cache ([fs]): what is
    written to a file is volatile until [fsync], what is done to the directory until
    the directory is synced, and a crash ([crash]) keeps any part of the pending
    directory changes and leaves anything in a file that was not synced.  Each of its
    calls can fail.  [Save] and [SaveSnapshot] on a [disk] are the effect of a call in
    which nothing fails, as the running process sees it ([writeFileAtomic_cached]). *)

From S2P Require Import Prelude GoLib.

Local Open Scope nat_scope.

Definition headerSize : nat := 8.
Definition maxRecordSize : Z := Z.shiftl 64 20.

(** ** Framed records (storage.go) *)

Definition frame_header (payload : bytes) : bytes :=
  le_put 4 (u32 (Z.of_nat (length payload))) ++ le_put 4 (ChecksumIEEE payload).

Definition frameRecord (payload : bytes) : bytes := frame_header payload ++ payload.

(** [readFramedFile] on the contents of an existing file; [None] is the nil
    payload that stands for "no state". *)
Definition readFramed (data : bytes) : option bytes :=
  if length data <? headerSize then None
  else
    let len := le_get (take 4 data) in
    let want := le_get (take 4 (drop 4 data)) in
    if (maxRecordSize <? len)%Z || negb (len =? Z.of_nat (length data - headerSize))%Z then None
    else
      let payload := drop headerSize data in
      if negb (ChecksumIEEE payload =? want)%Z then None else Some payload.

(** ** The write-ahead log (storage.go) *)

(** The file and the tracked write position. *)
Record WAL := mkWAL { wal_file : bytes; wal_offset : nat }.

(** [Open] positions at the end of the file. *)
Definition Open (contents : bytes) : WAL := mkWAL contents (length contents).

(** [WriteAt]: overwrite from [off], extending the file (with zeros up to [off]). *)
Definition WriteAt (file : bytes) (off : nat) (data : bytes) : bytes :=
  take off file ++ replicate (off - length file) Byte.x00 ++ data ++ drop (off + length data) file.

(** [Append]; [None] is the error for a record that is too large. *)
Definition Append (payload : bytes) (w : WAL) : option WAL :=
  if (maxRecordSize <? Z.of_nat (length payload))%Z then None
  else
    let rec := frameRecord payload in
    Some (mkWAL (WriteAt (wal_file w) (wal_offset w) rec) (wal_offset w + length rec)).

(** The loop of [ReadAll] over the unread bytes: the intact records and the
    length they occupy.  A record takes at least a header, so the length of the
    file bounds the number of iterations. *)
Fixpoint read_records (fuel : nat) (r : bytes) (acc : list bytes) (offset : nat) : list bytes * nat :=
  match fuel with
  | O => (acc, offset)
  | S fuel =>
      match ReadFull headerSize r with
      | inl _ => (acc, offset)
      | inr (hdr, r) =>
          let len := le_get (take 4 hdr) in
          let want := le_get (drop 4 hdr) in
          if (maxRecordSize <? len)%Z then (acc, offset)
          else
            match ReadFull (Z.to_nat len) r with
            | inl _ => (acc, offset)
            | inr (payload, r) =>
                if negb (ChecksumIEEE payload =? want)%Z then (acc, offset)
                else read_records fuel r (acc ++ [payload]) (offset + headerSize + Z.to_nat len)
            end
      end
  end.

Definition ReadAll (w : WAL) : WAL * list bytes :=
  let data := take (wal_offset w) (wal_file w) in
  let (records, offset) := read_records (S (length data)) data [] 0 in
  let file := if offset =? wal_offset w then wal_file w else take offset (wal_file w) in
  (mkWAL file offset, records).

Definition Truncate (w : WAL) : WAL := mkWAL [] 0.

(** ** The applied-index file (applied.go) *)

Definition appliedRecordSize : nat := 12.

Definition applied_record (index : Z) : bytes :=
  let idx := le_put 8 index in idx ++ le_put 4 (ChecksumIEEE idx).

Definition AppliedFile_Save (index : Z) (file : bytes) : bytes :=
  WriteAt file 0 (applied_record index).

Definition AppliedFile_Load (file : bytes) : Z :=
  if length file <? appliedRecordSize then 0%Z
  else
    let rec := take appliedRecordSize file in
    let idx := le_get (take 8 rec) in
    let want := le_get (drop 8 rec) in
    if negb (ChecksumIEEE (take 8 rec) =? want)%Z then 0%Z else idx.

(** ** Snapshot records (raftstate.go) *)

Definition encodeSnapshotRecord (index term : Z) (data : bytes) : bytes :=
  le_put 8 index ++ le_put 8 term ++ le_put 8 (Z.of_nat (length data))
  ++ le_put 4 (ChecksumIEEE data) ++ data.

Definition decodeSnapshotRecord (raw : bytes) : option (Z * Z * bytes) :=
  if length raw <? 28 then None
  else
    let index := le_get (take 8 raw) in
    let term := le_get (take 8 (drop 8 raw)) in
    let n := le_get (take 8 (drop 16 raw)) in
    let sum := le_get (take 4 (drop 24 raw)) in
    if negb (Z.of_nat (length raw - 28) =? n)%Z then None
    else
      let body := drop 28 raw in
      if negb (ChecksumIEEE body =? sum)%Z then None else Some (index, term, body).

(** ** Files on disk and atomic replacement (atomic.go, raftstate.go) *)

Abbreviation disk := (gmap string bytes).

(** A file: its contents as the process sees them, and whether they still have to
    reach the disk. *)
Record inode := mkInode { i_data : bytes; i_dirty : bool }.

(** Changes of the directory: a file created, one renamed over another name, a name
    removed. *)
Inductive dirop :=
  | Link (name : string) (i : nat)
  | Move (src dst : string) (i : nat)
  | Unlink (name : string).

Definition apply_dirop (dir : gmap string nat) (o : dirop) : gmap string nat :=
  match o with
  | Link name i => <[name:=i]> dir
  | Move src dst i => <[dst:=i]> (delete src dir)
  | Unlink name => delete name dir
  end.

Definition apply_dirops (ops : list dirop) (dir : gmap string nat) : gmap string nat :=
  foldl apply_dirop dir ops.

(** The directory as the process sees it, the directory on disk with the changes
    that have not reached it, and the files. *)
Record fs := mkFs {
  f_dir : gmap string nat;
  f_disk : gmap string nat;
  f_pend : list dirop;
  f_inodes : gmap nat inode;
  f_next : nat
}.

Definition change_dir (o : dirop) (f : fs) : fs :=
  mkFs (apply_dirop (f_dir f) o) (f_disk f) (f_pend f ++ [o]) (f_inodes f) (f_next f).

Definition set_inode (i : nat) (ino : inode) (f : fs) : fs :=
  mkFs (f_dir f) (f_disk f) (f_pend f) (<[i:=ino]> (f_inodes f)) (f_next f).

(** The calls: [os.CreateTemp] makes an empty file, [Write] appends to it, [Sync]
    brings its contents to disk, [os.Rename] and [os.Remove] change the directory. *)
Definition create_file (name : string) (f : fs) : fs :=
  change_dir (Link name (f_next f))
    (mkFs (f_dir f) (f_disk f) (f_pend f) (<[f_next f:=mkInode [] true]> (f_inodes f)) (S (f_next f))).

Definition write_file (i : nat) (data : bytes) (f : fs) : fs :=
  match f_inodes f !! i with
  | Some ino => set_inode i (mkInode (i_data ino ++ data) true) f
  | None => f
  end.

Definition fsync (i : nat) (f : fs) : fs :=
  match f_inodes f !! i with
  | Some ino => set_inode i (mkInode (i_data ino) false) f
  | None => f
  end.

Definition rename_file (src dst : string) (f : fs) : fs :=
  match f_dir f !! src with
  | Some i => change_dir (Move src dst i) f
  | None => f
  end.

Definition remove_file (name : string) (f : fs) : fs := change_dir (Unlink name) f.

(** [syncDir] reports no error, whether the directory could be synced ([ok]) or not. *)
Definition syncDir (ok : bool) (f : fs) : fs :=
  if ok then mkFs (f_dir f) (f_dir f) [] (f_inodes f) (f_next f) else f.

(** What the process reads. *)
Definition cached (f : fs) : disk := omap (λ i, i_data <$> f_inodes f !! i) (f_dir f).

(** What a crash leaves: of the pending changes of the directory those that [keep]
    chooses, and in a file with unsynced contents [junk]. *)
Fixpoint kept (keep : list bool) (ops : list dirop) {struct ops} : list dirop :=
  match ops, keep with
  | o :: ops, true :: keep => o :: kept keep ops
  | _ :: ops, false :: keep => kept keep ops
  | _, _ => []
  end.

Definition crash_dir (keep : list bool) (f : fs) : gmap string nat :=
  apply_dirops (kept keep (f_pend f)) (f_disk f).

Definition crash (keep : list bool) (junk : nat → bytes) (f : fs) : disk :=
  omap (λ i, (λ ino, if i_dirty ino then junk i else i_data ino) <$> f_inodes f !! i) (crash_dir keep f).

(** The calls of [writeFileAtomic] that fail, with their errors; a failing write
    gets some bytes out first. *)
Record faults := mkFaults {
  ft_create : option string;
  ft_write : option (nat * string);
  ft_sync : option string;
  ft_close : option string;
  ft_rename : option string;
  ft_dirsync : bool                (** the directory sync goes through *)
}.

Definition no_faults : faults := mkFaults None None None None None true.

(** The states passed through, the last one, and the error. *)
Record written := mkWritten { wr_trace : list fs; wr_fs : fs; wr_err : option string }.

(** The temporary file [os.CreateTemp] makes beside [path]; [rnd] is its choice. *)
Definition temp_name (path rnd : string) : string := path +:+ ".tmp" +:+ rnd.

Definition writeFileAtomic (path rnd : string) (data : bytes) (ft : faults) (f : fs) : written :=
  match ft_create ft with
  | Some e => mkWritten [f] f (Some ("storage: create temp: " +:+ e))
  | None =>
      let tmp := temp_name path rnd in
      let i := f_next f in
      let created := create_file tmp f in
      match ft_write ft with
      | Some (n, e) =>
          let partial := write_file i (take n data) created in
          mkWritten [f; created; partial; remove_file tmp partial] (remove_file tmp partial)
            (Some ("storage: write temp: " +:+ e))
      | None =>
          let filled := write_file i data created in
          match ft_sync ft with
          | Some e =>
              mkWritten [f; created; filled; remove_file tmp filled] (remove_file tmp filled)
                (Some ("storage: fsync temp: " +:+ e))
          | None =>
              let synced := fsync i filled in
              match ft_close ft with
              | Some e =>
                  mkWritten [f; created; filled; synced; remove_file tmp synced] (remove_file tmp synced)
                    (Some ("storage: close temp: " +:+ e))
              | None =>
                  match ft_rename ft with
                  | Some e =>
                      mkWritten [f; created; filled; synced; remove_file tmp synced] (remove_file tmp synced)
                        (Some ("storage: rename into place: " +:+ e))
                  | None =>
                      let renamed := rename_file tmp path synced in
                      let last := syncDir (ft_dirsync ft) renamed in
                      mkWritten [f; created; filled; synced; renamed; last] last None
                  end
              end
          end
      end
  end.

(** The effect on the files the process sees, when nothing fails. *)
Definition replace_file (path tmp : string) (data : bytes) (d : disk) : disk :=
  <[path:=data]> (delete tmp (<[tmp:=data]> d)).

(** [RaftState]: the path of the state file and of the applied-index file. *)
Record RaftState := mkRaftState { rs_path : string; rs_applied : option string }.

Definition OpenRaftState (path : string) (applied : option string) : RaftState :=
  mkRaftState path applied.

Definition Save (r : RaftState) (tmp : string) (state : bytes) (d : disk) : disk :=
  replace_file (rs_path r) tmp (frameRecord state) d.

(** [Save] on the file system, with the calls that fail. *)
Definition Save_fs (r : RaftState) (rnd : string) (state : bytes) (ft : faults) (f : fs) : written :=
  writeFileAtomic (rs_path r) rnd (frameRecord state) ft f.

Definition Load (r : RaftState) (d : disk) : option bytes :=
  data ← d !! rs_path r; readFramed data.

Definition SaveApplied (r : RaftState) (index : Z) (d : disk) : disk :=
  match rs_applied r with
  | None => d
  | Some p => <[p:=AppliedFile_Save index (default [] (d !! p))]> d
  end.

Definition LoadApplied (r : RaftState) (d : disk) : Z :=
  match rs_applied r with
  | None => 0%Z
  | Some p => AppliedFile_Load (default [] (d !! p))
  end.

Definition snapshotPath (r : RaftState) : string := rs_path r +:+ ".snapshot".

Definition SaveSnapshot (r : RaftState) (tmp : string) (index term : Z) (data : bytes) (d : disk) : disk :=
  replace_file (snapshotPath r) tmp (encodeSnapshotRecord index term data) d.

Definition LoadSnapshot (r : RaftState) (d : disk) : option (Z * Z * bytes) :=
  raw ← d !! snapshotPath r; decodeSnapshotRecord raw.

(** ** Records *)

Lemma length_frame_header p : length (frame_header p) = headerSize.
Proof. unfold frame_header. by rewrite length_app, !length_le_put. Qed.

Lemma header_length p rest :
  le_get (take 4 (frame_header p ++ rest)) = u32 (Z.of_nat (length p)).
Proof.
  unfold frame_header. rewrite <- app_assoc, take_app_length' by (by rewrite length_le_put).
  rewrite le_get_put4. apply u32_small, u32_range.
Qed.

Lemma header_checksum p rest :
  le_get (take 4 (drop 4 (frame_header p ++ rest))) = ChecksumIEEE p.
Proof.
  unfold frame_header. rewrite <- app_assoc, drop_app_length' by (by rewrite length_le_put).
  rewrite take_app_length' by (by rewrite length_le_put).
  rewrite le_get_put4. apply u32_small, ChecksumIEEE_u32.
Qed.

(** What the format can carry. *)
Definition fits (p : bytes) : Prop := (Z.of_nat (length p) ≤ maxRecordSize)%Z.

Lemma fits_u32 p : fits p → u32 (Z.of_nat (length p)) = Z.of_nat (length p).
Proof.
  unfold fits, maxRecordSize. intros Hp. apply u32_small. unfold in_u32.
  change (Z.shiftl 64 20) with 67108864%Z in Hp. lia.
Qed.

Lemma readFramed_frame p :
  readFramed (frameRecord p)
  = if (maxRecordSize <? u32 (Z.of_nat (length p)))%Z
       || negb (u32 (Z.of_nat (length p)) =? Z.of_nat (length p))%Z
    then None else Some p.
Proof.
  unfold readFramed, frameRecord. rewrite length_app, length_frame_header.
  destruct (Nat.ltb_spec (headerSize + length p) headerSize); [lia|].
  rewrite header_length, header_checksum.
  replace (headerSize + length p - headerSize) with (length p) by lia.
  rewrite drop_app_length' by (by rewrite length_frame_header). rewrite Z.eqb_refl. simpl. done.
Qed.

(** ** Replacing a file on a file system that crashes *)

Definition dirop_inode (o : dirop) : option nat :=
  match o with Link _ i | Move _ _ i => Some i | Unlink _ => None end.

(** The cached directory is the one on disk with the pending changes, and the next
    file number is new. *)
Record fs_ok (f : fs) : Prop := {
  fo_dir : f_dir f = apply_dirops (f_pend f) (f_disk f);
  fo_disk : ∀ name i, f_disk f !! name = Some i → i < f_next f;
  fo_pend : ∀ o i, o ∈ f_pend f → dirop_inode o = Some i → i < f_next f
}.

Lemma apply_dirops_app ops ops' dir :
  apply_dirops (ops ++ ops') dir = apply_dirops ops' (apply_dirops ops dir).
Proof. apply foldl_app. Qed.

Lemma kept_app keep ops ops' :
  kept keep (ops ++ ops') = kept keep ops ++ kept (drop (length ops) keep) ops'.
Proof.
  revert keep. induction ops as [|o ops IH]; intros keep; [done|]. destruct keep as [|[] keep]; simpl.
  - by destruct ops'.
  - by rewrite IH.
  - by rewrite IH.
Qed.

Lemma kept_all ops : kept (replicate (length ops) true) ops = ops.
Proof. induction ops as [|o ops IH]; simpl; [done|by rewrite IH]. Qed.

Lemma kept_subset keep ops o : o ∈ kept keep ops → o ∈ ops.
Proof.
  revert keep. induction ops as [|o' ops IH]; intros keep; [done|]. destruct keep as [|[] keep]; simpl.
  - by intros ?%elem_of_nil.
  - rewrite !elem_of_cons. intros [?|?]; eauto.
  - rewrite elem_of_cons. eauto.
Qed.

(** Names come from the disk or from a change. *)
Lemma apply_dirops_inodes (P : nat → Prop) ops dir :
  (∀ name i, dir !! name = Some i → P i) → (∀ o i, o ∈ ops → dirop_inode o = Some i → P i) →
  ∀ name i, apply_dirops ops dir !! name = Some i → P i.
Proof.
  revert dir. induction ops as [|o ops IH]; intros dir Hd Ho; [done|].
  apply IH; [|intros o' i ?; apply Ho; by right]. intros name i. destruct o as [n j|n n' j|n]; simpl.
  - intros [[_ <-]|[_ ?]]%lookup_insert_Some; [by eapply (Ho (Link n j)); [left|]|eauto].
  - intros [[_ <-]|[_ [_ ?]%lookup_delete_Some]]%lookup_insert_Some; [by eapply (Ho (Move n n' j)); [left|]|eauto].
  - intros [_ ?]%lookup_delete_Some. eauto.
Qed.

Lemma crash_dir_old f keep name i : fs_ok f → crash_dir keep f !! name = Some i → i < f_next f.
Proof.
  intros Hok. apply (apply_dirops_inodes (λ i, i < f_next f)); [apply (fo_disk _ Hok)|].
  intros o j Ho. apply (fo_pend _ Hok). by eapply kept_subset.
Qed.

Lemma cached_dir_old f name i : fs_ok f → f_dir f !! name = Some i → i < f_next f.
Proof.
  intros Hok. rewrite (fo_dir _ Hok). apply (apply_dirops_inodes (λ i, i < f_next f)); [apply (fo_disk _ Hok)|apply (fo_pend _ Hok)].
Qed.

Lemma change_dir_ok o f :
  fs_ok f → (∀ i, dirop_inode o = Some i → i < f_next f) → fs_ok (change_dir o f).
Proof.
  intros [Hd Hk Hp] Ho. split; simpl; [by rewrite apply_dirops_app, <- Hd|done|].
  intros o' i [?| ->%list_elem_of_singleton]%elem_of_app; [by eapply Hp|auto].
Qed.

Lemma set_inode_ok i ino f : fs_ok f → fs_ok (set_inode i ino f).
Proof. by intros [Hd Hk Hp]. Qed.

Lemma create_file_ok name f : fs_ok f → fs_ok (create_file name f).
Proof.
  intros [Hd Hk Hp]. apply change_dir_ok; [|intros i [= <-]; simpl; lia]. split; simpl; [done|..].
  - intros n i Hi. specialize (Hk n i Hi). lia.
  - intros o i Ho Hi. specialize (Hp o i Ho Hi). lia.
Qed.

Lemma syncDir_ok ok f : fs_ok f → fs_ok (syncDir ok f).
Proof.
  intros Hok. destruct ok; [|done]. split; simpl; [done| |by intros ? ? ?%elem_of_nil].
  intros name i. by apply cached_dir_old.
Qed.

(** The states [writeFileAtomic] passes through up to the directory sync: the file
    it made, and changes of the directory that concern the temporary name only or
    rename it over [path], which happens with the contents on disk. *)
Definition own_change (path tmp : string) (i : nat) (full : Prop) (o : dirop) : Prop :=
  match o with
  | Link n j => n = tmp ∧ j = i
  | Move n n' j => n = tmp ∧ n' = path ∧ j = i ∧ full
  | Unlink n => n = tmp
  end.

Definition during (path tmp : string) (data : bytes) (moved : bool) (f f' : fs) : Prop :=
  f_disk f' = f_disk f ∧
  ∃ ino ops, f_inodes f' = <[f_next f:=ino]> (f_inodes f) ∧ f_pend f' = f_pend f ++ ops ∧
    Forall (own_change path tmp (f_next f) (moved = true ∧ ino = mkInode data false)) ops.

(** After its changes a name other than the temporary one is what it was, or it is
    [path] and leads to the new file with its contents on disk. *)
Lemma own_changes path tmp i full ops dir name :
  Forall (own_change path tmp i full) ops → name ≠ tmp →
  apply_dirops ops dir !! name = dir !! name ∨
  name = path ∧ full ∧ apply_dirops ops dir !! name = Some i.
Proof.
  intros Hops Hn. revert dir. induction Hops as [|o ops Ho _ IH]; intros dir; [by left|].
  destruct (IH (apply_dirop dir o)) as [E|?]; [|by right].
  change (apply_dirops (o :: ops) dir) with (apply_dirops ops (apply_dirop dir o)). rewrite E.
  destruct o as [n j|n n' j|n]; simpl in *.
  - destruct Ho as [-> ->]. left. by rewrite lookup_insert_ne.
  - destruct Ho as (-> & -> & -> & Hf). destruct (base.decide (name = path)) as [->|Hne].
    + right. by rewrite lookup_insert_eq.
    + left. by rewrite lookup_insert_ne, lookup_delete_ne.
  - subst n. left. by rewrite lookup_delete_ne.
Qed.

Lemma crash_frame f f' keep junk name ino :
  fs_ok f → f_inodes f' = <[f_next f:=ino]> (f_inodes f) →
  crash_dir keep f' !! name = crash_dir keep f !! name → crash keep junk f' !! name = crash keep junk f !! name.
Proof.
  intros Hok Hi Hd. unfold crash. rewrite !lookup_omap, Hd.
  destruct (crash_dir keep f !! name) as [i|] eqn:Ei; [simpl|done].
  apply crash_dir_old in Ei; [|done]. by rewrite Hi, lookup_insert_ne by lia.
Qed.

(** So a crash in such a state leaves, under every other name, what a crash before
    would have left, or the complete new contents under [path]. *)
Lemma during_crash path tmp data moved f f' keep junk name :
  fs_ok f → during path tmp data moved f f' → name ≠ tmp →
  crash keep junk f' !! name = crash keep junk f !! name ∨
  moved = true ∧ name = path ∧ crash keep junk f' !! name = Some data.
Proof.
  intros Hok (Hdisk & ino & ops & Hino & Hpend & Hops) Hn.
  assert (crash_dir keep f' = apply_dirops (kept (drop (length (f_pend f)) keep) ops) (crash_dir keep f)) as Hd.
  { unfold crash_dir. by rewrite Hdisk, Hpend, kept_app, apply_dirops_app. }
  destruct (own_changes path tmp (f_next f) (moved = true ∧ ino = mkInode data false)
              (kept (drop (length (f_pend f)) keep) ops) (crash_dir keep f) name)
    as [E|(-> & (Hm & Hfull) & E)]; [|done|..].
  - apply Forall_forall. intros o Ho%kept_subset. by eapply Forall_forall in Hops.
  - left. eapply crash_frame; [done..|]. by rewrite Hd.
  - right. split; [done|]. split; [done|]. unfold crash. rewrite lookup_omap, Hd, E. simpl.
    rewrite Hino, lookup_insert_eq, Hfull. done.
Qed.

(** What the process sees then. *)
Lemma cached_frame f f' name ino :
  fs_ok f → f_inodes f' = <[f_next f:=ino]> (f_inodes f) →
  f_dir f' !! name = f_dir f !! name → cached f' !! name = cached f !! name.
Proof.
  intros Hok Hi Hd. unfold cached. rewrite !lookup_omap, Hd.
  destruct (f_dir f !! name) as [i|] eqn:Ei; [simpl|done].
  apply cached_dir_old in Ei; [|done]. by rewrite Hi, lookup_insert_ne by lia.
Qed.

(** The states of a call, named. *)
Section Call.
Context (path rnd : string) (data : bytes) (f : fs).

Local Abbreviation tmp := (temp_name path rnd).
Local Abbreviation id := (f_next f).

Definition with_temp (ino : inode) : fs :=
  mkFs (<[tmp:=id]> (f_dir f)) (f_disk f) (f_pend f ++ [Link tmp id]) (<[id:=ino]> (f_inodes f)) (S id).

Definition removed (ino : inode) : fs :=
  mkFs (delete tmp (<[tmp:=id]> (f_dir f))) (f_disk f)
    (f_pend f ++ [Link tmp id; Unlink tmp]) (<[id:=ino]> (f_inodes f)) (S id).

Definition renamed : fs :=
  mkFs (<[path:=id]> (delete tmp (<[tmp:=id]> (f_dir f)))) (f_disk f)
    (f_pend f ++ [Link tmp id; Move tmp path id]) (<[id:=mkInode data false]> (f_inodes f)) (S id).

Lemma created_temp : create_file tmp f = with_temp (mkInode [] true).
Proof. reflexivity. Qed.

Lemma written_temp ino bs :
  write_file id bs (with_temp ino) = with_temp (mkInode (i_data ino ++ bs) true).
Proof.
  unfold write_file, set_inode, with_temp. simpl. by rewrite lookup_insert_eq, insert_insert_eq.
Qed.

Lemma synced_temp ino : fsync id (with_temp ino) = with_temp (mkInode (i_data ino) false).
Proof.
  unfold fsync, set_inode, with_temp. simpl. by rewrite lookup_insert_eq, insert_insert_eq.
Qed.

Lemma renamed_temp : rename_file tmp path (with_temp (mkInode data false)) = renamed.
Proof. unfold rename_file, change_dir, with_temp, renamed. simpl. by rewrite lookup_insert_eq, <- app_assoc. Qed.

Lemma removed_temp ino : remove_file tmp (with_temp ino) = removed ino.
Proof. unfold remove_file, change_dir, with_temp, removed. simpl. by rewrite <- app_assoc. Qed.

(** Every state of a call, and how the call ends. *)
Lemma writeFileAtomic_states ft :
  let out := writeFileAtomic path rnd data ft f in
  (∀ f', f' ∈ wr_trace out →
     f' = f ∨ (∃ ino, f' = with_temp ino) ∨ (∃ ino, f' = removed ino) ∨ f' = renamed ∨
     f' = syncDir (ft_dirsync ft) renamed) ∧
  match wr_err out with
  | Some _ => wr_fs out = f ∨ ∃ ino, wr_fs out = removed ino
  | None => wr_fs out = syncDir (ft_dirsync ft) renamed
  end.
Proof.
  cbv zeta. unfold writeFileAtomic. destruct ft as [[|] [[]|] [|] [|] [|] ok]; simpl;
    rewrite ?created_temp, ?written_temp, ?synced_temp, ?removed_temp; cbn [app i_data]; rewrite ?renamed_temp;
    (split; [|eauto]); intros f' Hf'; rewrite !elem_of_cons, elem_of_nil in Hf'; destruct_or!; subst; eauto 6.
Qed.

End Call.

Lemma with_temp_during path rnd data f ino :
  during path (temp_name path rnd) data false f (with_temp path rnd f ino).
Proof.
  split; [done|]. exists ino, [Link (temp_name path rnd) (f_next f)]. split; [done|]. split; [done|].
  by repeat constructor.
Qed.

Lemma removed_during path rnd data f ino :
  during path (temp_name path rnd) data false f (removed path rnd f ino).
Proof.
  split; [done|]. eexists ino, _. split; [done|]. split; [done|]. by repeat constructor.
Qed.

Lemma renamed_during path rnd data f : during path (temp_name path rnd) data true f (renamed path rnd data f).
Proof.
  split; [done|]. eexists _, _. split; [done|]. split; [done|]. by repeat constructor.
Qed.

Lemma append_ne s c x : s +:+ String c x ≠ s.
Proof. induction s as [|a s IH]; simpl; [done|]. by intros [= H]. Qed.

Lemma temp_name_path path rnd : temp_name path rnd ≠ path.
Proof. apply append_ne. Qed.

Lemma temp_name_snapshot r rnd : temp_name (rs_path r) rnd ≠ snapshotPath r.
Proof. unfold temp_name, snapshotPath. intros H. apply String.app_inj in H. discriminate H. Qed.

Lemma snapshotPath_path r : snapshotPath r ≠ rs_path r.
Proof. apply append_ne. Qed.

(** With the directory synced a crash loses nothing of it. *)
Lemma synced_crash path rnd data f keep junk name :
  fs_ok f → name ≠ temp_name path rnd →
  crash keep junk (syncDir true (renamed path rnd data f)) !! name
  = if bool_decide (name = path) then Some data
    else crash (replicate (length (f_pend f)) true) junk f !! name.
Proof.
  intros Hok Hn. unfold crash at 1, crash_dir. simpl. destruct (kept keep []) eqn:Ek; [|by destruct keep].
  rewrite lookup_omap. case_bool_decide as Hp.
  - subst name. rewrite lookup_insert_eq. simpl. by rewrite lookup_insert_eq.
  - rewrite lookup_insert_ne, lookup_delete_ne, lookup_insert_ne by done.
    unfold crash, crash_dir. rewrite kept_all, <- (fo_dir _ Hok), lookup_omap.
    destruct (f_dir f !! name) as [i|] eqn:Ei; [simpl|done].
    apply cached_dir_old in Ei; [|done]. by rewrite lookup_insert_ne by lia.
Qed.

(** The general statement, for a file [name] other than the temporary one. *)
Lemma trace_crash path rnd data ft f f' keep junk :
  fs_ok f → f' ∈ wr_trace (writeFileAtomic path rnd data ft f) →
  ∃ keep0, ∀ name, name ≠ temp_name path rnd →
    crash keep junk f' !! name = crash keep0 junk f !! name ∨
    name = path ∧ crash keep junk f' !! name = Some data.
Proof.
  intros Hok Hf'. apply (proj1 (writeFileAtomic_states path rnd data f ft)) in Hf'.
  destruct Hf' as [->|[[ino ->]|[[ino ->]|[->| ->]]]].
  - exists keep. by left.
  - exists keep. intros name Hn. by destruct (during_crash _ _ _ _ _ _ keep junk name Hok (with_temp_during path rnd data f ino) Hn) as [|[? ?]]; [left|].
  - exists keep. intros name Hn. by destruct (during_crash _ _ _ _ _ _ keep junk name Hok (removed_during path rnd data f ino) Hn) as [|[? ?]]; [left|].
  - exists keep. intros name Hn. by destruct (during_crash _ _ _ _ _ _ keep junk name Hok (renamed_during path rnd data f) Hn) as [|[? ?]]; [left|right].
  - destruct (ft_dirsync ft).
    + eexists. intros name Hn. rewrite (synced_crash path rnd data f keep junk name Hok Hn).
      case_bool_decide; [by right|by left].
    + exists keep. intros name Hn. by destruct (during_crash _ _ _ _ _ _ keep junk name Hok (renamed_during path rnd data f) Hn) as [|[? ?]]; [left|right].
Qed.

Lemma writeFileAtomic_ok path rnd data ft f :
  fs_ok f → fs_ok (wr_fs (writeFileAtomic path rnd data ft f)).
Proof.
  intros Hok.
  assert (∀ ino, fs_ok (with_temp path rnd f ino)) as Ht.
  { intros ino. pose proof (set_inode_ok (f_next f) ino _ (create_file_ok (temp_name path rnd) f Hok)) as H.
    unfold create_file, change_dir, set_inode in H. simpl in H. by rewrite insert_insert_eq in H. }
  destruct (writeFileAtomic_states path rnd data f ft) as [_ Hend].
  destruct (wr_err _); [destruct Hend as [->|[ino ->]]; [done|]|rewrite Hend; apply syncDir_ok].
  - rewrite <- removed_temp. by apply change_dir_ok.
  - rewrite <- renamed_temp. unfold rename_file. simpl. rewrite lookup_insert_eq.
    apply change_dir_ok; [done|]. intros i [= <-]. simpl. lia.
Qed.

(** Nothing failing, the process sees the file replaced. *)
Lemma writeFileAtomic_cached path rnd data f :
  fs_ok f →
  cached (wr_fs (writeFileAtomic path rnd data no_faults f)) = replace_file path (temp_name path rnd) data (cached f).
Proof.
  intros Hok. destruct (writeFileAtomic_states path rnd data f no_faults) as [_ Hend].
  change (wr_err _) with (@None string) in Hend. cbv iota in Hend. rewrite Hend. apply map_eq. intros name. unfold replace_file, cached. rewrite lookup_omap. simpl.
  destruct (base.decide (name = path)) as [->|Hp].
  - rewrite !lookup_insert_eq. simpl. by rewrite lookup_insert_eq.
  - rewrite !(lookup_insert_ne _ path) by done. destruct (base.decide (name = temp_name path rnd)) as [->|Ht].
    + by rewrite !lookup_delete_eq.
    + rewrite !lookup_delete_ne, !lookup_insert_ne, lookup_omap by done.
      destruct (f_dir f !! name) as [i|] eqn:Ei; [simpl|done].
      apply cached_dir_old in Ei; [|done]. by rewrite lookup_insert_ne by lia.
Qed.

Lemma readFramed_fits state : fits state → readFramed (frameRecord state) = Some state.
Proof.
  intros Hfits. rewrite readFramed_frame, fits_u32, Z.eqb_refl by done.
  destruct (Z.ltb_spec maxRecordSize (Z.of_nat (length state))); [unfold fits in *; lia|done].
Qed.

Lemma cached_of_dir f path data :
  f_dir f !! path = Some (f_next f - 1) → f_inodes f !! (f_next f - 1) = Some (mkInode data false) →
  cached f !! path = Some data.
Proof. intros Hd Hi. unfold cached. rewrite lookup_omap, Hd. simpl. by rewrite Hi. Qed.

(** A [Save] without error whose directory sync went through is durable. *)
Lemma Save_durable r rnd state ft f keep junk :
  fs_ok f → fits state → wr_err (Save_fs r rnd state ft f) = None → ft_dirsync ft = true →
  Load r (crash keep junk (wr_fs (Save_fs r rnd state ft f))) = Some state.
Proof.
  unfold Save_fs. intros Hok Hfits He Hs.
  destruct (writeFileAtomic_states (rs_path r) rnd (frameRecord state) f ft) as [_ Hend].
  rewrite He in Hend. rewrite Hend, Hs. unfold Load.
  rewrite synced_crash, bool_decide_eq_true_2 by (done || apply not_eq_sym, temp_name_path).
  by apply readFramed_fits.
Qed.

(** C32: The persistent state survives a crash at any point of [Save], on a file
    system that keeps writes in a page cache.  For a state of at most 64 MiB:
    whatever step of the temp-write, fsync, rename and directory sync
    a crash interrupts, whichever pending directory changes it keeps and whatever it
    leaves in files that were not synced, loading afterwards gives the complete new
    state or what a crash before [Save] could have left, never a mixture, and the
    snapshot file is as such a crash would have left it.  When [Save] reports an
    error, the state is the old one, for the process and after a crash.  When it
    reports none, the process reads the new state, and if the directory sync went
    through every crash afterwards leaves the new state. *)
Theorem Save_crash_safe r rnd state ft f :
  fs_ok f → fits state →
  let out := Save_fs r rnd state ft f in
  (∀ f' keep junk, f' ∈ wr_trace out → ∃ keep0,
     (Load r (crash keep junk f') = Some state ∨ Load r (crash keep junk f') = Load r (crash keep0 junk f)) ∧
     LoadSnapshot r (crash keep junk f') = LoadSnapshot r (crash keep0 junk f)) ∧
  match wr_err out with
  | Some _ =>
      Load r (cached (wr_fs out)) = Load r (cached f) ∧
      ∀ keep junk, Load r (crash keep junk (wr_fs out)) = Load r (crash keep junk f)
  | None =>
      Load r (cached (wr_fs out)) = Some state ∧
      (ft_dirsync ft = true → ∀ keep junk, Load r (crash keep junk (wr_fs out)) = Some state)
  end ∧
  fs_ok (wr_fs out).
Proof.
  intros Hok Hfits out. pose proof (temp_name_path (rs_path r) rnd) as Hp.
  pose proof (readFramed_fits state Hfits) as Hrd.
  pose proof (λ keep junk, Save_durable r rnd state ft f keep junk Hok Hfits) as Hdur.
  split; [|split; [|by apply writeFileAtomic_ok]].
  - intros f' keep junk Hf'. destruct (trace_crash _ _ _ _ f f' keep junk Hok Hf') as [keep0 Hname].
    exists keep0. unfold Load, LoadSnapshot. split.
    + destruct (Hname (rs_path r)) as [->|[_ ->]]; [done|by right|by left].
    + destruct (Hname (snapshotPath r)) as [->|[E _]]; [by apply not_eq_sym, temp_name_snapshot|done|].
      by apply snapshotPath_path in E.
  - subst out. unfold Save_fs in *. destruct (writeFileAtomic_states (rs_path r) rnd (frameRecord state) f ft) as [_ Hend].
    unfold Load in *. destruct (wr_err _); [destruct Hend as [->|[ino ->]]; [done|]|rewrite Hend in *].
    + split.
      * erewrite cached_frame; [done..|]. simpl. by rewrite lookup_delete_ne, lookup_insert_ne.
      * intros keep junk.
        destruct (during_crash _ _ _ _ _ _ keep junk (rs_path r) Hok
                    (removed_during (rs_path r) rnd (frameRecord state) f ino)) as [->|[? _]]; [by apply not_eq_sym|done..].
    + split; [|by auto].
      destruct (ft_dirsync ft); (erewrite cached_of_dir; [exact Hrd|..]; simpl; rewrite Nat.sub_0_r;
        by rewrite lookup_insert_eq).
Qed.

(** [syncDir] swallows the error of a directory sync that failed: [Save] then reports
    success, the process reads the new state, and there is a crash after which the old
    one is loaded again. *)
Theorem syncDir_failure_ignored r rnd state old f :
  fs_ok f → fits state → (∀ keep junk, Load r (crash keep junk f) = Some old) →
  let out := Save_fs r rnd state (mkFaults None None None None None false) f in
  wr_err out = None ∧ Load r (cached (wr_fs out)) = Some state ∧
  ∃ keep junk, Load r (crash keep junk (wr_fs out)) = Some old.
Proof.
  intros Hok Hfits Hold out. split; [done|]. unfold out, Save_fs.
  destruct (writeFileAtomic_states (rs_path r) rnd (frameRecord state) f (mkFaults None None None None None false))
    as [_ Hend]. change (wr_err _) with (@None string) in Hend. cbv iota in Hend. rewrite Hend. unfold Load. split.
  - erewrite cached_of_dir; [by apply readFramed_fits|..]; simpl; rewrite Nat.sub_0_r; by rewrite lookup_insert_eq.
  - exists [], (λ _, []). erewrite crash_frame; [apply (Hold [])|done..|]. unfold crash_dir. simpl.
    assert (∀ ops, kept [] ops = []) as Hnil by (by intros []). by rewrite !Hnil.
Qed.

(** A state larger than 64 MiB is written and then read back as absent.
    [Save] does not check the size, [readFramedFile] treats a length above the
    record limit as "no state": a node whose term, vote and log encode to more
    than 64 MiB (and less than 4 GiB) comes back as if it had never run. *)
Theorem oversized_state_lost r tmp state (d : disk) :
  (maxRecordSize < Z.of_nat (length state) < 2 ^ 32)%Z → Load r (Save r tmp state d) = None.
Proof.
  intros [Hbig Hsmall]. unfold Load, Save, replace_file. rewrite lookup_insert_eq. simpl.
  rewrite readFramed_frame, u32_small by (unfold in_u32; lia).
  destruct (Z.ltb_spec maxRecordSize (Z.of_nat (length state))); [done|lia].
Qed.

(** ** The write-ahead log *)

Lemma read_record fuel p rest acc off :
  fits p →
  read_records (S fuel) (frameRecord p ++ rest) acc off
  = read_records fuel rest (acc ++ [p]) (off + length (frameRecord p)).
Proof.
  intros Hp. unfold frameRecord. rewrite <- app_assoc. cbn [read_records].
  rewrite (ReadFull_app headerSize) by apply length_frame_header.
  pose proof (header_length p []) as Hl. pose proof (header_checksum p []) as Hc.
  rewrite app_nil_r in Hl, Hc.
  rewrite (take_ge (drop 4 _)) in Hc
    by (rewrite length_drop, length_frame_header; unfold headerSize; lia).
  rewrite Hl, Hc, fits_u32 by done.
  destruct (Z.ltb_spec maxRecordSize (Z.of_nat (length p))); [unfold fits in *; lia|].
  rewrite Nat2Z.id, ReadFull_app by done. rewrite Z.eqb_refl. cbn [negb].
  rewrite length_app, length_frame_header. f_equal. lia.
Qed.

(** A record cut short is not a record. *)
Lemma read_torn fuel p torn missing acc off :
  fits p → frameRecord p = torn ++ missing → missing ≠ [] →
  read_records fuel torn acc off = (acc, off).
Proof.
  intros Hp Hcut Hm. destruct fuel as [|fuel]; [done|]. cbn [read_records].
  assert (length torn + length missing = headerSize + length p) as Hlen.
  { rewrite <- length_app, <- Hcut. unfold frameRecord. by rewrite length_app, length_frame_header. }
  assert (0 < length missing) by (destruct missing; simpl; [done|lia]).
  destruct (base.decide (length torn < headerSize)) as [Hs|Hs];
    [by rewrite ReadFull_short|].
  unfold frameRecord in Hcut.
  assert (take headerSize torn = frame_header p) as Hh.
  { apply (f_equal (take headerSize)) in Hcut.
    rewrite take_app_length' in Hcut by (by rewrite length_frame_header).
    by rewrite take_app_le in Hcut by lia. }
  rewrite <- (take_drop headerSize torn), Hh, ReadFull_app by apply length_frame_header.
  pose proof (header_length p []) as Hl. rewrite app_nil_r in Hl. rewrite Hl, fits_u32 by done.
  destruct (maxRecordSize <? _)%Z; [done|].
  rewrite ReadFull_short; [done|]. rewrite length_drop. lia.
Qed.

Lemma read_frames ps fuel torn acc off :
  Forall fits ps → length ps ≤ fuel →
  (∀ f a o, read_records f torn a o = (a, o)) →
  read_records fuel (concat (frameRecord <$> ps) ++ torn) acc off
  = (acc ++ ps, off + length (concat (frameRecord <$> ps))).
Proof.
  intros Hps. revert fuel acc off. induction Hps as [|p ps Hp _ IH]; intros fuel acc off Hf Ht;
    rewrite ?fmap_nil, ?fmap_cons; cbn [concat app].
  { rewrite Ht. by rewrite app_nil_r, Nat.add_0_r. }
  destruct fuel as [|fuel]; [simpl in Hf; lia|]. rewrite <- app_assoc, read_record by done.
  rewrite IH by (done || simpl in Hf; lia). rewrite <- app_assoc, length_app. simpl. f_equal. lia.
Qed.

Lemma length_frames ps : length ps ≤ length (concat (frameRecord <$> ps)).
Proof.
  induction ps as [|p ps IH]; [done|]. rewrite fmap_cons. cbn [concat length].
  rewrite length_app. unfold frameRecord at 1. rewrite length_app, length_frame_header. unfold headerSize. lia.
Qed.

(** A crash in the middle of an append loses only the record being
    appended.  If the file holds the complete records [ps] followed by any
    proper prefix of one more record, [ReadAll] returns exactly [ps], in order,
    truncates the torn tail away, and an [Append] after it yields a log that
    reads back as [ps] and the new record. *)
Theorem ReadAll_torn_append ps p q torn missing :
  Forall fits ps → fits p → fits q → frameRecord p = torn ++ missing → missing ≠ [] →
  let w := Open (concat (frameRecord <$> ps) ++ torn) in
  let w1 := (ReadAll w).1 in
  (ReadAll w).2 = ps ∧ wal_file w1 = concat (frameRecord <$> ps) ∧
  ∃ w2, Append q w1 = Some w2 ∧ (ReadAll w2).2 = ps ++ [q].
Proof.
  intros Hps Hp Hq Hcut Hm.
  set (body := concat (frameRecord <$> ps)).
  assert (∀ tl, (∀ f a o, read_records f tl a o = (a, o)) →
            ReadAll (Open (body ++ tl)) = (mkWAL body (length body), ps)) as Hread.
  { intros tl Htl. unfold ReadAll, Open. cbn [wal_file wal_offset]. rewrite take_ge by done.
    pose proof (length_frames ps). unfold body. rewrite read_frames; try done.
    2: { rewrite length_app. lia. }
    cbn [app Nat.add]. destruct (Nat.eqb_spec (length (concat (frameRecord <$> ps)))
                       (length (concat (frameRecord <$> ps) ++ tl))) as [He|_].
    - rewrite length_app in He. assert (tl = []) as -> by (destruct tl; simpl in *; [done|lia]).
      by rewrite app_nil_r.
    - by rewrite take_app_length. }
  cbv zeta. rewrite Hread by (intros f a o; by apply (read_torn f p torn missing)). cbn [fst snd wal_file].
  split; [done|]. split; [done|]. unfold Append.
  destruct (Z.ltb_spec maxRecordSize (Z.of_nat (length q))); [unfold fits in *; lia|].
  eexists. split; [done|]. cbn [wal_file wal_offset]. unfold WriteAt.
  rewrite take_ge, Nat.sub_diag, drop_ge by (rewrite ?length_app; lia). cbn [replicate app].
  rewrite app_nil_r. unfold ReadAll. cbn [wal_file wal_offset].
  rewrite <- length_app, take_ge by done.
  replace (body ++ frameRecord q) with (concat (frameRecord <$> (ps ++ [q])) ++ [])
    by (rewrite fmap_app, concat_app; csimpl; by rewrite !app_nil_r).
  rewrite read_frames; [done|apply Forall_app; split; [done|by apply Forall_singleton]
    |pose proof (length_frames (ps ++ [q])); rewrite app_nil_r; lia|].
  intros [|f] a o; [done|]. cbn [read_records]. by rewrite ReadFull_short by (simpl; unfold headerSize; lia).
Qed.

(** ** Snapshot and applied-index records *)

Lemma take8_put z rest : le_get (take 8 (le_put 8 z ++ rest)) = u64 z.
Proof. rewrite take_app_length' by (by rewrite length_le_put). apply le_get_put8. Qed.

Lemma drop_put n z rest : drop n (le_put n z ++ rest) = rest.
Proof. apply drop_app_length'. by rewrite length_le_put. Qed.

Lemma drop_put_more k n z rest : drop (n + k) (le_put n z ++ rest) = drop k rest.
Proof. by rewrite <- drop_drop, drop_put. Qed.

(** The fields of an encoded snapshot, followed by anything. *)
Lemma snapshot_fields index term data rest :
  let raw := encodeSnapshotRecord index term data ++ rest in
  le_get (take 8 raw) = u64 index ∧ le_get (take 8 (drop 8 raw)) = u64 term ∧
  le_get (take 8 (drop 16 raw)) = u64 (Z.of_nat (length data)) ∧
  le_get (take 4 (drop 24 raw)) = ChecksumIEEE data ∧ drop 28 raw = data ++ rest.
Proof.
  cbv zeta. unfold encodeSnapshotRecord. rewrite <- !app_assoc.
  split; [apply take8_put|]. split; [rewrite drop_put; apply take8_put|].
  split; [rewrite (drop_put_more 8 8), drop_put; apply take8_put|].
  split; [|by rewrite (drop_put_more 20 8), (drop_put_more 12 8), (drop_put_more 4 8), drop_put].
  rewrite (drop_put_more 16 8), (drop_put_more 8 8), drop_put.
  rewrite take_app_length' by (by rewrite length_le_put). rewrite le_get_put4.
  apply u32_small, ChecksumIEEE_u32.
Qed.

Lemma length_encodeSnapshotRecord index term data :
  length (encodeSnapshotRecord index term data) = 28 + length data.
Proof. unfold encodeSnapshotRecord. rewrite !length_app, !length_le_put. lia. Qed.

(** A snapshot record is restored whole or not at all.  The record of a
    snapshot decodes to its index, term and data; a proper prefix of it (a torn
    write) and a record with bytes appended to it both decode to "no
    snapshot". *)
Theorem snapshot_record_roundtrip index term data p q extra :
  in_u64 index → in_u64 term → in_u64 (Z.of_nat (length data)) →
  encodeSnapshotRecord index term data = p ++ q → q ≠ [] → extra ≠ [] →
  decodeSnapshotRecord (encodeSnapshotRecord index term data) = Some (index, term, data) ∧
  decodeSnapshotRecord p = None ∧
  decodeSnapshotRecord (encodeSnapshotRecord index term data ++ extra) = None.
Proof.
  intros Hi Ht Hn Hcut Hq Hx. pose proof (length_encodeSnapshotRecord index term data) as Hlen.
  assert (0 < length q) by (destruct q; [done|simpl; lia]).
  assert (0 < length extra) by (destruct extra; [done|simpl; lia]).
  unfold decodeSnapshotRecord. split_and!.
  - destruct (snapshot_fields index term data []) as (H1 & H2 & H3 & H4 & H5).
    rewrite !app_nil_r in *. rewrite H1, H2, H3, H4, H5, Hlen.
    destruct (Nat.ltb_spec (28 + length data) 28); [lia|].
    replace (28 + length data - 28) with (length data) by lia.
    rewrite (u64_small _ Hi), (u64_small _ Ht), (u64_small _ Hn), !Z.eqb_refl. done.
  - destruct (Nat.ltb_spec (length p) 28) as [|Hp]; [done|].
    destruct (snapshot_fields index term data []) as (_ & _ & H3 & _).
    rewrite app_nil_r, Hcut in H3. rewrite Hcut, length_app in Hlen.
    rewrite drop_app_le, take_app_le in H3 by (rewrite ?length_drop; lia).
    rewrite H3, u64_small by done.
    destruct (Z.eqb_spec (Z.of_nat (length p - 28)) (Z.of_nat (length data))); [lia|done].
  - destruct (snapshot_fields index term data extra) as (_ & _ & H3 & _).
    rewrite H3, length_app, Hlen, u64_small by done.
    destruct (Nat.ltb_spec (28 + length data + length extra) 28); [done|].
    destruct (Z.eqb_spec (Z.of_nat (28 + length data + length extra - 28)) (Z.of_nat (length data)));
      [lia|done].
Qed.

Lemma length_applied_record i : length (applied_record i) = appliedRecordSize.
Proof. unfold applied_record. by rewrite length_app, !length_le_put. Qed.

(** The applied index survives, and a first write that tears counts as
    nothing applied.  After [Save] the file loads the saved index whatever it
    held before; any proper prefix of a first record loads 0. *)
Theorem AppliedFile_roundtrip index file p q :
  in_u64 index → applied_record index = p ++ q → q ≠ [] →
  AppliedFile_Load (AppliedFile_Save index file) = index ∧ AppliedFile_Load p = 0%Z.
Proof.
  intros Hi Hcut Hq. split.
  - assert (AppliedFile_Save index file = applied_record index ++ drop appliedRecordSize file) as ->.
    { unfold AppliedFile_Save, WriteAt. by rewrite length_applied_record. }
    unfold AppliedFile_Load. rewrite length_app, length_applied_record.
    rewrite (take_app_length' (applied_record index)) by (by rewrite length_applied_record).
    destruct (Nat.ltb_spec (appliedRecordSize + length (drop appliedRecordSize file))
                appliedRecordSize); [lia|].
    unfold applied_record. rewrite take_app_length', drop_app_length' by (by rewrite length_le_put).
    rewrite le_get_put8, le_get_put4, (u32_small (ChecksumIEEE _)), Z.eqb_refl by apply ChecksumIEEE_u32.
    simpl. by apply u64_small.
  - unfold AppliedFile_Load. apply (f_equal length) in Hcut.
    rewrite length_applied_record, length_app in Hcut.
    assert (0 < length q) by (destruct q; [done|simpl; lia]).
    destruct (Nat.ltb_spec (length p) appliedRecordSize); [done|lia].
Qed.

(** ** Concrete runs *)

Definition st_sample : RaftState := OpenRaftState "/data/raft" (Some "/data/applied").

(** An empty directory, and the same after a first [Save]. *)
Definition empty_fs : fs := mkFs ∅ ∅ [] ∅ 0.

Definition saved_once : fs := wr_fs (Save_fs st_sample "1" [Byte.x01; Byte.x02] no_faults empty_fs).

Lemma empty_fs_ok : fs_ok empty_fs.
Proof. split; simpl; [done|by intros ? ? H; rewrite lookup_empty in H|by intros ? ? ?%elem_of_nil]. Qed.

Lemma saved_once_ok : fs_ok saved_once.
Proof. apply writeFileAtomic_ok, empty_fs_ok. Qed.

(** The first state is safe, the second one is read back. *)
Lemma Save_crash_safe_witness :
  (∀ keep junk, Load st_sample (crash keep junk saved_once) = Some [Byte.x01; Byte.x02]) ∧
  Load st_sample (cached (wr_fs (Save_fs st_sample "2" [Byte.x07] no_faults saved_once))) = Some [Byte.x07].
Proof.
  split.
  - refine (proj2 (proj1 (proj2 (Save_crash_safe st_sample "1" [Byte.x01; Byte.x02] no_faults empty_fs empty_fs_ok _))) eq_refl).
    vm_compute. congruence.
  - refine (proj1 (proj1 (proj2 (Save_crash_safe st_sample "2" [Byte.x07] no_faults saved_once saved_once_ok _)))).
    vm_compute. congruence.
Defined.

Lemma syncDir_failure_ignored_witness :
  ∃ keep junk,
    Load st_sample (crash keep junk (wr_fs (Save_fs st_sample "2" [Byte.x07]
      (mkFaults None None None None None false) saved_once))) = Some [Byte.x01; Byte.x02].
Proof.
  refine (proj2 (proj2 (syncDir_failure_ignored st_sample "2" [Byte.x07] [Byte.x01; Byte.x02] saved_once saved_once_ok _ _))).
  - vm_compute. congruence.
  - intros keep junk. apply Save_durable; [exact empty_fs_ok|vm_compute; congruence|reflexivity..].
Defined.

Lemma oversized_state_lost_witness :
  Load st_sample (Save st_sample "/data/tmp" (replicate (Z.to_nat 67108865) Byte.x00) ∅) = None.
Proof.
  apply oversized_state_lost. rewrite length_replicate, Z2Nat.id by lia.
  unfold maxRecordSize. change (Z.shiftl 64 20) with 67108864%Z. lia.
Defined.

Lemma ReadAll_torn_append_witness :
  (ReadAll (Open (concat (frameRecord <$> [[Byte.x01]; []]) ++ take 9 (frameRecord [Byte.x02; Byte.x03])))).2
  = [[Byte.x01]; []].
Proof.
  refine (proj1 (ReadAll_torn_append [[Byte.x01]; []] [Byte.x02; Byte.x03] [Byte.x04] _
                   (drop 9 (frameRecord [Byte.x02; Byte.x03])) _ _ _ _ _)).
  - repeat constructor; vm_compute; congruence.
  - vm_compute. congruence.
  - vm_compute. congruence.
  - symmetry. apply take_drop.
  - vm_compute. congruence.
Defined.

Lemma snapshot_record_roundtrip_witness :
  decodeSnapshotRecord (encodeSnapshotRecord 7 2 [Byte.x05]) = Some (7%Z, 2%Z, [Byte.x05]) ∧
  decodeSnapshotRecord (take 28 (encodeSnapshotRecord 7 2 [Byte.x05])) = None.
Proof.
  destruct (snapshot_record_roundtrip 7 2 [Byte.x05] (take 28 (encodeSnapshotRecord 7 2 [Byte.x05]))
              (drop 28 (encodeSnapshotRecord 7 2 [Byte.x05])) [Byte.x00]) as (H1 & H2 & _).
  - vm_compute. split; congruence.
  - vm_compute. split; congruence.
  - vm_compute. split; congruence.
  - symmetry. apply take_drop.
  - vm_compute. congruence.
  - congruence.
  - split; [exact H1|exact H2].
Defined.

Lemma AppliedFile_roundtrip_witness :
  AppliedFile_Load (AppliedFile_Save 9 (applied_record 1000)) = 9%Z ∧
  AppliedFile_Load (take 11 (applied_record 9)) = 0%Z.
Proof.
  apply (AppliedFile_roundtrip 9 (applied_record 1000) _ (drop 11 (applied_record 9))).
  - vm_compute. split; congruence.
  - symmetry. apply take_drop.
  - vm_compute. congruence.
Defined.
