(* ===== verification/TwoPC.v ===== *)
(** * Two-phase commit records and their encoding (src/shard/twopc.go) *)

From S2P Require Import Prelude GoLib Hlc Ledger LedgerInv LedgerCodec.

Local Open Scope Z_scope.

Abbreviation TxID := string (only parsing).
Abbreviation ID := string (only parsing).

(** [Phase] is a [uint8]; a snapshot may hold any of its values. *)
Definition PhaseNone : Z := 0.
Definition PhasePrepared : Z := 1.
Definition PhaseCommitted : Z := 2.
Definition PhaseAborted : Z := 3.

Definition Phase_String (p : Z) : string :=
  if p =? PhaseNone then "None"
  else if p =? PhasePrepared then "Prepared"
  else if p =? PhaseCommitted then "Committed"
  else if p =? PhaseAborted then "Aborted"
  else "Unknown".

(** [Op] is a [uint8]. *)
Definition OpPrepare : Z := 1.
Definition OpDecision : Z := 2.
Definition OpOutcome : Z := 3.
Definition OpSingle : Z := 4.

Record Command := mkCommand {
  sc_Op : Z;
  sc_TxID : TxID;
  sc_Ledger : Ledger.Command;
  sc_Commit : bool;
  sc_Debit : bool;
  sc_Participants : list ID;
  sc_Coordinator : ID
}.

Record TxRecord := mkTxRecord {
  tx_ID : TxID;
  tx_Phase : Z;
  tx_Cmd : Ledger.Command;
  tx_Debit : bool;
  tx_Participants : list ID;
  tx_Coordinator : ID;
  tx_Decided : bool;
  tx_Commit : bool
}.

#[global] Instance Command_eq_dec : EqDecision Command.
Proof. solve_decision. Defined.
#[global] Instance TxRecord_eq_dec : EqDecision TxRecord.
Proof. solve_decision. Defined.

(** The zero value of the ledger's command. *)
Definition zeroCommand : Ledger.Command := Ledger.mkCommand 0 "" "" "" 0 zeroTimestamp.

(** ** Encoding *)

(** The two length bytes [byte(n>>8), byte(n)]. *)
Definition be16 (n : Z) : bytes := [Z_byte (Z.shiftr n 8); Z_byte n].

Definition appendStr (buf : bytes) (s : string) : bytes :=
  buf ++ be16 (slen s) ++ str_bytes s.

Definition bool_byte (b : bool) : byte := if b then Byte.x01 else Byte.x00.

Definition Encode (c : Command) : bytes :=
  let buf := [Z_byte (sc_Op c)] in
  let buf := appendStr buf (sc_TxID c) in
  let buf := buf ++ [bool_byte (sc_Commit c)] in
  let buf := buf ++ [bool_byte (sc_Debit c)] in
  let buf := buf ++ be16 (Z.of_nat (length (sc_Participants c))) in
  let buf := foldl appendStr buf (sc_Participants c) in
  let buf := appendStr buf (sc_Coordinator c) in
  buf ++ LedgerCodec.Encode (sc_Ledger c).

Definition byte_at (data : bytes) (i : nat) : Z := byte_Z (default Byte.x00 (data !! i)).

(** [int(data[pos])<<8 | int(data[pos+1])] *)
Definition get_be16 (data : bytes) (pos : nat) : Z :=
  Z.lor (Z.shiftl (byte_at data pos) 8) (byte_at data (pos + 1)).

Definition readStr (data : bytes) (pos : nat) : string + string * nat :=
  if (length data <? pos + 2)%nat then inl "shard: truncated string header"
  else
    let n := Z.to_nat (get_be16 data pos) in
    let pos := (pos + 2)%nat in
    if (length data <? pos + n)%nat then inl "shard: truncated string body"
    else inr (bytes_str (take n (drop pos data)), (pos + n)%nat).

(** The loop over the participants. *)
Fixpoint readParts (n : nat) (data : bytes) (pos : nat) (acc : list ID) : string + list ID * nat :=
  match n with
  | O => inr (acc, pos)
  | S n =>
      match readStr data pos with
      | inl err => inl err
      | inr (p, pos') => readParts n data pos' (acc ++ [p])
      end
  end.

Definition DecodeCommand (data : bytes) : string + Command :=
  match data with
  | [] => inl "shard: empty command"
  | op :: _ =>
      match readStr data 1 with
      | inl err => inl err
      | inr (txid, pos) =>
          if (length data <? pos + 2)%nat then inl "shard: truncated command"
          else
            let commit := byte_at data pos =? 1 in
            let debit := byte_at data (pos + 1) =? 1 in
            let pos := (pos + 2)%nat in
            if (length data <? pos + 2)%nat then inl "shard: truncated participants"
            else
              let nParts := Z.to_nat (get_be16 data pos) in
              match readParts nParts data (pos + 2) [] with
              | inl err => inl err
              | inr (parts, pos) =>
                  match readStr data pos with
                  | inl err => inl err
                  | inr (coord, pos) =>
                      match LedgerCodec.Decode (drop pos data) with
                      | None => inl errBadEncoding
                      | Some lc => inr (mkCommand (byte_Z op) txid lc commit debit parts coord)
                      end
                  end
              end
      end
  end.

(** ** Round trip *)

Definition s_encodable (c : Command) : Prop :=
  in_u8 (sc_Op c) ∧ in_u16 (slen (sc_TxID c)) ∧ in_u16 (slen (sc_Coordinator c)) ∧
  in_u16 (Z.of_nat (length (sc_Participants c))) ∧
  Forall (λ p, in_u16 (slen p)) (sc_Participants c) ∧ encodable (sc_Ledger c).

Lemma be16_split n : in_u16 n → Z.lor (Z.shiftl (byte_Z (Z_byte (Z.shiftr n 8))) 8) (byte_Z (Z_byte n)) = n.
Proof.
  intros Hn. unfold in_u16 in Hn. rewrite !byte_Z_byte.
  rewrite (Z.mod_small (Z.shiftr n 8)).
  2: { rewrite Z.shiftr_div_pow2 by lia. split; [apply Z.div_pos; lia|].
       apply Z.div_lt_upper_bound; lia. }
  change 256 with (2 ^ 8). rewrite <- Z.land_ones by lia.
  rewrite <- Z.ldiff_ones_r by lia. rewrite Z.lor_comm.
  apply Z.bits_inj'. intros k Hk. rewrite Z.lor_spec, Z.land_spec, Z.ldiff_spec.
  destruct (Z.testbit n k), (Z.testbit (Z.ones 8) k); done.
Qed.

(** [data] continues with [bs] at [pos], then with [rest]. *)
Definition at_pos (data : bytes) (pos : nat) (bs rest : bytes) : Prop :=
  (pos ≤ length data)%nat ∧ drop pos data = bs ++ rest.

Lemma at_pos_step data pos x bs rest :
  at_pos data pos x (bs ++ rest) → at_pos data (pos + length x) bs rest.
Proof.
  intros [Hle Hd]. pose proof (f_equal length Hd) as Hl.
  rewrite length_drop, length_app in Hl. split; [lia|].
  by rewrite <- drop_drop, Hd, drop_app_length.
Qed.

Lemma at_pos_length data pos bs rest :
  at_pos data pos bs rest → length data = (pos + length bs + length rest)%nat.
Proof.
  intros [Hle Hd]. pose proof (f_equal length Hd) as Hl.
  rewrite length_drop, length_app in Hl. lia.
Qed.

Lemma byte_at_pos data pos b bs rest :
  at_pos data pos (b :: bs) rest → byte_at data pos = byte_Z b.
Proof.
  intros [_ Hd]. unfold byte_at. rewrite <- (Nat.add_0_r pos), <- lookup_drop, Hd. done.
Qed.

Lemma get_be16_at data pos n rest :
  in_u16 n → at_pos data pos (be16 n) rest → get_be16 data pos = n.
Proof.
  intros Hn Hat. unfold get_be16. unfold be16 in Hat.
  rewrite (byte_at_pos _ _ _ _ _ Hat).
  assert (at_pos data (pos + 1) [Z_byte n] rest) as Hat2.
  { apply (at_pos_step _ _ [Z_byte (Z.shiftr n 8)]). done. }
  rewrite (byte_at_pos _ _ _ _ _ Hat2). by apply be16_split.
Qed.

Definition str_field (s : string) : bytes := be16 (slen s) ++ str_bytes s.

Lemma readStr_at data pos s rest :
  in_u16 (slen s) → at_pos data pos (str_field s) rest →
  readStr data pos = inr (s, (pos + length (str_field s))%nat).
Proof.
  intros Hs Hat. pose proof (at_pos_length _ _ _ _ Hat) as Hlen. unfold str_field in *.
  assert (at_pos data pos (be16 (slen s)) (str_bytes s ++ rest)) as H1.
  { destruct Hat as [? Hd]. split; [done|]. by rewrite Hd, <- app_assoc. }
  pose proof (at_pos_step _ _ _ _ _ H1) as H2.
  rewrite length_app in *. change (length (be16 (slen s))) with 2%nat in *.
  unfold readStr. rewrite (get_be16_at _ _ _ _ Hs H1).
  destruct (Nat.ltb_spec (length data) (pos + 2)); [lia|].
  unfold slen. rewrite Nat2Z.id. rewrite length_str_bytes in *.
  destruct (Nat.ltb_spec (length data) (pos + 2 + String.length s)); [lia|].
  destruct H2 as [_ ->]. rewrite take_app_length' by (by rewrite length_str_bytes).
  rewrite bytes_str_bytes. f_equal. f_equal. lia.
Qed.

Lemma readParts_at ps data pos rest acc :
  Forall (λ p, in_u16 (slen p)) ps → at_pos data pos (concat (str_field <$> ps)) rest →
  readParts (length ps) data pos acc
  = inr (acc ++ ps, (pos + length (concat (str_field <$> ps)))%nat).
Proof.
  intros Hps. revert pos acc. induction Hps as [|p ps Hp _ IH]; intros pos acc Hat; csimpl.
  { by rewrite app_nil_r, Nat.add_0_r. }
  assert (at_pos data pos (str_field p) (concat (str_field <$> ps) ++ rest)) as H1.
  { destruct Hat as [? Hd]. split; [done|]. rewrite Hd, app_assoc. done. }
  rewrite (readStr_at _ _ _ _ Hp H1), IH by (by apply at_pos_step).
  rewrite <- app_assoc, length_app. simpl. f_equal. f_equal. lia.
Qed.

Lemma foldl_appendStr ps buf : foldl appendStr buf ps = buf ++ concat (str_field <$> ps).
Proof.
  revert buf. induction ps as [|p ps IH]; intros buf; csimpl; [by rewrite app_nil_r|].
  rewrite IH. unfold appendStr, str_field. by rewrite <- !app_assoc.
Qed.

(** The layout of an encoded command. *)
Lemma Encode_layout c :
  Encode c = [Z_byte (sc_Op c)] ++ str_field (sc_TxID c)
    ++ [bool_byte (sc_Commit c); bool_byte (sc_Debit c)]
    ++ be16 (Z.of_nat (length (sc_Participants c)))
    ++ concat (str_field <$> sc_Participants c)
    ++ str_field (sc_Coordinator c) ++ LedgerCodec.Encode (sc_Ledger c).
Proof.
  unfold Encode. rewrite foldl_appendStr. unfold appendStr, str_field.
  rewrite <- !app_assoc. done.
Qed.

#[local] Opaque readStr be16 get_be16 str_field LedgerCodec.Encode LedgerCodec.Decode.

Lemma bool_byte_read b : (byte_Z (bool_byte b) =? 1) = b.
Proof. by destruct b. Qed.

Lemma length_be16 n : length (be16 n) = 2%nat.
Proof. reflexivity. Qed.

Lemma DecodeCommand_Encode_self c : s_encodable c → DecodeCommand (Encode c) = inr c.
Proof.
  intros (Hop & Htx & Hco & Hn & Hps & Hled).
  assert (LedgerCodec.Decode (LedgerCodec.Encode (sc_Ledger c)) = Some (sc_Ledger c)) as Hdec
    by by apply Decode_Encode_self.
  pose proof (Encode_layout c) as Hdata. set (data := Encode c) in *.
  set (rest := LedgerCodec.Encode (sc_Ledger c)) in *.
  assert (at_pos data 0 [Z_byte (sc_Op c)] (drop 1 data)) as H0 by (rewrite Hdata; split; simpl; [lia|done]).
  assert (drop 1 data = str_field (sc_TxID c) ++ _) as E by (rewrite Hdata; reflexivity).
  rewrite E in H0. apply at_pos_step in H0.
  pose proof (at_pos_step _ _ _ _ _ H0) as H1. pose proof (at_pos_step _ _ _ _ _ H1) as H2.
  pose proof (at_pos_step _ _ _ _ _ H2) as H3. pose proof (at_pos_step _ _ _ _ _ H3) as H4.
  rewrite <- (app_nil_r rest) in H4. pose proof (at_pos_step _ _ _ _ _ H4) as [_ H5].
  pose proof (at_pos_step _ _ [bool_byte (sc_Commit c)] [bool_byte (sc_Debit c)] _ H1) as H1'.
  pose proof (at_pos_length _ _ _ _ H2) as Hlen. rewrite length_be16 in *.
  change (0 + length [Z_byte (sc_Op c)])%nat with 1%nat in *.
  change (length [bool_byte (sc_Commit c)]) with 1%nat in *.
  change (length [bool_byte (sc_Commit c); bool_byte (sc_Debit c)]) with 2%nat in *.
  unfold DecodeCommand. destruct data as [|op data'] eqn:Ed; [done|]. rewrite <- Ed in *.
  rewrite (readStr_at _ _ _ _ Htx H0), (byte_at_pos _ _ _ _ _ H1), (byte_at_pos _ _ _ _ _ H1').
  repeat match goal with |- context [Nat.ltb ?a ?b] => destruct (Nat.ltb_spec a b); [lia|] end.
  rewrite (get_be16_at _ _ _ _ Hn H2), Nat2Z.id, (readParts_at _ _ _ _ [] Hps H3).
  rewrite (readStr_at _ _ _ _ Hco H4), H5, app_nil_r, Hdec, !bool_byte_read.
  assert (op = Z_byte (sc_Op c)) as -> by (rewrite Ed in Hdata; simpl in Hdata; congruence).
  rewrite byte_Z_byte. unfold in_u8 in Hop. rewrite Z.mod_small by done. by destruct c.
Qed.

(** The two-phase records survive the log.  A sharded command within the
    layout's bounds (strings and participant lists shorter than 2^16, a ledger
    command its own encoding can carry) decodes from its encoding to itself:
    operation, transaction, decision, role, participants, coordinator and the
    whole ledger command. *)
Theorem DecodeCommand_Encode c : s_encodable c → DecodeCommand (Encode c) = inr c.
Proof. apply DecodeCommand_Encode_self. Qed.

Lemma DecodeCommand_Encode_witness :
  let c := mkCommand OpPrepare "tx1" (Ledger.mkCommand OpTransfer "k" "a" "b" 5 zeroTimestamp)
                     false true ["s1"; "s2"] "s1" in
  DecodeCommand (Encode c) = inr c.
Proof.
  cbv zeta. apply DecodeCommand_Encode. unfold s_encodable, encodable.
  repeat first [apply Forall_cons | apply Forall_nil | apply conj];
    vm_compute; repeat split; congruence.
Defined.
