(* ===== verification/ShardMachine.v ===== *)
(** * The shard state machine (src/shard/machine.go)

    The machine each shard's Raft group replicates: its ledger, the two-phase
    records, the single-shard results and the results by log index.  The map of
    record pointers is a map of records: every method works under the mutex and
    [Tx] hands out a copy.  [None] is the panic of the ledger. *)

From S2P Require Import Prelude GoLib Hlc Ledger LedgerInv LedgerCodec TwoPC.

Local Open Scope Z_scope.

Record Machine := mkMachine {
  m_ID : ID;
  m_State : Ledger.State;
  m_txs : gmap string TxRecord;
  m_results : gmap string Result;
  m_byIndex : gmap Z Result
}.

Definition NewMachine (id : ID) (st : Ledger.State) : Machine := mkMachine id st ∅ ∅ ∅.

Definition set_state (st : Ledger.State) (m : Machine) : Machine :=
  mkMachine (m_ID m) st (m_txs m) (m_results m) (m_byIndex m).

Definition set_tx (id : TxID) (rec : TxRecord) (m : Machine) : Machine :=
  mkMachine (m_ID m) (m_State m) (<[id:=rec]> (m_txs m)) (m_results m) (m_byIndex m).

Definition recordResult (key : string) (res : Result) (m : Machine) : Machine :=
  if bool_decide (key = "") then m
  else mkMachine (m_ID m) (m_State m) (m_txs m) (<[key:=res]> (m_results m)) (m_byIndex m).

Definition single_use_error (id : TxID) (phase : Z) : string :=
  "shard: transaction " +:+ id +:+ " is already " +:+ Phase_String phase
  +:+ "; transaction ids are single-use".

(** The part of [applyPrepare] after the duplicate check. *)
Definition vote (cmd : Command) (m : Machine) : Machine * Result :=
  let id := sc_TxID cmd in
  let led := sc_Ledger cmd in
  let (st, res) := if sc_Debit cmd
                   then PrepareDebit id (c_From led) (c_Amount led) (m_State m)
                   else PrepareCredit id (c_To led) (c_Amount led) (m_State m) in
  let rec := if r_OK res
             then mkTxRecord id PhasePrepared led (sc_Debit cmd) (sc_Participants cmd)
                             (sc_Coordinator cmd) false false
             else mkTxRecord id PhaseAborted led (sc_Debit cmd) [] "" true false in
  (set_tx id rec (set_state st m), res).

Definition applyPrepare (cmd : Command) (m : Machine) : Machine * Result :=
  match m_txs m !! sc_TxID cmd with
  | Some prev =>
      if tx_Decided prev || (tx_Phase prev =? PhaseCommitted) || (tx_Phase prev =? PhaseAborted)
      then (m, failed (single_use_error (sc_TxID cmd) (tx_Phase prev)))
      else if tx_Phase prev =? PhasePrepared then (m, succeeded 0)
      else vote cmd m
  | None => vote cmd m
  end.

Definition applyDecision (cmd : Command) (m : Machine) : Machine * Result :=
  let rec := default (mkTxRecord (sc_TxID cmd) PhaseNone (sc_Ledger cmd) (sc_Debit cmd) [] "" false false)
                     (m_txs m !! sc_TxID cmd) in
  let parts := match sc_Participants cmd with [] => tx_Participants rec | ps => ps end in
  let coord := if bool_decide (sc_Coordinator cmd = "") then tx_Coordinator rec
               else sc_Coordinator cmd in
  (set_tx (sc_TxID cmd) (mkTxRecord (tx_ID rec) (tx_Phase rec) (tx_Cmd rec) (tx_Debit rec)
                                    parts coord true (sc_Commit cmd)) m,
   succeeded 0).

Definition outcomeTimestamp (cmd : Command) (rec : TxRecord) : Timestamp :=
  if negb (IsZero (c_Timestamp (sc_Ledger cmd))) then c_Timestamp (sc_Ledger cmd)
  else c_Timestamp (tx_Cmd rec).

Definition unknown_outcome (id : TxID) : string :=
  "shard: outcome for unknown transaction " +:+ id +:+ "; this shard never prepared it".

(** Settle a record: the phase, the decision and what was decided. *)
Definition settle (rec : TxRecord) (commit : bool) : TxRecord :=
  mkTxRecord (tx_ID rec) (if commit then PhaseCommitted else PhaseAborted) (tx_Cmd rec)
             (tx_Debit rec) (tx_Participants rec) (tx_Coordinator rec) true commit.

Definition terminal (p : Z) : bool := (p =? PhaseCommitted) || (p =? PhaseAborted).

Definition applyOutcome (cmd : Command) (m : Machine) : option (Machine * Result) :=
  let id := sc_TxID cmd in
  match m_txs m !! id with
  | None => Some (m, failed (unknown_outcome id))
  | Some rec =>
      if terminal (tx_Phase rec) then Some (m, succeeded 0)
      else
        '(st, res) ←
          (if sc_Commit cmd then
             if tx_Debit rec then CommitDebit id (outcomeTimestamp cmd rec) (m_State m)
             else CommitCredit id (c_To (tx_Cmd rec)) (c_Amount (tx_Cmd rec))
                               (outcomeTimestamp cmd rec) (m_State m)
           else Some (AbortTx id (m_State m)));
        Some (set_tx id (settle rec (sc_Commit cmd)) (set_state st m), res)
  end.

(** A decoded command. *)
Definition apply_cmd (cmd : Command) (m : Machine) : option (Machine * Result) :=
  if sc_Op cmd =? OpSingle then
    '(st, res) ← Ledger.Apply (sc_Ledger cmd) (m_State m);
    Some (recordResult (c_IdempotencyKey (sc_Ledger cmd)) res (set_state st m), res)
  else if sc_Op cmd =? OpPrepare then Some (applyPrepare cmd m)
  else if sc_Op cmd =? OpDecision then Some (applyDecision cmd m)
  else if sc_Op cmd =? OpOutcome then applyOutcome cmd m
  else Some (m, failed "shard: unknown op").

Definition apply (data : bytes) (m : Machine) : option (Machine * Result) :=
  match DecodeCommand data with
  | inl err => Some (m, failed err)
  | inr cmd => apply_cmd cmd m
  end.

Definition Apply (data : bytes) (m : Machine) : option (Machine * Result) := apply data m.

Definition ApplyAt (index : Z) (data : bytes) (m : Machine) : option (Machine * Result) :=
  '(m', res) ← apply data m;
  Some (mkMachine (m_ID m') (m_State m') (m_txs m') (m_results m')
                  (<[index:=res]> (m_byIndex m')), res).

Definition AppliedResult (m : Machine) (index : Z) : Result :=
  default (succeeded 0) (m_byIndex m !! index).

Definition Tx (m : Machine) (id : TxID) : option TxRecord := m_txs m !! id.

(** [InDoubt], up to the order of the map iteration. *)
Definition InDoubt (m : Machine) : list TxID :=
  (filter (λ kv, tx_Phase kv.2 = PhasePrepared) (map_to_list (m_txs m))).*1.

(** [Decision]: [Some commit] when known. *)
Definition Decision (m : Machine) (id : TxID) : option bool :=
  match m_txs m !! id with
  | Some r => if tx_Decided r then Some (tx_Commit r) else None
  | None => None
  end.

Definition Result_of (m : Machine) (key : string) : option Result := m_results m !! key.

(** ** Machines a log can produce *)

(** Entries with the index they are applied at. *)
Fixpoint run_log (log : list (Z * bytes)) (m : Machine) : option Machine :=
  match log with
  | [] => Some m
  | (i, e) :: log => '(m', _) ← ApplyAt i e m; run_log log m'
  end.

(** The commands an entry can decode to carry [int64] amounts. *)
Definition wf_cmd (cmd : Command) : Prop := in_i64 (c_Amount (sc_Ledger cmd)).

Lemma DecodeCommand_wf data cmd : DecodeCommand data = inr cmd → wf_cmd cmd.
Proof.
  unfold DecodeCommand, wf_cmd. intros H. repeat case_match; simplify_eq. simpl.
  by eapply Decode_amount.
Qed.

