(* ===== verification/ShardInv.v ===== *)
(** * Invariants of the shard machine

    In every state a log can produce, a prepared debit has its funds on hold, a
    hold belongs to exactly one prepared debit, a credit leg that has been
    booked belongs to a settled transaction, and the ledger underneath is a
    reachable ledger.  No entry, corrupt or hostile, breaks it. *)

From S2P Require Import Prelude GoLib Hlc Ledger LedgerInv LedgerCodec TwoPC ShardMachine.

Local Open Scope Z_scope.

Definition promised_debit (rec : TxRecord) : Prop :=
  tx_Phase rec = PhasePrepared ∧ tx_Debit rec = true.

Definition promised_credit (rec : TxRecord) : Prop :=
  tx_Phase rec = PhasePrepared ∧ tx_Debit rec = false.

Definition hold_of (id : string) (rec : TxRecord) : Reserve :=
  mkReserve id (c_From (tx_Cmd rec)) (c_Amount (tx_Cmd rec)).

Record MInv (m : Machine) : Prop := {
  mi_ledger : LedgerInv.reachable (m_State m);
  mi_id : ∀ id rec, m_txs m !! id = Some rec → tx_ID rec = id;
  mi_hold : ∀ id rec, m_txs m !! id = Some rec → promised_debit rec →
    reserves (m_State m) !! id = Some (hold_of id rec);
  mi_held : ∀ id h, reserves (m_State m) !! id = Some h →
    ∃ rec, m_txs m !! id = Some rec ∧ promised_debit rec;
  mi_amount : ∀ id rec, m_txs m !! id = Some rec → in_i64 (c_Amount (tx_Cmd rec));
  mi_credit : ∀ id rec, m_txs m !! id = Some rec → promised_credit rec →
    0 < c_Amount (tx_Cmd rec) ∧ is_Some (balances (m_State m) !! c_To (tx_Cmd rec));
  mi_once : ∀ id p, applied (m_State m) !! internalKey id "credit" = Some p →
    ∃ rec, m_txs m !! id = Some rec ∧ terminal (tx_Phase rec) = true
}.

Lemma mi_Inv m : MInv m → Inv (m_State m).
Proof. intros [H _ _ _ _ _ _]. by apply reachable_Inv. Qed.

(** One ledger operation on behalf of transaction [id], and the new record. *)
Lemma MInv_step m o s' r id rec' :
  MInv m → wf_op o → exec o (m_State m) = Some (s', r) →
  (∀ j, j ≠ id → reserves s' !! j = reserves (m_State m) !! j) →
  (∀ j p, j ≠ id → applied s' !! internalKey j "credit" = Some p →
          applied (m_State m) !! internalKey j "credit" = Some p) →
  tx_ID rec' = id → in_i64 (c_Amount (tx_Cmd rec')) →
  (promised_debit rec' → reserves s' !! id = Some (hold_of id rec')) →
  (∀ h, reserves s' !! id = Some h → promised_debit rec') →
  (promised_credit rec' →
     0 < c_Amount (tx_Cmd rec') ∧ is_Some (balances s' !! c_To (tx_Cmd rec'))) →
  (∀ p, applied s' !! internalKey id "credit" = Some p → terminal (tx_Phase rec') = true) →
  MInv (set_tx id rec' (set_state s' m)).
Proof.
  intros Hm Hwf Hex Hrs Hap Hid Hamt Hd Hh Hc Ho.
  assert (∀ j rec, <[id:=rec']> (m_txs m) !! j = Some rec →
            (j = id ∧ rec = rec') ∨ (j ≠ id ∧ m_txs m !! j = Some rec)) as Hcase.
  { intros j rec [[<- <-]|[? ?]]%lookup_insert_Some; auto. }
  split; simpl.
  - eapply reach_step; [apply (mi_ledger _ Hm)|done|done].
  - intros j rec [[-> ->]|[? ?]]%Hcase; [done|by apply (mi_id _ Hm)].
  - intros j rec [[-> ->]|[? ?]]%Hcase Hp; [by apply Hd|]. rewrite Hrs by done.
    by apply (mi_hold _ Hm).
  - intros j h Hj. destruct (decide (j = id)) as [->|Hne].
    + exists rec'. split; [by apply lookup_insert_eq|by eapply Hh].
    + rewrite Hrs in Hj by done. destruct (mi_held _ Hm j h Hj) as (rec & ? & ?).
      exists rec. by rewrite lookup_insert_ne.
  - intros j rec [[-> ->]|[? ?]]%Hcase; [done|by eapply (mi_amount _ Hm)].
  - intros j rec [[-> ->]|[? Hj]]%Hcase Hp; [by apply Hc|].
    destruct (mi_credit _ Hm j rec Hj Hp) as [? ?]. split; [done|].
    by apply (exec_accounts o (m_State m) s' r _ (mi_Inv _ Hm)).
  - intros j p Hj. destruct (decide (j = id)) as [->|Hne].
    + exists rec'. split; [by apply lookup_insert_eq|by eapply Ho].
    + destruct (mi_once _ Hm j p) as (rec & ? & ?); [by eapply Hap|].
      exists rec. by rewrite lookup_insert_ne.
Qed.

(** The results tables are not part of it. *)
Lemma MInv_tables m rs bi :
  MInv m → MInv (mkMachine (m_ID m) (m_State m) (m_txs m) rs bi).
Proof. intros []; by split. Qed.

#[export] Hint Resolve MInv_tables : go.

(** An operation of a client touches no promise. *)
Lemma MInv_single m c s' r :
  MInv m → in_i64 (c_Amount c) → Ledger.Apply c (m_State m) = Some (s', r) →
  MInv (set_state s' m).
Proof.
  intros Hm Hwf Hex. pose proof (mi_Inv _ Hm) as Hinv.
  assert (reserves s' = reserves (m_State m)) as Hrs
    by apply (exec_holds (LApply c) _ _ r Hinv Hwf Hex).
  split; simpl; try (rewrite Hrs); try apply Hm.
  - by eapply (reach_step (LApply c)); [apply (mi_ledger _ Hm)| |].
  - intros id rec Hid Hp. destruct (mi_credit _ Hm id rec Hid Hp). split; [done|].
    by apply (exec_accounts (LApply c) (m_State m) s' r).
  - intros id p Hp.
    destruct (exec_internal (LApply c) _ _ r _ p Hinv Hwf Hex (internalKey_prefixed id "credit") Hp)
      as [?|(?&?&?&?&?&_)]; [|done]. by eapply (mi_once _ Hm).
Qed.

(** A transaction about which nothing is on file but perhaps a decision. *)
Definition unprepared (m : Machine) (id : string) : Prop :=
  ∀ rec, m_txs m !! id = Some rec →
    tx_Phase rec ≠ PhasePrepared ∧ terminal (tx_Phase rec) = false.

Lemma unprepared_no_hold m id : MInv m → unprepared m id → reserves (m_State m) !! id = None.
Proof.
  intros Hm Hu. destruct (reserves (m_State m) !! id) as [h|] eqn:Hh; [|done].
  destruct (mi_held _ Hm id h Hh) as (rec & Hrec & [Hp _]). by destruct (Hu rec Hrec).
Qed.

Lemma unprepared_no_credit m id : MInv m → unprepared m id →
  applied (m_State m) !! internalKey id "credit" = None.
Proof.
  intros Hm Hu. destruct (applied (m_State m) !! _) as [p|] eqn:Hp; [|done].
  destruct (mi_once _ Hm id p Hp) as (rec & Hrec & Ht). destruct (Hu rec Hrec). congruence.
Qed.

Lemma exec_internal_other o s s' r id p :
  Inv s → wf_op o → exec o s = Some (s', r) →
  (∀ a m ts, o ≠ LCommitCredit id a m ts) →
  applied s' !! internalKey id "credit" = Some p → applied s !! internalKey id "credit" = Some p.
Proof.
  intros Hinv Hwf Hex Hne Hp.
  destruct (exec_internal o s s' r _ p Hinv Hwf Hex (internalKey_prefixed id "credit") Hp)
    as [?|(tx & a & m & ts & -> & Hk)]; [done|].
  apply internalKey_inj in Hk as ->. by destruct (Hne a m ts).
Qed.

Lemma PrepareCredit_state tx a amt s s' r :
  PrepareCredit tx a amt s = (s', r) → r_OK r = true →
  s' = s ∧ 0 < amt ∧ is_Some (balances s !! a).
Proof.
  unfold PrepareCredit. destruct (Z.leb_spec amt 0); [by intros [= <- <-]|].
  destruct (balances s !! a) eqn:Hb; [|by intros [= <- <-]]. intros [= <- <-] _. eauto.
Qed.

(** A vote: any operation but a credit leg, before anything is promised. *)
Lemma MInv_prepare m o s' r id rec' :
  MInv m → unprepared m id → wf_op o → exec o (m_State m) = Some (s', r) →
  (∀ j a v ts, o ≠ LCommitCredit j a v ts) →
  (∀ j, j ≠ id → reserves s' !! j = reserves (m_State m) !! j) →
  tx_ID rec' = id → in_i64 (c_Amount (tx_Cmd rec')) →
  (promised_debit rec' → reserves s' !! id = Some (hold_of id rec')) →
  (∀ h, reserves s' !! id = Some h → promised_debit rec') →
  (promised_credit rec' →
     0 < c_Amount (tx_Cmd rec') ∧ is_Some (balances s' !! c_To (tx_Cmd rec'))) →
  MInv (set_tx id rec' (set_state s' m)).
Proof.
  intros Hm Hu Hwf Hex Hno. intros. pose proof (mi_Inv _ Hm) as Hinv.
  assert (∀ j p, applied s' !! internalKey j "credit" = Some p →
            applied (m_State m) !! internalKey j "credit" = Some p) as Hback
    by (intros j p; by apply (exec_internal_other o (m_State m) s' r)).
  apply (MInv_step m o s' r); try done; [by eauto|].
  intros p Hp%Hback. by rewrite (unprepared_no_credit m id Hm Hu) in Hp.
Qed.

Lemma MInv_vote cmd m :
  MInv m → wf_cmd cmd → unprepared m (sc_TxID cmd) → MInv (vote cmd m).1.
Proof.
  intros Hm Hwf Hu. unfold vote. pose proof (mi_Inv _ Hm) as Hinv.
  pose proof (unprepared_no_hold m _ Hm Hu) as Hnh.
  set (id := sc_TxID cmd) in *. set (led := sc_Ledger cmd) in *.
  destruct (sc_Debit cmd) eqn:Hdeb.
  - destruct (PrepareDebit id (c_From led) (c_Amount led) (m_State m)) as [s' r] eqn:Hp. simpl.
    set (o := LPrepareDebit id (c_From led) (c_Amount led)).
    assert (exec o (m_State m) = Some (s', r)) as Hex by (simpl; by rewrite Hp).
    pose proof (exec_holds o _ _ _ Hinv Hwf Hex) as Hrs. simpl in Hrs.
    apply (MInv_prepare m o s' r); rewrite ?Hrs; try done; destruct (r_OK r); try done;
      try (by intros [? ?]); intros; simplify_eq.
    + by rewrite lookup_insert_ne.
    + by rewrite lookup_insert_eq.
  - destruct (PrepareCredit id (c_To led) (c_Amount led) (m_State m)) as [s' r] eqn:Hp. simpl.
    set (o := LPrepareCredit id (c_To led) (c_Amount led)).
    assert (exec o (m_State m) = Some (s', r)) as Hex by (simpl; by rewrite Hp).
    pose proof (exec_holds o _ _ _ Hinv Hwf Hex) as Hrs. simpl in Hrs.
    apply (MInv_prepare m o s' r); rewrite ?Hrs; try done; destruct (r_OK r) eqn:Hok; try done;
      try (by intros [? ?]); intros; simplify_eq.
    by destruct (PrepareCredit_state _ _ _ _ _ _ Hp Hok) as (-> & ? & ?).
Qed.

Lemma MInv_applyPrepare cmd m : MInv m → wf_cmd cmd → MInv (applyPrepare cmd m).1.
Proof.
  intros Hm Hwf. unfold applyPrepare.
  destruct (m_txs m !! sc_TxID cmd) as [prev|] eqn:Hprev.
  - destruct (tx_Decided prev); simpl; [done|].
    destruct (terminal (tx_Phase prev)) eqn:Ht; unfold terminal in Ht; rewrite Ht; [done|].
    destruct (Z.eqb_spec (tx_Phase prev) PhasePrepared); [done|].
    apply MInv_vote; try done. intros rec Hrec. by simplify_eq.
  - apply MInv_vote; try done. intros rec Hrec. congruence.
Qed.

(** A change of the record that keeps its phase, role and command. *)
Lemma MInv_same_promise m id rec rec' :
  MInv m → m_txs m !! id = Some rec → tx_ID rec' = tx_ID rec → tx_Phase rec' = tx_Phase rec →
  tx_Cmd rec' = tx_Cmd rec → tx_Debit rec' = tx_Debit rec → MInv (set_tx id rec' m).
Proof.
  intros Hm Hrec Hid Hp Hc Hd.
  assert (∀ j r, <[id:=rec']> (m_txs m) !! j = Some r → ∃ r0, m_txs m !! j = Some r0 ∧
            tx_ID r = tx_ID r0 ∧ tx_Phase r = tx_Phase r0 ∧ tx_Cmd r = tx_Cmd r0 ∧
            tx_Debit r = tx_Debit r0) as Hold.
  { intros j r [[<- <-]|[? ?]]%lookup_insert_Some; [by exists rec|by exists r]. }
  assert (∀ j r, m_txs m !! j = Some r → ∃ r', <[id:=rec']> (m_txs m) !! j = Some r' ∧
            tx_Phase r' = tx_Phase r ∧ tx_Debit r' = tx_Debit r) as Hnew.
  { intros j r Hj. destruct (decide (j = id)) as [->|].
    - exists rec'. simplify_eq. by rewrite lookup_insert_eq.
    - exists r. by rewrite lookup_insert_ne. }
  split; simpl.
  - apply Hm.
  - intros j r (r0 & ? & -> & _)%Hold. by apply (mi_id _ Hm).
  - intros j r (r0 & Hr0 & _ & Hp0 & Hc0 & Hd0)%Hold [? ?].
    unfold hold_of. rewrite Hc0. apply (mi_hold _ Hm j r0 Hr0). unfold promised_debit. by rewrite <- Hp0, <- Hd0.
  - intros j h (r & Hr & Hpr & Hdr)%(mi_held _ Hm). destruct (Hnew j r Hr) as (r' & ? & Hp' & Hd').
    exists r'. unfold promised_debit. by rewrite Hp', Hd'.
  - intros j r (r0 & ? & _ & _ & -> & _)%Hold. by eapply (mi_amount _ Hm).
  - intros j r (r0 & Hr0 & _ & Hp0 & Hc0 & Hd0)%Hold [? ?]. rewrite Hc0.
    apply (mi_credit _ Hm j r0 Hr0). unfold promised_credit. by rewrite <- Hp0, <- Hd0.
  - intros j p (r & Hr & Ht)%(mi_once _ Hm). destruct (Hnew j r Hr) as (r' & ? & Hp' & _).
    exists r'. by rewrite Hp'.
Qed.

(** A record that promises nothing, for an unknown transaction. *)
Lemma MInv_new_decision m id rec' :
  MInv m → m_txs m !! id = None → tx_ID rec' = id → tx_Phase rec' = PhaseNone →
  in_i64 (c_Amount (tx_Cmd rec')) → MInv (set_tx id rec' m).
Proof.
  intros Hm Hno Hid Hp Hamt.
  assert (unprepared m id) as Hu by (intros ? ?; congruence).
  pose proof (unprepared_no_hold m id Hm Hu) as Hnh.
  pose proof (unprepared_no_credit m id Hm Hu) as Hnc.
  assert (∀ j, j ≠ id → <[id:=rec']> (m_txs m) !! j = m_txs m !! j) as Hoff
    by (intros; by rewrite lookup_insert_ne).
  split; simpl.
  - apply Hm.
  - intros j r [[<- <-]|[? ?]]%lookup_insert_Some; [done|by apply (mi_id _ Hm)].
  - intros j r [[<- <-]|[? ?]]%lookup_insert_Some [Hpp ?]; [by rewrite Hp in Hpp|].
    by apply (mi_hold _ Hm).
  - intros j h Hj. destruct (decide (j = id)) as [->|Hne]; [congruence|]. rewrite Hoff by done.
    by eapply (mi_held _ Hm).
  - intros j r [[<- <-]|[? ?]]%lookup_insert_Some; [done|by eapply (mi_amount _ Hm)].
  - intros j r [[<- <-]|[? ?]]%lookup_insert_Some [Hpp ?]; [by rewrite Hp in Hpp|].
    by eapply (mi_credit _ Hm).
  - intros j p Hj. destruct (decide (j = id)) as [->|Hne]; [congruence|]. rewrite Hoff by done.
    by eapply (mi_once _ Hm).
Qed.

Lemma MInv_applyDecision cmd m : MInv m → wf_cmd cmd → MInv (applyDecision cmd m).1.
Proof.
  intros Hm Hwf. unfold applyDecision. simpl.
  destruct (m_txs m !! sc_TxID cmd) as [rec|] eqn:Hrec; simpl.
  - by apply (MInv_same_promise m _ rec).
  - by apply MInv_new_decision.
Qed.

Lemma settle_terminal rec b : terminal (tx_Phase (settle rec b)) = true.
Proof. by destruct b. Qed.

Lemma settle_no_promise rec b :
  ¬ promised_debit (settle rec b) ∧ ¬ promised_credit (settle rec b).
Proof. split; intros [? _]; by destruct b. Qed.

(** Settling a transaction with a ledger operation of its own. *)
Lemma MInv_settle m o s' r id rec b :
  MInv m → m_txs m !! id = Some rec → wf_op o → exec o (m_State m) = Some (s', r) →
  (∀ j, j ≠ id → reserves s' !! j = reserves (m_State m) !! j) → reserves s' !! id = None →
  (∀ j a v ts, j ≠ id → o ≠ LCommitCredit j a v ts) →
  MInv (set_tx id (settle rec b) (set_state s' m)).
Proof.
  intros Hm Hrec Hwf Hex Hoff Hnone Hno. destruct (settle_no_promise rec b) as [Hnd Hnc].
  apply (MInv_step m o s' r); try done.
  - intros j p Hj. apply (exec_internal_other o (m_State m) s' r); eauto using mi_Inv.
  - exact (mi_id _ Hm id rec Hrec).
  - exact (mi_amount _ Hm id rec Hrec).
  - intros h Hh. congruence.
  - intros p _. apply settle_terminal.
Qed.

(** The ledger operation an outcome performs. *)
Definition outcome_op (cmd : Command) (rec : TxRecord) : lop :=
  if sc_Commit cmd then
    if tx_Debit rec then LCommitDebit (sc_TxID cmd) (outcomeTimestamp cmd rec)
    else LCommitCredit (sc_TxID cmd) (c_To (tx_Cmd rec)) (c_Amount (tx_Cmd rec))
                       (outcomeTimestamp cmd rec)
  else LAbortTx (sc_TxID cmd).

Lemma applyOutcome_exec cmd m rec :
  m_txs m !! sc_TxID cmd = Some rec → terminal (tx_Phase rec) = false →
  applyOutcome cmd m =
    ('(st, res) ← exec (outcome_op cmd rec) (m_State m);
     Some (set_tx (sc_TxID cmd) (settle rec (sc_Commit cmd)) (set_state st m), res)).
Proof.
  intros Hrec Ht. unfold applyOutcome, outcome_op. rewrite Hrec, Ht.
  destruct (sc_Commit cmd); [by destruct (tx_Debit rec)|done].
Qed.

(** Nothing is held for a transaction once its outcome has run. *)
Lemma outcome_releases cmd m rec s' r :
  MInv m → m_txs m !! sc_TxID cmd = Some rec → wf_op (outcome_op cmd rec) →
  exec (outcome_op cmd rec) (m_State m) = Some (s', r) →
  reserves s' = delete (sc_TxID cmd) (reserves (m_State m)).
Proof.
  intros Hm Hrec Hwf Hex. rewrite (exec_holds _ _ _ _ (mi_Inv _ Hm) Hwf Hex).
  unfold outcome_op. destruct (sc_Commit cmd); [|done].
  destruct (tx_Debit rec) eqn:Hd; [done|]. simpl. symmetry. apply delete_id.
  destruct (reserves (m_State m) !! sc_TxID cmd) as [h|] eqn:Hh; [|done].
  destruct (mi_held _ Hm _ h Hh) as (rec0 & ? & [_ Hd0]). simplify_eq. congruence.
Qed.

Lemma outcome_op_wf cmd m rec :
  MInv m → m_txs m !! sc_TxID cmd = Some rec → wf_op (outcome_op cmd rec).
Proof.
  intros Hm Hrec. unfold outcome_op. destruct (sc_Commit cmd), (tx_Debit rec); try done.
  by apply (mi_amount _ Hm (sc_TxID cmd)).
Qed.

Lemma applyOutcome_MInv cmd m :
  MInv m → ∃ m' r, applyOutcome cmd m = Some (m', r) ∧ MInv m'.
Proof.
  intros Hm. destruct (m_txs m !! sc_TxID cmd) as [rec|] eqn:Hrec.
  2: { unfold applyOutcome. rewrite Hrec. eauto. }
  destruct (terminal (tx_Phase rec)) eqn:Ht.
  { unfold applyOutcome. rewrite Hrec, Ht. eauto. }
  pose proof (outcome_op_wf cmd m rec Hm Hrec) as Hwf.
  destruct (exec_Inv _ _ (mi_Inv _ Hm) Hwf) as (s' & r & Hex & _).
  rewrite (applyOutcome_exec cmd m rec) by done. rewrite Hex. simpl.
  eexists _, _. split; [done|].
  pose proof (outcome_releases cmd m rec s' r Hm Hrec Hwf Hex) as Hrs.
  apply (MInv_settle m (outcome_op cmd rec) s' r); try done.
  - intros j Hj. rewrite Hrs. by rewrite lookup_delete_ne.
  - rewrite Hrs. by rewrite lookup_delete_eq.
  - intros j a v ts Hj. unfold outcome_op. destruct (sc_Commit cmd), (tx_Debit rec); congruence.
Qed.

Lemma apply_cmd_MInv cmd m :
  MInv m → wf_cmd cmd → ∃ m' r, apply_cmd cmd m = Some (m', r) ∧ MInv m'.
Proof.
  intros Hm Hwf. unfold apply_cmd.
  destruct (sc_Op cmd =? OpSingle).
  { destruct (exec_Inv (LApply (sc_Ledger cmd)) _ (mi_Inv _ Hm) Hwf) as (s' & r & Hex & _).
    simpl in Hex. rewrite Hex. simpl. eexists _, _. split; [done|].
    pose proof (MInv_single m _ s' r Hm Hwf Hex). unfold recordResult.
    case_bool_decide; [done|]. by apply (MInv_tables (set_state s' m)). }
  destruct (sc_Op cmd =? OpPrepare).
  { destruct (applyPrepare cmd m) as [m' r] eqn:E. exists m', r. split; [done|].
    pose proof (MInv_applyPrepare cmd m Hm Hwf) as H. by rewrite E in H. }
  destruct (sc_Op cmd =? OpDecision).
  { eexists _, _. split; [done|]. by apply MInv_applyDecision. }
  destruct (sc_Op cmd =? OpOutcome); [by apply applyOutcome_MInv|]. eauto.
Qed.

Lemma ApplyAt_MInv i data m :
  MInv m → ∃ m' r, ApplyAt i data m = Some (m', r) ∧ MInv m'.
Proof.
  intros Hm. unfold ApplyAt, apply. destruct (DecodeCommand data) as [err|cmd] eqn:Hd; simpl.
  - eexists _, _. split; [done|]. auto with go.
  - destruct (apply_cmd_MInv cmd m Hm (DecodeCommand_wf _ _ Hd)) as (m' & r & -> & Hm'). simpl.
    eexists _, _. split; [done|]. auto with go.
Qed.

Lemma run_log_MInv log m : MInv m → ∃ m', run_log log m = Some m' ∧ MInv m'.
Proof.
  revert m. induction log as [|[i e] log IH]; intros m Hm; simpl; [eauto|].
  destruct (ApplyAt_MInv i e m Hm) as (m' & r & -> & Hm'). simpl. by apply IH.
Qed.

Lemma MInv_new id : MInv (NewMachine id New).
Proof.
  split; simpl; try (intros *; rewrite lookup_empty; done). apply reach_New.
Qed.
