(* ===== verification/ShardProps.v ===== *)
(** * What a shard promises

    The claims about src/shard/machine.go: safety of every log, the binding
    force of a yes vote, finality of outcomes, and the cases in which the code
    does not keep what its comments say. *)

From S2P Require Import Prelude GoLib Hlc Ledger LedgerInv LedgerCodec TwoPC ShardMachine ShardInv.

Local Open Scope Z_scope.

(** ** Any log *)

Lemma elem_of_InDoubt m id :
  id ∈ InDoubt m ↔ ∃ rec, m_txs m !! id = Some rec ∧ tx_Phase rec = PhasePrepared.
Proof.
  unfold InDoubt. rewrite list_elem_of_fmap. split.
  - intros ([k rec] & -> & [Hp Hin]%list_elem_of_filter). apply elem_of_map_to_list in Hin.
    simpl in *. eauto.
  - intros (rec & Hrec & Hp). exists (id, rec). split; [done|].
    apply list_elem_of_filter. split; [done|]. by apply elem_of_map_to_list.
Qed.

(** C12: A shard survives any log with its promises intact.  Applying any list
    of entries (well-formed, corrupt, duplicated, out of protocol order) to a
    new shard machine never panics, and leaves a machine in which the ledger is
    a reachable ledger (so all of its invariants hold); the funds on hold are
    exactly those of the transactions prepared here as debits, each hold being
    against the account and for the amount of that transaction's command; and
    [InDoubt] lists exactly the prepared transactions. *)
Theorem shard_log_safe id log :
  ∃ m, run_log log (NewMachine id New) = Some m ∧ LedgerInv.reachable (m_State m) ∧
    (∀ tx h, reserves (m_State m) !! tx = Some h ↔
       ∃ rec, Tx m tx = Some rec ∧ promised_debit rec ∧ h = hold_of tx rec) ∧
    (∀ tx, tx ∈ InDoubt m ↔ ∃ rec, Tx m tx = Some rec ∧ tx_Phase rec = PhasePrepared).
Proof.
  destruct (run_log_MInv log _ (MInv_new id)) as (m & Hrun & Hm). exists m.
  split; [done|]. split; [apply Hm|]. split; [|apply elem_of_InDoubt].
  intros tx h. split.
  - intros Hh. destruct (mi_held _ Hm tx h Hh) as (rec & Hrec & Hp).
    exists rec. split_and!; try done. pose proof (mi_hold _ Hm tx rec Hrec Hp). congruence.
  - intros (rec & Hrec & Hp & ->). by apply (mi_hold _ Hm).
Qed.

(** ** Outcomes are final *)

(** The entry is an outcome for transaction [tx]. *)
Definition is_outcome (tx : string) (cmd : Command) : bool :=
  (sc_Op cmd =? OpOutcome) && bool_decide (sc_TxID cmd = tx).

Lemma txs_recordResult k r m : m_txs (recordResult k r m) = m_txs m.
Proof. unfold recordResult. by case_bool_decide. Qed.

Lemma applyPrepare_other cmd m tx rec :
  m_txs m !! tx = Some rec → tx_Phase rec = PhasePrepared ∨ terminal (tx_Phase rec) = true →
  m_txs (applyPrepare cmd m).1 !! tx = Some rec.
Proof.
  intros Hrec Hp. unfold applyPrepare.
  assert (sc_TxID cmd ≠ tx → m_txs (vote cmd m).1 !! tx = Some rec) as Hvote.
  { intros Hne. unfold vote. destruct (if sc_Debit cmd then _ else _) as [st res]. simpl.
    by rewrite lookup_insert_ne. }
  destruct (decide (sc_TxID cmd = tx)) as [Heq|Hne].
  - rewrite Heq, Hrec. destruct Hp as [Hp|Hp].
    + rewrite Hp. destruct (tx_Decided rec); done.
    + unfold terminal in Hp. rewrite <- orb_assoc, Hp, orb_true_r. done.
  - destruct (m_txs m !! sc_TxID cmd); [|by apply Hvote].
    repeat match goal with |- context [if ?b then _ else _] => destruct b; [done|] end.
    by apply Hvote.
Qed.

(** Only the outcome of a transaction can change the phase, the role or the
    command of its record once it is prepared or settled. *)
Lemma apply_cmd_keeps cmd m m' r tx rec :
  m_txs m !! tx = Some rec → tx_Phase rec = PhasePrepared ∨ terminal (tx_Phase rec) = true →
  is_outcome tx cmd = false ∨ terminal (tx_Phase rec) = true →
  apply_cmd cmd m = Some (m', r) →
  ∃ rec', m_txs m' !! tx = Some rec' ∧ tx_Phase rec' = tx_Phase rec ∧
    tx_Debit rec' = tx_Debit rec ∧ tx_Cmd rec' = tx_Cmd rec.
Proof.
  intros Hrec Hp Hno. unfold apply_cmd.
  destruct (sc_Op cmd =? OpSingle).
  { destruct (Ledger.Apply _ _) as [[st res]|]; [|done]. intros [= <- <-].
    rewrite txs_recordResult. by exists rec. }
  destruct (sc_Op cmd =? OpPrepare).
  { intros [= E]. pose proof (applyPrepare_other cmd m tx rec Hrec Hp) as H.
    rewrite E in H. by exists rec. }
  destruct (sc_Op cmd =? OpDecision).
  { unfold applyDecision. intros [= <- <-]. simpl.
    destruct (decide (sc_TxID cmd = tx)) as [->|Hne].
    - rewrite lookup_insert_eq, Hrec. simpl. by eexists.
    - rewrite lookup_insert_ne by done. by exists rec. }
  destruct (sc_Op cmd =? OpOutcome) eqn:Ho; [|intros [= <- <-]; by exists rec].
  unfold applyOutcome. destruct (decide (sc_TxID cmd = tx)) as [Heq|Hne].
  - destruct Hno as [Hno|Ht].
    + unfold is_outcome in Hno. by rewrite Ho, bool_decide_eq_true_2 in Hno.
    + rewrite Heq, Hrec, Ht. intros [= <- <-]. by exists rec.
  - destruct (m_txs m !! sc_TxID cmd) as [r0|]; [|intros [= <- <-]; by exists rec].
    destruct (terminal (tx_Phase r0)); [intros [= <- <-]; by exists rec|].
    intros ([st res] & _ & [= <- <-])%bind_Some. simpl. rewrite lookup_insert_ne by done.
    by exists rec.
Qed.

(** A log of decoded commands. *)
Fixpoint run_cmds (cmds : list Command) (m : Machine) : option Machine :=
  match cmds with
  | [] => Some m
  | c :: cmds => '(m', _) ← apply_cmd c m; run_cmds cmds m'
  end.

Lemma run_cmds_MInv cmds m :
  MInv m → Forall wf_cmd cmds → ∃ m', run_cmds cmds m = Some m' ∧ MInv m'.
Proof.
  intros Hm Hwf. revert m Hm. induction Hwf as [|c cmds Hc _ IH]; intros m Hm; simpl; [eauto|].
  destruct (apply_cmd_MInv c m Hm Hc) as (m' & r & -> & Hm'). simpl. by apply IH.
Qed.

Lemma run_cmds_keeps cmds m m' tx rec :
  m_txs m !! tx = Some rec → tx_Phase rec = PhasePrepared ∨ terminal (tx_Phase rec) = true →
  Forall (λ c, is_outcome tx c = false) cmds ∨ terminal (tx_Phase rec) = true →
  run_cmds cmds m = Some m' →
  ∃ rec', m_txs m' !! tx = Some rec' ∧ tx_Phase rec' = tx_Phase rec ∧
    tx_Debit rec' = tx_Debit rec ∧ tx_Cmd rec' = tx_Cmd rec.
Proof.
  revert m rec. induction cmds as [|c cmds IH]; intros m rec Hrec Hp Hno; simpl.
  { intros [= <-]. by exists rec. }
  intros ([m1 r1] & Hc & Hrun)%bind_Some.
  destruct (apply_cmd_keeps c m m1 r1 tx rec) as (rec1 & Hrec1 & Hp1 & Hd1 & Hc1); try done.
  { destruct Hno as [[? _]%Forall_cons|?]; auto. }
  destruct (IH m1 rec1 Hrec1) as (rec' & ? & ? & ? & ?); rewrite ?Hp1; try done.
  { destruct Hno as [[_ ?]%Forall_cons|?]; auto. }
  exists rec'. split_and!; congruence.
Qed.

(** What [applyOutcome] leaves behind. *)
Lemma applyOutcome_settled cmd m m' r rec :
  m_txs m !! sc_TxID cmd = Some rec → applyOutcome cmd m = Some (m', r) →
  ∃ rec', m_txs m' !! sc_TxID cmd = Some rec' ∧ terminal (tx_Phase rec') = true.
Proof.
  intros Hrec. unfold applyOutcome. rewrite Hrec. destruct (terminal (tx_Phase rec)) eqn:Ht.
  - intros [= <- <-]. by exists rec.
  - intros ([st res] & _ & [= <- <-])%bind_Some. simpl. rewrite lookup_insert_eq.
    eexists. split; [done|]. apply settle_terminal.
Qed.

(** C21: An outcome is applied at most once.  Once an outcome of a known
    transaction has been applied, then after any further commands whatever:
    the transaction is settled in the same phase for good, another outcome for
    it (of either kind) is acknowledged and changes nothing, and a prepare for
    it is refused and changes nothing.  No leg is ever booked twice and no
    settled transaction is reopened. *)
Theorem outcome_final tx o m m1 r rec cmds m2 :
  sc_TxID o = tx → m_txs m !! tx = Some rec → applyOutcome o m = Some (m1, r) →
  run_cmds cmds m1 = Some m2 →
  ∃ rec1 rec2, Tx m1 tx = Some rec1 ∧ Tx m2 tx = Some rec2 ∧
    tx_Phase rec2 = tx_Phase rec1 ∧ terminal (tx_Phase rec2) = true ∧
    (∀ o', sc_TxID o' = tx → applyOutcome o' m2 = Some (m2, succeeded 0)) ∧
    (∀ p, sc_TxID p = tx → ∃ e, applyPrepare p m2 = (m2, failed e)).
Proof.
  intros Htx Hrec Happ Hrun. subst tx.
  destruct (applyOutcome_settled o m m1 r rec Hrec Happ) as (rec1 & Hrec1 & Ht1).
  destruct (run_cmds_keeps cmds m1 m2 _ rec1 Hrec1) as (rec2 & Hrec2 & Hp2 & _); auto.
  exists rec1, rec2. unfold Tx. rewrite Hp2. split_and!; try done.
  - intros o' Ho'. unfold applyOutcome. by rewrite Ho', Hrec2, Hp2, Ht1.
  - intros p Hp. unfold applyPrepare. rewrite Hp, Hrec2, Hp2.
    unfold terminal in Ht1. rewrite <- orb_assoc, Ht1, orb_true_r. eauto.
Qed.

(** ** Promises are kept *)

(** A machine some log produces. *)
Definition log_state (m : Machine) : Prop := ∃ id log, run_log log (NewMachine id New) = Some m.

Lemma log_state_MInv m : log_state m → MInv m.
Proof.
  intros (id & log & Hrun). destruct (run_log_MInv log _ (MInv_new id)) as (m' & Hrun' & Hm').
  congruence.
Qed.

Lemma promised_not_terminal rec : tx_Phase rec = PhasePrepared → terminal (tx_Phase rec) = false.
Proof. by intros ->. Qed.

(** Committing a promised debit. *)
Lemma commit_debit_outcome o m rec :
  MInv m → m_txs m !! sc_TxID o = Some rec → promised_debit rec → sc_Commit o = true →
  ∃ m' r, applyOutcome o m = Some (m', r) ∧ r_OK r = true ∧
    balances (m_State m') = <[c_From (tx_Cmd rec) :=
       default 0 (balances (m_State m) !! c_From (tx_Cmd rec)) - c_Amount (tx_Cmd rec)]>
       (balances (m_State m)) ∧
    reserves (m_State m') = delete (sc_TxID o) (reserves (m_State m)).
Proof.
  intros Hm Hrec [Hp Hd] Hc. pose proof (mi_hold _ Hm _ _ Hrec (conj Hp Hd)) as Hh.
  rewrite (applyOutcome_exec o m rec) by (done || by apply promised_not_terminal).
  pose proof (outcome_op_wf o m rec Hm Hrec) as Hwf.
  unfold outcome_op in *. rewrite Hc, Hd in *.
  destruct (exec_fresh _ _ (mi_Inv _ Hm) Hwf eq_refl) as (s' & r & -> & _ & Habs & Hok).
  unfold bank_after, allowed in *. simpl in *. rewrite Hh in *. simpl in *.
  injection Habs as Hb Hr. eexists _, _. split; [done|]. by rewrite Hok.
Qed.

(** Aborting any prepared transaction. *)
Lemma abort_outcome o m rec :
  m_txs m !! sc_TxID o = Some rec → tx_Phase rec = PhasePrepared → sc_Commit o = false →
  ∃ m' r, applyOutcome o m = Some (m', r) ∧ r_OK r = true ∧
    balances (m_State m') = balances (m_State m) ∧
    reserves (m_State m') = delete (sc_TxID o) (reserves (m_State m)).
Proof.
  intros Hrec Hp Hc.
  rewrite (applyOutcome_exec o m rec) by (done || by apply promised_not_terminal).
  unfold outcome_op. rewrite Hc. simpl. unfold AbortTx.
  destruct (reserves (m_State m) !! sc_TxID o) eqn:Hh; simpl; eexists _, _; (split; [done|]);
    simpl; [done|]. split_and!; try done. by rewrite delete_id.
Qed.

(** C13: A yes vote on a debit binds the shard and can always be honoured.  In a
    machine produced by any log, take a transaction prepared here as a debit.
    After any further commands that do not include an outcome for it, it is
    still prepared with its funds on hold, and then a commit outcome succeeds,
    takes exactly the promised amount from the promised account and releases
    the hold, while an abort outcome succeeds, releases the hold and leaves all
    balances as they were. *)
Theorem yes_vote_binds m tx rec cmds m2 oc oa :
  log_state m → Tx m tx = Some rec → promised_debit rec →
  Forall wf_cmd cmds → Forall (λ c, is_outcome tx c = false) cmds →
  run_cmds cmds m = Some m2 →
  sc_TxID oc = tx → sc_Commit oc = true → sc_TxID oa = tx → sc_Commit oa = false →
  reserves (m_State m2) !! tx = Some (hold_of tx rec) ∧
  (∃ m3 r, applyOutcome oc m2 = Some (m3, r) ∧ r_OK r = true ∧
     balances (m_State m3) = <[c_From (tx_Cmd rec) :=
       default 0 (balances (m_State m2) !! c_From (tx_Cmd rec)) - c_Amount (tx_Cmd rec)]>
       (balances (m_State m2)) ∧
     reserves (m_State m3) = delete tx (reserves (m_State m2))) ∧
  (∃ m3 r, applyOutcome oa m2 = Some (m3, r) ∧ r_OK r = true ∧
     balances (m_State m3) = balances (m_State m2) ∧
     reserves (m_State m3) = delete tx (reserves (m_State m2))).
Proof.
  intros Hm%log_state_MInv Hrec [Hp Hd] Hwf Hno Hrun Hoc Hcc Hoa Hca.
  destruct (run_cmds_keeps cmds m m2 tx rec Hrec) as (rec2 & Hrec2 & Hp2 & Hd2 & Hc2); auto.
  destruct (run_cmds_MInv cmds m Hm Hwf) as (m2' & ? & Hm2). simplify_eq.
  assert (promised_debit rec2) as Hprom by (split; congruence).
  split_and!.
  - rewrite (mi_hold _ Hm2 _ rec2) by done. unfold hold_of. by rewrite Hc2.
  - rewrite <- Hc2. by apply commit_debit_outcome.
  - rewrite <- Hoa. apply (abort_outcome oa m2 rec2); rewrite ?Hoa; congruence.
Qed.

Lemma promised_credit_unbooked m tx rec :
  MInv m → m_txs m !! tx = Some rec → tx_Phase rec = PhasePrepared →
  applied (m_State m) !! internalKey tx "credit" = None.
Proof.
  intros Hm Hrec Hp. destruct (applied (m_State m) !! _) as [p|] eqn:Ha; [|done].
  destruct (mi_once _ Hm tx p Ha) as (rec' & ? & Ht). simplify_eq. by rewrite Hp in Ht.
Qed.

(** Committing a promised credit, with and without room for it. *)
Lemma commit_credit_outcome o m rec b :
  MInv m → m_txs m !! sc_TxID o = Some rec → promised_credit rec → sc_Commit o = true →
  balances (m_State m) !! c_To (tx_Cmd rec) = Some b →
  ∃ m' r, applyOutcome o m = Some (m', r) ∧
    (m_txs m' = <[sc_TxID o := settle rec true]> (m_txs m)) ∧
    if b + c_Amount (tx_Cmd rec) <=? maxMoney
    then r_OK r = true ∧
         balances (m_State m') = <[c_To (tx_Cmd rec) := b + c_Amount (tx_Cmd rec)]>
                                   (balances (m_State m)) ∧
         reserves (m_State m') = reserves (m_State m)
    else r_OK r = false ∧ m_State m' = m_State m.
Proof.
  intros Hm Hrec [Hp Hd] Hc Hb. destruct (mi_credit _ Hm _ _ Hrec (conj Hp Hd)) as [Hpos _].
  rewrite (applyOutcome_exec o m rec) by (done || by apply promised_not_terminal).
  pose proof (outcome_op_wf o m rec Hm Hrec) as Hwf. unfold outcome_op in *. rewrite Hc, Hd in *.
  destruct (CommitCredit_runs (sc_TxID o) (c_To (tx_Cmd rec)) (c_Amount (tx_Cmd rec))
              (outcomeTimestamp o rec) (m_State m) (mi_Inv _ Hm) Hwf
              (promised_credit_unbooked m _ rec Hm Hrec Hp))
    as (s' & r & Hex & _ & _ & _ & _ & Hmeets).
  simpl. rewrite Hex. simpl. eexists _, _. split; [done|]. split; [done|].
  unfold meets in Hmeets. simpl in Hmeets. rewrite Hb in Hmeets. simpl in Hmeets.
  destruct (Z.leb_spec 0 (c_Amount (tx_Cmd rec))); [|lia]. simpl in Hmeets.
  destruct (_ <=? maxMoney); destruct Hmeets as [Hok Habs]; simpl in *.
  - injection Habs as ??. done.
  - done.
Qed.

(** A yes vote on a credit can be broken.  [PrepareCredit] checks the
    account but not its headroom, so when the commit outcome of a transaction
    prepared here as a credit arrives: if the balance still has room the
    account receives exactly the amount; if it does not, nothing is credited
    and the ledger is unchanged, yet the transaction is recorded as committed
    for good, so no later delivery can repair it. *)
Theorem credit_outcome o m rec b :
  log_state m → Tx m (sc_TxID o) = Some rec → promised_credit rec → sc_Commit o = true →
  balances (m_State m) !! c_To (tx_Cmd rec) = Some b →
  ∃ m' r, applyOutcome o m = Some (m', r) ∧ Tx m' (sc_TxID o) = Some (settle rec true) ∧
    if b + c_Amount (tx_Cmd rec) <=? maxMoney
    then r_OK r = true ∧
         balances (m_State m') = <[c_To (tx_Cmd rec) := b + c_Amount (tx_Cmd rec)]>
                                   (balances (m_State m))
    else r_OK r = false ∧ m_State m' = m_State m.
Proof.
  intros Hm%log_state_MInv Hrec Hp Hc Hb.
  destruct (commit_credit_outcome o m rec b Hm Hrec Hp Hc Hb) as (m' & r & Happ & Htxs & Hif).
  exists m', r. split; [done|]. split; [unfold Tx; by rewrite Htxs, lookup_insert_eq|].
  destruct (_ <=? maxMoney); [by destruct Hif as (? & ? & _)|done].
Qed.

(** ** Decisions *)

Lemma Decision_after_decision cmd m :
  Decision (applyDecision cmd m).1 (sc_TxID cmd) = Some (sc_Commit cmd).
Proof. unfold Decision, applyDecision. simpl. by rewrite lookup_insert_eq. Qed.

(** A durable decision can be reversed.  [applyDecision] overwrites the
    recorded decision of the transaction whatever it was: after a commit
    decision, an abort decision for the same transaction is accepted, and from
    then on the coordinator group answers recovery with abort.  Other
    transactions are not affected, and no money moves. *)
Theorem decision_overwritten c c' m :
  sc_TxID c' = sc_TxID c →
  let m1 := (applyDecision c m).1 in
  let m2 := (applyDecision c' m1).1 in
  Decision m1 (sc_TxID c) = Some (sc_Commit c) ∧
  Decision m2 (sc_TxID c) = Some (sc_Commit c') ∧
  r_OK (applyDecision c' m1).2 = true ∧ m_State m2 = m_State m ∧
  ∀ tx, tx ≠ sc_TxID c → Decision m2 tx = Decision m tx.
Proof.
  intros Htx. cbv zeta. split_and!; try done.
  - apply Decision_after_decision.
  - rewrite <- Htx. apply Decision_after_decision.
  - intros tx Hne. unfold Decision, applyDecision. simpl.
    rewrite !lookup_insert_ne by congruence. done.
Qed.

(** ** Concrete runs *)

Definition sh_open (a : string) (amt : Z) : Command :=
  mkCommand OpSingle "" (Ledger.mkCommand OpOpenAccount ("open-" +:+ a) "" a amt (mkTimestamp 1 0))
            false false [] "".

Definition sh_transfer (amt : Z) : Ledger.Command :=
  Ledger.mkCommand OpTransfer "k" "a" "b" amt (mkTimestamp 2 0).

Definition sh_2pc (op : Z) (debit commit : bool) (amt : Z) : Command :=
  mkCommand op "t1" (sh_transfer amt) commit debit ["s1"; "s2"] "s1".

(** The machine after a log of encoded commands, at indices 1, 2, ... *)
Definition sh_log (cmds : list Command) : list (Z * bytes) :=
  imap (λ i c, (Z.of_nat i + 1, TwoPC.Encode c)) cmds.

Definition sh_after (cmds : list Command) : Machine :=
  default (NewMachine "s1" New) (run_log (sh_log cmds) (NewMachine "s1" New)).

(** "a" holds 100 and has promised 30 of it to "t1". *)
Definition sh_debit : list Command := [sh_open "a" 100; sh_2pc OpPrepare true false 30].

(** "b" holds 5 less than the maximum and has accepted a credit of 10. *)
Definition sh_credit : list Command :=
  [sh_open "b" (maxMoney - 5); sh_2pc OpPrepare false false 10].

Lemma sh_debit_log_state : log_state (sh_after sh_debit).
Proof. exists "s1", (sh_log sh_debit). vm_compute. reflexivity. Qed.

Lemma sh_credit_log_state : log_state (sh_after sh_credit).
Proof. exists "s1", (sh_log sh_credit). vm_compute. reflexivity. Qed.

Definition sh_rec (debit : bool) (amt : Z) : TxRecord :=
  mkTxRecord "t1" PhasePrepared (sh_transfer amt) debit ["s1"; "s2"] "s1" false false.

Lemma outcome_final_witness :
  ∃ m1 r rec1, applyOutcome (sh_2pc OpOutcome true true 30) (sh_after sh_debit) = Some (m1, r) ∧
    Tx m1 "t1" = Some rec1 ∧ terminal (tx_Phase rec1) = true ∧
    applyOutcome (sh_2pc OpOutcome true false 30) m1 = Some (m1, succeeded 0).
Proof.
  destruct (applyOutcome (sh_2pc OpOutcome true true 30) (sh_after sh_debit)) as [[m1 r]|] eqn:E.
  2: { exfalso. vm_compute in E. congruence. }
  destruct (outcome_final "t1" (sh_2pc OpOutcome true true 30) (sh_after sh_debit) m1 r
              (sh_rec true 30) [] m1) as (rec1 & rec2 & H1 & H2 & _ & Ht & Ho & _).
  - reflexivity.
  - vm_compute. reflexivity.
  - exact E.
  - reflexivity.
  - exists m1, r, rec2. split; [reflexivity|]. split; [exact H2|]. split; [exact Ht|].
    apply Ho. reflexivity.
Defined.

Lemma yes_vote_binds_witness :
  ∃ m3 r, applyOutcome (sh_2pc OpOutcome true true 30)
            (default (sh_after sh_debit) (run_cmds [sh_open "c" 7] (sh_after sh_debit)))
          = Some (m3, r) ∧ r_OK r = true.
Proof.
  destruct (yes_vote_binds (sh_after sh_debit) "t1" (sh_rec true 30) [sh_open "c" 7]
              (default (sh_after sh_debit) (run_cmds [sh_open "c" 7] (sh_after sh_debit)))
              (sh_2pc OpOutcome true true 30) (sh_2pc OpOutcome true false 30))
    as (_ & (m3 & r & Ho & Hok & _) & _).
  - exact sh_debit_log_state.
  - vm_compute. reflexivity.
  - split; reflexivity.
  - repeat constructor; vm_compute; congruence.
  - repeat constructor.
  - vm_compute. reflexivity.
  - reflexivity.
  - reflexivity.
  - reflexivity.
  - reflexivity.
  - exists m3, r. split; [exact Ho|exact Hok].
Defined.

Lemma credit_outcome_witness :
  ∃ m' r, applyOutcome (sh_2pc OpOutcome false true 10) (sh_after sh_credit) = Some (m', r) ∧
    Tx m' "t1" = Some (settle (sh_rec false 10) true) ∧ r_OK r = false ∧
    m_State m' = m_State (sh_after sh_credit).
Proof.
  destruct (credit_outcome (sh_2pc OpOutcome false true 10) (sh_after sh_credit)
              (sh_rec false 10) (maxMoney - 5)) as (m' & r & Ho & Htx & Hif).
  - exact sh_credit_log_state.
  - vm_compute. reflexivity.
  - split; reflexivity.
  - reflexivity.
  - vm_compute. reflexivity.
  - exists m', r. split; [exact Ho|]. split; [exact Htx|].
    replace (_ <=? maxMoney) with false in Hif by (vm_compute; reflexivity). exact Hif.
Defined.

Lemma decision_overwritten_witness :
  let m1 := (applyDecision (sh_2pc OpDecision true true 30) (sh_after sh_debit)).1 in
  Decision m1 "t1" = Some true ∧
  Decision (applyDecision (sh_2pc OpDecision true false 30) m1).1 "t1" = Some false.
Proof.
  cbv zeta. destruct (decision_overwritten (sh_2pc OpDecision true true 30)
                        (sh_2pc OpDecision true false 30) (sh_after sh_debit))
    as (H1 & H2 & _).
  - reflexivity.
  - split; [exact H1|exact H2].
Defined.
