(* ===== verification/ShardSnapshot.v ===== *)
(** * Shard snapshots (src/shard/snapshot.go)

    The ledger's snapshot as a length-prefixed blob, then the two-phase records
    and the single-shard results.  The helpers are those of Reader. *)

From S2P Require Import Prelude GoLib Hlc Ledger LedgerCodec Reader LedgerSnapshot TwoPC ShardMachine.

Local Open Scope Z_scope.

(** ** Writing *)

Definition enc_str (s : string) : bytes := putStr s.

(** One record; the command's timestamp is not written. *)
Definition enc_tx (rec : TxRecord) : bytes :=
  putStr (tx_ID rec) ++ putUint64 (tx_Phase rec) ++ putBool (tx_Debit rec)
  ++ putBool (tx_Decided rec) ++ putBool (tx_Commit rec) ++ putStr (tx_Coordinator rec)
  ++ (putUint64 (Z.of_nat (length (tx_Participants rec)))
      ++ concat (enc_str <$> tx_Participants rec))
  ++ putUint64 (c_Op (tx_Cmd rec)) ++ putStr (c_IdempotencyKey (tx_Cmd rec))
  ++ putStr (c_From (tx_Cmd rec)) ++ putStr (c_To (tx_Cmd rec))
  ++ putUint64 (c_Amount (tx_Cmd rec)).

Definition zeroRecord : TxRecord := mkTxRecord "" 0 zeroCommand false [] "" false false.

Definition Snapshot (m : Machine) : bytes :=
  let ledgerData := LedgerSnapshot.Snapshot (m_State m) in
  putUint64 (Z.of_nat (length ledgerData)) ++ ledgerData
  ++ put_map zeroRecord (λ kv, enc_tx kv.2) (m_txs m)
  ++ put_map (mkResult false "" 0) enc_applied (m_results m).

(** ** Reading *)

(** The test [r.err == nil]. *)
Definition r_noerr : rm bool := λ r, (bool_decide (rd_err r = None), r).

Definition read_part (acc : list string) : rm (list string) := p ← r_str; mret (acc ++ [p]).

Definition read_tx (acc : gmap string TxRecord) : rm (gmap string TxRecord) :=
  id ← r_str; phase ← r_uint64; debit ← r_bool; decided ← r_bool; commit ← r_bool;
  coord ← r_str;
  parts ← r_counted read_part [];
  op ← r_uint64; key ← r_str; from ← r_str; to ← r_str; amt ← r_uint64;
  ok ← r_noerr;
  mret (if ok : bool
        then <[id:=mkTxRecord id (u8 phase)
                     (Ledger.mkCommand (u8 op) key from to (i64 amt) zeroTimestamp)
                     debit parts coord decided commit]> acc
        else acc).

Definition read_shard : rm (bytes * gmap string TxRecord * gmap string Result) :=
  ledgerLen ← r_uint64;
  ledgerData ← r_bytes ledgerLen;
  txs ← r_counted read_tx ∅;
  results ← r_counted read_applied ∅;
  mret (ledgerData, txs, results).

(** [Machine.RestoreSnapshot]: the machine and the error, if any. *)
Definition RestoreSnapshot (data : bytes) (m : Machine) : Machine * option string :=
  let '((ledgerData, txs, results), r) := read_shard (mkReader data 0 None) in
  match rd_err r with
  | Some e => (m, Some ("shard: restore snapshot: " +:+ e))
  | None =>
      match LedgerSnapshot.RestoreSnapshot ledgerData (m_State m) with
      | (_, Some e) => (m, Some ("shard: restore ledger: " +:+ e))
      | (st, None) => (mkMachine (m_ID m) st txs results ∅, None)
      end
  end.

(** ** Correctness *)

(** The record a restored node has: the same but for the command's timestamp. *)
Definition unstamped (rec : TxRecord) : TxRecord :=
  let c := tx_Cmd rec in
  mkTxRecord (tx_ID rec) (tx_Phase rec)
    (Ledger.mkCommand (c_Op c) (c_IdempotencyKey c) (c_From c) (c_To c) (c_Amount c) zeroTimestamp)
    (tx_Debit rec) (tx_Participants rec) (tx_Coordinator rec) (tx_Decided rec) (tx_Commit rec).

Record tx_representable (rec : TxRecord) : Prop := {
  tr_id : str_ok (tx_ID rec);
  tr_phase : in_u8 (tx_Phase rec);
  tr_coord : str_ok (tx_Coordinator rec);
  tr_count : in_u64 (Z.of_nat (length (tx_Participants rec)));
  tr_parts : ∀ p, p ∈ tx_Participants rec → str_ok p;
  tr_op : in_u8 (c_Op (tx_Cmd rec));
  tr_key : str_ok (c_IdempotencyKey (tx_Cmd rec));
  tr_from : str_ok (c_From (tx_Cmd rec));
  tr_to : str_ok (c_To (tx_Cmd rec));
  tr_amount : in_i64 (c_Amount (tx_Cmd rec))
}.

(** Every field holds a value of its Go type, and records are filed under their
    own identifier. *)
Record shard_representable (m : Machine) : Prop := {
  sr_ledger : representable (m_State m);
  sr_blob : in_u64 (Z.of_nat (length (LedgerSnapshot.Snapshot (m_State m))));
  sr_sizes : in_u64 (Z.of_nat (size (m_txs m))) ∧ in_u64 (Z.of_nat (size (m_results m)));
  sr_txs : ∀ id rec, m_txs m !! id = Some rec → tx_ID rec = id ∧ tx_representable rec;
  sr_results : ∀ k r, m_results m !! k = Some r →
    str_ok k ∧ str_ok (r_Err r) ∧ in_i64 (r_Balance r)
}.

#[global] Instance latches_noerr : Latches r_noerr.
Proof. intros buf pos e. by exists false. Qed.

Lemma codec_noerr {B} (g : bool → B) : codec (ok ← r_noerr; mret (g ok)) (g true) [].
Proof.
  split.
  - intros pre rest. cbn. by rewrite Nat.add_0_r.
  - intros pre p q H Hq. symmetry in H. by apply app_eq_nil in H as [_ ?].
Qed.

Lemma read_part_codec acc p : str_ok p → codec (read_part acc) (acc ++ [p]) (enc_str p).
Proof. intros Hp. apply (codec_map r_str (λ p, acc ++ [p])). by apply codec_str. Qed.

Lemma u64_of_u8 z : in_u8 z → in_u64 z.
Proof. unfold in_u8, in_u64. lia. Qed.

#[local] Opaque r_noerr.

Lemma read_tx_codec acc rec :
  tx_representable rec →
  codec (read_tx acc) (<[tx_ID rec := unstamped rec]> acc) (enc_tx rec).
Proof.
  intros [Hid Hph Hco Hn Hps Hop Hk Hf Ht Ha]. pose proof (u64_of_u8 _ Hph).
  pose proof (u64_of_u8 _ Hop). unfold read_tx, enc_tx, unstamped.
  destruct rec as [id ph [op key from to amt ts] debit parts coord decided commit]. simpl in *.
  do 6 codec_step.
  eapply codec_bind; [apply codec_list; [done| |apply _]| |intros; apply _].
  { intros acc' p Hp%Hps. by apply read_part_codec. }
  do 4 codec_step. rewrite (u8_small ph), (u8_small op) by done.
  rewrite <- (app_nil_r (putUint64 amt)).
  eapply codec_bind; [apply codec_uint64| |intros; apply _].
  rewrite i64_u64 by done.
  apply (codec_noerr (λ ok : bool, if ok then <[id:=_]> acc else acc)).
Qed.

(** Records read in sorted order, each filed under its identifier. *)
Lemma unstamped_restore (txs : gmap string TxRecord) :
  foldl insert_kv ∅ (prod_map id unstamped <$> sorted_entries txs) = unstamped <$> txs.
Proof.
  rewrite foldl_insert_kv.
  - rewrite (right_id_L ∅ (∪)). rewrite list_to_map_fmap. f_equal.
    rewrite <- (sorted_entries_restore txs) at 2.
    rewrite foldl_insert_kv by (rewrite sorted_entries_keys; apply sorted_keys_NoDup).
    by rewrite (right_id_L ∅ (∪)).
  - rewrite <- list_fmap_compose.
    rewrite (list_fmap_ext (fst ∘ prod_map id unstamped) fst) by (intros ? [? ?]; done).
    rewrite sorted_entries_keys. apply sorted_keys_NoDup.
Qed.

Lemma foldl_fmap_pre {A B C} (f : B → A → B) (g : C → A) (l : list C) b :
  foldl f b (g <$> l) = foldl (λ b c, f b (g c)) b l.
Proof. revert b. induction l as [|c l IH]; intros b; csimpl; [done|]. by rewrite IH. Qed.

Lemma read_txs_codec txs :
  in_u64 (Z.of_nat (size txs)) →
  (∀ id rec, txs !! id = Some rec → tx_ID rec = id ∧ tx_representable rec) →
  codec (r_counted read_tx ∅) (unstamped <$> txs) (put_map zeroRecord (λ kv, enc_tx kv.2) txs).
Proof.
  intros Hn Hrep. rewrite put_map_entries, <- unstamped_restore, foldl_fmap_pre.
  rewrite <- length_sorted_entries in *. apply codec_counted; [done| |apply _].
  intros acc [id rec] Hin%elem_of_sorted_entries. destruct (Hrep id rec Hin) as [Hid Hr].
  simpl. unfold insert_kv. simpl. rewrite <- Hid. by apply read_tx_codec.
Qed.

Lemma read_shard_codec m :
  shard_representable m →
  codec read_shard (LedgerSnapshot.Snapshot (m_State m), unstamped <$> m_txs m, m_results m)
        (Snapshot m).
Proof.
  intros [_ Hblob [Ht Hr] Htxs Hres]. unfold read_shard, Snapshot.
  eapply codec_bind; [by apply codec_exact| |intros; apply _].
  eapply codec_bind; [apply codec_bytes| |intros; apply _].
  eapply codec_bind; [by apply read_txs_codec| |intros; apply _].
  apply (codec_map (r_counted read_applied ∅) (λ rs, (_, _, rs))).
  rewrite put_map_entries. apply codec_map_entries; [done| |apply _].
  intros acc k v (? & ? & ?)%Hres. by apply read_applied_codec.
Qed.

Lemma RestoreSnapshot_shard_codec m m0 :
  shard_representable m →
  RestoreSnapshot (Snapshot m) m0
  = (mkMachine (m_ID m0) (m_State m) (unstamped <$> m_txs m) (m_results m) ∅, None).
Proof.
  intros Hm. pose proof (read_shard_codec m Hm) as [Hr _]. pose proof (Hr [] []) as H.
  rewrite app_nil_r in H. simpl in H. unfold RestoreSnapshot. rewrite H. simpl.
  pose proof (RestoreSnapshot_codec (m_State m) (m_State m0) [] (sr_ledger _ Hm)) as Hl.
  rewrite app_nil_r in Hl. by rewrite Hl.
Qed.

(** C31: Compaction forgets no promise, but it forgets their timestamps.
    Restoring a shard's snapshot on any node gives back the whole ledger, the
    single-shard results, and every two-phase record with its phase, role,
    decision, coordinator, participants and command, except that each record's
    command comes back with the zero timestamp; the results by log index are
    reset. *)
Theorem shard_RestoreSnapshot_roundtrip m m0 :
  shard_representable m →
  ∃ m', RestoreSnapshot (Snapshot m) m0 = (m', None) ∧ m_State m' = m_State m ∧
    m_results m' = m_results m ∧ m_byIndex m' = ∅ ∧
    ∀ id, Tx m' id = unstamped <$> Tx m id.
Proof.
  intros Hm. rewrite RestoreSnapshot_shard_codec by done. eexists. split; [done|].
  split_and!; try done. intros id. unfold Tx. simpl. by rewrite lookup_fmap.
Qed.

(** A truncated shard snapshot is refused whole: from any proper prefix
    [RestoreSnapshot] reports an error and the machine, ledger included, is
    left exactly as it was. *)
Theorem shard_RestoreSnapshot_truncated m m0 p q :
  shard_representable m → Snapshot m = p ++ q → q ≠ [] →
  ∃ e, RestoreSnapshot p m0 = (m0, Some e).
Proof.
  intros [_ Hn]%read_shard_codec Hpq Hq. unfold RestoreSnapshot.
  destruct (Hn [] p q Hpq Hq) as ([[ld txs] rs] & pos & e & Hy). simpl in Hy. rewrite Hy. simpl.
  eauto.
Qed.

(** ** A concrete machine *)

Definition shard_sample : Machine :=
  mkMachine "s1" snap_sample
    {["t1" := mkTxRecord "t1" PhasePrepared
                (Ledger.mkCommand OpTransfer "k" "a" "b" 40 (mkTimestamp 9 2))
                true ["s1"; "s2"] "s1" false false]}
    {["k" := succeeded 100]} {[3 := succeeded 0]}.

Lemma shard_sample_representable : shard_representable shard_sample.
Proof.
  split; simpl.
  - apply snap_sample_representable.
  - vm_compute. split; congruence.
  - vm_compute. repeat split; congruence.
  - intros id rec [<- <-]%lookup_singleton_Some. split; [done|].
    assert (∀ p, p ∈ ["s1"; "s2"] → str_ok p) as Hparts.
    { intros p Hp. repeat (apply elem_of_cons in Hp as [->|Hp]; [vm_compute; split; congruence|]).
      by apply not_elem_of_nil in Hp. }
    split; first [exact Hparts | vm_compute; split; congruence].
  - intros k r [<- <-]%lookup_singleton_Some. vm_compute. repeat split; congruence.
Qed.

Lemma shard_RestoreSnapshot_roundtrip_witness :
  ∃ m', RestoreSnapshot (Snapshot shard_sample) (NewMachine "s1" New) = (m', None) ∧
    m_State m' = snap_sample ∧ Tx m' "t1" = unstamped <$> Tx shard_sample "t1".
Proof.
  destruct (shard_RestoreSnapshot_roundtrip shard_sample (NewMachine "s1" New))
    as (m' & Hr & Hs & _ & _ & Htx).
  - exact shard_sample_representable.
  - exists m'. split; [exact Hr|]. split; [exact Hs|exact (Htx "t1")].
Defined.

Lemma shard_RestoreSnapshot_truncated_witness :
  ∃ e, RestoreSnapshot (take 50 (Snapshot shard_sample)) (NewMachine "s1" New)
       = (NewMachine "s1" New, Some e).
Proof.
  apply (shard_RestoreSnapshot_truncated shard_sample _ _ (drop 50 (Snapshot shard_sample))).
  - exact shard_sample_representable.
  - symmetry. apply take_drop.
  - vm_compute. congruence.
Defined.
