(* ===== verification/Coordinator.v ===== *)
(** * The two-phase coordinator (src/shard/coordinator.go)

    The coordinator sees each shard's Raft group through the [Group] interface
    of the source: propose a command, read the group's machine, ask whether
    this node leads it.  The groups live in a world of type [W]; every call
    that can change something takes and returns the world.  The class
    [GroupLaws] states what the interface's documentation promises. *)

From S2P Require Import Prelude GoLib Hlc Ledger LedgerInv LedgerCodec Ring TwoPC.
From S2P Require Import ShardMachine ShardInv ShardProps.

Local Open Scope Z_scope.

(** ** Errors *)

Inductive sentinel := ErrTxAborted | ErrInDoubt | ErrNotLeader | ErrCommitUnknown.

#[global] Instance sentinel_eq_dec : EqDecision sentinel.
Proof. solve_decision. Defined.

(** A sentinel itself, a sentinel wrapped with [%w], or any other error. *)
Inductive error :=
  | Sentinel (s : sentinel)
  | Wrapped (s : sentinel) (msg : string)
  | Plain (msg : string).

Definition sentinel_msg (s : sentinel) : string :=
  match s with
  | ErrTxAborted => "shard: transaction aborted"
  | ErrInDoubt => "shard: transaction in doubt; awaiting coordinator recovery"
  | ErrNotLeader => "shard: this node does not lead the shard owning that account"
  | ErrCommitUnknown => "shard: entry appended but commit unconfirmed; retry with the same key"
  end.

Definition Error (e : error) : string :=
  match e with Sentinel s => sentinel_msg s | Wrapped _ m => m | Plain m => m end.

(** [errors.Is(err, s)] *)
Definition errors_Is (e : error) (s : sentinel) : bool :=
  match e with
  | Sentinel s' | Wrapped s' _ => bool_decide (s' = s)
  | Plain _ => false
  end.

(** [fmt.Errorf("prefix%w", ...)] around an error: the chain still ends in the
    same sentinel. *)
Definition wrap (f : string → string) (e : error) : error :=
  match e with
  | Sentinel s | Wrapped s _ => Wrapped s (f (Error e))
  | Plain m => Plain (f m)
  end.

(** ** The interface *)

(** [Group]: one value of [W] holds all the groups; a group is addressed by its
    shard. *)
Class Group (W : Type) := {
  Propose : ID → Command → Z → W → W * (Result * bool * option error);
  MachineOf : ID → W → Machine;
  IsLeader : ID → W → bool
}.

(** The entry took effect on the group's machine at some log index. *)
Definition took_effect (cmd : Command) (m m' : Machine) (res : Result) : Prop :=
  ∃ i, ApplyAt i (TwoPC.Encode cmd) m = Some (m', res).

(** What [Propose] documents: it acts on its own group only; "false if this node
    is not the group's leader", in which case nothing was proposed; without an
    error the command was replicated and applied and the result is what the
    machine returned; with an error the entry may be in the log and may or may
    not have been applied (an implementation reports a leadership lost while
    waiting as an error together with false). *)
Class GroupLaws (W : Type) `{Group W} : Prop := {
  propose_other s cmd t w w' r s' :
    Propose s cmd t w = (w', r) → s' ≠ s → MachineOf s' w' = MachineOf s' w;
  propose_refused s cmd t w w' res :
    Propose s cmd t w = (w', (res, false, None)) → MachineOf s w' = MachineOf s w;
  propose_applied s cmd t w w' res :
    Propose s cmd t w = (w', (res, true, None)) →
    took_effect cmd (MachineOf s w) (MachineOf s w') res;
  propose_unknown s cmd t w w' res lead e :
    Propose s cmd t w = (w', (res, lead, Some e)) →
    MachineOf s w' = MachineOf s w ∨ ∃ r, took_effect cmd (MachineOf s w) (MachineOf s w') r
}.

Record Coordinator := mkCoordinator {
  co_ring : Ring;
  co_groups : gset string;
  co_clock : Hlc.Clock;
  co_prepareTimeout : Z;
  co_commitTimeout : Z
}.

(** Three seconds, in nanoseconds. *)
Definition NewCoordinator (ring : Ring) (groups : gset string) : Coordinator :=
  mkCoordinator ring groups Hlc.New 3000000000 3000000000.

Definition Clock (c : Coordinator) : Hlc.Clock := co_clock c.

Definition ShardFor (c : Coordinator) (account : string) : ID := Lookup (co_ring c) account.

(** ** The protocol *)

Section Protocol.
Context {W : Type} `{Group W}.
Implicit Types (c : Coordinator) (w : W).

Definition no_group (s : ID) : error := Plain ("shard: no group " +:+ s).

Definition zeroResult : Result := mkResult false "" 0.

Definition single c (s : ID) (cmd : Ledger.Command) w : W * (Result * option error) :=
  if bool_decide (s ∉ co_groups c) then (w, (zeroResult, Some (no_group s)))
  else
    let '(w, (res, isLeader, err)) :=
      Propose s (mkCommand OpSingle "" cmd false false [] "") (co_commitTimeout c) w in
    match err with
    | Some e =>
        if isLeader : bool
        then (w, (zeroResult,
                  Some (Wrapped ErrCommitUnknown (sentinel_msg ErrCommitUnknown +:+ ": " +:+ Error e))))
        else (w, (zeroResult, Some e))
    | None =>
        if negb isLeader
        then (w, (zeroResult, Some (Wrapped ErrNotLeader
                    (sentinel_msg ErrNotLeader +:+ " (" +:+ s +:+ ")"))))
        else (w, (res, None))
    end.

(** The commands of one transaction. *)
Definition tx_command (op : Z) (txID : TxID) (cmd : Ledger.Command) (commit debit : bool)
    (participants : list ID) (coordinator : ID) : Command :=
  mkCommand op txID cmd commit debit participants coordinator.

Definition decide c (txID : TxID) (cmd : Ledger.Command) (participants : list ID)
    (coordinator : ID) (commit : bool) (debitGroup creditGroup : ID) w : W * option error :=
  let '(w, (_, isLeader, err)) :=
    Propose debitGroup (tx_command OpDecision txID cmd commit true participants coordinator)
            (co_commitTimeout c) w in
  if bool_decide (err ≠ None) || negb isLeader then
    (w, Some (Plain ("shard: could not log decision for " +:+ txID +:+ ": "
                     +:+ match err with Some e => Error e | None => "<nil>" end)))
  else
    let '(w, (_, _, err1)) :=
      Propose debitGroup (tx_command OpOutcome txID cmd commit true participants coordinator)
              (co_commitTimeout c) w in
    let '(w, (_, _, err2)) :=
      Propose creditGroup (tx_command OpOutcome txID cmd commit false participants coordinator)
              (co_commitTimeout c) w in
    (w, match err1 with Some e => Some e | None => err2 end).

(** What the caller is told when the credit side did not vote yes. *)
Definition credit_refusal (toShard : ID) (creditVote : Result) (isLeader : bool)
    (err : option error) : Result * option error :=
  if negb (r_OK creditVote) && negb (bool_decide (r_Err creditVote = "")) then
    (creditVote, Some (Sentinel ErrTxAborted))
  else if negb isLeader then
    (failed ("credit shard " +:+ toShard +:+ " is not led by this node"),
     Some (Wrapped ErrNotLeader (sentinel_msg ErrNotLeader +:+ " (credit shard " +:+ toShard +:+ ")")))
  else match err with
  | Some e =>
      (failed (Error e),
       Some (Wrapped ErrTxAborted (sentinel_msg ErrTxAborted +:+ ": credit shard " +:+ toShard
                                   +:+ ": " +:+ Error e)))
  | None =>
      (failed ("credit shard " +:+ toShard +:+ " voted no without a reason"),
       Some (Sentinel ErrTxAborted))
  end.

Definition twoPhase c (txID : TxID) (cmd : Ledger.Command) (fromShard toShard : ID) w
    : W * (Result * option error) :=
  if bool_decide (fromShard ∉ co_groups c) then (w, (zeroResult, Some (no_group fromShard)))
  else if bool_decide (toShard ∉ co_groups c) then (w, (zeroResult, Some (no_group toShard)))
  else
    let participants := [fromShard; toShard] in
    let coordinator := fromShard in
    let '(w, (debitVote, isLeader, err)) :=
      Propose fromShard (tx_command OpPrepare txID cmd false true participants coordinator)
              (co_prepareTimeout c) w in
    if negb isLeader then
      (w, (zeroResult, Some (Wrapped ErrNotLeader
             (sentinel_msg ErrNotLeader +:+ " (debit shard " +:+ fromShard +:+ ")"))))
    else match err with
    | Some e =>
        (w, (zeroResult,
             Some (wrap (λ m, "shard: prepare failed on debit shard " +:+ fromShard +:+ ": " +:+ m) e)))
    | None =>
        if negb (r_OK debitVote) then
          let '(w, _) := decide c txID cmd participants coordinator false fromShard toShard w in
          (w, (debitVote, Some (Sentinel ErrTxAborted)))
        else
          let '(w, (creditVote, isLeader, err)) :=
            Propose toShard (tx_command OpPrepare txID cmd false false participants coordinator)
                    (co_prepareTimeout c) w in
          if bool_decide (err ≠ None) || negb isLeader || negb (r_OK creditVote) then
            let '(w, _) := decide c txID cmd participants coordinator false fromShard toShard w in
            (w, credit_refusal toShard creditVote isLeader err)
          else
            let '(w, derr) := decide c txID cmd participants coordinator true fromShard toShard w in
            match derr with
            | Some _ => (w, (zeroResult, Some (Sentinel ErrInDoubt)))
            | None =>
                (w, (succeeded (Available (m_State (MachineOf fromShard w)) (c_From cmd)).1, None))
            end
    end.

(** [Transfer]; [physical] is the wall-clock reading, used when the command
    carries no timestamp. *)
Definition stamp (ts : Timestamp) (cmd : Ledger.Command) : Ledger.Command :=
  Ledger.mkCommand (c_Op cmd) (c_IdempotencyKey cmd) (c_From cmd) (c_To cmd) (c_Amount cmd) ts.

Definition Transfer c (physical : Z) (txID : TxID) (cmd : Ledger.Command) w
    : Coordinator * (W * (Result * option error)) :=
  let (clk, ts) := if IsZero (c_Timestamp cmd) then Hlc.Now physical (co_clock c)
                   else (co_clock c, c_Timestamp cmd) in
  let c := mkCoordinator (co_ring c) (co_groups c) clk (co_prepareTimeout c) (co_commitTimeout c) in
  let cmd := stamp ts cmd in
  (c,
   if (c_Op cmd =? OpOpenAccount) || (c_Op cmd =? OpDeposit) then single c (ShardFor c (c_To cmd)) cmd w
   else if c_Op cmd =? OpWithdraw then single c (ShardFor c (c_From cmd)) cmd w
   else
     let fromShard := ShardFor c (c_From cmd) in
     let toShard := ShardFor c (c_To cmd) in
     if bool_decide (fromShard = toShard) then single c fromShard cmd w
     else twoPhase c txID cmd fromShard toShard w).

Definition catchUp c (s : ID) w : W * option error :=
  let '(w, (_, isLeader, err)) :=
    Propose s (mkCommand OpSingle "" zeroCommand false false [] "") (co_commitTimeout c) w in
  (w, match err with
      | Some e => Some e
      | None => if negb isLeader then Some (Sentinel ErrNotLeader) else None
      end).

(** The counters and the error that [RecoverInDoubt] accumulates. *)
Record recovery := mkRecovery { rc_resolved : Z; rc_blocked : Z; rc_err : option error }.

Definition block (rc : recovery) : recovery :=
  mkRecovery (rc_resolved rc) (rc_blocked rc + 1) (rc_err rc).

(** The coordinator group a record names. *)
Definition coordinator_of (rec : TxRecord) : ID :=
  if bool_decide (tx_Coordinator rec = "") then default "" (head (tx_Participants rec))
  else tx_Coordinator rec.

(** The body of the inner loop: one in-doubt transaction of shard [s]. *)
Definition recover_tx c (s : ID) (acc : W * recovery) (txID : TxID) : W * recovery :=
  let (w, rc) := acc in
  match Tx (MachineOf s w) txID with
  | None => (w, rc)
  | Some rec =>
      let coordID := coordinator_of rec in
      if bool_decide (coordID = "") then (w, block rc)
      else if bool_decide (coordID ∉ co_groups c) || negb (IsLeader coordID w) then (w, block rc)
      else
        let commit := default false (Decision (MachineOf coordID w) txID) in
        let '(w, (_, _, err)) :=
          Propose s (mkCommand OpOutcome txID (tx_Cmd rec) commit (tx_Debit rec)
                               (tx_Participants rec) coordID) (co_commitTimeout c) w in
        match err with
        | Some e =>
            (w, mkRecovery (rc_resolved rc) (rc_blocked rc + 1)
                  (Some (wrap (λ m, "shard: recovering " +:+ txID +:+ " on " +:+ s +:+ ": " +:+ m) e)))
        | None => (w, mkRecovery (rc_resolved rc + 1) (rc_blocked rc) (rc_err rc))
        end
  end.

(** The body of the outer loop. *)
Definition recover_group c (acc : W * recovery) (s : ID) : W * recovery :=
  let (w, rc) := acc in
  if negb (IsLeader s w) then (w, rc)
  else
    let (w, err) := catchUp c s w in
    match err with
    | Some e =>
        (w, mkRecovery (rc_resolved rc) (rc_blocked rc + 1)
              (match rc_err rc with
               | None => Some (wrap (λ m, "shard: " +:+ s +:+ " not caught up for recovery: " +:+ m) e)
               | Some e0 => Some e0
               end))
    | None => foldl (recover_tx c s) (w, rc) (InDoubt (MachineOf s w))
    end.

(** [RecoverInDoubt]; [order] is the order in which the map of groups is
    enumerated. *)
Definition RecoverInDoubt c (order : list ID) w : W * (Z * option error) :=
  let (w, rc) := foldl (recover_group c) (w, mkRecovery 0 0 None) order in
  (w, (rc_resolved rc,
       match rc_err rc with
       | Some e => Some e
       | None =>
           if 0 <? rc_blocked rc
           then Some (Wrapped ErrInDoubt (sentinel_msg ErrInDoubt +:+ ": " +:+ fmt_d (rc_blocked rc)
                        +:+ " transaction(s) still blocked awaiting a reachable coordinator"))
           else None
       end)).

Definition InDoubtCount (order : list ID) w : Z :=
  foldl (λ n s, n + Z.of_nat (length (InDoubt (MachineOf s w)))) 0 order.

End Protocol.
