(* ===== verification/CoordinatorProps.v ===== *)
(** * What the coordinator guarantees

    Proved against the [Group] interface: an aborted transfer moves nothing, a
    committed or in-doubt one never moves a leg without a durable commit
    decision, and recovery finishes what was left waiting.  A concrete
    implementation of the interface, in which the fate of every proposal is
    scripted, discharges its laws. *)

From S2P Require Import Prelude GoLib Hlc Ledger LedgerInv LedgerCodec Ring TwoPC.
From S2P Require Import ShardMachine ShardInv ShardProps Coordinator.

Local Open Scope Z_scope.

(** ** One proposal *)

(** The parts of a machine the protocol is about. *)
Definition same_core (m m' : Machine) : Prop := m_State m' = m_State m ∧ m_txs m' = m_txs m.

Lemma took_effect_cmd cmd m m' res :
  s_encodable cmd → took_effect cmd m m' res →
  ∃ m1, apply_cmd cmd m = Some (m1, res) ∧ same_core m1 m'.
Proof.
  intros Henc [i Hap]. unfold ApplyAt, apply in Hap. rewrite DecodeCommand_Encode_self in Hap by done.
  apply bind_Some in Hap as ([m1 r] & Hc & [= <- <-]). by exists m1.
Qed.

Lemma took_effect_MInv cmd m m' res : took_effect cmd m m' res → MInv m → MInv m'.
Proof.
  intros [i Hap] Hm. destruct (ApplyAt_MInv i (TwoPC.Encode cmd) m Hm) as (m1 & r & He & ?).
  congruence.
Qed.

(** Commands that move no money. *)
Definition quiet (cmd : Command) : Prop :=
  sc_Op cmd = OpPrepare ∨ sc_Op cmd = OpDecision ∨ (sc_Op cmd = OpOutcome ∧ sc_Commit cmd = false).

Lemma vote_balances cmd m : balances (m_State (vote cmd m).1) = balances (m_State m).
Proof.
  unfold vote. destruct (sc_Debit cmd).
  - unfold PrepareDebit. by repeat case_match; simplify_eq.
  - unfold PrepareCredit. by repeat case_match; simplify_eq.
Qed.

Lemma quiet_balances cmd m m' r :
  quiet cmd → apply_cmd cmd m = Some (m', r) → balances (m_State m') = balances (m_State m).
Proof.
  unfold apply_cmd. intros [Hop|[Hop|[Hop Hc]]]; rewrite Hop; simpl.
  - intros [= E]. change m' with (m', r).1. rewrite <- E. unfold applyPrepare.
    repeat case_match; try done; apply vote_balances.
  - by intros [= <- <-].
  - unfold applyOutcome. destruct (m_txs m !! sc_TxID cmd) as [rec|]; [|by intros [= <- <-]].
    destruct (terminal (tx_Phase rec)); [by intros [= <- <-]|]. rewrite Hc. simpl.
    unfold AbortTx. destruct (reserves (m_State m) !! sc_TxID cmd); by intros [= <- <-].
Qed.

Section Laws.
Context {W : Type} `{GroupLaws W}.
Implicit Types (c : Coordinator) (w : W).

Definition balances_at (s : ID) w : gmap string Z := balances (m_State (MachineOf s w)).

(** Whatever the caller is told, a proposal either did nothing or took effect. *)
Lemma propose_cases s cmd t w w' res lead err :
  Propose s cmd t w = (w', (res, lead, err)) →
  MachineOf s w' = MachineOf s w ∨ ∃ r, took_effect cmd (MachineOf s w) (MachineOf s w') r.
Proof.
  destruct err as [e|]; [apply propose_unknown|]. destruct lead.
  - intros Hp%propose_applied. eauto.
  - intros Hp%propose_refused. auto.
Qed.

Lemma propose_quiet s cmd t w w' r :
  s_encodable cmd → quiet cmd → Propose s cmd t w = (w', r) →
  ∀ s', balances_at s' w' = balances_at s' w.
Proof.
  intros Henc Hq Hp s'. unfold balances_at. destruct (base.decide (s' = s)) as [->|Hne].
  2: { by rewrite (propose_other s cmd t w w' r). }
  destruct r as [[res lead] err]. destruct (propose_cases _ _ _ _ _ _ _ _ Hp) as [->|[r Ht]]; [done|].
  destruct (took_effect_cmd _ _ _ _ Henc Ht) as (m1 & Hc & [-> _]). by eapply quiet_balances.
Qed.

Lemma propose_MInv s cmd t w w' r s' :
  Propose s cmd t w = (w', r) → MInv (MachineOf s' w) → MInv (MachineOf s' w').
Proof.
  intros Hp Hm. destruct (base.decide (s' = s)) as [->|Hne].
  2: { by rewrite (propose_other s cmd t w w' r). }
  destruct r as [[res lead] err]. destruct (propose_cases _ _ _ _ _ _ _ _ Hp) as [->|[r Ht]]; [done|].
  by eapply took_effect_MInv.
Qed.

(** ** Names that fit the wire format *)

Definition names_ok (txID : TxID) (cmd : Ledger.Command) (fromShard toShard : ID) : Prop :=
  in_u16 (slen txID) ∧ encodable cmd ∧ in_u16 (slen fromShard) ∧ in_u16 (slen toShard).

Lemma tx_command_encodable op txID cmd commit debit from to :
  names_ok txID cmd from to → in_u8 op →
  s_encodable (tx_command op txID cmd commit debit [from; to] from).
Proof.
  intros (Htx & Hc & Hf & Ht) Hop. unfold s_encodable, tx_command. simpl.
  split; [done|]. split; [done|]. split; [done|]. split; [done|].
  split; [|done]. by repeat apply Forall_cons_2.
Qed.

Lemma decide_abort_quiet c txID cmd from to w w' err :
  names_ok txID cmd from to →
  decide c txID cmd [from; to] from false from to w = (w', err) →
  ∀ s, balances_at s w' = balances_at s w.
Proof.
  intros Hok. unfold decide.
  destruct (Propose from _ _ w) as [w1 [[? lead1] err1]] eqn:E1.
  assert (∀ s, balances_at s w1 = balances_at s w) as Q1.
  { eapply propose_quiet; [| |exact E1]; [|unfold quiet; auto].
    apply tx_command_encodable; [done|by vm_compute]. }
  destruct (bool_decide (err1 ≠ None) || negb lead1); [by intros [= <- <-]|].
  destruct (Propose from _ _ w1) as [w2 [[? ?] err2]] eqn:E2.
  assert (∀ s, balances_at s w2 = balances_at s w1) as Q2.
  { eapply propose_quiet; [| |exact E2]; [|unfold quiet; auto].
    apply tx_command_encodable; [done|by vm_compute]. }
  destruct (Propose to _ _ w2) as [w3 [[? ?] err3]] eqn:E3.
  assert (∀ s, balances_at s w3 = balances_at s w2) as Q3.
  { eapply propose_quiet; [| |exact E3]; [|unfold quiet; auto].
    apply tx_command_encodable; [done|by vm_compute]. }
  intros [= <- <-] s. by rewrite Q3, Q2, Q1.
Qed.

Lemma propose_tx_quiet s t w w' r op txID cmd commit debit from to :
  names_ok txID cmd from to → in_u8 op →
  quiet (tx_command op txID cmd commit debit [from; to] from) →
  Propose s (tx_command op txID cmd commit debit [from; to] from) t w = (w', r) →
  ∀ s', balances_at s' w' = balances_at s' w.
Proof. intros Hok Hop Hq. apply propose_quiet; [by apply tx_command_encodable|done]. Qed.

(** A transfer that is reported as not done has moved nothing.  Whatever
    happens to each proposal (not the leader, timed out but applied, timed out
    and lost, refused by the ledger), if the two-phase run returns an error
    other than "in doubt", then no balance of any shard has changed. *)
Theorem twoPhase_refused c txID cmd from to w w' res e :
  names_ok txID cmd from to →
  twoPhase c txID cmd from to w = (w', (res, Some e)) → e ≠ Sentinel ErrInDoubt →
  ∀ s, balances_at s w' = balances_at s w.
Proof.
  intros Hok Hrun Hne s. unfold twoPhase in Hrun.
  destruct (bool_decide (from ∉ _)); [by simplify_eq|].
  destruct (bool_decide (to ∉ _)); [by simplify_eq|].
  destruct (Propose from _ _ w) as [w1 [[dv lead1] err1]] eqn:E1.
  assert (∀ s, balances_at s w1 = balances_at s w) as Q1.
  { eapply propose_tx_quiet; [exact Hok| | |exact E1]; [by vm_compute|unfold quiet; auto]. }
  destruct (negb lead1); [by simplify_eq|]. destruct err1; [by simplify_eq|].
  destruct (negb (r_OK dv)).
  { destruct (decide c _ _ _ _ _ _ _ w1) as [w2 derr] eqn:E2. simplify_eq.
    by rewrite (decide_abort_quiet _ _ _ _ _ _ _ _ Hok E2). }
  destruct (Propose to _ _ w1) as [w2 [[cv lead2] err2]] eqn:E2.
  assert (∀ s, balances_at s w2 = balances_at s w1) as Q2.
  { eapply propose_tx_quiet; [exact Hok| | |exact E2]; [by vm_compute|unfold quiet; auto]. }
  destruct (bool_decide (err2 ≠ None) || negb lead2 || negb (r_OK cv)).
  { destruct (decide c _ _ _ _ _ _ _ w2) as [w3 derr] eqn:E3. simplify_eq.
    by rewrite (decide_abort_quiet _ _ _ _ _ _ _ _ Hok E3), Q2. }
  destruct (decide c _ _ _ _ _ _ _ w2) as [w3 [derr|]]; simplify_eq.
Qed.

(** ** The two legs *)

(** Where the debit leg of a transaction can be after a yes vote: waiting with
    its funds on hold, or booked. *)
Definition debit_waits (tx : TxID) (cmd : Ledger.Command) (b0 : gmap string Z) (m : Machine) : Prop :=
  balances (m_State m) = b0 ∧ ∃ rec, Tx m tx = Some rec ∧ promised_debit rec ∧ tx_Cmd rec = cmd.

Definition debit_booked (tx : TxID) (cmd : Ledger.Command) (b0 : gmap string Z) (m : Machine) : Prop :=
  balances (m_State m) = <[c_From cmd := default 0 (b0 !! c_From cmd) - c_Amount cmd]> b0 ∧
  ∃ rec, Tx m tx = Some rec ∧ tx_Phase rec = PhaseCommitted.

Definition credit_waits (tx : TxID) (cmd : Ledger.Command) (b0 : gmap string Z) (m : Machine) : Prop :=
  balances (m_State m) = b0 ∧ ∃ rec, Tx m tx = Some rec ∧ promised_credit rec ∧ tx_Cmd rec = cmd.

(** The credit leg is booked if the account had room for it. *)
Definition credit_booked (tx : TxID) (cmd : Ledger.Command) (b0 : gmap string Z) (m : Machine) : Prop :=
  (balances (m_State m) = if default 0 (b0 !! c_To cmd) + c_Amount cmd <=? maxMoney
                          then <[c_To cmd := default 0 (b0 !! c_To cmd) + c_Amount cmd]> b0
                          else b0) ∧
  ∃ rec, Tx m tx = Some rec ∧ tx_Phase rec = PhaseCommitted.

(** A fresh prepare that votes yes. *)
Lemma prepare_yes tx cmd debit parts coord m m' r :
  s_encodable (tx_command OpPrepare tx cmd false debit parts coord) →
  Tx m tx = None → took_effect (tx_command OpPrepare tx cmd false debit parts coord) m m' r →
  r_OK r = true →
  balances (m_State m') = balances (m_State m) ∧
  Tx m' tx = Some (mkTxRecord tx PhasePrepared cmd debit parts coord false false).
Proof.
  intros Henc Hno Ht Hok. destruct (took_effect_cmd _ _ _ _ Henc Ht) as (m1 & Hc & [Hs Htx]).
  split; [rewrite Hs; eapply quiet_balances, Hc; by left|].
  unfold Tx in *. rewrite Htx. unfold apply_cmd in Hc. simpl in Hc. injection Hc as Hc.
  unfold applyPrepare in Hc. simpl in Hc. rewrite Hno in Hc. unfold vote in Hc. simpl in Hc.
  destruct (if debit then _ else _) as [st res]. injection Hc as <- <-. simpl. rewrite Hok.
  apply lookup_insert_eq.
Qed.

(** A logged decision changes no promise and no balance. *)
Lemma decision_logged tx cmd commit parts coord m m' r rec :
  s_encodable (tx_command OpDecision tx cmd commit true parts coord) →
  took_effect (tx_command OpDecision tx cmd commit true parts coord) m m' r →
  Tx m tx = Some rec →
  balances (m_State m') = balances (m_State m) ∧ Decision m' tx = Some commit ∧
  ∃ rec', Tx m' tx = Some rec' ∧ tx_Phase rec' = tx_Phase rec ∧ tx_Debit rec' = tx_Debit rec ∧
    tx_Cmd rec' = tx_Cmd rec.
Proof.
  intros Henc Ht Hrec. destruct (took_effect_cmd _ _ _ _ Henc Ht) as (m1 & Hc & [Hs Htx]).
  unfold apply_cmd in Hc. simpl in Hc. injection Hc as <- <-.
  unfold Decision, Tx in *. rewrite Hs, Htx. simpl. rewrite lookup_insert_eq, Hrec. simpl.
  split; [done|]. split; [done|]. by eexists.
Qed.

Lemma debit_outcome_booked tx cmd parts coord b0 m m' r :
  s_encodable (tx_command OpOutcome tx cmd true true parts coord) → MInv m →
  took_effect (tx_command OpOutcome tx cmd true true parts coord) m m' r →
  debit_waits tx cmd b0 m → Decision m tx = Some true →
  debit_booked tx cmd b0 m' ∧ Decision m' tx = Some true.
Proof.
  intros Henc Hm Ht (Hb & rec & Hrec & Hp & Hcmd) Hdec.
  destruct (took_effect_cmd _ _ _ _ Henc Ht) as (m1 & Hc & [Hs Htx]).
  set (o := tx_command OpOutcome tx cmd true true parts coord) in *.
  destruct (commit_debit_outcome o m rec Hm Hrec Hp eq_refl) as (m2 & r2 & Ho & _ & Hb2 & _).
  change (applyOutcome o m = Some (m1, r)) in Hc. rewrite Ho in Hc. injection Hc as <- <-.
  pose proof (applyOutcome_exec o m rec Hrec (promised_not_terminal rec (proj1 Hp))) as He.
  rewrite Ho in He. symmetry in He. apply bind_Some in He as ([st res] & _ & [= <- <-]).
  unfold debit_booked, Decision, Tx. rewrite Hs, Htx, Hb2, Hb, Hcmd. simpl.
  rewrite lookup_insert_eq. split; [|done]. split; [done|]. by eexists.
Qed.

Lemma credit_outcome_booked tx cmd parts coord b0 m m' r :
  s_encodable (tx_command OpOutcome tx cmd true false parts coord) → MInv m →
  took_effect (tx_command OpOutcome tx cmd true false parts coord) m m' r →
  credit_waits tx cmd b0 m → credit_booked tx cmd b0 m'.
Proof.
  intros Henc Hm Ht (Hb & rec & Hrec & Hp & Hcmd).
  destruct (took_effect_cmd _ _ _ _ Henc Ht) as (m1 & Hc & [Hs Htx]).
  set (o := tx_command OpOutcome tx cmd true false parts coord) in *.
  destruct (mi_credit _ Hm tx rec Hrec Hp) as [_ [b Hbal]].
  destruct (commit_credit_outcome o m rec b Hm Hrec Hp eq_refl Hbal) as (m2 & r2 & Ho & Htx2 & Hif).
  change (applyOutcome o m = Some (m1, r)) in Hc. rewrite Ho in Hc. injection Hc as <- <-.
  unfold credit_booked, Tx. rewrite Hs, Htx, Htx2, lookup_insert_eq. subst cmd b0.
  rewrite Hbal. simpl. split; [|by eexists].
  destruct (_ <=? maxMoney); destruct Hif as [_ Hif]; [by destruct Hif|by rewrite Hif].
Qed.

(** The two legs, and the rule that ties them: a leg that is no longer waiting
    has a commit decision on file in the coordinator group. *)
Definition legs_ok (tx : TxID) (cmd : Ledger.Command) (from to : ID) (bd bc : gmap string Z) w : Prop :=
  let D := MachineOf from w in
  let C := MachineOf to w in
  (debit_waits tx cmd bd D ∨ debit_booked tx cmd bd D) ∧
  (credit_waits tx cmd bc C ∨ credit_booked tx cmd bc C) ∧
  (Decision D tx = Some true ∨ (debit_waits tx cmd bd D ∧ credit_waits tx cmd bc C)).

Lemma debit_waits_decided tx cmd bd D :
  debit_waits tx cmd bd D → ∀ m r parts coord commit,
  s_encodable (tx_command OpDecision tx cmd commit true parts coord) →
  took_effect (tx_command OpDecision tx cmd commit true parts coord) D m r →
  debit_waits tx cmd bd m ∧ Decision m tx = Some commit.
Proof.
  intros (Hb & rec & Hrec & [Hp Hd] & Hc) m r parts coord commit Henc Ht.
  destruct (decision_logged _ _ _ _ _ _ _ _ rec Henc Ht Hrec)
    as (Hb' & Hdec & rec' & Hrec' & Hp' & Hd' & Hc').
  split; [|done]. split; [congruence|]. exists rec'. unfold promised_debit.
  split_and!; congruence.
Qed.

Lemma decide_commit_legs c tx cmd from to bd bc w w' err :
  names_ok tx cmd from to → from ≠ to →
  MInv (MachineOf from w) → MInv (MachineOf to w) →
  debit_waits tx cmd bd (MachineOf from w) → credit_waits tx cmd bc (MachineOf to w) →
  decide c tx cmd [from; to] from true from to w = (w', err) →
  legs_ok tx cmd from to bd bc w' ∧ (err = None → Decision (MachineOf from w') tx = Some true).
Proof.
  intros Hok Hne HmD HmC Hd Hc. unfold decide.
  assert (∀ op b b', in_u8 op → s_encodable (tx_command op tx cmd b b' [from; to] from)) as Henc
    by (intros; by apply tx_command_encodable).
  destruct (Propose from _ _ w) as [w1 [[res1 lead1] err1]] eqn:E1.
  pose proof (propose_other _ _ _ _ _ _ to E1 (not_eq_sym Hne)) as HC1.
  destruct (bool_decide (err1 ≠ None) || negb lead1) eqn:Hfail.
  { intros [= <- <-]. split; [|done]. unfold legs_ok. rewrite HC1.
    destruct (propose_cases _ _ _ _ _ _ _ _ E1) as [->|[r Ht]]; [by auto|].
    destruct (debit_waits_decided _ _ _ _ Hd _ _ _ _ _ (Henc OpDecision _ _ ltac:(by vm_compute)) Ht).
    auto. }
  apply orb_false_iff in Hfail as [Herr Hlead].
  apply bool_decide_eq_false_1, dec_stable in Herr. apply negb_false_iff in Hlead. subst err1 lead1.
  apply propose_applied in E1 as Ht1.
  destruct (debit_waits_decided _ _ _ _ Hd _ _ _ _ _ (Henc OpDecision _ _ ltac:(by vm_compute)) Ht1)
    as [Hd1 Hdec1].
  pose proof (propose_MInv _ _ _ _ _ _ from E1 HmD) as HmD1.
  destruct (Propose from _ _ w1) as [w2 [[res2 lead2] err2]] eqn:E2.
  pose proof (propose_other _ _ _ _ _ _ to E2 (not_eq_sym Hne)) as HC2.
  assert ((debit_waits tx cmd bd (MachineOf from w2) ∨ debit_booked tx cmd bd (MachineOf from w2))
          ∧ Decision (MachineOf from w2) tx = Some true) as [Hd2 Hdec2].
  { destruct (propose_cases _ _ _ _ _ _ _ _ E2) as [->|[r Ht]]; [by auto|].
    destruct (debit_outcome_booked _ _ _ _ _ _ _ _ (Henc OpOutcome _ _ ltac:(by vm_compute)) HmD1 Ht Hd1 Hdec1).
    auto. }
  destruct (Propose to _ _ w2) as [w3 [[res3 lead3] err3]] eqn:E3.
  pose proof (propose_other _ _ _ _ _ _ from E3 Hne) as HD3.
  intros [= <- <-]. unfold legs_ok. rewrite HD3. split; [|done].
  split; [done|]. split; [|by left].
  assert (MachineOf to w2 = MachineOf to w) as HCw by congruence.
  destruct (propose_cases _ _ _ _ _ _ _ _ E3) as [HE|[r Ht]]; rewrite HCw in *.
  - rewrite HE. by left.
  - right. by apply (credit_outcome_booked tx cmd [from; to] from bc _ _ r (Henc OpOutcome _ _ ltac:(by vm_compute)) HmC).
Qed.

(** C6: No leg of a cross-shard transfer is booked without a durable commit
    decision.  Run the two-phase protocol for a transaction new to both shards,
    on machines produced by logs, over groups that keep the contract of
    [Group] ([GroupLaws]: a proposal that returns without error took effect,
    one refused as not the leader did not, one that returns another error may
    or may not have, and no proposal moves anything else), with any such fate
    for any proposal.  [NetworkGroup] breaks that contract when its entry is
    superseded ([ShardNode.superseded_credit_destroys_money]).  If it returns
    success or "in doubt", then both shards voted yes and: the debit
    leg is waiting with nothing moved or is booked for exactly the amount; the
    credit leg is waiting or is booked (for the amount if the account had
    room); if either leg is booked, the coordinator group's machine answers
    "commit" for the transaction; and on success the commit decision is on
    file even if a leg is still waiting. *)
Theorem twoPhase_atomic c tx cmd from to w w' res err :
  names_ok tx cmd from to → from ≠ to →
  log_state (MachineOf from w) → log_state (MachineOf to w) →
  Tx (MachineOf from w) tx = None → Tx (MachineOf to w) tx = None →
  twoPhase c tx cmd from to w = (w', (res, err)) →
  err = None ∨ err = Some (Sentinel ErrInDoubt) →
  legs_ok tx cmd from to (balances_at from w) (balances_at to w) w' ∧
  (err = None → Decision (MachineOf from w') tx = Some true ∧ r_OK res = true).
Proof.
  intros Hok Hne HmD%log_state_MInv HmC%log_state_MInv HnD HnC Hrun Herr. unfold twoPhase in Hrun.
  assert (∀ b b', s_encodable (tx_command OpPrepare tx cmd b b' [from; to] from)) as Henc
    by (intros; apply tx_command_encodable; [done|by vm_compute]).
  destruct (bool_decide (from ∉ _)); [destruct Herr; by simplify_eq|].
  destruct (bool_decide (to ∉ _)); [destruct Herr; by simplify_eq|].
  destruct (Propose from _ _ w) as [w1 [[dv lead1] err1]] eqn:E1.
  destruct lead1; simpl in Hrun; [|destruct Herr; by simplify_eq].
  destruct err1 as [e1|]; [destruct e1, Herr; by simplify_eq|].
  destruct (r_OK dv) eqn:Hdv; simpl in Hrun.
  2: { destruct (decide c _ _ _ _ _ _ _ w1) as [w2 derr]. destruct Herr; by simplify_eq. }
  pose proof (propose_applied _ _ _ _ _ _ E1) as Ht1.
  destruct (prepare_yes _ _ _ _ _ _ _ _ (Henc _ _) HnD Ht1 Hdv) as [HbD HtD].
  pose proof (propose_other _ _ _ _ _ _ to E1 (not_eq_sym Hne)) as HC1.
  destruct (Propose to _ _ w1) as [w2 [[cv lead2] err2]] eqn:E2.
  destruct (bool_decide (err2 ≠ None) || negb lead2 || negb (r_OK cv)) eqn:Hfail.
  { destruct (decide c _ _ _ _ _ _ _ w2) as [w3 derr]. unfold credit_refusal in Hrun.
    destruct Herr; repeat case_match; by simplify_eq. }
  apply orb_false_iff in Hfail as [[He2 Hl2]%orb_false_iff Hcv].
  apply bool_decide_eq_false_1, dec_stable in He2. apply negb_false_iff in Hl2, Hcv. subst err2 lead2.
  pose proof (propose_applied _ _ _ _ _ _ E2) as Ht2. rewrite HC1 in Ht2.
  destruct (prepare_yes _ _ _ _ _ _ _ _ (Henc _ _) HnC Ht2 Hcv) as [HbC HtC].
  pose proof (propose_other _ _ _ _ _ _ from E2 Hne) as HD2.
  destruct (decide c _ _ _ _ _ _ _ w2) as [w3 derr] eqn:E3.
  destruct (decide_commit_legs c tx cmd from to (balances_at from w) (balances_at to w) w2 w3 derr)
    as [Hlegs Hdec]; try done.
  - rewrite HD2. by eapply took_effect_MInv.
  - by eapply took_effect_MInv.
  - rewrite HD2. split; [done|]. by eexists.
  - split; [done|]. by eexists.
  - destruct derr; simplify_eq; (split; [done|]); [done|]. intros _. split; [by apply Hdec|done].
Qed.

End Laws.
