(* ===== verification/Recovery.v ===== *)
(** * Recovery of in-doubt transactions (src/shard/coordinator.go)

    [RecoverInDoubt] settles every prepared transaction of the groups it can
    reach by the decision of the transaction's coordinator group.  The proofs
    follow one relation, [advances]: with respect to the decisions on file when
    recovery started, a record either stays as it is or goes from prepared to
    settled by that decision. *)

From S2P Require Import Prelude GoLib Hlc Ledger LedgerInv LedgerCodec Ring TwoPC.
From S2P Require Import ShardMachine ShardInv ShardProps Coordinator CoordinatorProps.

Local Open Scope Z_scope.

Section Recovery.
Context {W : Type} `{GroupLaws W}.
Implicit Types (c : Coordinator) (w : W).

(** The decision recovery reads: abort unless the coordinator group has commit
    on file. *)
Definition decided_commit w (coord : ID) (tx : TxID) : bool :=
  default false (Decision (MachineOf coord w) tx).

Definition tx_at w (s : ID) (tx : TxID) : option TxRecord := Tx (MachineOf s w) tx.

Definition settled_by w (tx : TxID) (rec : TxRecord) : TxRecord :=
  settle rec (decided_commit w (coordinator_of rec) tx).

(** From [w] to [w'], by the decisions of [w0]. *)
Definition advances w0 w w' : Prop :=
  ∀ s tx, tx_at w' s tx = tx_at w s tx ∨
    ∃ rec, tx_at w s tx = Some rec ∧ tx_Phase rec = PhasePrepared ∧
           tx_at w' s tx = Some (settled_by w0 tx rec).

Lemma settled_not_prepared rec b : tx_Phase (settle rec b) ≠ PhasePrepared.
Proof. by destruct b. Qed.

Lemma advances_refl w0 w : advances w0 w w.
Proof. intros s tx. by left. Qed.

Lemma advances_trans w0 w1 w2 w3 : advances w0 w1 w2 → advances w0 w2 w3 → advances w0 w1 w3.
Proof.
  intros H12 H23 s tx.
  destruct (H12 s tx) as [E12|(r & Hr & Hp & Hs)], (H23 s tx) as [E23|(r' & Hr' & Hp' & Hs')].
  - left. congruence.
  - right. exists r'. split_and!; congruence.
  - right. exists r. split_and!; congruence.
  - exfalso. rewrite Hs in Hr'. simplify_eq. by apply settled_not_prepared in Hp'.
Qed.

(** Prepared records of one transaction name one coordinator, wherever they are. *)
Definition coordinators_agree w : Prop :=
  ∀ s s' tx rec rec', tx_at w s tx = Some rec → tx_at w s' tx = Some rec' →
    tx_Phase rec = PhasePrepared → tx_Phase rec' = PhasePrepared →
    coordinator_of rec = coordinator_of rec'.

(** The coordinator group of a prepared record, if it has prepared the
    transaction itself, is the one it names. *)
Definition coordinators_self w : Prop :=
  ∀ s tx rec rec', tx_at w s tx = Some rec → tx_Phase rec = PhasePrepared →
    tx_at w (coordinator_of rec) tx = Some rec' → tx_Phase rec' = PhasePrepared →
    coordinator_of rec' = coordinator_of rec.

Lemma agree_self w : coordinators_agree w → coordinators_self w.
Proof. intros Ha s tx rec rec' Hr Hp Hr' Hp'. by apply (Ha (coordinator_of rec) s tx). Qed.

(** While recovery advances, what it reads of a coordinator does not change. *)
Lemma decided_stable w0 w s tx rec :
  coordinators_agree w0 → advances w0 w0 w →
  tx_at w0 s tx = Some rec → tx_Phase rec = PhasePrepared →
  decided_commit w (coordinator_of rec) tx = decided_commit w0 (coordinator_of rec) tx.
Proof.
  intros Hagree Hadv Hrec Hp. unfold decided_commit, Decision.
  destruct (Hadv (coordinator_of rec) tx) as [E|(rec' & Hr' & Hp' & Hs)].
  - unfold tx_at, Tx in E. by rewrite E.
  - unfold tx_at, Tx in Hs. rewrite Hs. simpl. unfold settled_by, settle. simpl.
    rewrite (agree_self w0 Hagree s tx rec rec') by done.
    unfold decided_commit, Decision. done.
Qed.

(** ** Healthy groups *)

(** In good worlds this node leads the groups, their proposals are applied in
    time, and the world stays good. *)
Definition healthy (good : W → Prop) (order : list ID) : Prop :=
  ∀ s w cmd t, s ∈ order → good w →
    IsLeader s w = true ∧ ∃ w' res, Propose s cmd t w = (w', (res, true, None)) ∧ good w'.

(** The outcome commands recovery sends fit the wire format. *)
Definition recoverable w : Prop :=
  ∀ s tx rec, tx_at w s tx = Some rec → tx_Phase rec = PhasePrepared →
    coordinator_of rec ≠ "" ∧
    ∀ commit, s_encodable (mkCommand OpOutcome tx (tx_Cmd rec) commit (tx_Debit rec)
                             (tx_Participants rec) (coordinator_of rec)).

Lemma zero_single_encodable : s_encodable (mkCommand OpSingle "" zeroCommand false false [] "").
Proof.
  unfold s_encodable, encodable.
  repeat first [apply Forall_nil | apply conj]; vm_compute; repeat split; congruence.
Qed.

Lemma catchUp_advances c s w w' err :
  catchUp c s w = (w', err) → ∀ s' tx, tx_at w' s' tx = tx_at w s' tx.
Proof.
  unfold catchUp. destruct (Propose s _ _ w) as [w1 [[res lead] e]] eqn:E.
  intros [= <- _] s' tx. unfold tx_at. destruct (base.decide (s' = s)) as [->|Hne].
  2: { by rewrite (propose_other _ _ _ _ _ _ s' E). }
  destruct (propose_cases _ _ _ _ _ _ _ _ E) as [->|[r Ht]]; [done|].
  destruct (took_effect_cmd _ _ _ _ zero_single_encodable Ht) as (m1 & Hc & [_ Htx]).
  unfold apply_cmd in Hc. simpl in Hc. injection Hc as <- _. unfold Tx. by rewrite Htx.
Qed.

Lemma applyOutcome_txs cmd m m' r rec :
  m_txs m !! sc_TxID cmd = Some rec → tx_Phase rec = PhasePrepared →
  applyOutcome cmd m = Some (m', r) →
  m_txs m' = <[sc_TxID cmd := settle rec (sc_Commit cmd)]> (m_txs m).
Proof.
  intros Hrec Hp. rewrite (applyOutcome_exec cmd m rec) by (done || by apply promised_not_terminal).
  by intros ([st res] & _ & [= <- <-])%bind_Some.
Qed.

Section Run.
Context (c : Coordinator) (order : list ID) (w0 : W) (good : W → Prop).
Hypothesis (Hhealthy : healthy good order).
Hypothesis (Hgroups : ∀ s, s ∈ co_groups c → s ∈ order).
Hypothesis (Hagree : coordinators_agree w0).
Hypothesis (Hrec : recoverable w0).
Hypothesis (Hnamed : ∀ s tx rec, tx_at w0 s tx = Some rec → tx_Phase rec = PhasePrepared →
  coordinator_of rec ∈ co_groups c).

(** A record that is prepared now was prepared when recovery started. *)
Lemma still_prepared w s tx rec :
  advances w0 w0 w → tx_at w s tx = Some rec → tx_Phase rec = PhasePrepared →
  tx_at w0 s tx = Some rec.
Proof.
  intros Hadv Hr Hp. destruct (Hadv s tx) as [E|(r & _ & _ & Hs)]; [congruence|].
  rewrite Hs in Hr. simplify_eq. by apply settled_not_prepared in Hp.
Qed.

Lemma recover_tx_settles s w rc tx rec :
  s ∈ order → good w → advances w0 w0 w → tx_at w s tx = Some rec →
  tx_Phase rec = PhasePrepared →
  ∃ w', good w' ∧ recover_tx c s (w, rc) tx = (w', mkRecovery (rc_resolved rc + 1) (rc_blocked rc) (rc_err rc))
    ∧ advances w0 w w' ∧ tx_at w' s tx = Some (settled_by w0 tx rec)
    ∧ ∀ tx', tx' ≠ tx → tx_at w' s tx' = tx_at w s tx'.
Proof.
  intros Hs Hgood Hadv Hr Hp. pose proof (still_prepared w s tx rec Hadv Hr Hp) as Hr0.
  destruct (Hrec s tx rec Hr0 Hp) as [Hne Henc].
  pose proof (Hnamed s tx rec Hr0 Hp) as Hin.
  unfold recover_tx. unfold tx_at in Hr. rewrite Hr.
  rewrite bool_decide_eq_false_2 by done. rewrite bool_decide_eq_false_2 by (intros Hx; by apply Hx).
  destruct (Hhealthy (coordinator_of rec) w (mkCommand 0 "" zeroCommand false false [] "") 0
              (Hgroups _ Hin) Hgood) as [-> _]. simpl.
  change (default false _) with (decided_commit w (coordinator_of rec) tx).
  rewrite (decided_stable w0 w s tx rec) by done.
  set (o := mkCommand OpOutcome _ _ _ _ _ _).
  destruct (Hhealthy s w o (co_commitTimeout c) Hs Hgood) as [_ (w' & res & E & Hgood')]. rewrite E.
  exists w'. split; [done|]. split; [done|].
  pose proof (propose_applied _ _ _ _ _ _ E) as Ht.
  destruct (took_effect_cmd _ _ _ _ (Henc _) Ht) as (m1 & Hc & [_ Htx]).
  change (applyOutcome o (MachineOf s w) = Some (m1, res)) in Hc.
  pose proof (applyOutcome_txs o (MachineOf s w) m1 res rec Hr Hp Hc) as Htxs. simpl in Htxs.
  assert (tx_at w' s tx = Some (settled_by w0 tx rec)) as Hdone.
  { unfold tx_at, Tx. by rewrite Htx, Htxs, lookup_insert_eq. }
  assert (∀ tx', tx' ≠ tx → tx_at w' s tx' = tx_at w s tx') as Hoff.
  { intros tx' Hnt. unfold tx_at, Tx. by rewrite Htx, Htxs, lookup_insert_ne. }
  split_and!; try done. intros s' tx'. destruct (base.decide (s' = s)) as [->|Hns].
  2: { left. unfold tx_at. by rewrite (propose_other _ _ _ _ _ _ s' E). }
  destruct (base.decide (tx' = tx)) as [->|Hnt]; [right; by exists rec|left; by apply Hoff].
Qed.

(** The inner loop. *)
Lemma recover_txs_settle s l w rc :
  s ∈ order → good w → advances w0 w0 w → NoDup l →
  (∀ tx, tx ∈ l → ∃ rec, tx_at w s tx = Some rec ∧ tx_Phase rec = PhasePrepared) →
  ∃ w', good w' ∧ foldl (recover_tx c s) (w, rc) l
        = (w', mkRecovery (rc_resolved rc + Z.of_nat (length l)) (rc_blocked rc) (rc_err rc)) ∧
    advances w0 w w' ∧ advances w0 w0 w' ∧
    ∀ tx, tx ∈ l → ∀ rec, tx_at w' s tx = Some rec → tx_Phase rec ≠ PhasePrepared.
Proof.
  intros Hs. revert w rc. induction l as [|tx l IH]; intros w rc Hgood Hadv Hnd Hl; cbn [foldl].
  { exists w. split; [done|]. split; [by destruct rc; simpl; rewrite Z.add_0_r|].
    split; [apply advances_refl|]. split; [done|]. by intros tx Htx%not_elem_of_nil. }
  apply NoDup_cons in Hnd as [Hnotin Hnd].
  destruct (Hl tx) as (rec & Hr & Hp); [by left|].
  destruct (recover_tx_settles s w rc tx rec Hs Hgood Hadv Hr Hp)
    as (w1 & Hgood1 & -> & Hadv1 & Hdone & Hoff).
  destruct (IH w1 (mkRecovery (rc_resolved rc + 1) (rc_blocked rc) (rc_err rc)))
    as (w' & Hgood' & -> & Hadv' & Hadv0' & Hl'); [done|by eapply advances_trans|done| |].
  { intros tx' Htx'. rewrite Hoff by (intros ->; done). apply Hl. by right. }
  exists w'. cbn [rc_resolved rc_blocked rc_err length]. split; [done|]. split; [f_equal; f_equal; lia|].
  split; [by eapply advances_trans|]. split; [done|].
  intros tx' [->|Htx']%elem_of_cons rec' Hr'; [|by apply (Hl' tx')].
  destruct (Hadv' s tx) as [E|(r & Hr1 & Hp1 & _)].
  - rewrite E, Hdone in Hr'. simplify_eq. apply settled_not_prepared.
  - rewrite Hdone in Hr1. simplify_eq. by apply settled_not_prepared in Hp1.
Qed.

Lemma NoDup_InDoubt m : NoDup (InDoubt m).
Proof.
  unfold InDoubt. eapply sublist_NoDup; [exact (NoDup_fst_map_to_list (m_txs m))|].
  apply fmap_sublist, sublist_filter.
Qed.

(** No transaction of [s] is in doubt. *)
Definition clear_at w (s : ID) : Prop :=
  ∀ tx rec, tx_at w s tx = Some rec → tx_Phase rec ≠ PhasePrepared.

Lemma clear_advances w1 w w' s : clear_at w s → advances w1 w w' → clear_at w' s.
Proof.
  intros Hc Hadv tx rec Hr. destruct (Hadv s tx) as [E|(r & Hr1 & Hp1 & _)].
  - rewrite E in Hr. by apply (Hc tx).
  - by apply (Hc tx) in Hr1.
Qed.

(** The outer loop, one group. *)
Lemma recover_group_clears s w rc :
  s ∈ order → good w → advances w0 w0 w →
  ∃ w' n, good w' ∧ recover_group c (w, rc) s = (w', mkRecovery n (rc_blocked rc) (rc_err rc)) ∧
    advances w0 w w' ∧ advances w0 w0 w' ∧ clear_at w' s.
Proof.
  intros Hs Hgood Hadv. unfold recover_group.
  destruct (Hhealthy s w (mkCommand OpSingle "" zeroCommand false false [] "")
              (co_commitTimeout c) Hs Hgood) as [-> (w1 & res & E & Hgood1)]. simpl.
  assert (catchUp c s w = (w1, None)) as Hcu by (unfold catchUp; by rewrite E).
  rewrite Hcu. pose proof (catchUp_advances c s w w1 None Hcu) as Hsame.
  assert (advances w0 w w1) as Ha1 by (intros s' tx; by left).
  destruct (recover_txs_settle s (InDoubt (MachineOf s w1)) w1 rc Hs Hgood1)
    as (w' & Hgood' & -> & Ha' & Ha0' & Hclear); [by eapply advances_trans|apply NoDup_InDoubt| |].
  { intros tx. by rewrite elem_of_InDoubt. }
  eexists w', _. split; [done|]. split; [done|]. split; [by eapply advances_trans|].
  split; [done|]. intros tx rec Hr Hp. apply (Hclear tx) in Hr; [done|].
  rewrite elem_of_InDoubt. destruct (Ha' s tx) as [E'|(r & Hr1 & Hp1 & _)]; [|eauto].
  exists rec. split; [|done]. unfold tx_at, Tx in *. congruence.
Qed.

(** The outer loop. *)
Lemma recover_groups_clear l w rc :
  (∀ s, s ∈ l → s ∈ order) → good w → advances w0 w0 w →
  ∃ w' n, foldl (recover_group c) (w, rc) l = (w', mkRecovery n (rc_blocked rc) (rc_err rc)) ∧
    advances w0 w w' ∧ advances w0 w0 w' ∧ ∀ s, s ∈ l → clear_at w' s.
Proof.
  revert w rc. induction l as [|s l IH]; intros w rc Hl Hgood Hadv; cbn [foldl].
  { exists w, (rc_resolved rc). split; [by destruct rc|]. split; [apply advances_refl|].
    split; [done|]. by intros s Hs%not_elem_of_nil. }
  destruct (recover_group_clears s w rc) as (w1 & n1 & Hgood1 & -> & Ha1 & Ha01 & Hc1);
    [apply Hl; by left|done|done|].
  destruct (IH w1 (mkRecovery n1 (rc_blocked rc) (rc_err rc))) as (w' & n & -> & Ha & Ha0 & Hc);
    [intros; apply Hl; by right|done|done|].
  exists w', n. split; [done|]. split; [by eapply advances_trans|]. split; [done|].
  intros s' [->|Hs']%elem_of_cons; [by eapply clear_advances|by apply Hc].
Qed.

End Run.

(** C14: Recovery settles every in-doubt transaction by its coordinator's
    decision.  Suppose this node leads all groups and their proposals are
    applied in time, the prepared records of a transaction name one and the
    same known coordinator group, and the recovery commands fit the wire
    format.  Then, in whatever order the groups are enumerated,
    [RecoverInDoubt] returns without an error, no group is left with a
    transaction in doubt, every record that was prepared is settled as
    committed if its coordinator group had commit on file when recovery started
    and as aborted otherwise (so all participants of a transaction agree), and
    every other record is untouched. *)
Theorem RecoverInDoubt_agreement (good : W → Prop) c order w w' n err :
  healthy good order → good w → (∀ s, s ∈ co_groups c → s ∈ order) →
  coordinators_agree w → recoverable w →
  (∀ s tx rec, tx_at w s tx = Some rec → tx_Phase rec = PhasePrepared →
     coordinator_of rec ∈ co_groups c) →
  RecoverInDoubt c order w = (w', (n, err)) →
  err = None ∧ (∀ s, s ∈ order → InDoubt (MachineOf s w') = []) ∧
  (∀ s tx rec, s ∈ order → tx_at w s tx = Some rec →
     tx_at w' s tx = Some (if tx_Phase rec =? PhasePrepared
       then settle rec (default false (Decision (MachineOf (coordinator_of rec) w) tx))
       else rec)).
Proof.
  intros Hh Hgood Hg Ha Hr Hn Hrun. unfold RecoverInDoubt in Hrun.
  destruct (recover_groups_clear c order w good Hh Hg Ha Hr Hn order w (mkRecovery 0 0 None))
    as (w1 & n1 & Hfold & Hadv & _ & Hclear); [done|done|apply advances_refl|].
  rewrite Hfold in Hrun. simpl in Hrun. simplify_eq. split; [done|]. split.
  - intros s Hs. destruct (InDoubt (MachineOf s w')) as [|tx l] eqn:E; [done|].
    assert (tx ∈ InDoubt (MachineOf s w')) as Hin by (rewrite E; by left).
    apply elem_of_InDoubt in Hin as (rec & Hrec & Hp). by destruct (Hclear s Hs tx rec Hrec).
  - intros s tx rec Hs Hrec. destruct (Hadv s tx) as [E|(r & Hr1 & Hp1 & Hs1)].
    + rewrite E, Hrec. destruct (Z.eqb_spec (tx_Phase rec) PhasePrepared) as [Hp|]; [|done].
      rewrite <- E in Hrec. by destruct (Hclear s Hs tx rec Hrec).
    + rewrite Hrec in Hr1. simplify_eq. rewrite Hp1. done.
Qed.

End Recovery.
