(* ===== verification/ScriptedGroups.v ===== *)
(** * Groups with scripted fates

    An implementation of the coordinator's [Group] interface: each shard is its
    machine, and a script says what becomes of each proposal in turn (applied,
    refused because this node does not lead, timed out with or without effect,
    leadership lost with or without effect).  With an empty script every
    proposal is applied.  It discharges the laws of the interface, and runs the
    coordinator on concrete scenarios. *)

From S2P Require Import Prelude GoLib Hlc Ledger LedgerInv LedgerCodec Ring TwoPC.
From S2P Require Import ShardMachine ShardInv ShardProps Coordinator CoordinatorProps Recovery.

Local Open Scope Z_scope.

Inductive fate := FApplied | FRefused | FTimeout (applied : bool) | FLost (applied : bool).

Record world := mkWorld {
  w_machines : gmap string Machine;
  w_script : list fate;
  w_index : Z
}.

Definition machine_of (s : ID) (w : world) : Machine :=
  default (NewMachine s New) (w_machines w !! s).

Definition set_machine (s : ID) (m : Machine) (script : list fate) (w : world) : world :=
  mkWorld (<[s:=m]> (w_machines w)) script (w_index w + 1).

Definition skip (script : list fate) (w : world) : world :=
  mkWorld (w_machines w) script (w_index w + 1).

Definition timed_out (s : ID) : error := Plain ("shard " +:+ s +:+ " timed out applying entry").

(** A machine whose log application would panic takes the group down: the
    proposal is refused. *)
Definition scripted_propose (s : ID) (cmd : Command) (t : Z) (w : world)
    : world * (Result * bool * option error) :=
  let (f, rest) := match w_script w with [] => (FApplied, []) | f :: rest => (f, rest) end in
  match ApplyAt (w_index w) (TwoPC.Encode cmd) (machine_of s w) with
  | None => (skip rest w, (zeroResult, false, None))
  | Some (m', res) =>
      match f with
      | FApplied => (set_machine s m' rest w, (res, true, None))
      | FRefused => (skip rest w, (zeroResult, false, None))
      | FTimeout true => (set_machine s m' rest w, (zeroResult, true, Some (timed_out s)))
      | FTimeout false => (skip rest w, (zeroResult, true, Some (timed_out s)))
      | FLost true => (set_machine s m' rest w, (zeroResult, false, Some (timed_out s)))
      | FLost false => (skip rest w, (zeroResult, false, Some (timed_out s)))
      end
  end.

#[global] Instance scripted_group : Group world := {|
  Propose := scripted_propose;
  MachineOf := machine_of;
  IsLeader := λ _ _, true
|}.

Lemma machine_of_set s m rest w : machine_of s (set_machine s m rest w) = m.
Proof. unfold machine_of. simpl. by rewrite lookup_insert_eq. Qed.

Lemma machine_of_set_ne s s' m rest w :
  s' ≠ s → machine_of s' (set_machine s m rest w) = machine_of s' w.
Proof. intros Hne. unfold machine_of. simpl. by rewrite lookup_insert_ne. Qed.

Lemma machine_of_skip s rest w : machine_of s (skip rest w) = machine_of s w.
Proof. reflexivity. Qed.

#[global] Instance scripted_laws : GroupLaws world.
Proof.
  split; intros *; cbn [Propose MachineOf scripted_group]; unfold scripted_propose, took_effect;
    destruct (match w_script w with [] => _ | _ => _ end) as [f rest];
    destruct (ApplyAt _ _ _) as [[m' r']|] eqn:Happ; intros Hp;
    try (destruct f as [| |[]|[]]); simplify_eq; intros;
    rewrite ?machine_of_set, ?machine_of_skip; try rewrite machine_of_set_ne by done;
    try done; eauto.
Qed.

(** Worlds in which everything works. *)
Definition all_good (w : world) : Prop := w_script w = [] ∧ ∀ s, MInv (machine_of s w).

Lemma all_good_healthy order : healthy all_good order.
Proof.
  intros s w cmd t _ [Hscript Hm]. split; [done|]. cbn [Propose scripted_group].
  unfold scripted_propose. rewrite Hscript.
  destruct (ApplyAt_MInv (w_index w) (TwoPC.Encode cmd) (machine_of s w) (Hm s))
    as (m' & r & -> & Hm'). eexists _, _. split; [done|]. split; [done|].
  intros s'. destruct (base.decide (s' = s)) as [->|Hne].
  - by rewrite machine_of_set.
  - rewrite machine_of_set_ne by done. apply Hm.
Qed.

(** ** A two-shard bank *)

(** Account "a" with 100 on shard "s1", account "b" with 5 on shard "s2". *)
Definition bank_world (script : list fate) : world :=
  mkWorld {["s1" := sh_after [sh_open "a" 100]; "s2" := sh_after [sh_open "b" 5]]} script 10.

Definition bank_coord : Coordinator := NewCoordinator (mkRing [] 0 []) {["s1"; "s2"]}.

Definition bank_cmd : Ledger.Command := Ledger.mkCommand OpTransfer "k" "a" "b" 30 (mkTimestamp 5 0).

Definition run_bank (w : world) : world * (Result * option error) :=
  twoPhase bank_coord "k" bank_cmd "s1" "s2" w.

(** All the money in the two shards. *)
Definition bank_total (w : world) : Z :=
  total (m_State (machine_of "s1" w)) + total (m_State (machine_of "s2" w)).

Example bank_total_start : bank_total (bank_world []) = 105.
Proof. vm_compute. reflexivity. Qed.

Lemma bank_names_ok : names_ok "k" bank_cmd "s1" "s2".
Proof.
  unfold names_ok, encodable. repeat apply conj; vm_compute; repeat split; congruence.
Qed.

Lemma bank_log_state s : s = "s1" ∨ s = "s2" → log_state (machine_of s (bank_world [])).
Proof.
  intros [->| ->].
  - exists "s1", (sh_log [sh_open "a" 100]). vm_compute. reflexivity.
  - exists "s1", (sh_log [sh_open "b" 5]). vm_compute. reflexivity.
Qed.

(** The credit shard cannot be reached for its vote: refused, nothing moves. *)
Lemma twoPhase_refused_witness :
  let w := bank_world [FApplied; FRefused] in
  ∃ w' res e, run_bank w = (w', (res, Some e)) ∧
    balances_at "s1" w' = balances_at "s1" w ∧ balances_at "s2" w' = balances_at "s2" w.
Proof.
  cbv zeta. destruct (run_bank (bank_world [FApplied; FRefused])) as [w' [res [e|]]] eqn:E.
  2: { exfalso. vm_compute in E. congruence. }
  assert (e ≠ Sentinel ErrInDoubt) as Hne by (vm_compute in E; congruence).
  pose proof (twoPhase_refused bank_coord "k" bank_cmd "s1" "s2" _ w' res e bank_names_ok E Hne) as H.
  exists w', res, e. split; [reflexivity|]. split; [exact (H "s1")|exact (H "s2")].
Defined.

(** The credit shard's outcome is lost: in doubt, with the decision on file. *)
Definition lost_credit : list fate := [FApplied; FApplied; FApplied; FApplied; FTimeout false].

Lemma twoPhase_atomic_witness :
  let w := mkWorld (w_machines (bank_world [])) lost_credit 10 in
  ∃ w' res, run_bank w = (w', (res, Some (Sentinel ErrInDoubt))) ∧
    legs_ok "k" bank_cmd "s1" "s2" (balances_at "s1" w) (balances_at "s2" w) w'.
Proof.
  cbv zeta. set (w := mkWorld _ _ _).
  destruct (run_bank w) as [w' [res err]] eqn:E.
  assert (err = Some (Sentinel ErrInDoubt)) as He by (vm_compute in E; congruence).
  exists w', res. split; [congruence|].
  apply (twoPhase_atomic bank_coord "k" bank_cmd "s1" "s2" w w' res err).
  - exact bank_names_ok.
  - congruence.
  - apply (bank_log_state "s1"). left. reflexivity.
  - apply (bank_log_state "s2"). right. reflexivity.
  - vm_compute. reflexivity.
  - vm_compute. reflexivity.
  - exact E.
  - right. exact He.
Defined.

(** Retrying an in-doubt transfer with its own key can destroy money.  The
    outcome for the credit shard is lost after the commit decision and the
    debit are durable, so the client is told "in doubt" and retries with the
    same key (the transaction id is the key).  The retry's prepare is refused,
    the coordinator takes that for a no vote, overwrites the commit decision
    with abort and delivers abort to the credit shard: 30 is gone from "a" and
    never reaches "b", and the client is told the transfer was aborted. *)
Theorem retry_destroys_money :
  let (w1, r1) := run_bank (bank_world lost_credit) in
  let (w2, r2) := run_bank w1 in
  r1.2 = Some (Sentinel ErrInDoubt) ∧ Decision (machine_of "s1" w1) "k" = Some true ∧
  bank_total (bank_world []) = 105 ∧
  r2.2 = Some (Sentinel ErrTxAborted) ∧ Decision (machine_of "s1" w2) "k" = Some false ∧
  bank_total w2 = 75 ∧ InDoubt (machine_of "s1" w2) = [] ∧ InDoubt (machine_of "s2" w2) = [].
Proof. vm_compute. repeat split. Qed.

(** Without the retry, recovery would have completed the transfer. *)
Example recovery_would_complete :
  let (w1, _) := run_bank (bank_world lost_credit) in
  let (w2, r2) := RecoverInDoubt bank_coord ["s1"; "s2"] w1 in
  r2 = (1, None) ∧ bank_total w2 = 105 ∧ balances_at "s2" w2 !! "b" = Some 35.
Proof. vm_compute. repeat split. Qed.

(** A retry of a transfer that committed everywhere is reported as aborted.
    With no failure at all, submitting the same transfer again with the same
    key returns the abort error although the money moved, and the coordinator's
    durable commit decision is replaced by abort (the balances stay right,
    because both legs are settled). *)
Theorem retry_of_committed_reports_abort :
  let (w1, r1) := run_bank (bank_world []) in
  let (w2, r2) := run_bank w1 in
  r1 = (succeeded 70, None) ∧ r2.2 = Some (Sentinel ErrTxAborted) ∧ r_OK r2.1 = false ∧
  Decision (machine_of "s1" w1) "k" = Some true ∧ Decision (machine_of "s1" w2) "k" = Some false ∧
  bank_total w2 = 105 ∧ balances_at "s2" w2 !! "b" = Some 35.
Proof. vm_compute. repeat split. Qed.

(** Recovery running beside a live coordinator can create money.  Recovery
    is started whenever this node becomes leader of any shard, and takes every
    prepared transaction without a decision for an abandoned one.  Here it runs
    between the two prepares of a transfer: it aborts the debit leg and frees
    its funds; the coordinator, still holding the yes vote, collects the
    credit's vote, logs commit over the abort and delivers it.  The settled
    debit leg ignores it, the credit leg books it: "b" gains 30, "a" keeps its
    100, and the coordinator reports success. *)
Theorem recovery_race_creates_money :
  let prepare debit := tx_command OpPrepare "k" bank_cmd false debit ["s1"; "s2"] "s1" in
  let (w1, vote1) := Propose "s1" (prepare true) (co_prepareTimeout bank_coord) (bank_world []) in
  let (w2, rec) := RecoverInDoubt bank_coord ["s1"; "s2"] w1 in
  let (w3, vote2) := Propose "s2" (prepare false) (co_prepareTimeout bank_coord) w2 in
  let (w4, err) := decide bank_coord "k" bank_cmd ["s1"; "s2"] "s1" true "s1" "s2" w3 in
  r_OK vote1.1.1 = true ∧ rec = (1, None) ∧ r_OK vote2.1.1 = true ∧ err = None ∧
  bank_total (bank_world []) = 105 ∧ bank_total w4 = 135.
Proof. vm_compute. repeat split. Qed.

(** ** Recovery on the concrete bank *)

(** A property of all records in all machines, checked by evaluation. *)
Definition all_records (P : string → TxRecord → Prop) (w : world) : Prop :=
  map_Forall (λ _ m, map_Forall P (m_txs m)) (w_machines w).

Lemma all_records_at P w s tx rec :
  all_records P w → tx_at w s tx = Some rec → P tx rec.
Proof.
  unfold tx_at, Tx. cbn [MachineOf scripted_group]. unfold machine_of.
  intros Hall. destruct (w_machines w !! s) as [m|] eqn:Hm; simpl.
  - intros Hr. exact (Hall s m Hm tx rec Hr).
  - by rewrite lookup_empty.
Qed.

Definition doubt_world : world := (run_bank (bank_world lost_credit)).1.

Lemma doubt_world_records :
  all_records (λ tx rec, tx = "k" ∧ coordinator_of rec = "s1" ∧ tx_Cmd rec = bank_cmd
                         ∧ tx_Participants rec = ["s1"; "s2"]) doubt_world.
Proof.
  unfold all_records. apply (bool_decide_eq_true_1 _). vm_compute. reflexivity.
Qed.

Lemma doubt_world_good : all_good doubt_world.
Proof.
  assert (∀ i j, run_log ([(1, TwoPC.Encode (sh_open "a" 100))] ++ i) (NewMachine "s1" New)
            = Some (machine_of "s1" doubt_world) →
          run_log ([(1, TwoPC.Encode (sh_open "b" 5))] ++ j) (NewMachine "s1" New)
            = Some (machine_of "s2" doubt_world) → all_good doubt_world) as Hgo.
  { intros i j H1 H2. split; [vm_compute; reflexivity|]. intros s.
    destruct (base.decide (s = "s1")) as [->|Hs1]; [apply log_state_MInv; by eexists _, _|].
    destruct (base.decide (s = "s2")) as [->|Hs2]; [apply log_state_MInv; by eexists _, _|].
    unfold machine_of. replace (w_machines doubt_world !! s) with (@None Machine); [apply MInv_new|].
    symmetry. apply not_elem_of_dom. replace (dom (w_machines doubt_world)) with ({["s1"; "s2"]} : gset string)
      by (vm_compute; reflexivity). intros [?%elem_of_singleton|?%elem_of_singleton]%elem_of_union; done. }
  set (t op b d := TwoPC.Encode (tx_command op "k" bank_cmd b d ["s1"; "s2"] "s1")).
  apply (Hgo [(10, t OpPrepare false true); (12, t OpDecision true true); (13, t OpOutcome true true)]
             [(11, t OpPrepare false false)]); vm_compute; reflexivity.
Qed.

Lemma bank_groups s : s ∈ co_groups bank_coord → s ∈ ["s1"; "s2"].
Proof.
  intros [->%elem_of_singleton| ->%elem_of_singleton]%elem_of_union; [left|right; left].
Qed.

Lemma RecoverInDoubt_agreement_witness :
  ∃ w' n, RecoverInDoubt bank_coord ["s1"; "s2"] doubt_world = (w', (n, None)) ∧
    InDoubt (machine_of "s2" w') = [] ∧ InDoubt (machine_of "s2" doubt_world) = ["k"].
Proof.
  destruct (RecoverInDoubt bank_coord ["s1"; "s2"] doubt_world) as [w' [n err]] eqn:E.
  destruct (RecoverInDoubt_agreement all_good bank_coord ["s1"; "s2"] doubt_world w' n err)
    as (Herr & Hclear & _).
  - apply all_good_healthy.
  - exact doubt_world_good.
  - exact bank_groups.
  - intros s s' tx rec rec' Hr Hr' _ _.
    pose proof (all_records_at _ _ _ _ _ doubt_world_records Hr) as (_ & H1 & _).
    pose proof (all_records_at _ _ _ _ _ doubt_world_records Hr') as (_ & H2 & _). congruence.
  - intros s tx rec Hr _.
    destruct (all_records_at _ _ _ _ _ doubt_world_records Hr) as (-> & Hco & Hcmd & Hps).
    rewrite Hco, Hcmd, Hps. split; [congruence|]. intros commit.
    apply (tx_command_encodable OpOutcome "k" bank_cmd commit (tx_Debit rec) "s1" "s2");
      [exact bank_names_ok|vm_compute; split; congruence].
  - intros s tx rec Hr _.
    destruct (all_records_at _ _ _ _ _ doubt_world_records Hr) as (_ & -> & _).
    apply elem_of_union_l, elem_of_singleton. reflexivity.
  - exact E.
  - subst err. exists w', n. split; [reflexivity|]. split; [|vm_compute; reflexivity].
    apply (Hclear "s2"). right. left.
Defined.
