(* ===== verification/RaftTypes.v ===== *)
(** * Raft: types, interfaces and the server's state
    (src/raft/types.go, transport.go, persist.go, snapshot.go, server.go)

    Terms and log indices are [uint64] values; times are nanoseconds, durations
    of the configuration milliseconds.  The state machine and the storage that a
    server is built over are the classes [StateMachine] and [Storage]; a Go
    interface that an implementation may or may not offer (IndexedStateMachine,
    Snapshotter, AppliedStorage, SnapshotStorage) is an optional member.

    Every region of the source that holds the server's mutex is one atomic
    operation on [Server].  It ends in [Ok], or in [Panic] with the state the
    process had when it died: a failed [mustPersistLocked] and a state machine
    that panics end that way, and the storage in that state is what a restart
    finds. *)

From S2P Require Import Prelude GoLib.

Local Open Scope Z_scope.

(** ** types.go *)

Inductive Role := Follower | Candidate | Leader.

#[global] Instance Role_eq_dec : EqDecision Role.
Proof. solve_decision. Defined.

Definition Role_String (r : Role) : string :=
  match r with Follower => "Follower" | Candidate => "Candidate" | Leader => "Leader" end.

Abbreviation NodeID := string.

(** [Command] is [None] for Go's nil slice, the blank entry of a new leader. *)
Record LogEntry := mkEntry { e_Term : Z; e_Index : Z; e_Command : option bytes }.

Definition zeroEntry : LogEntry := mkEntry 0 0 None.

#[global] Instance LogEntry_eq_dec : EqDecision LogEntry.
Proof. solve_decision. Defined.

Record AppendEntriesArgs := mkAppendEntries {
  ae_Term : Z;
  ae_LeaderID : NodeID;
  ae_PrevLogIndex : Z;
  ae_PrevLogTerm : Z;
  ae_Entries : list LogEntry;
  ae_LeaderCommit : Z
}.

Record AppendEntriesReply := mkAppendEntriesReply { aer_Term : Z; aer_Success : bool }.

Record RequestVoteArgs := mkRequestVote {
  rv_Term : Z;
  rv_CandidateID : NodeID;
  rv_LastLogIndex : Z;
  rv_LastLogTerm : Z
}.

Record RequestVoteReply := mkRequestVoteReply { rvr_Term : Z; rvr_VoteGranted : bool }.

(** [StateMachine] and [IndexedStateMachine]: the result of applying a command
    is discarded by Raft; [None] is a panic. *)
Record Snapshotter (SM : Type) := mkSnapshotter {
  sn_Snapshot : SM → string + bytes;
  sn_RestoreSnapshot : bytes → SM → SM * option string
}.
Arguments sn_Snapshot {SM}.
Arguments sn_RestoreSnapshot {SM}.

Class StateMachine (SM : Type) := {
  sm_Apply : bytes → SM → option SM;
  sm_ApplyAt : option (Z → bytes → SM → option SM);
  sm_Snapshotter : option (Snapshotter SM)
}.

(** ** persist.go, snapshot.go: the storage interfaces

    A write returns the storage after it and its error; a read returns an error
    or the value.  No saved state is the empty slice. *)

Record AppliedStorage (St : Type) := mkAppliedStorage {
  as_SaveApplied : Z → St → St * option string;
  as_LoadApplied : St → string + Z
}.
Arguments as_SaveApplied {St}.
Arguments as_LoadApplied {St}.

Record SnapshotStorage (St : Type) := mkSnapshotStorage {
  ss_SaveSnapshot : Z → Z → bytes → St → St * option string;
  ss_LoadSnapshot : St → string + option (Z * Z * bytes)
}.
Arguments ss_SaveSnapshot {St}.
Arguments ss_LoadSnapshot {St}.

Class Storage (St : Type) := {
  st_Save : bytes → St → St * option string;
  st_Load : St → string + bytes;
  st_Applied : option (AppliedStorage St);
  st_Snapshot : option (SnapshotStorage St)
}.

Record InstallSnapshotArgs := mkInstallSnapshot {
  is_Term : Z;
  is_LeaderID : NodeID;
  is_LastIncludedIndex : Z;
  is_LastIncludedTerm : Z;
  is_Data : bytes;
  is_Done : bool
}.

Record InstallSnapshotReply := mkInstallSnapshotReply { isr_Term : Z }.

Record snapshotState := mkSnapshotState {
  lastIncludedIndex : Z;
  lastIncludedTerm : Z;
  snap_data : bytes
}.

(** ** transport.go, health_priority.go *)

Record Config := mkConfig {
  ElectionTimeoutMin : Z;
  ElectionTimeoutMax : Z;
  HeartbeatInterval : Z
}.

Definition DefaultConfig : Config := mkConfig 150 300 50.

(** What a server knows of its transport: nil, a [Transport], or one that is
    also a [SnapshotTransport]. *)
Inductive TransportKind := NoTransport | PlainTransport | SnapshotCapable.

#[global] Instance TransportKind_eq_dec : EqDecision TransportKind.
Proof. solve_decision. Defined.

Inductive NodeHealth := HealthNormal | HealthLow | HealthHigh.

Definition NodeHealth_String (h : NodeHealth) : string :=
  match h with HealthLow => "low" | HealthHigh => "high" | HealthNormal => "normal" end.

(** ** server.go: the state of a server

    [applyWaiters] maps an index to the channels waiting for it and
    [closedChans] lists the channels that have been closed. *)

Section Server.
Context {SM St : Type}.

Record Server := mkServer {
  id : NodeID;
  peers : list NodeID;
  currentTerm : Z;
  votedFor : option NodeID;
  log : list LogEntry;
  commitIndex : Z;
  lastApplied : Z;
  nextIndex : gmap NodeID Z;
  matchIndex : gmap NodeID Z;
  role : Role;
  leaderID : NodeID;
  sm : option SM;
  cfg : Config;
  transport : TransportKind;
  storage : option St;
  electionDeadline : Z;
  heartbeatDeadline : Z;
  running : bool;
  stopped : bool;
  applyWaiters : gmap Z (list nat);
  closedChans : list nat;
  appliedErrs : Z;
  lastAppliedErr : option string;
  snapshot : option snapshotState;
  snapshotErrs : Z;
  lastSnapshotErr : option string;
  health : NodeHealth;
  lastLeaderContact : Z;
  configChangeIndex : Z;
  removedFromCluster : bool;
  configErrs : Z;
  lastConfigErr : option string;
  lastContact : gmap NodeID Z
}.

(** [s.field = v] *)
#[local] Definition eta (s : Server) : Server :=
  mkServer (id s) (peers s) (currentTerm s) (votedFor s) (log s) (commitIndex s) (lastApplied s)
    (nextIndex s) (matchIndex s) (role s) (leaderID s) (sm s) (cfg s) (transport s) (storage
    s) (electionDeadline s) (heartbeatDeadline s) (running s) (stopped s) (applyWaiters s)
    (closedChans s) (appliedErrs s) (lastAppliedErr s) (snapshot s) (snapshotErrs s)
    (lastSnapshotErr s) (health s) (lastLeaderContact s) (configChangeIndex s)
    (removedFromCluster s) (configErrs s) (lastConfigErr s) (lastContact s).

#[local] Ltac setter proj v s :=
  let e := eval cbv beta delta [eta] in (eta s) in
  match eval pattern (proj s) in e with
  | ?F _ => let b := eval cbv beta in (F v) in exact b
  end.

Definition set_peers (v : list NodeID) (s : Server) : Server := ltac:(setter peers v s).
Definition set_currentTerm (v : Z) (s : Server) : Server := ltac:(setter currentTerm v s).
Definition set_votedFor (v : option NodeID) (s : Server) : Server := ltac:(setter votedFor v s).
Definition set_log (v : list LogEntry) (s : Server) : Server := ltac:(setter log v s).
Definition set_commitIndex (v : Z) (s : Server) : Server := ltac:(setter commitIndex v s).
Definition set_lastApplied (v : Z) (s : Server) : Server := ltac:(setter lastApplied v s).
Definition set_nextIndex (v : gmap NodeID Z) (s : Server) : Server := ltac:(setter nextIndex v s).
Definition set_matchIndex (v : gmap NodeID Z) (s : Server) : Server := ltac:(setter matchIndex v s).
Definition set_role (v : Role) (s : Server) : Server := ltac:(setter role v s).
Definition set_leaderID (v : NodeID) (s : Server) : Server := ltac:(setter leaderID v s).
Definition set_sm (v : option SM) (s : Server) : Server := ltac:(setter sm v s).
Definition set_storage (v : option St) (s : Server) : Server := ltac:(setter storage v s).
Definition set_electionDeadline (v : Z) (s : Server) : Server := ltac:(setter electionDeadline v s).
Definition set_heartbeatDeadline (v : Z) (s : Server) : Server := ltac:(setter heartbeatDeadline v s).
Definition set_running (v : bool) (s : Server) : Server := ltac:(setter running v s).
Definition set_stopped (v : bool) (s : Server) : Server := ltac:(setter stopped v s).
Definition set_applyWaiters (v : gmap Z (list nat)) (s : Server) : Server := ltac:(setter applyWaiters v s).
Definition set_closedChans (v : list nat) (s : Server) : Server := ltac:(setter closedChans v s).
Definition set_appliedErrs (v : Z) (s : Server) : Server := ltac:(setter appliedErrs v s).
Definition set_lastAppliedErr (v : option string) (s : Server) : Server := ltac:(setter lastAppliedErr v s).
Definition set_snapshot (v : option snapshotState) (s : Server) : Server := ltac:(setter snapshot v s).
Definition set_snapshotErrs (v : Z) (s : Server) : Server := ltac:(setter snapshotErrs v s).
Definition set_lastSnapshotErr (v : option string) (s : Server) : Server := ltac:(setter lastSnapshotErr v s).
Definition set_health (v : NodeHealth) (s : Server) : Server := ltac:(setter health v s).
Definition set_lastLeaderContact (v : Z) (s : Server) : Server := ltac:(setter lastLeaderContact v s).
Definition set_configChangeIndex (v : Z) (s : Server) : Server := ltac:(setter configChangeIndex v s).
Definition set_removedFromCluster (v : bool) (s : Server) : Server := ltac:(setter removedFromCluster v s).
Definition set_configErrs (v : Z) (s : Server) : Server := ltac:(setter configErrs v s).
Definition set_lastConfigErr (v : option string) (s : Server) : Server := ltac:(setter lastConfigErr v s).
Definition set_lastContact (v : gmap NodeID Z) (s : Server) : Server := ltac:(setter lastContact v s).

(** How a locked region ends. *)
Inductive outcome (A : Type) :=
  | Ok (x : A)
  | Panic (s : Server).

#[global] Instance outcome_ret : MRet outcome := λ A x, Ok A x.
#[global] Instance outcome_bind : MBind outcome := λ A B f m,
  match m with Ok _ x => f x | Panic _ s => Panic B s end.

(** [NewServerWith]: the seed's random source is an input of the operations
    that draw from it. *)
Definition NewServerWith (me : NodeID) (ps : list NodeID) (m : option SM)
    (tr : TransportKind) (c : Config) : Server :=
  mkServer me ps 0 None [zeroEntry] 0 0 ∅ ∅ Follower "" m c tr None 0 0 false false ∅ [] 0 None
    None 0 None HealthNormal 0 0 false 0 None ∅.

Definition NewServer (me : NodeID) (ps : list NodeID) (m : option SM) : Server :=
  NewServerWith me ps m NoTransport DefaultConfig.

Definition SetStorage (st : St) (s : Server) : Server := set_storage (Some st) s.

Definition SetNodeHealth (h : NodeHealth) (s : Server) : Server := set_health h s.

End Server.

Arguments Server : clear implicits.
Arguments outcome : clear implicits.
Arguments Ok {SM St A}.
Arguments Panic {SM St A}.
