(* ===== verification/Transport.v ===== *)
(** * RPC: the connection pool and the listener (src/rpc/rpc.go)

    Goroutines share the pool of [Transport] and the table of the listening
    [Server]; each critical section is one step, and so is each event outside
    them that others can see (a dial that ends, a gate or a connection that is
    closed).  Connections and gates are numbered in the order of creation. *)

From S2P Require Import Prelude GoLib RaftTypes.

Local Open Scope Z_scope.

(** ** The pool *)

Record pool := mkPool {
  p_addrs : gmap NodeID string;
  p_conns : gmap NodeID nat;
  p_dials : gmap NodeID nat;
  p_closed : gset nat;         (** clients that have been closed *)
  p_gates : gset nat;          (** gates that have been closed *)
  p_next : nat
}.

Definition NewTransport (addrs : gmap NodeID string) : pool := mkPool addrs ∅ ∅ ∅ ∅ 0.

Inductive rpc_error := UnknownPeer (id : NodeID) | ErrUnreachable.

(** Where a goroutine of [callWithTimeout] is: about to ask for a client, waiting
    for another's dial, dialing, calling, about to drop the connection, done. *)
Inductive call_pc :=
  | CStart (id : NodeID)
  | CWait (id : NodeID) (gate : nat)
  | CDial (id : NodeID) (gate : nat)
  | COpen (id : NodeID) (gate conn : nat)
  | CFail (id : NodeID) (gate : nat)
  | CCall (id : NodeID) (conn : nat)
  | CDrop (id : NodeID)
  | CDone (r : option rpc_error).

(** What happens outside: how a dial or a call ends. *)
Inductive fate := Succeeds | Fails | TimesOut.

(** The first critical section of [client]. *)
Definition client_begin (id : NodeID) (p : pool) : pool * call_pc :=
  match p_conns p !! id with
  | Some c => (p, CCall id c)
  | None =>
      match p_addrs p !! id with
      | None => (p, CDone (Some (UnknownPeer id)))
      | Some _ =>
          match p_dials p !! id with
          | Some gate => (p, CWait id gate)
          | None =>
              (mkPool (p_addrs p) (p_conns p) (<[id:=p_next p]> (p_dials p)) (p_closed p) (p_gates p)
                 (S (p_next p)), CDial id (p_next p))
          end
      end
  end.

(** After the dial: the second critical section. *)
Definition dial_end (id : NodeID) (gate : nat) (f : fate) (p : pool) : pool * call_pc :=
  match f with
  | Succeeds =>
      (mkPool (p_addrs p) (<[id:=p_next p]> (p_conns p)) (delete id (p_dials p)) (p_closed p) (p_gates p)
         (S (p_next p)), COpen id gate (p_next p))
  | _ => (mkPool (p_addrs p) (p_conns p) (delete id (p_dials p)) (p_closed p) (p_gates p) (p_next p),
          CFail id gate)
  end.

Definition close_gate (gate : nat) (p : pool) : pool :=
  mkPool (p_addrs p) (p_conns p) (p_dials p) (p_closed p) ({[gate]} ∪ p_gates p) (p_next p).

(** [drop]: close what is cached for the peer now. *)
Definition drop (id : NodeID) (p : pool) : pool :=
  match p_conns p !! id with
  | Some c => mkPool (p_addrs p) (delete id (p_conns p)) (p_dials p) ({[c]} ∪ p_closed p) (p_gates p) (p_next p)
  | None => p
  end.

(** [Transport.Close] *)
Definition pool_Close (p : pool) : pool :=
  mkPool (p_addrs p) ∅ (p_dials p) (list_to_set (map_to_list (p_conns p)).*2 ∪ p_closed p) (p_gates p) (p_next p).

(** One step of a goroutine; [None] when it cannot move. *)
Definition call_step (f : fate) (c : call_pc) (p : pool) : option (pool * call_pc) :=
  match c with
  | CStart id => Some (client_begin id p)
  | CWait id gate =>
      if bool_decide (gate ∈ p_gates p) then
        Some (p, match p_conns p !! id with Some c => CCall id c | None => CDone (Some ErrUnreachable) end)
      else None
  | CDial id gate => Some (dial_end id gate f p)
  | COpen id gate conn => Some (close_gate gate p, CCall id conn)
  | CFail id gate => Some (close_gate gate p, CDone (Some ErrUnreachable))
  | CCall id conn =>
      Some (p, match f with
               | Succeeds => CDone None
               | Fails => CDrop id
               | TimesOut => CDone (Some ErrUnreachable)
               end)
  | CDrop id => Some (drop id p, CDone (Some ErrUnreachable))
  | CDone r => None
  end.

(** [snapshotSendTimeout] (snapshot_rpc.go): ten times the ordinary timeout, at
    least five seconds; the product wraps like any int64. *)
Definition snapshotSendTimeout (base : Z) : Z :=
  let floor := 5000000000 in
  let scaled := i64 (base * 10) in
  if floor <? scaled then scaled else floor.

Lemma snapshotSendTimeout_enough base :
  in_i64 (base * 10) → base ≤ snapshotSendTimeout base ∧ 5000000000 ≤ snapshotSendTimeout base.
Proof.
  intros Hb. unfold snapshotSendTimeout. rewrite i64_small by done.
  destruct (Z.ltb_spec 5000000000 (base * 10)); lia.
Qed.

Record calls := mkCalls { ca_pool : pool; ca_calls : gmap nat call_pc }.

Inductive tstep (y : calls) : calls → Prop :=
  | tstep_call i id :
      ca_calls y !! i = None → tstep y (mkCalls (ca_pool y) (<[i:=CStart id]> (ca_calls y)))
  | tstep_move f i c p c' :
      ca_calls y !! i = Some c → call_step f c (ca_pool y) = Some (p, c') →
      tstep y (mkCalls p (<[i:=c']> (ca_calls y)))
  | tstep_close : tstep y (mkCalls (pool_Close (ca_pool y)) (ca_calls y)).

Definition no_calls (addrs : gmap NodeID string) : calls := mkCalls (NewTransport addrs) ∅.

(** ** Invariant *)

(** The gate a goroutine has yet to close. *)
Definition owes (g : nat) (c : call_pc) : Prop :=
  match c with CDial _ g' | COpen _ g' _ | CFail _ g' => g' = g | _ => False end.

Record pool_ok (y : calls) : Prop := {
  po_dial : ∀ id g, p_dials (ca_pool y) !! id = Some g →
    ∃ i, ca_calls y !! i = Some (CDial id g);
  po_dialing : ∀ i id g, ca_calls y !! i = Some (CDial id g) → p_dials (ca_pool y) !! id = Some g;
  po_unique : ∀ i j g ci cj, ca_calls y !! i = Some ci → ca_calls y !! j = Some cj →
    owes g ci → owes g cj → i = j;
  po_wait : ∀ i id g, ca_calls y !! i = Some (CWait id g) →
    g ∈ p_gates (ca_pool y) ∨ ∃ j cj, ca_calls y !! j = Some cj ∧ owes g cj;
  po_fresh : ∀ i g c, ca_calls y !! i = Some c → owes g c → (g < p_next (ca_pool y))%nat
}.

Lemma pool_ok_start addrs : pool_ok (no_calls addrs).
Proof. split; intros *; simpl; rewrite ?lookup_empty; done. Qed.

(** A goroutine that neither owes a gate nor waits changes, and the pool keeps
    its dials and at least its gates. *)
Lemma pool_ok_plain y i c' p :
  pool_ok y → (∀ g, ¬ owes g c') → (∀ id g, c' = CWait id g → g ∈ p_gates p ∨
    ∃ j cj, ca_calls y !! j = Some cj ∧ j ≠ i ∧ owes g cj) →
  (∀ c g, ca_calls y !! i = Some c → owes g c → g ∈ p_gates p ∧ ∀ id, p_dials p !! id ≠ Some g) →
  (∀ id g, p_dials p !! id = Some g → p_dials (ca_pool y) !! id = Some g) →
  (∀ j id g, j ≠ i → ca_calls y !! j = Some (CDial id g) → p_dials p !! id = Some g) →
  p_gates (ca_pool y) ⊆ p_gates p → (p_next (ca_pool y) ≤ p_next p)%nat →
  pool_ok (mkCalls p (<[i:=c']> (ca_calls y))).
Proof.
  intros [Hd Hdg Hu Hw Hf] Hno Hwait Howe Hsub Hkeep Hg Hn. split; simpl.
  - intros id g Hl. destruct (Hd id g (Hsub _ _ Hl)) as [j Hj]. exists j.
    destruct (decide (j = i)) as [->|Hne]; [|by rewrite lookup_insert_ne].
    exfalso. by apply (proj2 (Howe (CDial id g) g Hj eq_refl) id).
  - intros j id g [[-> ->]|[Hne Hj]]%lookup_insert_Some; [by destruct (Hno g)|]. by eapply Hkeep.
  - intros j k g cj ck [[-> <-]|[Hne Hj]]%lookup_insert_Some [[-> <-]|[Hne' Hk]]%lookup_insert_Some Hoj Hok;
      try done; [by destruct (Hno g)..|]. by eapply Hu.
  - intros j id g [[-> ->]|[Hne Hj]]%lookup_insert_Some.
    + destruct (Hwait id g eq_refl) as [?|(k & ck & Hk & Hki & Hok)]; [by left|right]. exists k, ck.
      by rewrite lookup_insert_ne.
    + destruct (Hw j id g Hj) as [?|(k & ck & Hk & Hok)]; [left; by apply Hg|].
      destruct (decide (k = i)) as [->|Hki]; [left; by eapply Howe|right]. exists k, ck.
      by rewrite lookup_insert_ne.
  - intros j g c [[-> <-]|[Hne Hj]]%lookup_insert_Some Ho; [by destruct (Hno g)|].
    specialize (Hf _ _ _ Hj Ho). lia.
Qed.

(** A goroutine starts the dial. *)
Lemma pool_ok_dial y i id0 c :
  pool_ok y → ca_calls y !! i = Some c → (∀ g, ¬ owes g c) →
  p_dials (ca_pool y) !! id0 = None →
  let p := ca_pool y in
  pool_ok (mkCalls (mkPool (p_addrs p) (p_conns p) (<[id0:=p_next p]> (p_dials p)) (p_closed p) (p_gates p)
                      (S (p_next p))) (<[i:=CDial id0 (p_next p)]> (ca_calls y))).
Proof.
  intros [Hd Hdg Hu Hw Hf] Hi Hno Hnone p. split; simpl.
  - intros id g [[<- <-]|[Hne Hl]]%lookup_insert_Some; [exists i; by rewrite lookup_insert_eq|].
    destruct (Hd id g Hl) as [j Hj]. exists j. rewrite lookup_insert_ne; [done|].
    intros <-. rewrite Hi in Hj. injection Hj as ->. by destruct (Hno g).
  - intros j id g [[-> [= <- <-]]|[Hne Hj]]%lookup_insert_Some; [by rewrite lookup_insert_eq|].
    specialize (Hdg j id g Hj). rewrite lookup_insert_ne; [done|]. intros <-. congruence.
  - intros j k g cj ck [[-> <-]|[Hne Hj]]%lookup_insert_Some [[-> <-]|[Hne' Hk]]%lookup_insert_Some Hoj Hok;
      try done; simpl in *; subst.
    + specialize (Hf _ _ _ Hk Hok). unfold p in Hf. lia.
    + specialize (Hf _ _ _ Hj Hoj). unfold p in Hf. lia.
    + by eapply Hu.
  - intros j id g [[-> ?]|[Hne Hj]]%lookup_insert_Some; [done|].
    destruct (Hw j id g Hj) as [?|(k & ck & Hk & Hok)]; [by left|right]. exists k, ck.
    rewrite lookup_insert_ne; [done|]. intros <-. rewrite Hi in Hk. injection Hk as ->. by destruct (Hno g).
  - intros j g cj [[-> <-]|[Hne Hj]]%lookup_insert_Some Ho; [simpl in Ho; lia|].
    specialize (Hf _ _ _ Hj Ho). unfold p. lia.
Qed.

(** The dial ends; the gate is still to be closed. *)
Lemma pool_ok_dialed y i id0 g0 c' p :
  pool_ok y → ca_calls y !! i = Some (CDial id0 g0) → (∀ g, owes g c' ↔ g0 = g) →
  (∀ id g, c' ≠ CDial id g) → (∀ id g, c' ≠ CWait id g) →
  p_dials p = delete id0 (p_dials (ca_pool y)) → p_gates p = p_gates (ca_pool y) →
  (p_next (ca_pool y) ≤ p_next p)%nat →
  pool_ok (mkCalls p (<[i:=c']> (ca_calls y))).
Proof.
  intros [Hd Hdg Hu Hw Hf] Hi Ho Hnd Hnw Ed Eg Hn. pose proof (Hdg _ _ _ Hi) as Hid0.
  assert (∀ g, owes g c' → owes g (CDial id0 g0)) as Hsame by (intros g; by rewrite Ho).
  split; simpl.
  - rewrite Ed. intros id g [Hne Hl]%lookup_delete_Some. destruct (Hd id g Hl) as [j Hj]. exists j.
    rewrite lookup_insert_ne; [done|]. intros <-. rewrite Hi in Hj. congruence.
  - intros j id g [[_ E]|[Hne Hj]]%lookup_insert_Some; [by destruct (Hnd id g)|]. rewrite Ed.
    pose proof (Hdg j id g Hj) as Hl. rewrite lookup_delete_ne; [done|]. intros <-.
    rewrite Hl in Hid0. injection Hid0 as ->. by apply Hne, (Hu i j g0 _ _ Hi Hj).
  - intros j k g cj ck [[-> <-]|[Hne Hj]]%lookup_insert_Some [[-> <-]|[Hne' Hk]]%lookup_insert_Some Hoj Hok;
      try done; eapply Hu; eauto.
  - intros j id g [[_ E]|[Hne Hj]]%lookup_insert_Some; [by destruct (Hnw id g)|]. rewrite Eg.
    destruct (Hw j id g Hj) as [?|(k & ck & Hk & Hok)]; [by left|right].
    destruct (decide (k = i)) as [->|Hki].
    + exists i, c'. rewrite lookup_insert_eq. split; [done|]. rewrite Hi in Hk. injection Hk as <-. by apply Ho.
    + exists k, ck. by rewrite lookup_insert_ne.
  - intros j g cj [[-> <-]|[Hne Hj]]%lookup_insert_Some Hog.
    + specialize (Hf _ _ _ Hi (Hsame g Hog)). lia.
    + specialize (Hf _ _ _ Hj Hog). lia.
Qed.

(** The gate of a finished dial is in nobody's entry of [dials]. *)
Lemma finished_gate y i c g :
  pool_ok y → ca_calls y !! i = Some c → owes g c → (∀ id, c ≠ CDial id g) →
  ∀ id, p_dials (ca_pool y) !! id ≠ Some g.
Proof.
  intros Hok Hi Ho Hnd id Hl. destruct (po_dial _ Hok id g Hl) as [j Hj].
  assert (i = j) as -> by (eapply (po_unique _ Hok); eauto; done). rewrite Hi in Hj. by destruct (Hnd id); simplify_eq.
Qed.

(** A goroutine that owes no gate changes, or closes the gate it owes. *)
Lemma pool_ok_keeps y i c c' p :
  pool_ok y → ca_calls y !! i = Some c → (∀ g, ¬ owes g c) → (∀ g, ¬ owes g c') →
  (∀ id g, c' ≠ CWait id g) → p_dials p = p_dials (ca_pool y) → p_gates p = p_gates (ca_pool y) →
  p_next p = p_next (ca_pool y) → pool_ok (mkCalls p (<[i:=c']> (ca_calls y))).
Proof.
  intros Hok Hi Hno Hno' Hnw Ed Eg En.
  apply pool_ok_plain; [done|done|..]; rewrite ?Ed, ?Eg, ?En; [| |done| |done|done].
  - intros id g E. by destruct (Hnw id g).
  - intros c0 g Hc Ho. rewrite Hi in Hc. injection Hc as <-. by destruct (Hno g).
  - intros j id g _. apply (po_dialing _ Hok).
Qed.

Lemma pool_ok_gate y i c g c' :
  pool_ok y → ca_calls y !! i = Some c → (∀ g', owes g' c ↔ g = g') → (∀ id, c ≠ CDial id g) →
  (∀ g, ¬ owes g c') → (∀ id g, c' ≠ CWait id g) →
  pool_ok (mkCalls (close_gate g (ca_pool y)) (<[i:=c']> (ca_calls y))).
Proof.
  intros Hok Hi Ho Hnd Hno' Hnw. apply pool_ok_plain; simpl; [done|done|..|apply union_subseteq_r|lia].
  - intros id g' E. by destruct (Hnw id g').
  - intros c0 g' Hc Hg. rewrite Hi in Hc. injection Hc as <-. apply Ho in Hg as <-. split; [by apply elem_of_union_l, elem_of_singleton|].
    apply (finished_gate y i c); [done|done|by apply Ho|done].
  - done.
  - intros j id g' _. apply (po_dialing _ Hok).
Qed.

Ltac keeps := eapply pool_ok_keeps; [done|done|intros ? []|intros ? []|done..].

Lemma pool_ok_step y y' : pool_ok y → tstep y y' → pool_ok y'.
Proof.
  intros Hok [i id Hi|f i c p c' Hi Hst|]; [| |by destruct Hok; split].
  { apply pool_ok_plain; simpl; [done|intros ? []|..]; try done; [congruence|].
    intros j id' g _. apply (po_dialing _ Hok). }
  destruct c as [id|id g|id g|id g conn|id g|id conn|id|r]; simpl in Hst; [|..|done].
  - injection Hst as Hst. unfold client_begin in Hst.
    destruct (p_conns (ca_pool y) !! id) as [conn|]; [simplify_eq; keeps|].
    destruct (p_addrs (ca_pool y) !! id); [|simplify_eq; keeps].
    destruct (p_dials (ca_pool y) !! id) as [gate|] eqn:Ed; simplify_eq.
    2:{ eapply pool_ok_dial; [done|done|intros g []|done]. }
    destruct (po_dial _ Hok id gate Ed) as [j Hj]. apply pool_ok_plain; [done|intros g []|..]; try done.
    + intros id' g [= <- <-]. right. exists j, (CDial id gate). split; [done|]. split; [congruence|done].
    + intros c g Hc. rewrite Hi in Hc. by injection Hc as <-.
    + intros k id' g _. apply (po_dialing _ Hok).
  - case_bool_decide; [|done]. simplify_eq. destruct (p_conns (ca_pool y) !! id); keeps.
  - destruct f; simplify_eq/=; (eapply pool_ok_dialed; [done|done|done|done|done|done|done|simpl; lia]).
  - simplify_eq. eapply pool_ok_gate; [done|done|done|done|intros ? []|done].
  - simplify_eq. eapply pool_ok_gate; [done|done|done|done|intros ? []|done].
  - simplify_eq. destruct f; keeps.
  - simplify_eq. unfold drop. destruct (p_conns _ !! id); keeps.
Qed.

Lemma pool_ok_reachable addrs y : rtc tstep (no_calls addrs) y → pool_ok y.
Proof.
  assert (∀ y', pool_ok y' → ∀ y'', rtc tstep y' y'' → pool_ok y'') as Hrun.
  { intros y' Hok y'' Hr. induction Hr as [|y1 y2 y3 Hst _ IH]; [done|]. by eapply IH, pool_ok_step. }
  apply Hrun, pool_ok_start.
Qed.

(** [n] moves of goroutine [i] while everything outside meets the same fate. *)
Fixpoint moves (f : fate) (n : nat) (i : nat) (y : calls) : calls :=
  match n with
  | O => y
  | S n' =>
      match ca_calls y !! i ≫= λ c, call_step f c (ca_pool y) with
      | Some (p, c') => moves f n' i (mkCalls p (<[i:=c']> (ca_calls y)))
      | None => y
      end
  end.

Lemma moves_rtc f n i y : rtc tstep y (moves f n i y).
Proof.
  revert y. induction n as [|n IH]; intros y; [done|]. simpl.
  destruct (ca_calls y !! i) as [c|] eqn:Hi; [|done]. simpl.
  destruct (call_step f c (ca_pool y)) as [[p c']|] eqn:Hst; [|done].
  eapply rtc_l; [by eapply tstep_move|apply IH].
Qed.

(** The goroutine that owes a gate closes it in at most two moves, whatever
    becomes of its dial, and moves nobody else. *)
Lemma owner_closes f y j c g :
  ca_calls y !! j = Some c → owes g c →
  ∃ n, (n ≤ 2)%nat ∧ g ∈ p_gates (ca_pool (moves f n j y)) ∧
    ∀ i, i ≠ j → ca_calls (moves f n j y) !! i = ca_calls y !! i.
Proof.
  intros Hj Ho. destruct c as [ | |id g'|id g' conn|id g'| | | ]; try done; simpl in Ho; subst g'.
  - exists 2%nat. split; [done|]. destruct f; simpl; rewrite Hj; simpl; rewrite lookup_insert_eq; simpl;
      (split; [set_solver|intros i Hne; by rewrite !lookup_insert_ne by done]).
  - exists 1%nat. split; [lia|]. simpl; rewrite Hj; simpl. split; [set_solver|].
    intros i Hne. by rewrite lookup_insert_ne by done.
  - exists 1%nat. split; [lia|]. simpl; rewrite Hj; simpl. split; [set_solver|].
    intros i Hne. by rewrite lookup_insert_ne by done.
Qed.

(** C25: In every state goroutines can reach while they call peers through one
    pool, interleaved in any order and with any outcome of dials and calls, at
    most one of them is dialing a given peer, and one that waits for another's
    dial is never stranded: its gate is closed already, or the one goroutine that
    must close it does so within two moves of its own, whether the dial succeeds,
    fails or times out. *)
Theorem pool_single_dial addrs y f :
  rtc tstep (no_calls addrs) y →
  (∀ i j id g g', ca_calls y !! i = Some (CDial id g) → ca_calls y !! j = Some (CDial id g') → i = j) ∧
  ∀ i id g, ca_calls y !! i = Some (CWait id g) →
    ∃ j n, (n ≤ 2)%nat ∧ g ∈ p_gates (ca_pool (moves f n j y)) ∧
      ca_calls (moves f n j y) !! i = Some (CWait id g).
Proof.
  intros Hok%pool_ok_reachable. split.
  - intros i j id g g' Hi Hj. pose proof (po_dialing _ Hok _ _ _ Hi) as E.
    rewrite (po_dialing _ Hok _ _ _ Hj) in E. injection E as ->. by eapply (po_unique _ Hok).
  - intros i id g Hi. destruct (po_wait _ Hok i id g Hi) as [Hg|(j & c & Hj & Ho)].
    + exists i, 0%nat. split; [lia|done].
    + destruct (owner_closes f y j c g Hj Ho) as (n & Hn & Hg & Hrest). exists j, n.
      split; [done|]. split; [done|]. rewrite Hrest; [done|]. intros ->. rewrite Hi in Hj. by injection Hj as <-.
Qed.

(** ** Witnesses and a scenario *)

Lemma call_starts i id y : ca_calls y !! i = None → rtc tstep y (mkCalls (ca_pool y) (<[i:=CStart id]> (ca_calls y))).
Proof. intros Hi. by apply rtc_once, tstep_call. Qed.

Definition one_peer : gmap NodeID string := {["n2" := "host2:7000"]}.

(** Two callers of a peer with no connection: one dials, one waits. *)
Definition two_callers : calls :=
  let y1 := mkCalls (NewTransport one_peer) (<[0%nat:=CStart "n2"]> ∅) in
  let y2 := moves Succeeds 1 0 y1 in
  moves Succeeds 1 1 (mkCalls (ca_pool y2) (<[1%nat:=CStart "n2"]> (ca_calls y2))).

Lemma two_callers_run : rtc tstep (no_calls one_peer) two_callers.
Proof.
  unfold two_callers. etrans; [apply (call_starts 0 "n2"); reflexivity|].
  etrans; [apply (moves_rtc Succeeds 1 0)|]. etrans; [apply (call_starts 1 "n2"); vm_compute; reflexivity|].
  apply moves_rtc.
Qed.

Lemma pool_single_dial_witness :
  ca_calls two_callers !! 1%nat = Some (CWait "n2" 0%nat) ∧
  ∃ j n, (n ≤ 2)%nat ∧ 0%nat ∈ p_gates (ca_pool (moves Fails n j two_callers)) ∧
    ca_calls (moves Fails n j two_callers) !! 1%nat = Some (CWait "n2" 0%nat).
Proof.
  split; [vm_compute; reflexivity|].
  apply (proj2 (pool_single_dial one_peer two_callers Fails two_callers_run) 1%nat "n2" 0%nat).
  vm_compute. reflexivity.
Defined.

(** Callers 0 and 1 share connection 1, which breaks; 0 drops it, caller 2 dials
    connection 3 and calls over it; then 1 sees its own call fail. *)
Definition before_late_drop : calls :=
  let add i y := mkCalls (ca_pool y) (<[i:=CStart "n2"]> (ca_calls y)) in
  let y0 := moves Succeeds 3 0 (add 0%nat (no_calls one_peer)) in
  let y1 := moves Succeeds 1 1 (add 1%nat y0) in
  let y2 := moves Fails 2 0 y1 in
  let y3 := moves Succeeds 3 2 (add 2%nat y2) in
  moves Fails 1 1 y3.

Lemma before_late_drop_run : rtc tstep (no_calls one_peer) before_late_drop.
Proof.
  unfold before_late_drop.
  repeat first
    [ reflexivity
    | etrans; [|apply moves_rtc]
    | etrans; [|apply call_starts; vm_compute; reflexivity] ].
Qed.

(** [drop] names a peer, not the connection that failed: a goroutine whose call
    broke on an old connection closes the healthy one that another has dialed
    since, under the call in flight on it. *)
Theorem drop_closes_healthy :
  ∃ y, rtc tstep (no_calls one_peer) y ∧
    ca_calls y !! 1%nat = Some (CDrop "n2") ∧ ca_calls y !! 2%nat = Some (CCall "n2" 3%nat) ∧
    (3%nat ∉ p_closed (ca_pool y)) ∧ 3%nat ∈ p_closed (ca_pool (moves Succeeds 1 1 y)).
Proof.
  exists before_late_drop. split; [apply before_late_drop_run|].
  split; [vm_compute; reflexivity|]. split; [vm_compute; reflexivity|].
  split; apply (bool_decide_unpack _); vm_compute; exact I.
Qed.
