(* ===== verification/Listener.v ===== *)
(** * RPC: the listening server (src/rpc/rpc.go)

    The accept loop, the handler of each connection and [Server.Close] run as
    goroutines over the table of connections.  Each critical section is a step, and
    so is each event outside them: a connection accepted, a handler that starts or
    leaves, the listener closed, a connection closed.  Connections are numbered.

    The calls that block are steps that are not possible: [Accept] on an open
    listener returns only when a connection arrives or the accept itself fails,
    [ServeConn] only once its connection has been closed, by this server or by the
    peer, and [wg.Wait] only when the accept loop and every handler are done.  Peers
    connect and hang up when they like; nothing makes them do so.  The calls a
    handler has in flight when its connection closes are supposed to return. *)

From S2P Require Import Prelude GoLib.

Local Open Scope Z_scope.

(** Where the accept loop is.  [Spawning c]: the connection is in the table, the
    handler not yet started. *)
Inductive accept_pc := Accepting | Accepted (c : nat) | Spawning (c : nat) | Exited.

(** A handler serves its connection, then has left the table. *)
Inductive handler_pc := HServe | HLeave.

(** Where the first [Close] is. *)
Inductive close_pc :=
  | NotClosing
  | Marked (conns : gset nat)
  | Unlistened (conns : gset nat)
  | Waiting
  | Returned.

Record listener := mkListener {
  ls_closed : bool;
  ls_open : bool;
  ls_conns : gset nat;
  ls_shut : gset nat;          (** connections that have been closed *)
  ls_loop : accept_pc;
  ls_handlers : gmap nat handler_pc;
  ls_close : close_pc;
  ls_next : nat
}.

(** [listenOn], once the socket is bound. *)
Definition listenOn : listener := mkListener false true ∅ ∅ Accepting ∅ NotClosing 0.

Definition set_loop (s : listener) (l : accept_pc) : listener :=
  mkListener (ls_closed s) (ls_open s) (ls_conns s) (ls_shut s) l (ls_handlers s) (ls_close s) (ls_next s).

Definition set_close (s : listener) (c : close_pc) : listener :=
  mkListener (ls_closed s) (ls_open s) (ls_conns s) (ls_shut s) (ls_loop s) (ls_handlers s) c (ls_next s).

(** What the network has for a pending [Accept]: nothing yet, a connection, or an
    accept that fails by itself (no file descriptors left, a failed handshake). *)
Inductive arrival := Nothing | Incoming | Failure.

(** What [Accept] does: [None] while it blocks, then whether it yields a connection.
    A closed listener fails at once. *)
Definition Accept (a : arrival) (s : listener) : option bool :=
  if ls_open s then match a with Nothing => None | Incoming => Some true | Failure => Some false end
  else Some false.

(** One step of the accept loop. *)
Definition serve_step (a : arrival) (s : listener) : option listener :=
  match ls_loop s with
  | Accepting =>
      match Accept a s with
      | None => None
      | Some true =>
          Some (mkListener (ls_closed s) (ls_open s) (ls_conns s) (ls_shut s) (Accepted (ls_next s))
                  (ls_handlers s) (ls_close s) (S (ls_next s)))
      | Some false => Some (set_loop s (if ls_closed s then Exited else Accepting))
      end
  | Accepted c =>
      if ls_closed s then
        Some (mkListener (ls_closed s) (ls_open s) (ls_conns s) ({[c]} ∪ ls_shut s) Exited
                (ls_handlers s) (ls_close s) (ls_next s))
      else
        Some (mkListener (ls_closed s) (ls_open s) ({[c]} ∪ ls_conns s) (ls_shut s) (Spawning c)
                (ls_handlers s) (ls_close s) (ls_next s))
  | Spawning c =>
      Some (mkListener (ls_closed s) (ls_open s) (ls_conns s) (ls_shut s) Accepting
              (<[c:=HServe]> (ls_handlers s)) (ls_close s) (ls_next s))
  | Exited => None
  end.

(** The handler of [c]: [ServeConn] returns, once the connection is closed, and the
    deferred function leaves the table; then the connection is closed and the handler
    is done. *)
Definition handler_step (c : nat) (s : listener) : option listener :=
  match ls_handlers s !! c with
  | Some HServe =>
      if bool_decide (c ∈ ls_shut s) then
        Some (mkListener (ls_closed s) (ls_open s) (ls_conns s ∖ {[c]}) (ls_shut s) (ls_loop s)
                (<[c:=HLeave]> (ls_handlers s)) (ls_close s) (ls_next s))
      else None
  | Some HLeave =>
      Some (mkListener (ls_closed s) (ls_open s) (ls_conns s) ({[c]} ∪ ls_shut s) (ls_loop s)
              (delete c (ls_handlers s)) (ls_close s) (ls_next s))
  | None => None
  end.

(** One step of [Close].  [wg.Wait] lets it return once the accept loop and every
    handler are done. *)
Definition Close_step (s : listener) : option listener :=
  match ls_close s with
  | NotClosing =>
      Some (mkListener true (ls_open s) (ls_conns s) (ls_shut s) (ls_loop s) (ls_handlers s)
              (Marked (ls_conns s)) (ls_next s))
  | Marked conns =>
      Some (mkListener (ls_closed s) false (ls_conns s) (ls_shut s) (ls_loop s) (ls_handlers s)
              (Unlistened conns) (ls_next s))
  | Unlistened conns =>
      Some (mkListener (ls_closed s) (ls_open s) (ls_conns s) (conns ∪ ls_shut s) (ls_loop s) (ls_handlers s)
              Waiting (ls_next s))
  | Waiting =>
      match ls_loop s with
      | Exited => if bool_decide (ls_handlers s = ∅) then Some (set_close s Returned) else None
      | _ => None
      end
  | Returned => None
  end.

(** The peer of connection [c] hangs up. *)
Definition hangup (c : nat) (s : listener) : listener :=
  mkListener (ls_closed s) (ls_open s) (ls_conns s) ({[c]} ∪ ls_shut s) (ls_loop s) (ls_handlers s)
    (ls_close s) (ls_next s).

(** A step of one of the server's goroutines. *)
Inductive lstep (s : listener) : listener → Prop :=
  | lstep_serve a s' : serve_step a s = Some s' → lstep s s'
  | lstep_handler c s' : handler_step c s = Some s' → lstep s s'
  | lstep_close s' : Close_step s = Some s' → lstep s s'.

(** One for which the server needs nobody: no connection arrives, no peer hangs up. *)
Inductive own_step (s : listener) : listener → Prop :=
  | own_serve s' : serve_step Nothing s = Some s' → own_step s s'
  | own_handler c s' : handler_step c s = Some s' → own_step s s'
  | own_close s' : Close_step s = Some s' → own_step s s'.

(** A run in which the goroutines make [n] steps, the peers hanging up in between. *)
Inductive lruns : nat → listener → listener → Prop :=
  | lruns_refl s : lruns 0 s s
  | lruns_step n s s1 s' : lstep s s1 → lruns n s1 s' → lruns (S n) s s'
  | lruns_hangup n c s s' : lruns n (hangup c s) s' → lruns n s s'.

(** A state the server can be in. *)
Definition lreach (s : listener) : Prop := ∃ n, lruns n listenOn s.

(** ** Invariant *)

(** A connection that is or is about to be served. *)
Definition active (s : listener) (c : nat) : Prop :=
  ls_handlers s !! c = Some HServe ∨ ls_loop s = Spawning c.

Record listener_ok (s : listener) : Prop := {
  lo_closed : ls_closed s = match ls_close s with NotClosing => false | _ => true end;
  lo_open : ls_open s = match ls_close s with NotClosing | Marked _ => true | _ => false end;
  lo_active : ∀ c, active s c → c ∈ ls_conns s;
  lo_fresh : ∀ c, (is_Some (ls_handlers s !! c) ∨ ls_loop s = Spawning c ∨ ls_loop s = Accepted c) →
    (c < ls_next s)%nat;
  lo_new : ∀ c, ls_loop s = Accepted c ∨ ls_loop s = Spawning c → ls_handlers s !! c = None;
  lo_closing : ∀ c, active s c →
    match ls_close s with
    | NotClosing => True
    | Marked conns | Unlistened conns => c ∈ conns
    | Waiting | Returned => c ∈ ls_shut s
    end;
  lo_returned : ls_close s = Returned → ls_loop s = Exited ∧ ls_handlers s = ∅
}.

Lemma listener_ok_start : listener_ok listenOn.
Proof.
  split; simpl; try done.
  - intros c [Hc|?]; [simpl in Hc; by rewrite lookup_empty in Hc|done].
  - intros c [[x Hx]|[?|?]]; [by rewrite lookup_empty in Hx|done..].
Qed.

(** What a step must keep for the clauses about active connections. *)
Lemma listener_ok_shrink s s' :
  listener_ok s → ls_closed s' = ls_closed s → ls_open s' = ls_open s → ls_close s' = ls_close s →
  ls_shut s ⊆ ls_shut s' → (ls_next s ≤ ls_next s')%nat →
  (∀ c, active s' c → active s c ∧ c ∈ ls_conns s') →
  (∀ c, is_Some (ls_handlers s' !! c) → is_Some (ls_handlers s !! c)) →
  (∀ c, ls_loop s' = Accepted c ∨ ls_loop s' = Spawning c →
     (c < ls_next s')%nat ∧ ls_handlers s' !! c = None) →
  (ls_loop s = Exited → ls_loop s' = Exited) → listener_ok s'.
Proof.
  intros [Hcl Hop Hac Hfr Hnew Hcg Hret] Ecl Eop Ec Hsh Hn Hact Hh Hl Hex. split.
  - by rewrite Ecl, Ec.
  - by rewrite Eop, Ec.
  - intros c Hc. by apply Hact.
  - intros c [Hc|[Hc|Hc]]; [|by apply Hl; eauto..]. specialize (Hfr c (or_introl (Hh _ Hc))). lia.
  - intros c Hc. by apply Hl.
  - intros c Hc. rewrite Ec. specialize (Hcg c (proj1 (Hact c Hc))). destruct (ls_close s); [done..| |];
      by apply Hsh.
  - rewrite Ec. intros Hr. destruct (Hret Hr) as [Hloop Hnone]. split; [by apply Hex|].
    apply map_empty. intros c. destruct (ls_handlers s' !! c) eqn:E; [|done].
    destruct (Hh c) as [x Hx]; [by eexists|]. by rewrite Hnone, lookup_empty in Hx.
Qed.

Lemma serve_ok a s s' : listener_ok s → serve_step a s = Some s' → listener_ok s'.
Proof.
  intros Hok Hst. unfold serve_step in Hst. destruct (ls_loop s) as [|c|c|] eqn:El; [..|done].
  - destruct (Accept a s) as [[]|]; [..|done].
    + injection Hst as <-.
      apply (listener_ok_shrink s); simpl; try done; [lia|..].
      * intros c [Hc|Hc]; [|done]. split; [by left|]. apply (lo_active _ Hok). by left.
      * intros c [[= <-]|?]; [|done]. split; [lia|].
        destruct (ls_handlers s !! ls_next s) eqn:E; [|done].
        assert (ls_next s < ls_next s)%nat; [|lia]. apply (lo_fresh _ Hok). left. by eexists.
      * congruence.
    + injection Hst as <-. apply (listener_ok_shrink s); simpl; try done; [|..|congruence].
      * intros c [Hc|Hc]; [|simpl in Hc; by destruct (ls_closed s)]. split; [by left|].
        apply (lo_active _ Hok). by left.
      * intros c [Hc|Hc]; by destruct (ls_closed s).
  - destruct (ls_closed s) eqn:Ecl; injection Hst as <-.
    + apply (listener_ok_shrink s); simpl; try done; [apply union_subseteq_r| |intros ? [?|?]; done].
      intros c' [Hc|Hc]; [|done]. split; [by left|]. apply (lo_active _ Hok). by left.
    + pose proof (lo_closed _ Hok) as Hcl. rewrite Ecl in Hcl.
      assert (ls_close s = NotClosing) as Ec by (destruct (ls_close s); done).
      pose proof (lo_open _ Hok) as Hop. rewrite Ec in Hop.
      split; simpl; rewrite ?Ecl, ?Ec; try done.
      * intros c' [Hc|Hc]; simpl in Hc; [|injection Hc as ->; set_solver].
        apply elem_of_union_r, (lo_active _ Hok). by left.
      * intros c' [Hc|[[= <-]|?]]; [| |done]; apply (lo_fresh _ Hok); eauto.
      * intros c' [?|[= <-]]; [done|]. apply (lo_new _ Hok). by left.
  - injection Hst as <-. destruct Hok as [Hcl Hop Hac Hfr Hnew Hcg Hret]. split; simpl; try done.
    + intros c' [Hc|?]; [|done]. simpl in Hc. apply lookup_insert_Some in Hc as [[<- _]|[_ Hc]]; apply Hac;
        [by right|by left].
    + intros c' [[x Hc]|[?|?]]; [|done..]. apply lookup_insert_Some in Hc as [[<- _]|[_ Hc]]; apply Hfr;
        [by right; left|left; by eexists].
    + by intros c' [?|?].
    + intros c' [Hc|?]; [|done]. simpl in Hc. apply Hcg.
      apply lookup_insert_Some in Hc as [[<- _]|[_ Hc]]; [by right|by left].
    + intros Hr. destruct (Hret Hr) as [? _]. congruence.
Qed.

Lemma handler_ok c s s' : listener_ok s → handler_step c s = Some s' → listener_ok s'.
Proof.
  intros Hok Hst. unfold handler_step in Hst. destruct (ls_handlers s !! c) as [[]|] eqn:Eh; [..|done];
    [case_bool_decide; [|done]|]; injection Hst as <-; apply (listener_ok_shrink s); simpl; try done.
  - intros c' [Hc|Hc]; simpl in Hc.
    + apply lookup_insert_Some in Hc as [[_ ?]|[Hne Hc]]; [done|]. split; [by left|].
      apply elem_of_difference. split; [by apply (lo_active _ Hok); left|]. by apply not_elem_of_singleton.
    + split; [by right|]. apply elem_of_difference. split; [by apply (lo_active _ Hok); right|].
      apply not_elem_of_singleton. intros ->. pose proof (lo_new _ Hok c (or_intror Hc)). congruence.
  - intros c' [x [[<- _]|[_ Hc]]%lookup_insert_Some]; by eexists.
  - intros c' Hc. split; [apply (lo_fresh _ Hok); right; by destruct Hc; [right|left]|].
    pose proof (lo_new _ Hok c' Hc) as Hn. rewrite lookup_insert_ne; [done|]. intros ->. congruence.
  - apply union_subseteq_r.
  - intros c' [Hc|Hc]; simpl in Hc; [apply lookup_delete_Some in Hc as [_ Hc]|];
      (split; [|apply (lo_active _ Hok)]); first [by left|by right].
  - intros c' [x [_ Hc]%lookup_delete_Some]. by eexists.
  - intros c' Hc. split; [apply (lo_fresh _ Hok); right; by destruct Hc; [right|left]|].
    apply lookup_delete_None. right. by apply (lo_new _ Hok).
Qed.

Lemma Close_ok s s' : listener_ok s → Close_step s = Some s' → listener_ok s'.
Proof.
  intros [Hcl Hop Hac Hfr Hnew Hcg Hret] Hst. unfold Close_step in Hst.
  destruct (ls_close s) eqn:Ec; simplify_eq/=.
  - by split.
  - by split.
  - split; simpl; try done. intros c Hc. apply elem_of_union_l. by apply Hcg.
  - destruct (ls_loop s) eqn:El; try done. case_bool_decide; [|done]. injection Hst as <-.
    split; simpl; rewrite ?El; try done.
Qed.

Lemma hangup_ok c s : listener_ok s → listener_ok (hangup c s).
Proof.
  intros Hok. apply (listener_ok_shrink s); simpl; try done.
  - apply union_subseteq_r.
  - intros c' Hc. split; [done|]. by apply (lo_active _ Hok).
  - intros c' Hc. split; [apply (lo_fresh _ Hok); right; by destruct Hc; [right|left]|]. by apply (lo_new _ Hok).
Qed.

Lemma listener_ok_step s s' : listener_ok s → lstep s s' → listener_ok s'.
Proof. intros Hok [a s1 Hst|c s1 Hst|s1 Hst]; first [by eapply serve_ok|by eapply handler_ok|by eapply Close_ok]. Qed.

Lemma listener_ok_reachable s : lreach s → listener_ok s.
Proof.
  intros [n Hr]. assert (∀ a b, lruns n a b → listener_ok a → listener_ok b) as Hrun.
  { clear. intros a b Hr. induction Hr as [|n s s1 s' Hst _ IH|n c s s' _ IH]; intros Hok; [done|..];
      apply IH; [by eapply listener_ok_step|by apply hangup_ok]. }
  eapply Hrun, listener_ok_start. done.
Qed.

(** ** The work [Close] leaves to do *)

Definition loop_work (l : accept_pc) : Z :=
  match l with Spawning _ => 5 | Accepting => 2 | Accepted _ => 1 | Exited => 0 end.

Definition handler_work (h : handler_pc) : Z := match h with HServe => 2 | HLeave => 1 end.

Definition closer_work (c : close_pc) : Z :=
  match c with NotClosing => 4 | Marked _ => 3 | Unlistened _ => 2 | Waiting => 1 | Returned => 0 end.

Definition work (s : listener) : Z :=
  loop_work (ls_loop s) + map_sum handler_work (ls_handlers s) + closer_work (ls_close s).

Lemma work_nonneg s : 0 ≤ work s.
Proof.
  unfold work. assert (0 ≤ map_sum handler_work (ls_handlers s)).
  { apply map_sum_nonneg. by intros ? [] _. }
  destruct (ls_loop s), (ls_close s); simpl; lia.
Qed.

(** Once closed, every step of every goroutine uses up work. *)
Lemma work_step s s' : listener_ok s → ls_closed s = true → lstep s s' → work s' < work s ∧ ls_closed s' = true.
Proof.
  intros Hok Hcl Hstep. unfold work. destruct Hstep as [a s' Hst|c s' Hst|s' Hst].
  - unfold serve_step in Hst. rewrite Hcl in Hst. destruct (ls_loop s) as [|c|c|] eqn:El; [..|done].
    + destruct (Accept a s) as [[]|]; [..|done]; injection Hst as <-; simpl; split; try done; lia.
    + injection Hst as <-. simpl. split; [lia|done].
    + injection Hst as <-. cbn [ls_loop ls_handlers ls_close ls_closed].
      rewrite map_sum_insert_None by (apply (lo_new _ Hok); by right). simpl. split; [lia|done].
  - unfold handler_step in Hst. destruct (ls_handlers s !! c) as [[]|] eqn:Eh; [..|done];
      [case_bool_decide; [|done]|]; injection Hst as <-; cbn [ls_loop ls_handlers ls_close ls_closed].
    + rewrite (map_sum_insert_Some _ _ _ _ _ Eh). simpl. split; [lia|done].
    + rewrite (map_sum_delete _ _ _ _ Eh). simpl. split; [lia|done].
  - unfold Close_step in Hst. destruct (ls_close s) eqn:Ec; simplify_eq/=; [split; [lia|done]..|].
    destruct (ls_loop s) eqn:El; try done. case_bool_decide; [|done]. injection Hst as <-. simpl.
    rewrite El. simpl. split; [lia|done].
Qed.

(** The handler of a closed connection can move. *)
Lemma handler_moves s c h :
  ls_handlers s !! c = Some h → (h = HServe → c ∈ ls_shut s) → ∃ t, own_step s t.
Proof.
  intros Eh Hsh. destruct h; eexists; apply (own_handler _ c); unfold handler_step; rewrite Eh; [|reflexivity].
  rewrite bool_decide_eq_true_2 by auto. reflexivity.
Qed.

(** While [Close] has something left to do itself, it can do it. *)
Lemma closer_moves s :
  match ls_close s with NotClosing | Marked _ | Unlistened _ => True | _ => False end → ∃ t, own_step s t.
Proof.
  intros Hc. destruct (ls_close s) eqn:Ec; try done; eexists; apply own_close; unfold Close_step; rewrite Ec;
    reflexivity.
Qed.

(** With the listener closed, an accept loop that has not exited can move. *)
Lemma loop_moves s : ls_open s = false → ls_loop s ≠ Exited → ∃ t, own_step s t.
Proof.
  intros Ho Hl. destruct (ls_loop s) as [|c|c|] eqn:El; [..|done].
  - eexists. apply own_serve. unfold serve_step, Accept. rewrite El, Ho. reflexivity.
  - destruct (ls_closed s) eqn:Ecl; eexists; apply own_serve; unfold serve_step; rewrite El, Ecl; reflexivity.
  - eexists. apply own_serve. unfold serve_step. rewrite El. reflexivity.
Qed.

(** A closed server has returned from [Close], or can move without help. *)
Lemma closed_progress s :
  listener_ok s → ls_closed s = true → ls_close s = Returned ∨ ∃ t, own_step s t.
Proof.
  intros Hok Hcl. destruct (ls_close s) eqn:Ec; [by right; apply closer_moves; rewrite Ec..| |by left]. right.
  pose proof (lo_open _ Hok) as Ho. rewrite Ec in Ho.
  destruct (base.decide (ls_handlers s = ∅)) as [Eh|Hne].
  - destruct (ls_loop s) eqn:El; [by apply loop_moves; [|rewrite El]..|]. eexists. apply own_close.
    unfold Close_step. rewrite Ec, El, bool_decide_eq_true_2 by done. reflexivity.
  - apply map_choose in Hne as (c & h & Eh). eapply handler_moves; [done|]. intros ->.
    pose proof (lo_closing _ Hok c (or_introl Eh)) as Hsh. by rewrite Ec in Hsh.
Qed.

Lemma closed_run n s s' :
  listener_ok s → ls_closed s = true → lruns n s s' →
  Z.of_nat n + work s' ≤ work s ∧ listener_ok s' ∧ ls_closed s' = true.
Proof.
  intros Hok Hcl Hr. induction Hr as [s|n s s1 s' Hst _ IH|n c s s' _ IH]; [split; [lia|done]| |].
  - destruct (work_step s s1 Hok Hcl Hst) as [Hw Hcl1].
    destruct IH as (? & ? & ?); [by eapply listener_ok_step|done|]. split; [lia|done].
  - destruct IH as (Hw & ? & ?); [by apply hangup_ok|done|]. split; [exact Hw|done].
Qed.

Lemma own_lstep s t : own_step s t → lstep s t.
Proof. intros [t' H|c t' H|t' H]; by econstructor. Qed.

(** Left alone, a closed server runs until [Close] has returned. *)
Lemma closed_finishes k s :
  work s ≤ Z.of_nat k → listener_ok s → ls_closed s = true → ∃ t, rtc own_step s t ∧ ls_close t = Returned.
Proof.
  revert s. induction k as [|k IH]; intros s Hk Hok Hcl;
    (destruct (closed_progress s Hok Hcl) as [?|[t Hst]]; [by exists s; split|]);
    destruct (work_step s t Hok Hcl (own_lstep s t Hst)) as [Hw Hcl'].
  - pose proof (work_nonneg t). lia.
  - destruct (IH t) as (t' & Hr & Hret); [lia|by eapply listener_ok_step, own_lstep|done|].
    exists t'. split; [by eapply rtc_l|done].
Qed.

(** No phantom quorum.  However accepts, handlers and [Close] interleave: once
    [Close] has gone through the connections, every connection that is still served,
    or about to be, is a closed one, so its handler only has to notice; and once
    [Close] has returned the accept loop has exited, no handler is left, and no
    goroutine of the server can ever move again. *)
Theorem Close_silences s :
  lreach s →
  (ls_close s = Waiting → ∀ c, active s c → c ∈ ls_shut s) ∧
  (ls_close s = Returned → ls_loop s = Exited ∧ ls_handlers s = ∅ ∧ ∀ t, ¬ lstep s t).
Proof.
  intros Hok%listener_ok_reachable. split.
  - intros Ec c Hc. pose proof (lo_closing _ Hok c Hc) as H. by rewrite Ec in H.
  - intros Ec. destruct (lo_returned _ Hok Ec) as [El Eh]. split; [done|]. split; [done|].
    intros t [a t' Hst|c t' Hst|t' Hst].
    + unfold serve_step in Hst. by rewrite El in Hst.
    + unfold handler_step in Hst. by rewrite Eh, lookup_empty in Hst.
    + unfold Close_step in Hst. by rewrite Ec in Hst.
Qed.

(** C24: [Close] returns, whatever the peers do.  [Accept] blocks while the listener
    is open and no connection arrives, a handler blocks in [ServeConn] until its
    connection is closed.  From the moment [Close] has marked the server closed, the
    server's goroutines make at most [work s] more steps, in any order and with any
    arrivals and hang-ups in between; at every point either [Close] has returned, with
    the accept loop exited and no handler left, or some goroutine can move without
    waiting for a peer; and left alone the server gets to the point where [Close] has
    returned. *)
Theorem Close_returns s n s' :
  lreach s → ls_closed s = true → lruns n s s' →
  Z.of_nat n ≤ work s ∧
  ((ls_close s' = Returned ∧ ls_loop s' = Exited ∧ ls_handlers s' = ∅) ∨ ∃ t, own_step s' t) ∧
  ∃ t, rtc own_step s' t ∧ ls_close t = Returned.
Proof.
  intros Hok%listener_ok_reachable Hcl Hr. destruct (closed_run n s s' Hok Hcl Hr) as (Hw & Hok' & Hcl').
  pose proof (work_nonneg s') as Hnn. split; [lia|]. split.
  - destruct (closed_progress s' Hok' Hcl') as [Hret|?]; [left|by right]. split; [done|]. by apply (lo_returned _ Hok').
  - apply (closed_finishes (Z.to_nat (work s'))); [lia|done..].
Qed.

(** ** Witness: a connection is registered, then [Close] runs *)

(** The accept loop is between the table and the handler while [Close] marks the
    server, closes the listener and goes through the table. *)
Definition lrun (f : listener → option listener) (s : listener) : listener := default s (f s).

Definition closed_midway : listener :=
  lrun Close_step (lrun (serve_step Nothing) (lrun (serve_step Incoming) listenOn)).

Definition swept : listener := lrun Close_step (lrun Close_step closed_midway).

Lemma lruns_trans n m a b c : lruns n a b → lruns m b c → lruns (n + m) a c.
Proof. intros Hr Hc. induction Hr; simpl; [done|eapply lruns_step|eapply lruns_hangup]; eauto. Qed.

Lemma closed_midway_run : lruns 3 listenOn closed_midway.
Proof.
  eapply lruns_step; [by apply (lstep_serve _ Incoming)|]. eapply lruns_step; [by apply (lstep_serve _ Nothing)|].
  eapply lruns_step; [by apply lstep_close|]. apply lruns_refl.
Qed.

Lemma swept_run : lruns 2 closed_midway swept.
Proof. do 2 (eapply lruns_step; [by apply lstep_close|]). apply lruns_refl. Qed.

Lemma Close_silences_witness : ls_loop swept = Spawning 0 ∧ 0%nat ∈ ls_shut swept.
Proof.
  split; [reflexivity|].
  apply (proj1 (Close_silences swept (ex_intro _ 5%nat (lruns_trans 3 2 _ _ _ closed_midway_run swept_run))));
    [reflexivity|]. by right.
Defined.

(** The connection is still idle when [Close] starts; nobody has to hang up. *)
Lemma Close_returns_witness :
  work closed_midway = 8 ∧ ls_shut closed_midway = ∅ ∧ ∃ t, rtc own_step swept t ∧ ls_close t = Returned.
Proof.
  split; [vm_compute; reflexivity|]. split; [reflexivity|].
  apply (Close_returns closed_midway 2 swept (ex_intro _ 3%nat closed_midway_run) eq_refl swept_run).
Defined.
