(* ===== verification/Security.v ===== *)
(** * RPC: transport security (src/rpc/security.go, and the dialers of rpc.go and admin.go)

    The certificate files, the TCP connection and the TLS handshake are code
    outside the repository: they are the fields of [Net], a parameter of the
    section.  What the dialers decide about their results is modelled, together
    with which connections they close. *)

From S2P Require Import Prelude GoLib GoStrings RaftTypes.

Local Open Scope Z_scope.

Record TLSConfig := mkTLSConfig { CertFile : string; KeyFile : string; CAFile : string }.

(** The part of [tls.Config] the program sets. *)
Record tls_config := mkTls {
  tls_cert : string * string;            (** the files of the key pair *)
  tls_RootCAs : option string;           (** the CA file a dialer trusts *)
  tls_ClientCAs : option string;         (** the CA file a listener trusts *)
  tls_require_client : bool;             (** RequireAndVerifyClientCert *)
  tls_ServerName : string
}.

(** A TCP connection, or one on which a TLS handshake has completed, with the common
    names of the peer's certificates (the leaf first) and the deadline in force. *)
Inductive Conn :=
  | PlainConn (n : nat)
  | TlsConn (n : nat) (certs : list string) (deadline : option Z).

Record Net := mkNet {
  Stat : string → option string;                       (** the error, if any *)
  LoadX509KeyPair : string → string → option string;
  ReadCA : string → string + bool;                     (** whether it holds a usable certificate *)
  DialTimeout : string → Z → string + nat;
  SetDeadline : nat → option Z → option string;
  Handshake : tls_config → nat → string + list string
}.

Definition Enabled (c : TLSConfig) : bool :=
  negb (String.eqb (CertFile c) "") || negb (String.eqb (KeyFile c) "") || negb (String.eqb (CAFile c) "").

Definition missing_flag (c : TLSConfig) : string :=
  if String.eqb (CertFile c) "" then "-tls-cert"
  else if String.eqb (KeyFile c) "" then "-tls-key"
  else if String.eqb (CAFile c) "" then "-tls-ca"
  else "".

Section Security.
Variable net : Net.

Fixpoint stat_all (files : list string) : option string :=
  match files with
  | [] => None
  | f :: files =>
      match Stat net f with
      | Some err => Some ("rpc: TLS file " +:+ f +:+ ": " +:+ err)
      | None => stat_all files
      end
  end.

Definition Validate (c : TLSConfig) : option string :=
  if negb (Enabled c) then None
  else
    let missing := missing_flag c in
    if negb (String.eqb missing "") then
      Some ("rpc: TLS is partially configured: " +:+ missing +:+ " is missing. Running with a certificate but no CA would accept any peer, so this is refused rather than downgraded")
    else stat_all [CertFile c; KeyFile c; CAFile c].

Definition load (c : TLSConfig) : option string :=
  match LoadX509KeyPair net (CertFile c) (KeyFile c) with
  | Some err => Some ("rpc: load key pair: " +:+ err)
  | None =>
      match ReadCA net (CAFile c) with
      | inl err => Some ("rpc: read CA: " +:+ err)
      | inr false => Some ("rpc: CA file " +:+ CAFile c +:+ " contains no usable certificate")
      | inr true => None
      end
  end.

Definition serverTLS (c : TLSConfig) : string + tls_config :=
  match load c with
  | Some err => inl err
  | None => inr (mkTls (CertFile c, KeyFile c) None (Some (CAFile c)) true "")
  end.

Definition clientTLS (c : TLSConfig) : string + tls_config :=
  match load c with
  | Some err => inl err
  | None => inr (mkTls (CertFile c, KeyFile c) (Some (CAFile c)) None false "")
  end.

Definition set_ServerName (name : string) (cfg : tls_config) : tls_config :=
  mkTls (tls_cert cfg) (tls_RootCAs cfg) (tls_ClientCAs cfg) (tls_require_client cfg) name.

Definition peerIdentity (c : Conn) : NodeID * bool :=
  match c with
  | PlainConn _ => ("", false)
  | TlsConn _ [] _ => ("", false)
  | TlsConn _ (cn :: _) _ => (cn, true)
  end.

Definition verifyPeerIdentity (c : Conn) (want : NodeID) : option string :=
  let (got, ok) := peerIdentity c in
  if negb (ok : bool) then Some ("rpc: peer " +:+ want +:+ " presented no certificate")
  else if negb (String.eqb got want) then
    Some ("rpc: peer identity mismatch: dialled " +:+ want +:+ " but the certificate identifies " +:+ got
            +:+ "; a valid certificate for the wrong node is still an impostor")
  else None.

(** [pool.dial]: the connections it has closed, and its result. *)
Definition dial (tlsCfg : TLSConfig) (timeout now : Z) (id : NodeID) (addr : string) : list nat * (string + Conn) :=
  match DialTimeout net addr timeout with
  | inl err => ([], inl err)
  | inr n =>
      if negb (Enabled tlsCfg) then ([], inr (PlainConn n))
      else
        match clientTLS tlsCfg with
        | inl err => ([n], inl err)
        | inr cfg =>
            let cfg := match SplitHostPort (to_text addr) with
                       | inr (host, _) => set_ServerName (of_text host) cfg
                       | inl _ => cfg
                       end in
            match SetDeadline net n (Some (now + timeout)) with
            | Some err => ([n], inl err)
            | None =>
                match Handshake net cfg n with
                | inl err => ([n], inl err)
                | inr certs =>
                    match verifyPeerIdentity (TlsConn n certs (Some (now + timeout))) id with
                    | Some err => ([n], inl err)
                    | None =>
                        match SetDeadline net n None with
                        | Some err => ([n], inl err)
                        | None => ([], inr (TlsConn n certs None))
                        end
                    end
                end
            end
        end
  end.

(** [listenOn] as far as security goes: the error, or the config of the listener. *)
Definition listen_security (tc : TLSConfig) : string + option tls_config :=
  match Validate tc with
  | Some err => inl err
  | None =>
      if Enabled tc then
        match serverTLS tc with
        | inl err => inl err
        | inr cfg => inr (Some cfg)
        end
      else inr None
  end.

(** [AdminClient.call] up to the call itself. *)
Definition admin_dial (addr : string) (tc : TLSConfig) : list nat * (string + Conn) :=
  match DialTimeout net addr 5000000000 with
  | inl err => ([], inl ("rpc: dial " +:+ addr +:+ ": " +:+ err))
  | inr n =>
      if Enabled tc then
        match clientTLS tc with
        | inl err => ([n], inl err)
        | inr cfg =>
            match Handshake net cfg n with
            | inl err => ([n], inl ("rpc: tls handshake with " +:+ addr +:+ ": " +:+ err))
            | inr certs => ([], inr (TlsConn n certs None))
            end
        end
      else ([], inr (PlainConn n))
  end.

(** ** Properties *)

Lemma Validate_complete c : Enabled c = true → Validate c = None → missing_flag c = "" ∧
  Forall (λ f, f ≠ "" ∧ Stat net f = None) [CertFile c; KeyFile c; CAFile c].
Proof.
  intros He. unfold Validate. rewrite He. cbn [negb]. unfold missing_flag.
  destruct (String.eqb_spec (CertFile c) ""); [done|]. destruct (String.eqb_spec (KeyFile c) ""); [done|].
  destruct (String.eqb_spec (CAFile c) ""); [done|]. cbn [negb String.eqb stat_all].
  destruct (Stat net (CertFile c)) eqn:E1; [done|]. destruct (Stat net (KeyFile c)) eqn:E2; [done|].
  destruct (Stat net (CAFile c)) eqn:E3; [done|]. intros _. split; [done|]. by repeat constructor.
Qed.

(** C38: Only the node that was meant.  With TLS configured, [dial] hands out a
    connection only when the handshake completed under this node's CA, with the
    server name taken from the address when it has one, and the leaf certificate
    of the peer names exactly the node dialed; the handshake's deadline is no longer
    in force.  Every connection it opened and does not hand out it has closed, and
    no other. *)
Theorem dial_authentic tlsCfg timeout now id addr closed r :
  Enabled tlsCfg = true → dial tlsCfg timeout now id addr = (closed, r) →
  match r with
  | inr c => closed = [] ∧ ∃ n certs cfg, c = TlsConn n (id :: certs) None ∧
      DialTimeout net addr timeout = inr n ∧ Handshake net cfg n = inr (id :: certs) ∧
      tls_RootCAs cfg = Some (CAFile tlsCfg) ∧
      (∀ host port, SplitHostPort (to_text addr) = inr (host, port) → tls_ServerName cfg = of_text host)
  | inl _ => ∀ n, n ∈ closed ↔ DialTimeout net addr timeout = inr n
  end.
Proof.
  intros He. unfold dial. destruct (DialTimeout net addr timeout) as [err|n] eqn:Ed.
  { intros [= <- <-] n. by split; [intros ?%elem_of_nil|]. }
  rewrite He. cbn [negb].
  assert (∀ n', n' ∈ [n] ↔ inr (A:=string) n = inr n') as Hone.
  { intros n'. rewrite list_elem_of_singleton. split; congruence. }
  unfold clientTLS. destruct (load tlsCfg); [by intros [= <- <-]|].
  match goal with |- context [Handshake net ?x n] => set (cfg := x) end.
  destruct (SetDeadline net n (Some _)); [by intros [= <- <-]|].
  destruct (Handshake net cfg n) as [|certs] eqn:Eh; [by intros [= <- <-]|].
  unfold verifyPeerIdentity. destruct certs as [|cn certs]; [by intros [= <- <-]|]. simpl.
  destruct (String.eqb_spec cn id) as [->|]; [|by intros [= <- <-]]. cbn [negb].
  destruct (SetDeadline net n None); [by intros [= <- <-]|]. intros [= <- <-]. split; [done|].
  exists n, certs, cfg. split_and!; try done.
  - unfold cfg. by destruct (SplitHostPort (to_text addr)) as [|[]].
  - intros host port E. unfold cfg. by rewrite E.
Qed.

(** No half-configured listener.  A listener comes up without TLS only when no
    certificate file is named at all; otherwise all three files are named and
    exist, and every caller must present a certificate of this node's CA. *)
Theorem listen_all_or_nothing tc :
  match listen_security tc with
  | inl _ => True
  | inr None => CertFile tc = "" ∧ KeyFile tc = "" ∧ CAFile tc = ""
  | inr (Some cfg) =>
      Forall (λ f, f ≠ "" ∧ Stat net f = None) [CertFile tc; KeyFile tc; CAFile tc] ∧
      tls_require_client cfg = true ∧ tls_ClientCAs cfg = Some (CAFile tc)
  end ∧
  (Enabled tc = true → missing_flag tc ≠ "" → ∃ err, listen_security tc = inl err).
Proof.
  unfold listen_security. split.
  - destruct (Validate tc) eqn:Ev; [done|]. destruct (Enabled tc) eqn:Ee.
    + unfold serverTLS. destruct (load tc); [done|]. destruct (Validate_complete tc Ee Ev) as [_ Hf]. done.
    + unfold Enabled in Ee. apply orb_false_iff in Ee as [Ee E3]. apply orb_false_iff in Ee as [E1 E2].
      by rewrite !negb_false_iff, !String.eqb_eq in *.
  - intros He Hm. destruct (Validate tc) as [err|] eqn:Ev; [by eexists|].
    by destruct (Validate_complete tc He Ev).
Qed.

(** The administrator's client cannot use TLS.  It builds its configuration with
    [clientTLS] and, unlike [dial], sets no server name; crypto/tls refuses a client
    handshake that has neither a server name nor InsecureSkipVerify.  So with TLS
    configured every call fails, whatever the cluster is doing. *)
Theorem admin_tls_unusable addr tc :
  (∀ cfg n, tls_ServerName cfg = "" → ∃ err, Handshake net cfg n = inl err) →
  Enabled tc = true → ∃ closed err, admin_dial addr tc = (closed, inl err).
Proof.
  intros Htls He. unfold admin_dial. destruct (DialTimeout net addr _) as [err|n]; [by eexists _, _|].
  rewrite He. unfold clientTLS. destruct (load tc); [by eexists _, _|].
  destruct (Htls (mkTls (CertFile tc, KeyFile tc) (Some (CAFile tc)) None false "") n eq_refl) as [err ->].
  by eexists _, _.
Qed.

End Security.

(** ** Witnesses: a network where every file exists and host2 proves to be n2 *)

Definition host2_net : Net :=
  mkNet (λ _, None) (λ _ _, None) (λ _, inr true) (λ _ _, inr 5%nat) (λ _ _, None)
    (λ cfg _, if String.eqb (tls_ServerName cfg) "" then inl "tls: either ServerName or InsecureSkipVerify must be specified in the tls.Config"
              else inr ["n2"; "ca"]).

Definition node_tls : TLSConfig := mkTLSConfig "cert.pem" "key.pem" "ca.pem".

Lemma dial_authentic_witness :
  (∃ n certs, (dial host2_net node_tls 1 0 "n2" "host2:7000").2 = inr (TlsConn n ("n2" :: certs) None)) ∧
  ∀ n, n ∈ (dial host2_net node_tls 1 0 "n3" "host2:7000").1 ↔ DialTimeout host2_net "host2:7000" 1 = inr n.
Proof.
  split.
  - destruct (dial_authentic host2_net node_tls 1 0 "n2" "host2:7000" [] (inr (TlsConn 5 ["n2"; "ca"] None))
      eq_refl eq_refl) as (_ & n & certs & _ & E & _). exists n, certs. vm_compute. by rewrite <- E.
  - refine (dial_authentic host2_net node_tls 1 0 "n3" "host2:7000" [5%nat] (inl _) eq_refl eq_refl).
Defined.

Lemma listen_all_or_nothing_witness :
  ∃ err, listen_security host2_net (mkTLSConfig "cert.pem" "key.pem" "") = inl err.
Proof. apply (listen_all_or_nothing host2_net (mkTLSConfig "cert.pem" "key.pem" "")); [reflexivity|done]. Defined.

Lemma admin_tls_unusable_witness : ∃ closed err, admin_dial host2_net "host2:7000" node_tls = (closed, inl err).
Proof.
  apply (admin_tls_unusable host2_net "host2:7000" node_tls); [|reflexivity].
  intros cfg n E. simpl. rewrite E. by eexists.
Defined.
