(* ===== verification/RaftLog.v ===== *)
(** * The replicated log (src/raft/log.go)

    The log is a slice whose first element is the sentinel: the zero entry, or
    the snapshot boundary after a compaction.  [log_wf] says that indices are
    contiguous from the sentinel on, which is what makes [slot] a position of
    the slice: [entryAt_slot] shows that every slice access of the source is in
    range on such a log.  [merge] is the reference definition of what an
    AppendEntries does to the entries after [prevLogIndex]; [appendFrom] is
    proved equal to it. *)

From S2P Require Import Prelude GoLib RaftTypes.

Local Open Scope Z_scope.

Definition baseIndex (l : list LogEntry) : Z := e_Index (default zeroEntry (head l)).
Definition baseTerm (l : list LogEntry) : Z := e_Term (default zeroEntry (head l)).

Definition slot (l : list LogEntry) (i : Z) : Z := i64 (u64 (i - baseIndex l)).

Definition lastIndex (l : list LogEntry) : Z := e_Index (default zeroEntry (last l)).
Definition lastTerm (l : list LogEntry) : Z := e_Term (default zeroEntry (last l)).

Definition entryAt (l : list LogEntry) (i : Z) : option LogEntry :=
  if (i <? baseIndex l) || (lastIndex l <? i) then None else l !! Z.to_nat (slot l i).

Definition compactedAway (l : list LogEntry) (i : Z) : bool := i <? baseIndex l.

Definition termAt (l : list LogEntry) (i : Z) : option Z := e_Term <$> entryAt l i.

Definition isUpToDate (l : list LogEntry) (candLastIndex candLastTerm : Z) : bool :=
  if negb (candLastTerm =? lastTerm l) then lastTerm l <? candLastTerm
  else lastIndex l <=? candLastIndex.

Definition matchesPrevLog (l : list LogEntry) (prevLogIndex prevLogTerm : Z) : bool :=
  if compactedAway l prevLogIndex then true
  else match termAt l prevLogIndex with
       | None => false
       | Some t => t =? prevLogTerm
       end.

(** One iteration of the loop of [appendFrom], for the entry at [idx]. *)
Definition append_one (idx : Z) (e : LogEntry) (l : list LogEntry) : list LogEntry * bool :=
  if idx <=? baseIndex l then (l, false)
  else
    match entryAt l idx with
    | Some existing =>
        if e_Term existing =? e_Term e then (l, false)
        else (take (Z.to_nat (slot l idx)) l ++ [mkEntry (e_Term e) idx (e_Command e)], true)
    | None => (l ++ [mkEntry (e_Term e) idx (e_Command e)], true)
    end.

Fixpoint append_loop (prevLogIndex i : Z) (entries l : list LogEntry) (changed : bool) :
    list LogEntry * bool :=
  match entries with
  | [] => (l, changed)
  | e :: entries =>
      let idx := u64 (u64 (prevLogIndex + i) + 1) in
      let (l', c) := append_one idx e l in
      append_loop prevLogIndex (i + 1) entries l' (changed || c)
  end.

Definition appendFrom (prevLogIndex : Z) (entries l : list LogEntry) : list LogEntry * bool :=
  append_loop prevLogIndex 0 entries l false.

(** ** Well-formed logs *)

(** Indices run from the sentinel's without a gap; fewer than 2^63 indices have
    ever been used, so index arithmetic does not wrap. *)
Record log_wf (l : list LogEntry) : Prop := {
  wf_nonempty : l ≠ [];
  wf_base : 0 ≤ baseIndex l;
  wf_index : ∀ k e, l !! k = Some e → e_Index e = baseIndex l + Z.of_nat k;
  wf_bound : baseIndex l + Z.of_nat (length l) < 2 ^ 63
}.

(** Room for [n] more entries. *)
Definition room (n : nat) (l : list LogEntry) : Prop :=
  baseIndex l + Z.of_nat (length l) + Z.of_nat n < 2 ^ 63.

Lemma lastIndex_wf l : log_wf l → lastIndex l = baseIndex l + Z.of_nat (length l) - 1.
Proof.
  intros [Hne _ Hi _]. destruct (last l) as [e|] eqn:He; [|by apply last_None in He].
  unfold lastIndex. rewrite He. simpl. rewrite last_lookup in He. rewrite (Hi _ _ He).
  destruct l; [done|]. simpl length. lia.
Qed.

Lemma length_wf l : log_wf l → (0 < length l)%nat.
Proof. intros [Hne _ _ _]. destruct l; [done|simpl; lia]. Qed.

Lemma base_le_last l : log_wf l → baseIndex l ≤ lastIndex l.
Proof. intros Hl. rewrite lastIndex_wf by done. pose proof (length_wf l Hl). lia. Qed.

Lemma slot_wf l i :
  log_wf l → baseIndex l ≤ i ≤ lastIndex l + 1 → slot l i = i - baseIndex l.
Proof.
  intros Hl Hi. pose proof (wf_bound l Hl). pose proof (wf_base l Hl).
  rewrite lastIndex_wf in Hi by done. unfold slot.
  rewrite u64_small by (unfold in_u64; lia). apply i64_small. unfold in_i64. lia.
Qed.

(** The slice access of [entryAt] is in range whenever its guard lets it through. *)
Lemma entryAt_slot l i :
  log_wf l → baseIndex l ≤ i ≤ lastIndex l →
  0 ≤ slot l i < Z.of_nat (length l) ∧ is_Some (entryAt l i).
Proof.
  intros Hl Hi. rewrite slot_wf by (done || lia). rewrite lastIndex_wf in Hi by done.
  split; [lia|]. unfold entryAt. rewrite slot_wf by (rewrite ?lastIndex_wf by done; done || lia).
  rewrite lastIndex_wf by done.
  destruct (Z.ltb_spec i (baseIndex l)); [lia|].
  destruct (Z.ltb_spec (baseIndex l + Z.of_nat (length l) - 1) i); [lia|]. simpl.
  apply lookup_lt_is_Some. lia.
Qed.

Lemma entryAt_lookup l i :
  log_wf l → baseIndex l ≤ i → entryAt l i = l !! Z.to_nat (i - baseIndex l).
Proof.
  intros Hl Hi. pose proof (wf_bound l Hl). unfold entryAt.
  destruct (Z.ltb_spec i (baseIndex l)); [lia|]. simpl.
  destruct (Z.ltb_spec (lastIndex l) i) as [Hlt|Hle].
  - symmetry. apply lookup_ge_None. rewrite lastIndex_wf in Hlt by done. lia.
  - rewrite slot_wf by (done || lia). done.
Qed.

Lemma entryAt_below l i : i < baseIndex l → entryAt l i = None.
Proof. intros Hi. unfold entryAt. by destruct (Z.ltb_spec i (baseIndex l)); [|lia]. Qed.

Lemma entryAt_Some l i e :
  log_wf l → entryAt l i = Some e → baseIndex l ≤ i ≤ lastIndex l ∧ e_Index e = i.
Proof.
  intros Hl He. unfold entryAt in He.
  destruct (Z.ltb_spec i (baseIndex l)), (Z.ltb_spec (lastIndex l) i); simpl in He; try done.
  split; [lia|]. rewrite slot_wf in He by (done || lia). rewrite (wf_index l Hl _ _ He). lia.
Qed.

Lemma baseIndex_app l k : l ≠ [] → baseIndex (l ++ k) = baseIndex l.
Proof. by destruct l. Qed.

Lemma baseIndex_take n l : (0 < n)%nat → baseIndex (take n l) = baseIndex l.
Proof. destruct n; [lia|]. by destruct l. Qed.

(** The entries with their position stamped on, as [appendFrom] stores them. *)
Fixpoint stamp (idx : Z) (es : list LogEntry) : list LogEntry :=
  match es with
  | [] => []
  | e :: es => mkEntry (e_Term e) idx (e_Command e) :: stamp (idx + 1) es
  end.

Lemma length_stamp idx es : length (stamp idx es) = length es.
Proof. revert idx. induction es as [|e es IH]; intros idx; simpl; [done|]. by rewrite IH. Qed.

Lemma stamp_lookup es idx k e :
  stamp idx es !! k = Some e ↔
  ∃ e0, es !! k = Some e0 ∧ e = mkEntry (e_Term e0) (idx + Z.of_nat k) (e_Command e0).
Proof.
  revert idx k. induction es as [|e0 es IH]; intros idx k; simpl.
  { split; [by intros ?|by intros (? & ? & _)]. }
  destruct k as [|k]; simpl.
  - rewrite Z.add_0_r. split; [intros ?; simplify_eq; eauto|intros (? & ? & ->); by simplify_eq].
  - rewrite IH. replace (idx + 1 + Z.of_nat k) with (idx + Z.of_nat (S k)) by lia. done.
Qed.

Lemma stamp_app es fs idx : stamp idx (es ++ fs) = stamp idx es ++ stamp (idx + Z.of_nat (length es)) fs.
Proof.
  revert idx. induction es as [|e es IH]; intros idx; simpl; [by rewrite Z.add_0_r|].
  rewrite IH. simpl. do 3 f_equal. lia.
Qed.

(** Appending stamped entries at the end keeps the log well formed. *)
Lemma log_wf_append l es :
  log_wf l → room (length es) l → log_wf (l ++ stamp (lastIndex l + 1) es).
Proof.
  intros Hl Hroom. pose proof Hl as [Hne Hb Hi Hbd]. unfold room in Hroom.
  split; rewrite ?baseIndex_app by done.
  - by destruct l.
  - done.
  - intros k e [Hk|[Hk He]]%lookup_app_Some; [by apply Hi|].
    apply stamp_lookup in He as (e0 & _ & ->). simpl. rewrite lastIndex_wf by done. lia.
  - rewrite length_app, length_stamp. lia.
Qed.

Lemma log_wf_snoc l t c :
  log_wf l → room 1 l → log_wf (l ++ [mkEntry t (lastIndex l + 1) c]).
Proof. intros Hl Hr. by apply (log_wf_append l [mkEntry t 0 c]). Qed.

Lemma log_wf_take n l : log_wf l → (0 < n)%nat → log_wf (take n l).
Proof.
  intros [Hne Hb Hi Hbd] Hn. split; rewrite ?baseIndex_take by done.
  - destruct n; [lia|]. by destruct l.
  - done.
  - intros k e [He _]%lookup_take_Some. by apply Hi.
  - rewrite length_take. lia.
Qed.

Lemma lastIndex_take n l :
  log_wf l → (0 < n ≤ length l)%nat → lastIndex (take n l) = baseIndex l + Z.of_nat n - 1.
Proof.
  intros Hl Hn. rewrite lastIndex_wf by (apply log_wf_take; [done|lia]).
  rewrite baseIndex_take by lia. rewrite length_take. lia.
Qed.

Lemma lastIndex_snoc l e : lastIndex (l ++ [e]) = e_Index e.
Proof. unfold lastIndex. by rewrite last_snoc. Qed.

#[export] Hint Resolve log_wf_snoc log_wf_take length_wf base_le_last : go.

(** ** appendFrom against its reference definition *)

(** Keep the old entries for as long as terms agree; from the first
    disagreement on, only the new ones. *)
Fixpoint merge (old new : list LogEntry) : list LogEntry :=
  match old, new with
  | _, [] => old
  | [], _ => new
  | x :: old', e :: new' => if e_Term x =? e_Term e then x :: merge old' new' else new
  end.

Lemma merge_nil_l new : merge [] new = new.
Proof. by destruct new. Qed.

Lemma merge_nil_r old : merge old [] = old.
Proof. by destruct old. Qed.

Lemma append_one_spec idx e l :
  log_wf l → baseIndex l < idx ≤ lastIndex l + 1 → room 1 l →
  let p := Z.to_nat (idx - baseIndex l) in
  let (l', _) := append_one idx e l in
  log_wf l' ∧ baseIndex l' = baseIndex l ∧ idx ≤ lastIndex l' ∧ (length l' ≤ S (length l))%nat ∧
  ((∃ x, l !! p = Some x ∧ e_Term x = e_Term e ∧ l' = l) ∨
   ((∀ x, l !! p = Some x → e_Term x ≠ e_Term e) ∧
    l' = take p l ++ [mkEntry (e_Term e) idx (e_Command e)])).
Proof.
  intros Hl Hidx Hr p. pose proof (lastIndex_wf l Hl) as Hlast. unfold append_one.
  destruct (Z.leb_spec idx (baseIndex l)); [lia|].
  rewrite entryAt_lookup by (done || lia). fold p.
  destruct (l !! p) as [x|] eqn:Hx.
  - assert (p < length l)%nat by (by eapply lookup_lt_Some).
    destruct (Z.eqb_spec (e_Term x) (e_Term e)) as [Ht|Ht].
    { split_and!; [done|done|lia|lia|]. left. eauto. }
    rewrite slot_wf by (done || lia). fold p.
    assert (0 < p)%nat by lia.
    assert (log_wf (take p l)) as Hp by auto with go.
    assert (lastIndex (take p l) + 1 = idx) as Hlp by (rewrite lastIndex_take; [lia|done|lia]).
    split_and!.
    + rewrite <- Hlp. apply log_wf_snoc; [done|]. unfold room in *.
      rewrite baseIndex_take, length_take by done. lia.
    + rewrite baseIndex_app by (intros E%(f_equal length); rewrite length_take in E; simpl in E; lia).
      by apply baseIndex_take.
    + by rewrite lastIndex_snoc.
    + rewrite length_app, length_take. simpl. lia.
    + right. split; [|done]. intros y [= <-]. done.
  - assert (idx = lastIndex l + 1) as ->.
    { apply lookup_ge_None in Hx. lia. }
    split_and!; [by apply log_wf_snoc|by rewrite baseIndex_app by apply Hl
      |by rewrite lastIndex_snoc|rewrite length_app; simpl; lia|].
    right. split; [done|]. rewrite take_ge; [done|]. by apply lookup_ge_None.
Qed.

Lemma append_loop_merge prev i es l c :
  log_wf l → room (length es) l → 0 ≤ prev → 0 ≤ i →
  baseIndex l < prev + i + 1 ≤ lastIndex l + 1 →
  let p := Z.to_nat (prev + i + 1 - baseIndex l) in
  (append_loop prev i es l c).1 = take p l ++ merge (drop p l) (stamp (prev + i + 1) es).
Proof.
  revert i l c. induction es as [|e es IH]; intros i l c Hl Hr Hprev Hi Hidx p.
  { simpl. by rewrite merge_nil_r, take_drop. }
  pose proof (lastIndex_wf l Hl) as Hlast. unfold room in Hr. simpl length in Hr.
  cbn [append_loop]. rewrite !u64_small by (unfold in_u64; rewrite ?u64_small; unfold in_u64; lia).
  pose proof (append_one_spec (prev + i + 1) e l Hl Hidx ltac:(unfold room; lia)) as Hone.
  cbv zeta in Hone. fold p in Hone.
  destruct (append_one _ _ _) as [l' c'] eqn:E. destruct Hone as (Hl' & Hb' & Hin & Hlen & Hcase).
  pose proof (lastIndex_wf l' Hl') as Hlast'.
  rewrite IH; [|done|unfold room; lia|lia|lia|lia].
  rewrite Hb'. replace (Z.to_nat (prev + (i + 1) + 1 - baseIndex l)) with (S p) by lia.
  replace (prev + (i + 1) + 1) with (prev + i + 1 + 1) by lia. cbn [stamp].
  destruct Hcase as [(x & Hx & Ht & ->)|[Hne ->]].
  - rewrite (drop_S l x p) by done. cbn [merge e_Term]. rewrite Ht, Z.eqb_refl.
    by rewrite (take_S_r l p x), <- app_assoc by done.
  - assert (length (take p l) = p) as Hp by (rewrite length_take; lia).
    rewrite take_ge, drop_ge by (rewrite length_app, Hp; simpl; lia).
    rewrite merge_nil_l, <- app_assoc. cbn [app]. f_equal.
    destruct (drop p l) as [|y r] eqn:Ed; [done|]. cbn [merge e_Term].
    destruct (Z.eqb_spec (e_Term y) (e_Term e)) as [Heq|]; [|done].
    exfalso. apply (Hne y); [|done]. apply (f_equal (λ k, k !! 0%nat)) in Ed.
    rewrite lookup_drop, Nat.add_0_r in Ed. done.
Qed.

(** Entries the snapshot covers are passed over. *)
Lemma append_loop_skip prev i es l c :
  0 ≤ prev → 0 ≤ i → prev + i + 1 ≤ baseIndex l → baseIndex l < 2 ^ 63 →
  append_loop prev i es l c
  = append_loop prev (baseIndex l - prev) (drop (Z.to_nat (baseIndex l - prev - i)) es) l c.
Proof.
  intros Hprev Hi Hidx Hb. remember (Z.to_nat (baseIndex l - prev - i)) as n eqn:Hn.
  revert i es Hi Hidx Hn. induction n as [|n IH]; intros i es Hi Hidx Hn; [lia|].
  destruct es as [|e es]; [done|]. cbn [append_loop drop].
  rewrite !u64_small by (unfold in_u64; rewrite ?u64_small; unfold in_u64; lia).
  unfold append_one. destruct (Z.leb_spec (prev + i + 1) (baseIndex l)); [|lia].
  rewrite orb_false_r. destruct (decide (n = 0)%nat) as [->|Hn0].
  - rewrite drop_0. f_equal. lia.
  - apply IH; lia.
Qed.

(** [appendFrom] rewrites only what follows the larger of [prevLogIndex] and the
    snapshot boundary, and there it is [merge]. *)
Lemma appendFrom_merge prev es l :
  log_wf l → room (length es) l → 0 ≤ prev ≤ lastIndex l →
  let from := Z.max prev (baseIndex l) + 1 in
  let p := Z.to_nat (from - baseIndex l) in
  (appendFrom prev es l).1
  = take p l ++ merge (drop p l) (stamp from (drop (Z.to_nat (baseIndex l - prev)) es)).
Proof.
  intros Hl Hr Hprev from p. pose proof (wf_bound l Hl). pose proof (base_le_last l Hl). unfold appendFrom.
  destruct (decide (baseIndex l ≤ prev)) as [Hge|Hlt].
  - replace (Z.to_nat (baseIndex l - prev)) with 0%nat by lia. rewrite drop_0.
    rewrite append_loop_merge by (done || lia).
    replace (prev + 0 + 1) with from by lia. done.
  - rewrite append_loop_skip by lia. rewrite Z.sub_0_r.
    rewrite append_loop_merge; [|done| |lia|lia|lia].
    + replace (prev + (baseIndex l - prev) + 1) with from by lia. done.
    + unfold room in *. rewrite length_drop. lia.
Qed.

(** ** What merge does *)

Lemma merge_lookup old new k x :
  merge old new !! k = Some x → old !! k = Some x ∨ new !! k = Some x.
Proof.
  revert new k. induction old as [|y old IH]; intros new k.
  { rewrite merge_nil_l. eauto. }
  destruct new as [|e new]; [rewrite merge_nil_r; eauto|]. cbn [merge].
  destruct (e_Term y =? e_Term e); [|eauto]. destruct k; simpl; [eauto|]. apply IH.
Qed.

Lemma merge_new old new k e :
  new !! k = Some e → ∃ x, merge old new !! k = Some x ∧ e_Term x = e_Term e.
Proof.
  revert new k. induction old as [|y old IH]; intros new k Hk.
  { rewrite merge_nil_l. eauto. }
  destruct new as [|e0 new]; [done|]. cbn [merge].
  destruct (Z.eqb_spec (e_Term y) (e_Term e0)); [|eauto].
  destruct k; simplify_eq/=; [eauto|]. by apply IH.
Qed.

Lemma length_merge old new : (length (merge old new) ≤ length old `max` length new)%nat.
Proof.
  revert new. induction old as [|y old IH]; intros [|e new]; simpl; try lia.
  destruct (e_Term y =? e_Term e); simpl; [|lia]. specialize (IH new). lia.
Qed.

(** An old entry is dropped only behind a disagreement. *)
Lemma merge_old old new k x :
  old !! k = Some x → merge old new !! k ≠ Some x →
  ∃ j y e, (j ≤ k)%nat ∧ old !! j = Some y ∧ new !! j = Some e ∧ e_Term y ≠ e_Term e.
Proof.
  revert new k. induction old as [|y old IH]; intros new k Hk Hm; [done|].
  destruct new as [|e new]; [by rewrite merge_nil_r in Hm|]. cbn [merge] in Hm.
  destruct (Z.eqb_spec (e_Term y) (e_Term e)) as [|Hne].
  - destruct k as [|k]; [by simplify_eq/=|].
    destruct (IH new k Hk Hm) as (j & y' & e' & ? & ? & ? & ?). exists (S j), y', e'.
    split_and!; [lia|done..].
  - exists 0%nat, y, e. split_and!; [lia|done..].
Qed.

Lemma matchesPrevLog_range l prev t :
  log_wf l → matchesPrevLog l prev t = true → prev ≤ lastIndex l.
Proof.
  intros Hl. pose proof (base_le_last l Hl). unfold matchesPrevLog, compactedAway, termAt.
  destruct (Z.ltb_spec prev (baseIndex l)); [lia|]. destruct (entryAt l prev) eqn:E; [|done].
  apply entryAt_Some in E; [|done]. intros _. lia.
Qed.

Section AppendFrom.
Context (prev : Z) (es l : list LogEntry).
Context (Hl : log_wf l) (Hr : room (length es) l) (Hprev : 0 ≤ prev ≤ lastIndex l).

Let l' := (appendFrom prev es l).1.
Let from := Z.max prev (baseIndex l) + 1.
Let p := Z.to_nat (from - baseIndex l).
Let new := stamp from (drop (Z.to_nat (baseIndex l - prev)) es).

Local Lemma from_range : (0 < p ≤ length l)%nat ∧ length (take p l) = p.
Proof.
  pose proof (lastIndex_wf l Hl). pose proof (base_le_last l Hl).
  rewrite length_take. unfold p, from. lia.
Qed.

Local Lemma l'_eq : l' = take p l ++ merge (drop p l) new.
Proof. by apply appendFrom_merge. Qed.

Local Lemma l'_after k : (p ≤ k)%nat → l' !! k = merge (drop p l) new !! (k - p)%nat.
Proof.
  intros Hk. destruct from_range as [_ Hlen]. rewrite l'_eq, lookup_app_r by lia. by rewrite Hlen.
Qed.

Lemma appendFrom_base : baseIndex l' = baseIndex l.
Proof.
  destruct from_range as [Hp Hlen]. rewrite l'_eq.
  rewrite baseIndex_app by (intros E; rewrite E in Hlen; simpl in Hlen; lia).
  apply baseIndex_take. lia.
Qed.

Lemma appendFrom_wf : log_wf l'.
Proof.
  destruct from_range as [Hp Hlen]. split.
  - rewrite l'_eq. intros E%(f_equal length). rewrite length_app in E. simpl in E. lia.
  - rewrite appendFrom_base. apply Hl.
  - rewrite appendFrom_base. intros k e He. destruct (decide (k < p)%nat) as [Hk|Hk].
    + rewrite l'_eq, lookup_app_l, lookup_take_lt in He by lia. by apply (wf_index l Hl).
    + rewrite l'_after in He by lia. apply merge_lookup in He as [He|He].
      * rewrite lookup_drop in He. rewrite (wf_index l Hl _ _ He). lia.
      * apply stamp_lookup in He as (e0 & _ & ->). simpl. unfold p, from in *. lia.
  - rewrite appendFrom_base, l'_eq, length_app, Hlen.
    pose proof (length_merge (drop p l) new) as Hm.
    assert (length new ≤ length es)%nat by (unfold new; rewrite length_stamp, length_drop; lia).
    rewrite length_drop in Hm. unfold room in Hr. lia.
Qed.

(** The log up to [prevLogIndex] and the boundary is untouched. *)
Lemma appendFrom_before i : i < from → entryAt l' i = entryAt l i.
Proof.
  intros Hi. destruct from_range as [Hp Hlen]. destruct (decide (i < baseIndex l)) as [Hb|Hb].
  { rewrite !entryAt_below; [done|done|by rewrite appendFrom_base]. }
  rewrite !entryAt_lookup; [|done|lia|apply appendFrom_wf|rewrite appendFrom_base; lia].
  rewrite appendFrom_base, l'_eq, lookup_app_l, lookup_take_lt; [done|lia|lia].
Qed.

(** Every entry of the request above the boundary is in the log with its term. *)
Lemma appendFrom_present k e :
  es !! k = Some e → baseIndex l < prev + 1 + Z.of_nat k →
  ∃ x, entryAt l' (prev + 1 + Z.of_nat k) = Some x ∧ e_Term x = e_Term e.
Proof.
  intros Hk Hb. destruct from_range as [Hp Hlen].
  rewrite entryAt_lookup, appendFrom_base; [|apply appendFrom_wf|rewrite appendFrom_base; lia].
  rewrite l'_after by (unfold p, from; lia).
  set (j := (k - Z.to_nat (baseIndex l - prev))%nat).
  assert (new !! j = Some (mkEntry (e_Term e) (from + Z.of_nat j) (e_Command e))) as Hj.
  { apply stamp_lookup. exists e. split; [|done]. rewrite lookup_drop. rewrite <- Hk. f_equal. lia. }
  destruct (merge_new (drop p l) new j _ Hj) as (x & Hx & Ht). exists x. split; [|done].
  rewrite <- Hx. f_equal. unfold p, from, j. lia.
Qed.

(** An entry of the log is dropped only behind one that conflicts with the
    request at the same or a smaller index. *)
Lemma appendFrom_dropped i x :
  entryAt l i = Some x → entryAt l' i ≠ Some x →
  ∃ k e y, es !! k = Some e ∧ prev + 1 + Z.of_nat k ≤ i ∧
    entryAt l (prev + 1 + Z.of_nat k) = Some y ∧ e_Term y ≠ e_Term e.
Proof.
  intros Hx Hx'. destruct from_range as [Hp Hlen]. pose proof (entryAt_Some l i x Hl Hx) as [Hi _].
  assert (from ≤ i) as Hfrom.
  { destruct (decide (from ≤ i)); [done|]. by rewrite appendFrom_before in Hx' by lia. }
  rewrite entryAt_lookup in Hx by (done || lia).
  rewrite entryAt_lookup, appendFrom_base in Hx'; [|apply appendFrom_wf|rewrite appendFrom_base; lia].
  rewrite l'_after in Hx' by (unfold p; lia).
  destruct (merge_old (drop p l) new (Z.to_nat (i - baseIndex l) - p) x)
    as (j & y & e & Hj & Hy & He & Hne); [|done|].
  { rewrite lookup_drop, <- Hx. f_equal. unfold p. lia. }
  apply stamp_lookup in He as (e0 & He0 & ->). rewrite lookup_drop in He0, Hy.
  exists (Z.to_nat (baseIndex l - prev) + j)%nat, e0, y. split; [done|]. split; [unfold p, from in *; lia|].
  split; [|done]. rewrite entryAt_lookup by (done || lia). rewrite <- Hy. f_equal. unfold p, from. lia.
Qed.
End AppendFrom.

(** Entries that are all present change nothing. *)
Lemma append_loop_noop prev i es l c :
  0 ≤ prev → 0 ≤ i → prev + i + Z.of_nat (length es) < 2 ^ 63 →
  (∀ k e, es !! k = Some e → baseIndex l < prev + i + 1 + Z.of_nat k →
     ∃ x, entryAt l (prev + i + 1 + Z.of_nat k) = Some x ∧ e_Term x = e_Term e) →
  append_loop prev i es l c = (l, c).
Proof.
  intros Hprev. revert i c. induction es as [|e es IH]; intros i c Hi Hb Hes; [done|].
  simpl length in Hb. cbn [append_loop].
  rewrite !u64_small by (unfold in_u64; rewrite ?u64_small; unfold in_u64; lia).
  assert (append_one (prev + i + 1) e l = (l, false)) as ->.
  { unfold append_one. destruct (Z.leb_spec (prev + i + 1) (baseIndex l)); [done|].
    destruct (Hes 0%nat e) as (x & Hx & Ht); [done|lia|]. rewrite Z.add_0_r in Hx.
    by rewrite Hx, Ht, Z.eqb_refl. }
  rewrite orb_false_r. apply IH; [lia|lia|]. intros k e' Hk Hlt.
  replace (prev + (i + 1) + 1 + Z.of_nat k) with (prev + i + 1 + Z.of_nat (S k)) by lia.
  apply Hes; [done|lia].
Qed.

Lemma append_loop_unchanged prev i es l c :
  (append_loop prev i es l c).2 = false → c = false ∧ (append_loop prev i es l c).1 = l.
Proof.
  revert i l c. induction es as [|e es IH]; intros i l c; [done|]. cbn [append_loop].
  destruct (append_one _ e l) as [l' c'] eqn:E. intros [Hc Hl]%IH.
  apply orb_false_iff in Hc as [-> ->]. split; [done|]. rewrite Hl.
  unfold append_one in E. repeat case_match; by simplify_eq.
Qed.

Lemma appendFrom_unchanged prev es l :
  (appendFrom prev es l).2 = false → (appendFrom prev es l).1 = l.
Proof. intros H. by apply append_loop_unchanged in H as [_ ?]. Qed.

(** ** Deciding well-formedness *)

Definition log_wfb (l : list LogEntry) : bool :=
  match l with
  | [] => false
  | _ => (0 <=? baseIndex l) && (baseIndex l + Z.of_nat (length l) <? 2 ^ 63)
         && forallb (λ p, e_Index (snd p) =? baseIndex l + Z.of_nat (fst p)) (zip (seq 0 (length l)) l)
  end.

Lemma log_wfb_spec l : log_wfb l = true → log_wf l.
Proof.
  intros Hb. destruct l as [|e0 l0]; [done|]. unfold log_wfb in Hb. bool_to_prop. split; try done.
  intros k e He. rewrite forallb_forall in *.
  assert (In (k, e) (zip (seq 0 (length (e0 :: l0))) (e0 :: l0))) as Hin.
  { apply list_elem_of_In, list_elem_of_lookup. exists k. apply lookup_zip_with_Some.
    exists k, e. split_and!; [done| |done]. apply lookup_seq. split; [done|].
    by eapply lookup_lt_Some. }
  match goal with Hf : ∀ x, In x _ → _ |- _ => specialize (Hf _ Hin); simpl in Hf end.
  by apply Z.eqb_eq.
Qed.

Ltac solve_wf := apply log_wfb_spec; vm_compute; reflexivity.
