(* ===== verification/RaftCodec.v ===== *)
(** * Raft: encodings of the persistent state and of a configuration
    (src/raft/persist.go, membership.go)

    [encodeState]/[decodeState] are what a restart reads back; a configuration
    is a log entry whose command starts with [configPrefix].  Also here: the
    set operations on configurations and the counting argument behind
    single-server membership changes. *)

From S2P Require Import Prelude GoLib RaftTypes.

Local Open Scope Z_scope.

(** ** persist.go *)

Definition cmd_bytes (c : option bytes) : bytes := default [] c.

Definition encode_entry (e : LogEntry) : bytes :=
  le_put 8 (e_Term e) ++ le_put 8 (e_Index e)
  ++ le_put 4 (u32 (Z.of_nat (length (cmd_bytes (e_Command e))))) ++ cmd_bytes (e_Command e).

Definition encode_vote (votedFor : option NodeID) : bytes :=
  match votedFor with
  | None => Byte.x00 :: le_put 2 0
  | Some v => Byte.x01 :: le_put 2 (u16 (slen v)) ++ str_bytes v
  end.

Definition encodeState (term : Z) (votedFor : option NodeID) (log : list LogEntry) : bytes :=
  le_put 8 term ++ encode_vote votedFor
  ++ le_put 8 (u64 (Z.of_nat (length log))) ++ concat (encode_entry <$> log).

Definition errShortState : string := "raft: truncated persisted state".

Definition readU64 (r : bytes) : option (Z * bytes) :=
  '(buf, r) ← Read 8 r; Some (le_get buf, r).

Definition decode_entry (r : bytes) : option (LogEntry * bytes) :=
  '(et, r) ← readU64 r;
  '(ei, r) ← readU64 r;
  '(lenBuf, r) ← Read 4 r;
  let cmdLen := le_get lenBuf in
  if 0 <? cmdLen then
    '(cmd, r) ← Read (Z.to_nat cmdLen) r; Some (mkEntry et ei (Some cmd), r)
  else Some (mkEntry et ei None, r).

Fixpoint decode_entries (n : nat) (acc : list LogEntry) (r : bytes) : option (list LogEntry * bytes) :=
  match n with
  | O => Some (acc, r)
  | S n => '(e, r) ← decode_entry r; decode_entries n (acc ++ [e]) r
  end.

(** [None] is [errShortState].  The code first hands the declared count to [make],
    which panics on a corrupt count too large to allocate; here such a count runs out of
    bytes like any other that is too large. *)
Definition decodeState (data : bytes) : option (Z * option NodeID * list LogEntry) :=
  '(termRaw, r) ← readU64 data;
  '(hasVote, r) ← ReadByte r;
  '(voteLenBuf, r) ← Read 2 r;
  let voteLen := le_get voteLenBuf in
  '(votedFor, r) ← (if bool_decide (hasVote = Byte.x01)
                    then '(v, r) ← Read (Z.to_nat voteLen) r; Some (Some (bytes_str v), r)
                    else Some (None, r));
  '(count, r) ← readU64 r;
  '(log, _) ← decode_entries (Z.to_nat count) [] r;
  Some (termRaw, votedFor, log).

(** ** membership.go: configurations *)

Definition ErrNotSingleServerChange : string :=
  "raft: configuration changes must add or remove exactly one server at a time".
Definition ErrConfigChangeInFlight : string := "raft: a configuration change is already in progress".
Definition ErrNotInConfiguration : string := "raft: this server is not in the current configuration".
Definition ErrLastServer : string := "raft: cannot remove the last server in the cluster".

Definition configPrefix : byte := Byte.xc0.

(** The servers of a [Configuration]. *)
Abbreviation Configuration := (list NodeID).

Definition Contains (c : Configuration) (me : NodeID) : bool := existsb (String.eqb me) c.

Definition Majority (c : Configuration) : nat := (length c / 2 + 1)%nat.

Definition withServer (c : Configuration) (me : NodeID) : Configuration :=
  if Contains c me then c else sort_strings (c ++ [me]).

Definition withoutServer (c : Configuration) (me : NodeID) : Configuration :=
  filter (λ s, s ≠ me) c.

Definition differsByOne (c other : Configuration) : bool :=
  let diff := Z.of_nat (length other) - Z.of_nat (length c) in
  if negb (diff =? 1) && negb (diff =? -1) then false
  else
    let (smaller, larger) := if diff <? 0 then (other, c) else (c, other) in
    forallb (Contains larger) smaller.

Definition encodeConfig (c : Configuration) : bytes :=
  configPrefix :: le_put 8 (u64 (Z.of_nat (length c)))
  ++ concat ((λ s, le_put 8 (u64 (slen s)) ++ str_bytes s) <$> c).

Definition isConfigEntry (cmd : bytes) : bool :=
  match cmd with [] => false | b :: _ => bool_decide (b = configPrefix) end.

(** The loop of [decodeConfig] on the bytes from [pos] on. *)
Fixpoint decode_servers (n : nat) (acc : Configuration) (r : bytes) : string + Configuration :=
  match n with
  | O => inr acc
  | S n =>
      if (length r <? 8)%nat then inl "raft: truncated configuration entry"
      else
        let size := le_get (take 8 r) in
        let r := drop 8 r in
        if Z.of_nat (length r) <? size
        then inl ("raft: configuration entry declares a " +:+ fmt_d size +:+ "-byte id but "
                  +:+ fmt_d (Z.of_nat (length r)) +:+ " bytes remain")
        else decode_servers n (acc ++ [bytes_str (take (Z.to_nat size) r)]) (drop (Z.to_nat size) r)
  end.

Definition decodeConfig (cmd : bytes) : string + Configuration :=
  if negb (isConfigEntry cmd) then inl "raft: not a configuration entry"
  else if (length cmd <? 9)%nat then inl "raft: configuration entry too short"
  else decode_servers (Z.to_nat (le_get (take 8 (drop 1 cmd)))) [] (drop 9 cmd).

(** ** The persistent state survives *)

(** Values the encoding holds: 64-bit terms and indices, identifiers below
    64 KiB, commands below 4 GiB. *)
Definition entry_ok (e : LogEntry) : Prop :=
  in_u64 (e_Term e) ∧ in_u64 (e_Index e) ∧ in_u32 (Z.of_nat (length (cmd_bytes (e_Command e)))).

Record state_ok (term : Z) (votedFor : option NodeID) (log : list LogEntry) : Prop := {
  so_term : in_u64 term;
  so_vote : ∀ v, votedFor = Some v → slen v < 2 ^ 16;
  so_count : in_u64 (Z.of_nat (length log));
  so_entries : Forall entry_ok log
}.

(** An empty command is not told apart from no command. *)
Definition norm_entry (e : LogEntry) : LogEntry :=
  mkEntry (e_Term e) (e_Index e) (match e_Command e with Some [] => None | c => c end).

Lemma readU64_put z rest :
  in_u64 z → readU64 (le_put 8 z ++ rest) = Some (z, rest).
Proof.
  intros Hz. unfold readU64. rewrite Read_app by (rewrite ?length_le_put; done). cbn [mbind option_bind].
  by rewrite le_get_put8, u64_small.
Qed.

Lemma decode_entry_encode e rest :
  entry_ok e → decode_entry (encode_entry e ++ rest) = Some (norm_entry e, rest).
Proof.
  intros (Ht & Hi & Hn). unfold decode_entry, encode_entry. rewrite <- !app_assoc.
  rewrite readU64_put by done. cbn [mbind option_bind].
  rewrite readU64_put by done. cbn [mbind option_bind].
  rewrite Read_app by (rewrite ?length_le_put; done). cbn [mbind option_bind].
  rewrite le_get_put4, !u32_small by (rewrite ?u32_small by done; done).
  unfold norm_entry. destruct (e_Command e) as [[|b c]|]; cbn [cmd_bytes default from_option id] in *;
    [done| |done].
  destruct (Z.ltb_spec 0 (Z.of_nat (length (b :: c)))) as [_|Hz]; [|simpl in Hz; lia].
  rewrite Nat2Z.id, Read_app by done. done.
Qed.

Lemma decode_entries_encode l acc rest :
  Forall entry_ok l →
  decode_entries (length l) acc (concat (encode_entry <$> l) ++ rest)
  = Some (acc ++ (norm_entry <$> l), rest).
Proof.
  intros Hl. revert acc. induction Hl as [|e l He _ IH]; intros acc.
  { csimpl. by rewrite app_nil_r. }
  rewrite !fmap_cons. cbn [decode_entries concat length].
  rewrite <- app_assoc, decode_entry_encode by done.
  cbn [mbind option_bind]. rewrite IH, <- app_assoc. done.
Qed.

Lemma decodeState_app term votedFor log rest :
  state_ok term votedFor log →
  decodeState (encodeState term votedFor log ++ rest) = Some (term, votedFor, norm_entry <$> log).
Proof.
  intros [Ht Hv Hc He]. unfold decodeState, encodeState. rewrite <- !app_assoc.
  rewrite readU64_put by done. cbn [mbind option_bind].
  assert (∀ k, k ++ (le_put 8 (u64 (Z.of_nat (length log))) ++ concat (encode_entry <$> log) ++ rest) ≠ [])
    as Hne.
  { intros k E%(f_equal length). rewrite !length_app, length_le_put in E. simpl in E. lia. }
  unfold encode_vote. destruct votedFor as [v|]; cbn [app ReadByte mbind option_bind];
    rewrite <- ?app_assoc.
  - specialize (Hv v eq_refl). assert (0 ≤ slen v) by (unfold slen; lia).
    rewrite Read_app by (rewrite ?length_le_put; done).
    cbn [mbind option_bind]. rewrite bool_decide_eq_true_2 by done.
    rewrite le_get_put2. unfold u16. rewrite !Z.mod_small by (rewrite ?Z.mod_small; lia).
    unfold slen at 1. rewrite Nat2Z.id, Read_app by (rewrite ?length_str_bytes; done).
    cbn [mbind option_bind]. rewrite bytes_str_bytes.
    rewrite (u64_small _ Hc), readU64_put by done. cbn [mbind option_bind].
    rewrite Nat2Z.id, decode_entries_encode by done. done.
  - rewrite Read_app by (rewrite ?length_le_put; done).
    cbn [mbind option_bind]. rewrite bool_decide_eq_false_2 by done. cbn [mbind option_bind].
    rewrite (u64_small _ Hc), readU64_put by done. cbn [mbind option_bind].
    rewrite Nat2Z.id, decode_entries_encode by done. done.
Qed.

Lemma decodeState_encode term votedFor log :
  state_ok term votedFor log →
  decodeState (encodeState term votedFor log) = Some (term, votedFor, norm_entry <$> log).
Proof. intros H. rewrite <- (app_nil_r (encodeState _ _ _)). by apply decodeState_app. Qed.

Lemma encodeState_nonempty term votedFor log : encodeState term votedFor log ≠ [].
Proof. by destruct votedFor. Qed.

(** What a server persists is what it comes back with.  For every term,
    vote and log whose values the encoding holds, decoding the encoded state
    returns the same term, the same vote and the same entries in order; an
    entry keeps its term and index, and its command up to an empty command
    being read back as none. *)
Theorem decodeState_roundtrip term votedFor log :
  state_ok term votedFor log →
  ∃ log', decodeState (encodeState term votedFor log) = Some (term, votedFor, log') ∧
    length log' = length log ∧
    ∀ k e, log !! k = Some e → ∃ e', log' !! k = Some e' ∧ e_Term e' = e_Term e ∧
      e_Index e' = e_Index e ∧ cmd_bytes (e_Command e') = cmd_bytes (e_Command e) ∧
      (e_Command e ≠ Some [] → e' = e).
Proof.
  intros H. exists (norm_entry <$> log). split; [by apply decodeState_encode|].
  split; [apply length_fmap|]. intros k e Hk. exists (norm_entry e).
  rewrite list_lookup_fmap, Hk. split; [done|]. destruct e as [t i [[|b c]|]]; by split_and!.
Qed.

(** ** Configurations *)

Definition server_bytes (s : NodeID) : bytes := le_put 8 (u64 (slen s)) ++ str_bytes s.

Lemma decode_servers_cons n acc s r :
  in_u64 (slen s) →
  decode_servers (S n) acc (server_bytes s ++ r) = decode_servers n (acc ++ [s]) r.
Proof.
  intros Hs. unfold server_bytes. cbn [decode_servers]. rewrite <- app_assoc.
  destruct (Nat.ltb_spec (length (le_put 8 (u64 (slen s)) ++ str_bytes s ++ r)) 8) as [Hlt|_].
  { rewrite length_app, length_le_put in Hlt. lia. }
  rewrite take_app_length', drop_app_length' by (by rewrite length_le_put).
  rewrite le_get_put8, !u64_small by (rewrite ?u64_small by done; done).
  rewrite length_app, length_str_bytes. unfold slen in *.
  destruct (Z.ltb_spec (Z.of_nat (String.length s + length r)) (Z.of_nat (String.length s))); [lia|].
  rewrite Nat2Z.id, take_app_length', drop_app_length' by (by rewrite length_str_bytes).
  by rewrite bytes_str_bytes.
Qed.

(** A proper prefix of one server's record is refused. *)
Lemma decode_servers_cut n acc s p q :
  in_u64 (slen s) → server_bytes s = p ++ q → q ≠ [] →
  ∃ err, decode_servers (S n) acc p = inl err.
Proof.
  intros Hs Hpq Hq. assert (0 < length q)%nat by (destruct q; [done|simpl; lia]). cbn [decode_servers].
  assert (length p + length q = 8 + String.length s)%nat as Hlen.
  { rewrite <- length_app, <- Hpq. unfold server_bytes.
    by rewrite length_app, length_le_put, length_str_bytes. }
  destruct (Nat.ltb_spec (length p) 8) as [|H8]; [eauto|].
  assert (take 8 p = le_put 8 (u64 (slen s))) as ->.
  { apply (f_equal (take 8)) in Hpq. unfold server_bytes in Hpq.
    rewrite take_app_length', take_app_le in Hpq by (rewrite ?length_le_put; done || lia). done. }
  rewrite le_get_put8, !u64_small by (rewrite ?u64_small by done; done).
  rewrite length_drop. unfold slen.
  destruct (Z.ltb_spec (Z.of_nat (length p - 8)) (Z.of_nat (String.length s))); [eauto|lia].
Qed.

Lemma decode_servers_all c acc rest :
  Forall (λ s, in_u64 (slen s)) c →
  decode_servers (length c) acc (concat (server_bytes <$> c) ++ rest) = inr (acc ++ c).
Proof.
  intros Hc. revert acc. induction Hc as [|s c Hs _ IH]; intros acc.
  { csimpl. by rewrite app_nil_r. }
  rewrite fmap_cons. cbn [concat length]. rewrite <- app_assoc, decode_servers_cons, IH by done.
  by rewrite <- app_assoc.
Qed.

Lemma decode_servers_prefix c acc p q :
  Forall (λ s, in_u64 (slen s)) c → concat (server_bytes <$> c) = p ++ q → q ≠ [] →
  ∃ err, decode_servers (length c) acc p = inl err.
Proof.
  intros Hc. revert acc p. induction Hc as [|s c Hs _ IH]; intros acc p Hpq Hq.
  { symmetry in Hpq. apply app_eq_nil in Hpq as [_ ?]. done. }
  rewrite fmap_cons in Hpq. cbn [concat length] in *.
  apply app_eq_app in Hpq as (k & [[Hp Hrest]|[Hs' Hrest]]).
  - destruct k as [|b k].
    + rewrite app_nil_r in Hp. simpl in Hrest. subst p q.
      destruct c as [|s' c]; [done|]. rewrite <- (app_nil_r (server_bytes s)).
      rewrite decode_servers_cons by done. by apply (IH _ []).
    + by apply (decode_servers_cut _ _ s p (b :: k)).
  - subst p. rewrite decode_servers_cons by done. apply IH; done.
Qed.

Definition config_ok (c : Configuration) : Prop :=
  in_u64 (Z.of_nat (length c)) ∧ Forall (λ s, in_u64 (slen s)) c.

Lemma decodeConfig_body (n : Z) (p : bytes) :
  in_u64 n → decodeConfig (configPrefix :: le_put 8 n ++ p) = decode_servers (Z.to_nat n) [] p.
Proof.
  intros Hn. unfold decodeConfig. cbn [isConfigEntry]. rewrite bool_decide_eq_true_2 by done.
  cbn [negb length]. rewrite length_app, length_le_put.
  destruct (Nat.ltb_spec (S (8 + length p)) 9); [lia|]. cbn [drop]. rewrite drop_0.
  rewrite take_app_length', drop_app_length' by (by rewrite length_le_put).
  by rewrite le_get_put8, u64_small.
Qed.

Lemma decodeConfig_encode c : config_ok c → decodeConfig (encodeConfig c) = inr c.
Proof.
  intros [Hn Hc]. unfold encodeConfig. rewrite (u64_small _ Hn), decodeConfig_body by done.
  rewrite Nat2Z.id. fold server_bytes. change (λ s, _) with server_bytes.
  rewrite <- (app_nil_r (concat _)). by rewrite decode_servers_all.
Qed.

(** A configuration entry decodes to the configuration it was made from,
    and no proper prefix of one decodes to any configuration: a cut entry is
    reported, never taken for a different membership. *)
Theorem decodeConfig_roundtrip c p q :
  config_ok c → encodeConfig c = p ++ q → q ≠ [] →
  decodeConfig (encodeConfig c) = inr c ∧ ∃ err, decodeConfig p = inl err.
Proof.
  intros Hok Hpq Hq. split; [by apply decodeConfig_encode|]. destruct Hok as [Hn Hc].
  unfold encodeConfig in Hpq. change (λ s, _) with server_bytes in Hpq. rewrite (u64_small _ Hn) in Hpq.
  remember (le_put 8 (Z.of_nat (length c))) as h eqn:Hh.
  destruct p as [|b p]; [eexists; done|]. injection Hpq as <- Hpq. subst h.
  apply app_eq_app in Hpq as (k & [[Hp Hrest]|[Hp Hrest]]).
  - assert (length p + length k = 8)%nat as Hlen by (rewrite <- length_app, <- Hp; apply length_le_put).
    destruct k as [|b k].
    + rewrite app_nil_r in Hp. simpl in Hrest. subst p q. rewrite <- (app_nil_r (le_put 8 _)).
      rewrite decodeConfig_body, Nat2Z.id by done. by eapply (decode_servers_prefix c [] []).
    + unfold decodeConfig. cbn [isConfigEntry]. rewrite bool_decide_eq_true_2 by done. cbn [negb].
      destruct (Nat.ltb_spec (length (configPrefix :: p)) 9) as [|Hge]; [eauto|].
      simpl in Hge, Hlen. lia.
  - subst p. rewrite decodeConfig_body, Nat2Z.id by done. by apply (decode_servers_prefix c [] k q).
Qed.

Lemma Contains_spec c me : Contains c me = true ↔ me ∈ c.
Proof.
  unfold Contains. rewrite existsb_exists. setoid_rewrite String.eqb_eq.
  setoid_rewrite <- list_elem_of_In.
  split; [by intros (x & ? & ->)|eauto].
Qed.

Lemma differsByOne_spec c other :
  differsByOne c other = true →
  (length other = S (length c) ∧ c ⊆ other) ∨ (length c = S (length other) ∧ other ⊆ c).
Proof.
  unfold differsByOne. intros H.
  destruct (Z.eqb_spec (Z.of_nat (length other) - Z.of_nat (length c)) 1) as [E|E1]; cbn [negb andb] in H.
  - destruct (Z.ltb_spec (Z.of_nat (length other) - Z.of_nat (length c)) 0); [lia|].
    left. split; [lia|]. intros x Hx. rewrite forallb_forall in H.
    apply Contains_spec, H, list_elem_of_In, Hx.
  - destruct (Z.eqb_spec (Z.of_nat (length other) - Z.of_nat (length c)) (-1)) as [E|E2]; [|done].
    cbn [negb] in H.
    destruct (Z.ltb_spec (Z.of_nat (length other) - Z.of_nat (length c)) 0); [|lia].
    right. split; [lia|]. intros x Hx. rewrite forallb_forall in H.
    apply Contains_spec, H, list_elem_of_In, Hx.
Qed.

(** Two configurations an election can be counted under at the same time. *)
Definition adjacent (c c' : Configuration) : Prop := c ≡ₚ c' ∨ differsByOne c c' = true.

Lemma half_le n : (n < n / 2 + 1 + (n / 2 + 1))%nat.
Proof. pose proof (Nat.div_mod_eq n 2). pose proof (Nat.mod_upper_bound n 2). lia. Qed.

Lemma half_succ n : (S n < n / 2 + 1 + (S n / 2 + 1))%nat.
Proof.
  pose proof (Nat.div_mod_eq n 2). pose proof (Nat.mod_upper_bound n 2).
  pose proof (Nat.div_mod_eq (S n) 2). pose proof (Nat.mod_upper_bound (S n) 2). lia.
Qed.

Lemma adjacent_quorums c c' p q :
  adjacent c c' → NoDup p → NoDup q → p ⊆ c → q ⊆ c' →
  (Majority c ≤ length p)%nat → (Majority c' ≤ length q)%nat → ∃ x, x ∈ p ∧ x ∈ q.
Proof.
  unfold Majority. intros Hadj Hp Hq Hpc Hqc Hlp Hlq.
  destruct Hadj as [Hperm|[[Hlen Hsub]|[Hlen Hsub]]%differsByOne_spec].
  - apply (pigeonhole_overlap c); try done.
    + intros x Hx. rewrite Hperm. by apply Hqc.
    + apply Permutation_length in Hperm. rewrite <- Hperm in Hlq. pose proof (half_le (length c)). lia.
  - apply (pigeonhole_overlap c'); try done; [by transitivity c|].
    rewrite Hlen in *. pose proof (half_succ (length c)). lia.
  - apply (pigeonhole_overlap c); try done; [by transitivity c'|].
    rewrite Hlen in *. pose proof (half_succ (length c')). lia.
Qed.
