(* ===== verification/Peers.v ===== *)
(** * RPC: parsing the peer list and the shard assignment
    (src/rpc/peers.go, ParseShardAssignment of src/rpc/shardnode.go)

    An error is the branch that produced it with the values its message quotes. *)

From Stdlib Require Import Ascii.
From S2P Require Import Prelude GoLib GoStrings RaftTypes RaftCodec.

Local Open Scope Z_scope.

Definition comma : ascii := byte 44.
Definition equals : ascii := byte 61.

Inductive parse_error :=
  | NotOneEquals (part : string)
  | EmptyID (part : string)
  | EmptyAddress (part : string)
  | DuplicateID (id : string)
  | BadAddress (addr id : string) (why : string)
  | NoPeers
  | DuplicateShard (id : string)
  | NoShards.

(** The body of the loop. *)
Definition peer_step (part : text) (addrs : gmap NodeID string) (ids : list NodeID) :
    parse_error + gmap NodeID string * list NodeID :=
  let part := TrimSpace part in
  match part with
  | [] => inr (addrs, ids)
  | _ =>
      if negb (count equals part =? 1)%nat then inl (NotOneEquals (of_text part))
      else
        let (rawID, rawAddr) := cut equals part in
        let id := of_text (TrimSpace rawID) in
        let addr := TrimSpace rawAddr in
        if String.eqb id "" then inl (EmptyID (of_text part))
        else if bool_decide (addr = []) then inl (EmptyAddress (of_text part))
        else if bool_decide (is_Some (addrs !! id)) then inl (DuplicateID id)
        else
          match SplitHostPort addr with
          | inl why => inl (BadAddress (of_text addr) id why)
          | inr _ => inr (<[id:=of_text addr]> addrs, ids ++ [id])
          end
  end.

Fixpoint peer_loop (parts : list text) (addrs : gmap NodeID string) (ids : list NodeID) :
    parse_error + gmap NodeID string * list NodeID :=
  match parts with
  | [] => inr (addrs, ids)
  | part :: parts =>
      match peer_step part addrs ids with
      | inl err => inl err
      | inr (addrs, ids) => peer_loop parts addrs ids
      end
  end.

Definition ParsePeers (s : string) : parse_error + gmap NodeID string * list NodeID :=
  match peer_loop (split_on comma (to_text s)) ∅ [] with
  | inl err => inl err
  | inr (addrs, []) => inl NoPeers
  | inr r => inr r
  end.

Fixpoint shard_loop (parts : list text) (out : list string) : parse_error + list string :=
  match parts with
  | [] => inr out
  | part :: parts =>
      let part := TrimSpace part in
      match part with
      | [] => shard_loop parts out
      | _ =>
          let id := of_text part in
          if bool_decide (id ∈ out) then inl (DuplicateShard id) else shard_loop parts (out ++ [id])
      end
  end.

Definition ParseShardAssignment (s : string) : parse_error + list string :=
  match shard_loop (split_on comma (to_text s)) [] with
  | inl err => inl err
  | inr [] => inl NoShards
  | inr out => inr out
  end.

(** ** What is accepted *)

Record peers_ok (addrs : gmap NodeID string) (ids : list NodeID) : Prop := {
  po_nodup : NoDup ids;
  po_dom : ∀ id, id ∈ ids ↔ is_Some (addrs !! id);
  po_addr : ∀ id addr, addrs !! id = Some addr →
    id ≠ "" ∧ ∃ host port, SplitHostPort (to_text addr) = inr (host, port)
}.

Lemma peer_step_ok part addrs ids addrs' ids' :
  peers_ok addrs ids → peer_step part addrs ids = inr (addrs', ids') → peers_ok addrs' ids'.
Proof.
  intros Hok. unfold peer_step. cbv zeta. destruct (TrimSpace part) as [|c t] eqn:Et; [by intros [= <- <-]|].
  destruct (negb _); [done|]. destruct (cut equals _) as [rawID rawAddr].
  destruct (String.eqb_spec (of_text (TrimSpace rawID)) "") as [|Hid]; [done|].
  case_bool_decide; [done|]. case_bool_decide as Hdup; [done|].
  destruct (SplitHostPort _) as [|[host port]] eqn:Es; [done|]. intros [= <- <-].
  set (id := of_text (TrimSpace rawID)) in *. destruct Hok as [Hnd Hdom Haddr]. split.
  - apply NoDup_app. split; [done|]. split; [|apply NoDup_singleton].
    intros x Hx ->%list_elem_of_singleton. by apply Hdup, Hdom.
  - intros x. rewrite elem_of_app, list_elem_of_singleton, lookup_insert_is_Some', Hdom. intuition congruence.
  - intros x a [[<- <-]|[_ Ha]]%lookup_insert_Some; [|by apply Haddr]. split; [done|]. exists host, port.
    unfold to_text, of_text. by rewrite String.list_ascii_of_string_of_list_ascii.
Qed.

Lemma peer_loop_ok parts addrs ids addrs' ids' :
  peers_ok addrs ids → peer_loop parts addrs ids = inr (addrs', ids') → peers_ok addrs' ids'.
Proof.
  revert addrs ids. induction parts as [|part parts IH]; intros addrs ids Hok; simpl; [by intros [= <- <-]|].
  destruct (peer_step part addrs ids) as [|[addrs1 ids1]] eqn:E; [done|]. apply IH. by eapply peer_step_ok.
Qed.

Lemma peers_ok_size addrs ids : peers_ok addrs ids → length ids = size addrs.
Proof.
  intros [Hnd Hdom _]. rewrite <- size_dom, <- (size_list_to_set (C := gset NodeID) ids) by done.
  f_equal. apply set_eq. intros x. by rewrite elem_of_list_to_set, elem_of_dom, Hdom.
Qed.

(** What [ParsePeers] accepts.  The ids are distinct, at least one, and are
    exactly the keys of the address map, so the quorum computed from the list is
    the majority of the servers that have an address; no id is empty and every
    address splits into host and port. *)
Theorem ParsePeers_sound s addrs ids :
  ParsePeers s = inr (addrs, ids) →
  ids ≠ [] ∧ NoDup ids ∧ dom addrs = list_to_set (C := gset NodeID) ids ∧
  Majority ids = (size addrs / 2 + 1)%nat ∧
  ∀ id addr, addrs !! id = Some addr →
    id ≠ "" ∧ ∃ host port, SplitHostPort (to_text addr) = inr (host, port).
Proof.
  unfold ParsePeers. destruct (peer_loop _ _ _) as [|[addrs1 ids1]] eqn:E; [done|].
  apply peer_loop_ok in E.
  2:{ split; [constructor|..]; [|done]. intros id. rewrite lookup_empty. split; [by intros ?%elem_of_nil|by intros []]. }
  pose proof (peers_ok_size _ _ E) as Hsize. destruct E as [Hnd Hdom Haddr].
  destruct ids1 as [|id0 ids1]; [done|]. intros [= <- <-]. split_and!; try done.
  - apply set_eq. intros x. by rewrite elem_of_list_to_set, elem_of_dom, Hdom.
  - unfold Majority. by rewrite Hsize.
Qed.

Lemma ParsePeers_sound_witness :
  let addrs : gmap NodeID string := list_to_map [("n1", "a:1"); ("n2", "b:2"); ("n3", "[::1]:3")] in
  ParsePeers " n1 = a:1, n2=b:2 ,,n3=[::1]:3" = inr (addrs, ["n1"; "n2"; "n3"]) ∧
  Majority ["n1"; "n2"; "n3"] = (size addrs / 2 + 1)%nat.
Proof.
  intros addrs.
  assert (ParsePeers " n1 = a:1, n2=b:2 ,,n3=[::1]:3" = inr (addrs, ["n1"; "n2"; "n3"])) as E
    by (vm_compute; reflexivity).
  split; [exact E|]. exact (proj1 (proj2 (proj2 (proj2 (ParsePeers_sound _ _ _ E))))).
Defined.

(** ** Printing a peer list *)

Definition peer_text (p : NodeID * string) : text := to_text p.1 ++ equals :: to_text p.2.

Definition peers_string (ps : list (NodeID * string)) : string := of_text (join comma (peer_text <$> ps)).

(** An id or an address that survives the syntax. *)
Definition word (s : string) : bool :=
  negb (String.eqb s "") && trimmed (to_text s)
  && bool_decide (comma ∉ to_text s) && bool_decide (equals ∉ to_text s).

Definition dialable (s : string) : bool :=
  match SplitHostPort (to_text s) with inr _ => true | inl _ => false end.

Lemma word_spec s :
  word s = true → s ≠ "" ∧ to_text s ≠ [] ∧ trimmed (to_text s) = true ∧
    (comma ∉ to_text s) ∧ (equals ∉ to_text s).
Proof.
  unfold word. rewrite !andb_true_iff, negb_true_iff, !bool_decide_eq_true, String.eqb_neq.
  intros [[[Hne Ht] Hc] He]. split_and!; try done. by destruct s.
Qed.

Lemma equals_not_space : Forall (λ p, equals ∉ p) utf8_spaces.
Proof. apply (bool_decide_unpack _). vm_compute. done. Qed.

Lemma peer_step_word id addr addrs ids :
  word id = true → word addr = true → dialable addr = true → addrs !! id = None →
  peer_step (peer_text (id, addr)) addrs ids = inr (<[id:=addr]> addrs, ids ++ [id]).
Proof.
  intros (Hi & Hit & Hitr & _ & Hie)%word_spec (Ha & Hat & Hatr & _ & Hae)%word_spec Hd Hnew.
  unfold peer_step, peer_text. cbn [fst snd].
  rewrite TrimSpace_id by (apply trimmed_app; auto using equals_not_space). cbv zeta.
  rewrite count_app, cut_app, count_none by done. change (equals :: to_text addr) with ([equals] ++ to_text addr).
  rewrite count_app, (count_none _ (to_text addr)), !TrimSpace_id, !of_to_text by done.
  destruct (to_text id ++ [equals] ++ to_text addr) eqn:E; [by destruct (to_text id)|]. simpl.
  destruct (String.eqb_spec id ""); [done|]. rewrite bool_decide_eq_false_2 by done.
  rewrite bool_decide_eq_false_2 by (rewrite Hnew; by intros []).
  unfold dialable in Hd. by destruct (SplitHostPort (to_text addr)).
Qed.

Lemma peer_loop_words ps addrs ids :
  Forall (λ p, word p.1 = true ∧ word p.2 = true ∧ dialable p.2 = true) ps → NoDup ps.*1 →
  Forall (λ p, addrs !! p.1 = None) ps →
  peer_loop (peer_text <$> ps) addrs ids = inr (list_to_map ps ∪ addrs, ids ++ ps.*1).
Proof.
  revert addrs ids. induction ps as [|[id addr] ps IH]; intros addrs ids.
  { intros _ _ _. simpl. by rewrite (left_id_L ∅ (∪)), app_nil_r. }
  intros [(Hi & Ha & Hd) Hw]%Forall_cons [Hnin Hnd]%NoDup_cons [Hnew Hdis]%Forall_cons. simpl in *.
  rewrite peer_step_word by done. rewrite IH; [|done|done|].
  - f_equal. f_equal; [|by rewrite <- app_assoc]. rewrite <- insert_union_r by (by apply not_elem_of_list_to_map_1).
    by rewrite insert_union_l.
  - rewrite Forall_forall in *. intros p Hp. rewrite lookup_insert_ne; [by apply Hdis|].
    intros ->. apply Hnin, list_elem_of_fmap. eauto.
Qed.

(** Peer lists round-trip.  The text [id=addr,id=addr,...] of servers with
    distinct ids, of ids and addresses that are not empty, have no comma, equals
    sign or surrounding white space, and of addresses with a port, parses to
    exactly these servers, in this order. *)
Theorem ParsePeers_roundtrip ps :
  ps ≠ [] → NoDup ps.*1 →
  Forall (λ p, word p.1 = true ∧ word p.2 = true ∧ dialable p.2 = true) ps →
  ParsePeers (peers_string ps) = inr (list_to_map ps, ps.*1).
Proof.
  intros Hne Hnd Hw. unfold ParsePeers, peers_string. rewrite to_of_text, split_on_join.
  - rewrite peer_loop_words; [|done|done|by apply Forall_true].
    rewrite (right_id_L ∅ (∪)). by destruct ps.
  - by destruct ps.
  - apply Forall_fmap. eapply Forall_impl; [exact Hw|]. intros [id addr] (Hi & Ha & _). simpl in *.
    apply word_spec in Hi as (_ & _ & _ & Hi & _). apply word_spec in Ha as (_ & _ & _ & Ha & _).
    unfold peer_text. simpl. rewrite elem_of_app, elem_of_cons. by intros [?|[?|?]].
Qed.

Lemma ParsePeers_roundtrip_witness :
  let ps := [("n1", "127.0.0.1:7001"); ("n2", "[::1]:7002")] in
  peers_string ps = "n1=127.0.0.1:7001,n2=[::1]:7002" ∧
  ParsePeers "n1=127.0.0.1:7001,n2=[::1]:7002" = inr (list_to_map ps, ["n1"; "n2"]).
Proof.
  intros ps. assert (peers_string ps = "n1=127.0.0.1:7001,n2=[::1]:7002") as E by (vm_compute; reflexivity).
  split; [exact E|]. rewrite <- E. apply (ParsePeers_roundtrip ps); [done|by apply (bool_decide_unpack _)|].
  repeat apply Forall_cons_2; [split_and!; vm_compute; reflexivity..|constructor].
Defined.
