(* ===== verification/RaftServer.v ===== *)
(** * Raft: the RPC receivers (src/raft/server.go, membership.go, persist.go)

    One definition per method, on the server's state.  The clock reading and the
    random draw of a locked region are its [Env]: [draw] is the value of
    [rnd.Int63n(span)]. *)

From S2P Require Import Prelude GoLib GoFloat RaftTypes RaftLog RaftCodec.

Local Open Scope Z_scope.

Record Env := mkEnv { now : Z; draw : Z }.

Definition Millisecond : Z := 1000000.

Section Server.
Context {SM St : Type} `{StateMachine SM} `{Storage St}.
Implicit Type s : Server SM St.

Definition majority s : nat := (length (peers s) / 2 + 1)%nat.

(** ** Persistence (persist.go) *)

Definition persistLocked s : Server SM St * option string :=
  match storage s with
  | None => (s, None)
  | Some st =>
      let (st', err) := st_Save (encodeState (currentTerm s) (votedFor s) (log s)) st in
      (set_storage (Some st') s, err)
  end.

Definition mustPersistLocked s : outcome SM St (Server SM St) :=
  match persistLocked s with
  | (s', None) => Ok s'
  | (s', Some _) => Panic s'
  end.

(** [if c { s.mustPersistLocked() }] *)
Definition persist_if (c : bool) s : outcome SM St (Server SM St) :=
  if c then mustPersistLocked s else Ok s.

(** ** Terms and timers *)

Definition becomeFollower (term : Z) s : Server SM St :=
  let s := set_role Follower s in
  if currentTerm s <? term then set_votedFor None (set_currentTerm term s) else s.

Definition observeTerm (t : Z) s : Server SM St * bool :=
  if currentTerm s <? t then (becomeFollower t s, true) else (s, false).

Definition electionBias (h : NodeHealth) : float64 :=
  match h with
  | HealthHigh => literal 55 100
  | HealthLow => literal 145 100
  | HealthNormal => float_of_int 1
  end.

Definition biased (h : NodeHealth) (k : Z) : Z :=
  int64_of_float (fmul (float_of_int k) (electionBias h)).

Definition resetElectionTimerLocked (env : Env) s : Server SM St :=
  let span := i64 (ElectionTimeoutMax (cfg s) - ElectionTimeoutMin (cfg s)) in
  let d := ElectionTimeoutMin (cfg s) in
  let d := if 0 <? span then i64 (d + biased (health s) (draw env)) else d in
  set_electionDeadline (now env + i64 (d * Millisecond)) s.

Definition minElectionTimeout s : Z := i64 (ElectionTimeoutMin (cfg s) * Millisecond).

(** ** Applying committed entries *)

Definition WaitApplied (idx : Z) (ch : nat) s : Server SM St :=
  if idx <=? lastApplied s then set_closedChans (closedChans s ++ [ch]) s
  else set_applyWaiters (<[idx:=default [] (applyWaiters s !! idx) ++ [ch]]> (applyWaiters s)) s.

Definition signalApplied s : Server SM St :=
  let woken := filter (λ kv, kv.1 ≤ lastApplied s) (applyWaiters s) in
  set_applyWaiters (filter (λ kv, ¬ kv.1 ≤ lastApplied s) (applyWaiters s))
    (set_closedChans (closedChans s ++ concat (map_to_list woken).*2) s).

(** The call of the state machine for one entry; [None] is a panic. *)
Definition apply_entry (e : LogEntry) (m : option SM) : option (option SM) :=
  match m, e_Command e with
  | Some m, Some cmd =>
      Some <$> (match sm_ApplyAt with
                | Some applyAt => applyAt (e_Index e) cmd m
                | None => sm_Apply cmd m
                end)
  | _, _ => Some m
  end.

(** The loop of [applyCommitted]; [false] is its early return. *)
Fixpoint apply_loop (fuel : nat) s : outcome SM St (Server SM St * bool) :=
  match fuel with
  | O => Ok (s, true)
  | S fuel =>
      if negb (lastApplied s <? commitIndex s) then Ok (s, true)
      else
        let s := set_lastApplied (u64 (lastApplied s + 1)) s in
        match entryAt (log s) (lastApplied s) with
        | None => Ok (set_lastApplied (u64 (lastApplied s - 1)) s, false)
        | Some e =>
            match apply_entry e (sm s) with
            | None => Panic s
            | Some m => apply_loop fuel (set_sm m s)
            end
        end
  end.

Definition saveApplied s : Server SM St :=
  match storage s, st_Applied with
  | Some st, Some ops =>
      if 0 <? lastApplied s then
        let (st', err) := as_SaveApplied ops (lastApplied s) st in
        let s := set_storage (Some st') s in
        match err with
        | Some e => set_lastAppliedErr (Some e) (set_appliedErrs (appliedErrs s + 1) s)
        | None => s
        end
      else s
  | _, _ => s
  end.

(** Each iteration advances [lastApplied] by one, so the distance to
    [commitIndex] bounds their number. *)
Definition applyCommitted s : outcome SM St (Server SM St) :=
  '(s, done) ← apply_loop (Z.to_nat (commitIndex s - lastApplied s)) s;
  if (done : bool) then Ok (signalApplied (saveApplied s)) else Ok s.

(** ** Membership (membership.go) *)

Definition CurrentConfiguration s : Configuration := peers s.

Definition useConfigurationLocked (c : Configuration) s : Server SM St :=
  let s := set_peers c s in
  if bool_decide (role s ≠ Leader) then s
  else
    let next := u64 (lastIndex (log s) + 1) in
    let s := foldl (λ s p,
      match nextIndex s !! p with
      | Some _ => s
      | None => set_matchIndex (<[p:=0]> (matchIndex s)) (set_nextIndex (<[p:=next]> (nextIndex s)) s)
      end) s c in
    let gone := filter (λ p, Contains c p = false) (map_to_list (nextIndex s)).*1 in
    let s := set_nextIndex (foldr delete (nextIndex s) gone) s in
    let s := set_lastContact (foldr delete (lastContact s) gone) s in
    let m := foldr delete (matchIndex s) gone in
    set_matchIndex (<[id s:=lastIndex (log s)]> m) s.

(** The loop of [adoptConfigFromLogLocked] over the entries above the sentinel,
    newest first. *)
Fixpoint adopt_loop (es : list LogEntry) s : Server SM St :=
  match es with
  | [] => s
  | e :: es =>
      let cmd := cmd_bytes (e_Command e) in
      if negb (isConfigEntry cmd) then adopt_loop es s
      else
        match decodeConfig cmd with
        | inl err => adopt_loop es (set_lastConfigErr (Some err) (set_configErrs (configErrs s + 1) s))
        | inr c => set_configChangeIndex (e_Index e) (useConfigurationLocked c s)
        end
  end.

Definition adoptConfigFromLogLocked s : Server SM St := adopt_loop (reverse (tail (log s))) s.

Definition checkSelfRemovalLocked s : Server SM St :=
  if bool_decide (role s ≠ Leader) || removedFromCluster s then s
  else if (configChangeIndex s =? 0) || (commitIndex s <? configChangeIndex s) then s
  else if Contains (peers s) (id s) then s
  else becomeFollower (currentTerm s) (set_removedFromCluster true s).

(** ** AppendEntries *)

(** What precedes the consistency check: the sender is the current leader. *)
Definition heardFromLeader (env : Env) (args : AppendEntriesArgs) s : Server SM St * bool :=
  let (s, termChanged) := observeTerm (ae_Term args) s in
  let s := if bool_decide (role s = Candidate) && (ae_Term args =? currentTerm s)
           then set_role Follower s else s in
  let s := set_leaderID (ae_LeaderID args) s in
  let s := set_lastLeaderContact (now env) s in
  (resetElectionTimerLocked env s, termChanged).

Definition AppendEntries (env : Env) (args : AppendEntriesArgs) s :
    outcome SM St (Server SM St * AppendEntriesReply) :=
  if stopped s then Ok (s, mkAppendEntriesReply (currentTerm s) false)
  else if ae_Term args <? currentTerm s then Ok (s, mkAppendEntriesReply (currentTerm s) false)
  else
    let (s, termChanged) := heardFromLeader env args s in
    if negb (matchesPrevLog (log s) (ae_PrevLogIndex args) (ae_PrevLogTerm args)) then
      s ← persist_if termChanged s;
      Ok (s, mkAppendEntriesReply (currentTerm s) false)
    else
      let (l, changed) := appendFrom (ae_PrevLogIndex args) (ae_Entries args) (log s) in
      let s := set_log l s in
      let s := if changed then adoptConfigFromLogLocked s else s in
      s ← persist_if (changed || termChanged) s;
      s ← (if commitIndex s <? ae_LeaderCommit args then
             let lastNew := u64 (ae_PrevLogIndex args + Z.of_nat (length (ae_Entries args))) in
             applyCommitted (set_commitIndex (Z.min (ae_LeaderCommit args) lastNew) s)
           else Ok s);
      Ok (s, mkAppendEntriesReply (currentTerm s) true).

(** ** RequestVote *)

(** The disruptive-server check. *)
Definition leaderIsReachingUs (env : Env) s : bool :=
  negb (String.eqb (leaderID s) "") && bool_decide (role s = Follower)
  && (now env - lastLeaderContact s <? minElectionTimeout s).

Definition RequestVote (env : Env) (args : RequestVoteArgs) s :
    outcome SM St (Server SM St * RequestVoteReply) :=
  if stopped s then Ok (s, mkRequestVoteReply (currentTerm s) false)
  else if rv_Term args <? currentTerm s then Ok (s, mkRequestVoteReply (currentTerm s) false)
  else if leaderIsReachingUs env s then Ok (s, mkRequestVoteReply (currentTerm s) false)
  else
    let (s, termChanged) := observeTerm (rv_Term args) s in
    let alreadyVoted :=
      match votedFor s with
      | None => false
      | Some v => negb (String.eqb v (rv_CandidateID args))
      end in
    if alreadyVoted || negb (isUpToDate (log s) (rv_LastLogIndex args) (rv_LastLogTerm args)) then
      s ← persist_if termChanged s;
      Ok (s, mkRequestVoteReply (currentTerm s) false)
    else
      let s := set_votedFor (Some (rv_CandidateID args)) s in
      let s := resetElectionTimerLocked env s in
      s ← mustPersistLocked s;
      Ok (s, mkRequestVoteReply (currentTerm s) true).

End Server.
