(* ===== verification/RaftLoop.v ===== *)
(** * Raft: the role loop, elections, replication and membership changes
    (src/raft/loop.go, membership.go)

    A method that releases the mutex around an RPC is split at that point: what
    it does before the call ([startElection], [replicate_request]), and what it
    does with the reply ([vote_reply], [tally], [replicate_reply]).  Any other
    operation of the server can come in between. *)

From S2P Require Import Prelude GoLib RaftTypes RaftLog RaftCodec RaftServer.

Local Open Scope Z_scope.

(** The state a running election keeps outside the server: the request it
    sends, the peers whose reply is outstanding, those whose granted vote has
    been seen but not yet counted, and the tally ([votes], [resolved]).
    [el_counted] lists the peers behind [votes], the candidate aside. *)
Record Election := mkElection {
  el_args : RequestVoteArgs;
  el_needed : nat;
  el_config : Configuration;
  el_pending : list NodeID;
  el_granted : list NodeID;
  el_counted : list NodeID;
  el_votes : nat;
  el_resolved : bool
}.

(** What [tick] starts. *)
Inductive tick_action := TickNothing | TickElection | TickHeartbeat.

(** What [replicateTo] sends. *)
Inductive send := SendNothing | SendSnapshot | SendEntries (args : AppendEntriesArgs).

Section Loop.
Context {SM St : Type} `{StateMachine SM} `{Storage St}.
Implicit Type s : Server SM St.

Definition Start (env : Env) s : Server SM St :=
  if running s then s else resetElectionTimerLocked env (set_running true s).

Definition Stop s : Server SM St :=
  if negb (running s) then s else set_stopped true (set_running false s).

Definition tick (env : Env) s : tick_action :=
  match role s with
  | Follower | Candidate => if negb (now env <? electionDeadline s) then TickElection else TickNothing
  | Leader => if negb (now env <? heartbeatDeadline s) then TickHeartbeat else TickNothing
  end.

(** ** Commit index *)

Definition matching (n : Z) s : nat :=
  length (filter (λ p, n ≤ default 0 (matchIndex s !! p)) (peers s)).

(** The loop of [advanceCommitIndexLocked], from [n] down to [commitIndex]. *)
Fixpoint advance_loop (fuel : nat) (n : Z) s : outcome SM St (Server SM St) :=
  match fuel with
  | O => Ok s
  | S fuel =>
      if negb (commitIndex s <? n) then Ok s
      else
        match termAt (log s) n with
        | Some t =>
            if negb (t =? currentTerm s) then advance_loop fuel (u64 (n - 1)) s
            else if (majority s <=? matching n s)%nat then
              s ← applyCommitted (set_commitIndex n s);
              Ok (checkSelfRemovalLocked s)
            else advance_loop fuel (u64 (n - 1)) s
        | None => advance_loop fuel (u64 (n - 1)) s
        end
  end.

Definition advanceCommitIndexLocked s : outcome SM St (Server SM St) :=
  if bool_decide (role s ≠ Leader) then Ok s
  else advance_loop (Z.to_nat (lastIndex (log s) - commitIndex s)) (lastIndex (log s)) s.

(** ** Elections *)

(** [startElection] up to the first [go]; the flag says that the own vote is
    already a majority, in which case [becomeLeader] follows. *)
Definition startElection (env : Env) s : outcome SM St (Server SM St * Election * bool) :=
  let s := set_role Candidate s in
  let s := set_currentTerm (u64 (currentTerm s + 1)) s in
  let s := set_votedFor (Some (id s)) s in
  let s := resetElectionTimerLocked env s in
  s ← mustPersistLocked s;
  let args := mkRequestVote (currentTerm s) (id s) (lastIndex (log s)) (lastTerm (log s)) in
  let needed := majority s in
  let won := (needed <=? 1)%nat in
  Ok (s, mkElection args needed (peers s)
           (if won then [] else filter (λ p, p ≠ id s) (peers s)) [] [] 1 false, won).

(** The reply of one peer, up to the release of the server's mutex; the flag is
    [!stale && reply.VoteGranted]. *)
Definition vote_reply (term : Z) (reply : RequestVoteReply) s : outcome SM St (Server SM St * bool) :=
  if currentTerm s <? rvr_Term reply then
    s ← mustPersistLocked (becomeFollower (rvr_Term reply) s);
    Ok (s, false)
  else
    let stale := negb (currentTerm s =? term) || bool_decide (role s ≠ Candidate) in
    Ok (s, negb (stale || negb (rvr_VoteGranted reply))).

(** [votes++] under the election's own mutex; the flag is [won]. *)
Definition tally (peer : NodeID) (el : Election) : Election * bool :=
  let votes := S (el_votes el) in
  let won := negb (el_resolved el) && (el_needed el <=? votes)%nat in
  (mkElection (el_args el) (el_needed el) (el_config el) (el_pending el)
     (filter (λ p, p ≠ peer) (el_granted el)) (peer :: el_counted el) votes (el_resolved el || won), won).

Definition becomeLeader (term : Z) s : outcome SM St (Server SM St) :=
  if bool_decide (role s ≠ Candidate) || negb (currentTerm s =? term) then Ok s
  else
    let s := set_role Leader s in
    let s := set_leaderID (id s) s in
    let next := u64 (lastIndex (log s) + 1) in
    let s := foldl (λ s p, set_matchIndex (<[p:=0]> (matchIndex s))
                             (set_nextIndex (<[p:=next]> (nextIndex s)) s)) s (peers s) in
    let s := set_matchIndex (<[id s:=lastIndex (log s)]> (matchIndex s)) s in
    let s := set_lastContact ∅ s in
    let idx := u64 (lastIndex (log s) + 1) in
    let s := set_log (log s ++ [mkEntry (currentTerm s) idx None]) s in
    let s := set_matchIndex (<[id s:=idx]> (matchIndex s)) s in
    let s := set_nextIndex (<[id s:=u64 (idx + 1)]> (nextIndex s)) s in
    s ← mustPersistLocked s;
    advanceCommitIndexLocked s.

(** ** Replication *)

(** The locked part: the term and the peers [replicateTo] is started for. *)
Definition broadcastAppendEntries (env : Env) s : Server SM St * list NodeID :=
  if bool_decide (role s ≠ Leader) then (s, [])
  else
    (set_heartbeatDeadline (now env + i64 (HeartbeatInterval (cfg s) * Millisecond)) s,
     filter (λ p, p ≠ id s) (peers s)).

Definition replicate_request (peer : NodeID) (term : Z) s : send :=
  if bool_decide (role s ≠ Leader) || negb (currentTerm s =? term) then SendNothing
  else
    let next := default 0 (nextIndex s !! peer) in
    let next := if next <? 1 then 1 else next in
    if next <=? baseIndex (log s) then SendSnapshot
    else
      let prevIdx := u64 (next - 1) in
      let prevTerm := default 0 (termAt (log s) prevIdx) in
      let entries := if next <=? lastIndex (log s)
                     then drop (Z.to_nat (slot (log s) next)) (log s) else [] in
      if bool_decide (transport s = NoTransport) then SendNothing
      else SendEntries (mkAppendEntries term (id s) prevIdx prevTerm entries (commitIndex s)).

Definition replicate_reply (env : Env) (peer : NodeID) (term : Z) (args : AppendEntriesArgs)
    (reply : AppendEntriesReply) s : outcome SM St (Server SM St) :=
  if currentTerm s <? aer_Term reply then mustPersistLocked (becomeFollower (aer_Term reply) s)
  else if bool_decide (role s ≠ Leader) || negb (currentTerm s =? term) then Ok s
  else if aer_Success reply then
    let s := set_lastContact (<[peer:=now env]> (lastContact s)) s in
    let m := u64 (ae_PrevLogIndex args + Z.of_nat (length (ae_Entries args))) in
    let s := if default 0 (matchIndex s !! peer) <? m
             then set_nextIndex (<[peer:=u64 (m + 1)]> (nextIndex s))
                    (set_matchIndex (<[peer:=m]> (matchIndex s)) s)
             else s in
    advanceCommitIndexLocked s
  else
    let next := default 0 (nextIndex s !! peer) in
    Ok (if 1 <? next then set_nextIndex (<[peer:=u64 (next - 1)]> (nextIndex s)) s else s).

(** ** Client commands *)

(** [Submit] up to its broadcast: the index, the term and whether this server
    took the command. *)
Definition Submit (cmd : option bytes) s : outcome SM St (Server SM St * (Z * Z * bool)) :=
  if bool_decide (role s ≠ Leader) || stopped s then Ok (s, (0, 0, false))
  else
    let idx := u64 (lastIndex (log s) + 1) in
    let term := currentTerm s in
    let s := set_log (log s ++ [mkEntry term idx cmd]) s in
    let s := set_matchIndex (<[id s:=idx]> (matchIndex s)) s in
    s ← mustPersistLocked s;
    s ← advanceCommitIndexLocked s;
    Ok (s, (idx, term, true)).

(** ** Membership changes (membership.go) *)

Definition ErrNotLeader : string := "raft: not leader".

Definition changeConfiguration (mutate : Configuration → string + Configuration) s :
    Server SM St * (string + Z) :=
  if bool_decide (role s ≠ Leader) then (s, inl ErrNotLeader)
  else
    let current := peers s in
    if negb (Contains current (id s)) then (s, inl ErrNotInConfiguration)
    else if commitIndex s <? configChangeIndex s then (s, inl ErrConfigChangeInFlight)
    else
      match mutate current with
      | inl err => (s, inl err)
      | inr next =>
          if negb (differsByOne current next) then (s, inl ErrNotSingleServerChange)
          else
            let idx := u64 (lastIndex (log s) + 1) in
            let s := set_log (log s ++ [mkEntry (currentTerm s) idx (Some (encodeConfig next))]) s in
            let s := set_matchIndex (<[id s:=idx]> (matchIndex s)) s in
            let s := set_configChangeIndex idx s in
            let s := useConfigurationLocked next s in
            match persistLocked s with
            | (s, Some err) => (s, inl err)
            | (s, None) => (s, inr idx)
            end
      end.

Definition AddServer (server : NodeID) s : Server SM St * (string + Z) :=
  changeConfiguration (λ c,
    if Contains c server then inl ("raft: " +:+ server +:+ " is already in the configuration")
    else inr (withServer c server)) s.

Definition RemoveServer (server : NodeID) s : Server SM St * (string + Z) :=
  changeConfiguration (λ c,
    if negb (Contains c server) then inl ("raft: " +:+ server +:+ " is not in the configuration")
    else if (length c =? 1)%nat then inl ErrLastServer
    else inr (withoutServer c server)) s.

End Loop.
