(* ===== verification/RaftSnapshot.v ===== *)
(** * Raft: compaction, snapshot transfer, restart, reads and health
    (src/raft/snapshot.go, persist.go, read.go, health.go) *)

From S2P Require Import Prelude GoLib RaftTypes RaftLog RaftCodec RaftServer RaftLoop.

Local Open Scope Z_scope.

Definition errNoSnapshotToSend : string := "raft: follower needs a snapshot but none exists".
Definition errTransportCannotSnapshot : string :=
  "raft: transport does not support InstallSnapshot; a follower behind the compacted prefix cannot be caught up".

(** [discardThrough] on the log. *)
Definition discardThrough (idx term : Z) (l : list LogEntry) : list LogEntry :=
  mkEntry term idx None :: drop (S (Z.to_nat (slot l idx))) l.

(** The log after a snapshot at [idx]: the tail is kept only behind a matching
    entry. *)
Definition rebase (idx term : Z) (l : list LogEntry) : list LogEntry :=
  match entryAt l idx with
  | Some e => if e_Term e =? term then discardThrough idx term l else [mkEntry term idx None]
  | None => [mkEntry term idx None]
  end.

Section Snapshot.
Context {SM St : Type} `{StateMachine SM} `{Storage St}.
Implicit Type s : Server SM St.

(** ** MaybeCompact

    First locked region: nothing to do ([inl], with the error), or the snapshot
    to save. *)
Definition compact_take (threshold : Z) s : option string + (Z * Z * bytes) :=
  match sm s, sm_Snapshotter, storage s, st_Snapshot with
  | Some m, Some snapper, Some _, Some _ =>
      let upto := lastApplied s in
      if (upto <=? baseIndex (log s)) || (Z.of_nat (length (log s)) - 1 <? threshold) then inl None
      else
        match entryAt (log s) upto with
        | None => inl (Some ("raft: cannot compact to " +:+ fmt_d upto +:+ ": entry missing"))
        | Some e =>
            match sn_Snapshot snapper m with
            | inl err => inl (Some ("raft: snapshot state machine: " +:+ err))
            | inr data => inr (e_Index e, e_Term e, data)
            end
        end
  | _, _, _, _ => inl None
  end.

(** The write between the two locked regions. *)
Definition compact_save (idx term : Z) (data : bytes) s : Server SM St * option string :=
  match storage s, st_Snapshot with
  | Some st, Some ops =>
      let (st', err) := ss_SaveSnapshot ops idx term data st in
      (set_storage (Some st') s, err)
  | _, _ => (s, None)
  end.

(** Second locked region: re-check and truncate. *)
Definition compact_finish (idx term : Z) (data : bytes) s : Server SM St * (bool * option string) :=
  if (idx <=? baseIndex (log s)) || (lastIndex (log s) <? idx) then (s, (false, None))
  else
    match entryAt (log s) idx with
    | Some cur =>
        if negb (e_Term cur =? term) then (s, (false, None))
        else
          let s := set_log (discardThrough idx term (log s)) s in
          let s := set_snapshot (Some (mkSnapshotState idx term data)) s in
          let (s, err) := persistLocked s in
          (s, (true, err))
    | None => (s, (false, None))
    end.

(** The whole call when nothing intervenes. *)
Definition MaybeCompact (threshold : Z) s : Server SM St * (bool * option string) :=
  match compact_take threshold s with
  | inl err => (s, (false, err))
  | inr (idx, term, data) =>
      match compact_save idx term data s with
      | (s, Some err) => (s, (false, Some ("raft: save snapshot: " +:+ err)))
      | (s, None) => compact_finish idx term data s
      end
  end.

(** ** InstallSnapshot *)

Definition count_snapshot_err (err : option string) s : Server SM St :=
  match err with
  | Some e => set_lastSnapshotErr (Some e) (set_snapshotErrs (snapshotErrs s + 1) s)
  | None => s
  end.

Definition InstallSnapshot (env : Env) (args : InstallSnapshotArgs) s :
    Server SM St * InstallSnapshotReply :=
  if is_Term args <? currentTerm s then (s, mkInstallSnapshotReply (currentTerm s))
  else
    let s := if currentTerm s <? is_Term args
             then set_role Follower (set_votedFor None (set_currentTerm (is_Term args) s)) else s in
    let s := set_leaderID (is_LeaderID args) s in
    let s := resetElectionTimerLocked env s in
    let idx := is_LastIncludedIndex args in
    let term := is_LastIncludedTerm args in
    if (idx <=? baseIndex (log s)) || (idx <=? lastApplied s)
    then (s, mkInstallSnapshotReply (currentTerm s))
    else
      match sm s, sm_Snapshotter with
      | Some m, Some snapper =>
          match sn_RestoreSnapshot snapper (is_Data args) m with
          | (m', Some err) =>
              (count_snapshot_err (Some err) (set_sm (Some m') s), mkInstallSnapshotReply (currentTerm s))
          | (m', None) =>
              let s := set_sm (Some m') s in
              let s := set_log (rebase idx term (log s)) s in
              let s := set_lastApplied idx s in
              let s := if commitIndex s <? idx then set_commitIndex idx s else s in
              let s := set_snapshot (Some (mkSnapshotState idx term (is_Data args))) s in
              let (s, err) := compact_save idx term (is_Data args) s in
              let s := count_snapshot_err err s in
              let (s, err) := persistLocked s in
              let s := count_snapshot_err err s in
              (s, mkInstallSnapshotReply (currentTerm s))
          end
      | _, _ => (s, mkInstallSnapshotReply (currentTerm s))
      end.

(** ** sendSnapshotTo *)

Definition snapshot_request (term : Z) s : Server SM St * option InstallSnapshotArgs :=
  if bool_decide (role s ≠ Leader) || negb (currentTerm s =? term) then (s, None)
  else
    match snapshot s with
    | None => (count_snapshot_err (Some errNoSnapshotToSend) s, None)
    | Some sn =>
        if bool_decide (transport s ≠ SnapshotCapable)
        then (count_snapshot_err (Some errTransportCannotSnapshot) s, None)
        else (s, Some (mkInstallSnapshot (currentTerm s) (id s) (lastIncludedIndex sn)
                         (lastIncludedTerm sn) (snap_data sn) true))
    end.

Definition snapshot_reply (env : Env) (peer : NodeID) (term : Z) (args : InstallSnapshotArgs)
    (reply : InstallSnapshotReply) s : outcome SM St (Server SM St) :=
  if currentTerm s <? isr_Term reply then mustPersistLocked (becomeFollower (isr_Term reply) s)
  else if bool_decide (role s ≠ Leader) || negb (currentTerm s =? term) then Ok s
  else
    let idx := is_LastIncludedIndex args in
    let s := if default 0 (matchIndex s !! peer) <? idx
             then set_matchIndex (<[peer:=idx]> (matchIndex s)) s else s in
    let next := u64 (idx + 1) in
    let s := if default 0 (nextIndex s !! peer) <? next
             then set_nextIndex (<[peer:=next]> (nextIndex s)) s else s in
    s ← advanceCommitIndexLocked s;
    Ok (set_lastContact (<[peer:=now env]> (lastContact s)) s).

(** ** Restart (persist.go) *)

(** The snapshot, if the storage holds one, becomes the base of the state. *)
Definition restore_snapshot s : outcome SM St (string + Server SM St) :=
  match storage s, st_Snapshot, sm s with
  | Some st, Some ops, Some m =>
      match ss_LoadSnapshot ops st with
      | inl err => Ok (inl err)
      | inr None => Ok (inr s)
      | inr (Some (idx, term, data)) =>
          match sm_Snapshotter with
          | None =>
              Ok (inl ("raft: a snapshot at index " +:+ fmt_d idx +:+ " exists but the state machine "
                       +:+ "cannot restore it; the compacted log prefix is unrecoverable"))
          | Some snapper =>
              match sn_RestoreSnapshot snapper data m with
              | (_, Some err) =>
                  Ok (inl ("raft: restore snapshot at index " +:+ fmt_d idx +:+ ": " +:+ err))
              | (m', None) =>
                  let s := set_sm (Some m') s in
                  let s := set_snapshot (Some (mkSnapshotState idx term data)) s in
                  let s := set_lastApplied idx (set_commitIndex idx s) in
                  Ok (inr (if baseIndex (log s) <? idx
                           then set_log (rebase idx term (log s)) s else s))
              end
          end
      end
  | _, _, _ => Ok (inr s)
  end.

(** The replay loop: the entries [i], [i + 1], ..., [n] of them. *)
Fixpoint replay_loop (n : nat) (i : Z) s : outcome SM St (string + Server SM St) :=
  match n with
  | O => Ok (inr s)
  | S n =>
      match entryAt (log s) i with
      | None => Ok (inl ("raft: missing log entry " +:+ fmt_d i +:+ " during replay"))
      | Some e =>
          match apply_entry e (sm s) with
          | None => Panic s
          | Some m => replay_loop n (u64 (i + 1)) (set_sm m s)
          end
      end
  end.

(** Replay up to the applied marker, clamped into the log. *)
Definition replay_applied s : outcome SM St (string + Server SM St) :=
  match storage s, st_Applied, sm s with
  | Some st, Some ops, Some _ =>
      match as_LoadApplied ops st with
      | inl err => Ok (inl err)
      | inr raw =>
          let prevApplied := if raw <? baseIndex (log s) then baseIndex (log s) else raw in
          let prevApplied := if lastIndex (log s) <? prevApplied then lastIndex (log s) else prevApplied in
          r ← replay_loop (Z.to_nat (prevApplied - baseIndex (log s))) (u64 (baseIndex (log s) + 1)) s;
          match r with
          | inl err => Ok (inl err)
          | inr s =>
              let s := if commitIndex s <? prevApplied then set_commitIndex prevApplied s else s in
              Ok (inr (if lastApplied s <? prevApplied then set_lastApplied prevApplied s else s))
          end
      end
  | _, _, _ => Ok (inr s)
  end.

Definition Restore s : outcome SM St (string + Server SM St) :=
  match storage s with
  | None => Ok (inr s)
  | Some st =>
      match st_Load st with
      | inl err => Ok (inl err)
      | inr [] => Ok (inr s)
      | inr data =>
          match decodeState data with
          | None => Ok (inl errShortState)
          | Some (term, vote, l) =>
              if (length l =? 0)%nat then Ok (inl errShortState)
              else
                let s := set_log l (set_votedFor vote (set_currentTerm term s)) in
                let s := adoptConfigFromLogLocked (set_role Follower s) in
                let s := set_lastApplied 0 (set_commitIndex 0 s) in
                r ← restore_snapshot s;
                match r with
                | inl err => Ok (inl err)
                | inr s => replay_applied s
                end
          end
      end
  end.

End Snapshot.
