(* ===== verification/RaftRead.v ===== *)
(** * Raft: linearizable reads (src/raft/read.go)

    [ReadIndex] is split where it releases the server's mutex: the start, the
    heartbeat each goroutine sends, what it does with the reply, the count of
    acknowledgements under the read's own mutex, and the check that ends it.  A
    [ReadCall] is the state the call keeps outside the server: [rd_pending] are the
    goroutines that have not seen a reply, [rd_ok] those that found the server
    still leading and have not counted yet, [rd_counted] those behind [rd_acks]. *)

From S2P Require Import Prelude GoLib RaftTypes RaftLog RaftCodec RaftServer RaftLoop.

Local Open Scope Z_scope.

Definition ErrLostLeadership : string := "raft: could not confirm leadership".

Record ReadCall := mkRead {
  rd_server : NodeID;
  rd_term : Z;
  rd_idx : Z;
  rd_config : Configuration;
  rd_needed : nat;
  rd_pending : list NodeID;
  rd_ok : list NodeID;
  rd_counted : list NodeID;
  rd_acks : nat
}.

Inductive read_start :=
  | ReadRefused (err : string)
  | ReadNow (idx : Z)
  | ReadPending (r : ReadCall).

(** Drop the first occurrence. *)
Fixpoint remove_one (x : NodeID) (l : list NodeID) : list NodeID :=
  match l with
  | [] => []
  | y :: l => if decide (y = x) then l else y :: remove_one x l
  end.

Lemma remove_one_perm x l : x ∈ l → l ≡ₚ x :: remove_one x l.
Proof.
  induction l as [|y l IH]; intros Hx; [by apply elem_of_nil in Hx|]. simpl.
  case_decide as E; [by subst|]. apply elem_of_cons in Hx as [->|Hx]; [done|].
  rewrite (IH Hx) at 1. apply perm_swap.
Qed.

(** The goroutine of [peer] has its reply; [ok] if it goes on to count it. *)
Definition answered (peer : NodeID) (ok : bool) (r : ReadCall) : ReadCall :=
  mkRead (rd_server r) (rd_term r) (rd_idx r) (rd_config r) (rd_needed r)
    (remove_one peer (rd_pending r)) (if ok then peer :: rd_ok r else rd_ok r) (rd_counted r) (rd_acks r).

(** [acks++] *)
Definition count_ack (peer : NodeID) (r : ReadCall) : ReadCall :=
  mkRead (rd_server r) (rd_term r) (rd_idx r) (rd_config r) (rd_needed r) (rd_pending r)
    (remove_one peer (rd_ok r)) (peer :: rd_counted r) (S (rd_acks r)).

(** [acks >= needed] closes the channel. *)
Definition confirmed (r : ReadCall) : bool := (rd_needed r <=? rd_acks r)%nat.

Section Read.
Context {SM St : Type} `{StateMachine SM} `{Storage St}.
Implicit Type s : Server SM St.

Definition LeaderID s : NodeID * bool := (leaderID s, bool_decide (role s = Leader)).

Definition ReadIndex_begin s : read_start :=
  if bool_decide (role s ≠ Leader) then ReadRefused ErrNotLeader
  else if (majority s <=? 1)%nat then ReadNow (commitIndex s)
  else ReadPending (mkRead (id s) (currentTerm s) (commitIndex s) (peers s) (majority s)
                      (filter (λ p, p ≠ id s) (peers s)) [] [] 1).

Definition read_request (r : ReadCall) s : option AppendEntriesArgs :=
  if bool_decide (transport s = NoTransport) then None
  else Some (mkAppendEntries (rd_term r) (rd_server r) (lastIndex (log s)) (lastTerm (log s)) []
               (commitIndex s)).

(** A reply; the flag is [stillLeader], false when the reply's term deposed the server. *)
Definition read_reply (term : Z) (reply : AppendEntriesReply) s : outcome SM St (Server SM St * bool) :=
  if currentTerm s <? aer_Term reply then
    s ← mustPersistLocked (becomeFollower (aer_Term reply) s);
    Ok (s, false)
  else Ok (s, bool_decide (role s = Leader) && (currentTerm s =? term)).

(** After [confirmed], before [timeout]. *)
Definition ReadIndex_finish (r : ReadCall) s : string + Z :=
  if bool_decide (role s ≠ Leader) || negb (currentTerm s =? rd_term r)
  then inl ErrLostLeadership else inr (rd_idx r).

(** [LinearizableRead] after [ReadIndex]: one round of the loop that waits for
    the state machine ([None] sleeps and tries again), then, under the mutex
    again, the reader. *)
Definition read_wait (idx deadline now : Z) s : option (string + unit) :=
  if idx <=? lastApplied s then Some (inr tt)
  else if deadline <? now then Some (inl ErrLostLeadership)
  else None.

Definition read_run {A} (fn : option SM → A) s : A := fn (sm s).

End Read.
