(* ===== verification/RaftHealth.v ===== *)
(** * Raft: health signals and the biased election timer
    (src/raft/health.go, health_priority.go, loop.go) *)

From S2P Require Import Prelude GoLib GoFloat RaftTypes RaftLog RaftCodec RaftServer RaftLoop.

Local Open Scope Z_scope.

Record Health := mkHealth {
  h_ID : NodeID;
  h_Role : Role;
  h_Term : Z;
  h_CommitIndex : Z;
  h_LastApplied : Z;
  h_LogLength : Z;
  h_LeaderID : NodeID;
  h_Ready : bool;
  h_NotReadyReason : string;
  h_QuorumContact : Z;
  h_QuorumNeeded : Z;
  h_SnapshotIndex : Z;
  h_HasSnapshot : bool;
  h_AppliedPersistFailures : Z;
  h_SnapshotFailures : Z;
  h_ConfigFailures : Z;
  h_ConfigServers : list NodeID
}.

(** ** itoa

    The buffer is filled from the right; [digits] is its filled part. *)
Fixpoint itoa_loop (fuel : nat) (n : Z) (digits : string) : string :=
  match fuel with
  | O => digits
  | S fuel =>
      if 0 <? n
      then itoa_loop fuel (n / 10) (String (Ascii.ascii_of_nat (48 + Z.to_nat (n `mod` 10))) digits)
      else digits
  end.

(** The buffer has 20 bytes, one more than an [int] has digits. *)
Definition itoa (n : Z) : string := if n =? 0 then "0" else itoa_loop 20 n "".

Lemma pretty_digit d : (d < 10)%N → pretty_N_char d = Ascii.ascii_of_nat (48 + N.to_nat d).
Proof. intros Hd. do 10 (destruct d as [|d _] using N.peano_ind; [done|]). lia. Qed.

Lemma itoa_loop_pretty fuel n digits :
  0 ≤ n < 10 ^ Z.of_nat fuel → itoa_loop fuel n digits = pretty_N_go (Z.to_N n) digits.
Proof.
  revert n digits. induction fuel as [|fuel IH]; intros n digits Hn; simpl.
  { replace n with 0 by (simpl in Hn; lia). by rewrite pretty_N_go_0. }
  destruct (Z.ltb_spec 0 n) as [Hpos|]; [|replace n with 0 by lia; by rewrite pretty_N_go_0].
  rewrite Nat2Z.inj_succ, Z.pow_succ_r in Hn by lia.
  rewrite IH, (pretty_N_go_step (Z.to_N n)) by first
    [lia|split; [apply Z.div_pos; lia|apply Z.div_lt_upper_bound; lia]].
  rewrite pretty_digit by (apply N.mod_upper_bound; lia).
  by rewrite Z2N.inj_div, <- (Z_N_nat (n `mod` 10)), Z2N.inj_mod by lia.
Qed.

(** The formatter of the health path is the one of [fmt]. *)
Lemma itoa_fmt n : 0 ≤ n < 10 ^ 20 → itoa n = fmt_d n.
Proof.
  intros Hn. unfold itoa, fmt_d. destruct (Z.eqb_spec n 0) as [->|Hne]; [done|].
  rewrite itoa_loop_pretty by done. destruct n as [|p|p]; try lia. reflexivity.
Qed.

Section Health.
Context {SM St : Type} `{StateMachine SM} `{Storage St}.
Implicit Type s : Server SM St.

(** [last, ok := s.lastContact[p]; ok && now.Sub(last) <= readinessWindow] *)
Definition recent (window now : Z) s (p : NodeID) : bool :=
  match lastContact s !! p with
  | Some last => now - last <=? window
  | None => false
  end.

Definition quorum_contact (window now : Z) s : Z :=
  foldl (λ contact p,
    if String.eqb p (id s) then contact
    else if recent window now s p then contact + 1 else contact) 1 (peers s).

Definition not_ready (contact : Z) (reason : string) s : Health :=
  mkHealth (id s) (role s) (currentTerm s) (commitIndex s) (lastApplied s)
    (Z.of_nat (length (log s)) - 1) (leaderID s) false reason contact (Z.of_nat (majority s))
    (match snapshot s with Some sn => lastIncludedIndex sn | None => 0 end)
    (bool_decide (is_Some (snapshot s))) (appliedErrs s) (snapshotErrs s) (configErrs s) (peers s).

Definition ready (contact : Z) s : Health :=
  mkHealth (id s) (role s) (currentTerm s) (commitIndex s) (lastApplied s)
    (Z.of_nat (length (log s)) - 1) (leaderID s) true "" contact (Z.of_nat (majority s))
    (match snapshot s with Some sn => lastIncludedIndex sn | None => 0 end)
    (bool_decide (is_Some (snapshot s))) (appliedErrs s) (snapshotErrs s) (configErrs s) (peers s).

(** [Server.Health]; [now] is the clock. *)
Definition health_report (window now : Z) s : Health :=
  if stopped s then not_ready 0 "server is stopped" s
  else
    match role s with
    | Leader =>
        let contact := quorum_contact window now s in
        let needed := Z.of_nat (majority s) in
        if needed <=? contact then ready contact s
        else not_ready contact ("leader has heard from " +:+ itoa contact +:+ " of "
               +:+ itoa needed +:+ " needed for quorum; cannot commit") s
    | Follower =>
        if String.eqb (leaderID s) "" then not_ready 0 "no known leader" s
        else if electionDeadline s <? now
        then not_ready 0 ("no contact from leader " +:+ leaderID s +:+ " within the election timeout") s
        else ready 0 s
    | Candidate => not_ready 0 "election in progress" s
    end.

Lemma quorum_contact_count window now s :
  quorum_contact window now s
  = 1 + Z.of_nat (length (filter (λ p, p ≠ id s ∧ recent window now s p = true) (peers s))).
Proof.
  unfold quorum_contact. match goal with |- foldl ?f _ _ = _ =>
    enough (∀ l z, foldl f z l = z + Z.of_nat (length (filter
      (λ p, p ≠ id s ∧ recent window now s p = true) l))) as Hall by apply Hall end.
  induction l as [|p ps IH]; intros z; simpl; [lia|]. rewrite IH. destruct (String.eqb_spec p (id s)) as [->|Hne].
  - rewrite filter_cons_False by tauto. done.
  - destruct (recent window now s p) eqn:E.
    + rewrite filter_cons_True by done. simpl. lia.
    + rewrite filter_cons_False by (intros [_ ?]; congruence). done.
Qed.

(** A set of servers a leader has heard from: itself, and peers that answered
    within the window. *)
Definition heard_quorum (window now : Z) s (q : list NodeID) : Prop :=
  NoDup q ∧ q ⊆ peers s ∧ (majority s ≤ length q)%nat ∧
  ∀ p, p ∈ q → p = id s ∨ recent window now s p = true.

Lemma contact_quorum window now s :
  NoDup (peers s) → id s ∈ peers s →
  Z.of_nat (majority s) ≤ quorum_contact window now s ↔ ∃ q, heard_quorum window now s q.
Proof.
  intros Hnd Hin. rewrite quorum_contact_count.
  set (f := filter (λ p, p ≠ id s ∧ recent window now s p = true) (peers s)). split.
  - intros Hc. exists (id s :: f). split_and!.
    + constructor; [|by apply NoDup_filter]. by intros [[? _] _]%list_elem_of_filter.
    + intros p [->|[_ Hp]%list_elem_of_filter]%elem_of_cons; done.
    + simpl. lia.
    + intros p [->|[[_ ?] _]%list_elem_of_filter]%elem_of_cons; auto.
  - intros (q & Hq & Hsub & Hlen & Hrec).
    assert (length q ≤ length (id s :: f))%nat as Hle.
    { apply submseteq_length, NoDup_submseteq; [done|]. intros p Hp. apply elem_of_cons.
      destruct (decide (p = id s)) as [|Hne]; [by left|right]. apply list_elem_of_filter.
      destruct (Hrec p Hp) as [?|?]; [done|]. split; [done|by apply Hsub]. }
    simpl in Hle. lia.
Qed.

(** Readiness.  A server reports ready exactly when it is not stopped and
    either it leads and a majority of its configuration, itself included, has
    answered within the readiness window, or it follows, knows a leader and its
    election deadline has not passed; a candidate is never ready.  The report
    gives a reason exactly when it is not ready. *)
Theorem Health_ready window now s :
  NoDup (peers s) → id s ∈ peers s →
  (h_Ready (health_report window now s) = true ↔
   stopped s = false ∧
   match role s with
   | Leader => ∃ q, heard_quorum window now s q
   | Follower => leaderID s ≠ "" ∧ now ≤ electionDeadline s
   | Candidate => False
   end) ∧
  (h_Ready (health_report window now s) = false ↔ h_NotReadyReason (health_report window now s) ≠ "").
Proof.
  intros Hnd Hin. pose proof (contact_quorum window now s Hnd Hin) as Hq. unfold health_report.
  destruct (stopped s); [by split; split; try intros [? ?]|]. destruct (role s); simpl.
  - destruct (String.eqb_spec (leaderID s) ""); [by split; split; try intros (? & ? & ?)|].
    destruct (Z.ltb_spec (electionDeadline s) now); simpl; split; split; try done; intros (_ & _ & ?); lia.
  - by split; split; try intros [? ?].
  - rewrite <- Hq. destruct (Z.leb_spec (Z.of_nat (majority s)) (quorum_contact window now s)); simpl;
      split; split; try done; intros [_ ?]; lia.
Qed.

End Health.

Definition heard_n2 : Server unit unit :=
  set_lastContact {["n2" := 100]} (set_role Leader (NewServer "n1" ["n1"; "n2"; "n3"] None)).

Lemma Health_ready_witness :
  h_Ready (health_report 50 120 heard_n2) = true ∧ (∃ q, heard_quorum 50 120 heard_n2 q) ∧
  h_NotReadyReason (health_report 50 200 heard_n2)
    = "leader has heard from 1 of 2 needed for quorum; cannot commit".
Proof.
  assert (h_Ready (health_report 50 120 heard_n2) = true) as Hr by (vm_compute; reflexivity).
  split; [exact Hr|]. split; [|vm_compute; reflexivity].
  refine (proj2 (proj1 (proj1 (Health_ready 50 120 heard_n2 _ _)) Hr)); by apply (bool_decide_unpack _).
Defined.

(** ** The biased election timer *)

(** What the bias makes of the draws below [n]. *)
Definition bias_checked (n : nat) : bool :=
  forallb (λ k, let k := Z.of_nat k in
    (biased HealthNormal k =? k) && (0 <=? biased HealthHigh k) && (biased HealthHigh k * 100 <=? 55 * k)
    && (k <=? biased HealthLow k) && (biased HealthLow k * 100 <=? 145 * k)) (seq 0 n).

Lemma bias_checked_spec n h k :
  bias_checked n = true → 0 ≤ k < Z.of_nat n →
  match h with
  | HealthNormal => biased h k = k
  | HealthHigh => 0 ≤ biased h k ∧ biased h k * 100 ≤ 55 * k
  | HealthLow => k ≤ biased h k ∧ biased h k * 100 ≤ 145 * k
  end.
Proof.
  unfold bias_checked. rewrite forallb_forall. intros Hc Hk. specialize (Hc (Z.to_nat k)).
  rewrite Z2Nat.id in Hc by lia. rewrite in_seq, !andb_true_iff in Hc. destruct h; lia.
Qed.

Lemma bias_checked_second : bias_checked 1000 = true.
Proof. vm_compute. reflexivity. Qed.

(** Bounds of the election timer.  For a window of at most a second, with any
    draw from it, the deadline set by [resetElectionTimerLocked] is at least the
    minimum timeout away at every health level; a normal server waits exactly
    minimum plus draw, a healthy one at most 55% of the draw, an unhealthy one
    between the draw and 145% of it.  No step of the float arithmetic or of the
    conversion to nanoseconds overflows. *)
Theorem election_timer_bounds {SM St} (env : Env) (s : Server SM St) :
  0 ≤ ElectionTimeoutMin (cfg s) < 2 ^ 40 →
  0 < ElectionTimeoutMax (cfg s) - ElectionTimeoutMin (cfg s) ≤ 1000 →
  0 ≤ draw env < ElectionTimeoutMax (cfg s) - ElectionTimeoutMin (cfg s) →
  let wait := electionDeadline (resetElectionTimerLocked env s) - now env in
  let extra := wait - ElectionTimeoutMin (cfg s) * Millisecond in
  0 ≤ extra ∧
  match health s with
  | HealthNormal => extra = draw env * Millisecond
  | HealthHigh => extra * 100 ≤ 55 * (draw env * Millisecond)
  | HealthLow => draw env * Millisecond ≤ extra ∧ extra * 100 ≤ 145 * (draw env * Millisecond)
  end.
Proof.
  intros Hmin Hspan Hdraw wait extra.
  pose proof (bias_checked_spec 1000 (health s) (draw env) bias_checked_second ltac:(lia)) as Hb.
  set (b := biased (health s) (draw env)) in *.
  assert (0 ≤ b < 2000) as Hb' by (destruct (health s); lia).
  assert (wait = (ElectionTimeoutMin (cfg s) + b) * Millisecond) as Hw.
  { unfold wait, resetElectionTimerLocked. cbn [electionDeadline set_electionDeadline].
    rewrite (i64_small (ElectionTimeoutMax _ - _)) by (unfold in_i64; lia).
    destruct (Z.ltb_spec 0 (ElectionTimeoutMax (cfg s) - ElectionTimeoutMin (cfg s))); [|lia]. fold b.
    unfold Millisecond. rewrite (i64_small (_ + b)) by (unfold in_i64; lia).
    rewrite i64_small by (unfold in_i64; lia). lia. }
  unfold extra. rewrite Hw. unfold Millisecond. clear Hw wait extra. clearbody b.
  destruct (health s); lia.
Qed.

Lemma election_timer_bounds_witness :
  let s := SetNodeHealth HealthHigh (NewServer (SM := unit) (St := unit) "n1" ["n1"] None) in
  electionDeadline (resetElectionTimerLocked (mkEnv 1000 149) s) = 231001000 ∧
  (231001000 - 1000 - 150 * Millisecond) * 100 ≤ 55 * (149 * Millisecond).
Proof.
  intros s. assert (electionDeadline (resetElectionTimerLocked (mkEnv 1000 149) s) = 231001000) as Hd
    by (vm_compute; reflexivity).
  split; [exact Hd|]. rewrite <- Hd.
  apply (election_timer_bounds (mkEnv 1000 149) s); simpl; lia.
Defined.
