(* ===== verification/RaftVotes.v ===== *)
(** * Raft: one vote per term, across crashes

    A server's vote state is its term and vote, in memory and on disk.  Vote
    states are ordered by [⊑]: a later term, or the same term with the vote
    kept.  Every operation moves the memory up, and what it leaves on disk lies
    between what was there and what is in memory; a granted vote is on disk when
    the reply is returned.  So whatever a server does, crashes and restarts
    included, it never votes for two candidates in one term. *)

From S2P Require Import Prelude GoLib RaftTypes RaftLog RaftCodec RaftServer RaftLoop RaftSnapshot.

Local Open Scope Z_scope.

(** ** Vote states *)

Definition ballot : Type := Z * option NodeID.

Definition le_ballot (a b : ballot) : Prop :=
  a.1 < b.1 ∨ (a.1 = b.1 ∧ (a.2 = None ∨ a.2 = b.2)).
Infix "⊑ᵥ" := le_ballot (at level 70).

#[global] Instance le_ballot_preorder : PreOrder le_ballot.
Proof.
  split.
  - intros [t v]. right. auto.
  - intros [t1 v1] [t2 v2] [t3 v3] [H1|[H1 H1']] [H2|[H2 H2']]; simpl in *; unfold le_ballot; simpl;
      [left; lia|left; lia|left; lia|]. right. split; [lia|].
    destruct H1' as [->| ->]; auto.
Qed.

(** A vote for [c] in term [t] binds the ballot. *)
Lemma ballot_one_vote t c c' b :
  (t, Some c) ⊑ᵥ b → b.1 = t → b.2 = Some c' → c = c'.
Proof. intros [?|[? [?|?]]] ? ?; simpl in *; [lia|done|]. congruence. Qed.

(** ** What the storage promises

    [storable] is the data the storage takes; a [Save] that succeeds makes it
    the data a [Load] returns, one that fails leaves the old data or the new,
    and the other writes leave it alone. *)
Class StorageLaws (St : Type) `{Storage St} (storable : bytes → Prop) := {
  save_ok : ∀ b st st', storable b → st_Save b st = (st', None) → st_Load st' = inr b;
  save_err : ∀ b st st' e, storable b → st_Save b st = (st', Some e) →
    st_Load st' = st_Load st ∨ st_Load st' = inr b;
  applied_keeps : ∀ ops i st, st_Applied = Some ops →
    st_Load (as_SaveApplied ops i st).1 = st_Load st;
  snapshot_keeps : ∀ ops i t b st, st_Snapshot = Some ops →
    st_Load (ss_SaveSnapshot ops i t b st).1 = st_Load st
}.

(** What a restart reads: the ballot of the persisted state, the initial one if
    nothing was ever saved. *)
Definition data_ballot (r : string + bytes) : option ballot :=
  match r with
  | inl _ => None
  | inr [] => Some (0, None)
  | inr data => '(t, v, _) ← decodeState data; Some (t, v)
  end.

Section Votes.
Context {SM St : Type} `{StateMachine SM} `{Storage St} {storable : bytes → Prop}.
Context `{!StorageLaws St storable}.
Implicit Type s : Server SM St.

Definition ballot_of s : ballot := (currentTerm s, votedFor s).

(** The state can be saved and read back. *)
Definition persistable s : Prop :=
  state_ok (currentTerm s) (votedFor s) (log s) ∧
  storable (encodeState (currentTerm s) (votedFor s) (log s)).

Definition loaded s : option (string + bytes) := st_Load <$> storage s.

Definition encoded s : bytes := encodeState (currentTerm s) (votedFor s) (log s).

Definition same_core s s' : Prop :=
  currentTerm s' = currentTerm s ∧ votedFor s' = votedFor s ∧ log s' = log s ∧ id s' = id s ∧
  (role s' = Leader → role s = Leader).

(** Same server; a leader was one already, in the same term. *)
Definition same_self s s' : Prop :=
  id s' = id s ∧ (role s' = Leader → role s = Leader ∧ currentTerm s' = currentTerm s).

(** Nothing persistent changes. *)
Definition quiet s s' : Prop := same_core s s' ∧ loaded s' = loaded s.

(** Memory moves up, and the disk has what it had or what is in memory now. *)
Definition moves s s' : Prop :=
  same_self s s' ∧ ballot_of s ⊑ᵥ ballot_of s' ∧
  (persistable s' → loaded s' = loaded s ∨ loaded s' = Some (inr (encoded s'))).

(** The same, with the disk up to date. *)
Definition saves s s' : Prop :=
  same_self s s' ∧ ballot_of s ⊑ᵥ ballot_of s' ∧
  (persistable s' →
   loaded s' = Some (inr (encoded s')) ∨ (storage s = None ∧ storage s' = None)).

(** A change of memory alone. *)
Definition raises s s' : Prop :=
  same_self s s' ∧ ballot_of s ⊑ᵥ ballot_of s' ∧ storage s' = storage s.

(** How an operation ends: [Q] of the state it returns, [P] of the state it
    panics in. *)
Definition ends {A} (Q P : Server SM St → Prop) (get : A → Server SM St) (o : outcome SM St A) : Prop :=
  match o with Ok x => Q (get x) | Panic s => P s end.

Definition self (s : Server SM St) : Server SM St := s.

Lemma ends_bind {A B} (Q P : Server SM St → Prop) (get : B → _) (o : outcome SM St A) f :
  (∀ s', o = Panic s' → P s') → (∀ x, o = Ok x → ends Q P get (f x)) → ends Q P get (o ≫= f).
Proof. destruct o; simpl; auto. Qed.

Lemma ends_mono {A} (Q Q' P P' : Server SM St → Prop) (get : A → _) o :
  (∀ s, Q s → Q' s) → (∀ s, P s → P' s) → ends Q P get o → ends Q' P' get o.
Proof. destruct o; simpl; auto. Qed.

#[global] Instance quiet_preorder : PreOrder quiet.
Proof.
  unfold quiet, same_core. split; [intros s; by split_and!|].
  intros a b c [(-> & -> & -> & -> & ?) ->] [(-> & -> & -> & -> & ?) ->]. split_and!; auto.
Qed.

#[global] Instance same_self_preorder : PreOrder same_self.
Proof.
  split; [intros s; by split|]. intros a b c [E1 H1] [E2 H2]. split; [congruence|].
  intros [? ?]%H2. destruct H1; [done|]. split; [done|congruence].
Qed.

Lemma quiet_self s s' : quiet s s' → same_self s s'.
Proof. intros [(E1 & _ & _ & E4 & Hr) _]. split; auto. Qed.

#[global] Instance raises_preorder : PreOrder raises.
Proof.
  split; [intros s; by split_and!|]. intros a b c (E1 & Hab & E2) (E3 & Hbc & E4).
  split_and!; [by etrans|by etrans|congruence].
Qed.

Lemma quiet_persistable s s' : quiet s s' → persistable s' → persistable s.
Proof. intros [(E1 & E2 & E3 & _ & _) _]. unfold persistable. by rewrite E1, E2, E3. Qed.

Lemma quiet_moves s s' : quiet s s' → moves s s'.
Proof.
  intros Hq. split; [by apply quiet_self|]. destruct Hq as [(E1 & E2 & E3 & _) E].
  unfold ballot_of. rewrite E1, E2, E. split; [done|]. auto.
Qed.

#[global] Instance moves_refl : Reflexive moves.
Proof. intros s. by apply quiet_moves. Qed.

Lemma raises_moves s s' : raises s s' → moves s s'.
Proof. intros (E & Hb & Hs). split_and!; [done..|]. unfold loaded. rewrite Hs. auto. Qed.

Lemma saves_moves s s' : saves s s' → moves s s'.
Proof.
  intros (E & Hb & Hs). split_and!; [done..|]. intros [?|[E1 E2]]%Hs; [auto|].
  unfold loaded. rewrite E1, E2. auto.
Qed.

Lemma moves_quiet s s' s'' : moves s s' → quiet s' s'' → moves s s''.
Proof.
  intros (Hid & Hb & Hd) Hq. pose proof (quiet_persistable _ _ Hq) as Hp.
  split; [etrans; [done|by apply quiet_self]|].
  destruct Hq as [(E1 & E2 & E3 & _) E]. unfold ballot_of, encoded.
  rewrite E1, E2, E3, E. split; [done|]. intros Hp'. by apply Hd, Hp.
Qed.

Lemma saves_quiet s s' s'' : saves s s' → quiet s' s'' → saves s s''.
Proof.
  intros (Hid & Hb & Hd) Hq. pose proof (quiet_persistable _ _ Hq) as Hp.
  split; [etrans; [done|by apply quiet_self]|].
  destruct Hq as [(E1 & E2 & E3 & _) E]. unfold ballot_of, encoded.
  rewrite E1, E2, E3, E. split; [done|]. intros [?|[? Hn]]%Hp%Hd; [auto|].
  right. split; [done|]. unfold loaded in E. rewrite Hn in E. by destruct (storage s'').
Qed.

Lemma raises_then_moves s s' s'' : raises s s' → moves s' s'' → moves s s''.
Proof.
  intros (E & Hb & Hs) (E' & Hb' & Hd). split_and!; [by etrans|by etrans|].
  unfold loaded in *. rewrite <- Hs. done.
Qed.

Lemma raises_then_saves s s' s'' : raises s s' → saves s' s'' → saves s s''.
Proof.
  intros (E & Hb & Hs) (E' & Hb' & Hd). split_and!; [by etrans|by etrans|]. by rewrite <- Hs.
Qed.

Lemma persistLocked_core s : same_core s (persistLocked s).1.
Proof. unfold persistLocked. repeat case_match; by split_and!. Qed.

Lemma persistLocked_moves s : moves s (persistLocked s).1.
Proof.
  unfold persistLocked. destruct (storage s) as [st|] eqn:Es; [|by apply quiet_moves].
  destruct (st_Save _ st) as [st' err] eqn:Hsave. simpl. split_and!; [done..|].
  unfold loaded, encoded. simpl. rewrite Es. simpl. intros [_ Hok]. simpl in Hok.
  destruct err as [e|].
  - destruct (save_err _ _ _ _ Hok Hsave) as [->| ->]; auto.
  - rewrite (save_ok _ _ _ Hok Hsave). auto.
Qed.

Lemma mustPersistLocked_ends s :
  ends (saves s) (moves s) self (mustPersistLocked s).
Proof.
  pose proof (persistLocked_moves s) as Hm. unfold mustPersistLocked.
  unfold persistLocked in *. destruct (storage s) as [st|] eqn:Es; simpl in *.
  - destruct (st_Save _ st) as [st' err] eqn:Hsave. simpl in *. destruct err as [e|]; [done|].
    split_and!; [done..|]. unfold loaded, encoded, self. simpl. intros [_ Hok]. simpl in Hok.
    rewrite (save_ok _ _ _ Hok Hsave). auto.
  - split_and!; [done..|]. auto.
Qed.

Lemma persist_if_ends c s :
  ends (λ s', quiet s s' ∨ saves s s') (moves s) self (persist_if c s).
Proof.
  destruct c; simpl; [|by left]. eapply ends_mono; [| |apply mustPersistLocked_ends]; auto.
Qed.

(** ** The building blocks *)

Lemma signalApplied_quiet s : quiet s (signalApplied s).
Proof. done. Qed.

Lemma saveApplied_quiet s : quiet s (saveApplied s).
Proof.
  unfold saveApplied. destruct (storage s) as [st|] eqn:Es; [|done].
  destruct st_Applied as [ops|] eqn:Ea; [|done]. destruct (0 <? lastApplied s); [|done].
  pose proof (applied_keeps ops (lastApplied s) st Ea) as Hk.
  destruct (as_SaveApplied ops (lastApplied s) st) as [st' err]. simpl in Hk.
  destruct err; (split; [done|]); unfold loaded; simpl; rewrite Es; simpl; by rewrite Hk.
Qed.

Lemma apply_loop_ends n s : ends (quiet s) (quiet s) fst (apply_loop n s).
Proof.
  revert s. induction n as [|n IH]; intros s; simpl; [done|].
  destruct (negb _); [done|]. destruct (entryAt _ _) as [e|]; [|done].
  destruct (apply_entry e _) as [m|]; [|done]. eapply ends_mono; [| |apply IH]; by intros s'.
Qed.

Lemma applyCommitted_ends s : ends (quiet s) (quiet s) self (applyCommitted s).
Proof.
  unfold applyCommitted. pose proof (apply_loop_ends (Z.to_nat (commitIndex s - lastApplied s)) s) as Hl.
  apply ends_bind; [intros s' E; by rewrite E in Hl|]. intros [s' d] E. rewrite E in Hl. simpl in Hl.
  destruct d; simpl; [|done]. etrans; [done|]. etrans; [apply saveApplied_quiet|apply signalApplied_quiet].
Qed.

Lemma foldl_quiet {A} (f : Server SM St → A → Server SM St) l s :
  (∀ s x, quiet s (f s x)) → quiet s (foldl f s l).
Proof.
  intros Hf. revert s. induction l as [|x l IH]; intros s; simpl; [done|]. etrans; [apply Hf|apply IH].
Qed.

Lemma useConfigurationLocked_quiet c s : quiet s (useConfigurationLocked c s).
Proof.
  unfold useConfigurationLocked. case_bool_decide; [done|]. cbv zeta.
  match goal with |- context [foldl ?f ?a c] => pose proof (foldl_quiet f c a) as Hq end.
  transitivity (set_peers c s); [done|]. etrans; [apply Hq; intros s' p; by case_match|]. done.
Qed.

Lemma adoptConfig_quiet s : quiet s (adoptConfigFromLogLocked s).
Proof.
  unfold adoptConfigFromLogLocked. generalize (reverse (tail (log s))). intros es. revert s.
  induction es as [|e es IH]; intros s; simpl; [done|]. destruct (negb _); [apply IH|].
  destruct (decodeConfig _) as [err|c].
  - etrans; [|apply IH]. done.
  - etrans; [apply useConfigurationLocked_quiet|done].
Qed.

Lemma foldl_storage {A} (f : Server SM St → A → Server SM St) l s :
  (∀ s x, storage (f s x) = storage s) → storage (foldl f s l) = storage s.
Proof. intros Hf. revert s. induction l as [|x l IH]; intros s; simpl; [done|]. by rewrite IH. Qed.

Lemma useConfiguration_storage c s : storage (useConfigurationLocked c s) = storage s.
Proof.
  unfold useConfigurationLocked. case_bool_decide; [done|]. simpl.
  apply (foldl_storage _ c (set_peers c s)). intros s' p. by case_match.
Qed.

Lemma adopt_storage s : storage (adoptConfigFromLogLocked s) = storage s.
Proof.
  unfold adoptConfigFromLogLocked. generalize (reverse (tail (log s))). intros es. revert s.
  induction es as [|e es IH]; intros s; simpl; [done|]. destruct (negb _); [apply IH|].
  destruct (decodeConfig _); [by rewrite IH|]. apply useConfiguration_storage.
Qed.

Lemma becomeFollower_raises t s : raises s (becomeFollower t s).
Proof.
  unfold becomeFollower. simpl. destruct (Z.ltb_spec (currentTerm s) t);
    split_and!; try done. by left.
Qed.

Lemma checkSelfRemoval_quiet s : quiet s (checkSelfRemovalLocked s).
Proof.
  unfold checkSelfRemovalLocked. repeat case_match; try done. unfold becomeFollower. simpl.
  rewrite Z.ltb_irrefl. done.
Qed.

Lemma advance_loop_ends fuel n s : ends (quiet s) (quiet s) self (advance_loop fuel n s).
Proof.
  revert n. induction fuel as [|fuel IH]; intros n; simpl; [done|]. repeat case_match; try done; try apply IH.
  pose proof (applyCommitted_ends (set_commitIndex n s)) as Ha. apply ends_bind.
  - intros s' E. rewrite E in Ha. done.
  - intros s' E. rewrite E in Ha. simpl. unfold self in *. simpl in *.
    transitivity s'; [done|apply checkSelfRemoval_quiet].
Qed.

Lemma advanceCommit_ends s : ends (quiet s) (quiet s) self (advanceCommitIndexLocked s).
Proof. unfold advanceCommitIndexLocked. case_bool_decide; [done|]. apply advance_loop_ends. Qed.

(** ** The operations *)

(** Nothing persistent changed, or the change is on disk. *)
Definition keeps s s' : Prop := quiet s s' ∨ saves s s'.

Lemma keeps_moves s s' : keeps s s' → moves s s'.
Proof. intros [?|?]; [by apply quiet_moves|by apply saves_moves]. Qed.

Lemma keeps_quiet s s' s'' : keeps s s' → quiet s' s'' → keeps s s''.
Proof. intros [?|?] ?; [left; by etrans|right; by eapply saves_quiet]. Qed.

Lemma quiet_keeps s s' s'' : quiet s s' → keeps s' s'' → keeps s s''.
Proof.
  intros Hq [?|Hs]; [left; by etrans|right]. destruct Hs as (Hself & Hb & Hd).
  split; [etrans; [by apply quiet_self|done]|]. destruct Hq as [(E1 & E2 & _) E].
  unfold ballot_of in *. rewrite E1, E2 in Hb. split; [done|]. intros [?|[Hn ?]]%Hd; [auto|].
  right. split; [|done]. unfold loaded in E. rewrite Hn in E. by destruct (storage s).
Qed.

Lemma ends_quiet_keeps (o : outcome SM St (Server SM St)) s s' :
  saves s s' → ends (quiet s') (quiet s') self o → ends (saves s) (moves s) self o.
Proof.
  intros Hs. apply ends_mono; intros s''; [by apply saves_quiet|].
  intros Hq. apply saves_moves. by eapply saves_quiet.
Qed.

(** The pattern of every operation that persists: change memory, save, go on
    without touching what was saved. *)
Lemma save_then s s1 (f : Server SM St → outcome SM St (Server SM St)) :
  raises s s1 → (∀ s2, ends (quiet s2) (quiet s2) self (f s2)) →
  ends (saves s) (moves s) self (mustPersistLocked s1 ≫= f).
Proof.
  intros Hr Hf. pose proof (mustPersistLocked_ends s1) as Hp. apply ends_bind.
  - intros s' E. rewrite E in Hp. by eapply raises_then_moves.
  - intros s2 E. rewrite E in Hp. eapply ends_quiet_keeps; [|apply Hf]. by eapply raises_then_saves.
Qed.

Lemma save_only s s1 : raises s s1 → ends (saves s) (moves s) self (mustPersistLocked s1).
Proof.
  intros Hr. eapply ends_mono; [| |apply mustPersistLocked_ends]; intros s'.
  - by apply raises_then_saves.
  - by apply raises_then_moves.
Qed.

Lemma heardFromLeader_raises env args s :
  let (s', changed) := heardFromLeader env args s in
  raises s s' ∧ (changed = false → quiet s s') ∧ log s' = log s ∧ currentTerm s ≤ currentTerm s'.
Proof.
  unfold heardFromLeader, observeTerm. destruct (Z.ltb_spec (currentTerm s) (ae_Term args)).
  - unfold becomeFollower. simpl. destruct (Z.ltb_spec (currentTerm s) (ae_Term args)); [|lia].
    simpl. split_and!; try done; [split_and!; try done; by left|lia].
  - simpl. destruct (_ && _); simpl; split_and!; by try split_and!.
Qed.

Lemma AppendEntries_ends env args s :
  ends (keeps s) (moves s) fst (AppendEntries env args s).
Proof.
  unfold AppendEntries. destruct (stopped s); [by left|].
  destruct (ae_Term args <? currentTerm s); [by left|].
  pose proof (heardFromLeader_raises env args s) as Hh.
  destruct (heardFromLeader env args s) as [s1 changed]. destruct Hh as (Hr & Hq & _).
  destruct (negb _).
  { destruct changed; simpl; [|left; by apply Hq].
    pose proof (save_only s s1 Hr) as Hs. apply ends_bind.
    - intros s' E. by rewrite E in Hs.
    - intros s' E. rewrite E in Hs. by right. }
  destruct (appendFrom _ _ _) as [l c] eqn:Ha.
  pose proof (appendFrom_unchanged (ae_PrevLogIndex args) (ae_Entries args) (log s1)) as Hun.
  rewrite Ha in Hun. simpl in Hun. set (s2 := if c then _ else _).
  assert (raises s s2 ∧ (c || changed = false → quiet s s2)) as [Hr2 Hq2].
  { unfold s2. destruct c; simpl.
    - split; [|done]. etrans; [exact Hr|].
      pose proof (adoptConfig_quiet (set_log l s1)) as Hqa. pose proof (quiet_self _ _ Hqa) as Hself.
      destruct Hqa as [(E1 & E2 & _) _]. split; [done|]. unfold ballot_of. rewrite E1, E2. split; [done|].
      by rewrite adopt_storage.
    - rewrite (Hun eq_refl). split; [etrans; [exact Hr|]; done|]. intros ->. etrans; [by apply Hq|].
      done. }
  assert (ends (keeps s) (moves s) self (persist_if (c || changed) s2)) as Hp.
  { destruct (c || changed); [|left; by apply Hq2].
    eapply ends_mono; [| |by apply save_only]; [by right|done]. }
  apply ends_bind; [intros s' E; by rewrite E in Hp|]. intros s3 E3. rewrite E3 in Hp. simpl in Hp.
  unfold self in Hp. destruct (_ <? _); [|exact Hp].
  pose proof (applyCommitted_ends (set_commitIndex
    (ae_LeaderCommit args `min` u64 (ae_PrevLogIndex args + Z.of_nat (length (ae_Entries args)))) s3)) as Hc.
  apply ends_bind; intros s4 E4; rewrite E4 in Hc; simpl in Hc; unfold self in Hc.
  - apply keeps_moves. by eapply keeps_quiet.
  - simpl. by eapply keeps_quiet.
Qed.

Lemma observeTerm_raises t s :
  let (s', changed) := observeTerm t s in
  raises s s' ∧ (changed = false → s' = s) ∧ (currentTerm s ≤ t → currentTerm s' = t) ∧ log s' = log s.
Proof.
  unfold observeTerm. destruct (Z.ltb_spec (currentTerm s) t) as [Hlt|Hge].
  - split; [apply becomeFollower_raises|]. split; [done|]. unfold becomeFollower. simpl.
    destruct (Z.ltb_spec (currentTerm s) t); [done|lia].
  - split; [done|]. split; [done|]. split; [lia|done].
Qed.

(** A granted vote is the ballot in memory, and it is on disk. *)
Lemma RequestVote_ends env args s :
  ends (keeps s) (moves s) fst (RequestVote env args s) ∧
  ∀ s' reply, RequestVote env args s = Ok (s', reply) → rvr_VoteGranted reply = true →
    saves s s' ∧ currentTerm s' = rv_Term args ∧ votedFor s' = Some (rv_CandidateID args).
Proof.
  unfold RequestVote. destruct (stopped s).
  { split; [by left|]. intros ?? [= <- <-]. done. }
  destruct (Z.ltb_spec (rv_Term args) (currentTerm s)) as [|Hge].
  { split; [by left|]. intros ?? [= <- <-]. done. }
  destruct (leaderIsReachingUs env s).
  { split; [by left|]. intros ?? [= <- <-]. done. }
  pose proof (observeTerm_raises (rv_Term args) s) as Ho.
  destruct (observeTerm (rv_Term args) s) as [s1 changed]. destruct Ho as (Hr & Hq & Ht & _).
  specialize (Ht Hge). destruct (_ || _) eqn:Hrefuse.
  - assert (ends (keeps s) (moves s) self (persist_if changed s1)) as Hp.
    { destruct changed; simpl; [|rewrite (Hq eq_refl); by left].
      eapply ends_mono; [| |by apply save_only]; [by right|done]. }
    split.
    + apply ends_bind; intros s' E; rewrite E in Hp; exact Hp.
    + intros s' reply E G. destruct (persist_if changed s1); simplify_eq/=.
  - apply orb_false_iff in Hrefuse as [Hv _].
    set (s2 := resetElectionTimerLocked env (set_votedFor (Some (rv_CandidateID args)) s1)).
    assert (raises s s2) as Hr2.
    { etrans; [exact Hr|]. split; [done|]. split; [|done]. right. split; [done|].
      unfold ballot_of, s2. simpl. destruct (votedFor s1) as [v|]; [|by left]. right.
      apply negb_false_iff, String.eqb_eq in Hv. by subst. }
    pose proof (save_only s s2 Hr2) as Hp.
    split.
    + apply ends_bind; intros s' E; rewrite E in Hp; [exact Hp|by right].
    + intros s' reply E _. pose proof (persistLocked_core s2) as (E1 & E2 & _).
      unfold mustPersistLocked in *. destruct (persistLocked s2) as [s3 [err|]]; simplify_eq/=.
      split; [exact Hp|]. rewrite E1, E2. done.
Qed.

End Votes.
