(* ===== verification/RaftNode.v ===== *)
(** * Raft: the runs of one server

    [op] lists every operation that changes a server's state, [exec] runs one
    and returns the votes it casts.  A node is up with a state or down with its
    storage; it can crash at any point between operations, an operation that
    panics takes it down, and a restart goes through [Restore].  Arguments and
    replies are arbitrary: nothing is assumed of the other servers or of the
    network. *)

From S2P Require Import Prelude GoLib RaftTypes RaftLog RaftCodec RaftServer RaftLoop RaftSnapshot RaftRead RaftVotes.

Local Open Scope Z_scope.

Inductive op :=
  | OpStart (env : Env)
  | OpStop
  | OpAppendEntries (env : Env) (args : AppendEntriesArgs)
  | OpRequestVote (env : Env) (args : RequestVoteArgs)
  | OpInstallSnapshot (env : Env) (args : InstallSnapshotArgs)
  | OpStartElection (env : Env)
  | OpVoteReply (term : Z) (reply : RequestVoteReply)
  | OpBecomeLeader (term : Z)
  | OpBroadcast (env : Env)
  | OpReplicateReply (env : Env) (peer : NodeID) (term : Z) (args : AppendEntriesArgs)
      (reply : AppendEntriesReply)
  | OpSnapshotRequest (term : Z)
  | OpSnapshotReply (env : Env) (peer : NodeID) (term : Z) (args : InstallSnapshotArgs)
      (reply : InstallSnapshotReply)
  | OpReadReply (term : Z) (reply : AppendEntriesReply)
  | OpSubmit (cmd : option bytes)
  | OpAddServer (server : NodeID)
  | OpRemoveServer (server : NodeID)
  | OpCompactSave (idx term : Z) (data : bytes)
  | OpCompactFinish (idx term : Z) (data : bytes)
  | OpWaitApplied (idx : Z) (ch : nat)
  | OpSetNodeHealth (h : NodeHealth).

Section Node.
Context {SM St : Type} `{StateMachine SM} `{Storage St} {storable : bytes → Prop}.
Context `{!StorageLaws St storable}.
Implicit Type s : Server SM St.

(** A vote: the term and the candidate. *)
Definition cast (s : Server SM St) (c : NodeID) : list (Z * NodeID) := [(currentTerm s, c)].

Definition exec (o : op) s : outcome SM St (Server SM St * list (Z * NodeID)) :=
  match o with
  | OpStart env => Ok (Start env s, [])
  | OpStop => Ok (Stop s, [])
  | OpAppendEntries env args => '(s, _) ← AppendEntries env args s; Ok (s, [])
  | OpRequestVote env args =>
      '(s, reply) ← RequestVote env args s;
      Ok (s, if rvr_VoteGranted reply then cast s (rv_CandidateID args) else [])
  | OpInstallSnapshot env args => Ok ((InstallSnapshot env args s).1, [])
  | OpStartElection env => '(s, _, _) ← startElection env s; Ok (s, cast s (id s))
  | OpVoteReply term reply => '(s, _) ← vote_reply term reply s; Ok (s, [])
  | OpBecomeLeader term => s ← becomeLeader term s; Ok (s, [])
  | OpBroadcast env => Ok ((broadcastAppendEntries env s).1, [])
  | OpReplicateReply env peer term args reply =>
      s ← replicate_reply env peer term args reply s; Ok (s, [])
  | OpSnapshotRequest term => Ok ((snapshot_request term s).1, [])
  | OpSnapshotReply env peer term args reply =>
      s ← snapshot_reply env peer term args reply s; Ok (s, [])
  | OpReadReply term reply => '(s, _) ← read_reply term reply s; Ok (s, [])
  | OpSubmit cmd => '(s, _) ← Submit cmd s; Ok (s, [])
  | OpAddServer server => Ok ((AddServer server s).1, [])
  | OpRemoveServer server => Ok ((RemoveServer server s).1, [])
  | OpCompactSave idx term data => Ok ((compact_save idx term data s).1, [])
  | OpCompactFinish idx term data => Ok ((compact_finish idx term data s).1, [])
  | OpWaitApplied idx ch => Ok (WaitApplied idx ch s, [])
  | OpSetNodeHealth h => Ok (SetNodeHealth h s, [])
  end.

(** Terms do not run out. *)
Definition op_ok (o : op) s : Prop :=
  match o with OpStartElection _ => currentTerm s < 2 ^ 64 - 1 | _ => True end.

Inductive node :=
  | Up (s : Server SM St)
  | Down (me : NodeID) (disk : option St).

(** [persistable] bounds what is saved: no oversized state. *)
Inductive nstep : node → list (Z * NodeID) → node → Prop :=
  | nstep_op o s s' vs :
      op_ok o s → exec o s = Ok (s', vs) → persistable (storable := storable) s' →
      nstep (Up s) vs (Up s')
  | nstep_panic o s s' :
      op_ok o s → exec o s = Panic s' → persistable (storable := storable) s' →
      nstep (Up s) [] (Down (id s) (storage s'))
  | nstep_crash s : nstep (Up s) [] (Down (id s) (storage s))
  | nstep_restart me st ps m tr c s :
      Restore (SetStorage st (NewServerWith me ps m tr c)) = Ok (inr s) →
      nstep (Down me (Some st)) [] (Up s).

(** A run from a node, with the votes cast along it. *)
Inductive nrun (n : node) : list (Z * NodeID) → node → Prop :=
  | nrun_start : nrun n [] n
  | nrun_step n1 n2 vs vs' : nrun n vs n1 → nstep n1 vs' n2 → nrun n (vs ++ vs') n2.

(** ** What each operation does to the ballot *)

Abbreviation persistable := (persistable (storable := storable)).
Abbreviation moves := (moves (storable := storable)).
Abbreviation saves := (saves (storable := storable)).
Abbreviation keeps := (keeps (storable := storable)).

Lemma ends_map {A B} (Q P : Server SM St → Prop) (get : A → _) (get' : B → _) (o : outcome SM St A) (f : A → B) :
  (∀ x, get' (f x) = get x) → ends Q P get o → ends Q P get' (o ≫= λ x, Ok (f x)).
Proof. intros Hf. destruct o; simpl; [|done]. by rewrite Hf. Qed.

Lemma startElection_ends env s :
  currentTerm s < 2 ^ 64 - 1 → 0 ≤ currentTerm s →
  ends (λ s', saves s s' ∧ votedFor s' = Some (id s) ∧ role s' = Candidate) (moves s) (fst ∘ fst)
    (startElection env s).
Proof.
  intros Ht H0'. unfold startElection. cbv zeta.
  match goal with |- context [mustPersistLocked ?x] => set (s1 := x) end.
  assert (raises s s1) as Hr.
  { split; [done|]. split; [|done]. left. simpl. rewrite u64_small by (unfold in_u64; lia). lia. }
  pose proof (save_only (storable := storable) s s1 Hr) as Hp.
  pose proof (persistLocked_core s1) as (E1 & E2 & _).
  assert (role (persistLocked s1).1 = role s1) as E3 by (unfold persistLocked; by repeat case_match).
  unfold mustPersistLocked in *. destruct (persistLocked s1) as [s2 [err|]]; simpl in *; [done|].
  split; [exact Hp|]. by rewrite E2, E3.
Qed.

Lemma vote_reply_ends term reply s : ends (keeps s) (moves s) fst (vote_reply term reply s).
Proof.
  unfold vote_reply. destruct (_ <? _); [|by left].
  apply (ends_map _ _ self); [done|]. eapply ends_mono;
    [| |apply save_only, becomeFollower_raises]; [by right|done].
Qed.

(** Promotion keeps the ballot; what follows it is saved. *)
Lemma becomeLeader_ends term s :
  becomeLeader term s = Ok s ∨
  (role s = Candidate ∧ currentTerm s = term ∧
   ends (saves (set_role Leader s)) (moves (set_role Leader s)) self (becomeLeader term s)).
Proof.
  unfold becomeLeader. case_bool_decide as Hrole; [by left|]. simpl.
  destruct (Z.eqb_spec (currentTerm s) term) as [Ht|]; [|by left]. right.
  split; [by destruct (role s)|]. split; [done|]. cbn [negb].
  match goal with |- context [foldl ?f ?a ?l] =>
    pose proof (foldl_quiet f l a) as Hq; pose proof (foldl_storage f l a) as Hs;
    set (s1 := foldl f a l) in * end.
  assert (quiet (set_role Leader s) s1) as Hq1 by (etrans; [|apply Hq]; done).
  assert (storage s1 = storage s) as Hs1 by by rewrite Hs.
  apply save_then; [|intros; apply advanceCommit_ends].
  pose proof (quiet_self _ _ Hq1). destruct Hq1 as [(E1 & E2 & _) _].
  split; [done|]. split; [|done]. unfold ballot_of. simpl in *. by rewrite E1, E2.
Qed.

Lemma replicate_reply_ends env peer term args reply s :
  ends (keeps s) (moves s) self (replicate_reply env peer term args reply s).
Proof.
  unfold replicate_reply. destruct (_ <? _).
  { eapply ends_mono; [| |apply save_only, becomeFollower_raises]; [by right|done]. }
  destruct (_ || _); [by left|]. destruct (aer_Success reply).
  - cbv zeta. match goal with |- context [advanceCommitIndexLocked ?x] =>
      assert (quiet s x) as Hq by (by case_match); generalize dependent x end.
    intros s1 Hq. eapply ends_mono; [| |apply advanceCommit_ends]; intros s2 Hq2.
    + left. by etrans.
    + apply quiet_moves. by etrans.
  - left. unfold self. by case_match.
Qed.

Lemma snapshot_reply_ends env peer term args reply s :
  ends (keeps s) (moves s) self (snapshot_reply env peer term args reply s).
Proof.
  unfold snapshot_reply. destruct (_ <? _).
  { eapply ends_mono; [| |apply save_only, becomeFollower_raises]; [by right|done]. }
  destruct (_ || _); [by left|]. cbv zeta.
  match goal with |- context [advanceCommitIndexLocked ?x] =>
    assert (quiet s x) as Hq by (by repeat case_match); generalize dependent x end.
  intros s1 Hq. pose proof (advanceCommit_ends s1) as Ha.
  apply ends_bind; intros s2 E; rewrite E in Ha; simpl in Ha; unfold self in Ha.
  - apply quiet_moves. by etrans.
  - left. etrans; [done|]. etrans; [done|]. done.
Qed.

Lemma read_reply_ends term reply s : ends (keeps s) (moves s) fst (read_reply term reply s).
Proof.
  unfold read_reply. destruct (_ <? _); [|by left].
  apply (ends_map _ _ self); [done|]. eapply ends_mono;
    [| |apply save_only, becomeFollower_raises]; [by right|done].
Qed.

Lemma Submit_ends cmd s : ends (keeps s) (moves s) fst (Submit cmd s).
Proof.
  unfold Submit. destruct (_ || _); [by left|]. cbv zeta.
  match goal with |- context [mustPersistLocked ?x] => set (s1 := x) end.
  assert (raises s s1) as Hr by done.
  pose proof (save_then (storable := storable) s s1 advanceCommitIndexLocked Hr advanceCommit_ends) as Hp.
  destruct (mustPersistLocked s1) as [s2|s2]; simpl in *; [|done].
  destruct (advanceCommitIndexLocked s2); simpl in *; [by right|done].
Qed.

Lemma changeConfiguration_moves mutate s : moves s (changeConfiguration mutate s).1.
Proof.
  unfold changeConfiguration. case_bool_decide; [done|]. destruct (negb _); [done|].
  destruct (_ <? _); [done|]. destruct (mutate _) as [err|next]; [done|]. destruct (negb _); [done|].
  cbv zeta. match goal with |- context [useConfigurationLocked next ?x] => set (s1 := x) end.
  assert (raises s (useConfigurationLocked next s1)) as Hr.
  { transitivity s1; [done|]. pose proof (useConfigurationLocked_quiet next s1) as Hq.
    pose proof (quiet_self _ _ Hq). destruct Hq as [(E1 & E2 & _) _]. split; [done|].
    unfold ballot_of. rewrite E1, E2. split; [done|]. apply useConfiguration_storage. }
  pose proof (persistLocked_moves (storable := storable) (useConfigurationLocked next s1)) as Hp.
  destruct (persistLocked _) as [s2 [err|]]; simpl in *; by eapply raises_then_moves.
Qed.

Lemma compact_save_quiet idx term data s : quiet s (compact_save idx term data s).1.
Proof.
  unfold compact_save. destruct (storage s) as [st|] eqn:Es; [|done].
  destruct st_Snapshot as [ops|] eqn:Eo; [|done].
  pose proof (snapshot_keeps ops idx term data st Eo) as Hk.
  destruct (ss_SaveSnapshot ops idx term data st) as [st' err]. simpl in *.
  split; [done|]. unfold loaded. simpl. rewrite Es. simpl. by rewrite Hk.
Qed.

Lemma compact_finish_moves idx term data s : moves s (compact_finish idx term data s).1.
Proof.
  unfold compact_finish. destruct (_ || _); [done|]. destruct (entryAt _ _) as [e|]; [|done].
  destruct (negb _); [done|]. cbv zeta.
  match goal with |- context [persistLocked ?x] => set (s1 := x) end.
  pose proof (persistLocked_moves (storable := storable) s1) as Hp.
  destruct (persistLocked s1) as [s2 err]. simpl in *. by apply (raises_then_moves s s1).
Qed.

Lemma count_err_quiet err s : quiet s (count_snapshot_err err s).
Proof. by destruct err. Qed.

Lemma quiet_then_moves s s' s'' :
  ballot_of s = ballot_of s' → same_self s s' → loaded s' = loaded s → moves s' s'' → moves s s''.
Proof.
  intros Hb Hs Hl (Hs' & Hb' & Hd). split; [by etrans|]. rewrite Hb. split; [done|]. by rewrite <- Hl.
Qed.

Lemma InstallSnapshot_moves env args s : moves s (InstallSnapshot env args s).1.
Proof.
  unfold InstallSnapshot. destruct (is_Term args <? currentTerm s); [done|]. cbv zeta.
  set (s1 := resetElectionTimerLocked env _).
  assert (raises s s1) as Hr.
  { unfold s1. destruct (Z.ltb_spec (currentTerm s) (is_Term args)); split_and!; try done. by left. }
  clearbody s1. destruct (_ || _); [by apply raises_moves|].
  destruct (sm s1) as [m|]; [|by apply raises_moves].
  destruct sm_Snapshotter as [snapper|]; [|by apply raises_moves].
  destruct (sn_RestoreSnapshot snapper (is_Data args) m) as [m' [err|]]; [by apply raises_moves|].
  match goal with |- context [compact_save _ _ _ ?x] => set (s2 := x) end.
  assert (raises s s2) as Hr2 by (etrans; [exact Hr|]; unfold s2; simpl; by case_match).
  clearbody s2. pose proof (compact_save_quiet (is_LastIncludedIndex args) (is_LastIncludedTerm args)
    (is_Data args) s2) as Hq.
  destruct (compact_save _ _ _ s2) as [s3 err]. simpl in Hq.
  assert (quiet s2 (count_snapshot_err err s3)) as Hq3 by (etrans; [done|apply count_err_quiet]).
  pose proof (persistLocked_moves (storable := storable) (count_snapshot_err err s3)) as Hp.
  destruct (persistLocked _) as [s4 err4]. simpl in *.
  eapply moves_quiet; [|apply count_err_quiet]. eapply raises_then_moves; [exact Hr2|].
  pose proof (quiet_self _ _ Hq3). destruct Hq3 as [(E1 & E2 & _) El].
  eapply quiet_then_moves; [|done|exact El|exact Hp]. unfold ballot_of. by rewrite E1, E2.
Qed.

(** ** Any operation *)

(** [moves] without the condition on the role. *)
Definition up s s' : Prop :=
  id s' = id s ∧ ballot_of s ⊑ᵥ ballot_of s' ∧
  (persistable s' → loaded s' = loaded s ∨ loaded s' = Some (inr (encoded s'))).

Lemma moves_up s s' : moves s s' → up s s'.
Proof. by intros ([? _] & ? & ?). Qed.

(** The votes an operation returns are at most one, the ballot in memory, on disk. *)
Definition votes_saved s s' (vs : list (Z * NodeID)) : Prop :=
  vs = [] ∨ ∃ t c, vs = [(t, c)] ∧ ballot_of s' = (t, Some c) ∧
    (persistable s' → is_Some (storage s) → loaded s' = Some (inr (encoded s'))).

Lemma saves_on_disk s s' :
  saves s s' → persistable s' → is_Some (storage s) → loaded s' = Some (inr (encoded s')).
Proof. intros (_ & _ & Hd) Hp [st Hs]. destruct (Hd Hp) as [?|[? _]]; [done|congruence]. Qed.

(** Only a promotion makes a leader. *)
Definition moved (o : op) s s' : Prop :=
  match o with OpBecomeLeader _ => up s s' | _ => moves s s' end.

Lemma moved_up o s s' : moved o s s' → up s s'.
Proof. destruct o; simpl; try done; apply moves_up. Qed.

Definition exec_post o s : Prop :=
  match exec o s with
  | Ok (s', vs) => moved o s s' ∧ votes_saved s s' vs
  | Panic s' => moved o s s'
  end.

Lemma post_silent {A} (o : outcome SM St A) (get : A → Server SM St) s :
  ends (moves s) (moves s) get o →
  match o ≫= λ x, Ok (get x, []) with
  | Ok (s', vs) => moves s s' ∧ votes_saved s s' vs
  | Panic s' => moves s s'
  end.
Proof. destruct o; simpl; intros; [split; [done|by left]|done]. Qed.

Lemma silent_bind {A} (o : outcome SM St (Server SM St * A)) :
  ('(s, _) ← o; Ok (s, @nil (Z * NodeID))) = (x ← o; Ok (x.1, [])).
Proof. by destruct o as [[? ?]|]. Qed.

Lemma keeps_ends {A} (get : A → _) (o : outcome SM St A) s :
  ends (keeps s) (moves s) get o → ends (moves s) (moves s) get o.
Proof. apply ends_mono; [|done]. intros s'. apply keeps_moves. Qed.

Lemma moves_post s s' : moves s s' → moves s s' ∧ votes_saved s s' [].
Proof. intros. split; [done|by left]. Qed.

Lemma quiet_post s s' : quiet s s' → moves s s' ∧ votes_saved s s' [].
Proof. intros. by apply moves_post, quiet_moves. Qed.

Lemma election_post env s :
  currentTerm s < 2 ^ 64 - 1 → 0 ≤ currentTerm s → exec_post (OpStartElection env) s.
Proof.
  intros Ht H0'. pose proof (startElection_ends env s Ht H0') as He. unfold exec_post. simpl.
  destruct (startElection env s) as [[[s' el] won]|s']; simpl in *; [|done].
  destruct He as (Hs & Hv & _). split; [by apply saves_moves|]. right.
  exists (currentTerm s'), (id s'). split; [done|]. split; [|by apply saves_on_disk].
  unfold ballot_of. by rewrite Hv, (proj1 (proj1 Hs)).
Qed.

Lemma vote_post env args s : exec_post (OpRequestVote env args) s.
Proof.
  pose proof (RequestVote_ends (storable := storable) env args s) as [He Hg]. unfold exec_post. simpl.
  destruct (RequestVote env args s) as [[s' reply]|s']; simpl in *; [|done].
  split; [by apply keeps_moves|]. destruct (rvr_VoteGranted reply) eqn:G; [|by left].
  destruct (Hg s' reply eq_refl G) as (Hs & E1 & E2). right.
  exists (currentTerm s'), (rv_CandidateID args). split; [done|].
  split; [unfold ballot_of; by rewrite E2|by apply saves_on_disk].
Qed.

Lemma leader_post term s : exec_post (OpBecomeLeader term) s.
Proof.
  unfold exec_post. simpl. destruct (becomeLeader_ends term s) as [->|(_ & _ & He)].
  { split; [by apply moves_up|by left]. }
  destruct (becomeLeader term s) as [s'|s']; simpl in *; unfold self in *.
  - split; [|by left]. apply saves_moves, moves_up in He. exact He.
  - apply moves_up in He. exact He.
Qed.

Lemma exec_spec o s : op_ok o s → 0 ≤ currentTerm s → exec_post o s.
Proof.
  intros Hok H0'. destruct o; try (by apply vote_post); try (by apply leader_post);
    try (by apply election_post); unfold exec_post; simpl; rewrite ?silent_bind;
    try (apply (post_silent _ self)); try (apply (post_silent _ fst)); try (apply keeps_ends).
  - apply quiet_post. unfold Start. by case_match.
  - apply quiet_post. unfold Stop. by case_match.
  - apply AppendEntries_ends.
  - apply moves_post, InstallSnapshot_moves.
  - apply vote_reply_ends.
  - apply quiet_post. unfold broadcastAppendEntries. by case_match.
  - apply replicate_reply_ends.
  - apply quiet_post. unfold snapshot_request. by repeat case_match.
  - apply snapshot_reply_ends.
  - apply read_reply_ends.
  - apply Submit_ends.
  - apply moves_post, changeConfiguration_moves.
  - apply moves_post, changeConfiguration_moves.
  - apply quiet_post, compact_save_quiet.
  - apply moves_post, compact_finish_moves.
  - apply quiet_post. unfold WaitApplied. by case_match.
  - by apply quiet_post.
Qed.

(** ** Restart *)

Lemma replay_loop_quiet n i s s' : replay_loop n i s = Ok (inr s') → quiet s s' ∧ storage s' = storage s.
Proof.
  revert i s. induction n as [|n IH]; intros i s; simpl; [by intros [= <-]|].
  destruct (entryAt _ _) as [e|]; [|done]. destruct (apply_entry e _) as [m|]; [|done].
  intros [Hq Hs]%IH. done.
Qed.

Lemma replay_applied_quiet s s' : replay_applied s = Ok (inr s') → quiet s s' ∧ storage s' = storage s.
Proof.
  unfold replay_applied. intros Hr.
  destruct (storage s) as [st|] eqn:Es; [|by simplify_eq]. destruct st_Applied as [ops|]; [|by simplify_eq].
  destruct (sm s); [|by simplify_eq]. destruct (as_LoadApplied ops st) as [err|raw]; [done|].
  cbv zeta in Hr. destruct (replay_loop _ _ s) as [[err|s1]|] eqn:E; simplify_eq/=.
  apply replay_loop_quiet in E as [Hq Hs]. rewrite <- Es, <- Hs.
  split; [etrans; [exact Hq|]|]; by repeat case_match.
Qed.

Lemma restore_snapshot_ballot s s' :
  restore_snapshot s = Ok (inr s') → ballot_of s' = ballot_of s ∧ id s' = id s ∧
    storage s' = storage s ∧ role s' = role s.
Proof. unfold restore_snapshot. intros Hr. repeat case_match; by simplify_eq. Qed.

Lemma data_ballot_nonneg r b : data_ballot r = Some b → 0 ≤ b.1.
Proof.
  unfold data_ballot, decodeState, readU64. destruct r as [|[|x data]]; [done|by intros [= <-]|].
  destruct (Read 8 (x :: data)) as [[buf rest]|] eqn:E; simpl; [|done].
  intros ([[t v] l] & Hd & Hb)%bind_Some. simplify_eq.
  repeat match type of Hd with
  | (_ ≫= _) = Some _ => apply bind_Some in Hd as ([? ?] & _ & Hd)
  end.
  simplify_eq. pose proof (le_get_range buf). simpl. lia.
Qed.

(** A restart comes back with the ballot that is on disk. *)
Lemma Restore_ballot me st ps m tr c s :
  Restore (SetStorage st (NewServerWith me ps m tr c)) = Ok (inr s) →
  id s = me ∧ storage s = Some st ∧ data_ballot (st_Load st) = Some (ballot_of s) ∧ role s ≠ Leader.
Proof.
  unfold Restore. simpl. destruct (st_Load st) as [err|[|x data]] eqn:El; [done|by intros [= <-]|].
  destruct (decodeState (x :: data)) as [[[t v] l]|] eqn:Ed; [|done].
  destruct (length l =? 0)%nat; [done|]. cbv zeta.
  match goal with |- context [adoptConfigFromLogLocked ?x] =>
    pose proof (adoptConfig_quiet x) as Hq; pose proof (adopt_storage x) as Hst;
    set (s1 := adoptConfigFromLogLocked x) in * end.
  clearbody s1. destruct Hq as [(E1 & E2 & _ & E4 & Hrole) _]. simpl in *.
  destruct (restore_snapshot _) as [[err|s2]|] eqn:Er; try done.
  apply restore_snapshot_ballot in Er as (Eb & Ei & Es & Ero). unfold ballot_of in Eb. simpl in *.
  injection Eb as Eb1 Eb2. intros [[(F1 & F2 & _ & F4 & Frole) _] Fs]%replay_applied_quiet.
  split; [congruence|]. split; [congruence|].
  unfold data_ballot. rewrite Ed. simpl. unfold ballot_of.
  split; [by rewrite F1, F2, Eb1, Eb2, E1, E2|]. rewrite Ero in Frole. intros HL. by apply Frole, Hrole in HL.
Qed.

(** ** Identity and leadership along a step *)

Definition node_id (n : node) : NodeID := match n with Up s => id s | Down me _ => me end.

Lemma exec_self o s s' vs :
  op_ok o s → 0 ≤ currentTerm s → exec o s = Ok (s', vs) → (∀ t, o ≠ OpBecomeLeader t) → same_self s s'.
Proof.
  intros Hok H0' He Hne. pose proof (exec_spec o s Hok H0') as Hpost. unfold exec_post in Hpost.
  rewrite He in Hpost. destruct Hpost as [Hm _]. destruct o; simpl in Hm; try (by apply Hm). by edestruct Hne.
Qed.

(** ** One vote per term *)

Definition covers (vs : list (Z * NodeID)) (b : ballot) : Prop :=
  ∀ t c, (t, c) ∈ vs → (t, Some c) ⊑ᵥ b.

Definition disk_ballot (disk : option St) (b : ballot) : Prop :=
  ∃ st, disk = Some st ∧ data_ballot (st_Load st) = Some b.

Definition one_per_term (vs : list (Z * NodeID)) : Prop :=
  ∀ t a b, (t, a) ∈ vs → (t, b) ∈ vs → a = b.

(** The votes cast are bound by the ballot on disk, which the ballot in memory
    has not fallen behind. *)
Definition ninv (n : node) (vs : list (Z * NodeID)) : Prop :=
  one_per_term vs ∧ ∃ b, covers vs b ∧
    match n with
    | Up s => disk_ballot (storage s) b ∧ b ⊑ᵥ ballot_of s
    | Down _ disk => disk_ballot disk b
    end.

Lemma disk_nonneg disk b : disk_ballot disk b → 0 ≤ b.1.
Proof. intros (st & _ & Hb). by eapply data_ballot_nonneg. Qed.

Lemma disk_loaded s r : loaded s = Some r ↔ ∃ st, storage s = Some st ∧ st_Load st = r.
Proof.
  unfold loaded. destruct (storage s); simpl; [|by split; [|intros (? & ? & _)]].
  split; [intros [= <-]; eauto|]. by intros (? & [= ->] & ->).
Qed.

Lemma data_ballot_encoded s : persistable s → data_ballot (inr (encoded s)) = Some (ballot_of s).
Proof.
  intros [Hok _]. unfold data_ballot, encoded. destruct (encodeState _ _ _) as [|x data] eqn:E.
  { by apply encodeState_nonempty in E. }
  rewrite <- E, decodeState_encode by done. done.
Qed.

Lemma encoded_disk s :
  persistable s → loaded s = Some (inr (encoded s)) → disk_ballot (storage s) (ballot_of s).
Proof.
  intros Hp (st & Hs & Hl)%disk_loaded. exists st. split; [done|].
  rewrite Hl. by apply data_ballot_encoded.
Qed.

(** After any operation the disk holds a ballot between the old one and memory. *)
Lemma up_disk s s' b :
  up s s' → persistable s' → disk_ballot (storage s) b → b ⊑ᵥ ballot_of s →
  ∃ b', b ⊑ᵥ b' ∧ disk_ballot (storage s') b' ∧ b' ⊑ᵥ ballot_of s'.
Proof.
  intros (_ & Hup & Hd) Hp Hdisk Hb. destruct (Hd Hp) as [Hl|Hl].
  - exists b. split; [done|]. split; [|by etrans]. destruct Hdisk as (st & Hs & Hdb).
    unfold loaded in Hl. rewrite Hs in Hl. simpl in Hl. apply disk_loaded in Hl as (st' & Hs' & Hl').
    exists st'. split; [done|]. by rewrite Hl'.
  - exists (ballot_of s'). split; [by etrans|]. split; [by apply encoded_disk|done].
Qed.

Lemma ninv_ext n vs vs' : (∀ x, x ∈ vs' → x ∈ vs) → ninv n vs → ninv n vs'.
Proof.
  intros Hsub (Hone & b & Hc & Hn). split; [intros t x y ??; apply (Hone t); auto|].
  exists b. split; [|done]. intros t c ?. auto.
Qed.

Lemma ninv_term s vs : ninv (Up s) vs → 0 ≤ currentTerm s.
Proof.
  intros (_ & b & _ & Hdisk & Hb). pose proof (disk_nonneg _ _ Hdisk).
  destruct Hb as [?|[? _]]; simpl in *; lia.
Qed.

Lemma covers_mono vs b b' : covers vs b → b ⊑ᵥ b' → covers vs b'.
Proof. intros Hc Hb t c Hin. etrans; [by apply Hc|done]. Qed.

(** A vote that the ballot covers agrees with the earlier ones. *)
Lemma one_per_term_snoc vs t c :
  one_per_term vs → covers vs (t, Some c) → one_per_term (vs ++ [(t, c)]).
Proof.
  intros Hone Hc t' a b Ha Hb. apply elem_of_app in Ha, Hb.
  assert (∀ x, (t, x) ∈ vs → x = c) as Hnew.
  { intros x Hx. by apply (ballot_one_vote t x c (t, Some c)); [apply Hc|..]. }
  rewrite !list_elem_of_singleton in *.
  destruct Ha as [Ha|[= -> ->]], Hb as [Hb|Hb]; [by eapply Hone|..].
  - injection Hb as -> ->. by apply Hnew.
  - symmetry. by apply Hnew.
  - by injection Hb.
Qed.

Lemma ninv_step n vs n' vs' : ninv n vs → nstep n vs' n' → ninv n' (vs ++ vs').
Proof.
  intros (Hone & b & Hc & Hn) Hstep. destruct Hstep as [o s s' vs' Hok He Hp|o s s' Hok He Hp|s|me st ps m tr c s Hr].
  - pose proof (ninv_term s vs (conj Hone (ex_intro _ b (conj Hc Hn)))) as H0'.
    destruct Hn as [Hdisk Hb].
    pose proof (exec_spec o s Hok H0') as Hpost. unfold exec_post in Hpost. rewrite He in Hpost.
    destruct Hpost as [Hup%moved_up Hv]. destruct (up_disk s s' b Hup Hp Hdisk Hb) as (b' & Hbb & Hdisk' & Hb').
    destruct Hv as [->|(t & c & -> & Hballot & Hon)].
    + rewrite app_nil_r. split; [done|]. exists b'. split; [by eapply covers_mono|done].
    + assert (covers vs (ballot_of s')) as Hcov.
      { eapply covers_mono; [exact Hc|]. by etrans. }
      split; [apply one_per_term_snoc; [done|by rewrite <- Hballot]|].
      assert (disk_ballot (storage s') (ballot_of s')) as Hd'.
      { apply encoded_disk; [done|]. apply Hon; [done|]. destruct Hdisk as (st & -> & _). by eexists. }
      exists (ballot_of s'). split; [|done]. intros t' c' [Hin|Hin]%elem_of_app.
      * by apply Hcov.
      * apply list_elem_of_singleton in Hin as [= -> ->]. by rewrite Hballot.
  - pose proof (ninv_term s vs (conj Hone (ex_intro _ b (conj Hc Hn)))) as H0'.
    destruct Hn as [Hdisk Hb].
    pose proof (exec_spec o s Hok H0') as Hpost. unfold exec_post in Hpost. rewrite He in Hpost.
    apply moved_up in Hpost. destruct (up_disk s s' b Hpost Hp Hdisk Hb) as (b' & Hbb & Hdisk' & _).
    rewrite app_nil_r. split; [done|]. exists b'. split; [by eapply covers_mono|done].
  - rewrite app_nil_r. split; [done|]. exists b. split; [done|]. apply Hn.
  - rewrite app_nil_r. split; [done|]. apply Restore_ballot in Hr as (_ & Hs & Hdb & _). destruct Hn as (st' & [= <-] & Hb).
    exists b. split; [done|]. rewrite Hb in Hdb. simplify_eq. rewrite Hs. split; [|done]. exists st. done.
Qed.

Lemma nrun_ninv n vs n' : ninv n [] → nrun n vs n' → ninv n' vs.
Proof. intros Hn. induction 1 as [|n1 n2 vs vs' _ IH Hs]; [done|]. by eapply ninv_step. Qed.

Lemma fresh_ninv me ps m tr c st :
  st_Load st = inr [] → ninv (Up (SetStorage st (NewServerWith me ps m tr c))) [].
Proof.
  intros Hl. split; [intros ??? []%elem_of_nil|]. exists (0, None). split; [intros ?? []%elem_of_nil|]. split; [|done].
  exists st. split; [done|]. by rewrite Hl.
Qed.

(** C9: A server votes for at most one candidate in a term.  Take any run of a
    server that starts with empty storage: any sequence of operations with any
    arguments, any number of crashes, panics and restarts from what is on disk,
    failed writes included.  If along the run it casts votes (granted in a
    reply, or its own when it campaigns) for [c] and for [c'] in the same term,
    then [c = c'].  This is what Election Safety rests on; it needs the vote to
    be durable before the reply. *)
Theorem one_vote_per_term me ps m tr c st vs n :
  st_Load st = inr [] → nrun (Up (SetStorage st (NewServerWith me ps m tr c))) vs n →
  ∀ t a b, (t, a) ∈ vs → (t, b) ∈ vs → a = b.
Proof.
  intros Hl Hrun. apply (fresh_ninv me ps m tr c) in Hl. apply (nrun_ninv _ _ _ Hl Hrun).
Qed.

End Node.
