(* ===== verification/RaftReplication.v ===== *)
(** * Raft: what AppendEntries does to the log

    The receiver's rules 2 to 4 on every branch, and the induction step of Log
    Matching from the leader's [replicateTo] to the follower's
    [AppendEntries]. *)

From S2P Require Import Prelude GoLib RaftTypes RaftLog RaftCodec RaftServer RaftLoop RaftSnapshot RaftVotes RaftNode.

Local Open Scope Z_scope.

(** ** The log across the other parts of a handler *)

Section Receiver.
Context {SM St : Type} `{StateMachine SM} `{Storage St}.
Implicit Type s : Server SM St.

Lemma apply_loop_log n s s' d : apply_loop n s = Ok (s', d) → log s' = log s.
Proof.
  revert s. induction n as [|n IH]; intros s; simpl; [by intros [= <- _]|].
  destruct (negb _); [by intros [= <- _]|]. destruct (entryAt _ _) as [e|]; [|by intros [= <- _]].
  destruct (apply_entry e _) as [m|]; [|done]. by intros ->%IH.
Qed.

Lemma applyCommitted_log s s' : applyCommitted s = Ok s' → log s' = log s.
Proof.
  unfold applyCommitted. destruct (apply_loop _ s) as [[s1 d]|] eqn:E; simpl; [|done].
  apply apply_loop_log in E. destruct d; intros [= <-]; [|done].
  unfold saveApplied. by repeat case_match.
Qed.

Lemma mustPersist_log s s' : mustPersistLocked s = Ok s' → log s' = log s.
Proof. unfold mustPersistLocked, persistLocked. intros Hp. repeat case_match; by simplify_eq. Qed.

Lemma persist_if_log c s s' : persist_if c s = Ok s' → log s' = log s.
Proof. destruct c; simpl; [apply mustPersist_log|by intros [= <-]]. Qed.

(** A handler run ends in a refusal with the log as it was, or in a success with
    the log of [appendFrom]. *)
Lemma AppendEntries_cases env args s s' reply :
  AppendEntries env args s = Ok (s', reply) →
  (aer_Success reply = false ∧ log s' = log s) ∨
  (aer_Success reply = true ∧
   matchesPrevLog (log s) (ae_PrevLogIndex args) (ae_PrevLogTerm args) = true ∧
   log s' = (appendFrom (ae_PrevLogIndex args) (ae_Entries args) (log s)).1).
Proof.
  unfold AppendEntries. destruct (stopped s); [intros [= <- <-]; by left|].
  destruct (ae_Term args <? currentTerm s); [intros [= <- <-]; by left|].
  assert (log (heardFromLeader env args s).1 = log s) as Hlog.
  { unfold heardFromLeader, observeTerm, becomeFollower. destruct (_ <? _) eqn:E; simpl; rewrite ?E; simpl;
    by try destruct (_ && _). }
  destruct (heardFromLeader env args s) as [s1 changed]. simpl in Hlog. rewrite Hlog.
  destruct (matchesPrevLog _ _ _) eqn:Hm; simpl.
  - destruct (appendFrom _ _ _) as [l c]. simpl.
    set (s2 := if c then _ else _). assert (log s2 = l) as Hl2.
    { unfold s2. destruct c; [|done]. by destruct (adoptConfig_quiet (set_log l s1)) as [(_ & _ & -> & _) _]. }
    destruct (persist_if _ s2) as [s3|] eqn:Hp; simpl; [|done]. apply persist_if_log in Hp.
    destruct (_ <? _); simpl.
    + destruct (applyCommitted _) as [s4|] eqn:Ha; simpl; [|done]. intros [= <- <-]. right.
      apply applyCommitted_log in Ha. simpl in *. split_and!; [done..|]. congruence.
    + intros [= <- <-]. right. split_and!; [done..|]. congruence.
  - destruct (persist_if _ s1) as [s3|] eqn:Hp; simpl; [|done]. apply persist_if_log in Hp.
    intros [= <- <-]. left. split; [done|]. congruence.
Qed.

(** Appending the same entries a second time changes nothing. *)
Lemma appendFrom_again prev es l :
  log_wf l → room (length es) l → 0 ≤ prev ≤ lastIndex l →
  appendFrom prev es (appendFrom prev es l).1 = ((appendFrom prev es l).1, false).
Proof.
  intros Hl Hr Hrange. unfold appendFrom at 1. apply append_loop_noop; [lia|lia| |].
  - unfold room in Hr. rewrite lastIndex_wf in Hrange by done. lia.
  - intros k e Hk Hb. rewrite appendFrom_base in Hb by done. rewrite Z.add_0_r in *.
    by apply appendFrom_present.
Qed.

(** The AppendEntries receiver.  A refused request leaves the log as it was.
    After a successful one the log is still contiguous, everything up to
    [prevLogIndex] is untouched, every entry of the request above the snapshot
    boundary is at its index with its term, an entry that was there before is
    gone only if the request conflicts with the log at that index or an earlier
    one, and delivering the same request a second time changes nothing. *)
Theorem AppendEntries_receiver env args s s' reply :
  log_wf (log s) → room (length (ae_Entries args)) (log s) → 0 ≤ ae_PrevLogIndex args →
  AppendEntries env args s = Ok (s', reply) →
  let prev := ae_PrevLogIndex args in
  let es := ae_Entries args in
  log_wf (log s') ∧
  (aer_Success reply = false → log s' = log s) ∧
  (aer_Success reply = true →
     (∀ i, i ≤ prev → entryAt (log s') i = entryAt (log s) i) ∧
     (∀ k e, es !! k = Some e → baseIndex (log s) < prev + 1 + Z.of_nat k →
        termAt (log s') (prev + 1 + Z.of_nat k) = Some (e_Term e)) ∧
     (∀ i x, entryAt (log s) i = Some x → entryAt (log s') i ≠ Some x →
        ∃ k e y, es !! k = Some e ∧ prev + 1 + Z.of_nat k ≤ i ∧
          entryAt (log s) (prev + 1 + Z.of_nat k) = Some y ∧ e_Term y ≠ e_Term e) ∧
     appendFrom prev es (log s') = (log s', false)).
Proof.
  intros Hl Hr Hprev HA prev es.
  destruct (AppendEntries_cases _ _ _ _ _ HA) as [[-> Hlog]|(-> & Hm & Hlog)].
  { rewrite Hlog. by split_and!. }
  assert (0 ≤ prev ≤ lastIndex (log s)) as Hrange by (split; [done|by eapply matchesPrevLog_range]).
  fold prev es in Hlog, Hr. rewrite Hlog. split; [by apply appendFrom_wf|]. split; [done|]. intros _.
  split_and!.
  - intros i Hi. apply appendFrom_before; [done..|lia].
  - intros k e Hk Hb. unfold termAt. destruct (appendFrom_present prev es (log s) Hl Hr Hrange k e Hk Hb)
      as (x & -> & <-). done.
  - intros i x. by apply appendFrom_dropped.
  - by apply appendFrom_again.
Qed.

End Receiver.

(** ** Log Matching *)

Lemma merge_longer old new :
  (length new < length (merge old new))%nat → merge old new = old.
Proof.
  revert new. induction old as [|x old IH]; intros [|e new]; simpl; try done; try lia.
  destruct (e_Term x =? e_Term e); simpl; [|lia]. intros Hlt. by rewrite IH by lia.
Qed.

(** What Log Matching says of two logs: where they have the same term at an
    index they agree up to it, on the terms everywhere and on the entries
    themselves above both boundaries. *)
Definition matching_logs (l L : list LogEntry) : Prop :=
  ∀ i t, termAt l i = Some t → termAt L i = Some t →
  ∀ j x X, j ≤ i → entryAt l j = Some x → entryAt L j = Some X →
    e_Term x = e_Term X ∧ (baseIndex l < j → baseIndex L < j → x = X).

Lemma appendFrom_entry prev es l i x :
  log_wf l → room (length es) l → 0 ≤ prev ≤ lastIndex l →
  entryAt (appendFrom prev es l).1 i = Some x →
  entryAt l i = Some x ∨
  ∃ k e, es !! k = Some e ∧ i = prev + 1 + Z.of_nat k ∧ x = mkEntry (e_Term e) i (e_Command e).
Proof.
  intros Hl Hr Hp Hx. pose proof (appendFrom_wf prev es l Hl Hr Hp) as Hl'.
  pose proof (appendFrom_base prev es l Hl Hr Hp) as Hb.
  pose proof (entryAt_Some _ _ _ Hl' Hx) as [Hi _]. rewrite Hb in Hi.
  destruct (decide (i < Z.max prev (baseIndex l) + 1)) as [Hlt|Hge].
  { left. by rewrite <- (appendFrom_before prev es l Hl Hr Hp). }
  pose proof (lastIndex_wf l Hl). pose proof (base_le_last l Hl).
  rewrite entryAt_lookup, Hb in Hx by (done || lia).
  rewrite appendFrom_merge, lookup_app_r in Hx by (try done; rewrite length_take; lia).
  apply merge_lookup in Hx as [Hx|Hx].
  - left. rewrite lookup_drop, length_take in Hx. rewrite entryAt_lookup by (done || lia).
    rewrite <- Hx. f_equal. lia.
  - right. apply stamp_lookup in Hx as (e & He & ->). rewrite lookup_drop in He. eexists _, e.
    split; [exact He|]. rewrite length_take. split; [lia|]. f_equal. lia.
Qed.

(** Beyond the entries of the request, the log only has what it had, all of it. *)
Lemma appendFrom_beyond prev es l i x :
  log_wf l → room (length es) l → 0 ≤ prev ≤ lastIndex l →
  prev + Z.of_nat (length es) < i → entryAt (appendFrom prev es l).1 i = Some x →
  (appendFrom prev es l).1 = l.
Proof.
  intros Hl Hr Hp Hbeyond Hx. pose proof (appendFrom_wf prev es l Hl Hr Hp) as Hl'.
  pose proof (appendFrom_base prev es l Hl Hr Hp) as Hb.
  pose proof (entryAt_Some _ _ _ Hl' Hx) as [Hi _].
  pose proof (lastIndex_wf l Hl). pose proof (base_le_last l Hl).
  rewrite lastIndex_wf, Hb in Hi by done. rewrite appendFrom_merge in * by done.
  set (p := Z.to_nat _) in *. set (new := stamp _ _) in *.
  assert (length (take p l) = p) as Htake by (rewrite length_take; lia).
  assert (length new = length es - Z.to_nat (baseIndex l - prev))%nat as Hnew
    by (unfold new; by rewrite length_stamp, length_drop).
  destruct (decide (length new < length (merge (drop p l) new))%nat) as [Hlt|Hge].
  { by rewrite (merge_longer _ _ Hlt), take_drop. }
  rewrite length_app, Htake in Hi.
  assert (new = [] ∨ (0 < length new)%nat) as [->|Hpos] by (destruct new; simpl; [by left|right; lia]).
  { by rewrite merge_nil_r, take_drop. }
  lia.
Qed.

Section Matching.
Context (l L es : list LogEntry) (prev pt : Z).
Context (Hl : log_wf l) (HL : log_wf L) (Hr : room (length es) l).
(** The request: entries of [L] from [prev + 1] on. *)
Context (Hprev : 0 ≤ prev) (HbL : baseIndex L ≤ prev) (HpL : termAt L prev = Some pt)
        (Hes : ∀ k e, es !! k = Some e → entryAt L (prev + 1 + Z.of_nat k) = Some e).
(** The follower accepts it, and a boundary of its own within the request is
    an entry of the leader. *)
Context (Hm : matchesPrevLog l prev pt = true)
        (Hbound : prev < baseIndex l ≤ prev + Z.of_nat (length es) →
           termAt L (baseIndex l) = Some (baseTerm l)).
Context (HLM : matching_logs l L).

Let l' := (appendFrom prev es l).1.
Let anchor := Z.max prev (baseIndex l).

Local Lemma range : 0 ≤ prev ≤ lastIndex l.
Proof. split; [done|by eapply matchesPrevLog_range]. Qed.

Local Lemma anchored :
  baseIndex l ≤ prev + Z.of_nat (length es) → ∃ t, termAt l anchor = Some t ∧ termAt L anchor = Some t.
Proof.
  intros Hb. unfold anchor. destruct (decide (baseIndex l ≤ prev)) as [Hge|Hlt].
  - rewrite Z.max_l by lia. exists pt. split; [|done]. unfold matchesPrevLog, compactedAway in Hm.
    destruct (Z.ltb_spec prev (baseIndex l)); [lia|]. destruct (termAt l prev); [|done].
    apply Z.eqb_eq in Hm. by subst.
  - rewrite Z.max_r by lia. exists (baseTerm l). split; [|apply Hbound; lia].
    unfold termAt. rewrite entryAt_lookup, Z.sub_diag by (done || lia).
    pose proof (wf_nonempty l Hl). unfold baseTerm. by destruct l.
Qed.

(** Up to the end of the request the two logs agree. *)
Lemma matching_agree j x X :
  j ≤ prev + Z.of_nat (length es) → entryAt l' j = Some x → entryAt L j = Some X →
  e_Term x = e_Term X ∧ (baseIndex l < j → baseIndex L < j → x = X).
Proof.
  intros Hj Hx HX. pose proof range as Hrange.
  pose proof (appendFrom_wf prev es l Hl Hr Hrange) as Hl'.
  assert (baseIndex l ≤ j) as Hbj.
  { pose proof (entryAt_Some _ _ _ Hl' Hx) as [Hge _].
    rewrite (appendFrom_base prev es l Hl Hr Hrange) in Hge. lia. }
  destruct (anchored ltac:(lia)) as (t & Ht & HtL).
  destruct (decide (j ≤ anchor)) as [Ha|Ha].
  { unfold l' in Hx. rewrite appendFrom_before in Hx by (try done; unfold anchor in *; lia).
    by apply (HLM anchor t Ht HtL j). }
  assert (∃ k e, es !! k = Some e ∧ j = prev + 1 + Z.of_nat k) as (k & e & Hk & ->).
  { destruct (lookup_lt_is_Some_2 es (Z.to_nat (j - prev - 1))) as [e He]; [unfold anchor in *; lia|].
    exists (Z.to_nat (j - prev - 1)), e. split; [done|]. unfold anchor in *. lia. }
  pose proof (Hes k e Hk) as HeL. rewrite HeL in HX. injection HX as <-.
  assert (e_Term x = e_Term e) as Hterm.
  { destruct (appendFrom_present prev es l Hl Hr Hrange k e Hk ltac:(unfold anchor in *; lia))
      as (x' & Hx' & Ht'). unfold l' in Hx. rewrite Hx in Hx'. by simplify_eq. }
  split; [done|]. intros Hbl HbL'.
  destruct (appendFrom_entry prev es l _ x Hl Hr Hrange Hx) as [Hold|(k' & e' & Hk' & Hkk & ->)].
  - destruct (HLM (prev + 1 + Z.of_nat k) (e_Term e)) with (j := prev + 1 + Z.of_nat k) (x := x) (X := e)
      as [_ Heq]; try done; unfold termAt.
    + by rewrite Hold, <- Hterm.
    + by rewrite HeL.
    + by apply Heq.
  - assert (k' = k) as -> by lia. rewrite Hk' in Hk. injection Hk as ->.
    destruct (entryAt_Some _ _ _ HL HeL) as [_ <-]. by destruct e.
Qed.

Lemma matching_kept : matching_logs l' L.
Proof.
  intros i t Hi HiL j x X Hji Hx HX. pose proof range as Hrange.
  unfold termAt in Hi. destruct (entryAt l' i) as [xi|] eqn:Exi; [|done].
  destruct (decide (i ≤ prev + Z.of_nat (length es))) as [Hle|Hgt].
  { destruct (matching_agree j x X ltac:(lia) Hx HX) as [? ?]. split; [done|].
    unfold l'. by rewrite (appendFrom_base prev es l Hl Hr Hrange). }
  assert (l' = l) as El by (eapply appendFrom_beyond; [done..| |exact Exi]; lia).
  rewrite El in *. apply (HLM i t); [|done..]. unfold termAt. by rewrite Exi.
Qed.
End Matching.

Section Replication.
Context {SM St : Type} `{StateMachine SM} `{Storage St}.
Implicit Type s : Server SM St.

(** What [replicateTo] sends: the whole log from [nextIndex] on, and the term of
    the entry before it. *)
Lemma replicate_request_spec peer term s args :
  log_wf (log s) → default 0 (nextIndex s !! peer) ≤ lastIndex (log s) + 1 →
  replicate_request peer term s = SendEntries args →
  let prev := ae_PrevLogIndex args in
  baseIndex (log s) ≤ prev ∧ termAt (log s) prev = Some (ae_PrevLogTerm args) ∧
  (∀ k e, ae_Entries args !! k = Some e → entryAt (log s) (prev + 1 + Z.of_nat k) = Some e) ∧
  prev + Z.of_nat (length (ae_Entries args)) = lastIndex (log s) ∧ ae_LeaderCommit args = commitIndex s.
Proof.
  intros Hl Hnext. unfold replicate_request. destruct (_ || _); [done|]. cbv zeta.
  set (next := if _ <? 1 then 1 else _). pose proof (wf_base _ Hl). pose proof (base_le_last _ Hl).
  assert (1 ≤ next ≤ lastIndex (log s) + 1) as Hn.
  { unfold next. destruct (Z.ltb_spec (default 0 (nextIndex s !! peer)) 1); lia. }
  clearbody next. destruct (Z.leb_spec next (baseIndex (log s))); [done|]. case_bool_decide; [done|].
  intros [= <-]. simpl. pose proof (lastIndex_wf _ Hl) as Hlast. pose proof (wf_bound _ Hl).
  rewrite u64_small by (unfold in_u64; lia). split; [lia|].
  destruct (entryAt_slot (log s) (next - 1) Hl ltac:(lia)) as [_ [e He]].
  split; [unfold termAt; by rewrite He|]. rewrite slot_wf by (done || lia).
  destruct (Z.leb_spec next (lastIndex (log s))).
  - split; [|split; [rewrite length_drop; lia|done]]. intros k x Hk. rewrite lookup_drop in Hk.
    rewrite entryAt_lookup by (done || lia). rewrite <- Hk. f_equal. lia.
  - split; [done|]. simpl. split; [lia|done].
Qed.

(** Replication keeps Log Matching.  A leader's [replicateTo] builds a
    request from its log, a follower's [AppendEntries] handles it.  If the two
    logs matched before (same term at an index implies the same entries up to
    it), they match afterwards; and when the follower replies success, its log
    is the leader's, entry for entry, up to the leader's last index (above both
    snapshot boundaries).  The follower's own boundary, if the request spans it,
    has to be an entry of the leader, which is so for a committed entry. *)
Theorem replication_matches peer term env (leader : Server SM St) args s s' reply :
  log_wf (log leader) → log_wf (log s) → room (length (ae_Entries args)) (log s) →
  matching_logs (log s) (log leader) →
  default 0 (nextIndex leader !! peer) ≤ lastIndex (log leader) + 1 →
  replicate_request peer term leader = SendEntries args →
  (ae_PrevLogIndex args < baseIndex (log s) ≤ lastIndex (log leader) →
     termAt (log leader) (baseIndex (log s)) = Some (baseTerm (log s))) →
  AppendEntries env args s = Ok (s', reply) →
  matching_logs (log s') (log leader) ∧
  (aer_Success reply = true →
     ∀ j, baseIndex (log s) < j → baseIndex (log leader) < j ≤ lastIndex (log leader) →
       entryAt (log s') j = entryAt (log leader) j).
Proof.
  intros HL Hl Hr HLM Hnext Hreq Hbound HA.
  destruct (replicate_request_spec _ _ _ _ HL Hnext Hreq) as (HbL & HpL & Hes & Hend & _).
  pose proof (wf_base _ HL) as Hb0.
  destruct (AppendEntries_cases _ _ _ _ _ HA) as [[-> ->]|(-> & Hm & ->)]; [done|].
  set (prev := ae_PrevLogIndex args) in *. set (es := ae_Entries args) in *.
  rewrite <- Hend in Hbound.
  assert (0 ≤ prev ≤ lastIndex (log s)) as Hrange by (split; [lia|by eapply matchesPrevLog_range]).
  split; [by eapply matching_kept; eauto; lia|]. intros _ j Hbj HbLj.
  destruct (entryAt_slot (log leader) j HL ltac:(lia)) as [_ [X HX]].
  assert (∃ x, entryAt (appendFrom prev es (log s)).1 j = Some x) as [x Hx].
  { destruct (decide (j ≤ Z.max prev (baseIndex (log s)))) as [Hle|Hgt].
    - rewrite appendFrom_before by (done || lia). pose proof (base_le_last _ Hl).
      destruct (entryAt_slot (log s) j Hl ltac:(lia)) as [_ [y Hy]]. eauto.
    - destruct (lookup_lt_is_Some_2 es (Z.to_nat (j - prev - 1))) as [e He]; [lia|].
      destruct (appendFrom_present prev es (log s) Hl Hr Hrange _ e He ltac:(lia)) as (y & Hy & _).
      exists y. rewrite <- Hy. f_equal. lia. }
  rewrite HX, Hx. f_equal.
  eapply (matching_agree (log s) (log leader) es prev); eauto; lia.
Qed.

End Replication.
