(* ===== verification/RaftCommit.v ===== *)
(** * Raft: committing, applying, and membership changes *)

From S2P Require Import Prelude GoLib RaftTypes RaftLog RaftCodec RaftServer RaftLoop RaftSnapshot RaftRead RaftVotes RaftNode RaftReplication.

Local Open Scope Z_scope.

Section Commit.
Context {SM St : Type} `{StateMachine SM} `{Storage St}.
Implicit Type s : Server SM St.

(** ** Applying *)

(** The entries at [lo + 1], ..., [hi]. *)
Definition entries_between (lo hi : Z) (l : list LogEntry) : list LogEntry :=
  take (Z.to_nat (hi - lo)) (drop (Z.to_nat (lo + 1 - baseIndex l)) l).

(** A state machine fed entries in order; [None] is a panic. *)
Fixpoint apply_all (es : list LogEntry) (m : option SM) : option (option SM) :=
  match es with
  | [] => Some m
  | e :: es => m' ← apply_entry e m; apply_all es m'
  end.

Lemma entries_between_cons lo hi l e :
  log_wf l → baseIndex l ≤ lo < hi → entryAt l (lo + 1) = Some e →
  entries_between lo hi l = e :: entries_between (lo + 1) hi l.
Proof.
  intros Hl Hlo He. unfold entries_between.
  rewrite entryAt_lookup in He by (done || lia). rewrite (drop_S l e) by done.
  replace (Z.to_nat (hi - lo)) with (S (Z.to_nat (hi - (lo + 1)))) by lia. simpl. do 3 f_equal. lia.
Qed.

(** Fields the application loop does not touch. *)
Definition same_but_applied s s' : Prop :=
  log s' = log s ∧ commitIndex s' = commitIndex s ∧ currentTerm s' = currentTerm s ∧
  votedFor s' = votedFor s ∧ storage s' = storage s ∧ applyWaiters s' = applyWaiters s ∧
  closedChans s' = closedChans s ∧ role s' = role s ∧ peers s' = peers s ∧ matchIndex s' = matchIndex s.

Lemma apply_loop_spec n s :
  log_wf (log s) → n = Z.to_nat (commitIndex s - lastApplied s) →
  baseIndex (log s) ≤ lastApplied s ≤ commitIndex s → commitIndex s ≤ lastIndex (log s) →
  match apply_all (entries_between (lastApplied s) (commitIndex s) (log s)) (sm s) with
  | Some m => ∃ s', apply_loop n s = Ok (s', true) ∧ sm s' = m ∧ lastApplied s' = commitIndex s ∧
      same_but_applied s s'
  | None => ∃ s', apply_loop n s = Panic s'
  end.
Proof.
  revert s. induction n as [|n IH]; intros s Hl Hn Hlo Hhi.
  { unfold entries_between. replace (Z.to_nat (commitIndex s - lastApplied s)) with 0%nat by lia. simpl.
    exists s. split_and!; [done..|lia|]. by split_and!. }
  pose proof (wf_bound _ Hl). pose proof (wf_base _ Hl). pose proof (lastIndex_wf _ Hl).
  destruct (entryAt_slot (log s) (lastApplied s + 1) Hl ltac:(lia)) as [_ [e He]].
  rewrite (entries_between_cons _ _ _ e) by (done || lia). cbn [apply_all apply_loop].
  destruct (Z.ltb_spec (lastApplied s) (commitIndex s)); [|lia]. cbn [negb]. simpl.
  rewrite u64_small, He by (unfold in_u64; lia).
  destruct (apply_entry e (sm s)) as [m|]; simpl; [|eauto].
  specialize (IH (set_sm m (set_lastApplied (lastApplied s + 1) s)) Hl). simpl in IH.
  specialize (IH ltac:(lia) ltac:(lia) Hhi).
  destruct (apply_all _ m) as [m'|]; [|done]. destruct IH as (s' & E & Hsm & Hla & Hrest). by exists s'.
Qed.

(** C16: Committed entries are applied in log order, each exactly once.  When
    [lastApplied] and [commitIndex] lie inside the log, [applyCommitted] feeds
    the state machine the entries after [lastApplied] up to [commitIndex], in
    order, and nothing else (or the state machine panics on one of them);
    afterwards [lastApplied] is [commitIndex] and every channel waiting for an
    index up to it has been closed and removed. *)
Theorem applyCommitted_applies s :
  log_wf (log s) → baseIndex (log s) ≤ lastApplied s ≤ commitIndex s →
  commitIndex s ≤ lastIndex (log s) →
  match apply_all (entries_between (lastApplied s) (commitIndex s) (log s)) (sm s) with
  | Some m => ∃ s', applyCommitted s = Ok s' ∧ sm s' = m ∧ lastApplied s' = commitIndex s ∧
      commitIndex s' = commitIndex s ∧ log s' = log s ∧
      ∀ i chs ch, applyWaiters s !! i = Some chs → ch ∈ chs →
        (i ≤ commitIndex s → ch ∈ closedChans s' ∧ applyWaiters s' !! i = None) ∧
        (commitIndex s < i → applyWaiters s' !! i = Some chs)
  | None => ∃ s', applyCommitted s = Panic s'
  end.
Proof.
  intros Hl Hlo Hhi. pose proof (apply_loop_spec _ s Hl eq_refl Hlo Hhi) as Hloop.
  unfold applyCommitted. destruct (apply_all _ (sm s)) as [m|].
  - destruct Hloop as (s1 & -> & Hsm & Hla & (E1 & E2 & _ & _ & _ & E3 & E4 & _)). cbn [mbind outcome_bind].
    eexists. split; [done|].
    assert (sm (saveApplied s1) = sm s1 ∧ lastApplied (saveApplied s1) = lastApplied s1 ∧
      commitIndex (saveApplied s1) = commitIndex s1 ∧ log (saveApplied s1) = log s1 ∧
      applyWaiters (saveApplied s1) = applyWaiters s1) as (F1 & F2 & F3 & F4 & F5).
    { unfold saveApplied. by repeat case_match. }
    simpl. split_and!; [congruence..|]. rewrite F2, F5, Hla, E3.
    intros i chs ch Hi Hch. split; intros Hic.
    + split.
      * apply elem_of_app. right. apply list_elem_of_In, in_concat. exists chs.
        rewrite <- !list_elem_of_In. split; [|done]. apply list_elem_of_fmap. exists (i, chs). split; [done|].
        apply elem_of_map_to_list, map_lookup_filter_Some. done.
      * apply map_lookup_filter_None. right. intros x Hx. simpl. rewrite Hi in Hx. lia.
    + apply map_lookup_filter_Some. split; [done|]. simpl. lia.
  - destruct Hloop as (s1 & ->). simpl. eauto.
Qed.

(** ** The commit rule *)

(** The leader's condition for committing through [n]. *)
Definition committable (n : Z) s : Prop :=
  termAt (log s) n = Some (currentTerm s) ∧ (majority s ≤ matching n s)%nat.

Lemma apply_loop_commit k s s' d : apply_loop k s = Ok (s', d) → commitIndex s' = commitIndex s.
Proof.
  revert s. induction k as [|k IH]; intros s; simpl; [by intros [= <- _]|].
  destruct (negb _); [by intros [= <- _]|]. destruct (entryAt _ _) as [e|]; [|by intros [= <- _]].
  destruct (apply_entry e _) as [m|]; [|done]. by intros ->%IH.
Qed.

Lemma applyCommitted_commit s s' : applyCommitted s = Ok s' → commitIndex s' = commitIndex s.
Proof.
  unfold applyCommitted. destruct (apply_loop _ s) as [[s1 d]|] eqn:E; simpl; [|done].
  apply apply_loop_commit in E. destruct d; intros [= <-]; [|done].
  simpl. unfold saveApplied. by repeat case_match.
Qed.

Lemma commit_at n s s' :
  (s ← applyCommitted (set_commitIndex n s); Ok (checkSelfRemovalLocked s)) = Ok s' →
  commitIndex s' = n.
Proof.
  destruct (applyCommitted (set_commitIndex n s)) as [s1|] eqn:E; simpl; [|done]. intros [= <-].
  apply applyCommitted_commit in E. simpl in E. rewrite <- E.
  unfold checkSelfRemovalLocked, becomeFollower. by repeat case_match.
Qed.

Lemma advance_loop_spec fuel n s s' :
  0 ≤ commitIndex s → n < 2 ^ 63 → fuel = Z.to_nat (n - commitIndex s) →
  advance_loop fuel n s = Ok s' →
  (commitIndex s' = commitIndex s ∧ s' = s ∧ ∀ k, commitIndex s < k ≤ n → ¬ committable k s) ∨
  (commitIndex s < commitIndex s' ≤ n ∧ committable (commitIndex s') s ∧
   ∀ k, commitIndex s' < k ≤ n → ¬ committable k s).
Proof.
  intros Hc. revert n. induction fuel as [|fuel IH]; intros n Hn Hf; simpl.
  { intros [= <-]. left. split_and!; [done..|]. intros k Hk. lia. }
  destruct (Z.ltb_spec (commitIndex s) n); simpl; [|lia].
  assert (advance_loop fuel (u64 (n - 1)) s = Ok s' → ¬ committable n s →
    (commitIndex s' = commitIndex s ∧ s' = s ∧ ∀ k, commitIndex s < k ≤ n → ¬ committable k s) ∨
    (commitIndex s < commitIndex s' ≤ n ∧ committable (commitIndex s') s ∧
     ∀ k, commitIndex s' < k ≤ n → ¬ committable k s)) as Hnext.
  { intros E Hno. rewrite u64_small in E by (unfold in_u64; lia).
    apply IH in E as [(E1 & E2 & Hall)|(E1 & E2 & Hall)]; [| |lia..].
    - left. split_and!; [done..|]. intros k Hk. destruct (decide (k = n)) as [->|]; [done|]. apply Hall. lia.
    - right. split_and!; [lia|lia|done|]. intros k Hk. destruct (decide (k = n)) as [->|]; [done|].
      apply Hall. lia. }
  destruct (termAt (log s) n) as [t|] eqn:Ht.
  - destruct (Z.eqb_spec t (currentTerm s)) as [->|Hne]; simpl.
    + destruct (Nat.leb_spec (majority s) (matching n s)) as [Hmaj|Hmin].
      * intros E%commit_at. right. rewrite E. split_and!; [lia|lia|done|]. lia.
      * intros E. apply Hnext; [done|]. intros [_ ?]. lia.
    + intros E. apply Hnext; [done|]. intros [E' _]. congruence.
  - intros E. apply Hnext; [done|]. intros [E' _]. congruence.
Qed.

(** A leader commits by Figure 2's rule.  [advanceCommitIndexLocked] on a
    leader moves [commitIndex] exactly to the largest index above it whose entry
    is of the leader's own term and is on a majority of the configuration
    ([matchIndex]); without such an index it does nothing, and a server that is
    not leader never moves it.  An entry of an earlier term is never the one
    committed. *)
Theorem advanceCommitIndex_rule s s' :
  log_wf (log s) → 0 ≤ commitIndex s → advanceCommitIndexLocked s = Ok s' →
  (role s ≠ Leader → s' = s) ∧
  (role s = Leader →
   (s' = s ∧ ∀ n, commitIndex s < n ≤ lastIndex (log s) → ¬ committable n s) ∨
   (commitIndex s < commitIndex s' ≤ lastIndex (log s) ∧ committable (commitIndex s') s ∧
    ∀ n, commitIndex s' < n ≤ lastIndex (log s) → ¬ committable n s)).
Proof.
  intros Hl Hc. unfold advanceCommitIndexLocked. case_bool_decide as Hr.
  { intros [= <-]. done. }
  intros E. split; [done|]. intros _. pose proof (lastIndex_wf _ Hl). pose proof (wf_bound _ Hl).
  apply advance_loop_spec in E as [(E1 & E2 & Hall)|(E1 & E2 & Hall)]; [by left|by right|done|lia|done].
Qed.

(** ** Membership changes *)

Lemma foldl_inv {A} (P : Server SM St → Prop) (f : Server SM St → A → Server SM St) l s :
  (∀ s x, P s → P (f s x)) → P s → P (foldl f s l).
Proof. intros Hf. revert s. induction l as [|x l IH]; intros s Hs; simpl; auto. Qed.

Lemma useConfiguration_fields c s :
  let s' := useConfigurationLocked c s in
  peers s' = c ∧ log s' = log s ∧ commitIndex s' = commitIndex s ∧ role s' = role s ∧ id s' = id s ∧
  configChangeIndex s' = configChangeIndex s.
Proof.
  unfold useConfigurationLocked. case_bool_decide; [done|]. cbv zeta. simpl.
  match goal with |- context [foldl ?f ?a c] => set (s1 := foldl f a c);
    assert (peers s1 = c ∧ log s1 = log s ∧ commitIndex s1 = commitIndex s ∧ role s1 = role s ∧
      id s1 = id s ∧ configChangeIndex s1 = configChangeIndex s) as Hs1 end.
  { apply (foldl_inv (λ s1, peers s1 = c ∧ log s1 = log s ∧ commitIndex s1 = commitIndex s ∧
      role s1 = role s ∧ id s1 = id s ∧ configChangeIndex s1 = configChangeIndex s)); [|done].
    intros s' x Hs'. by case_match. }
  exact Hs1.
Qed.

Lemma persistLocked_fields s :
  let s' := (persistLocked s).1 in
  peers s' = peers s ∧ log s' = log s ∧ commitIndex s' = commitIndex s ∧ role s' = role s ∧ id s' = id s ∧
  configChangeIndex s' = configChangeIndex s.
Proof. unfold persistLocked. by repeat case_match. Qed.

End Commit.

(** * Raft: one membership change at a time *)

Section Pending.
Context {SM St : Type} `{StateMachine SM} `{Storage St} {storable : bytes → Prop}.
Context `{!StorageLaws St storable}.
Implicit Type s : Server SM St.

(** The commit index has not gone back, and the newest configuration entry is the same. *)
Definition pinned s s' : Prop := commitIndex s ≤ commitIndex s' ∧ configChangeIndex s' = configChangeIndex s.

#[local] Instance pinned_preorder : PreOrder pinned.
Proof. split; [by split|]. intros x y z [? E1] [? E2]. split; [lia|congruence]. Qed.

Lemma pinned_same s s' :
  commitIndex s' = commitIndex s → configChangeIndex s' = configChangeIndex s → pinned s s'.
Proof. intros E1 E2. split; [lia|done]. Qed.

Lemma becomeFollower_pinned t s : pinned s (becomeFollower t s).
Proof. unfold becomeFollower. destruct (_ <? _); by apply pinned_same. Qed.

Lemma persist_pinned s : pinned s (persistLocked s).1.
Proof. pose proof (persistLocked_fields s) as (_ & _ & ? & _ & _ & ?). by apply pinned_same. Qed.

Lemma mustPersist_pinned s s' : mustPersistLocked s = Ok s' → pinned s s'.
Proof.
  pose proof (persist_pinned s) as Hp. unfold mustPersistLocked.
  destruct (persistLocked s) as [s1 [e|]]; [done|]. by intros [= <-].
Qed.

Lemma follow_pinned t s s' : mustPersistLocked (becomeFollower t s) = Ok s' → pinned s s'.
Proof. intros Hp%mustPersist_pinned. etrans; [apply becomeFollower_pinned|exact Hp]. Qed.

Lemma apply_loop_pinned n s s' d : apply_loop n s = Ok (s', d) → configChangeIndex s' = configChangeIndex s.
Proof.
  revert s. induction n as [|n IH]; intros s; simpl; [by intros [= <- _]|].
  destruct (negb _); [by intros [= <- _]|]. destruct (entryAt _ _) as [e|]; [|by intros [= <- _]].
  destruct (apply_entry e _) as [m|]; [|done]. by intros ->%IH.
Qed.

Lemma applyCommitted_pinned s s' : applyCommitted s = Ok s' → pinned s s'.
Proof.
  intros E. apply pinned_same; [by apply applyCommitted_commit|]. revert E. unfold applyCommitted.
  destruct (apply_loop _ s) as [[s1 d]|] eqn:E; simpl; [|done]. apply apply_loop_pinned in E.
  destruct d; intros [= <-]; [|done]. simpl. rewrite <- E. unfold saveApplied. by repeat case_match.
Qed.

Lemma checkSelfRemoval_pinned s : pinned s (checkSelfRemovalLocked s).
Proof.
  unfold checkSelfRemovalLocked. repeat case_match; try done. etrans; [|apply becomeFollower_pinned]. done.
Qed.

Lemma advance_loop_pinned fuel n s s' : advance_loop fuel n s = Ok s' → pinned s s'.
Proof.
  revert n. induction fuel as [|fuel IH]; intros n; cbn [advance_loop]; [by intros [= <-]|].
  destruct (Z.ltb_spec (commitIndex s) n) as [Hlt|]; cbn [negb]; [|by intros [= <-]].
  destruct (termAt _ _) as [t|]; [|apply IH]. destruct (negb _); [apply IH|]. destruct (_ <=? _)%nat; [|apply IH].
  destruct (applyCommitted _) as [s1|] eqn:E; [|done]. intros [= <-]. apply applyCommitted_pinned in E.
  etrans; [|apply checkSelfRemoval_pinned]. etrans; [|exact E]. split; [simpl; lia|done].
Qed.

Lemma advance_pinned s s' : advanceCommitIndexLocked s = Ok s' → pinned s s'.
Proof. unfold advanceCommitIndexLocked. case_bool_decide; [by intros [= <-]|]. apply advance_loop_pinned. Qed.

(** Appended, persisted, committed. *)
Lemma append_pinned s s1 s' :
  pinned s s1 → (s2 ← mustPersistLocked s1; advanceCommitIndexLocked s2) = Ok s' → pinned s s'.
Proof.
  intros H1. destruct (mustPersistLocked s1) as [s2|] eqn:E; simpl; [|done]. intros E2%advance_pinned.
  apply mustPersist_pinned in E. by etrans; [exact H1|]; etrans.
Qed.

Lemma becomeLeader_pinned term s s' : becomeLeader term s = Ok s' → pinned s s'.
Proof.
  unfold becomeLeader. destruct (_ || _); [by intros [= <-]|]. cbv zeta. apply append_pinned.
  match goal with |- context [foldl ?f ?x ?l] =>
    assert (pinned s (foldl f x l)) as Hf;
      [apply (foldl_inv (pinned s)); [|done]; intros s1 p Hs1; etrans; [exact Hs1|done]|] end.
  etrans; [exact Hf|]. done.
Qed.

Lemma RequestVote_pinned env args s s' reply : RequestVote env args s = Ok (s', reply) → pinned s s'.
Proof.
  unfold RequestVote. do 3 (case_match; [by intros [= <- _]|]).
  assert (pinned s (observeTerm (rv_Term args) s).1) as Ho.
  { unfold observeTerm. destruct (currentTerm s <? rv_Term args); [apply becomeFollower_pinned|done]. }
  destruct (observeTerm _ s) as [s1 c]. simpl in Ho. destruct (_ || _).
  - destruct c; simpl; [|by intros [= <- _]].
    destruct (mustPersistLocked s1) as [s2|] eqn:E; simpl; [|done]. intros [= <- _]. apply mustPersist_pinned in E. by etrans.
  - destruct (mustPersistLocked _) as [s2|] eqn:E; simpl; [|done]. intros [= <- _]. apply mustPersist_pinned in E. by etrans; [exact Ho|].
Qed.

Lemma InstallSnapshot_pinned env args s : pinned s (InstallSnapshot env args s).1.
Proof.
  unfold InstallSnapshot. destruct (_ <? _); [done|]. cbv zeta.
  match goal with |- context [resetElectionTimerLocked env ?x] => set (s1 := resetElectionTimerLocked env x) end.
  assert (pinned s s1) as H1 by (unfold s1; by destruct (_ <? _)).
  clearbody s1. destruct (_ || _); [exact H1|]. destruct (sm s1) as [m|]; [|exact H1].
  destruct sm_Snapshotter as [snapper|]; [|exact H1].
  destruct (sn_RestoreSnapshot _ _ _) as [m' [err|]]; [etrans; [exact H1|done]|].
  match goal with |- context [compact_save _ _ _ ?x] => set (s2 := x) end.
  assert (pinned s1 s2) as H2.
  { unfold s2. simpl. destruct (Z.ltb_spec (commitIndex s1) (is_LastIncludedIndex args)); [|done]. split; [simpl; lia|done]. }
  clearbody s2.
  destruct (compact_save _ _ _ s2) as [s3 e3] eqn:E3.
  assert (pinned s2 s3) as H3.
  { unfold compact_save in E3. destruct (storage s2), st_Snapshot; [|by injection E3 as <- _..].
    destruct (ss_SaveSnapshot _ _ _ _ _). by injection E3 as <- _. }
  assert (∀ e x, pinned x (count_snapshot_err e x)) as Hc by (by intros [] ?).
  pose proof (persist_pinned (count_snapshot_err e3 s3)) as H4.
  destruct (persistLocked _) as [s4 e4]. simpl in *.
  etrans; [exact H1|]. etrans; [exact H2|]. etrans; [exact H3|]. etrans; [apply Hc|]. etrans; [exact H4|apply Hc].
Qed.

(** A request of another term changes nothing or ends the term. *)
Lemma AppendEntries_other env args s s' reply :
  ae_Term args ≠ currentTerm s → AppendEntries env args s = Ok (s', reply) → s' = s ∨ currentTerm s < currentTerm s'.
Proof.
  intros Hne. unfold AppendEntries. destruct (stopped s); [intros [= <- _]; by left|].
  destruct (Z.ltb_spec (ae_Term args) (currentTerm s)); [intros [= <- _]; by left|].
  assert (currentTerm (heardFromLeader env args s).1 = ae_Term args) as Ht.
  { unfold heardFromLeader, observeTerm. destruct (Z.ltb_spec (currentTerm s) (ae_Term args)) as [Hlt|]; [|lia].
    unfold becomeFollower. simpl. destruct (Z.ltb_spec (currentTerm s) (ae_Term args)); [|lia]. simpl. done. }
  assert (∀ c (x y : Server SM St), persist_if c x = Ok y → currentTerm y = currentTerm x) as Hp.
  { intros c x y. unfold persist_if. destruct c; [|by intros [= <-]]. pose proof (persistLocked_core x) as (E & _).
    unfold mustPersistLocked. destruct (persistLocked x) as [x1 [|]]; [done|]. by intros [= <-]. }
  destruct (heardFromLeader env args s) as [s1 changed]. simpl in Ht. intros E. right.
  assert (currentTerm s' = currentTerm s1) as ->; [|lia]. revert E. destruct (negb _).
  - destruct (persist_if changed s1) as [s2|] eqn:E2; simpl; [|done]. intros [= <- _]. by apply Hp in E2.
  - destruct (appendFrom _ _ _) as [l c]. simpl. set (s2 := if c then _ else _).
    assert (currentTerm s2 = currentTerm s1) as E1.
    { unfold s2. destruct c; [|done]. by destruct (adoptConfig_quiet (set_log l s1)) as [(-> & _) _]. }
    destruct (persist_if _ s2) as [s3|] eqn:E3; simpl; [|done]. apply Hp in E3. destruct (_ <? _); simpl.
    + match goal with |- context [applyCommitted ?x] => pose proof (applyCommitted_ends x) as Ha; destruct (applyCommitted x) as [s4|] end;
        simpl; [|done]. destruct Ha as [(Ea & _) _]. unfold self in Ea. simpl in Ea. intros [= <- _]. congruence.
    + intros [= <- _]. congruence.
Qed.

(** The change at [idx] is the newest, or [idx] is committed. *)
Definition frozen (idx : Z) s : Prop := idx ≤ configChangeIndex s ∨ idx ≤ commitIndex s.

Lemma pinned_frozen idx s s' : pinned s s' → frozen idx s → frozen idx s'.
Proof. unfold frozen. intros [? ->] [?|?]; [by left|right; lia]. Qed.

(** A further change is made only on a committed one. *)
Lemma change_frozen mutate idx s : frozen idx s → frozen idx (changeConfiguration mutate s).1.
Proof.
  intros Hf. unfold changeConfiguration. case_bool_decide; [done|]. destruct (negb _); [done|].
  destruct (Z.ltb_spec (commitIndex s) (configChangeIndex s)); [done|]. destruct (mutate (peers s)) as [|next]; [done|].
  destruct (negb _); [done|]. match goal with |- context [useConfigurationLocked next ?x] => set (s1 := x) end.
  pose proof (useConfiguration_fields next s1) as (_ & _ & C2 & _).
  pose proof (persistLocked_fields (useConfigurationLocked next s1)) as (_ & _ & C3 & _).
  right. destruct (persistLocked _) as [s3 [err|]]; simpl in *; rewrite C3, C2; simpl; destruct Hf; lia.
Qed.

(** A replication request that is not of the term [T]. *)
Definition not_of_term (T : Z) (o : op) : Prop :=
  match o with OpAppendEntries _ args => ae_Term args ≠ T | _ => True end.

Lemma exec_frozen o idx s s' vs :
  not_of_term (currentTerm s) o → exec o s = Ok (s', vs) → frozen idx s → currentTerm s < currentTerm s' ∨ frozen idx s'.
Proof.
  intros Hn He Hf. assert (pinned s s' → currentTerm s < currentTerm s' ∨ frozen idx s') as Hpin.
  { intros Hp. right. by eapply pinned_frozen. }
  destruct o; simpl in He; try (right; by injection He as <- _; apply change_frozen).
  - injection He as <- _. apply Hpin. unfold Start. by case_match.
  - injection He as <- _. apply Hpin. unfold Stop. by case_match.
  - destruct (AppendEntries env args s) as [[s1 r]|] eqn:E; [|done]. injection He as <- _.
    apply AppendEntries_other in E as [->|?]; [by right|by left|done].
  - apply Hpin. destruct (RequestVote env args s) as [[s1 r]|] eqn:E; [|done]. injection He as <- _.
    by apply RequestVote_pinned in E.
  - injection He as <- _. apply Hpin, InstallSnapshot_pinned.
  - apply Hpin. unfold startElection in He. destruct (mustPersistLocked _) as [s2|] eqn:E; [|done]. injection He as <- _.
    by apply mustPersist_pinned in E.
  - apply Hpin. unfold vote_reply in He. destruct (_ <? _); [|by injection He as <- _].
    destruct (mustPersistLocked _) as [s2|] eqn:E; [|done]. injection He as <- _. by apply follow_pinned in E.
  - apply Hpin. destruct (becomeLeader term s) as [s1|] eqn:E; [|done]. injection He as <- _. by apply becomeLeader_pinned in E.
  - injection He as <- _. apply Hpin. unfold broadcastAppendEntries. by case_bool_decide.
  - apply Hpin. destruct (replicate_reply _ _ _ _ _ s) as [s1|] eqn:E; [|done]. injection He as <- _. revert E.
    unfold replicate_reply. destruct (_ <? _); [apply follow_pinned|]. destruct (_ || _); [by intros [= <-]|].
    destruct (aer_Success reply); [|intros [= <-]; by destruct (_ <? _)]. intros E%advance_pinned. etrans; [|exact E].
    simpl. by destruct (_ <? _).
  - injection He as <- _. apply Hpin. unfold snapshot_request. by repeat case_match.
  - apply Hpin. destruct (snapshot_reply _ _ _ _ _ s) as [s1|] eqn:E; [|done]. injection He as <- _. revert E.
    unfold snapshot_reply. destruct (_ <? _); [apply follow_pinned|]. destruct (_ || _); [by intros [= <-]|].
    destruct (advanceCommitIndexLocked _) as [s2|] eqn:E; [|done]. intros [= <-]. apply advance_pinned in E.
    etrans; [|etrans; [exact E|done]]. destruct (_ <? _), (_ <? _); done.
  - apply Hpin. unfold read_reply in He. destruct (_ <? _); [|by injection He as <- _].
    destruct (mustPersistLocked _) as [s2|] eqn:E; [|done]. injection He as <- _. by apply follow_pinned in E.
  - apply Hpin. destruct (Submit cmd s) as [[s1 r]|] eqn:E; [|done]. injection He as <- _. revert E.
    unfold Submit. destruct (_ || _); [by intros [= <- _]|].
    match goal with |- context [mustPersistLocked ?x] => pose proof (append_pinned s x) as Ha; destruct (mustPersistLocked x) as [s2|] end; [|done].
    simpl in *. destruct (advanceCommitIndexLocked s2) as [s3|]; [|done]. intros [= <- _]. by apply Ha.
  - injection He as <- _. apply Hpin. unfold compact_save. by repeat case_match.
  - injection He as <- _. apply Hpin. unfold compact_finish. repeat case_match; try done.
    match goal with E : persistLocked ?x = (?y, _) |- _ => pose proof (persist_pinned x) as Hp; rewrite E in Hp end.
    etrans; [|exact Hp]. done.
  - injection He as <- _. apply Hpin. unfold WaitApplied. by case_match.
  - injection He as <- _. by apply Hpin.
Qed.

(** A server runs operations one after the other, without going down. *)
Inductive runs : list op → Server SM St → Server SM St → Prop :=
  | runs_nil s : runs [] s s
  | runs_cons o os s s1 vs t : op_ok o s → exec o s = Ok (s1, vs) → runs os s1 t → runs (o :: os) s t.

Lemma exec_term o s s' vs : op_ok o s → 0 ≤ currentTerm s → exec o s = Ok (s', vs) → currentTerm s ≤ currentTerm s'.
Proof.
  intros Hok Ht He. pose proof (exec_spec (storable := storable) o s Hok Ht) as Hpost. unfold exec_post in Hpost.
  rewrite He in Hpost. destruct Hpost as [Hm%moved_up _]. destruct Hm as (_ & Hb & _).
  destruct Hb as [Hlt|[E _]]; simpl in *; lia.
Qed.

(** While the server stays in the term, the change at [idx] stays frozen. *)
Lemma runs_frozen T idx os s t :
  0 ≤ T → Forall (not_of_term T) os → runs os s t →
  (T < currentTerm s ∨ currentTerm s = T ∧ frozen idx s) → T < currentTerm t ∨ currentTerm t = T ∧ frozen idx t.
Proof.
  intros HT Hos Hr. induction Hr as [s|o os s s1 vs t Hok He _ IH]; [done|].
  apply Forall_cons in Hos as [Ho Hos]. intros Hinv. apply IH; [done|].
  assert (currentTerm s ≤ currentTerm s1) as Hle by (eapply exec_term; [done| |done]; destruct Hinv as [?|[? ?]]; lia).
  destruct Hinv as [?|[E Hf]]; [left; lia|]. rewrite <- E in Ho.
  destruct (exec_frozen o idx s s1 vs Ho He Hf) as [?|Hf1]; [left; lia|].
  destruct (decide (T = currentTerm s1)); [by right|left; lia].
Qed.

(** A frozen change that is not committed keeps others out. *)
Lemma frozen_refuses mutate idx s :
  frozen idx s → commitIndex s < idx → ∃ err, changeConfiguration mutate s = (s, inl err).
Proof.
  intros Hf Hlt. unfold changeConfiguration. case_bool_decide; [by eexists|]. destruct (negb _); [by eexists|].
  destruct (Z.ltb_spec (commitIndex s) (configChangeIndex s)); [by eexists|]. destruct Hf; lia.
Qed.

(** C17: Membership changes are single, one at a time, and effective at once.  If
    a change is accepted, the server is leader and a member, no earlier change
    was uncommitted, the log grows by one entry, which decodes to the new
    configuration if its members' names and number fit the encoding, and that
    configuration is in use before the entry commits.  Any majority of the old
    configuration meets any majority of the new one.  From then on, whatever the
    server does ([AppendEntries] of its own term excepted, which only another
    leader of that term sends) and as long as it does not restart: while it is in
    the same term and its commit index is below the entry, every further change is
    refused and leaves the server as it is. *)
Theorem changeConfiguration_single mutate s s' idx :
  log_wf (log s) → room 1 (log s) → commitIndex s ≤ lastIndex (log s) → 0 ≤ currentTerm s →
  changeConfiguration mutate s = (s', inr idx) →
  role s = Leader ∧ id s ∈ peers s ∧ configChangeIndex s ≤ commitIndex s ∧
  mutate (peers s) = inr (peers s') ∧ commitIndex s' < idx ∧
  log s' = log s ++ [mkEntry (currentTerm s) idx (Some (encodeConfig (peers s')))] ∧
  log_wf (log s') ∧ (config_ok (peers s') → decodeConfig (encodeConfig (peers s')) = inr (peers s')) ∧
  (∀ p q, NoDup p → NoDup q → p ⊆ peers s → q ⊆ peers s' → (Majority (peers s) ≤ length p)%nat →
     (Majority (peers s') ≤ length q)%nat → ∃ x, x ∈ p ∧ x ∈ q) ∧
  (∀ os t, Forall (not_of_term (currentTerm s)) os → runs os s' t →
     currentTerm t = currentTerm s → commitIndex t < idx →
     ∀ mutate', ∃ err, changeConfiguration mutate' t = (t, inl err)).
Proof.
  intros Hl Hroom Hcom Hterm. unfold changeConfiguration at 1. case_bool_decide as Hr; [done|].
  destruct (Contains (peers s) (id s)) eqn:Hin; simpl; [|done].
  destruct (Z.ltb_spec (commitIndex s) (configChangeIndex s)) as [|Hfl]; [done|].
  destruct (mutate (peers s)) as [err|next] eqn:Hmut; [done|].
  destruct (differsByOne (peers s) next) eqn:Hdiff; simpl; [|done].
  pose proof (lastIndex_wf _ Hl) as Hlast. pose proof (wf_base _ Hl). unfold room in Hroom.
  pose proof (length_wf _ Hl).
  rewrite u64_small by (unfold in_u64; lia).
  match goal with |- context [useConfigurationLocked next ?x] => set (s1 := x) end.
  pose proof (useConfiguration_fields next s1) as (P2 & L2 & C2 & R2 & I2 & F2). simpl in *.
  pose proof (useConfigurationLocked_quiet next s1) as [(T2 & _) _].
  pose proof (persistLocked_core (useConfigurationLocked next s1)) as (T3 & _).
  pose proof (persistLocked_fields (useConfigurationLocked next s1)) as (P3 & L3 & C3 & R3 & I3 & F3).
  destruct (persistLocked (useConfigurationLocked next s1)) as [s3 [err|]]; [done|]. simpl in *.
  intros [= <- <-]. rewrite P3, P2, L3, L2.
  assert (role s = Leader) as Hlead by (by destruct (role s)).
  split_and!; try done.
  - by apply Contains_spec.
  - rewrite C3, C2. simpl. lia.
  - by apply log_wf_snoc.
  - apply decodeConfig_encode.
  - intros p q. apply adjacent_quorums. by right.
  - intros os t Hos Hrun Et Hc mutate'. apply (frozen_refuses _ (lastIndex (log s) + 1)); [|done].
    destruct (runs_frozen (currentTerm s) (lastIndex (log s) + 1) os s3 t Hterm Hos Hrun) as [?|[_ ?]]; [|lia|done].
    right. split; [congruence|]. left. rewrite F3, F2. simpl. lia.
Qed.

End Pending.

(** * Raft: a group of one server

    A leader that is its whole configuration commits and applies a command
    within [Submit]. *)

Section Solo.
Context {SM St : Type} `{StateMachine SM} `{Storage St}.

(** Every write of the storage succeeds. *)
Definition saving (s : Server SM St) : Prop :=
  ∀ s' : Server SM St, storage s' = storage s → (persistLocked s').2 = None.

(** A leader on its own, with everything in its log applied. *)
Record alone (s : Server SM St) : Prop := {
  al_role : role s = Leader;
  al_live : stopped s = false;
  al_peers : peers s = [id s];
  al_log : log_wf (log s);
  al_room : room 1 (log s);
  al_commit : commitIndex s = lastIndex (log s);
  al_applied : lastApplied s = lastIndex (log s);
  al_saving : saving s
}.

Lemma persisted (s s1 : Server SM St) :
  saving s → storage s1 = storage s →
  ∃ s2, mustPersistLocked s1 = Ok s2 ∧ ∃ st, s2 = set_storage st s1.
Proof.
  intros Hs Hst. specialize (Hs s1 Hst). unfold mustPersistLocked, persistLocked in *.
  destruct (storage s1) as [st|] eqn:E.
  - destruct (st_Save _ st) as [st' err]. simpl in Hs. subst err. eauto.
  - exists s1. split; [done|]. exists (storage s1). by destruct s1.
Qed.

Lemma checkSelfRemoval_sm (s : Server SM St) :
  sm (checkSelfRemovalLocked s) = sm s ∧ lastApplied (checkSelfRemovalLocked s) = lastApplied s.
Proof. unfold checkSelfRemovalLocked, becomeFollower. by repeat case_match. Qed.

Lemma saveApplied_sm (s : Server SM St) :
  sm (saveApplied s) = sm s ∧ lastApplied (saveApplied s) = lastApplied s.
Proof. unfold saveApplied. by repeat case_match. Qed.

(** The loop of [advanceCommitIndexLocked] on a log with one new entry. *)
Lemma commit_one (s : Server SM St) e m :
  role s = Leader → peers s = [id s] → log_wf (log s) → lastIndex (log s) = commitIndex s + 1 →
  lastApplied s = commitIndex s → baseIndex (log s) ≤ commitIndex s →
  entryAt (log s) (lastIndex (log s)) = Some e → e_Term e = currentTerm s →
  matchIndex s !! id s = Some (lastIndex (log s)) → apply_entry e (sm s) = Some m →
  ∃ s', advanceCommitIndexLocked s = Ok s' ∧ sm s' = m ∧ lastApplied s' = lastIndex (log s).
Proof.
  intros Hr Hp Hl Hlast Hla Hbase He Ht Hm Happ. unfold advanceCommitIndexLocked. rewrite Hr.
  rewrite bool_decide_eq_false_2 by (intros ?; done).
  replace (Z.to_nat (lastIndex (log s) - commitIndex s)) with 1%nat by lia. cbn [advance_loop].
  destruct (Z.ltb_spec (commitIndex s) (lastIndex (log s))); [|lia]. cbn [negb].
  unfold termAt. rewrite He. cbn [fmap option_fmap option_map]. rewrite Ht, Z.eqb_refl. cbn [negb].
  unfold majority, matching. rewrite Hp. rewrite filter_cons_True by (rewrite Hm; simpl; lia). simpl.
  set (s1 := set_commitIndex (lastIndex (log s)) s).
  pose proof (apply_loop_spec _ s1 Hl eq_refl ltac:(simpl; lia) ltac:(simpl; lia)) as Hloop.
  rewrite (entries_between_cons _ _ _ e) in Hloop by (simpl; first [done|lia|by rewrite Hla, <- Hlast]).
  replace (entries_between (lastApplied s1 + 1) (commitIndex s1) (log s1)) with (@nil LogEntry) in Hloop
    by (unfold entries_between; simpl; by replace (Z.to_nat (lastIndex (log s) - (lastApplied s + 1))) with 0%nat by lia).
  cbn [apply_all] in Hloop. change (sm s1) with (sm s) in Hloop. rewrite Happ in Hloop. simpl in Hloop.
  destruct Hloop as (s2 & E & Hsm & Hla2 & _). unfold applyCommitted. simpl. rewrite E. simpl.
  pose proof (checkSelfRemoval_sm (signalApplied (saveApplied s2))) as [F1 F2].
  pose proof (saveApplied_sm s2) as [F3 F4]. eexists. split; [done|]. rewrite F1, F2. simpl.
  by rewrite F3, F4.
Qed.

Lemma Submit_alone (s : Server SM St) data m :
  alone s → apply_entry (mkEntry (currentTerm s) (lastIndex (log s) + 1) (Some data)) (sm s) = Some m →
  ∃ s', Submit (Some data) s = Ok (s', (lastIndex (log s) + 1, currentTerm s, true)) ∧
    sm s' = m ∧ lastApplied s' = lastIndex (log s) + 1.
Proof.
  intros [Hr Hst Hp Hl Hroom Hc Ha Hsv] Happ. unfold Submit. rewrite Hr, Hst.
  rewrite bool_decide_eq_false_2 by (intros ?; done). cbn [orb].
  pose proof (lastIndex_wf _ Hl) as Hlast. pose proof (wf_bound _ Hl). pose proof (wf_base _ Hl).
  pose proof (length_wf _ Hl). rewrite u64_small by (unfold in_u64; lia).
  set (e := mkEntry (currentTerm s) (lastIndex (log s) + 1) (Some data)) in *. cbv zeta.
  match goal with |- context [mustPersistLocked ?x] => set (s1 := x) end.
  destruct (persisted s s1 Hsv eq_refl) as (s2 & -> & st & ->). cbn [mbind outcome_bind].
  assert (log_wf (log s ++ [e])) as Hwf by by apply log_wf_snoc.
  assert (baseIndex (log s ++ [e]) = baseIndex (log s)) as Hb by (apply baseIndex_app, Hl).
  destruct (commit_one (set_storage st s1) e m) as (s3 & -> & Hsm & Hla); simpl; try done.
  - rewrite lastIndex_snoc. simpl. lia.
  - congruence.
  - rewrite Hb. lia.
  - rewrite lastIndex_snoc, entryAt_lookup; [|done|rewrite Hb; simpl; lia].
    rewrite Hb. simpl. rewrite lookup_app_r by lia.
    by replace (Z.to_nat (lastIndex (log s) + 1 - baseIndex (log s)) - length (log s))%nat with 0%nat by lia.
  - rewrite lastIndex_snoc. simpl. apply lookup_insert_eq.
  - eexists. split; [done|]. split; [done|]. simpl in Hla. by rewrite lastIndex_snoc in Hla.
Qed.

End Solo.
