(* ===== verification/RaftDuplicates.v ===== *)
(** * Raft: a message delivered twice

    The network may deliver a request again.  For each receiver: what the second
    delivery does to the server that has just handled the first. *)

From S2P Require Import Prelude GoLib RaftTypes RaftLog RaftCodec RaftServer RaftSnapshot RaftVotes RaftReplication RaftCommit.

Local Open Scope Z_scope.

Section Duplicates.
Context {SM St : Type} `{StateMachine SM} `{Storage St}.
Implicit Type s : Server SM St.

(** What the handlers look at besides the log. *)
Definition face s := (stopped s, currentTerm s, role s, leaderID s, commitIndex s).

Lemma persist_if_face c s s' : persist_if c s = Ok s' → face s' = face s.
Proof.
  destruct c; simpl; [|by intros [= <-]]. unfold mustPersistLocked, persistLocked. intros Hp.
  repeat case_match; by simplify_eq.
Qed.

Lemma useConfiguration_face c s : face (useConfigurationLocked c s) = face s.
Proof.
  unfold useConfigurationLocked. case_bool_decide as Hr; [done|]. clear Hr. unfold face. simpl.
  match goal with |- context [foldl ?f ?a c] => assert (face (foldl f a c) = face a) as Hf end.
  { generalize (set_peers c s). induction c as [|p c IH]; intros s'; simpl; [done|].
    rewrite IH. by destruct (nextIndex s' !! p). }
  exact Hf.
Qed.

Lemma adopt_face s : face (adoptConfigFromLogLocked s) = face s.
Proof.
  unfold adoptConfigFromLogLocked. generalize (reverse (tail (log s))). intros es. revert s.
  induction es as [|e es IH]; intros s; simpl; [done|]. destruct (negb _); [apply IH|].
  destruct (decodeConfig _) as [err|c]; [by rewrite IH|]. apply (useConfiguration_face c s).
Qed.

Lemma apply_loop_face n s s' d : apply_loop n s = Ok (s', d) → face s' = face s.
Proof.
  revert s. induction n as [|n IH]; intros s; simpl; [by intros [= <- _]|].
  destruct (negb _); [by intros [= <- _]|]. destruct (entryAt _ _) as [e|]; [|by intros [= <- _]].
  destruct (apply_entry e _) as [m|]; [|done]. by intros ->%IH.
Qed.

Lemma applyCommitted_face s s' : applyCommitted s = Ok s' → face s' = face s.
Proof.
  unfold applyCommitted. destruct (apply_loop _ s) as [[s1 d]|] eqn:E; simpl; [|done].
  apply apply_loop_face in E. destruct d; intros [= <-]; [|done].
  rewrite <- E. unfold saveApplied. by repeat case_match.
Qed.

(** ** AppendEntries *)

(** A server that has heard from its leader once more. *)
Definition touched (env : Env) s : Server SM St :=
  resetElectionTimerLocked env (set_lastLeaderContact (now env) s).

Lemma heard_face env args s :
  currentTerm s ≤ ae_Term args →
  let s' := (heardFromLeader env args s).1 in
  stopped s' = stopped s ∧ currentTerm s' = ae_Term args ∧ role s' ≠ Candidate ∧
  leaderID s' = ae_LeaderID args ∧ commitIndex s' = commitIndex s ∧ log s' = log s.
Proof.
  intros Hle. unfold heardFromLeader, observeTerm, becomeFollower.
  destruct (Z.ltb_spec (currentTerm s) (ae_Term args)) as [Hlt|Hge]; simpl.
  - destruct (Z.ltb_spec (currentTerm s) (ae_Term args)); [|lia]. by split_and!.
  - replace (currentTerm s) with (ae_Term args) by lia. rewrite Z.eqb_refl, andb_true_r.
    case_bool_decide as Hr; simpl; split_and!; try done; lia.
Qed.

Lemma heard_again env args s :
  currentTerm s = ae_Term args → role s ≠ Candidate → leaderID s = ae_LeaderID args →
  heardFromLeader env args s = (touched env s, false).
Proof.
  intros Ht Hr Hl. unfold heardFromLeader, observeTerm. rewrite Ht, Z.ltb_irrefl.
  rewrite bool_decide_eq_false_2 by done. simpl. unfold touched. rewrite <- Hl. by destruct s.
Qed.

(** The receiver once more, on a server that would accept the sender. *)
Lemma AppendEntries_repeat env args s :
  stopped s = false → currentTerm s = ae_Term args → role s ≠ Candidate → leaderID s = ae_LeaderID args →
  matchesPrevLog (log s) (ae_PrevLogIndex args) (ae_PrevLogTerm args) = false ∨
  appendFrom (ae_PrevLogIndex args) (ae_Entries args) (log s) = (log s, false) ∧
    ae_LeaderCommit args ≤ commitIndex s →
  AppendEntries env args s =
    Ok (touched env s, mkAppendEntriesReply (currentTerm s)
          (matchesPrevLog (log s) (ae_PrevLogIndex args) (ae_PrevLogTerm args))).
Proof.
  intros Hst Ht Hr Hl Hcase. unfold AppendEntries. rewrite Hst, Ht, Z.ltb_irrefl, heard_again by done.
  change (log (touched env s)) with (log s).
  destruct (matchesPrevLog _ _ _); simpl; [|by rewrite <- Ht]. destruct Hcase as [|[Ha Hc]]; [done|].
  rewrite Ha. simpl. rewrite (proj2 (Z.ltb_ge _ _) Hc). simpl. rewrite <- Ht. by destruct s.
Qed.

(** A request that is delivered again right after it was handled, at any later
    time [env'], gets the same reply and changes nothing but the two timers. *)
Lemma AppendEntries_again env env' args s s' reply :
  log_wf (log s) → room (length (ae_Entries args)) (log s) → 0 ≤ ae_PrevLogIndex args →
  ae_LeaderCommit args ≤ ae_PrevLogIndex args + Z.of_nat (length (ae_Entries args)) →
  AppendEntries env args s = Ok (s', reply) →
  AppendEntries env' args s' =
    Ok (if stopped s || (ae_Term args <? currentTerm s) then s' else touched env' s', reply).
Proof.
  intros Hl Hroom Hprev Hlc HA. pose proof HA as HA0. unfold AppendEntries in HA.
  destruct (stopped s) eqn:Est.
  { simplify_eq. unfold AppendEntries. by rewrite Est. }
  destruct (Z.ltb_spec (ae_Term args) (currentTerm s)) as [Hlt|Hge].
  { simplify_eq. unfold AppendEntries. rewrite Est. by destruct (Z.ltb_spec (ae_Term args) (currentTerm s')); [|lia]. }
  destruct (heard_face env args s Hge) as (F1 & F2 & F3 & F4 & F5 & F6).
  destruct (heardFromLeader env args s) as [s1 tc]. simpl in *. rewrite F6 in HA.
  destruct (matchesPrevLog (log s) _ _) eqn:Hm; simpl in HA.
  2:{ destruct (persist_if tc s1) as [s2|] eqn:Ep; simpl in HA; [|done]. injection HA as <- <-.
      pose proof (persist_if_log _ _ _ Ep) as Elog. pose proof (persist_if_face _ _ _ Ep) as Ef.
      injection Ef as G1 G2 G3 G4 G5.
      assert (log s2 = log s) as Es by congruence.
      rewrite (AppendEntries_repeat env' args s2); [|congruence..|left; by rewrite Es]. by rewrite Es, Hm. }
  assert (0 ≤ ae_PrevLogIndex args ≤ lastIndex (log s)) as Hrange
    by (split; [done|by eapply matchesPrevLog_range]).
  destruct (AppendEntries_cases _ _ _ _ _ HA0) as [[Hf _]|(Hs & _ & Hlog)].
  { exfalso. destruct (appendFrom _ _ _), (persist_if _ _) as [s3|]; simpl in HA; [|done].
    destruct (_ <? _); [destruct (applyCommitted _)|]; simpl in HA; by simplify_eq. }
  destruct (appendFrom (ae_PrevLogIndex args) (ae_Entries args) (log s)) as [l c] eqn:Eapp. simpl in Hlog.
  match type of HA with context [persist_if _ ?x] => set (s2 := x) in HA end. assert (face s2 = face s1) as F2'.
  { unfold s2. destruct c; [|done]. apply (adopt_face (set_log l s1)). }
  destruct (persist_if _ s2) as [s3|] eqn:Ep; simpl in HA; [|done]. pose proof (persist_if_face _ _ _ Ep) as F3'.
  unfold room in Hroom. pose proof (lastIndex_wf _ Hl). pose proof (length_wf _ Hl).
  rewrite u64_small, Z.min_l in HA by (unfold in_u64; lia).
  assert (reply = mkAppendEntriesReply (currentTerm s') true ∧ ae_LeaderCommit args ≤ commitIndex s' ∧
    stopped s' = stopped s3 ∧ currentTerm s' = currentTerm s3 ∧ role s' = role s3 ∧ leaderID s' = leaderID s3)
    as (Hrep & Hci & G1 & G2 & G3 & G4).
  { destruct (Z.ltb_spec (commitIndex s3) (ae_LeaderCommit args)); simpl in HA.
    - destruct (applyCommitted _) as [s4|] eqn:Ea; simpl in HA; [|done]. injection HA as <- <-.
      apply applyCommitted_face in Ea. injection Ea as ? ? ? ? Hc. simpl in Hc. split_and!; try done. lia.
    - injection HA as <- <-. by split_and!. }
  rewrite F2' in F3'. injection F3' as K1 K2 K3 K4 K5.
  assert (matchesPrevLog (log s') (ae_PrevLogIndex args) (ae_PrevLogTerm args) = true) as Hm'.
  { rewrite <- Hm, Hlog. assert (l = (appendFrom (ae_PrevLogIndex args) (ae_Entries args) (log s)).1) as -> by by rewrite Eapp.
    unfold matchesPrevLog, compactedAway, termAt. rewrite appendFrom_base, appendFrom_before by (done || lia). done. }
  pose proof (appendFrom_again (ae_PrevLogIndex args) (ae_Entries args) (log s) Hl Hroom Hrange) as Hnoop.
  rewrite Eapp in Hnoop. simpl in Hnoop. rewrite <- Hlog in Hnoop.
  rewrite (AppendEntries_repeat env' args s'); [|congruence..|by right]. by rewrite Hm', Hrep.
Qed.

(** ** InstallSnapshot *)

Lemma count_snapshot_face err s : face (count_snapshot_err err s) = face s.
Proof. by destruct err. Qed.

Lemma compact_save_face idx term data s : face (compact_save idx term data s).1 = face s.
Proof. unfold compact_save. by repeat case_match. Qed.

(** The first delivery leaves the sender's term and id, whatever it does. *)
Lemma InstallSnapshot_face env args s :
  currentTerm s ≤ is_Term args →
  let (s', reply) := InstallSnapshot env args s in
  currentTerm s' = is_Term args ∧ leaderID s' = is_LeaderID args ∧ reply = mkInstallSnapshotReply (is_Term args).
Proof.
  intros Hle. unfold InstallSnapshot. destruct (Z.ltb_spec (is_Term args) (currentTerm s)); [lia|]. cbv zeta.
  match goal with |- context [resetElectionTimerLocked env ?x] => set (s1 := resetElectionTimerLocked env x) end.
  assert (currentTerm s1 = is_Term args ∧ leaderID s1 = is_LeaderID args) as [Ht Hid].
  { unfold s1. destruct (Z.ltb_spec (currentTerm s) (is_Term args)); simpl; [done|]. split; [lia|done]. }
  clearbody s1. destruct (_ || _); [by rewrite Ht|]. destruct (sm s1) as [m|]; [|by rewrite Ht].
  destruct sm_Snapshotter as [snapper|]; [|by rewrite Ht].
  destruct (sn_RestoreSnapshot _ _ _) as [m' [err|]]; [simpl; by rewrite Ht|].
  match goal with |- context [compact_save ?i ?t ?d ?x] =>
    pose proof (compact_save_face i t d x) as Hc; destruct (compact_save i t d x) as [s2 err2] end.
  simpl in Hc. assert (currentTerm s2 = is_Term args ∧ leaderID s2 = is_LeaderID args) as [Ht2 Hid2].
  { injection Hc as _ -> _ -> _. destruct (_ <? _); simpl; by rewrite Ht. }
  destruct (persistLocked (count_snapshot_err err2 s2)) as [s3 err3] eqn:Ep.
  assert (face s3 = face s2) as Hp.
  { rewrite <- (count_snapshot_face err2 s2). unfold persistLocked in Ep. repeat case_match; by simplify_eq. }
  pose proof (count_snapshot_face err3 s3) as Hq. rewrite Hp in Hq. injection Hq as _ -> _ -> _. by rewrite Ht2.
Qed.

(** A snapshot that the server now covers is not installed again. *)
Lemma InstallSnapshot_again env env' args s s' reply :
  InstallSnapshot env args s = (s', reply) →
  is_LastIncludedIndex args ≤ baseIndex (log s') ∨ is_LastIncludedIndex args ≤ lastApplied s' →
  InstallSnapshot env' args s' =
    (if is_Term args <? currentTerm s then s' else resetElectionTimerLocked env' s', reply).
Proof.
  intros HI Hcov. destruct (Z.ltb_spec (is_Term args) (currentTerm s)) as [Hlt|Hge].
  { unfold InstallSnapshot in *. destruct (Z.ltb_spec (is_Term args) (currentTerm s)); [|lia].
    injection HI as <- <-. by destruct (Z.ltb_spec (is_Term args) (currentTerm s)); [|lia]. }
  pose proof (InstallSnapshot_face env args s Hge) as Hf. rewrite HI in Hf. destruct Hf as (Ht & Hid & ->).
  unfold InstallSnapshot. rewrite Ht, !Z.ltb_irrefl.
  assert (set_leaderID (is_LeaderID args) s' = s') as -> by (rewrite <- Hid; by destruct s').
  simpl. destruct (Z.leb_spec (is_LastIncludedIndex args) (baseIndex (log s'))); simpl; [by rewrite Ht|].
  destruct (Z.leb_spec (is_LastIncludedIndex args) (lastApplied s')); [by rewrite Ht|lia].
Qed.

(** ** RequestVote *)

(** A vote that was granted stands: asking again changes neither term, vote nor
    log, whether the answer is yes again, no, or a failing disk. *)
Lemma RequestVote_again env env' args s s' :
  RequestVote env args s = Ok (s', mkRequestVoteReply (rv_Term args) true) →
  ∀ s'', (∃ reply, RequestVote env' args s' = Ok (s'', reply)) ∨ RequestVote env' args s' = Panic s'' →
  (currentTerm s'', votedFor s'', log s'', role s'') = (currentTerm s', votedFor s', log s', role s').
Proof.
  intros HR.
  assert (currentTerm s' = rv_Term args ∧ votedFor s' = Some (rv_CandidateID args)) as [Ht Hv].
  { unfold RequestVote in HR. destruct (stopped s); [by injection HR|].
    destruct (Z.ltb_spec (rv_Term args) (currentTerm s)) as [|Hge]; [by injection HR|].
    destruct (leaderIsReachingUs env s); [by injection HR|].
    assert (currentTerm (observeTerm (rv_Term args) s).1 = rv_Term args) as Ho.
    { unfold observeTerm, becomeFollower. destruct (Z.ltb_spec (currentTerm s) (rv_Term args)) as [Hlt|]; simpl; [|lia].
      by destruct (Z.ltb_spec (currentTerm s) (rv_Term args)); [|lia]. }
    destruct (observeTerm (rv_Term args) s) as [s1 tc]. simpl in Ho. destruct (_ || _).
    { destruct (persist_if tc s1); simpl in HR; [by injection HR|done]. }
    unfold mustPersistLocked, persistLocked in HR. simpl in HR.
    destruct (storage s1) as [st|]; [destruct (st_Save _ st) as [st' [err|]]|]; simpl in HR; try done;
      injection HR as <- _; done. }
  unfold RequestVote, observeTerm. intros s''. rewrite Ht, Z.ltb_irrefl. destruct (stopped s').
  { intros [[r [= <- _]]|?]; [by rewrite Ht|done]. }
  destruct (leaderIsReachingUs env' s'); [intros [[r [= <- _]]|?]; [by rewrite Ht|done]|].
  destruct (_ || _); simpl; [intros [[r [= <- _]]|?]; [by rewrite Ht|done]|].
  unfold mustPersistLocked, persistLocked. simpl.
  destruct (storage s') as [st|]; [destruct (st_Save _ st) as [st' [err|]]|]; simpl;
    intros [[r Hr]|Hr]; simplify_eq; simpl; by rewrite Ht, Hv.
Qed.

End Duplicates.
