(* ===== verification/SimNetwork.v ===== *)
(** * The fault-injecting network (src/sim/network.go, network_groups.go, network_snapshot.go)

    An in-memory transport that loses, delays, duplicates and partitions messages.
    Pointers to servers are entries of [n_nodes] and [n_groups].  A generator of
    math/rand is a state and what it draws; nothing is assumed about the numbers. *)

From Stdlib Require Import SpecFloat.
From S2P Require Import Prelude GoLib GoFloat Ring RaftTypes RaftLog RaftServer RaftSnapshot RaftVotes RaftReplication RaftDuplicates.

Local Open Scope Z_scope.

Class Rand (R : Type) := {
  rnd_new : Z → R;
  rnd_Float64 : R → float64 * R;
  rnd_Int63n : Z → R → Z * R
}.

(** hash/fnv's 64-bit FNV-1a. *)
Definition fnv64a (bs : bytes) : Z :=
  foldl (λ h b, u64 (Z.lxor h (byte_Z b) * 1099511628211)) 14695981039346656037 bs.

Section Network.
Context {R Srv : Type} `{Rand R}.

Record Network := mkNetwork {
  n_nodes : gmap NodeID Srv;
  n_groups : gmap ID (gmap NodeID Srv);
  n_crashed : gset NodeID;
  n_partitions : gmap NodeID Z;
  n_dropRate : float64;
  n_duplicateRate : float64;
  n_latencyMin : Z;
  n_latencyMax : Z;
  n_links : gmap string R;
  n_seed : Z;
  n_sent : gmap NodeID Z;
  n_dropped : gmap NodeID Z
}.

Definition fzero : float64 := float_of_int 0.

Definition NewNetwork (seed : Z) : Network := mkNetwork ∅ ∅ ∅ ∅ fzero fzero 0 0 ∅ seed ∅ ∅.

Definition set_nodes (v : gmap NodeID Srv) (n : Network) : Network :=
  mkNetwork v (n_groups n) (n_crashed n) (n_partitions n) (n_dropRate n) (n_duplicateRate n) (n_latencyMin n)
    (n_latencyMax n) (n_links n) (n_seed n) (n_sent n) (n_dropped n).
Definition set_groups (v : gmap ID (gmap NodeID Srv)) (n : Network) : Network :=
  mkNetwork (n_nodes n) v (n_crashed n) (n_partitions n) (n_dropRate n) (n_duplicateRate n) (n_latencyMin n)
    (n_latencyMax n) (n_links n) (n_seed n) (n_sent n) (n_dropped n).
Definition set_crashed (v : gset NodeID) (n : Network) : Network :=
  mkNetwork (n_nodes n) (n_groups n) v (n_partitions n) (n_dropRate n) (n_duplicateRate n) (n_latencyMin n)
    (n_latencyMax n) (n_links n) (n_seed n) (n_sent n) (n_dropped n).
Definition set_partitions (v : gmap NodeID Z) (n : Network) : Network :=
  mkNetwork (n_nodes n) (n_groups n) (n_crashed n) v (n_dropRate n) (n_duplicateRate n) (n_latencyMin n)
    (n_latencyMax n) (n_links n) (n_seed n) (n_sent n) (n_dropped n).
Definition SetDropRate (v : float64) (n : Network) : Network :=
  mkNetwork (n_nodes n) (n_groups n) (n_crashed n) (n_partitions n) v (n_duplicateRate n) (n_latencyMin n)
    (n_latencyMax n) (n_links n) (n_seed n) (n_sent n) (n_dropped n).
Definition SetDuplicateRate (v : float64) (n : Network) : Network :=
  mkNetwork (n_nodes n) (n_groups n) (n_crashed n) (n_partitions n) (n_dropRate n) v (n_latencyMin n)
    (n_latencyMax n) (n_links n) (n_seed n) (n_sent n) (n_dropped n).
Definition SetLatency (lo hi : Z) (n : Network) : Network :=
  mkNetwork (n_nodes n) (n_groups n) (n_crashed n) (n_partitions n) (n_dropRate n) (n_duplicateRate n) lo hi
    (n_links n) (n_seed n) (n_sent n) (n_dropped n).
Definition set_link (key : string) (r : R) (n : Network) : Network :=
  mkNetwork (n_nodes n) (n_groups n) (n_crashed n) (n_partitions n) (n_dropRate n) (n_duplicateRate n) (n_latencyMin n)
    (n_latencyMax n) (<[key:=r]> (n_links n)) (n_seed n) (n_sent n) (n_dropped n).
Definition count_sent (from : NodeID) (n : Network) : Network :=
  mkNetwork (n_nodes n) (n_groups n) (n_crashed n) (n_partitions n) (n_dropRate n) (n_duplicateRate n) (n_latencyMin n)
    (n_latencyMax n) (n_links n) (n_seed n) (<[from:=i64 (default 0 (n_sent n !! from) + 1)]> (n_sent n)) (n_dropped n).
Definition count_dropped (from : NodeID) (n : Network) : Network :=
  mkNetwork (n_nodes n) (n_groups n) (n_crashed n) (n_partitions n) (n_dropRate n) (n_duplicateRate n) (n_latencyMin n)
    (n_latencyMax n) (n_links n) (n_seed n) (n_sent n)
    (<[from:=i64 (default 0 (n_dropped n !! from) + 1)]> (n_dropped n)).

Definition Register (id : NodeID) (s : Srv) (n : Network) : Network :=
  set_partitions (<[id:=0]> (n_partitions n)) (set_nodes (<[id:=s]> (n_nodes n)) n).

Definition RegisterGroup (sid : ID) (id : NodeID) (s : Srv) (n : Network) : Network :=
  set_partitions (<[id:=0]> (n_partitions n))
    (set_groups (<[sid:=<[id:=s]> (default ∅ (n_groups n !! sid))]> (n_groups n)) n).

(** ** Chaos controls *)

Definition Crash (id : NodeID) (n : Network) : Network := set_crashed ({[id]} ∪ n_crashed n) n.

Definition Net_Restore (id : NodeID) (n : Network) : Network :=
  set_partitions (<[id:=0]> (n_partitions n)) (set_crashed (n_crashed n ∖ {[id]}) n).

Definition assign (gi : Z) (ids : list NodeID) (ps : gmap NodeID Z) : gmap NodeID Z :=
  foldl (λ ps id, <[id:=gi]> ps) ps ids.

Fixpoint partition_loop (gi : Z) (groups : list (list NodeID)) (ps : gmap NodeID Z) : gmap NodeID Z :=
  match groups with
  | [] => ps
  | g :: groups => partition_loop (gi + 1) groups (assign gi g ps)
  end.

Definition Partition (groups : list (list NodeID)) (n : Network) : Network :=
  set_partitions (partition_loop 0 groups (n_partitions n)) n.

Definition Heal (n : Network) : Network := set_partitions ((λ _, 0) <$> n_partitions n) n.

Definition Stats (n : Network) : gmap NodeID Z * gmap NodeID Z := (n_sent n, n_dropped n).

(** ** Delivery *)

Definition link_key (from to : NodeID) : string := from +:+ "->" +:+ to.

Definition linkRand (key : string) (n : Network) : R :=
  match n_links n !! key with
  | Some r => r
  | None => rnd_new (Z.lxor (n_seed n) (i64 (fnv64a (str_bytes key))))
  end.

(** [p > 0 && rnd.Float64() < p] *)
Definition chance (p : float64) (r : R) : bool * R :=
  if flt fzero p then let (x, r) := rnd_Float64 r in (flt x p, r) else (false, r).

Definition draw_delay (n : Network) (r : R) : Z * R :=
  if 0 <? n_latencyMax n then
    let span := i64 (n_latencyMax n - n_latencyMin n) in
    if 0 <? span then let (d, r) := rnd_Int63n span r in (i64 (n_latencyMin n + d), r) else (n_latencyMin n, r)
  else (0, r).

(** The server, whether to deliver twice, and the delay; [None] when the message is lost. *)
Definition deliverable (from to : NodeID) (n : Network) : Network * option (option Srv * bool * Z) :=
  let n := count_sent from n in
  if bool_decide (from ∈ n_crashed n) || bool_decide (to ∈ n_crashed n) then (count_dropped from n, None)
  else if negb (default 0 (n_partitions n !! from) =? default 0 (n_partitions n !! to))
  then (count_dropped from n, None)
  else
    let key := link_key from to in
    let (lost, r) := chance (n_dropRate n) (linkRand key n) in
    let n := set_link key r n in
    if (lost : bool) then (count_dropped from n, None)
    else
      let target := n_nodes n !! to in
      if bool_decide (target = None) && bool_decide (n_groups n = ∅) then (n, None)
      else if bool_decide (target = None) && bool_decide (n_partitions n !! to = None) then (n, None)
      else
        let (dup, r) := chance (n_duplicateRate n) r in
        let (delay, r) := draw_delay n r in
        (set_link key r n, Some (target, dup, delay)).

(** [groupTransport.target] *)
Definition group_target (sid : ID) (from to : NodeID) (n : Network) : Network * option (Srv * bool * Z) :=
  match deliverable from to n with
  | (n, None) => (n, None)
  | (n, Some (_, dup, delay)) =>
      match default ∅ (n_groups n !! sid) !! to with
      | None => (n, None)
      | Some srv => (n, Some (srv, dup, delay))
      end
  end.

(** ** Reproducibility *)

(** What the fate of a message on link [key] depends on. *)
Definition link_view (key : string) (n : Network) :=
  (n_nodes n, n_groups n, n_crashed n, n_partitions n, (n_dropRate n, n_duplicateRate n, n_latencyMin n, n_latencyMax n),
   linkRand key n).

(** A traffic history: the messages sent, and their fates. *)
Fixpoint traffic (msgs : list (NodeID * NodeID)) (n : Network) : list (string * option (option Srv * bool * Z)) :=
  match msgs with
  | [] => []
  | (from, to) :: msgs => let (n', f) := deliverable from to n in (link_key from to, f) :: traffic msgs n'
  end.

Definition on_link {A} (key : string) (l : list (string * A)) : list A := (filter (λ x, x.1 = key) l).*2.

Definition msgs_on (key : string) (msgs : list (NodeID * NodeID)) : list (NodeID * NodeID) :=
  filter (λ m, link_key m.1 m.2 = key) msgs.

Lemma linkRand_set key key' r n :
  linkRand key (set_link key' r n) = if bool_decide (key' = key) then r else linkRand key n.
Proof.
  unfold linkRand. simpl. case_bool_decide as E; [subst; by rewrite lookup_insert_eq|by rewrite lookup_insert_ne].
Qed.

(** The fate is a function of the view, and so is the view afterwards. *)
Lemma deliverable_view key from to n1 n2 :
  link_key from to = key → link_view key n1 = link_view key n2 →
  (deliverable from to n1).2 = (deliverable from to n2).2 ∧
  link_view key (deliverable from to n1).1 = link_view key (deliverable from to n2).1.
Proof.
  intros Hk Hv. pose proof Hv as Hv0. injection Hv as E1 E2 E3 E4 E5 E6 E7 E8 E9. unfold deliverable. rewrite Hk.
  cbn [count_sent n_crashed n_partitions n_dropRate n_nodes n_groups].
  change (linkRand key (count_sent from n1)) with (linkRand key n1).
  change (linkRand key (count_sent from n2)) with (linkRand key n2).
  rewrite <- E3, <- E4, <- E5, <- E9.
  destruct (_ || _); [split; [done|exact Hv0]|]. destruct (negb _); [split; [done|exact Hv0]|].
  destruct (chance (n_dropRate n1) (linkRand key n1)) as [lost r].
  assert (∀ r' (m1 m2 : Network), n_nodes m1 = n_nodes m2 → n_groups m1 = n_groups m2 → n_crashed m1 = n_crashed m2 →
    n_partitions m1 = n_partitions m2 → n_dropRate m1 = n_dropRate m2 → n_duplicateRate m1 = n_duplicateRate m2 →
    n_latencyMin m1 = n_latencyMin m2 → n_latencyMax m1 = n_latencyMax m2 →
    link_view key (set_link key r' m1) = link_view key (set_link key r' m2)) as Hset.
  { intros r' m1 m2 F1 F2 F3 F4 F5 F6 F7 F8. unfold link_view. rewrite !linkRand_set. rewrite !bool_decide_eq_true_2 by done. simpl. by rewrite F1, F2, F3, F4, F5, F6, F7, F8. }
  destruct lost; [split; [done|]; change (link_view key (set_link key r (count_sent from n1)) =
    link_view key (set_link key r (count_sent from n2))); by apply Hset|].
  cbn [set_link n_nodes n_groups n_partitions n_duplicateRate]. simpl. rewrite <- E1, <- E2, <- E4, <- E6.
  destruct (_ && _); [split; [done|by apply Hset]|]. destruct (_ && _); [split; [done|by apply Hset]|].
  destruct (chance (n_duplicateRate n1) r) as [dup r'].
  assert (draw_delay (set_link key r (count_sent from n2)) r' = draw_delay (set_link key r (count_sent from n1)) r')
    as -> by (unfold draw_delay; simpl; by rewrite E7, E8).
  destruct (draw_delay _ r') as [delay r'']. split; [done|by apply Hset].
Qed.

Lemma deliverable_other key from to n :
  link_key from to ≠ key → link_view key (deliverable from to n).1 = link_view key n.
Proof.
  intros Hk. unfold deliverable.
  assert (∀ r m, link_view key m = link_view key n → link_view key (set_link (link_key from to) r m) = link_view key n)
    as Hset.
  { intros r m Hm. rewrite <- Hm. unfold link_view. rewrite linkRand_set. simpl. by rewrite bool_decide_eq_false_2. }
  destruct (_ || _); [done|]. destruct (negb _); [done|].
  destruct (chance _ _) as [lost r]. destruct lost; [by apply (Hset r (count_sent from n))|].
  destruct (_ && _); [by apply Hset|]. destruct (_ && _); [by apply Hset|].
  destruct (chance _ r) as [dup r']. destruct (draw_delay _ r') as [delay r'']. by apply Hset, Hset.
Qed.

Lemma traffic_alone key msgs n1 n2 :
  link_view key n1 = link_view key n2 →
  on_link key (traffic msgs n1) = on_link key (traffic (msgs_on key msgs) n2).
Proof.
  revert n1 n2. induction msgs as [|[from to] msgs IH]; intros n1 n2 Hv; [done|]. simpl.
  unfold msgs_on. rewrite filter_cons. simpl. destruct (decide (link_key from to = key)) as [E|E].
  - simpl. destruct (deliverable_view key from to n1 n2 E Hv) as [Hf Hv'].
    destruct (deliverable from to n1) as [n1' f1], (deliverable from to n2) as [n2' f2]. simpl in *. subst f2.
    unfold on_link. rewrite !filter_cons_True by done. simpl. f_equal. by apply IH.
  - pose proof (deliverable_other key from to n1 E) as Hv'. destruct (deliverable from to n1) as [n1' f1]. simpl in *.
    unfold on_link. rewrite filter_cons_False by done. apply IH. congruence.
Qed.

(** Faults are reproducible link by link.  Take two networks with the same
    servers, faults and seed, and any traffic on each.  If a link carries the same
    messages in both, in the same order, then the same ones are lost, delivered
    twice and delayed by the same amounts, whatever the other links carry and
    however the senders interleave; for fresh networks this depends on the seed
    alone. *)
Theorem link_reproducible key msgs1 msgs2 n1 n2 :
  link_view key n1 = link_view key n2 → msgs_on key msgs1 = msgs_on key msgs2 →
  on_link key (traffic msgs1 n1) = on_link key (traffic msgs2 n2).
Proof.
  intros Hv Hm. rewrite (traffic_alone key msgs1 n1 n2 Hv), Hm. symmetry. by apply traffic_alone.
Qed.

End Network.
Arguments Network : clear implicits.

(** ** Partitions *)

Lemma assign_lookup gi ids ps x :
  assign gi ids ps !! x = if bool_decide (x ∈ ids) then Some gi else ps !! x.
Proof.
  unfold assign. revert ps. induction ids as [|y ids IH]; intros ps; cbn [foldl].
  { by rewrite bool_decide_eq_false_2 by apply not_elem_of_nil. }
  rewrite IH. destruct (decide (x ∈ ids)) as [Hx|Hx].
  - by rewrite !bool_decide_eq_true_2 by (done || by apply elem_of_cons; right).
  - rewrite (bool_decide_eq_false_2 (x ∈ ids)) by done. destruct (decide (x = y)) as [->|Hxy].
    + rewrite bool_decide_eq_true_2 by (apply elem_of_cons; by left). by rewrite lookup_insert_eq.
    + rewrite bool_decide_eq_false_2 by (intros [?|?]%elem_of_cons; done). by rewrite lookup_insert_ne.
Qed.

Lemma partition_other gi groups ps x : x ∉ concat groups → partition_loop gi groups ps !! x = ps !! x.
Proof.
  revert gi ps. induction groups as [|g groups IH]; intros gi ps Hx; simpl; [done|]. simpl in Hx.
  apply not_elem_of_app in Hx as [Hg Hx]. rewrite IH by done. rewrite assign_lookup. by rewrite bool_decide_eq_false_2.
Qed.

Lemma partition_lookup gi groups ps k g x :
  NoDup (concat groups) → groups !! k = Some g → x ∈ g →
  partition_loop gi groups ps !! x = Some (gi + Z.of_nat k).
Proof.
  revert gi ps k. induction groups as [|h groups IH]; intros gi ps k Hnd Hk Hx; [done|]. simpl in *.
  apply NoDup_app in Hnd as (_ & Hdis & Hnd). destruct k as [|k]; simpl in Hk.
  - injection Hk as ->. rewrite partition_other by (by apply Hdis). rewrite assign_lookup, bool_decide_eq_true_2 by done.
    f_equal. lia.
  - rewrite (IH (gi + 1) _ k) by done. f_equal. lia.
Qed.

Section Isolation.
Context {R Srv : Type} `{Rand R}.
Implicit Type n : Network R Srv.

(** A partition cuts both ways and heals.  When the sides of a split name every
    machine at most once, nothing is delivered between machines of different sides,
    in either direction and for any group they host: the message is counted as sent
    and dropped and draws no randomness.  After [Heal], machines that are up, on a
    network that loses nothing, reach every registered server again. *)
Theorem Partition_isolates groups n from to i j gi gj :
  NoDup (concat groups) → groups !! i = Some gi → groups !! j = Some gj → from ∈ gi → to ∈ gj → i ≠ j →
  let p := Partition groups n in
  deliverable from to p = (count_dropped from (count_sent from p), None) ∧
  deliverable to from p = (count_dropped to (count_sent to p), None) ∧
  (∀ sid, group_target sid from to p = (count_dropped from (count_sent from p), None)) ∧
  (∀ s, from ∉ n_crashed n → to ∉ n_crashed n → flt fzero (n_dropRate n) = false → n_nodes n !! to = Some s →
     ∃ n' dup delay, deliverable from to (Heal p) = (n', Some (Some s, dup, delay))).
Proof.
  intros Hnd Hi Hj Hfrom Hto Hne p.
  assert (n_partitions p !! from = Some (Z.of_nat i)) as Ef by (apply (partition_lookup 0 groups _ i gi); done).
  assert (n_partitions p !! to = Some (Z.of_nat j)) as Et by (apply (partition_lookup 0 groups _ j gj); done).
  assert (deliverable from to p = (count_dropped from (count_sent from p), None)) as Hd.
  { unfold deliverable. destruct (_ || _); [done|]. cbn [count_sent n_partitions]. rewrite Ef, Et. simpl.
    destruct (Z.eqb_spec (Z.of_nat i) (Z.of_nat j)); [lia|done]. }
  split; [done|]. split; [|split].
  - unfold deliverable. destruct (_ || _); [done|]. cbn [count_sent n_partitions]. rewrite Ef, Et. simpl.
    destruct (Z.eqb_spec (Z.of_nat j) (Z.of_nat i)); [lia|done].
  - intros sid. unfold group_target. by rewrite Hd.
  - intros s Hcf Hct Hdrop Hs. unfold deliverable. cbn [count_sent Heal set_partitions Partition n_crashed n_partitions p].
    rewrite !bool_decide_eq_false_2 by done. cbn [orb].
    assert (∀ x, default 0 (((λ _ : Z, 0) <$> n_partitions p) !! x) = 0) as H0.
    { intros x. rewrite lookup_fmap. by destruct (n_partitions p !! x). }
    unfold p in H0. cbn [Partition set_partitions n_partitions] in H0. rewrite !H0. cbn [Z.eqb negb].
    assert (∀ r : R, chance (n_dropRate n) r = (false, r)) as Hch by (intros r; unfold chance; by rewrite Hdrop).
    change (n_dropRate (count_sent from (Heal p))) with (n_dropRate n). rewrite Hch.
    match goal with |- context [n_nodes ?x !! to] => change (n_nodes x) with (n_nodes n) end. rewrite Hs. simpl.
    destruct (chance _ _) as [dup r]. destruct (draw_delay _ r) as [delay r']. by eexists _, _, _.
Qed.

End Isolation.

(** ** Sending

    [env] is the time of the first delivery and [env'] of the second.  [None] is a
    panic: of the handler (its storage failed), or of a nil server, which a plain
    network has when servers are only registered by group. *)

Section Sending.
Context {R SM St : Type} `{Rand R} `{StateMachine SM} `{Storage St}.
Implicit Type n : Network R (Server SM St).

Definition ErrUnreachable : string := "raft: peer unreachable".

(** The handler, and once more when the network duplicates: the second reply is
    thrown away. *)
Definition deliver {A} (handler : Env → Server SM St → outcome SM St (Server SM St * A)) (env env' : Env)
    (dup : bool) (s : Server SM St) : option (Server SM St * A) :=
  match handler env s with
  | Panic _ => None
  | Ok (s, reply) =>
      if dup then match handler env' s with Ok (s, _) => Some (s, reply) | Panic _ => None end
      else Some (s, reply)
  end.

Definition send {A} (handler : Env → Server SM St → outcome SM St (Server SM St * A)) (env env' : Env)
    (from to : NodeID) n : option (Network R (Server SM St) * (string + A)) :=
  match deliverable from to n with
  | (n, None) => Some (n, inl ErrUnreachable)
  | (n, Some (None, _, _)) => None
  | (n, Some (Some s, dup, _)) =>
      '(s, reply) ← deliver handler env env' dup s;
      Some (set_nodes (<[to:=s]> (n_nodes n)) n, inr reply)
  end.

Definition SendAppendEntries (env env' : Env) (to : NodeID) (args : AppendEntriesArgs) n :=
  send (λ env, AppendEntries env args) env env' (ae_LeaderID args) to n.

Definition SendRequestVote (env env' : Env) (to : NodeID) (args : RequestVoteArgs) n :=
  send (λ env, RequestVote env args) env env' (rv_CandidateID args) to n.

Definition SendInstallSnapshot (env env' : Env) (to : NodeID) (args : InstallSnapshotArgs) n :=
  send (λ env s, Ok (InstallSnapshot env args s)) env env' (is_LeaderID args) to n.

(** The same over [groupTransport]. *)
Definition group_send {A} (handler : Env → Server SM St → outcome SM St (Server SM St * A)) (env env' : Env)
    (sid : ID) (from to : NodeID) n : option (Network R (Server SM St) * (string + A)) :=
  match group_target sid from to n with
  | (n, None) => Some (n, inl ErrUnreachable)
  | (n, Some (s, dup, _)) =>
      '(s, reply) ← deliver handler env env' dup s;
      Some (set_groups (<[sid:=<[to:=s]> (default ∅ (n_groups n !! sid))]> (n_groups n)) n, inr reply)
  end.

Definition group_SendAppendEntries (env env' : Env) (sid : ID) (to : NodeID) (args : AppendEntriesArgs) n :=
  group_send (λ env, AppendEntries env args) env env' sid (ae_LeaderID args) to n.

Definition group_SendRequestVote (env env' : Env) (sid : ID) (to : NodeID) (args : RequestVoteArgs) n :=
  group_send (λ env, RequestVote env args) env env' sid (rv_CandidateID args) to n.

Definition group_SendInstallSnapshot (env env' : Env) (sid : ID) (to : NodeID) (args : InstallSnapshotArgs) n :=
  group_send (λ env s, Ok (InstallSnapshot env args s)) env env' sid (is_LeaderID args) to n.

(** Duplicated replication is harmless.  When the network delivers an
    AppendEntries of a leader (one whose commit index its entries reach) twice, the
    sender gets the first reply, and the receiver ends in the state that one
    delivery leaves, up to the time it last heard from a leader and its election
    deadline.  The same holds for a snapshot the receiver covers afterwards, and a
    granted vote is neither changed nor given to anybody else. *)
Theorem duplicate_delivery env env' (s : Server SM St) :
  (∀ args s' reply, log_wf (log s) → room (length (ae_Entries args)) (log s) → 0 ≤ ae_PrevLogIndex args →
     ae_LeaderCommit args ≤ ae_PrevLogIndex args + Z.of_nat (length (ae_Entries args)) →
     deliver (λ env, AppendEntries env args) env env' false s = Some (s', reply) →
     ∃ c d, deliver (λ env, AppendEntries env args) env env' true s =
       Some (set_electionDeadline d (set_lastLeaderContact c s'), reply)) ∧
  (∀ args s' reply,
     deliver (λ env s, Ok (InstallSnapshot env args s)) env env' false s = Some (s', reply) →
     is_LastIncludedIndex args ≤ baseIndex (log s') ∨ is_LastIncludedIndex args ≤ lastApplied s' →
     ∃ d, deliver (λ env s, Ok (InstallSnapshot env args s)) env env' true s = Some (set_electionDeadline d s', reply)) ∧
  (∀ args s1 s2 r2,
     deliver (λ env, RequestVote env args) env env' false s = Some (s1, mkRequestVoteReply (rv_Term args) true) →
     deliver (λ env, RequestVote env args) env env' true s = Some (s2, r2) →
     r2 = mkRequestVoteReply (rv_Term args) true ∧
     (currentTerm s2, votedFor s2, log s2, role s2) = (currentTerm s1, votedFor s1, log s1, role s1)).
Proof.
  unfold deliver. split; [|split].
  - intros args s' reply Hl Hr Hp Hc E. destruct (AppendEntries env args s) as [[s1 r1]|] eqn:HA; [|done].
    injection E as <- <-. rewrite (AppendEntries_again env env' args s s1 r1 Hl Hr Hp Hc HA).
    destruct (_ || _); [exists (lastLeaderContact s1), (electionDeadline s1)|eexists _, _; reflexivity].
    do 2 f_equal. by destruct s1.
  - intros args s' reply E Hcov. destruct (InstallSnapshot env args s) as [s1 r1] eqn:HI.
    injection E as <- <-. rewrite (InstallSnapshot_again env env' args s s1 r1 HI Hcov).
    destruct (_ <? _); [exists (electionDeadline s1)|eexists; reflexivity]. do 2 f_equal. by destruct s1.
  - intros args s1 s2 r2 E1 E2. destruct (RequestVote env args s) as [[s0 r0]|] eqn:HR; [|done].
    injection E1 as -> ->. destruct (RequestVote env' args s1) as [[s3 r3]|] eqn:HR2; [|done].
    injection E2 as <- <-. split; [done|]. eapply RequestVote_again; [exact HR|]. left. by eexists.
Qed.

End Sending.
