(* ===== verification/RaftRestart.v ===== *)
(** * Raft: compaction and restart

    Discarding a log prefix keeps the rest of the log, and a restart rebuilds
    the state machine from the snapshot and the entries after it, at whatever
    point of a compaction the server went down. *)

From S2P Require Import Prelude GoLib RaftTypes RaftLog RaftCodec RaftServer RaftLoop RaftSnapshot RaftVotes RaftNode RaftReplication RaftCommit.

Local Open Scope Z_scope.

(** ** discardThrough *)

Lemma discardThrough_base idx term l : baseIndex (discardThrough idx term l) = idx.
Proof. done. Qed.

Lemma discardThrough_length idx term l :
  log_wf l → baseIndex l ≤ idx ≤ lastIndex l →
  Z.of_nat (length (discardThrough idx term l)) = lastIndex l - idx + 1.
Proof.
  intros Hl Hi. unfold discardThrough. cbn [length]. rewrite length_drop, slot_wf by (done || lia).
  pose proof (lastIndex_wf l Hl). lia.
Qed.

Lemma discardThrough_wf idx term l :
  log_wf l → baseIndex l ≤ idx ≤ lastIndex l → log_wf (discardThrough idx term l).
Proof.
  intros Hl Hi. pose proof (discardThrough_length idx term l Hl Hi) as Hlen.
  pose proof (lastIndex_wf l Hl). pose proof (wf_bound l Hl). pose proof (wf_base l Hl).
  split; rewrite ?discardThrough_base; [done|lia| |lia].
  intros [|k] e He; simpl in He; [simplify_eq/=; lia|].
  rewrite lookup_drop, slot_wf in He by (done || lia). rewrite (wf_index l Hl _ _ He). lia.
Qed.

Lemma discardThrough_entry idx term l i :
  log_wf l → baseIndex l ≤ idx ≤ lastIndex l → idx < i →
  entryAt (discardThrough idx term l) i = entryAt l i.
Proof.
  intros Hl Hi Hlt. rewrite entryAt_lookup, discardThrough_base by
    (by apply discardThrough_wf || (rewrite discardThrough_base; lia)).
  rewrite (entryAt_lookup l) by (done || lia). unfold discardThrough.
  destruct (Z.to_nat (i - idx)) as [|k] eqn:Hk; [lia|].
  rewrite lookup_cons. rewrite lookup_drop, slot_wf by (done || lia). f_equal. lia.
Qed.

Lemma discardThrough_last idx term l :
  log_wf l → baseIndex l ≤ idx ≤ lastIndex l → lastIndex (discardThrough idx term l) = lastIndex l.
Proof.
  intros Hl Hi. rewrite lastIndex_wf by (by apply discardThrough_wf).
  rewrite discardThrough_length, discardThrough_base by done. lia.
Qed.

Lemma discardThrough_between idx term l hi :
  log_wf l → baseIndex l ≤ idx ≤ lastIndex l →
  entries_between idx hi (discardThrough idx term l) = entries_between idx hi l.
Proof.
  intros Hl Hi. unfold entries_between. rewrite discardThrough_base.
  replace (Z.to_nat (idx + 1 - idx)) with 1%nat by lia. unfold discardThrough. cbn [drop].
  rewrite drop_0, slot_wf by (done || lia). do 2 f_equal. lia.
Qed.

Section Restart.
Context {SM St : Type} `{StateMachine SM} `{Storage St}.
Implicit Type s : Server SM St.

(** ** Compaction *)

(** Compaction loses nothing.  If [MaybeCompact] reports a snapshot, the
    snapshot it keeps and hands to the storage is the state machine's at
    [lastApplied], with the index and term of that entry; the log is still
    contiguous, its sentinel is that entry, it ends where it ended, and every
    entry after [lastApplied] is still there. *)
Theorem MaybeCompact_keeps threshold s s' err :
  log_wf (log s) → MaybeCompact threshold s = (s', (true, err)) →
  ∃ m snapper data e, sm s = Some m ∧ sm_Snapshotter = Some snapper ∧
    sn_Snapshot snapper m = inr data ∧ entryAt (log s) (lastApplied s) = Some e ∧
    snapshot s' = Some (mkSnapshotState (lastApplied s) (e_Term e) data) ∧
    sm s' = sm s ∧ log_wf (log s') ∧ baseIndex (log s') = lastApplied s ∧
    baseTerm (log s') = e_Term e ∧ lastIndex (log s') = lastIndex (log s) ∧
    ∀ i, lastApplied s < i → entryAt (log s') i = entryAt (log s) i.
Proof.
  intros Hl. unfold MaybeCompact, compact_take.
  destruct (sm s) as [m|] eqn:Em; [|done]. destruct sm_Snapshotter as [snapper|] eqn:Esn; [|done].
  destruct (storage s) as [st|] eqn:Est; [|done]. destruct st_Snapshot as [ops|] eqn:Eop; [|done].
  destruct (_ || _); [done|]. destruct (entryAt (log s) (lastApplied s)) as [e|] eqn:Ee; [|done].
  destruct (sn_Snapshot snapper m) as [|data] eqn:Ed; [done|].
  destruct (entryAt_Some _ _ _ Hl Ee) as [Hrange Hidx]. rewrite Hidx.
  unfold compact_save. rewrite Est, Eop. destruct (ss_SaveSnapshot ops _ _ _ _) as [st' [serr|]]; [done|].
  unfold compact_finish. simpl. destruct (_ || _); [done|]. rewrite Ee. rewrite Z.eqb_refl. simpl.
  intros E. exists m, snapper, data, e.
  match type of E with context [persistLocked ?x] => set (s1 := x) in * end.
  assert (sm (persistLocked s1).1 = sm s1 ∧ log (persistLocked s1).1 = log s1 ∧
    snapshot (persistLocked s1).1 = snapshot s1) as (F1 & F2 & F3).
  { unfold persistLocked. by repeat case_match. }
  destruct (persistLocked s1) as [s2 perr]. simpl in *. injection E as <- _.
  rewrite F1, F2, F3. split_and!; try done.
  - by apply discardThrough_wf.
  - by apply discardThrough_last.
  - intros i Hi. by apply discardThrough_entry.
Qed.

(** ** Restart *)

Lemma replay_loop_spec n lo hi s m :
  log_wf (log s) → n = Z.to_nat (hi - lo) → baseIndex (log s) ≤ lo ≤ hi → hi ≤ lastIndex (log s) →
  apply_all (entries_between lo hi (log s)) (sm s) = Some m →
  replay_loop n (u64 (lo + 1)) s = Ok (inr (set_sm m s)).
Proof.
  revert lo s. induction n as [|n IH]; intros lo s Hl Hn Hlo Hhi Happ.
  { unfold entries_between in Happ. replace (Z.to_nat (hi - lo)) with 0%nat in Happ by lia.
    simpl in *. simplify_eq. by destruct s. }
  pose proof (wf_bound _ Hl). pose proof (wf_base _ Hl). pose proof (lastIndex_wf _ Hl).
  destruct (entryAt_slot (log s) (lo + 1) Hl ltac:(lia)) as [_ [e He]].
  rewrite (entries_between_cons _ _ _ e) in Happ by (done || lia). cbn [apply_all] in Happ.
  cbn [replay_loop]. rewrite (u64_small (lo + 1)) by (unfold in_u64; lia). rewrite He.
  destruct (apply_entry e (sm s)) as [m1|]; simpl in Happ; [|done].
  rewrite (IH (lo + 1)); [done|done|lia|simpl; lia|done|done].
Qed.

Lemma adopt_keeps s :
  sm (adoptConfigFromLogLocked s) = sm s ∧ role (adoptConfigFromLogLocked s) = role s.
Proof.
  unfold adoptConfigFromLogLocked. generalize (reverse (tail (log s))). intros es. revert s.
  induction es as [|e es IH]; intros s; simpl; [done|]. destruct (negb _); [apply IH|].
  destruct (decodeConfig _) as [err|c]; [exact (IH (set_lastConfigErr (Some err)
    (set_configErrs (configErrs s + 1) s)))|]. simpl.
  unfold useConfigurationLocked. case_bool_decide; [done|]. simpl.
  apply (foldl_inv (λ s', sm s' = sm s ∧ role s' = role s)); [|done]. intros s' p Hs'. by case_match.
Qed.

(** No command is the empty slice, which the encoding reads back as nil. *)
Definition no_empty_command (l : list LogEntry) : Prop := Forall (λ e, e_Command e ≠ Some []) l.

Lemma norm_id l : no_empty_command l → norm_entry <$> l = l.
Proof.
  induction 1 as [|e l He _ IH]; [done|]. rewrite fmap_cons, IH. f_equal.
  unfold norm_entry. destruct e as [t i [[|]|]]; done.
Qed.

(** The replay of [Restore], from a log whose base the state machine is at. *)
Lemma replay_applied_spec s st aops m' n :
  storage s = Some st → st_Applied = Some aops → as_LoadApplied aops st = inr n →
  is_Some (sm s) → log_wf (log s) → baseIndex (log s) ≤ n ≤ lastIndex (log s) →
  commitIndex s = baseIndex (log s) ∨ commitIndex s = 0 → lastApplied s = commitIndex s →
  apply_all (entries_between (baseIndex (log s)) n (log s)) (sm s) = Some m' →
  ∃ s', replay_applied s = Ok (inr s') ∧ sm s' = m' ∧ lastApplied s' = n ∧ commitIndex s' = n ∧
    log s' = log s ∧ currentTerm s' = currentTerm s ∧ votedFor s' = votedFor s ∧ role s' = role s.
Proof.
  intros Hst Ha Hload [m Hm] Hl Hn Hci Hla Happ. unfold replay_applied. rewrite Hst, Ha, Hm, Hload.
  pose proof (wf_base _ Hl).
  destruct (Z.ltb_spec n (baseIndex (log s))); [lia|].
  destruct (Z.ltb_spec (lastIndex (log s)) n); [lia|].
  rewrite (replay_loop_spec _ _ n s m') by (done || lia). cbn [mbind outcome_bind]. simpl.
  eexists. split; [done|].
  destruct (Z.ltb_spec (commitIndex s) n), (Z.ltb_spec (lastApplied s) n); simpl;
    destruct (Z.ltb_spec (lastApplied s) n); simpl; split_and!; try done; lia.
Qed.

(** The storage a server [s] leaves behind: its persistent state, the applied
    marker, and either no snapshot (nothing was compacted) or one at an index
    that the log still has or starts at. *)
Record left_on_disk s st (aops : AppliedStorage St) (sops : SnapshotStorage St) (idx : Z) (m0 m1 : SM) : Prop := {
  ld_state : st_Load st = inr (encodeState (currentTerm s) (votedFor s) (log s));
  ld_ok : state_ok (currentTerm s) (votedFor s) (log s);
  ld_wf : log_wf (log s);
  ld_commands : no_empty_command (log s);
  ld_applied : as_LoadApplied aops st = inr (lastApplied s);
  ld_range : baseIndex (log s) ≤ idx ≤ lastApplied s ∧ lastApplied s ≤ lastIndex (log s);
  ld_snapshot :
    (ss_LoadSnapshot sops st = inr None ∧ idx = 0 ∧ baseIndex (log s) = 0 ∧ m1 = m0) ∨
    (∃ term data snapper, ss_LoadSnapshot sops st = inr (Some (idx, term, data)) ∧
       termAt (log s) idx = Some term ∧ sm_Snapshotter = Some snapper ∧
       sn_RestoreSnapshot snapper data m0 = (m1, None));
  ld_machine : apply_all (entries_between idx (lastApplied s) (log s)) (Some m1) = Some (sm s)
}.

(** [Restore] on a disk that is in step with a server ([left_on_disk]: its state, its
    applied marker, and no snapshot or one from which the entries of the log lead to
    exactly its state machine) ends without error in the same term with the same vote,
    the state machine [s] had, [lastApplied] and [commitIndex] at what [s] had applied,
    and every log entry above the snapshot.  [RaftSafety.restart_recovers] is about the
    disks that runs leave. *)
Theorem Restore_rebuilds s st aops sops idx m0 m1 me ps tr c :
  st_Applied = Some aops → st_Snapshot = Some sops → left_on_disk s st aops sops idx m0 m1 →
  ∃ s', Restore (SetStorage st (NewServerWith me ps (Some m0) tr c)) = Ok (inr s') ∧
    currentTerm s' = currentTerm s ∧ votedFor s' = votedFor s ∧ sm s' = sm s ∧
    lastApplied s' = lastApplied s ∧ commitIndex s' = lastApplied s ∧ role s' = Follower ∧
    log_wf (log s') ∧ lastIndex (log s') = lastIndex (log s) ∧
    ∀ i, idx < i → entryAt (log s') i = entryAt (log s) i.
Proof.
  intros Ha Hs [Hload Hok Hl Hcmd Happlied Hrange Hsnap Hm].
  unfold Restore. simpl. rewrite Hload. destruct (encodeState _ _ _) as [|b data0] eqn:Ee.
  { by apply encodeState_nonempty in Ee. }
  rewrite <- Ee, decodeState_encode, norm_id by done.
  destruct (Nat.eqb_spec (length (log s)) 0); [pose proof (length_wf _ Hl); lia|].
  match goal with |- context [adoptConfigFromLogLocked ?x] =>
    pose proof (adoptConfig_quiet x) as [(E1 & E2 & E3 & _) _];
    pose proof (adopt_storage x) as Est; pose proof (adopt_keeps x) as [Esm Erole];
    set (s1 := adoptConfigFromLogLocked x) in * end.
  clearbody s1. simpl in *. set (s2 := set_lastApplied 0 (set_commitIndex 0 s1)).
  assert (∃ s3, restore_snapshot s2 = Ok (inr s3) ∧ storage s3 = Some st ∧ sm s3 = Some m1 ∧
    currentTerm s3 = currentTerm s ∧ votedFor s3 = votedFor s ∧ role s3 = Follower ∧
    log_wf (log s3) ∧ baseIndex (log s3) = idx ∧ lastIndex (log s3) = lastIndex (log s) ∧
    commitIndex s3 = idx ∧ lastApplied s3 = idx ∧
    entries_between idx (lastApplied s) (log s3) = entries_between idx (lastApplied s) (log s) ∧
    ∀ i, idx < i → entryAt (log s3) i = entryAt (log s) i)
    as (s3 & -> & F1 & F2 & F3 & F4 & F5 & F6 & F7 & F8 & F9 & F10 & F11 & F12).
  { unfold restore_snapshot. simpl. rewrite Est, Esm, Hs.
    destruct Hsnap as [(-> & -> & Hb & ->)|(term & data & snapper & -> & Ht & -> & ->)].
    { exists s2. simpl. rewrite E3. split_and!; try done; congruence. }
    simpl. rewrite E3. unfold termAt in Ht. destruct (entryAt (log s) idx) as [e|] eqn:Hent; [|done].
    injection Ht as Ht. destruct (Z.ltb_spec (baseIndex (log s)) idx) as [Hlt|Hge].
    - eexists. split; [done|]. simpl. unfold rebase. rewrite Hent, Ht, Z.eqb_refl.
      split_and!; try done; try congruence.
      + apply discardThrough_wf; [done|lia].
      + apply discardThrough_last; [done|lia].
      + apply discardThrough_between; [done|lia].
      + intros i Hi. apply discardThrough_entry; [done|lia|done].
    - eexists. split; [done|]. simpl. rewrite E3. split_and!; try done; try congruence. lia. }
  cbn [mbind outcome_bind]. pose proof (wf_base _ F6).
  destruct (replay_applied_spec s3 st aops (sm s) (lastApplied s)) as (s4 & -> & G1 & G2 & G3 & G4 & G5 & G6 & G7);
    try done.
  { rewrite F7, F8. lia. }
  { left. congruence. }
  { congruence. }
  { by rewrite F7, F11, F2. }
  exists s4. split; [done|]. rewrite G4, G5, G6, G7. by split_and!.
Qed.

End Restart.
