(* ===== verification/RaftElection.v ===== *)
(** * Raft: Election Safety for a cluster

    The cluster is a set of nodes, the replies to RequestVote that have been
    produced (a reply can be lost, delayed or overtaken; it is used at most once
    by the call it answers), the elections that were started and the promotions
    that took effect.  Nodes crash and restart at will.  Arguments of all other
    operations are arbitrary. *)

From S2P Require Import Prelude GoLib RaftTypes RaftLog RaftCodec RaftServer RaftLoop RaftSnapshot RaftVotes RaftNode.

Local Open Scope Z_scope.

(** The operations that are not part of counting an election's votes. *)
Definition plain_op (o : op) : bool :=
  match o with
  | OpRequestVote _ _ | OpStartElection _ | OpVoteReply _ _ | OpBecomeLeader _ => false
  | _ => true
  end.

(** A vote: the voter, the term, the candidate. *)
Record vote := mkVote { v_voter : NodeID; v_term : Z; v_for : NodeID }.

(** A promotion: the term, the leader and the configuration its votes were
    counted under. *)
Record promotion := mkPromotion { p_term : Z; p_leader : NodeID; p_config : Configuration }.

Section Cluster.
Context {SM St : Type} `{StateMachine SM} `{Storage St} {storable : bytes → Prop}.
Context `{!StorageLaws St storable}.

Record cluster := mkCluster {
  c_nodes : gmap NodeID (node (SM := SM) (St := St));
  c_votes : list vote;
  c_replies : list (NodeID * RequestVoteArgs * RequestVoteReply);
  c_elections : list Election;
  c_promotions : list promotion
}.

Definition set_node (me : NodeID) (n : node) (c : cluster) : cluster :=
  mkCluster (<[me:=n]> (c_nodes c)) (c_votes c) (c_replies c) (c_elections c) (c_promotions c).
Definition add_vote (v : vote) (c : cluster) : cluster :=
  mkCluster (c_nodes c) (v :: c_votes c) (c_replies c) (c_elections c) (c_promotions c).
Definition add_reply (p : NodeID) (args : RequestVoteArgs) (r : RequestVoteReply) (c : cluster) : cluster :=
  mkCluster (c_nodes c) (c_votes c) ((p, args, r) :: c_replies c) (c_elections c) (c_promotions c).
Definition set_elections (es : list Election) (c : cluster) : cluster :=
  mkCluster (c_nodes c) (c_votes c) (c_replies c) es (c_promotions c).
Definition add_promotion (p : promotion) (c : cluster) : cluster :=
  mkCluster (c_nodes c) (c_votes c) (c_replies c) (c_elections c) (p :: c_promotions c).

(** The election after the reply of [peer]: [ok] if its vote is to be counted. *)
Definition replied (peer : NodeID) (ok : bool) (el : Election) : Election :=
  mkElection (el_args el) (el_needed el) (el_config el) (filter (λ p, p ≠ peer) (el_pending el))
    (if ok then peer :: el_granted el else el_granted el) (el_counted el) (el_votes el) (el_resolved el).

(** A tally that has reached the majority: [becomeLeader] is called. *)
Definition decided (el : Election) : Prop := (el_needed el ≤ el_votes el)%nat.

Definition candidate (el : Election) : NodeID := rv_CandidateID (el_args el).
Definition term_of (el : Election) : Z := rv_Term (el_args el).

Inductive cstep (c : cluster) : cluster → Prop :=
  | cstep_plain me o s s' vs :
      c_nodes c !! me = Some (Up s) → plain_op o = true → exec o s = Ok (s', vs) →
      persistable (storable := storable) s' → cstep c (set_node me (Up s') c)
  | cstep_panic me o s s' :
      c_nodes c !! me = Some (Up s) → op_ok o s → exec o s = Panic s' →
      persistable (storable := storable) s' →
      cstep c (set_node me (Down me (storage s')) c)
  | cstep_crash me s :
      c_nodes c !! me = Some (Up s) → cstep c (set_node me (Down me (storage s)) c)
  | cstep_restart me st ps m tr cf s :
      c_nodes c !! me = Some (Down me (Some st)) →
      Restore (SetStorage st (NewServerWith me ps m tr cf)) = Ok (inr s) →
      cstep c (set_node me (Up s) c)
  | cstep_vote me env args s s' reply :
      c_nodes c !! me = Some (Up s) → RequestVote env args s = Ok (s', reply) →
      persistable (storable := storable) s' →
      let c' := add_reply me args reply (set_node me (Up s') c) in
      cstep c (if rvr_VoteGranted reply
               then add_vote (mkVote me (rv_Term args) (rv_CandidateID args)) c' else c')
  | cstep_elect me env s s' el won :
      c_nodes c !! me = Some (Up s) → currentTerm s < 2 ^ 64 - 1 →
      startElection env s = Ok (s', el, won) → persistable (storable := storable) s' →
      cstep c (set_elections (el :: c_elections c)
                 (add_vote (mkVote me (currentTerm s') me) (set_node me (Up s') c)))
  | cstep_reply pre el post peer reply s s' ok :
      c_elections c = pre ++ el :: post → peer ∈ el_pending el →
      (peer, el_args el, reply) ∈ c_replies c →
      c_nodes c !! candidate el = Some (Up s) →
      vote_reply (term_of el) reply s = Ok (s', ok) → persistable (storable := storable) s' →
      cstep c (set_elections (pre ++ replied peer ok el :: post)
                 (set_node (candidate el) (Up s') c))
  | cstep_tally pre el post peer :
      c_elections c = pre ++ el :: post → peer ∈ el_granted el →
      cstep c (set_elections (pre ++ (tally peer el).1 :: post) c)
  | cstep_lead el s s' :
      el ∈ c_elections c → decided el → c_nodes c !! candidate el = Some (Up s) →
      role s = Candidate → currentTerm s = term_of el →
      becomeLeader (term_of el) s = Ok s' → persistable (storable := storable) s' →
      cstep c (add_promotion (mkPromotion (term_of el) (candidate el) (el_config el))
                 (set_node (candidate el) (Up s') c)).

(** A cluster that has not started: every node is fresh, on empty storage. *)
Definition initial (c : cluster) : Prop :=
  c_votes c = [] ∧ c_replies c = [] ∧ c_elections c = [] ∧ c_promotions c = [] ∧
  ∀ me n, c_nodes c !! me = Some n →
    ∃ ps m tr cf st, n = Up (SetStorage st (NewServerWith me ps m tr cf)) ∧ st_Load st = inr [].

(** ** Invariant *)

Definition votes_of (c : cluster) (me : NodeID) : list (Z * NodeID) :=
  omap (λ v, if decide (v_voter v = me) then Some (v_term v, v_for v) else None) (c_votes c).

(** An election's tally: the peers counted or about to be are distinct members
    of the configuration, other than the candidate, and voted for it. *)
Record election_ok (c : cluster) (el : Election) : Prop := {
  eo_self : mkVote (candidate el) (term_of el) (candidate el) ∈ c_votes c;
  eo_needed : el_needed el = Majority (el_config el);
  eo_nodup : NoDup (el_config el) →
    NoDup (el_pending el ++ el_granted el ++ el_counted el);
  eo_members : ∀ p, p ∈ el_pending el ++ el_granted el ++ el_counted el →
    p ∈ el_config el ∧ p ≠ candidate el;
  eo_voted : ∀ p, p ∈ el_granted el ++ el_counted el → mkVote p (term_of el) (candidate el) ∈ c_votes c;
  eo_votes : el_votes el = S (length (el_counted el))
}.

(** A promotion has a quorum of its configuration behind it, if the leader is a
    member of it. *)
Definition promotion_ok (c : cluster) (p : promotion) : Prop :=
  NoDup (p_config p) → p_leader p ∈ p_config p →
  ∃ q, NoDup q ∧ q ⊆ p_config p ∧ (Majority (p_config p) ≤ length q)%nat ∧
    ∀ x, x ∈ q → mkVote x (p_term p) (p_leader p) ∈ c_votes c.

Record cinv (c : cluster) : Prop := {
  ci_nodes : ∀ me n, c_nodes c !! me = Some n → ninv n (votes_of c me) ∧ node_id n = me;
  ci_voters : ∀ v, v ∈ c_votes c → is_Some (c_nodes c !! v_voter v);
  ci_replies : ∀ p args r, (p, args, r) ∈ c_replies c → rvr_VoteGranted r = true →
    mkVote p (rv_Term args) (rv_CandidateID args) ∈ c_votes c;
  ci_elections : ∀ el, el ∈ c_elections c → election_ok c el;
  ci_promotions : ∀ p, p ∈ c_promotions c → promotion_ok c p;
  ci_leaders : ∀ me s, c_nodes c !! me = Some (Up s) → role s = Leader →
    ∃ cf, mkPromotion (currentTerm s) me cf ∈ c_promotions c
}.

Lemma elem_of_votes_of c me t x : (t, x) ∈ votes_of c me ↔ mkVote me t x ∈ c_votes c.
Proof.
  unfold votes_of. rewrite list_elem_of_omap. split.
  - intros ([v t' x'] & Hv & Hd). simpl in Hd. case_decide; by simplify_eq/=.
  - intros Hv. exists (mkVote me t x). split; [done|]. simpl. by case_decide.
Qed.

(** ** The invariant is kept *)

Lemma election_ok_mono c c' el :
  c_votes c ⊆ c_votes c' → election_ok c el → election_ok c' el.
Proof. intros Hsub [H1 H2 H3 H4 H5 H6]. split; eauto. Qed.

Lemma promotion_ok_mono c c' p :
  c_votes c ⊆ c_votes c' → promotion_ok c p → promotion_ok c' p.
Proof. intros Hsub Hp Hnd Hin. destruct (Hp Hnd Hin) as (q & ? & ? & ? & ?). exists q. eauto 6. Qed.

(** One node takes a step and casts the votes [vs]. *)
Lemma cinv_node c me n n' vs :
  cinv c → c_nodes c !! me = Some n → nstep (storable := storable) n vs n' → node_id n' = me →
  (∀ s', n' = Up s' → role s' = Leader → ∃ cf, mkPromotion (currentTerm s') me cf ∈ c_promotions c) →
  cinv (mkCluster (<[me:=n']> (c_nodes c)) (((λ tx, mkVote me tx.1 tx.2) <$> vs) ++ c_votes c)
          (c_replies c) (c_elections c) (c_promotions c)).
Proof.
  intros [Hn Hv Hr He Hp Hl] Hme Hstep Hid Hlead.
  assert (∀ k : list vote, c_votes c ⊆ k ++ c_votes c) as Hsub.
  { intros k v Hin. apply elem_of_app. by right. }
  split; simpl.
  - intros me' n'' Hlk. destruct (decide (me' = me)) as [->|Hne].
    + rewrite lookup_insert_eq in Hlk. simplify_eq. split; [|done].
      destruct (Hn _ _ Hme) as [Hinv _]. eapply ninv_ext; [|by eapply ninv_step].
      intros [t x] Hin%elem_of_votes_of. simpl in Hin. apply elem_of_app.
      apply elem_of_app in Hin as [([t' x'] & [= -> ->] & Hin)%list_elem_of_fmap|Hin]; [by right|].
      left. by apply elem_of_votes_of.
    + rewrite lookup_insert_ne in Hlk by done. destruct (Hn _ _ Hlk) as [Hinv ?]. split; [|done].
      eapply ninv_ext; [|exact Hinv]. intros [t x] Hin%elem_of_votes_of. simpl in Hin.
      apply elem_of_votes_of. apply elem_of_app in Hin as [(? & [= ? ? ?] & _)%list_elem_of_fmap|Hin]; [|done].
      by subst.
  - intros v [([t x] & -> & _)%list_elem_of_fmap|Hin]%elem_of_app; simpl.
    + rewrite lookup_insert_eq. by eexists.
    + destruct (decide (v_voter v = me)) as [->|]; [rewrite lookup_insert_eq; by eexists|].
      rewrite lookup_insert_ne by done. by apply Hv.
  - intros p args r Hin Hg. apply Hsub. by eapply Hr.
  - intros el Hel. by eapply election_ok_mono; [apply Hsub|apply He].
  - intros p Hpin. by eapply promotion_ok_mono; [apply Hsub|apply Hp].
  - intros me' s Hlk Hrole. destruct (decide (me' = me)) as [->|Hne].
    + rewrite lookup_insert_eq in Hlk. simplify_eq. by apply Hlead.
    + rewrite lookup_insert_ne in Hlk by done. by apply (Hl me').
Qed.

(** The same when the node neither votes nor becomes a leader. *)
Lemma cinv_quiet c me n n' :
  cinv c → c_nodes c !! me = Some n → nstep (storable := storable) n [] n' → node_id n' = me →
  (∀ s', n' = Up s' → role s' = Leader → ∃ cf, mkPromotion (currentTerm s') me cf ∈ c_promotions c) →
  cinv (set_node me n' c).
Proof. intros Hc Hme Hs Hid Hl. by apply (cinv_node c me n n' [] Hc Hme Hs Hid Hl). Qed.

(** An operation other than a promotion leaves at most an old leader. *)
Lemma leader_kept c me s s' o vs :
  cinv c → c_nodes c !! me = Some (Up s) → op_ok o s → exec o s = Ok (s', vs) →
  (∀ t, o ≠ OpBecomeLeader t) →
  id s' = me ∧ (role s' = Leader → ∃ cf, mkPromotion (currentTerm s') me cf ∈ c_promotions c).
Proof.
  intros Hc Hme Hok He Hne. destruct (ci_nodes c Hc _ _ Hme) as [Hinv Hid].
  destruct (exec_self o s s' vs Hok (ninv_term _ _ Hinv) He Hne) as [Hid' Hrole]. simpl in Hid.
  split; [congruence|]. intros [Hr ->]%Hrole. by apply (ci_leaders c Hc me).
Qed.

Lemma cinv_reply c p args r :
  cinv c → (rvr_VoteGranted r = true → mkVote p (rv_Term args) (rv_CandidateID args) ∈ c_votes c) →
  cinv (add_reply p args r c).
Proof.
  intros [Hn Hv Hr He Hp Hl] Hg. split; simpl; try done.
  - intros p' args' r' [[= -> -> ->]|Hin]%elem_of_cons; [done|]. by apply Hr.
  - intros el Hel. eapply election_ok_mono; [|by apply He]. done.
Qed.

Lemma cinv_elections c es :
  cinv c → (∀ el, el ∈ es → election_ok c el) → cinv (set_elections es c).
Proof.
  intros [Hn Hv Hr He Hp Hl] Hes. split; simpl; try done.
  intros el Hel. eapply election_ok_mono; [|by apply Hes]. done.
Qed.

Lemma cinv_promotion c p : cinv c → promotion_ok c p → cinv (add_promotion p c).
Proof.
  intros [Hn Hv Hr He Hp Hl] Hok. split; simpl; try done.
  - intros el Hel. eapply election_ok_mono; [|by apply He]. done.
  - intros q [->|Hq]%elem_of_cons; (eapply promotion_ok_mono; [|by auto]); done.
  - intros me s Hme Hrole. destruct (Hl me s Hme Hrole) as [cf ?]. exists cf. by apply elem_of_cons; right.
Qed.

Lemma election_replaced c pre el el' post :
  cinv c → c_elections c = pre ++ el :: post → election_ok c el' →
  ∀ e, e ∈ pre ++ el' :: post → election_ok c e.
Proof.
  intros Hc Hels Hel' e Hin. rewrite elem_of_app, elem_of_cons in Hin.
  destruct Hin as [Hin|[->|Hin]]; [|done|]; apply (ci_elections c Hc); rewrite Hels, elem_of_app, elem_of_cons; auto.
Qed.

Lemma startElection_election env (s s' : Server SM St) el won :
  startElection env s = Ok (s', el, won) →
  el_args el = mkRequestVote (currentTerm s') (id s') (lastIndex (log s')) (lastTerm (log s')) ∧
  el_needed el = Majority (el_config el) ∧ el_granted el = [] ∧ el_counted el = [] ∧
  el_votes el = 1%nat ∧ (el_pending el = [] ∨ el_pending el = filter (λ p, p ≠ id s') (el_config el)).
Proof.
  unfold startElection. destruct (mustPersistLocked _) as [s2|]; simpl; [|done]. intros [= <- <- _]. simpl.
  split_and!; try done. case_match; auto.
Qed.

Lemma startElection_ok c env (s s' : Server SM St) el won :
  startElection env s = Ok (s', el, won) → mkVote (id s') (currentTerm s') (id s') ∈ c_votes c →
  election_ok c el.
Proof.
  intros (Ea & En & Eg & Ec & Ev & Ep)%startElection_election Hself.
  split; unfold candidate, term_of; rewrite ?Ea, ?Eg, ?Ec, ?app_nil_r; simpl; try done.
  - intros Hnd. destruct Ep as [->| ->]; [constructor|by apply NoDup_filter].
  - intros p Hp. destruct Ep as [Ep|Ep]; rewrite Ep in Hp; [by apply elem_of_nil in Hp|].
    apply list_elem_of_filter in Hp as [? ?]. done.
  - by intros p Hp%elem_of_nil.
Qed.

(** Moving one element from a list to the front of the next keeps them disjoint. *)
Lemma NoDup_move (x : NodeID) l k :
  x ∈ l → NoDup (l ++ k) → NoDup (filter (λ p, p ≠ x) l ++ x :: k).
Proof.
  intros Hx (Hl & Hlk & Hk)%NoDup_app. apply NoDup_app. split; [by apply NoDup_filter|].
  split; [|constructor; auto]. intros y [Hyx Hy]%list_elem_of_filter [->|Hyk]%elem_of_cons; [done|].
  by apply (Hlk y).
Qed.

Lemma replied_ok c el peer ok :
  election_ok c el → peer ∈ el_pending el →
  (ok = true → mkVote peer (term_of el) (candidate el) ∈ c_votes c) →
  election_ok c (replied peer ok el).
Proof.
  intros [Hself Hneed Hnd Hmem Hvote Hn] Hin Hok.
  assert (∀ p, p ∈ filter (λ p, p ≠ peer) (el_pending el) → p ∈ el_pending el) as Hfil.
  { by intros p [_ ?]%list_elem_of_filter. }
  split; unfold candidate, term_of in *; simpl; try done.
  - intros Hcf. specialize (Hnd Hcf). destruct ok; simpl; [by apply NoDup_move|].
    apply NoDup_app in Hnd as (? & Hdis & ?). apply NoDup_app.
    split; [by apply NoDup_filter|]. split; [|done]. intros p Hp. auto.
  - intros p [Hp|Hp]%elem_of_app; apply Hmem, elem_of_app; [left; auto|].
    destruct ok; [|by right]. apply elem_of_cons in Hp as [->|Hp]; auto.
  - intros p Hp. destruct ok; [|by apply Hvote]. simpl in Hp. apply elem_of_cons in Hp as [->|Hp]; auto.
Qed.

Lemma tally_ok c el peer :
  election_ok c el → peer ∈ el_granted el → election_ok c (tally peer el).1.
Proof.
  intros [Hself Hneed Hnd Hmem Hvote Hn] Hin.
  assert (∀ p, p ∈ filter (λ p, p ≠ peer) (el_granted el) ++ peer :: el_counted el →
    p ∈ el_granted el ++ el_counted el) as Hfil.
  { intros p. rewrite !elem_of_app, elem_of_cons, list_elem_of_filter.
    intros [[_ ?]|[->|?]]; auto. }
  split; unfold candidate, term_of in *; simpl; try done.
  - intros Hcf. specialize (Hnd Hcf). apply NoDup_app in Hnd as (Hp & Hdis & Hgc). apply NoDup_app.
    split; [done|]. split; [|by apply NoDup_move]. intros p Hpp Hgr. by apply (Hdis p Hpp), Hfil.
  - intros p [Hp|Hp]%elem_of_app; apply Hmem, elem_of_app; [by left|right; by apply Hfil].
  - intros p Hp. by apply Hvote, Hfil.
  - by rewrite Hn.
Qed.

Lemma decided_promotion c el :
  election_ok c el → decided el → promotion_ok c (mkPromotion (term_of el) (candidate el) (el_config el)).
Proof.
  intros [Hself Hneed Hnd Hmem Hvote Hn] Hdec Hcf Hin. simpl in *. specialize (Hnd Hcf).
  assert (∀ p, p ∈ el_counted el → p ∈ el_pending el ++ el_granted el ++ el_counted el) as Hsub.
  { intros p Hp. rewrite !elem_of_app. auto. }
  exists (candidate el :: el_counted el). split.
  - constructor; [|by apply NoDup_app in Hnd as (_ & _ & (_ & _ & ?)%NoDup_app)].
    intros Hc%Hsub%Hmem. by destruct Hc.
  - split; [intros p [->|Hp]%elem_of_cons; [done|by apply Hmem, Hsub]|].
    unfold decided in Hdec. rewrite Hneed, Hn in Hdec. split; [done|].
    intros p [->|Hp]%elem_of_cons; [done|]. apply Hvote, elem_of_app. by right.
Qed.

Lemma plain_silent o (s s' : Server SM St) vs :
  plain_op o = true → exec o s = Ok (s', vs) → vs = [] ∧ op_ok o s ∧ ∀ t, o ≠ OpBecomeLeader t.
Proof.
  intros Hp He. destruct o; try done; simpl in He;
    repeat match type of He with (?o ≫= _) = _ => destruct o as [?|]; simpl in He; try done end;
    repeat case_match; by simplify_eq.
Qed.

Lemma vote_reply_granted term reply (s s' : Server SM St) :
  vote_reply term reply s = Ok (s', true) → rvr_VoteGranted reply = true.
Proof.
  unfold vote_reply. destruct (_ <? _); [by destruct (mustPersistLocked _)|].
  intros [= _ Hok]. apply negb_true_iff, orb_false_iff in Hok as [_ Hok]. by apply negb_false_iff.
Qed.

Lemma cinv_step c c' : cinv c → cstep c c' → cinv c'.
Proof.
  intros Hc Hstep.
  destruct Hstep as [me o s s' vs Hme Hplain He Hp|me o s s' Hme Hok He Hp|me s Hme
    |me st ps m tr cf s Hme Hr|me env args s s' reply Hme Hrv Hp|me env s s' el won Hme Ht Hse Hp
    |pre el post peer reply s s' ok Hels Hpend Hrep Hme Hvr Hp|pre el post peer Hels Hgr
    |el s s' Hel Hdec Hme Hrole Hterm Hbl Hp].
  - destruct (plain_silent o s s' vs Hplain He) as (-> & Hok & Hne).
    destruct (leader_kept c me s s' o [] Hc Hme Hok He Hne) as [Hid Hl].
    apply (cinv_quiet c me (Up s)); [done..|by eapply nstep_op|done|]. by intros ? [= <-].
  - destruct (ci_nodes c Hc _ _ Hme) as [_ Hid]. simpl in Hid.
    apply (cinv_quiet c me (Up s)); [done..| |done|done]. rewrite <- Hid. by eapply nstep_panic.
  - destruct (ci_nodes c Hc _ _ Hme) as [_ Hid]. simpl in Hid.
    apply (cinv_quiet c me (Up s)); [done..| |done|done]. rewrite <- Hid. apply nstep_crash.
  - apply (cinv_quiet c me (Down me (Some st))); [done..|by eapply nstep_restart| |];
      apply Restore_ballot in Hr as (Hid & _ & _ & Hrole); [done|]. by intros ? [= <-].
  - set (o := OpRequestVote env args).
    assert (exec o s = Ok (s', if rvr_VoteGranted reply then cast s' (rv_CandidateID args) else [])) as He
      by (simpl; by rewrite Hrv).
    destruct (leader_kept c me s s' o _ Hc Hme I He ltac:(done)) as [Hid Hl].
    assert (nstep (storable := storable) (Up s)
      (if rvr_VoteGranted reply then cast s' (rv_CandidateID args) else []) (Up s')) as Hn
      by by eapply (nstep_op o).
    pose proof (proj2 (RequestVote_ends (storable := storable) env args s) s' reply Hrv) as Hg.
    pose proof (cinv_node c me (Up s) (Up s') _ Hc Hme Hn Hid ltac:(by intros ? [= <-])) as Hc1.
    destruct (rvr_VoteGranted reply) eqn:G.
    + destruct (Hg eq_refl) as (_ & Ht & _). unfold cast in Hc1. rewrite Ht in Hc1.
      apply (cinv_reply _ me args reply) in Hc1; [exact Hc1|]. intros _. simpl. apply elem_of_cons. by left.
    + apply (cinv_reply _ me args reply) in Hc1; [exact Hc1|]. by rewrite G.
  - set (o := OpStartElection env).
    assert (exec o s = Ok (s', cast s' (id s'))) as He by (simpl; by rewrite Hse).
    destruct (leader_kept c me s s' o _ Hc Hme Ht He ltac:(done)) as [Hid Hl].
    assert (nstep (storable := storable) (Up s) (cast s' (id s')) (Up s')) as Hn by by eapply (nstep_op o).
    pose proof (cinv_node c me (Up s) (Up s') _ Hc Hme Hn Hid ltac:(by intros ? [= <-])) as Hc1.
    unfold cast in Hc1. simpl in Hc1. rewrite Hid in Hc1.
    apply (cinv_elections _ (el :: c_elections c)) in Hc1 as Hc2; [exact Hc2|].
    intros e [->|Hin]%elem_of_cons; [|by apply (ci_elections _ Hc1)].
    eapply startElection_ok; [exact Hse|]. simpl. rewrite Hid. apply elem_of_cons. by left.
  - pose proof (ci_elections c Hc el ltac:(rewrite Hels, elem_of_app, elem_of_cons; auto)) as Hel.
    assert (election_ok c (replied peer ok el)) as Hel'.
    { apply replied_ok; [done..|]. intros ->. apply vote_reply_granted in Hvr.
      by apply (ci_replies c Hc peer (el_args el) reply). }
    set (o := OpVoteReply (term_of el) reply).
    assert (exec o s = Ok (s', [])) as He by (simpl; by rewrite Hvr).
    destruct (leader_kept c _ s s' o _ Hc Hme I He ltac:(done)) as [Hid Hl].
    apply (cinv_quiet (set_elections (pre ++ replied peer ok el :: post) c) _ (Up s));
      [|done|by eapply (nstep_op o)|done|by intros ? [= <-]].
    apply cinv_elections; [done|]. by eapply election_replaced.
  - apply cinv_elections; [done|]. eapply election_replaced; [done..|]. apply tally_ok; [|done].
    apply (ci_elections c Hc). rewrite Hels, elem_of_app, elem_of_cons. auto.
  - pose proof (decided_promotion c el (ci_elections c Hc el Hel) Hdec) as Hpo.
    destruct (ci_nodes c Hc _ _ Hme) as [_ Hid]. simpl in Hid.
    set (pr := mkPromotion (term_of el) (candidate el) (el_config el)) in *.
    apply (cinv_quiet (add_promotion pr c) _ (Up s)); [by apply cinv_promotion|done| | |].
    + apply (nstep_op (OpBecomeLeader (term_of el))); [done| |done]. simpl. by rewrite Hbl.
    + destruct (becomeLeader_ends (storable := storable) (term_of el) s) as [E|(_ & _ & E)]; rewrite Hbl in E.
      * simplify_eq. done.
      * destruct E as [[E _] _]. simpl in E. unfold self in E. simpl. congruence.
    + intros ? [= <-] Hlead. exists (el_config el). apply elem_of_cons. left. unfold pr.
      destruct (becomeLeader_ends (storable := storable) (term_of el) s) as [E|(_ & _ & E)]; rewrite Hbl in E.
      * simplify_eq. congruence.
      * destruct E as [[_ E] _]. unfold self in E. destruct (E Hlead) as [_ E']. simpl in E'. congruence.
Qed.

Lemma cinv_initial c : initial c → cinv c.
Proof.
  intros (Ev & Er & Ee & Ep & Hn). split.
  - intros me n Hme. destruct (Hn me n Hme) as (ps & m & tr & cf & st & -> & Hl). split; [|done].
    eapply ninv_ext; [|by apply fresh_ninv]. intros [t x] Hin%elem_of_votes_of.
    rewrite Ev in Hin. by apply elem_of_nil in Hin.
  - rewrite Ev. by intros v Hv%elem_of_nil.
  - rewrite Er. by intros p args r Hin%elem_of_nil.
  - rewrite Ee. by intros el Hin%elem_of_nil.
  - rewrite Ep. by intros p Hin%elem_of_nil.
  - intros me s Hme Hr. destruct (Hn me _ Hme) as (ps & m & tr & cf & st & [= ->] & Hl). done.
Qed.

Lemma cinv_reachable c c' : initial c → rtc cstep c c' → cinv c'.
Proof. intros Hi%cinv_initial. induction 1; [done|]. eauto using cinv_step. Qed.

Lemma promotions_agree c p q :
  cinv c → p ∈ c_promotions c → q ∈ c_promotions c → p_term p = p_term q →
  NoDup (p_config p) → NoDup (p_config q) → p_leader p ∈ p_config p → p_leader q ∈ p_config q →
  adjacent (p_config p) (p_config q) → p_leader p = p_leader q.
Proof.
  intros Hc Hp Hq Ht Hndp Hndq Hinp Hinq Hadj.
  destruct (ci_promotions c Hc p Hp Hndp Hinp) as (qp & ? & ? & ? & Hvp).
  destruct (ci_promotions c Hc q Hq Hndq Hinq) as (qq & ? & ? & ? & Hvq).
  destruct (adjacent_quorums _ _ qp qq Hadj) as (x & Hxp & Hxq); try done.
  specialize (Hvp x Hxp). specialize (Hvq x Hxq). rewrite <- Ht in Hvq.
  destruct (ci_voters c Hc _ Hvp) as [n Hn]. simpl in Hn.
  destruct (ci_nodes c Hc _ _ Hn) as [(Hone & _) _].
  by eapply Hone; apply elem_of_votes_of.
Qed.

(** C5: Election Safety.  In every reachable state of a cluster (any sequence of
    operations with any arguments, lost, delayed and reordered replies, crashes,
    panics and restarts from disk), two promotions to leader in the same term
    are of the same server, provided each leader is a member of the
    configuration it counted votes under and the two configurations are equal or
    differ by one server.  A server that is leader was promoted in its current
    term. *)
Theorem election_safety c0 c :
  initial c0 → rtc cstep c0 c →
  (∀ p q, p ∈ c_promotions c → q ∈ c_promotions c → p_term p = p_term q →
     NoDup (p_config p) → NoDup (p_config q) → p_leader p ∈ p_config p → p_leader q ∈ p_config q →
     adjacent (p_config p) (p_config q) → p_leader p = p_leader q) ∧
  (∀ me s, c_nodes c !! me = Some (Up s) → role s = Leader →
     ∃ cf, mkPromotion (currentTerm s) me cf ∈ c_promotions c).
Proof.
  intros Hi Hrun. pose proof (cinv_reachable c0 c Hi Hrun) as Hc.
  split; [intros p q; by apply promotions_agree|]. apply (ci_leaders c Hc).
Qed.

End Cluster.
