(* ===== verification/RaftReads.v ===== *)
(** * Raft: what a confirmed read means for the cluster

    The cluster of [RaftElection] with the reads that are under way.  A tracked
    read remembers the cluster as it was when the read began ([t_start]), the
    heartbeats it has sent and the replies they got.  Heartbeats and replies can
    be lost, delayed, overtaken and delivered twice; a goroutine uses one reply. *)

From S2P Require Import Prelude GoLib RaftTypes RaftLog RaftCodec RaftServer RaftLoop RaftSnapshot RaftRead.
From S2P Require Import RaftVotes RaftNode RaftElection.

Local Open Scope Z_scope.

Section Reads.
Context {SM St : Type} `{StateMachine SM} `{Storage St} {storable : bytes → Prop}.
Context `{!StorageLaws St storable}.

Abbreviation cluster := (cluster (SM := SM) (St := St)).
Abbreviation cstep := (cstep (SM := SM) (St := St) (storable := storable)).
Abbreviation cinv := (cinv (SM := SM) (St := St)).

Record tracked := mkTracked {
  t_read : ReadCall;
  t_start : cluster;
  t_sent : list (NodeID * AppendEntriesArgs);
  t_replies : list (NodeID * AppendEntriesReply)
}.

Record rcluster := mkRCluster { rc_cluster : cluster; rc_reads : list tracked }.

Inductive rstep (rc : rcluster) : rcluster → Prop :=
  | rstep_cluster c' : cstep (rc_cluster rc) c' → rstep rc (mkRCluster c' (rc_reads rc))
  | rstep_begin me s r :
      c_nodes (rc_cluster rc) !! me = Some (Up s) → ReadIndex_begin s = ReadPending r →
      rstep rc (mkRCluster (rc_cluster rc) (mkTracked r (rc_cluster rc) [] [] :: rc_reads rc))
  | rstep_send pre t post s peer args :
      rc_reads rc = pre ++ t :: post → c_nodes (rc_cluster rc) !! rd_server (t_read t) = Some (Up s) →
      peer ∈ rd_pending (t_read t) → read_request (t_read t) s = Some args →
      rstep rc (mkRCluster (rc_cluster rc)
        (pre ++ mkTracked (t_read t) (t_start t) ((peer, args) :: t_sent t) (t_replies t) :: post))
  | rstep_handle pre t post env peer args s s' reply :
      rc_reads rc = pre ++ t :: post → (peer, args) ∈ t_sent t →
      c_nodes (rc_cluster rc) !! peer = Some (Up s) →
      AppendEntries env args s = Ok (s', reply) → persistable (storable := storable) s' →
      rstep rc (mkRCluster (set_node peer (Up s') (rc_cluster rc))
        (pre ++ mkTracked (t_read t) (t_start t) (t_sent t) ((peer, reply) :: t_replies t) :: post))
  | rstep_reply pre t post peer reply s s' ok :
      rc_reads rc = pre ++ t :: post → peer ∈ rd_pending (t_read t) → (peer, reply) ∈ t_replies t →
      c_nodes (rc_cluster rc) !! rd_server (t_read t) = Some (Up s) →
      read_reply (rd_term (t_read t)) reply s = Ok (s', ok) → persistable (storable := storable) s' →
      rstep rc (mkRCluster (set_node (rd_server (t_read t)) (Up s') (rc_cluster rc))
        (pre ++ mkTracked (answered peer ok (t_read t)) (t_start t) (t_sent t) (t_replies t) :: post))
  | rstep_count pre t post peer :
      rc_reads rc = pre ++ t :: post → peer ∈ rd_ok (t_read t) →
      rstep rc (mkRCluster (rc_cluster rc)
        (pre ++ mkTracked (count_ack peer (t_read t)) (t_start t) (t_sent t) (t_replies t) :: post)).

(** ** Invariant *)

(** No vote that [x] had cast when the read began is of a term above [t]. *)
Definition voted_below (c : cluster) (x : NodeID) (t : Z) : Prop :=
  ∀ v, v ∈ c_votes c → v_voter v = x → v_term v ≤ t.

Record read_ok (c : cluster) (t : tracked) : Prop := {
  ro_start : cinv (t_start t);
  ro_votes : c_votes (t_start t) ⊆ c_votes c;
  ro_begin : ∃ s0, c_nodes (t_start t) !! rd_server (t_read t) = Some (Up s0) ∧ role s0 = Leader ∧
    currentTerm s0 = rd_term (t_read t) ∧ commitIndex s0 = rd_idx (t_read t) ∧
    peers s0 = rd_config (t_read t);
  ro_needed : rd_needed (t_read t) = Majority (rd_config (t_read t));
  ro_acks : rd_acks (t_read t) = S (length (rd_counted (t_read t)));
  ro_peers : ∃ dropped, dropped ++ rd_pending (t_read t) ++ rd_ok (t_read t) ++ rd_counted (t_read t)
    ≡ₚ filter (λ p, p ≠ rd_server (t_read t)) (rd_config (t_read t));
  ro_replies : ∀ x reply, (x, reply) ∈ t_replies t → voted_below (t_start t) x (aer_Term reply);
  ro_acked : ∀ x, x ∈ rd_ok (t_read t) ++ rd_counted (t_read t) →
    voted_below (t_start t) x (rd_term (t_read t))
}.

Definition rinv (rc : rcluster) : Prop :=
  cinv (rc_cluster rc) ∧ ∀ t, t ∈ rc_reads rc → read_ok (rc_cluster rc) t.

Lemma cstep_votes c c' : cstep c c' → c_votes c ⊆ c_votes c'.
Proof. destruct 1; simpl; try case_match; set_solver. Qed.

(** The votes a server has cast are of terms it has reached. *)
Lemma voted_term c me s v :
  cinv c → c_nodes c !! me = Some (Up s) → v ∈ c_votes c → v_voter v = me → v_term v ≤ currentTerm s.
Proof.
  intros Hc Hme Hv Hvoter. destruct (ci_nodes c Hc _ _ Hme) as [(_ & b & Hcov & _ & Hb) _].
  destruct v as [x t y]. simpl in *. subst x.
  assert ((t, Some y) ⊑ᵥ ballot_of s) as Hle.
  { etrans; [|exact Hb]. apply Hcov. by apply elem_of_votes_of. }
  destruct Hle as [Hle|[Hle _]]; simpl in Hle; lia.
Qed.

(** The reply carries the term the receiver has when it returns. *)
Lemma AppendEntries_term env args (s s' : Server SM St) reply :
  AppendEntries env args s = Ok (s', reply) → aer_Term reply = currentTerm s'.
Proof.
  unfold AppendEntries. destruct (stopped s); [by intros [= <- <-]|].
  destruct (_ <? _); [by intros [= <- <-]|]. destruct (heardFromLeader env args s) as [s1 ch].
  destruct (negb _).
  { destruct (persist_if ch s1); simpl; [|done]. by intros [= <- <-]. }
  destruct (appendFrom _ _ _) as [l changed]. destruct (persist_if _ _) as [s2|]; simpl; [|done].
  destruct (_ <? _); simpl; [|by intros [= <- <-]].
  destruct (applyCommitted _); simpl; [|done]. by intros [= <- <-].
Qed.

Lemma handled_cstep c peer env args s s' reply :
  c_nodes c !! peer = Some (Up s) → AppendEntries env args s = Ok (s', reply) →
  persistable (storable := storable) s' → cstep c (set_node peer (Up s') c).
Proof. intros Hn Ha. eapply (cstep_plain _ _ (OpAppendEntries env args)); [done..|]. simpl. by rewrite Ha. Qed.

Lemma replied_cstep c me term reply s s' ok :
  c_nodes c !! me = Some (Up s) → read_reply term reply s = Ok (s', ok) →
  persistable (storable := storable) s' → cstep c (set_node me (Up s') c).
Proof. intros Hn Ha. eapply (cstep_plain _ _ (OpReadReply term reply)); [done..|]. simpl. by rewrite Ha. Qed.

Lemma read_ok_mono c c' t : c_votes c ⊆ c_votes c' → read_ok c t → read_ok c' t.
Proof. intros Hsub [? Hv ? ? ? ? ? ?]. split; try done. by etrans. Qed.

(** A step of the cluster, and one read replaced by a good one. *)
Lemma rinv_step c pre t post c' t' reads :
  (∀ u, u ∈ reads → read_ok c u) → reads = pre ++ t :: post → cinv c → cstep c c' →
  (read_ok c t → read_ok c' t') → rinv (mkRCluster c' (pre ++ t' :: post)).
Proof.
  intros Hreads -> Hc Hstep Ht. split; simpl; [by eapply cinv_step|].
  intros u [Hu|[->|Hu]%elem_of_cons]%elem_of_app.
  - eapply read_ok_mono; [by apply cstep_votes|]. apply Hreads, elem_of_app. by left.
  - apply Ht, Hreads, elem_of_app. right. by left.
  - eapply read_ok_mono; [by apply cstep_votes|]. apply Hreads, elem_of_app. right. by right.
Qed.

Lemma rinv_same c pre t post t' reads :
  (∀ u, u ∈ reads → read_ok c u) → reads = pre ++ t :: post → cinv c →
  (read_ok c t → read_ok c t') → rinv (mkRCluster c (pre ++ t' :: post)).
Proof.
  intros Hreads -> Hc Ht. split; simpl; [done|].
  intros u [Hu|[->|Hu]%elem_of_cons]%elem_of_app; [|apply Ht|]; apply Hreads, elem_of_app;
    rewrite elem_of_cons; auto.
Qed.

Lemma begin_ok c me s r :
  cinv c → c_nodes c !! me = Some (Up s) → ReadIndex_begin s = ReadPending r →
  read_ok c (mkTracked r c [] []).
Proof.
  intros Hc Hme. unfold ReadIndex_begin. case_bool_decide as Hrole; [done|].
  destruct (_ <=? _)%nat; [done|]. intros [= <-]. destruct (ci_nodes c Hc _ _ Hme) as [_ Hid]. simpl in Hid.
  split; simpl; try done.
  - exists s. rewrite Hid. split_and!; try done.
  - exists []. simpl. by rewrite app_nil_r.
  - by intros x reply Hin%elem_of_nil.
  - by intros x Hin%elem_of_nil.
Qed.

Lemma answered_ok c t peer reply s s' ok :
  cinv c → read_ok c t → peer ∈ rd_pending (t_read t) → (peer, reply) ∈ t_replies t →
  c_nodes c !! rd_server (t_read t) = Some (Up s) →
  read_reply (rd_term (t_read t)) reply s = Ok (s', ok) →
  read_ok c (mkTracked (answered peer ok (t_read t)) (t_start t) (t_sent t) (t_replies t)).
Proof.
  intros Hc [Hst Hv Hb Hn Ha [dr Hp] Hr Hk] Hpend Hrep Hme Hreply.
  assert (ok = true → voted_below (t_start t) peer (rd_term (t_read t))) as Hok.
  { intros -> v Hin Hvv. unfold read_reply in Hreply. destruct (Z.ltb_spec (currentTerm s) (aer_Term reply)).
    { destruct (mustPersistLocked _); simplify_eq/=. }
    injection Hreply as _ [_ Ht%Z.eqb_eq]%andb_true_iff. specialize (Hr _ _ Hrep v Hin Hvv). lia. }
  split; simpl; try done.
  - pose proof (remove_one_perm peer _ Hpend) as Hperm. set (rest := remove_one peer _) in *. clearbody rest.
    destruct ok; [exists dr|exists (peer :: dr)]; rewrite <- Hp, Hperm.
    + simpl. by rewrite <- (Permutation_middle rest).
    + apply (Permutation_middle dr).
  - destruct ok; [|done]. intros x [->|Hx]%elem_of_cons; [by apply Hok|by apply Hk].
Qed.

Lemma counted_ok c t peer :
  read_ok c t → peer ∈ rd_ok (t_read t) →
  read_ok c (mkTracked (count_ack peer (t_read t)) (t_start t) (t_sent t) (t_replies t)).
Proof.
  intros [Hst Hv Hb Hn Ha [dr Hp] Hr Hk] Hin. pose proof (remove_one_perm peer _ Hin) as Hperm.
  split; simpl; try done; [by rewrite Ha|..]; set (rest := remove_one peer _) in *; clearbody rest.
  - exists dr. by rewrite <- Hp, Hperm, <- (Permutation_middle rest).
  - intros x Hx. apply Hk. rewrite Hperm. simpl. by rewrite (Permutation_middle rest).
Qed.

Lemma handled_ok c t peer env args s s' reply :
  cinv c → cinv (set_node peer (Up s') c) → read_ok c t → AppendEntries env args s = Ok (s', reply) →
  read_ok (set_node peer (Up s') c)
    (mkTracked (t_read t) (t_start t) (t_sent t) ((peer, reply) :: t_replies t)).
Proof.
  intros Hc Hc' [Hst Hv Hb Hn Ha Hp Hr Hk] Hae. split; simpl; try done.
  intros x rep [[= -> ->]|Hin]%elem_of_cons; [|by apply Hr]. intros v Hin Hvv.
  rewrite (AppendEntries_term _ _ _ _ _ Hae). eapply (voted_term _ peer); [exact Hc'| |by apply Hv|done].
  simpl. apply lookup_insert_eq.
Qed.

Lemma rinv_rstep rc rc' : rinv rc → rstep rc rc' → rinv rc'.
Proof.
  intros [Hc Hreads] Hstep.
  destruct Hstep as [c' Hs|me s r Hme Hb|pre t post s peer args Hrs Hme Hpd Hrq
    |pre t post env peer args s s' reply Hrs Hsent Hn Ha Hp
    |pre t post peer reply s s' ok Hrs Hpd Hrep Hn Hr Hp|pre t post peer Hrs Hin].
  - split; simpl; [by eapply cinv_step|]. intros t Ht.
    eapply read_ok_mono; [by apply cstep_votes|by apply Hreads].
  - split; simpl; [done|]. intros t [->|Ht]%elem_of_cons; [by eapply begin_ok|by apply Hreads].
  - eapply rinv_same; [exact Hreads|exact Hrs|done|]. by intros [].
  - pose proof (handled_cstep _ _ _ _ _ _ _ Hn Ha Hp) as Hcs.
    eapply rinv_step; [exact Hreads|exact Hrs|done|exact Hcs|].
    intros Ht. eapply handled_ok; [done| |done|done]. by eapply cinv_step.
  - pose proof (replied_cstep _ _ _ _ _ _ _ Hn Hr Hp) as Hcs.
    eapply rinv_step; [exact Hreads|exact Hrs|done|exact Hcs|].
    intros Ht. eapply read_ok_mono; [by apply cstep_votes|]. by eapply answered_ok.
  - eapply rinv_same; [exact Hreads|exact Hrs|done|]. intros Ht. by apply counted_ok.
Qed.

Definition rinitial (rc : rcluster) : Prop := initial (rc_cluster rc) ∧ rc_reads rc = [].

Lemma rinv_reachable rc0 rc : rinitial rc0 → rtc rstep rc0 rc → rinv rc.
Proof.
  intros [Hi Hr] Hrun. assert (rinv rc0) as Hinv.
  { split; [by apply cinv_initial|]. rewrite Hr. by intros t Ht%elem_of_nil. }
  clear Hi Hr. induction Hrun; [done|]. eauto using rinv_rstep.
Qed.

(** The servers behind the acknowledgements, the reader included. *)
Lemma acked_quorum c t :
  read_ok c t → NoDup (rd_config (t_read t)) → rd_server (t_read t) ∈ rd_config (t_read t) →
  confirmed (t_read t) = true →
  let q := rd_server (t_read t) :: rd_counted (t_read t) in
  NoDup q ∧ q ⊆ rd_config (t_read t) ∧ (Majority (rd_config (t_read t)) ≤ length q)%nat ∧
  ∀ x, x ∈ q → voted_below (t_start t) x (rd_term (t_read t)).
Proof.
  intros [Hst Hv (s0 & Hs0 & _ & Ht & _) Hn Ha [dr Hp] _ Hk] Hnd Hin Hconf.
  assert (∀ x, x ∈ rd_counted (t_read t) → x ∈ rd_config (t_read t) ∧ x ≠ rd_server (t_read t)) as Hmem.
  { intros x Hx. assert (x ∈ filter (λ p, p ≠ rd_server (t_read t)) (rd_config (t_read t))) as Hf.
    { rewrite <- Hp, !elem_of_app. auto. }
    by apply list_elem_of_filter in Hf as []. }
  assert (NoDup (filter (λ p, p ≠ rd_server (t_read t)) (rd_config (t_read t)))) as Hndf by by apply NoDup_filter.
  rewrite <- Hp in Hndf. split_and!.
  - constructor; [by intros [_ ?]%Hmem|]. apply NoDup_app in Hndf as (_ & _ & Hndf).
    apply NoDup_app in Hndf as (_ & _ & Hndf). by apply NoDup_app in Hndf as (_ & _ & Hndf).
  - intros x [->|Hx]%elem_of_cons; [done|]. by apply Hmem.
  - apply Nat.leb_le in Hconf. simpl. lia.
  - intros x [->|Hx]%elem_of_cons; [|apply Hk, elem_of_app; by right].
    intros v Hvin Hvv. rewrite <- Ht. by eapply (voted_term (t_start t)).
Qed.

(** C18: Leadership confirmed by [ReadIndex].  In every reachable state of a
    cluster with reads under way (elections, membership changes, crashes and
    restarts, lost, delayed and duplicated messages), when a read has its
    majority of acknowledgements and its final check passes, the index returned
    is the commit index the reader had as a leader of the read's term when the
    read began (the comment of [ReadIndex] says: as of the moment leadership was
    confirmed, which is later; the code reads it first), and at that moment no server had been elected leader of a later
    term, provided the configurations are equal or differ by one server and
    contain their leader. *)
Theorem ReadIndex_confirms_leadership rc0 rc t (s : Server SM St) idx :
  rinitial rc0 → rtc rstep rc0 rc → t ∈ rc_reads rc →
  confirmed (t_read t) = true → ReadIndex_finish (t_read t) s = inr idx →
  NoDup (rd_config (t_read t)) → rd_server (t_read t) ∈ rd_config (t_read t) →
  (∃ s0, c_nodes (t_start t) !! rd_server (t_read t) = Some (Up s0) ∧ role s0 = Leader ∧
     currentTerm s0 = currentTerm s ∧ commitIndex s0 = idx) ∧
  ∀ p, p ∈ c_promotions (t_start t) → NoDup (p_config p) → p_leader p ∈ p_config p →
    adjacent (p_config p) (rd_config (t_read t)) → p_term p ≤ currentTerm s.
Proof.
  intros Hi Hrun Ht Hconf Hfin Hnd Hin. destruct (rinv_reachable rc0 rc Hi Hrun) as [_ Hreads].
  specialize (Hreads t Ht). pose proof (acked_quorum _ t Hreads Hnd Hin Hconf) as (Hq1 & Hq2 & Hq3 & Hq4).
  unfold ReadIndex_finish in Hfin. destruct (_ || _) eqn:E in Hfin; [done|]. injection Hfin as <-.
  apply orb_false_iff in E as [_ Hterm%negb_false_iff%Z.eqb_eq].
  destruct (ro_begin _ _ Hreads) as (s0 & Hs0 & Hl & Hts & Hidx & _). rewrite Hterm. split; [by exists s0|].
  intros p Hp Hndp Hlp Hadj.
  destruct (ci_promotions _ (ro_start _ _ Hreads) p Hp Hndp Hlp) as (qp & ? & ? & ? & Hvp).
  destruct (adjacent_quorums _ _ qp _ Hadj ltac:(done) Hq1 ltac:(done) Hq2 ltac:(done) Hq3) as (x & Hxp & Hxq).
  by apply (Hq4 x Hxq _ (Hvp x Hxp)).
Qed.

End Reads.
