(* ===== verification/RaftSpec.v ===== *)
(** * Raft: the protocol, without messages

    An abstract specification of Raft for one configuration.  A node has a term, the
    part of it that is durable, a role, its whole log (from the first entry on,
    whether or not the code has compacted it) and a commit index.  What was said in
    messages is kept as history: who voted for whom, and with which log; who
    campaigned with which log; the log of the leader of each term; who acknowledged
    how much of it.  A step reads the history in place of a message, so a message may
    be delayed, repeated or lost at will.

    The invariant [ainv] gives Log Matching and Leader Completeness, and from them
    that two nodes never commit different entries at an index, now or at different
    times. *)

From stdpp Require Import functions.
From S2P Require Import Prelude GoLib RaftTypes RaftCodec.

Local Open Scope Z_scope.

Record anode := mkANode {
  a_term : Z;
  a_saved : Z;
  a_role : Role;
  a_log : list LogEntry;
  a_commit : nat
}.

(** A vote of [av_voter] in [av_term], cast with the log [av_log]. *)
Record avote := mkAVote { av_voter : NodeID; av_term : Z; av_for : NodeID; av_log : list LogEntry }.

(** The history.  [h_cands]: candidacies with the log of the candidate.  [h_leads]: the
    leader of a term and its log.  [h_acks]: [(n, t, k)] if [n] had the first [k]
    entries of the leader of [t], in that term. *)
Record history := mkHistory {
  h_votes : list avote;
  h_cands : list (NodeID * Z * list LogEntry);
  h_leads : gmap Z (NodeID * list LogEntry);
  h_acks : list (NodeID * Z * nat)
}.

Record spec := mkSpec { sp_node : NodeID → anode; sp_hist : history }.

Definition log_term (g : list LogEntry) : Z := e_Term (default zeroEntry (last g)).

(** [isUpToDate]: a candidate with the log [g] may have the vote of one with [h]. *)
Definition up_to_date (g h : list LogEntry) : Prop :=
  log_term h < log_term g ∨ (log_term g = log_term h ∧ (length h ≤ length g)%nat).

(** The first [p] entries of [L] are written over [g], unless they are there. *)
Definition overwrite (p : nat) (L g : list LogEntry) : list LogEntry :=
  if decide (take p g = take p L) then g else take p L.

Section Spec.
Context (cfg : Configuration).

Definition quorum (q : list NodeID) : Prop := NoDup q ∧ q ⊆ cfg ∧ (Majority cfg ≤ length q)%nat.

Definition acked (hs : history) (n : NodeID) (t : Z) (m : nat) : Prop :=
  ∃ k, (m ≤ k)%nat ∧ (n, t, k) ∈ h_acks hs.

(** Raft's commit rule: the entry at [m] is of the leader's own term and a majority
    has acknowledged it. *)
Definition committed (hs : history) (t : Z) (m : nat) : Prop :=
  ∃ c L e q, h_leads hs !! t = Some (c, L) ∧ L !! pred m = Some e ∧ e_Term e = t ∧ (0 < m)%nat ∧
    quorum q ∧ ∀ x, x ∈ q → acked hs x t m.

(** A point up to which a log may be committed. *)
Definition commit_point (hs : history) (g : list LogEntry) (m : nat) : Prop :=
  m = 0%nat ∨ ∃ e, (0 < m)%nat ∧ g !! pred m = Some e ∧ committed hs (e_Term e) m.

(** ** Steps *)

Definition set_anode (n : NodeID) (a : anode) (sp : spec) : spec :=
  mkSpec (<[n:=a]> (sp_node sp)) (sp_hist sp).

Definition set_hist (hs : history) (sp : spec) : spec := mkSpec (sp_node sp) hs.

(** A vote in a term that has its leader already does not count. *)
Definition add_avote (v : avote) (hs : history) : history :=
  match h_leads hs !! av_term v with
  | Some _ => hs
  | None => mkHistory (v :: h_votes hs) (h_cands hs) (h_leads hs) (h_acks hs)
  end.

Definition add_cand (n : NodeID) (t : Z) (g : list LogEntry) (hs : history) : history :=
  mkHistory (h_votes hs) ((n, t, g) :: h_cands hs) (h_leads hs) (h_acks hs).

Definition add_ack (n : NodeID) (t : Z) (k : nat) (hs : history) : history :=
  mkHistory (h_votes hs) (h_cands hs) (h_leads hs) ((n, t, k) :: h_acks hs).

Definition set_lead (t : Z) (n : NodeID) (L : list LogEntry) (hs : history) : history :=
  mkHistory (h_votes hs) (h_cands hs) (<[t:=(n, L)]> (h_leads hs)) (h_acks hs).

(** A leader writes an entry of its own, which it acknowledges itself. *)
Definition lead_write (n : NodeID) (e : LogEntry) (sp : spec) : spec :=
  let a := sp_node sp n in
  let L := a_log a ++ [e] in
  mkSpec (<[n:=mkANode (a_term a) (a_saved a) Leader L (a_commit a)]> (sp_node sp))
    (add_ack n (a_term a) (length L) (set_lead (a_term a) n L (sp_hist sp))).

Inductive astep (sp : spec) : spec → Prop :=
  (* a node hears of a term, or steps down *)
  | a_observe n t r :
      let a := sp_node sp n in
      a_term a ≤ t → r = Follower ∨ (r = a_role a ∧ t = a_term a) →
      astep sp (set_anode n (mkANode t (a_saved a) r (a_log a) (a_commit a)) sp)
  (* the term becomes durable *)
  | a_save n :
      let a := sp_node sp n in
      astep sp (set_anode n (mkANode (a_term a) (a_term a) (a_role a) (a_log a) (a_commit a)) sp)
  (* a crash loses what was not durable *)
  | a_crash n t :
      let a := sp_node sp n in
      a_saved a ≤ t ≤ a_term a →
      astep sp (set_anode n (mkANode t (a_saved a) Follower (a_log a) 0) sp)
  (* a node stands for election in a term it has not voted in *)
  | a_campaign n :
      let a := sp_node sp n in
      0 < a_term a → a_saved a = a_term a → Forall (λ e, e_Term e < a_term a) (a_log a) →
      (∀ g, (n, a_term a, g) ∉ h_cands (sp_hist sp)) →
      (∀ v, v ∈ h_votes (sp_hist sp) → av_voter v = n → av_term v ≠ a_term a) →
      astep sp (mkSpec
        (<[n:=mkANode (a_term a) (a_saved a) Candidate (a_log a) (a_commit a)]> (sp_node sp))
        (add_avote (mkAVote n (a_term a) n (a_log a)) (add_cand n (a_term a) (a_log a) (sp_hist sp))))
  | a_vote n c g :
      let a := sp_node sp n in
      a_saved a = a_term a → (c, a_term a, g) ∈ h_cands (sp_hist sp) → up_to_date g (a_log a) →
      (∀ v, v ∈ h_votes (sp_hist sp) → av_voter v = n → av_term v = a_term a → av_for v = c) →
      astep sp (set_hist (add_avote (mkAVote n (a_term a) c (a_log a)) (sp_hist sp)) sp)
  (* a candidate with a majority of the votes leads, and writes its first entry *)
  | a_lead n e q :
      let a := sp_node sp n in
      a_role a = Candidate → h_leads (sp_hist sp) !! a_term a = None → quorum q →
      (∀ x, x ∈ q → ∃ v, v ∈ h_votes (sp_hist sp) ∧ av_voter v = x ∧ av_term v = a_term a ∧ av_for v = n) →
      e_Term e = a_term a → astep sp (lead_write n e sp)
  | a_append n e :
      let a := sp_node sp n in
      a_role a = Leader → e_Term e = a_term a → astep sp (lead_write n e sp)
  (* a prefix of the leader's log arrives and is acknowledged *)
  | a_receive n c L p :
      let a := sp_node sp n in
      h_leads (sp_hist sp) !! a_term a = Some (c, L) → c ≠ n → a_saved a = a_term a → (p ≤ length L)%nat →
      astep sp (mkSpec
        (<[n:=mkANode (a_term a) (a_saved a) (a_role a) (overwrite p L (a_log a)) (a_commit a)]> (sp_node sp))
        (add_ack n (a_term a) p (sp_hist sp)))
  (* a node learns a commit index, from its own count or from a leader *)
  | a_learn n m :
      let a := sp_node sp n in
      commit_point (sp_hist sp) (a_log a) m →
      astep sp (set_anode n (mkANode (a_term a) (a_saved a) (a_role a) (a_log a) m) sp).

Definition ainitial (sp : spec) : Prop :=
  (∀ n, sp_node sp n = mkANode 0 0 Follower [] 0) ∧
  h_votes (sp_hist sp) = [] ∧ h_cands (sp_hist sp) = [] ∧ h_leads (sp_hist sp) = ∅ ∧ h_acks (sp_hist sp) = [].

(** ** The invariant *)

Definition ordered (g : list LogEntry) : Prop :=
  ∀ i j x y, (i ≤ j)%nat → g !! i = Some x → g !! j = Some y → e_Term x ≤ e_Term y.

(** Every entry comes from the leader of its term, with all that precedes it. *)
Definition valid (hs : history) (g : list LogEntry) : Prop :=
  ∀ i e, g !! i = Some e → ∃ c L, h_leads hs !! e_Term e = Some (c, L) ∧ take (S i) g = take (S i) L.

(** The leader of [t'] was elected without the first [k] entries of the leader of [t]. *)
Definition lacks (hs : history) (t : Z) (k : nat) (t' : Z) : Prop :=
  ∃ c L c' L' g, h_leads hs !! t = Some (c, L) ∧ (k ≤ length L)%nat ∧
    h_leads hs !! t' = Some (c', L') ∧ (c', t', g) ∈ h_cands hs ∧ take k g ≠ take k L.

Definition elected (hs : history) (t : Z) (c : NodeID) : Prop :=
  ∃ q, quorum q ∧ ∀ x, x ∈ q → ∃ v, v ∈ h_votes hs ∧ av_voter v = x ∧ av_term v = t ∧ av_for v = c.

Record lead_ok (hs : history) (t : Z) (c : NodeID) (L : list LogEntry) : Prop := {
  lo_pos : 0 < t;
  lo_valid : valid hs L;
  lo_ordered : ordered L;
  lo_elected : elected hs t c;
  lo_cand : ∃ g es, (c, t, g) ∈ h_cands hs ∧ L = g ++ es ∧ Forall (λ e, e_Term e = t) es
}.

Record node_ok (hs : history) (n : NodeID) (a : anode) : Prop := {
  no_saved : a_saved a ≤ a_term a;
  no_valid : valid hs (a_log a);
  no_terms : Forall (λ e, e_Term e ≤ a_saved a) (a_log a);
  no_candidate : a_role a = Candidate →
    a_saved a = a_term a ∧ (∀ L, h_leads hs !! a_term a ≠ Some (n, L)) ∧
    ((n, a_term a, a_log a) ∈ h_cands hs ∨ is_Some (h_leads hs !! a_term a));
  no_leader : a_role a = Leader → a_saved a = a_term a ∧ h_leads hs !! a_term a = Some (n, a_log a);
  no_commit : commit_point hs (a_log a) (a_commit a);
  no_cands : ∀ t g, (n, t, g) ∈ h_cands hs → t ≤ a_saved a;
  no_votes : ∀ v, v ∈ h_votes hs → av_voter v = n → av_term v ≤ a_saved a;
  no_acks : ∀ t k, (n, t, k) ∈ h_acks hs → t ≤ a_saved a;
  (* what it acknowledged it keeps, until a later leader takes it away *)
  no_kept : ∀ t m c L, acked hs n t m → h_leads hs !! t = Some (c, L) →
    take m (a_log a) = take m L ∨ ∃ t', t < t' ≤ a_saved a ∧ lacks hs t m t'
}.

Record vote_ok (hs : history) (v : avote) : Prop := {
  vo_valid : valid hs (av_log v);
  vo_cand : ∃ g, (av_for v, av_term v, g) ∈ h_cands hs ∧ up_to_date g (av_log v);
  vo_one : ∀ w, w ∈ h_votes hs → av_voter w = av_voter v → av_term w = av_term v → av_for w = av_for v;
  (* the same of the log it voted with, for what it had acknowledged before *)
  vo_kept : ∀ t m c L, acked hs (av_voter v) t m → t < av_term v → h_leads hs !! t = Some (c, L) →
    take m (av_log v) = take m L ∨ ∃ t', t < t' < av_term v ∧ lacks hs t m t'
}.

Record cand_ok (hs : history) (c : NodeID) (t : Z) (g : list LogEntry) : Prop := {
  co_valid : valid hs g;
  co_terms : Forall (λ e, e_Term e < t) g;
  co_pos : 0 < t;
  co_one : ∀ h, (c, t, h) ∈ h_cands hs → h = g
}.

Record hist_ok (hs : history) : Prop := {
  hi_leads : ∀ t c L, h_leads hs !! t = Some (c, L) → lead_ok hs t c L;
  hi_votes : ∀ v, v ∈ h_votes hs → vote_ok hs v;
  hi_cands : ∀ c t g, (c, t, g) ∈ h_cands hs → cand_ok hs c t g;
  hi_acks : ∀ n t k, (n, t, k) ∈ h_acks hs → ∃ c L, h_leads hs !! t = Some (c, L) ∧ (k ≤ length L)%nat
}.

Definition ainv (sp : spec) : Prop := hist_ok (sp_hist sp) ∧ ∀ n, node_ok (sp_hist sp) n (sp_node sp n).

(** ** Consequences of the invariant *)

Lemma quorum_meet q q' : quorum q → quorum q' → ∃ x, x ∈ q ∧ x ∈ q'.
Proof. intros (? & ? & ?) (? & ? & ?). apply (adjacent_quorums cfg cfg); [by left|done..]. Qed.

Lemma take_agree {A} (m k : nat) (g h : list A) :
  (m ≤ k)%nat → take k g = take k h → take m g = take m h.
Proof. intros Hm E. apply (f_equal (take m)) in E. rewrite !take_take, Nat.min_l in E by done. exact E. Qed.

Lemma take_lookup_agree {A} (m i : nat) (g h : list A) :
  (i < m)%nat → take m g = take m h → g !! i = h !! i.
Proof. intros Hi E. rewrite <- (lookup_take_lt g m i Hi), E. by apply lookup_take_lt. Qed.

Lemma take_length_le {A} (m : nat) (g h : list A) :
  take m g = take m h → (m ≤ length h)%nat → (m ≤ length g)%nat.
Proof. intros E Hm. apply (f_equal length) in E. rewrite !length_take in E. lia. Qed.

Section Facts.
Context (hs : history) (Hhs : hist_ok hs).

Lemma valid_lookup g i e :
  valid hs g → g !! i = Some e →
  ∃ c L, h_leads hs !! e_Term e = Some (c, L) ∧ take (S i) g = take (S i) L ∧ L !! i = Some e.
Proof.
  intros Hg Hi. destruct (Hg i e Hi) as (c & L & HL & E). exists c, L. split_and!; [done..|].
  rewrite <- Hi. symmetry. by apply (take_lookup_agree (S i)); [lia|].
Qed.

Lemma valid_ordered g : valid hs g → ordered g.
Proof using Hhs.
  intros Hg i j x y Hij Hx Hy. destruct (valid_lookup g j y Hg Hy) as (c & L & HL & E & HyL).
  apply (lo_ordered _ _ _ _ (hi_leads _ Hhs _ _ _ HL) i j); [done| |done].
  rewrite <- Hx. symmetry. by apply (take_lookup_agree (S j)); [lia|].
Qed.

(** Log Matching: the same term at an index means the same entries up to it. *)
Lemma valid_matching g h i x y :
  valid hs g → valid hs h → g !! i = Some x → h !! i = Some y → e_Term x = e_Term y →
  take (S i) g = take (S i) h.
Proof.
  intros Hg Hh Hx Hy E. destruct (Hg i x Hx) as (c & L & HL & ->). destruct (Hh i y Hy) as (c' & L' & HL' & ->).
  rewrite E in HL. by simplify_eq.
Qed.

Lemma log_term_lookup g : g ≠ [] → ∃ e, g !! pred (length g) = Some e ∧ log_term g = e_Term e.
Proof.
  intros Hne. unfold log_term. rewrite last_lookup.
  destruct (lookup_lt_is_Some_2 g (pred (length g))) as [e He]; [destruct g; simpl in *; [done|lia]|].
  exists e. split; [done|]. by rewrite He.
Qed.

Lemma log_term_ge g i e : valid hs g → g !! i = Some e → e_Term e ≤ log_term g.
Proof using Hhs.
  intros Hg Hi. assert (g ≠ []) as Hne by by intros ->.
  destruct (log_term_lookup g Hne) as (l & Hl & ->). apply (valid_ordered g Hg i (pred (length g))); [|done..].
  apply lookup_lt_Some in Hi. lia.
Qed.

(** A log is a prefix of the log of the leader whose entry ends it. *)
Lemma valid_prefix g :
  valid hs g → g ≠ [] → ∃ c L, h_leads hs !! log_term g = Some (c, L) ∧ g = take (length g) L.
Proof.
  intros Hg Hne. destruct (log_term_lookup g Hne) as (e & He & ->).
  destruct (Hg _ _ He) as (c & L & HL & E). exists c, L. split; [done|].
  replace (S (pred (length g))) with (length g) in E by (destruct g; simpl; [done|lia]).
  rewrite <- E. by rewrite take_ge.
Qed.

Lemma committed_entry t m c L :
  committed hs t m → h_leads hs !! t = Some (c, L) →
  (m ≤ length L)%nat ∧ ∃ e, L !! pred m = Some e ∧ e_Term e = t ∧ (0 < m)%nat.
Proof.
  intros (c' & L' & e & q & HL' & He & Ht & Hm & _) HL. rewrite HL in HL'. simplify_eq.
  split; [apply lookup_lt_Some in He; lia|]. eauto.
Qed.

(** What was committed in term [t] is at the beginning of a log whose last entry is
    of a later term [s], if the leader of [s] had it. *)
Lemma later_log_has g s m t cs Ls c L :
  g ≠ [] → log_term g = s → t < s → g = take (length g) Ls → h_leads hs !! s = Some (cs, Ls) →
  committed hs t m → h_leads hs !! t = Some (c, L) → take m Ls = take m L → take m g = take m L.
Proof using Hhs.
  intros Hne Hs Hts Eg HLs Hcom HL Hm.
  destruct (committed_entry t m c L Hcom HL) as (Hlen & e & He & Het & Hpos).
  assert (m ≤ length g)%nat as Hmg.
  { destruct (decide (m ≤ length g)%nat) as [?|Hlt]; [done|exfalso].
    destruct (log_term_lookup g Hne) as (l & Hl & Hlt'). pose proof (lookup_lt_Some _ _ _ Hl).
    assert (L !! pred (length g) = Some l) as HlL.
    { rewrite <- (take_lookup_agree m (pred (length g)) Ls L) by (done || lia).
      rewrite <- (lookup_take_lt Ls (length g)) by lia. by rewrite <- Eg. }
    pose proof (lo_ordered _ _ _ _ (hi_leads _ Hhs _ _ _ HL) (pred (length g)) (pred m) l e ltac:(lia) HlL He). lia. }
  rewrite Eg, take_take, Nat.min_l by done. done.
Qed.

(** Leader Completeness: what was committed in a term is in the log of every leader
    elected later. *)
Lemma leader_complete t m c L t' c' L' g :
  committed hs t m → h_leads hs !! t = Some (c, L) → t < t' →
  h_leads hs !! t' = Some (c', L') → (c', t', g) ∈ h_cands hs → take m g = take m L.
Proof using Hhs.
  intros Hcom HL. revert c' L' g. induction (Z.lt_wf t t') as [t' _ IH]. intros c' L' g Htt HL' Hg.
  pose proof (lo_pos _ _ _ _ (hi_leads _ Hhs _ _ _ HL)) as Hpos.
  destruct (committed_entry t m c L Hcom HL) as (Hlen & e & He & Het & Hm).
  assert (∀ s, t < s < t' → ¬ lacks hs t m s) as Hnone.
  { intros s Hs (c1 & L1 & c2 & L2 & g2 & HL1 & _ & HL2 & Hg2 & Hne). rewrite HL in HL1. simplify_eq.
    apply Hne. apply (IH s ltac:(lia) c2 L2); [lia|done..]. }
  pose proof Hcom as (_ & _ & _ & q & _ & _ & _ & _ & Hq & Hack).
  destruct (lo_elected _ _ _ _ (hi_leads _ Hhs _ _ _ HL')) as (q' & Hq' & Hvotes).
  destruct (quorum_meet q q' Hq Hq') as (x & Hx & Hx').
  destruct (Hvotes x Hx') as (v & Hv & <- & Hvt & Hvf). pose proof (hi_votes _ Hhs v Hv) as [Hvalid Hcand _ Hkept].
  rewrite Hvt, Hvf in *. set (h := av_log v) in *.
  destruct (Hkept t m c L (Hack _ Hx) Htt HL) as [Hh|(s & Hs & Hl)]; [|by destruct (Hnone s Hs)].
  destruct Hcand as (g' & Hg' & Hup). rewrite (co_one _ _ _ _ (hi_cands _ Hhs _ _ _ Hg) _ Hg') in Hup.
  destruct (hi_cands _ Hhs _ _ _ Hg) as [Hgv Hgt _ _].
  assert (h !! pred m = Some e) as Hhe by (rewrite <- He; apply (take_lookup_agree m); [lia|done]).
  pose proof (log_term_ge h _ _ Hvalid Hhe) as Hlt. rewrite Het in Hlt.
  assert (h ≠ []) as Hhne by by intros E; rewrite E in Hhe.
  assert (log_term h ≤ log_term g) as Hgh by (unfold up_to_date in Hup; lia).
  assert (g ≠ []) as Hgne by (intros ->; simpl in Hgh; change (log_term []) with 0 in Hgh; lia).
  destruct (valid_prefix g Hgv Hgne) as (cs & Ls & HLs & Eg).
  assert (log_term g < t') as Hs.
  { destruct (log_term_lookup g Hgne) as (l & Hl & ->). rewrite Forall_lookup in Hgt. by apply (Hgt _ _ Hl). }
  destruct Hup as [Hup|[Heq Hle]].
  - destruct (lo_cand _ _ _ _ (hi_leads _ Hhs _ _ _ HLs)) as (gs & es & Hgs & -> & _).
    pose proof (IH (log_term g) ltac:(lia) cs _ gs ltac:(lia) HLs Hgs) as Hms.
    eapply (later_log_has g (log_term g) m t cs (gs ++ es) c L); [done..|lia|done|done|done|done|].
    rewrite take_app_le; [done|]. by eapply take_length_le.
  - destruct (valid_prefix h Hvalid Hhne) as (ch & Lh & HLh & Eh). rewrite <- Heq, HLs in HLh. simplify_eq.
    apply lookup_lt_Some in Hhe. rewrite <- Hh. rewrite Eg, Eh, !take_take, !Nat.min_l by lia. done.
Qed.

Lemma committed_later t m c L t' c' L' :
  committed hs t m → h_leads hs !! t = Some (c, L) → t ≤ t' → h_leads hs !! t' = Some (c', L') →
  take m L' = take m L.
Proof using Hhs.
  intros Hcom HL Htt HL'. destruct (decide (t = t')) as [<-|Hne]; [by simplify_eq|].
  destruct (lo_cand _ _ _ _ (hi_leads _ Hhs _ _ _ HL')) as (g & es & Hg & E & _).
  pose proof (leader_complete t m c L t' c' L' g Hcom HL ltac:(lia) HL' Hg) as Hm.
  destruct (committed_entry t m c L Hcom HL) as (Hlen & _).
  rewrite E, take_app_le; [done|]. by eapply take_length_le.
Qed.

(** Two logs agree up to the smaller of two commit points. *)
Lemma commit_points_agree g h m k :
  valid hs g → valid hs h → commit_point hs g m → commit_point hs h k → (m ≤ k)%nat →
  take m g = take m h.
Proof using Hhs.
  intros Hg Hh [->|(e & Hm & He & Hce)] Hk Hmk; [by rewrite !take_0|].
  destruct Hk as [->|(f & Hk & Hf & Hcf)]; [lia|].
  destruct (valid_lookup g _ e Hg He) as (c & L & HL & EL & _).
  destruct (valid_lookup h _ f Hh Hf) as (c' & L' & HL' & EL' & _).
  replace (S (pred m)) with m in EL by lia. replace (S (pred k)) with k in EL' by lia.
  rewrite EL. apply (take_agree m k) in EL' as ->; [|done].
  destruct (decide (e_Term e ≤ e_Term f)) as [Hle|Hgt].
  - symmetry. by eapply committed_later; [exact Hce|..].
  - apply (take_agree m k); [done|]. apply (committed_later (e_Term f) k c' L' (e_Term e) c L); [done..|lia|done].
Qed.

(** A leader of a later term than a commit point's has all of it. *)
Lemma commit_point_lead g m t c L :
  valid hs g → commit_point hs g m → Forall (λ e, e_Term e ≤ t) g → h_leads hs !! t = Some (c, L) →
  take m g = take m L ∧ (m ≤ length L)%nat.
Proof using Hhs.
  intros Hg [->|(e & Hm & He & Hce)] Ht HL; [rewrite !take_0; split; [done|lia]|].
  destruct (valid_lookup g _ e Hg He) as (c' & L' & HL' & EL & _). replace (S (pred m)) with m in EL by lia.
  rewrite Forall_lookup in Ht. pose proof (committed_later _ m c' L' t c L Hce HL' (Ht _ _ He) HL) as E.
  split; [congruence|]. apply (take_length_le m L L'); [done|]. by apply (committed_entry (e_Term e) m c' L').
Qed.

End Facts.

(** ** History only grows *)

Record grows (hs hs' : history) : Prop := {
  gr_votes : h_votes hs ⊆ h_votes hs';
  gr_cands : h_cands hs ⊆ h_cands hs';
  gr_acks : h_acks hs ⊆ h_acks hs';
  gr_leads : ∀ t c L, h_leads hs !! t = Some (c, L) → ∃ es, h_leads hs' !! t = Some (c, L ++ es)
}.

#[global] Instance grows_preorder : PreOrder grows.
Proof.
  split.
  - intros hs. split; [done..|]. intros t c L HL. exists []. by rewrite app_nil_r.
  - intros a b c [V1 C1 A1 L1] [V2 C2 A2 L2]. split; [by etrans..|]. intros t x L HL.
    destruct (L1 t x L HL) as [es HL']. destruct (L2 t x _ HL') as [es' HL'']. exists (es ++ es').
    by rewrite app_assoc.
Qed.

Section Grows.
Context (hs hs' : history) (Hgr : grows hs hs').

Lemma valid_grows g : valid hs g → valid hs' g.
Proof using Hgr.
  intros Hg i e Hi. destruct (Hg i e Hi) as (c & L & HL & E). destruct (gr_leads _ _ Hgr _ _ _ HL) as [es HL'].
  exists c, (L ++ es). split; [done|]. rewrite E. apply lookup_lt_Some in Hi. rewrite take_app_le; [done|].
  apply (take_length_le (S i) L g); [done|lia].
Qed.

Lemma acked_grows n t m : acked hs n t m → acked hs' n t m.
Proof using Hgr. intros (k & Hk & Ha). exists k. split; [done|]. by apply (gr_acks _ _ Hgr). Qed.

Lemma lacks_grows t k t' : lacks hs t k t' → lacks hs' t k t'.
Proof using Hgr.
  intros (c & L & c' & L' & g & HL & Hk & HL' & Hg & Hne).
  destruct (gr_leads _ _ Hgr _ _ _ HL) as [es Hes]. destruct (gr_leads _ _ Hgr _ _ _ HL') as [es' Hes'].
  exists c, (L ++ es), c', (L' ++ es'), g. rewrite length_app, take_app_le by done.
  split_and!; [done|lia|done|by apply (gr_cands _ _ Hgr)|done].
Qed.

Lemma elected_grows t c : elected hs t c → elected hs' t c.
Proof using Hgr.
  intros (q & Hq & Hv). exists q. split; [done|]. intros x Hx. destruct (Hv x Hx) as (v & Hin & Hrest).
  exists v. split; [by apply (gr_votes _ _ Hgr)|done].
Qed.

Lemma committed_grows t m : committed hs t m → committed hs' t m.
Proof using Hgr.
  intros (c & L & e & q & HL & He & Ht & Hm & Hq & Ha). destruct (gr_leads _ _ Hgr _ _ _ HL) as [es Hes].
  exists c, (L ++ es), e, q. split_and!; [done|by apply lookup_app_l_Some|done..|]. intros x Hx. apply acked_grows. auto.
Qed.

Lemma commit_point_grows g m : commit_point hs g m → commit_point hs' g m.
Proof using Hgr.
  intros [->|(e & Hm & He & Hc)]; [by left|]. right. exists e. split_and!; [done..|]. by apply committed_grows.
Qed.

End Grows.

Lemma grows_add_avote v hs : grows hs (add_avote v hs).
Proof.
  unfold add_avote. destruct (h_leads hs !! av_term v); [done|].
  split; simpl; [intros x Hx; by right|done|done|]. intros t c L HL. exists []. by rewrite app_nil_r.
Qed.

Lemma grows_add_cand n t g hs : grows hs (add_cand n t g hs).
Proof. split; simpl; [done|intros x Hx; by right|done|]. intros t' c L HL. exists []. by rewrite app_nil_r. Qed.

Lemma grows_add_ack n t k hs : grows hs (add_ack n t k hs).
Proof. split; simpl; [done|done|intros x Hx; by right|]. intros t' c L HL. exists []. by rewrite app_nil_r. Qed.

(** ** The invariant is kept *)

Section Kept.
Context (hs hs' : history) (Hok : hist_ok hs) (Hgr : grows hs hs').

Lemma acked_lead x t m c L :
  acked hs x t m → h_leads hs' !! t = Some (c, L) →
  ∃ L0, h_leads hs !! t = Some (c, L0) ∧ take m L = take m L0.
Proof using Hok Hgr.
  intros (k & Hk & Ha) HL. destruct (hi_acks _ Hok _ _ _ Ha) as (c0 & L0 & HL0 & Hlen).
  destruct (gr_leads _ _ Hgr _ _ _ HL0) as [es HL']. rewrite HL in HL'. simplify_eq.
  exists L0. split; [done|]. apply take_app_le. lia.
Qed.

(** Facts of the form kept-or-taken-away stay true. *)
Lemma kept_grows (P : Z → Prop) x g t m c L :
  acked hs x t m → h_leads hs' !! t = Some (c, L) →
  (∀ c L, h_leads hs !! t = Some (c, L) → take m g = take m L ∨ ∃ t', P t' ∧ lacks hs t m t') →
  take m g = take m L ∨ ∃ t', P t' ∧ lacks hs' t m t'.
Proof using Hok Hgr.
  intros Ha HL Hk. destruct (acked_lead x t m c L Ha HL) as (L0 & HL0 & ->).
  destruct (Hk c L0 HL0) as [?|(t' & ? & ?)]; [by left|]. right. exists t'. split; [done|]. by eapply lacks_grows.
Qed.

Lemma lead_ok_grows t c L : lead_ok hs t c L → lead_ok hs' t c L.
Proof using Hgr.
  intros [H1 H2 H3 H4 (g & es & Hg & E & Ht)]. split; [done|by eapply valid_grows|done|by eapply elected_grows|].
  exists g, es. split_and!; [|done..]. by apply (gr_cands _ _ Hgr).
Qed.

Lemma cand_ok_grows c t g :
  cand_ok hs c t g → (∀ h, (c, t, h) ∈ h_cands hs' → (c, t, h) ∈ h_cands hs) → cand_ok hs' c t g.
Proof using Hgr. intros [H1 H2 H3 H4] Hone. split; [by eapply valid_grows|done|done|]. auto. Qed.

Lemma vote_ok_grows v :
  vote_ok hs v →
  (∀ w, w ∈ h_votes hs' → w ∈ h_votes hs ∨
     (av_voter w = av_voter v → av_term w = av_term v → av_for w = av_for v)) →
  (∀ t k, (av_voter v, t, k) ∈ h_acks hs' → (av_voter v, t, k) ∈ h_acks hs ∨ av_term v ≤ t) →
  vote_ok hs' v.
Proof using Hok Hgr.
  intros [H1 (g & Hg & Hup) H3 H4] Hone Hacks. split.
  - by eapply valid_grows.
  - exists g. split; [by apply (gr_cands _ _ Hgr)|done].
  - intros w Hw. destruct (Hone w Hw); auto.
  - intros t m c L (k & Hk & Ha) Ht HL. destruct (Hacks t k Ha) as [Ha'|?]; [|lia].
    assert (acked hs (av_voter v) t m) as Hack by by exists k.
    eapply kept_grows; [exact Hack|exact HL|]. intros c0 L0 HL0. by eapply H4.
Qed.

Lemma node_ok_grows x a :
  node_ok hs x a →
  (a_role a = Candidate → ∀ L, h_leads hs' !! a_term a ≠ Some (x, L)) →
  (a_role a = Leader → h_leads hs' !! a_term a = Some (x, a_log a)) →
  (∀ t g, (x, t, g) ∈ h_cands hs' → (x, t, g) ∈ h_cands hs ∨ t ≤ a_saved a) →
  (∀ v, v ∈ h_votes hs' → v ∈ h_votes hs ∨ (av_voter v = x → av_term v ≤ a_saved a)) →
  (∀ t k, (x, t, k) ∈ h_acks hs' → (x, t, k) ∈ h_acks hs ∨
     (t ≤ a_saved a ∧ ∀ c L, h_leads hs' !! t = Some (c, L) → take k (a_log a) = take k L)) →
  node_ok hs' x a.
Proof using Hok Hgr.
  intros [H1 H2 H3 H4 H5 H6 H7 H8 H9 H10] Hcand Hlead Hcs Hvs Has. split; [done| |done|..].
  - by eapply valid_grows.
  - intros Hr. destruct (H4 Hr) as (? & _ & Hin). split_and!; [done|auto|].
    destruct Hin as [Hin|[[c L] HL]]; [left; by apply (gr_cands _ _ Hgr)|right].
    destruct (gr_leads _ _ Hgr _ _ _ HL) as [es ->]. done.
  - intros Hr. split; [by apply H5|auto].
  - by eapply commit_point_grows.
  - intros t g Hg. destruct (Hcs t g Hg); eauto.
  - intros v Hv Hx. destruct (Hvs v Hv); eauto.
  - intros t k Hk. destruct (Has t k Hk) as [?|[? _]]; eauto.
  - intros t m c L (k & Hk & Ha) HL. destruct (Has t k Ha) as [Ha'|[_ Hnew]].
    + assert (acked hs x t m) as Hack by by exists k.
      eapply kept_grows; [exact Hack|exact HL|]. intros c0 L0 HL0. by eapply H10.
    + left. apply (take_agree m k); [done|]. by eapply Hnew.
Qed.

End Kept.

Lemma ainv_node sp n a : ainv sp → node_ok (sp_hist sp) n a → ainv (set_anode n a sp).
Proof.
  intros [Hh Hn] Ha. split; [done|]. intros x. simpl.
  destruct (decide (n = x)) as [->|Hne]; [by rewrite fn_lookup_insert|by rewrite fn_lookup_insert_ne].
Qed.

(** Changing the volatile part of a node, and what of its term is durable. *)
Lemma node_ok_volatile hs n a t s r m :
  node_ok hs n a → a_saved a ≤ s ≤ t → commit_point hs (a_log a) m →
  r = Follower ∨ (r = a_role a ∧ t = a_term a ∧ (s = t ∨ s = a_saved a)) →
  node_ok hs n (mkANode t s r (a_log a) m).
Proof.
  intros [H1 H2 H3 H4 H5 H6 H7 H8 H9 H10] Hs Hm Hr. split; simpl; try done.
  - lia.
  - eapply Forall_impl; [exact H3|]. simpl. lia.
  - intros ->. destruct Hr as [?|(E & -> & Hst)]; [done|]. symmetry in E. destruct (H4 E) as (? & ? & ?). split; [lia|done].
  - intros ->. destruct Hr as [?|(E & -> & Hst)]; [done|]. symmetry in E. destruct (H5 E). split; [lia|done].
  - intros t' g Hg. specialize (H7 t' g Hg). lia.
  - intros v Hv Hn. specialize (H8 v Hv Hn). lia.
  - intros t' k Hk. specialize (H9 t' k Hk). lia.
  - intros t' k c L Hk HL. destruct (H10 t' k c L Hk HL) as [?|(u & Hu & ?)]; [by left|].
    right. exists u. split; [lia|done].
Qed.

(** A vote: the voter's term is durable, the candidate's log is up to date. *)
Lemma ainv_vote sp n c g :
  let a := sp_node sp n in
  ainv sp → a_saved a = a_term a → (c, a_term a, g) ∈ h_cands (sp_hist sp) → up_to_date g (a_log a) →
  (∀ v, v ∈ h_votes (sp_hist sp) → av_voter v = n → av_term v = a_term a → av_for v = c) →
  ainv (set_hist (add_avote (mkAVote n (a_term a) c (a_log a)) (sp_hist sp)) sp).
Proof.
  intros a [Hh Hn] Hs Hg Hup Hone. set (v := mkAVote _ _ _ _). pose proof (grows_add_avote v (sp_hist sp)) as Hgr.
  unfold set_hist, add_avote in *. destruct (h_leads (sp_hist sp) !! av_term v) as [[c' L']|] eqn:El; [by destruct sp|].
  set (hs' := mkHistory _ _ _ _) in *.
  assert (vote_ok hs' v) as Hv.
  { destruct (Hn n) as [N1 N2 N3 N4 N5 N6 N7 N8 N9 N10]. fold a in N1, N2, N10. split; simpl; [done|by exists g| |].
    - intros w [->|Hw]%elem_of_cons; [done|]. by apply Hone.
    - intros t m c' L Hack Ht HL. destruct (N10 t m c' L Hack HL) as [?|(t' & Ht' & Hl)]; [by left|]. right.
      exists t'. split; [|done]. destruct Hl as (? & ? & ? & ? & ? & _ & _ & Hl' & _).
      assert (t' ≠ a_term a) by (intros ->; simpl in El; congruence). lia. }
  split; simpl.
  - pose proof Hh as [Hl Hvs Hc Ha]. split; simpl.
    1: intros t c' L HL; by eapply lead_ok_grows; [|apply Hl].
    2: intros c' t g' Hg'; by eapply cand_ok_grows; [|apply Hc|].
    2: done.
    intros w [->|Hw]%elem_of_cons; [done|]. apply (vote_ok_grows (sp_hist sp)); [done|done|by apply Hvs| |by left].
    intros u [->|Hu]%elem_of_cons; [|by left]. right. intros Ev Et. symmetry. by apply (vo_one _ _ Hv w); [right|..].
  - intros x. pose proof (Hn x) as Hx. apply (node_ok_grows (sp_hist sp)); try done.
    + intros Hr. by apply (no_candidate _ _ _ Hx).
    + intros Hr. by apply (no_leader _ _ _ Hx).
    + by left.
    + intros w [->|Hw]%elem_of_cons; [right|by left]. intros Ex. simpl in Ex. subst x. fold a. simpl. lia.
    + by left.
Qed.

(** Standing for election. *)
Lemma ainv_campaign sp n :
  let a := sp_node sp n in
  ainv sp → 0 < a_term a → a_saved a = a_term a → Forall (λ e, e_Term e < a_term a) (a_log a) →
  (∀ g, (n, a_term a, g) ∉ h_cands (sp_hist sp)) →
  (∀ v, v ∈ h_votes (sp_hist sp) → av_voter v = n → av_term v ≠ a_term a) →
  ainv (mkSpec (<[n:=mkANode (a_term a) (a_saved a) Candidate (a_log a) (a_commit a)]> (sp_node sp))
    (add_avote (mkAVote n (a_term a) n (a_log a)) (add_cand n (a_term a) (a_log a) (sp_hist sp)))).
Proof.
  intros a [Hh Hn] Hpos Hs Hterms Hnc Hnv. set (hs := add_cand n (a_term a) (a_log a) (sp_hist sp)).
  pose proof (grows_add_cand n (a_term a) (a_log a) (sp_hist sp)) as Hgr. fold hs in Hgr.
  set (a' := mkANode (a_term a) (a_saved a) Candidate (a_log a) (a_commit a)).
  assert (hist_ok hs) as Hh'.
  { pose proof Hh as [Hl Hvs Hc Ha]. split; simpl.
    - intros t c L HL. by eapply lead_ok_grows; [|apply Hl].
    - intros v Hv. apply (vote_ok_grows (sp_hist sp)); [done|done|by apply Hvs|by left..].
    - intros c t g [[= -> -> ->]|Hg]%elem_of_cons.
      + split; [apply (no_valid _ _ _ (Hn n))|done|done|]. intros h [[= ->]|Hh0]%elem_of_cons; [done|]. by destruct (Hnc h).
      + apply (cand_ok_grows (sp_hist sp)); [done|by apply Hc|]. intros h [[= -> -> ->]|?]%elem_of_cons; [|done].
        by destruct (Hnc g).
    - done. }
  assert (∀ x, node_ok hs x (sp_node sp x)) as Hn'.
  { intros x. pose proof (Hn x) as Hx. apply (node_ok_grows (sp_hist sp)); try done.
    - intros Hr. by apply (no_candidate _ _ _ Hx).
    - intros Hr. by apply (no_leader _ _ _ Hx).
    - intros t g [[= -> -> ->]|?]%elem_of_cons; [right; fold a; lia|by left].
    - by left.
    - by left. }
  assert (ainv (mkSpec (<[n:=a']> (sp_node sp)) hs)) as Hmid.
  { apply (ainv_node (mkSpec (sp_node sp) hs)); [done|]. simpl. destruct (Hn' n) as [N1 N2 N3 N4 N5 N6 N7 N8 N9 N10].
    split; simpl; try done. intros _. split_and!; [done| |left; by apply elem_of_cons; left].
    intros L HL. destruct (lo_cand _ _ _ _ (hi_leads _ Hh _ _ _ HL)) as (g & _ & Hg & _). by destruct (Hnc g). }
  assert (sp_node (mkSpec (<[n:=a']> (sp_node sp)) hs) n = a') as Ea by apply fn_lookup_insert.
  pose proof (ainv_vote (mkSpec (<[n:=a']> (sp_node sp)) hs) n n (a_log a) Hmid) as Hvote. rewrite Ea in Hvote.
  apply Hvote; [done|by apply elem_of_cons; left|right; done|]. intros v Hv E1 E2. by destruct (Hnv v Hv E1).
Qed.

Lemma lead_terms hs t c L : hist_ok hs → h_leads hs !! t = Some (c, L) → Forall (λ e, e_Term e ≤ t) L.
Proof.
  intros Hh HL. destruct (lo_cand _ _ _ _ (hi_leads _ Hh _ _ _ HL)) as (g & es & Hg & -> & Hes).
  apply Forall_app. split.
  - eapply Forall_impl; [apply (co_terms _ _ _ _ (hi_cands _ Hh _ _ _ Hg))|]. simpl. lia.
  - eapply Forall_impl; [exact Hes|]. simpl. lia.
Qed.

Lemma valid_take hs p g : valid hs g → valid hs (take p g).
Proof.
  intros Hg i e Hi. apply lookup_take_Some in Hi as [Hi Hp]. destruct (Hg i e Hi) as (c & L & HL & E).
  exists c, L. split; [done|]. by rewrite take_take, Nat.min_l by lia.
Qed.

(** A prefix of the leader's log arrives. *)
Lemma overwrite_ok hs n a c L p :
  hist_ok hs → node_ok hs n a → h_leads hs !! a_term a = Some (c, L) → c ≠ n → a_saved a = a_term a →
  (p ≤ length L)%nat →
  node_ok hs n (mkANode (a_term a) (a_saved a) (a_role a) (overwrite p L (a_log a)) (a_commit a)).
Proof.
  intros Hh [N1 N2 N3 N4 N5 N6 N7 N8 N9 N10] HL Hcn Hs Hp. unfold overwrite. case_decide as Hd; [by split|].
  pose proof (lead_terms hs _ _ _ Hh HL) as HLt.
  split; simpl; try done.
  - apply valid_take. apply (lo_valid _ _ _ _ (hi_leads _ Hh _ _ _ HL)).
  - rewrite Hs. by apply Forall_take.
  - intros Hr. destruct (N4 Hr) as (? & ? & _). split_and!; [done..|]. right. by rewrite HL.
  - intros Hr. destruct (N5 Hr) as [_ HL']. rewrite HL in HL'. congruence.
  - destruct (decide (a_commit a = 0%nat)) as [->|Hm0]; [by left|].
    destruct (commit_point_lead hs Hh (a_log a) (a_commit a) (a_term a) c L) as [Hm Hlen]; [done|done|by rewrite <- Hs|done|].
    assert (a_commit a ≤ p)%nat as Hmp.
    { destruct (decide (a_commit a ≤ p)%nat) as [?|?]; [done|]. destruct Hd. apply (take_agree p (a_commit a)); [lia|done]. }
    destruct N6 as [?|(e & Hpos & He & Hc)]; [done|]. right. exists e. split_and!; [done| |done].
    rewrite lookup_take_lt by lia. rewrite <- He. symmetry. apply (take_lookup_agree (a_commit a)); [lia|done].
  - intros t m c' L' Hack HL'. pose proof Hack as (k & Hk & Hin). destruct (hi_acks _ Hh _ _ _ Hin) as (c0 & L0 & HL0 & Hlen).
    rewrite HL' in HL0. injection HL0 as <- <-. specialize (N9 t k Hin).
    destruct (decide (take m L = take m L')) as [Em|Em].
    + destruct (N10 t m c' L' Hack HL') as [Ekept|?]; [|by right]. left.
      assert (m ≤ p)%nat as Hmp.
      { destruct (decide (m ≤ p)%nat) as [?|?]; [done|]. destruct Hd. apply (take_agree p m); [lia|congruence]. }
      by rewrite take_take, Nat.min_l.
    + right. exists (a_term a). assert (t ≠ a_term a) by (intros ->; congruence). split; [lia|].
      destruct (lo_cand _ _ _ _ (hi_leads _ Hh _ _ _ HL)) as (g & es & Hg & E & _).
      exists c', L', c, L, g. split_and!; [done|lia|done|done|]. intros Eg. apply Em.
      rewrite E, take_app_le; [done|]. apply (take_length_le m g L'); [done|lia].
Qed.

Lemma overwrite_has p L g : take p (overwrite p L g) = take p L.
Proof. unfold overwrite. case_decide; [done|]. by rewrite take_take, Nat.min_id. Qed.

Lemma ainv_receive sp n c L p :
  let a := sp_node sp n in
  ainv sp → h_leads (sp_hist sp) !! a_term a = Some (c, L) → c ≠ n → a_saved a = a_term a → (p ≤ length L)%nat →
  ainv (mkSpec (<[n:=mkANode (a_term a) (a_saved a) (a_role a) (overwrite p L (a_log a)) (a_commit a)]> (sp_node sp))
    (add_ack n (a_term a) p (sp_hist sp))).
Proof.
  intros a Ha HL Hcn Hs Hp. set (a' := mkANode _ _ _ _ _).
  assert (ainv (set_anode n a' sp)) as [Hh Hn].
  { apply ainv_node; [done|]. by apply (overwrite_ok _ n a c L p); [apply Ha|apply Ha|..]. }
  simpl in Hh, Hn. pose proof (grows_add_ack n (a_term a) p (sp_hist sp)) as Hgr.
  assert (∀ v, v ∈ h_votes (sp_hist sp) → av_voter v = n → av_term v ≤ a_term a) as Hvotes.
  { intros v Hv E. rewrite <- Hs. by apply (no_votes _ _ _ (proj2 Ha n)). }
  split; simpl.
  - pose proof Hh as [Hl Hvs Hc Hacks]. split; simpl.
    + intros t c' L' HL'. by eapply lead_ok_grows; [|apply Hl].
    + intros v Hv. apply (vote_ok_grows (sp_hist sp)); [done|done|by apply Hvs|by left|].
      intros t k [[= E -> ->]|?]%elem_of_cons; [right|by left]. by apply Hvotes.
    + intros c' t g Hg. by eapply cand_ok_grows; [|apply Hc|].
    + intros x t k [[= -> -> ->]|Hin]%elem_of_cons; [by exists c, L|]. by eapply Hacks.
  - intros x. specialize (Hn x). pose proof Hn as Hx. apply (node_ok_grows (sp_hist sp)); try done.
    + intros Hr. by apply (no_candidate _ _ _ Hx).
    + intros Hr. by apply (no_leader _ _ _ Hx).
    + by left.
    + by left.
    + intros t k [[= -> -> ->]|?]%elem_of_cons; [right|by left]. rewrite fn_lookup_insert. simpl. split; [lia|].
      intros c' L' HL'. rewrite HL in HL'. simplify_eq. apply overwrite_has.
Qed.

(** A leader writes an entry: its first, on election, or a later one. *)
Section LeadWrite.
Context (sp : spec) (n : NodeID) (e : LogEntry).
Let a := sp_node sp n.
Let g := a_log a.
Context (Hsp : ainv sp) (Hsaved : a_saved a = a_term a) (He : e_Term e = a_term a).
Context (Hel : elected (sp_hist sp) (a_term a) n).
Context (Hcase : (h_leads (sp_hist sp) !! a_term a = None ∧ (n, a_term a, g) ∈ h_cands (sp_hist sp)) ∨
                 h_leads (sp_hist sp) !! a_term a = Some (n, g)).

Let L := g ++ [e].
Let hs' := add_ack n (a_term a) (length L) (set_lead (a_term a) n L (sp_hist sp)).

Lemma write_grows : grows (sp_hist sp) hs'.
Proof using Hcase.
  split; simpl; [done|done|intros x Hx; by right|]. intros t c L0 HL0.
  destruct (decide (t = a_term a)) as [->|Hne].
  - rewrite lookup_insert_eq. clear Hsaved Hel He. destruct Hcase as [[Hnone _]|Hsome]; [congruence|].
    rewrite Hsome in HL0. injection HL0 as <- <-. by exists [e].
  - rewrite lookup_insert_ne by done. exists []. by rewrite app_nil_r.
Qed.

Lemma write_lead_ok : lead_ok hs' (a_term a) n L.
Proof using Hsp Hsaved He Hel Hcase.
  destruct Hsp as [Hh Hn]. pose proof (Hn n) as Na. fold a in Na. pose proof write_grows as Hgr. split.
  - destruct Hcase as [[_ Hc]|Hl]; [apply (co_pos _ _ _ _ (hi_cands _ Hh _ _ _ Hc))|apply (lo_pos _ _ _ _ (hi_leads _ Hh _ _ _ Hl))].
  - intros i x Hx. apply lookup_app_Some in Hx as [Hx|[Hi Hx]].
    + destruct (valid_grows _ _ Hgr g (no_valid _ _ _ Na) i x Hx) as (c & L0 & HL0 & E). exists c, L0. split; [done|].
      rewrite <- E. apply take_app_le. apply lookup_lt_Some in Hx. lia.
    + apply list_lookup_singleton_Some in Hx as [Hi' <-]. exists n, L. rewrite He. simpl. by rewrite lookup_insert_eq.
  - intros i j x y Hij Hx Hy. unfold L in Hx, Hy. apply lookup_app_Some in Hy as [Hy|[Hj Hy]].
    + rewrite lookup_app_l in Hx by (apply lookup_lt_Some in Hy; lia).
      by eapply (valid_ordered _ Hh g (no_valid _ _ _ Na) i j).
    + apply list_lookup_singleton_Some in Hy as [_ <-]. apply lookup_app_Some in Hx as [Hx|[_ Hx]].
      * pose proof (no_terms _ _ _ Na) as Ht. rewrite Forall_lookup in Ht. specialize (Ht i x Hx). lia.
      * apply list_lookup_singleton_Some in Hx as [_ <-]. done.
  - eapply elected_grows; [apply write_grows|exact Hel].
  - destruct Hcase as [[_ Hc]|Hl].
    + exists g, [e]. split_and!; [done..|]. by constructor.
    + destruct (lo_cand _ _ _ _ (hi_leads _ Hh _ _ _ Hl)) as (g0 & es & Hg0 & E & Hes). exists g0, (es ++ [e]).
      split_and!; [done| |]; [unfold L; rewrite E; by rewrite app_assoc|]. apply Forall_app. split; [done|by constructor].
Qed.

Lemma ainv_lead_write : ainv (lead_write n e sp).
Proof using Hsp Hsaved He Hel Hcase.
  pose proof Hsp as [Hh Hn]. pose proof write_grows as Hgr. pose proof write_lead_ok as HLok.
  pose proof (Hn n) as Na. fold a in Na.
  unfold lead_write. fold a g L hs'. split; simpl.
  - pose proof Hh as [Hl Hvs Hc Hacks]. split.
    + intros t c L0 HL0. simpl in HL0. destruct (decide (t = a_term a)) as [->|Hne].
      * rewrite lookup_insert_eq in HL0. by simplify_eq.
      * rewrite lookup_insert_ne in HL0 by done. by eapply lead_ok_grows; [|apply Hl].
    + intros v Hv. apply (vote_ok_grows (sp_hist sp)); [done|done|by apply Hvs|by left|].
      intros t k [[= E -> ->]|?]%elem_of_cons; [right|by left]. rewrite <- Hsaved. by apply (no_votes _ _ _ Na).
    + intros c t g0 Hg0. by eapply cand_ok_grows; [|apply Hc|].
    + intros x t k [[= -> -> ->]|Hin]%elem_of_cons; [exists n, L; simpl; by rewrite lookup_insert_eq|].
      destruct (Hacks x t k Hin) as (c & L0 & HL0 & Hk). destruct (gr_leads _ _ Hgr _ _ _ HL0) as [es HL'].
      exists c, (L0 ++ es). split; [done|]. rewrite length_app. lia.
  - intros x. destruct (decide (n = x)) as [<-|Hne].
    + rewrite fn_lookup_insert. split; simpl.
      * by apply (no_saved _ _ _ Na).
      * by apply (lo_valid _ _ _ _ HLok).
      * rewrite Hsaved. apply Forall_app. split; [by rewrite <- Hsaved; apply (no_terms _ _ _ Na)|]. constructor; [lia|done].
      * done.
      * intros _. by rewrite lookup_insert_eq.
      * destruct (commit_point_grows _ _ Hgr _ _ (no_commit _ _ _ Na)) as [->|(x & Hm & Hx & Hc)]; [by left|].
        right. exists x. split_and!; [done|by apply lookup_app_l_Some|done].
      * by apply (no_cands _ _ _ Na).
      * by apply (no_votes _ _ _ Na).
      * intros t k [[= -> ->]|Hk]%elem_of_cons; [lia|]. by eapply (no_acks _ _ _ Na).
      * intros t m c L0 (k & Hk & Hin) HL0. apply elem_of_cons in Hin as [[= -> ->]|Hin].
        { rewrite lookup_insert_eq in HL0. simplify_eq. by left. }
        assert (acked (sp_hist sp) n t m) as Hack by by exists k.
        destruct (acked_lead _ _ Hh Hgr n t m c L0 Hack HL0) as (L1 & HL1 & ->).
        destruct (no_kept _ _ _ Na t m c L1 Hack HL1) as [Ek|(t' & ? & ?)].
        { left. rewrite <- Ek. apply take_app_le. apply (take_length_le m g L1); [done|].
          destruct (hi_acks _ Hh _ _ _ Hin) as (c2 & L2 & HL2 & Hlen). rewrite HL1 in HL2. simplify_eq. lia. }
        right. exists t'. split; [done|]. by eapply lacks_grows.
    + rewrite fn_lookup_insert_ne by done. pose proof (Hn x) as Nx. apply (node_ok_grows (sp_hist sp)); try done.
      * intros Hr L0 HL0. destruct (decide (a_term (sp_node sp x) = a_term a)) as [E|E]; simpl in HL0.
        { rewrite E, lookup_insert_eq in HL0. by simplify_eq. }
        rewrite lookup_insert_ne in HL0 by done. by destruct (no_candidate _ _ _ Nx Hr) as (_ & Hno & _); eapply Hno.
      * intros Hr. destruct (no_leader _ _ _ Nx Hr) as [_ HL0]. simpl.
        destruct (decide (a_term (sp_node sp x) = a_term a)) as [E|E]; [|by rewrite lookup_insert_ne].
        rewrite E in HL0. destruct Hcase as [[Hnone _]|Hsome]; congruence.
      * by left.
      * by left.
      * intros t k [[= -> -> ->]|?]%elem_of_cons; [done|by left].
Qed.

End LeadWrite.

Theorem ainv_step sp sp' : ainv sp → astep sp sp' → ainv sp' ∧ grows (sp_hist sp) (sp_hist sp').
Proof.
  intros Hsp Hstep. destruct Hstep as [n t r a Ht Hr|n a|n t a Ht|n a Hpos Hs Hterms Hnc Hnv|n c g a Hs Hg Hup Hone
    |n e q a Hr Hl Hq Hv He|n e a Hr He|n c L p a HL Hcn Hs Hp|n m a Hm]; pose proof (proj2 Hsp n) as Na; fold a in Na.
  - split; [|done]. apply ainv_node; [done|]. apply node_ok_volatile; [done| |by apply (no_commit _ _ _ Na)|].
    + pose proof (no_saved _ _ _ Na). lia.
    + destruct Hr as [?|[? ?]]; [by left|]. right. split_and!; [done..|by right].
  - split; [|done]. apply ainv_node; [done|]. apply node_ok_volatile; [done| |by apply (no_commit _ _ _ Na)|].
    + pose proof (no_saved _ _ _ Na). lia.
    + right. split_and!; [done..|by left].
  - split; [|done]. apply ainv_node; [done|]. apply node_ok_volatile; [done|lia|by left|by left].
  - split; [by apply ainv_campaign|]. simpl. etrans; [apply grows_add_cand|apply grows_add_avote].
  - split; [by apply (ainv_vote _ _ _ g)|]. simpl. apply grows_add_avote.
  - destruct (no_candidate _ _ _ Na Hr) as (Hs & _ & Hin).
    assert ((n, a_term a, a_log a) ∈ h_cands (sp_hist sp)) as Hc by (destruct Hin as [?|[? ?]]; [done|congruence]).
    assert (elected (sp_hist sp) (a_term a) n) as Hel by by exists q.
    split; [apply ainv_lead_write; by auto|]. apply write_grows; by auto.
  - destruct (no_leader _ _ _ Na Hr) as [Hs HL]. pose proof (lo_elected _ _ _ _ (hi_leads _ (proj1 Hsp) _ _ _ HL)) as Hel.
    split; [apply ainv_lead_write; by auto|]. apply write_grows; by auto.
  - split; [by apply (ainv_receive _ _ c)|]. simpl. apply grows_add_ack.
  - split; [|done]. apply ainv_node; [done|]. apply node_ok_volatile; [done| |done|].
    + pose proof (no_saved _ _ _ Na). lia.
    + right. split_and!; [done..|by right].
Qed.

Lemma ainv_initial sp : ainitial sp → ainv sp.
Proof.
  intros (Hn & Ev & Ec & El & Ea). split.
  - split; rewrite ?El, ?Ev, ?Ec, ?Ea; [by intros t c L HL|by intros v Hv%elem_of_nil|by intros c t g Hg%elem_of_nil|].
    by intros x t k' Hk%elem_of_nil.
  - intros n. rewrite Hn. split; simpl; [done|by intros i e Hi|by constructor|done|done|by left|..].
    + intros t g Hg. rewrite Ec in Hg. by apply elem_of_nil in Hg.
    + intros v Hv. rewrite Ev in Hv. by apply elem_of_nil in Hv.
    + intros t k' Hk. rewrite Ea in Hk. by apply elem_of_nil in Hk.
    + intros t m c L (k' & _ & Hk). rewrite Ea in Hk. by apply elem_of_nil in Hk.
Qed.

Lemma ainv_steps sp sp' : ainv sp → rtc astep sp sp' → ainv sp' ∧ grows (sp_hist sp) (sp_hist sp').
Proof.
  intros Hsp. induction 1 as [sp|sp1 sp2 sp3 Hs _ IH]; [done|].
  destruct (ainv_step _ _ Hsp Hs) as [Hsp2 Hg]. destruct (IH Hsp2) as [Hsp3 Hg']. split; [done|by etrans].
Qed.

End Spec.

(** * Raft: the whole log behind a compacted one

    A server keeps the tail of its log behind a sentinel; the specification speaks of
    the whole log.  [rep l g] says that the slice [l] stands for the whole log [g], and
    the lemmas give each of the source's log operations on [l] its meaning on [g]. *)

From S2P Require Import RaftLog RaftServer RaftSnapshot RaftCommit RaftRestart.

(** Entries carry their position, counted from one. *)
Definition indexed (g : list LogEntry) : Prop :=
  ∀ i e, g !! i = Some e → e_Index e = Z.of_nat i + 1.

(** The term of the entry at index [i], zero before the first. *)
Definition term_at (g : list LogEntry) (i : nat) : Z := log_term (take i g).

Definition base (l : list LogEntry) : nat := Z.to_nat (baseIndex l).

Record rep (l g : list LogEntry) : Prop := {
  rep_wf : log_wf l;
  rep_indexed : indexed g;
  rep_base : (base l ≤ length g)%nat;
  rep_sentinel : baseTerm l = term_at g (base l);
  rep_blank : e_Command (default zeroEntry (head l)) = None;
  rep_tail : tail l = drop (base l) g
}.

Lemma term_at_lookup g i e : g !! i = Some e → term_at g (S i) = e_Term e.
Proof. intros He. unfold term_at, log_term. by rewrite (take_S_r _ _ e), last_snoc. Qed.

Lemma term_at_all g i : (length g ≤ i)%nat → term_at g i = log_term g.
Proof. intros Hi. unfold term_at. by rewrite take_ge. Qed.

Lemma term_at_agree g h i : take i g = take i h → term_at g i = term_at h i.
Proof. unfold term_at. by intros ->. Qed.

Lemma indexed_take g n : indexed g → indexed (take n g).
Proof. intros Hg i e [Hi _]%lookup_take_Some. by apply Hg. Qed.

Lemma indexed_snoc g e : indexed g → e_Index e = Z.of_nat (length g) + 1 → indexed (g ++ [e]).
Proof.
  intros Hg He i x [Hx|[Hi Hx]]%lookup_app_Some; [by apply Hg|].
  apply list_lookup_singleton_Some in Hx as [? <-]. lia.
Qed.

Section Rep.
Context (l g : list LogEntry) (Hrep : rep l g).

Lemma base_Z : Z.of_nat (base l) = baseIndex l.
Proof using Hrep. unfold base. pose proof (wf_base l (rep_wf _ _ Hrep)). lia. Qed.

Lemma rep_length : length l = S (length g - base l).
Proof using Hrep.
  pose proof (rep_tail _ _ Hrep) as Ht. pose proof (wf_nonempty l (rep_wf _ _ Hrep)) as Hne.
  destruct l as [|x l']; [done|]. simpl in *. by rewrite Ht, length_drop.
Qed.

Lemma rep_last : lastIndex l = Z.of_nat (length g).
Proof using Hrep.
  rewrite lastIndex_wf by apply Hrep. rewrite rep_length. pose proof (rep_base _ _ Hrep). pose proof base_Z. lia.
Qed.

Lemma rep_lookup k : l !! S k = g !! (base l + k)%nat.
Proof using Hrep.
  pose proof (rep_tail _ _ Hrep) as Ht. destruct l as [|x l']; [by destruct (wf_nonempty _ (rep_wf _ _ Hrep))|].
  simpl in *. by rewrite Ht, lookup_drop.
Qed.

Lemma rep_entry (i : nat) : (base l < i)%nat → entryAt l (Z.of_nat i) = g !! pred i.
Proof using Hrep.
  intros Hi. pose proof base_Z. rewrite entryAt_lookup by (apply Hrep || lia).
  replace (Z.to_nat (Z.of_nat i - baseIndex l)) with (S (i - base l - 1)) by lia.
  rewrite rep_lookup. f_equal. lia.
Qed.

Lemma rep_head : ∃ x, head l = Some x ∧ e_Term x = term_at g (base l) ∧ l = x :: drop (base l) g.
Proof using Hrep.
  pose proof (rep_tail _ _ Hrep) as Ht. pose proof (rep_sentinel _ _ Hrep) as Hs. unfold baseTerm in Hs.
  destruct l as [|x l'] eqn:E; [by destruct (wf_nonempty _ (rep_wf _ _ Hrep))|]. exists x. simpl in *. by rewrite Ht.
Qed.

Lemma rep_term (i : nat) : (base l ≤ i ≤ length g)%nat → termAt l (Z.of_nat i) = Some (term_at g i).
Proof using Hrep.
  intros Hi. unfold termAt. destruct (decide (i = base l)) as [->|Hne].
  - rewrite base_Z, entryAt_lookup, Z.sub_diag by (apply Hrep || lia). destruct rep_head as (x & Hx & Ht & El).
    rewrite head_lookup in Hx. change (Z.to_nat 0) with 0%nat. rewrite Hx. simpl. by rewrite Ht.
  - rewrite rep_entry by lia. destruct (lookup_lt_is_Some_2 g (pred i)) as [e He]; [lia|]. rewrite He. simpl.
    rewrite <- (term_at_lookup g (pred i) e He). do 2 f_equal. lia.
Qed.

Lemma rep_lastTerm : lastTerm l = log_term g.
Proof using Hrep.
  pose proof (rep_term (length g)) as Ht. rewrite <- rep_last in Ht. unfold termAt in Ht.
  pose proof (rep_base _ _ Hrep). specialize (Ht ltac:(lia)). rewrite term_at_all in Ht by done.
  unfold entryAt in Ht. destruct (_ || _); [done|]. pose proof (rep_wf _ _ Hrep) as Hl.
  rewrite slot_wf in Ht by (try done; pose proof (base_le_last l Hl); lia).
  rewrite lastIndex_wf in Ht by done. unfold lastTerm. rewrite last_lookup.
  replace (Z.to_nat (baseIndex l + Z.of_nat (length l) - 1 - baseIndex l)) with (pred (length l)) in Ht
    by (pose proof (length_wf l Hl); lia).
  destruct (l !! pred (length l)); simpl in *; by simplify_eq.
Qed.

Lemma rep_room n : room n l ↔ Z.of_nat (length g) + 1 + Z.of_nat n < 2 ^ 63.
Proof using Hrep. unfold room. rewrite rep_length. pose proof base_Z. pose proof (rep_base _ _ Hrep). lia. Qed.

(** Appending at the end. *)
Lemma rep_snoc e :
  e_Index e = Z.of_nat (length g) + 1 → Z.of_nat (length g) + 2 < 2 ^ 63 → rep (l ++ [e]) (g ++ [e]).
Proof using Hrep.
  intros He Hroom. pose proof (rep_wf _ _ Hrep) as Hl. pose proof (rep_base _ _ Hrep) as Hb.
  assert (base (l ++ [e]) = base l) as Eb by (unfold base; by rewrite baseIndex_app by apply Hl).
  assert (baseTerm (l ++ [e]) = baseTerm l) as Et by (unfold baseTerm; destruct l; [by destruct (wf_nonempty _ Hl)|done]).
  split.
  - pose proof (log_wf_snoc l (e_Term e) (e_Command e) Hl) as Hw. destruct e as [t i cmd]. simpl in *.
    rewrite rep_last in Hw. rewrite <- He in Hw. apply Hw. apply rep_room. lia.
  - apply indexed_snoc; [apply Hrep|done].
  - rewrite Eb, length_app. lia.
  - rewrite Et, Eb, (rep_sentinel _ _ Hrep). apply term_at_agree. symmetry. by apply take_app_le.
  - pose proof (rep_blank _ _ Hrep). destruct l; [by destruct (wf_nonempty _ Hl)|done].
  - rewrite Eb, drop_app_le, <- (rep_tail _ _ Hrep) by done. destruct l; [by destruct (wf_nonempty _ Hl)|done].
Qed.

(** Truncation at an index of the log. *)
Lemma rep_discard (idx : nat) :
  (base l ≤ idx ≤ length g)%nat → rep (discardThrough (Z.of_nat idx) (term_at g idx) l) g.
Proof using Hrep.
  intros Hi. pose proof (rep_wf _ _ Hrep) as Hl. pose proof rep_last as Hlast. pose proof base_Z as Hb.
  assert (base (discardThrough (Z.of_nat idx) (term_at g idx) l) = idx) as Eb
    by (unfold base; rewrite discardThrough_base; lia).
  split.
  - apply discardThrough_wf; [done|lia].
  - apply Hrep.
  - rewrite Eb. lia.
  - by rewrite Eb.
  - done.
  - rewrite Eb. simpl. rewrite slot_wf by (done || lia).
    replace (Z.to_nat (Z.of_nat idx - baseIndex l)) with (idx - base l)%nat by lia.
    destruct rep_head as (x & _ & _ & El). rewrite El at 2. simpl. rewrite drop_drop. f_equal. lia.
Qed.

End Rep.

(** A sentinel alone, after a snapshot. *)
Lemma rep_single (g : list LogEntry) (idx : nat) :
  indexed g → (idx ≤ length g)%nat → Z.of_nat idx + 1 < 2 ^ 63 →
  rep [mkEntry (term_at g idx) (Z.of_nat idx) None] (take idx g).
Proof.
  intros Hg Hi Hb. assert (base [mkEntry (term_at g idx) (Z.of_nat idx) None] = idx) as Eb by (apply Nat2Z.id).
  split.
  - assert (baseIndex [mkEntry (term_at g idx) (Z.of_nat idx) None] = Z.of_nat idx) as Ei by done.
    split; rewrite ?Ei; [done|lia| |simpl length; lia]. intros [|k] e; [|done]. intros [= <-]. simpl. lia.
  - by apply indexed_take.
  - rewrite Eb, length_take. lia.
  - rewrite Eb. unfold baseTerm, term_at. simpl. by rewrite take_take, Nat.min_id.
  - done.
  - rewrite Eb. simpl. rewrite drop_ge; [done|]. rewrite length_take. lia.
Qed.

Lemma rep_initial : rep [zeroEntry] [].
Proof. apply (rep_single [] 0); [by intros i e Hi|simpl; lia|lia]. Qed.

(** The same index and term: the same log up to there. *)
Definition matching_at (g L : list LogEntry) : Prop :=
  ∀ i x y, g !! i = Some x → L !! i = Some y → e_Term x = e_Term y → take (S i) g = take (S i) L.

Lemma matching_term g L i :
  matching_at g L → (i ≤ length g)%nat → (i ≤ length L)%nat → term_at g i = term_at L i → take i g = take i L.
Proof.
  intros Hm Hg HL Ht. destruct i as [|i]; [done|].
  destruct (lookup_lt_is_Some_2 g i) as [x Hx]; [lia|]. destruct (lookup_lt_is_Some_2 L i) as [y Hy]; [lia|].
  apply (Hm i x y Hx Hy). by rewrite <- (term_at_lookup g i x Hx), <- (term_at_lookup L i y Hy).
Qed.

Lemma merge_overwrite g L (p j : nat) :
  matching_at g L → (j ≤ p ≤ length L)%nat → take j g = take j L →
  merge (drop j g) (drop j (take p L)) = drop j (overwrite p L g).
Proof.
  intros Hm. remember (p - j)%nat as n eqn:En. revert j En. induction n as [|n IH]; intros j En Hj Eg.
  { replace j with p in * by lia. unfold overwrite. rewrite decide_True by done.
    rewrite (drop_ge (take p L)) by (rewrite length_take; lia). apply merge_nil_r. }
  destruct (lookup_lt_is_Some_2 L j) as [y Hy]; [lia|].
  assert (take p L !! j = Some y) as Hyp by (rewrite lookup_take_lt by lia; done).
  destruct (g !! j) as [x|] eqn:Hx.
  - rewrite (drop_S g x j Hx), (drop_S (take p L) y j Hyp). simpl. destruct (Z.eqb_spec (e_Term x) (e_Term y)) as [E|E].
    + pose proof (Hm j x y Hx Hy E) as Eg'. rewrite (IH (S j)) by (done || lia).
      assert (overwrite p L g !! j = Some x) as Ho.
      { unfold overwrite. case_decide; [done|]. rewrite Hyp, <- Hy, <- Hx. symmetry. apply (take_lookup_agree (S j)); [lia|done]. }
      by rewrite (drop_S _ x j Ho).
    + unfold overwrite. rewrite decide_False; [by rewrite (drop_S (take p L) y j Hyp)|].
      intros E'. apply E. assert (Some x = Some y) as [= ->]; [|done]. rewrite <- Hx, <- Hy. by apply (take_lookup_agree p); [lia|].
  - apply lookup_ge_None in Hx. rewrite (drop_ge g) by done. rewrite merge_nil_l. unfold overwrite.
    rewrite decide_False; [done|]. intros E'%(f_equal length). rewrite !length_take in E'. lia.
Qed.

Lemma stamp_id idx es : (∀ k e, es !! k = Some e → e_Index e = idx + Z.of_nat k) → stamp idx es = es.
Proof.
  revert idx. induction es as [|e es IH]; intros idx Hi; simpl; [done|]. rewrite IH.
  - pose proof (Hi 0%nat e eq_refl) as He. rewrite Z.add_0_r in He. subst. by destruct e.
  - intros k x Hx. rewrite (Hi (S k) x Hx). lia.
Qed.

Lemma overwrite_take p L g j : (j ≤ p)%nat → take j g = take j L → take j (overwrite p L g) = take j g.
Proof. intros Hj E. unfold overwrite. case_decide; [done|]. by rewrite take_take, Nat.min_l. Qed.

Lemma overwrite_length p L g : (length (overwrite p L g) ≤ length g `max` length L)%nat.
Proof. unfold overwrite. case_decide; [lia|]. rewrite length_take. lia. Qed.

Lemma overwrite_indexed p L g : indexed g → indexed L → indexed (overwrite p L g).
Proof. intros Hg HL. unfold overwrite. case_decide; [done|]. by apply indexed_take. Qed.

Lemma splice {A} (b j : nat) (g h : list A) :
  (b ≤ j)%nat → (j ≤ length h)%nat → take j h = take j g → take (j - b) (drop b g) ++ drop j h = drop b h.
Proof.
  intros Hb Hj E. rewrite take_drop_commute. replace (b + (j - b))%nat with j by lia. rewrite <- E.
  rewrite <- (take_drop j h) at 3. rewrite drop_app_le; [done|]. rewrite length_take. lia.
Qed.

(** [appendFrom] with the entries after [prev] of a prefix of the sender's log: the
    prefix is written over the receiver's, if the logs agree up to [prev] and up to
    the receiver's boundary. *)
Lemma rep_append l g L (prev p : nat) :
  rep l g → indexed L → matching_at g L → (prev ≤ p ≤ length L)%nat → (prev ≤ length g)%nat →
  Z.of_nat (length g) + Z.of_nat (length L) + 1 < 2 ^ 63 →
  take ((prev `max` base l) `min` p) g = take ((prev `max` base l) `min` p) L →
  rep (appendFrom (Z.of_nat prev) (drop prev (take p L)) l).1 (overwrite p L g).
Proof.
  intros Hrep HL Hm Hp Hprev Hroom Hag. pose proof (rep_wf _ _ Hrep) as Hl. pose proof (base_Z _ _ Hrep) as Hb.
  pose proof (rep_last _ _ Hrep) as Hlast. pose proof (rep_base _ _ Hrep) as Hbase.
  set (es := drop prev (take p L)).
  assert (length es = (p - prev)%nat) as Hes by (unfold es; rewrite length_drop, length_take; lia).
  assert (room (length es) l) as Hr by (apply (rep_room l g Hrep); lia).
  pose proof (appendFrom_wf (Z.of_nat prev) es l Hl Hr ltac:(lia)) as Hwf.
  pose proof (appendFrom_base (Z.of_nat prev) es l Hl Hr ltac:(lia)) as Hb'.
  rewrite appendFrom_merge in Hwf, Hb' |- * by (done || lia). cbv zeta in *.
  set (j := (prev `max` base l)%nat) in *.
  replace (Z.max (Z.of_nat prev) (baseIndex l) + 1) with (Z.of_nat j + 1) in * by lia.
  replace (Z.to_nat (Z.of_nat j + 1 - baseIndex l)) with (S (j - base l))%nat in * by lia.
  replace (Z.to_nat (baseIndex l - Z.of_nat prev)) with (j - prev)%nat in * by lia.
  assert (drop (j - prev) es = drop j (take p L)) as Edrop by (unfold es; rewrite drop_drop; f_equal; lia).
  rewrite Edrop in *. rewrite stamp_id in Hwf, Hb' |- *.
  2-4: intros k e Hk; rewrite lookup_drop in Hk; apply lookup_take_Some in Hk as [Hk _]; rewrite (HL _ _ Hk); lia.
  destruct (rep_head _ _ Hrep) as (x & Hx & Ht & El).
  assert (take (S (j - base l)) l = x :: take (j - base l) (drop (base l) g)) as Etake by by rewrite El at 2.
  assert (drop (S (j - base l)) l = drop j g) as Edrop'.
  { rewrite El at 2. simpl. rewrite drop_drop. f_equal. lia. }
  assert (take (base l) (overwrite p L g) = take (base l) g ∧
    take (j - base l) (drop (base l) g) ++ merge (drop j g) (drop j (take p L)) = drop (base l) (overwrite p L g)) as [Eb Em].
  { destruct (decide (j ≤ p)%nat) as [Hjp|Hjp].
    - rewrite Nat.min_l in Hag by done. rewrite merge_overwrite by (done || lia).
      pose proof (overwrite_take p L g j Hjp Hag) as Ej.
      split; [apply (take_agree _ j); [lia|done]|]. apply splice; [lia| |done].
      pose proof (take_length_le j g L Hag ltac:(lia)). apply (take_length_le j _ g); [done|lia].
    - rewrite Nat.min_r in Hag by lia. unfold overwrite. rewrite decide_True by done. split; [done|].
      rewrite (drop_ge (take p L)) by (rewrite length_take; lia). rewrite merge_nil_r.
      apply splice; [lia|lia|done]. }
  rewrite Etake, Edrop' in Hwf, Hb' |- *. rewrite <- app_comm_cons in Hwf, Hb' |- *. rewrite Em in Hwf, Hb' |- *.
  assert (base (x :: drop (base l) (overwrite p L g)) = base l) as Ebb by (unfold base at 1; by rewrite Hb').
  split.
  - done.
  - by apply overwrite_indexed; [apply Hrep|].
  - rewrite Ebb. apply (take_length_le (base l) _ g); [done|lia].
  - rewrite Ebb, (term_at_agree _ _ _ Eb), <- Ht. done.
  - pose proof (rep_blank _ _ Hrep) as Hbl. by rewrite Hx in Hbl.
  - by rewrite Ebb.
Qed.

(** The entries that [applyCommitted] feeds to the state machine. *)
Lemma rep_between l g (lo hi : nat) :
  rep l g → (base l ≤ lo ≤ hi)%nat → (hi ≤ length g)%nat →
  entries_between (Z.of_nat lo) (Z.of_nat hi) l = take (hi - lo) (drop lo g).
Proof.
  intros Hrep Hlo Hhi. pose proof (base_Z _ _ Hrep) as Hb. unfold entries_between.
  replace (Z.to_nat (Z.of_nat hi - Z.of_nat lo)) with (hi - lo)%nat by lia.
  replace (Z.to_nat (Z.of_nat lo + 1 - baseIndex l)) with (S (lo - base l)) by lia.
  destruct (rep_head _ _ Hrep) as (x & _ & _ & El). rewrite El at 2. simpl. rewrite drop_drop. do 2 f_equal. lia.
Qed.

Lemma apply_all_app {SM} `{StateMachine SM} es es' (m : option SM) :
  apply_all (es ++ es') m = m' ← apply_all es m; apply_all es' m'.
Proof.
  revert m. induction es as [|e es IH]; intros m; simpl; [done|]. destruct (apply_entry e m) as [m'|]; simpl; [apply IH|done].
Qed.

Lemma apply_all_more {SM} `{StateMachine SM} g (lo hi : nat) (m0 m : option SM) :
  (lo ≤ hi)%nat → apply_all (take lo g) m0 = Some m →
  apply_all (take hi g) m0 = apply_all (take (hi - lo) (drop lo g)) m.
Proof.
  intros Hlo Hm. rewrite <- (take_drop lo (take hi g)), take_take, Nat.min_l, apply_all_app, Hm by done. simpl.
  f_equal. rewrite take_drop_commute. do 2 f_equal. lia.
Qed.

Lemma apply_entry_some {SM} `{StateMachine SM} e (m : SM) x : apply_entry e (Some m) = Some x → is_Some x.
Proof. unfold apply_entry. destruct (e_Command e); [|by intros [= <-]]. intros (m1 & _ & ->)%fmap_Some. by eexists. Qed.

Lemma apply_all_some {SM} `{StateMachine SM} es (m : SM) x : apply_all es (Some m) = Some x → is_Some x.
Proof.
  revert m. induction es as [|e es IH]; intros m; cbn [apply_all]; [by intros [= <-]|].
  destruct (apply_entry e (Some m)) as [y|] eqn:Ey; cbn [mbind option_bind]; [|done].
  destruct (apply_entry_some _ _ _ Ey) as [m1 ->]. apply IH.
Qed.
