(* ===== verification/RaftCluster.v ===== *)
(** * Raft: a whole cluster of one configuration

    The cluster of [RaftElection] with everything that passes between its servers: the
    requests of [replicateTo] and the replies to them, the heartbeats of reads, the
    snapshots under way, and the compactions that have taken their snapshot and not
    finished.  Messages stay once they are sent, so each can be delivered late, many
    times, or never, and to any server but the one that sent it.

    The steps are all operations of a server except membership changes.  Two runs are
    left out because there the code does break what is proved: an [InstallSnapshot]
    between the two locked regions of [MaybeCompact] on the same server, and an
    [InstallSnapshot] that reports an error of the storage or of the state machine. *)

From S2P Require Import Prelude GoLib RaftTypes RaftLog RaftCodec RaftServer RaftLoop RaftSnapshot RaftRead.
From S2P Require Import RaftVotes RaftNode RaftElection RaftCommit.

Local Open Scope Z_scope.

(** A command of the application: not empty, not marked as a configuration. *)
Definition app_command (cmd : option bytes) : Prop :=
  match cmd with
  | None => True
  | Some b => b ≠ [] ∧ isConfigEntry b = false
  end.

(** What the storage promises of the applied marker and of snapshots: a write that
    succeeds is read back, one that fails leaves the old value or the new, and the
    three records do not disturb each other. *)
Class RecoveryLaws (St : Type) `{Storage St} (snapshot_storable : Z → Z → bytes → Prop) := {
  save_keeps_applied : ∀ ops b st, st_Applied = Some ops →
    as_LoadApplied ops (st_Save b st).1 = as_LoadApplied ops st;
  save_keeps_snapshot : ∀ ops b st, st_Snapshot = Some ops →
    ss_LoadSnapshot ops (st_Save b st).1 = ss_LoadSnapshot ops st;
  applied_saved : ∀ ops i st, st_Applied = Some ops → in_u64 i →
    as_LoadApplied ops (as_SaveApplied ops i st).1 = inr i ∨
    as_LoadApplied ops (as_SaveApplied ops i st).1 = as_LoadApplied ops st;
  applied_keeps_snapshot : ∀ ops ops' i st, st_Applied = Some ops → st_Snapshot = Some ops' →
    ss_LoadSnapshot ops' (as_SaveApplied ops i st).1 = ss_LoadSnapshot ops' st;
  snapshot_saved : ∀ ops i t b st, st_Snapshot = Some ops → snapshot_storable i t b →
    ss_LoadSnapshot ops (ss_SaveSnapshot ops i t b st).1 = inr (Some (i, t, b)) ∨
    ((ss_SaveSnapshot ops i t b st).2 ≠ None ∧
     ss_LoadSnapshot ops (ss_SaveSnapshot ops i t b st).1 = ss_LoadSnapshot ops st);
  snapshot_keeps_applied : ∀ ops ops' i t b st, st_Snapshot = Some ops → st_Applied = Some ops' →
    as_LoadApplied ops' (ss_SaveSnapshot ops i t b st).1 = as_LoadApplied ops' st
}.

(** [alike] is what a snapshot carries of a state machine.  Machines that are alike
    stay so, and the snapshot of one that is like a machine that came from [m0] brings
    back such a machine; the length of a slice is an [int]. *)
Class SnapshotLaws {SM : Type} `{StateMachine SM} (m0 : SM) (alike : relation SM) := {
  alike_equiv :: Equivalence alike;
  alike_apply : ∀ e m m', alike m m' →
    option_Forall2 (option_Forall2 alike) (apply_entry e (Some m)) (apply_entry e (Some m'));
  snapshot_restores : ∀ snapper es m mm data m', sm_Snapshotter = Some snapper →
    apply_all es (Some m0) = Some (Some m) → alike m mm → sn_Snapshot snapper mm = inr data →
    Z.of_nat (length data) < 2 ^ 63 → ∃ m'', sn_RestoreSnapshot snapper data m' = (m'', None) ∧ alike m m''
}.

Section System.
Context {SM St : Type} `{StateMachine SM} `{Storage St} {storable : bytes → Prop}.
Context `{!StorageLaws St storable} {snapshot_storable : Z → Z → bytes → Prop}.
Context (cfg : Configuration) (m0 : SM).

Abbreviation cluster := (cluster (SM := SM) (St := St)).
Abbreviation persistable := (persistable (storable := storable)).

(** A compaction between its two locked regions; the flag says that the snapshot has
    been saved. *)
Record compaction := mkCompaction { k_index : Z; k_term : Z; k_data : bytes; k_saved : bool }.

Record system := mkSystem {
  y_cluster : cluster;
  y_appends : list AppendEntriesArgs;
  y_replies : list (NodeID * AppendEntriesArgs * AppendEntriesReply);
  y_probes : list AppendEntriesArgs;
  y_snaps : list InstallSnapshotArgs;
  y_compacting : gmap NodeID compaction
}.

Definition set_cluster (c : cluster) (y : system) : system :=
  mkSystem c (y_appends y) (y_replies y) (y_probes y) (y_snaps y) (y_compacting y).
Definition set_compacting (k : gmap NodeID compaction) (y : system) : system :=
  mkSystem (y_cluster y) (y_appends y) (y_replies y) (y_probes y) (y_snaps y) k.
Definition set_up (me : NodeID) (s : Server SM St) (y : system) : system :=
  set_cluster (set_node me (Up s) (y_cluster y)) y.
Definition send_append (args : AppendEntriesArgs) (y : system) : system :=
  mkSystem (y_cluster y) (args :: y_appends y) (y_replies y) (y_probes y) (y_snaps y) (y_compacting y).
Definition send_reply (me : NodeID) (args : AppendEntriesArgs) (r : AppendEntriesReply) (y : system) : system :=
  mkSystem (y_cluster y) (y_appends y) ((me, args, r) :: y_replies y) (y_probes y) (y_snaps y) (y_compacting y).
Definition send_probe (args : AppendEntriesArgs) (y : system) : system :=
  mkSystem (y_cluster y) (y_appends y) (y_replies y) (args :: y_probes y) (y_snaps y) (y_compacting y).
Definition send_snap (args : InstallSnapshotArgs) (y : system) : system :=
  mkSystem (y_cluster y) (y_appends y) (y_replies y) (y_probes y) (args :: y_snaps y) (y_compacting y).

Definition up_at (y : system) (me : NodeID) (s : Server SM St) : Prop := c_nodes (y_cluster y) !! me = Some (Up s).

(** The state can be saved, and indices are far from running out. *)
Definition in_bounds (s : Server SM St) : Prop := persistable s ∧ lastIndex (log s) < 2 ^ 62.

(** The operations that act on one server alone, and when they can run. *)
Definition may (y : system) (me : NodeID) (o : op) : Prop :=
  match o with
  | OpStart _ | OpStop | OpBroadcast _ | OpWaitApplied _ _ | OpSetNodeHealth _ | OpReadReply _ _ => True
  | OpSubmit cmd => app_command cmd
  | OpReplicateReply _ peer term args reply =>
      (peer, args, reply) ∈ y_replies y ∧ ae_LeaderID args = me ∧ ae_Term args = term
  | OpSnapshotReply _ _ term args _ => args ∈ y_snaps y ∧ is_LeaderID args = me ∧ is_Term args = term
  | _ => False
  end.

(** The operations that can end in a panic, with the request or election they belong to. *)
Definition may_panic (y : system) (me : NodeID) (o : op) : Prop :=
  match o with
  | OpAppendEntries _ args => (args ∈ y_appends y ∧ ae_LeaderID args ≠ me) ∨ args ∈ y_probes y
  | OpRequestVote _ args => ∃ el, el ∈ c_elections (y_cluster y) ∧ el_args el = args
  | OpStartElection _ | OpVoteReply _ _ => True
  | OpBecomeLeader term =>
      ∃ el, el ∈ c_elections (y_cluster y) ∧ decided el ∧ candidate el = me ∧ term_of el = term
  | _ => may y me o
  end.

Inductive sstep (y : system) : system → Prop :=
  | s_local me o s s' vs :
      up_at y me s → may y me o → exec o s = Ok (s', vs) → in_bounds s' → sstep y (set_up me s' y)
  | s_panic me o s s' :
      up_at y me s → may_panic y me o → op_ok o s → exec o s = Panic s' → in_bounds s' →
      sstep y (set_compacting (delete me (y_compacting y))
                 (set_cluster (set_node me (Down me (storage s')) (y_cluster y)) y))
  | s_crash me s :
      up_at y me s →
      sstep y (set_compacting (delete me (y_compacting y))
                 (set_cluster (set_node me (Down me (storage s)) (y_cluster y)) y))
  | s_restart me st tr cf s :
      c_nodes (y_cluster y) !! me = Some (Down me (Some st)) →
      Restore (SetStorage st (NewServerWith me cfg (Some m0) tr cf)) = Ok (inr s) →
      sstep y (set_up me s y)
  (* elections, as in [RaftElection]; requests come from elections under way *)
  | s_vote me env args s s' reply el :
      up_at y me s → el ∈ c_elections (y_cluster y) → el_args el = args →
      RequestVote env args s = Ok (s', reply) → in_bounds s' →
      let c' := add_reply me args reply (set_node me (Up s') (y_cluster y)) in
      sstep y (set_cluster (if rvr_VoteGranted reply
        then add_vote (mkVote me (rv_Term args) (rv_CandidateID args)) c' else c') y)
  | s_elect me env s s' el won :
      up_at y me s → currentTerm s < 2 ^ 64 - 1 → startElection env s = Ok (s', el, won) → in_bounds s' →
      sstep y (set_cluster (set_elections (el :: c_elections (y_cluster y))
        (add_vote (mkVote me (currentTerm s') me) (set_node me (Up s') (y_cluster y)))) y)
  | s_vote_reply pre el post peer reply s s' ok :
      c_elections (y_cluster y) = pre ++ el :: post → peer ∈ el_pending el →
      (peer, el_args el, reply) ∈ c_replies (y_cluster y) → up_at y (candidate el) s →
      vote_reply (term_of el) reply s = Ok (s', ok) → in_bounds s' →
      sstep y (set_cluster (set_elections (pre ++ replied peer ok el :: post)
        (set_node (candidate el) (Up s') (y_cluster y))) y)
  | s_tally pre el post peer :
      c_elections (y_cluster y) = pre ++ el :: post → peer ∈ el_granted el →
      sstep y (set_cluster (set_elections (pre ++ (tally peer el).1 :: post) (y_cluster y)) y)
  | s_lead el s s' :
      el ∈ c_elections (y_cluster y) → decided el → up_at y (candidate el) s →
      role s = Candidate → currentTerm s = term_of el → becomeLeader (term_of el) s = Ok s' → in_bounds s' →
      sstep y (set_cluster (add_promotion (mkPromotion (term_of el) (candidate el) (el_config el))
        (set_node (candidate el) (Up s') (y_cluster y))) y)
  (* replication *)
  | s_send me peer term s args :
      up_at y me s → peer ∈ peers s → replicate_request peer term s = SendEntries args → sstep y (send_append args y)
  | s_append me env args s s' reply :
      up_at y me s → args ∈ y_appends y → ae_LeaderID args ≠ me →
      AppendEntries env args s = Ok (s', reply) → in_bounds s' →
      sstep y (send_reply me args reply (set_up me s' y))
  (* the heartbeats of a read *)
  | s_probe me r s args :
      up_at y me s → read_request r s = Some args → sstep y (send_probe args y)
  | s_probed me env args s s' reply :
      up_at y me s → args ∈ y_probes y → AppendEntries env args s = Ok (s', reply) → in_bounds s' →
      sstep y (set_up me s' y)
  (* snapshots *)
  | s_send_snap me term s s' args :
      up_at y me s → snapshot_request term s = (s', args) → in_bounds s' →
      sstep y (match args with Some args => send_snap args (set_up me s' y) | None => set_up me s' y end)
  | s_install me env args s s' reply :
      up_at y me s → args ∈ y_snaps y → is_LeaderID args ≠ me → y_compacting y !! me = None →
      InstallSnapshot env args s = (s', reply) → in_bounds s' → snapshotErrs s' = snapshotErrs s →
      snapshot_storable (is_LastIncludedIndex args) (is_LastIncludedTerm args) (is_Data args) →
      sstep y (set_up me s' y)
  (* compaction: the first locked region, the write, the second locked region *)
  | s_compact_take me threshold s idx term data :
      up_at y me s → y_compacting y !! me = None → compact_take threshold s = inr (idx, term, data) →
      Z.of_nat (length data) < 2 ^ 63 →
      sstep y (set_compacting (<[me:=mkCompaction idx term data false]> (y_compacting y)) y)
  | s_compact_save me s s' err idx term data :
      up_at y me s → y_compacting y !! me = Some (mkCompaction idx term data false) →
      snapshot_storable idx term data → compact_save idx term data s = (s', err) → in_bounds s' →
      sstep y (set_compacting
        (match err with
         | None => <[me:=mkCompaction idx term data true]> (y_compacting y)
         | Some _ => delete me (y_compacting y)
         end) (set_up me s' y))
  | s_compact_finish me s s' r idx term data :
      up_at y me s → y_compacting y !! me = Some (mkCompaction idx term data true) →
      compact_finish idx term data s = (s', r) → in_bounds s' →
      sstep y (set_compacting (delete me (y_compacting y)) (set_up me s' y)).

(** The cluster before it starts: every member fresh, on empty storage. *)
Definition fresh_storage (st : St) : Prop :=
  st_Load st = inr [] ∧
  (∀ ops, st_Applied = Some ops → as_LoadApplied ops st = inr 0) ∧
  (∀ ops, st_Snapshot = Some ops → ss_LoadSnapshot ops st = inr None).

Definition sinitial (y : system) : Prop :=
  c_votes (y_cluster y) = [] ∧ c_replies (y_cluster y) = [] ∧ c_elections (y_cluster y) = [] ∧
  c_promotions (y_cluster y) = [] ∧
  (∀ me n, c_nodes (y_cluster y) !! me = Some n → me ∈ cfg ∧
     ∃ tr cf st, n = Up (SetStorage st (NewServerWith me cfg (Some m0) tr cf)) ∧ fresh_storage st) ∧
  y_appends y = [] ∧ y_replies y = [] ∧ y_probes y = [] ∧ y_snaps y = [] ∧ y_compacting y = ∅.

(** ** The elections of the cluster are those of [RaftElection] *)

Abbreviation cstep := (cstep (SM := SM) (St := St) (storable := storable)).

Lemma may_plain y me o : may y me o → plain_op o = true.
Proof. by destruct o. Qed.

Lemma sstep_cluster y y' : sstep y y' → y_cluster y' = y_cluster y ∨ cstep (y_cluster y) (y_cluster y').
Proof.
  destruct 1 as [me o s s' vs Hs Hm He [Hb _]|me o s s' Hs Hm Hok He [Hb _]|me s Hs|me st tr cf s Hs Hr
    |me env args s s' reply el Hs Hel Ha Hv [Hb _] c'|me env s s' el won Hs Ht He [Hb _]
    |pre el post peer reply s s' ok Hels Hp Hr Hs Hv [Hb _]|pre el post peer Hels Hg|el s s' Hel Hd Hs Hr Ht Hl [Hb _]
    |me peer term s args Hs Hpe Hr|me env args s s' reply Hs Ha Hne He [Hb _]|me r s args Hs Hr|me env args s s' reply Hs Ha He [Hb _]
    |me term s s' args Hs Hr [Hb _]|me env args s s' reply Hs Ha Hne Hk He [Hb _] Herr Hst|me thr s idx term data Hs Hk Ht Hlen
    |me s s' err idx term data Hs Hk Hst He [Hb _]|me s s' r idx term data Hs Hk He [Hb _]]; simpl; try (by left); right.
  - by eapply cstep_plain; [..|exact He|]; [|eapply may_plain|].
  - by eapply cstep_panic.
  - by eapply cstep_crash.
  - by eapply cstep_restart.
  - by eapply cstep_vote.
  - by eapply cstep_elect.
  - by eapply cstep_reply.
  - by eapply cstep_tally.
  - by eapply cstep_lead.
  - eapply (cstep_plain _ me (OpAppendEntries env args)); [done..| |done]. simpl. by rewrite He.
  - eapply (cstep_plain _ me (OpAppendEntries env args)); [done..| |done]. simpl. by rewrite He.
  - destruct args; eapply (cstep_plain _ me (OpSnapshotRequest term) _ s'); try done; simpl; by rewrite Hr.
  - eapply (cstep_plain _ me (OpInstallSnapshot env args)); [done..| |done]. simpl. by rewrite He.
  - eapply (cstep_plain _ me (OpCompactSave idx term data)); [done..| |done]. simpl. by rewrite He.
  - eapply (cstep_plain _ me (OpCompactFinish idx term data)); [done..| |done]. simpl. by rewrite He.
Qed.

Lemma sinitial_cluster y : sinitial y → initial (y_cluster y).
Proof.
  intros (E1 & E2 & E3 & E4 & Hn & _). split_and!; [done..|]. intros me n Hme.
  destruct (Hn me n Hme) as (_ & tr & cf & st & -> & Hl & _). by exists cfg, (Some m0), tr, cf, st.
Qed.

End System.
