(* ===== verification/RaftRelation.v ===== *)
(** * Raft: the cluster and the specification

    The relation between a cluster of [RaftCluster] and a state of [RaftSpec]: what
    a server's memory and disk say about its node in the specification, and what
    every message under way says about the history. *)

From S2P Require Import Prelude GoLib RaftTypes RaftLog RaftCodec RaftServer RaftLoop RaftSnapshot RaftRead.
From S2P Require Import RaftVotes RaftNode RaftElection RaftCommit RaftRestart RaftSpec RaftCluster.

Local Open Scope Z_scope.

Section Relation.
Context {SM St : Type} `{StateMachine SM} `{Storage St} (cfg : Configuration) (m0 : SM) (alike : relation SM).
Implicit Type s : Server SM St.
Implicit Type g : list LogEntry.

Abbreviation commit_point := (commit_point cfg).

(** Logs of leaders: positions, room, commands of the application. *)
Definition leads_fine (hs : history) : Prop :=
  ∀ t c L, h_leads hs !! t = Some (c, L) →
    indexed L ∧ Z.of_nat (length L) < 2 ^ 62 ∧ Forall (λ e, app_command (e_Command e)) L.

(** [x] is like the machine that has applied the first [k] entries. *)
Definition machine_at g (k : nat) (x : option SM) : Prop :=
  ∃ m m', apply_all (take k g) (Some m0) = Some (Some m) ∧ x = Some m' ∧ alike m m'.

(** [data] is a snapshot of such a machine. *)
Definition snapshot_of g (k : nat) (data : bytes) : Prop :=
  is_Some (st_Snapshot (St := St)) ∧ ∃ snapper mm, sm_Snapshotter = Some snapper ∧
    machine_at g k (Some mm) ∧ sn_Snapshot snapper mm = inr data ∧
    Z.of_nat (length data) < 2 ^ 63.

Definition snap_at (hs : history) g (idx term : Z) (data : bytes) : Prop :=
  ∃ k : nat, idx = Z.of_nat k ∧ (0 < k)%nat ∧ term = term_at g k ∧ commit_point hs g k ∧ snapshot_of g k data.

Lemma machine_at_agree g g' k x : take k g' = take k g → machine_at g k x → machine_at g' k x.
Proof. intros E (m & m' & Hm & Hx). exists m, m'. by rewrite E. Qed.

Lemma machine_at_0 g x : alike m0 x → machine_at g 0 (Some x).
Proof. intros Hx. by exists m0, x. Qed.

(** ** A server's disk *)

Definition state_on (st : St) (t : Z) (l : list LogEntry) : Prop :=
  (st_Load st = inr [] ∧ t = 0 ∧ l = [zeroEntry]) ∨
  ∃ v, st_Load st = inr (encodeState t v l) ∧ state_ok t v l.

Definition applied_on (hs : history) (st : St) g : Prop :=
  ∀ ops, st_Applied = Some ops → ∃ i : nat, as_LoadApplied ops st = inr (Z.of_nat i) ∧ commit_point hs g i.

Definition snapshot_on (hs : history) (st : St) g (b : nat) : Prop :=
  match st_Snapshot with
  | None => b = 0%nat
  | Some ops =>
      (ss_LoadSnapshot ops st = inr None ∧ b = 0%nat) ∨
      ∃ idx term data, ss_LoadSnapshot ops st = inr (Some (idx, term, data)) ∧
        snap_at hs g idx term data ∧ Z.of_nat b ≤ idx
  end.

(** The disk holds the term [t] and a log that stands for the node's, compacted no
    further than [b]. *)
Definition disk_rel (hs : history) (d : option St) (a : anode) (t : Z) (b : nat) : Prop :=
  ∃ st l, d = Some st ∧ rep l (a_log a) ∧ (base l ≤ b)%nat ∧ state_on st t l ∧
    applied_on hs st (a_log a) ∧ snapshot_on hs st (a_log a) (base l).

(** ** A server's memory *)

(** What a leader believes of a follower: nothing beyond what is committed or
    of earlier terms, unless it was acknowledged. *)
Definition match_ok (hs : history) (a : anode) (p : NodeID) (k : Z) : Prop :=
  0 ≤ k ≤ Z.of_nat (length (a_log a)) ∧
  (commit_point hs (a_log a) (Z.to_nat k) ∨ term_at (a_log a) (Z.to_nat k) < a_term a ∨ acked hs p (a_term a) (Z.to_nat k)).

Record mem_rel (hs : history) (me : NodeID) (s : Server SM St) (a : anode) : Prop := {
  mr_id : id s = me;
  mr_peers : peers s = cfg;
  mr_term : currentTerm s = a_term a;
  mr_role : role s = a_role a;
  mr_log : rep (log s) (a_log a);
  mr_bound : Z.of_nat (length (a_log a)) < 2 ^ 62;
  mr_commit : commitIndex s = Z.of_nat (a_commit a);
  mr_applied : lastApplied s = Z.of_nat (a_commit a);
  mr_base : (base (log s) ≤ a_commit a)%nat;
  mr_sm : machine_at (a_log a) (a_commit a) (sm s);
  mr_snapshot : ∀ sn, snapshot s = Some sn →
    snap_at hs (a_log a) (lastIncludedIndex sn) (lastIncludedTerm sn) (snap_data sn) ∧
    lastIncludedIndex sn ≤ commitIndex s;
  mr_store : ∃ st, storage s = Some st ∧ snapshot_on hs st (a_log a) (base (log s));
  mr_next : a_role a = Leader → ∀ p k, p ∈ cfg → nextIndex s !! p = Some k → 0 ≤ k ≤ Z.of_nat (length (a_log a)) + 1;
  mr_match : a_role a = Leader → ∀ p k, p ∈ cfg → matchIndex s !! p = Some k → match_ok hs a p k
}.

(** A compaction that has taken its snapshot. *)
Definition pending_rel (hs : history) s (a : anode) (k : option compaction) : Prop :=
  ∀ c, k = Some c →
    snap_at hs (a_log a) (k_index c) (k_term c) (k_data c) ∧
    Z.of_nat (base (log s)) < k_index c ≤ commitIndex s ∧
    (k_saved c = true → ∃ ops st, st_Snapshot = Some ops ∧ storage s = Some st ∧
       ss_LoadSnapshot ops st = inr (Some (k_index c, k_term c, k_data c))).

Definition node_rel (hs : history) (me : NodeID) (k : option compaction) (n : node (SM := SM) (St := St)) (a : anode) : Prop :=
  match n with
  | Up s => mem_rel hs me s a ∧ pending_rel hs s a k ∧
      ∃ t, a_saved a ≤ t ≤ a_term a ∧ disk_rel hs (storage s) a t (base (log s))
  | Down me' d => me' = me ∧ k = None ∧ a_role a = Follower ∧ disk_rel hs d a (a_term a) (length (a_log a))
  end.

(** ** Messages *)

Definition append_ok (hs : history) (args : AppendEntriesArgs) : Prop :=
  ∃ L (prev p m : nat), h_leads hs !! ae_Term args = Some (ae_LeaderID args, L) ∧
    (prev ≤ p ≤ length L)%nat ∧ ae_PrevLogIndex args = Z.of_nat prev ∧ ae_PrevLogTerm args = term_at L prev ∧
    ae_Entries args = drop prev (take p L) ∧
    ae_LeaderCommit args = Z.of_nat m ∧ (m ≤ p)%nat ∧ commit_point hs L m.

Definition probe_ok (hs : history) (args : AppendEntriesArgs) : Prop :=
  ∃ g (m : nat), valid hs g ∧ Z.of_nat (length g) < 2 ^ 62 ∧
    ae_PrevLogIndex args = Z.of_nat (length g) ∧ ae_PrevLogTerm args = log_term g ∧ ae_Entries args = [] ∧
    ae_LeaderCommit args = Z.of_nat m ∧ (m ≤ length g)%nat ∧ commit_point hs g m.

(** A success acknowledges the request, or says nothing about the leader's own entries. *)
Definition reply_ok (hs : history) (peer : NodeID) (args : AppendEntriesArgs) (r : AppendEntriesReply) : Prop :=
  append_ok hs args ∧ (aer_Success r = true →
    let k := Z.to_nat (ae_PrevLogIndex args + Z.of_nat (length (ae_Entries args))) in
    acked hs peer (ae_Term args) k ∨
    ∃ L, h_leads hs !! ae_Term args = Some (ae_LeaderID args, L) ∧ (k ≤ length L)%nat ∧ term_at L k < ae_Term args).

Definition install_ok (hs : history) (args : InstallSnapshotArgs) : Prop :=
  ∃ L, h_leads hs !! is_Term args = Some (is_LeaderID args, L) ∧
    snap_at hs L (is_LastIncludedIndex args) (is_LastIncludedTerm args) (is_Data args).

Definition election_rel (hs : history) (el : Election) : Prop :=
  el_config el = cfg ∧ ∃ g, (candidate el, term_of el, g) ∈ h_cands hs ∧
    rv_LastLogIndex (el_args el) = Z.of_nat (length g) ∧ rv_LastLogTerm (el_args el) = log_term g.

Record messages_ok (hs : history) (y : system (SM := SM) (St := St)) : Prop := {
  mo_elections : ∀ el, el ∈ c_elections (y_cluster y) → election_rel hs el;
  mo_appends : ∀ args, args ∈ y_appends y → append_ok hs args;
  mo_replies : ∀ p args r, (p, args, r) ∈ y_replies y → reply_ok hs p args r;
  mo_probes : ∀ args, args ∈ y_probes y → probe_ok hs args;
  mo_snaps : ∀ args, args ∈ y_snaps y → install_ok hs args
}.

(** Votes are the same, except for those cast when the term already had its leader. *)
Definition votes_rel (hs : history) (c : cluster (SM := SM) (St := St)) : Prop :=
  (∀ v, v ∈ h_votes hs → mkVote (av_voter v) (av_term v) (av_for v) ∈ c_votes c) ∧
  (∀ v, v ∈ c_votes c → is_Some (h_leads hs !! v_term v) ∨
     ∃ w, w ∈ h_votes hs ∧ av_voter w = v_voter v ∧ av_term w = v_term v ∧ av_for w = v_for v).

Record sim (y : system (SM := SM) (St := St)) (sp : spec) : Prop := {
  si_spec : ainv cfg sp;
  si_cluster : cinv (y_cluster y);
  si_leads : leads_fine (sp_hist sp);
  si_votes : votes_rel (sp_hist sp) (y_cluster y);
  si_messages : messages_ok (sp_hist sp) y;
  si_nodes : ∀ me n, c_nodes (y_cluster y) !! me = Some n →
    me ∈ cfg ∧ node_rel (sp_hist sp) me (y_compacting y !! me) n (sp_node sp me);
  si_compacting : ∀ me c, y_compacting y !! me = Some c → ∃ s, c_nodes (y_cluster y) !! me = Some (Up s)
}.

(** ** History grows, facts stay *)

Section Grows.
Context (hs hs' : history) (Hgr : grows hs hs').

Lemma snap_at_grows g idx term data : snap_at hs g idx term data → snap_at hs' g idx term data.
Proof using Hgr.
  intros (k & -> & Hk & Ht & Hc & Hs). exists k. split_and!; [done..| |done]. by eapply commit_point_grows.
Qed.

Lemma snapshot_on_grows st g b : snapshot_on hs st g b → snapshot_on hs' st g b.
Proof using Hgr.
  unfold snapshot_on. destruct st_Snapshot as [ops|]; [|done]. intros [?|(idx & term & data & Hl & Hsn & Hb)]; [by left|].
  right. exists idx, term, data. split_and!; [done| |done]. by apply snap_at_grows.
Qed.

Lemma applied_on_grows st g : applied_on hs st g → applied_on hs' st g.
Proof using Hgr.
  intros Ha ops Hops. destruct (Ha ops Hops) as (i & Hi & Hc). exists i. split; [done|]. by eapply commit_point_grows.
Qed.

Lemma disk_rel_grows d a t b : disk_rel hs d a t b → disk_rel hs' d a t b.
Proof using Hgr.
  intros (st & l & Hd & Hrep & Hb & Hst & Ha & Hs). exists st, l.
  split_and!; [done..|by apply applied_on_grows|by apply snapshot_on_grows].
Qed.

Lemma mem_rel_grows me s a : mem_rel hs me s a → mem_rel hs' me s a.
Proof using Hgr.
  intros []. split; try done.
  - intros sn Hsn. destruct (mr_snapshot0 sn Hsn). split; [|done]. by apply snap_at_grows.
  - destruct mr_store0 as (st & Hst & Hsn). exists st. split; [done|]. by apply snapshot_on_grows.
  - intros Hr p k Hin Hp. destruct (mr_match0 Hr p k Hin Hp) as [Hk Hor]. split; [done|].
    destruct Hor as [?|[?|Ha]]; [left; by eapply commit_point_grows|by right; left|]. right; right. by eapply acked_grows.
Qed.

Lemma node_rel_grows me k n a : node_rel hs me k n a → node_rel hs' me k n a.
Proof using Hgr.
  destruct n as [s|me' d]; simpl.
  - intros (Hm & Hp & t & Ht & Hd). split_and!; [by apply mem_rel_grows| |exists t; split; [done|by apply disk_rel_grows]].
    intros c Hc. destruct (Hp c Hc) as [? ?]. split; [by apply snap_at_grows|done].
  - intros (-> & -> & Hr & Hd). split_and!; [done..|]. by apply disk_rel_grows.
Qed.

Lemma append_ok_grows args : append_ok hs args → append_ok hs' args.
Proof using Hgr.
  intros (L & prev & p & m & HL & Hp & E1 & E2 & E3 & E4 & Hm & Hc). destruct (gr_leads _ _ Hgr _ _ _ HL) as [es HL'].
  exists (L ++ es), prev, p, m. rewrite length_app. split_and!; [done|lia|lia|done| | |done|done|].
  - rewrite E2. apply term_at_agree. symmetry. apply take_app_le. lia.
  - by rewrite E3, take_app_le by lia.
  - apply (commit_point_grows cfg _ _ Hgr) in Hc as [->|(e & ? & He & ?)]; [by left|]. right. exists e.
    split_and!; [done|by apply lookup_app_l_Some|done].
Qed.

Lemma probe_ok_grows args : probe_ok hs args → probe_ok hs' args.
Proof using Hgr.
  intros (g & m & Hg & Hrest & E1 & E2 & E3 & E4 & Hm & Hc). exists g, m. split_and!; try done.
  - by eapply valid_grows.
  - by eapply commit_point_grows.
Qed.

Lemma reply_ok_grows p args r : reply_ok hs p args r → reply_ok hs' p args r.
Proof using Hgr.
  intros [Ha Hr]. split; [by apply append_ok_grows|]. intros Hsucc. destruct (Hr Hsucc) as [Hack|(L & HL & Hk & Ht)].
  - left. by eapply acked_grows.
  - right. destruct (gr_leads _ _ Hgr _ _ _ HL) as [es HL']. exists (L ++ es). rewrite length_app. split_and!; [done|lia|].
    rewrite (term_at_agree (L ++ es) L); [done|]. by apply take_app_le.
Qed.

Lemma install_ok_grows args : install_ok hs args → install_ok hs' args.
Proof using Hgr.
  intros (L & HL & k & E & Hk & Ht & Hc & Hs & sn & m & Hsn & Hm & Hd). destruct (gr_leads _ _ Hgr _ _ _ HL) as [es HL'].
  assert (k ≤ length L)%nat as Hlen.
  { destruct Hc as [->|(e & ? & He & ?)]; [lia|]. apply lookup_lt_Some in He. lia. }
  exists (L ++ es). split; [done|]. exists k. split_and!; [done..| | |].
  - rewrite Ht. apply term_at_agree. symmetry. by apply take_app_le.
  - apply (commit_point_grows cfg _ _ Hgr) in Hc as [->|(e & ? & He & ?)]; [by left|]. right. exists e.
    split_and!; [done|by apply lookup_app_l_Some|done].
  - split; [done|]. exists sn, m. split; [done|]. split; [|done]. eapply machine_at_agree; [|exact Hm]. by apply take_app_le.
Qed.

Lemma messages_ok_grows y : messages_ok hs y → messages_ok hs' y.
Proof using Hgr.
  intros [H1 H2 H3 H4 H5]. split.
  - intros el Hel. destruct (H1 el Hel) as (? & g & Hg & ?). split; [done|]. exists g. split; [|done]. by apply (gr_cands _ _ Hgr).
  - intros args Ha. by apply append_ok_grows, H2.
  - intros p args r Ha. by apply reply_ok_grows, H3.
  - intros args Ha. by apply probe_ok_grows, H4.
  - intros args Ha. by apply install_ok_grows, H5.
Qed.

End Grows.

End Relation.
