(* ===== verification/RaftSimulate.v ===== *)
(** * Raft: the operations of a server are steps of the specification

    For each operation of a server that the specification's node describes: what it
    returns is described again after zero or more steps of that node, and so is the
    disk it leaves if it panics. *)

From stdpp Require Import functions.
From S2P Require Import Prelude GoLib RaftTypes RaftLog RaftCodec RaftServer RaftLoop RaftSnapshot RaftRead.
From S2P Require Import RaftVotes RaftNode RaftElection RaftReplication RaftCommit RaftRestart RaftSpec RaftCluster RaftRelation.

Local Open Scope Z_scope.

Section Simulate.
Context {SM St : Type} `{StateMachine SM} `{Storage St} {storable : bytes → Prop}.
Context `{!StorageLaws St storable} {snapshot_storable : Z → Z → bytes → Prop} `{!RecoveryLaws St snapshot_storable}.
Context (cfg : Configuration) (m0 : SM) (alike : relation SM) `{!SnapshotLaws m0 alike} (Hcfg : NoDup cfg).
Implicit Type s : Server SM St.

Abbreviation commit_point := (commit_point cfg).
Abbreviation ainv := (ainv cfg).
Abbreviation persistable := (persistable (storable := storable)).
Abbreviation mem_rel := (mem_rel (SM := SM) (St := St) cfg m0 alike).
Abbreviation disk_rel := (disk_rel (SM := SM) (St := St) cfg m0 alike).
Abbreviation node_rel := (node_rel (SM := SM) (St := St) cfg m0 alike).
Abbreviation snap_at := (snap_at (SM := SM) (St := St) cfg m0 alike).
Abbreviation pending_rel := (pending_rel (SM := SM) (St := St) cfg m0 alike).

(** Steps of the node [me] alone, that cast no vote. *)
Definition lreach (sp : spec) (me : NodeID) (sp' : spec) : Prop :=
  rtc (astep cfg) sp sp' ∧ (∀ x, x ≠ me → sp_node sp' x = sp_node sp x) ∧
  h_votes (sp_hist sp') = h_votes (sp_hist sp) ∧ h_cands (sp_hist sp') = h_cands (sp_hist sp).

Definition lsim (sp : spec) (me : NodeID) (P : spec → Prop) : Prop := ∃ sp', lreach sp me sp' ∧ P sp'.

(** The node [me] is described. *)
Record live (sp : spec) (me : NodeID) (n : node (SM := SM) (St := St)) (k : option compaction) : Prop := {
  lv_spec : ainv sp;
  lv_leads : leads_fine (sp_hist sp);
  lv_member : me ∈ cfg;
  lv_node : node_rel (sp_hist sp) me k n (sp_node sp me)
}.

Lemma lreach_refl sp me : lreach sp me sp.
Proof. by split_and!. Qed.

Lemma lreach_trans sp1 sp2 sp3 me : lreach sp1 me sp2 → lreach sp2 me sp3 → lreach sp1 me sp3.
Proof.
  intros (R1 & O1 & V1 & C1) (R2 & O2 & V2 & C2). split_and!; [by etrans| |congruence..].
  intros x Hx. rewrite O2 by done. auto.
Qed.

Lemma lreach_node sp me a : astep cfg sp (set_anode me a sp) → lreach sp me (set_anode me a sp).
Proof.
  intros Hs. split; [by apply rtc_once|]. split_and!; [|done..]. intros x Hx. simpl. by rewrite fn_lookup_insert_ne.
Qed.

Lemma lsim_ret sp me (P : spec → Prop) : P sp → lsim sp me P.
Proof. intros HP. exists sp. split; [apply lreach_refl|done]. Qed.

Lemma lsim_bind sp me (P Q : spec → Prop) : lsim sp me P → (∀ sp', P sp' → lsim sp' me Q) → lsim sp me Q.
Proof.
  intros (sp1 & R1 & HP) HPQ. destruct (HPQ sp1 HP) as (sp2 & R2 & HQ). exists sp2. split; [by eapply lreach_trans|done].
Qed.

Lemma lsim_reach sp sp' me (P : spec → Prop) : lreach sp me sp' → lsim sp' me P → lsim sp me P.
Proof. intros R1 (sp2 & R2 & HP). exists sp2. split; [by eapply lreach_trans|done]. Qed.

Lemma lsim_mono sp me (P Q : spec → Prop) : lsim sp me P → (∀ sp', P sp' → Q sp') → lsim sp me Q.
Proof. intros (sp1 & R1 & HP) HPQ. exists sp1. auto. Qed.

(** A step that changes the node and leaves the history. *)
Lemma lsim_node sp me a (P : spec → Prop) :
  astep cfg sp (set_anode me a sp) → P (set_anode me a sp) → lsim sp me P.
Proof. intros Hs HP. eexists. split; [by apply lreach_node|done]. Qed.

Lemma lreach_inv sp me sp' : ainv sp → lreach sp me sp' → ainv sp' ∧ grows (sp_hist sp) (sp_hist sp').
Proof. intros Hsp (R & _). by apply ainv_steps. Qed.

Lemma commit_point_length hs g m : commit_point hs g m → (m ≤ length g)%nat.
Proof. intros [->|(e & ? & He & _)]; [lia|]. apply lookup_lt_Some in He. lia. Qed.

(** ** Disk *)

(** The disk records that a node's description mentions. *)
Definition same_disk (st st' : St) : Prop :=
  st_Load st' = st_Load st ∧
  (∀ ops, st_Applied = Some ops → as_LoadApplied ops st' = as_LoadApplied ops st) ∧
  (∀ ops, st_Snapshot = Some ops → ss_LoadSnapshot ops st' = ss_LoadSnapshot ops st).

Lemma disk_rel_same hs st st' a t b : same_disk st st' → disk_rel hs (Some st) a t b → disk_rel hs (Some st') a t b.
Proof.
  intros (E1 & E2 & E3) (st0 & l & [= <-] & Hrep & Hb & Hst & Ha & Hs). exists st', l.
  split; [done|]. split; [done|]. split; [done|]. split; [|split].
  - unfold state_on in *. by rewrite E1.
  - intros ops Hops. rewrite E2 by done. by apply Ha.
  - unfold snapshot_on in *. destruct st_Snapshot as [ops|]; [|done]. by rewrite E3.
Qed.

(** Writing the state: the disk describes the new node, or nothing was written. *)
Lemma persistLocked_disk s s' err hs a :
  persistLocked s = (s', err) → persistable s → is_Some (storage s) →
  currentTerm s = a_term a → rep (log s) (a_log a) →
  (∀ st, storage s = Some st → applied_on cfg hs st (a_log a) ∧ snapshot_on cfg m0 alike (SM := SM) hs st (a_log a) (base (log s))) →
  ∃ st st', storage s = Some st ∧ s' = set_storage (Some st') s ∧
    (disk_rel hs (Some st') a (a_term a) (base (log s)) ∨ (err ≠ None ∧ same_disk st st')) ∧
    (∀ ops, st_Snapshot = Some ops → ss_LoadSnapshot ops st' = ss_LoadSnapshot ops st).
Proof.
  intros Hp [Hok Hstor] [st Hst] Ht Hrep Hrest. unfold persistLocked in Hp. rewrite Hst in Hp.
  destruct (st_Save _ st) as [st' err'] eqn:Hsave. injection Hp as <- <-. exists st, st'.
  assert (∀ ops, st_Applied = Some ops → as_LoadApplied ops st' = as_LoadApplied ops st) as Ea.
  { intros ops Hops. by rewrite <- (save_keeps_applied ops (encodeState (currentTerm s) (votedFor s) (log s)) st Hops), Hsave. }
  assert (∀ ops, st_Snapshot = Some ops → ss_LoadSnapshot ops st' = ss_LoadSnapshot ops st) as Es.
  { intros ops Hops. by rewrite <- (save_keeps_snapshot ops (encodeState (currentTerm s) (votedFor s) (log s)) st Hops), Hsave. }
  assert (st_Load st' = inr (encodeState (currentTerm s) (votedFor s) (log s)) → disk_rel hs (Some st') a (a_term a) (base (log s))) as Hnew.
  { intros El. destruct (Hrest st Hst) as [Hap Hsn]. exists st', (log s). split_and!; [done..| | |].
    - right. exists (votedFor s). rewrite <- Ht. by split.
    - intros ops Hops. rewrite Ea by done. by apply Hap.
    - unfold snapshot_on in *. destruct st_Snapshot as [ops|]; [|done]. by rewrite Es. }
  split; [done|]. split; [done|]. split; [|done]. destruct err' as [e|].
  - destruct (save_err _ _ _ _ Hstor Hsave) as [El|El]; [right; by split|left; by apply Hnew].
  - left. by apply Hnew, (save_ok _ _ _ Hstor Hsave).
Qed.

(** ** Crashing *)

Lemma live_crash sp me s k : live sp me (Up s) k → lsim sp me (λ sp', live sp' me (Down me (storage s)) None).
Proof.
  intros [Hsp Hl Hin (Hm & _ & t & Ht & Hd)]. pose proof (a_crash cfg sp me t Ht) as Hstep.
  destruct (ainv_step cfg _ _ Hsp Hstep) as [Hsp' _]. apply (lsim_node _ _ _ _ Hstep). split; [done..|].
  simpl. rewrite fn_lookup_insert. split_and!; [done..|].
  destruct Hd as (st & l & E & Hrep & _ & Hd). exists st, l. split_and!; [done..|apply Hrep|apply Hd|apply Hd|apply Hd].
Qed.

(** The same with a disk that has the same records. *)
Lemma live_crash_same sp me s k st st' :
  live sp me (Up s) k → storage s = Some st → same_disk st st' → lsim sp me (λ sp', live sp' me (Down me (Some st')) None).
Proof.
  intros Hlive Est Hsame. eapply lsim_mono; [by eapply live_crash|]. intros sp' [Hsp Hl Hin (E1 & E2 & E3 & Hd)].
  split; [done..|]. split_and!; [done..|]. rewrite Est in Hd. by eapply disk_rel_same.
Qed.

(** ** Fields that are not described *)

Definition view s :=
  (id s, peers s, currentTerm s, role s, (log s, commitIndex s, lastApplied s, sm s), (snapshot s, storage s, nextIndex s, matchIndex s)).

Lemma mem_rel_view hs me s s' a : view s' = view s → mem_rel hs me s a → mem_rel hs me s' a.
Proof.
  unfold view. intros [= E1 E2 E3 E4 E5 E6 E7 E8 E9 E10 E11 E12] []. split; rewrite ?E1, ?E2, ?E3, ?E4, ?E5, ?E6, ?E7, ?E8, ?E9, ?E10, ?E11, ?E12; try done.
Qed.

Lemma live_view sp me s s' k : view s' = view s → live sp me (Up s) k → live sp me (Up s') k.
Proof.
  intros E [Hsp Hl Hin (Hm & Hp & t & Ht & Hd)]. split; [done..|]. split; [by eapply mem_rel_view|].
  unfold view in E. injection E as E1 E2 E3 E4 E5 E6 E7 E8 E9 E10 E11 E12. split.
  - intros c Hc. rewrite E5, E6, E10. by apply Hp.
  - exists t. split; [done|]. by rewrite E10, E5.
Qed.

(** ** Terms *)

(** Hearing of a term, or stepping down; nothing is written. *)
Lemma live_observe sp me s s' k t :
  live sp me (Up s) k → currentTerm s ≤ t →
  (role s' = Follower ∨ (role s' = role s ∧ t = currentTerm s ∧ nextIndex s' = nextIndex s ∧ matchIndex s' = matchIndex s)) →
  currentTerm s' = t → id s' = id s → peers s' = peers s → log s' = log s → commitIndex s' = commitIndex s →
  lastApplied s' = lastApplied s → sm s' = sm s → snapshot s' = snapshot s → storage s' = storage s →
  lsim sp me (λ sp', live sp' me (Up s') k ∧ a_log (sp_node sp' me) = a_log (sp_node sp me) ∧
    a_saved (sp_node sp' me) = a_saved (sp_node sp me) ∧ sp_hist sp' = sp_hist sp).
Proof.
  intros [Hsp Hl Hin (Hm & Hp & td & Htd & Hd)] Ht Hr Et Ei Epe El Ec Ea Esm Esn Est.
  pose proof Hm as []. set (a := sp_node sp me) in *.
  assert (role s' = Follower ∨ (role s' = a_role a ∧ t = a_term a)) as Hr'.
  { destruct Hr as [?|(E & -> & _)]; [by left|right]. split; congruence. }
  assert (a_term a ≤ t) as Ht' by lia.
  pose proof (a_observe cfg sp me t (role s') Ht' Hr') as Hstep. fold a in Hstep.
  destruct (ainv_step cfg _ _ Hsp Hstep) as [Hsp' _]. apply (lsim_node _ _ _ _ Hstep).
  assert (sp_node (set_anode me (mkANode t (a_saved a) (role s') (a_log a) (a_commit a)) sp) me =
    mkANode t (a_saved a) (role s') (a_log a) (a_commit a)) as Ea' by apply fn_lookup_insert.
  rewrite Ea'. split; [|done]. split; [done..|]. rewrite Ea'. split.
  - split; simpl; rewrite ?Ei, ?Epe, ?Et, ?El, ?Ec, ?Ea, ?Esm; try done.
    + intros sn Hsn. rewrite Esn in Hsn. by apply mr_snapshot.
    + by rewrite Est.
    + intros HL p k' Hpin Hk'. destruct Hr as [?|(E & Et' & En & _)]; [congruence|]. rewrite En in Hk'.
      by eapply mr_next; [congruence|..].
    + intros HL p k' Hpin Hk'. destruct Hr as [?|(E & Et' & _ & En)]; [congruence|]. rewrite En in Hk'.
      destruct (mr_match ltac:(congruence) p k' Hpin Hk') as [? Hor]. split; [done|]. simpl.
      replace t with (a_term a) by lia. done.
  - split.
    + intros c Hc. destruct (Hp c Hc) as (? & ? & ?). rewrite El, Ec, Est. by split.
    + exists td. simpl. split; [lia|]. rewrite Est, El. destruct Hd as (st & l & Hd). by exists st, l.
Qed.

(** ** Writing the state *)

(** What is committed of a log is at the beginning of the other. *)
Definition keeps_committed (hs : history) (g g' : list LogEntry) : Prop :=
  ∀ m, commit_point hs g m → take m g' = take m g.

Lemma keeps_point hs g g' m : keeps_committed hs g g' → commit_point hs g m → commit_point hs g' m.
Proof.
  intros Hk Hm. pose proof (Hk m Hm) as E. destruct Hm as [->|(e & Hm & He & Hc)]; [by left|]. right. exists e.
  split_and!; [done| |done]. rewrite <- He. apply (take_lookup_agree m); [lia|done].
Qed.

Lemma keeps_snap hs g g' idx term data : keeps_committed hs g g' → snap_at hs g idx term data → snap_at hs g' idx term data.
Proof.
  intros Hk (k & -> & Hpos & Ht & Hc & Hs & sn & m & Hsn & Hm & Hd). pose proof (Hk k Hc) as E. exists k. split_and!; [done..| | |].
  - rewrite Ht. by apply term_at_agree.
  - by eapply keeps_point.
  - split; [done|]. exists sn, m. split; [done|]. split; [|done]. by eapply machine_at_agree.
Qed.

Lemma keeps_snapshot_on hs st g g' b :
  keeps_committed hs g g' → snapshot_on cfg m0 alike (SM := SM) hs st g b → snapshot_on cfg m0 alike (SM := SM) hs st g' b.
Proof.
  intros Hk. unfold snapshot_on. destruct st_Snapshot as [ops|]; [|done].
  intros [?|(idx & term & data & Hl & Hsn & Hb)]; [by left|]. right. exists idx, term, data. split_and!; [done| |done].
  by eapply keeps_snap.
Qed.

Lemma keeps_applied_on hs (st : St) g g' : keeps_committed hs g g' → applied_on cfg hs st g → applied_on cfg hs st g'.
Proof.
  intros Hk Ha ops Hops. destruct (Ha ops Hops) as (i & Hi & Hc). exists i. split; [done|]. by eapply keeps_point.
Qed.

(** Memory has moved on to [s1], which the node describes after the steps to [sp1];
    then the state is written. *)
Lemma live_write sp sp1 me s s1 k :
  live sp me (Up s) k → lreach sp me sp1 → leads_fine (sp_hist sp1) →
  mem_rel (sp_hist sp1) me s1 (sp_node sp1 me) → pending_rel (sp_hist sp1) s1 (sp_node sp1 me) k →
  storage s1 = storage s → keeps_committed (sp_hist sp) (a_log (sp_node sp me)) (a_log (sp_node sp1 me)) →
  persistable s1 →
  match mustPersistLocked s1 with
  | Ok s2 => lsim sp me (λ sp', sp' = sp1 ∧ live sp1 me (Up s2) k)
  | Panic s2 => lsim sp me (λ sp', live sp' me (Down me (storage s2)) None)
  end.
Proof.
  intros Hlive Hreach Hl1 Hm1 Hp1 Est Hkeep Hper. pose proof Hlive as [Hsp Hl Hin (Hm & Hp & t & Ht & Hd)].
  destruct (lreach_inv _ _ _ Hsp Hreach) as [Hsp1 Hgr]. set (a := sp_node sp me) in *. set (a1 := sp_node sp1 me) in *.
  unfold mustPersistLocked. destruct (persistLocked s1) as [s2 err] eqn:Ep.
  destruct (mr_store _ _ _ _ _ _ _ Hm1) as (st & Est1 & Hsn1).
  assert (applied_on cfg (sp_hist sp1) st (a_log a1)) as Hap1.
  { destruct Hd as (st0 & l & Hd0 & _ & _ & _ & Hap & _). rewrite <- Est, Est1 in Hd0. injection Hd0 as <-.
    eapply applied_on_grows; [done|]. by eapply keeps_applied_on. }
  destruct (persistLocked_disk s1 s2 err (sp_hist sp1) a1 Ep Hper (mk_is_Some _ _ Est1) (mr_term _ _ _ _ _ _ _ Hm1)
    (mr_log _ _ _ _ _ _ _ Hm1)) as (st' & st2 & Est' & -> & Hor & Hsnap).
  { intros st0 Hst0. rewrite Est1 in Hst0. by injection Hst0 as <-. }
  rewrite Est1 in Est'. injection Est' as <-.
  assert (disk_rel (sp_hist sp1) (Some st2) a1 (a_term a1) (base (log s1)) → live sp1 me (Up (set_storage (Some st2) s1)) k) as Hnew.
  { intros Hd1. split; [done..|]. split; [|split].
    - destruct Hm1. split; simpl; try done. exists st2. split; [done|]. unfold snapshot_on in *.
      destruct st_Snapshot as [ops|]; [|done]. by rewrite Hsnap.
    - intros c Hc. destruct (Hp1 c Hc) as (H1 & H2 & H3). split_and!; [done|apply H2|apply H2|]. intros Hs.
      destruct (H3 Hs) as (ops & st0 & Hops & Hst0 & Hload). rewrite Est1 in Hst0. injection Hst0 as <-.
      exists ops, st2. split_and!; [done..|]. by rewrite Hsnap.
    - exists (a_term a1). split; [|done]. split; [|apply Z.le_refl]. apply (no_saved _ _ _ _ (proj2 Hsp1 me)). }
  destruct err as [e|].
  - simpl. destruct Hor as [Hd1|[_ Hsame]].
    + eapply lsim_reach; [exact Hreach|]. apply (live_crash _ _ _ _ (Hnew Hd1)).
    + rewrite <- Est in Hd. eapply (live_crash_same sp me s k st st2); [done|congruence|done].
  - destruct Hor as [Hd1|[? _]]; [|done]. exists sp1. split; [done|]. split; [done|]. by apply Hnew.
Qed.

(** The state is written with the log as it was. *)
Lemma live_save sp me s k :
  live sp me (Up s) k → persistable s →
  match mustPersistLocked s with
  | Ok s2 => lsim sp me (λ sp', live sp' me (Up s2) k ∧ a_saved (sp_node sp' me) = a_term (sp_node sp' me) ∧
      a_log (sp_node sp' me) = a_log (sp_node sp me) ∧ sp_hist sp' = sp_hist sp)
  | Panic s2 => lsim sp me (λ sp', live sp' me (Down me (storage s2)) None)
  end.
Proof.
  intros Hlive Hper. pose proof Hlive as [Hsp Hl Hin (Hm & Hp & _)].
  pose proof (a_save cfg sp me) as Hstep. cbv zeta in Hstep. set (a := sp_node sp me) in *.
  set (a1 := mkANode (a_term a) (a_term a) (a_role a) (a_log a) (a_commit a)) in *.
  assert (sp_node (set_anode me a1 sp) me = a1) as Ea1 by apply fn_lookup_insert.
  pose proof (live_write sp (set_anode me a1 sp) me s s k Hlive (lreach_node _ _ _ Hstep) Hl) as Hw. rewrite Ea1 in Hw.
  assert (mem_rel (sp_hist sp) me s a1) as Hm1 by by destruct Hm.
  specialize (Hw Hm1 Hp eq_refl ltac:(by intros m _) Hper). destruct (mustPersistLocked s) as [s2|s2]; [|done].
  eapply lsim_mono; [exact Hw|]. intros sp' [-> Hlive']. rewrite Ea1. by split_and!.
Qed.

Lemma same_core_persistable s s' : same_core s s' → persistable s' → persistable s.
Proof. intros (E1 & E2 & E3 & _). unfold RaftVotes.persistable. by rewrite E1, E2, E3. Qed.

Lemma mustPersist_core s : match mustPersistLocked s with Ok s' | Panic s' => same_core s s' end.
Proof. pose proof (persistLocked_core s) as Hc. unfold mustPersistLocked. by destruct (persistLocked s) as [s' [err|]]. Qed.

(** A higher term is adopted and written. *)
Lemma live_raise sp me s k t :
  live sp me (Up s) k → currentTerm s < t →
  (match mustPersistLocked (becomeFollower t s) with Ok s2 | Panic s2 => persistable s2 end) →
  match mustPersistLocked (becomeFollower t s) with
  | Ok s2 => lsim sp me (λ sp', live sp' me (Up s2) k)
  | Panic s2 => lsim sp me (λ sp', live sp' me (Down me (storage s2)) None)
  end.
Proof.
  intros Hlive Ht Hper. pose proof (mustPersist_core (becomeFollower t s)) as Hcore.
  assert (persistable (becomeFollower t s)) as Hper'.
  { destruct (mustPersistLocked _); by eapply same_core_persistable. }
  assert (lsim sp me (λ sp', live sp' me (Up (becomeFollower t s)) k)) as Hobs.
  { eapply lsim_mono; [eapply (live_observe sp me s (becomeFollower t s) k t Hlive)|]; try done; try lia;
      unfold becomeFollower; simpl; destruct (Z.ltb_spec (currentTerm s) t); try done; try lia; [by left|].
    by intros sp' [? _]. }
  destruct Hobs as (sp1 & Hr1 & Hlive1). pose proof (live_save sp1 me (becomeFollower t s) k Hlive1 Hper') as Hs.
  destruct (mustPersistLocked (becomeFollower t s)) as [s2|s2]; eapply lsim_reach; [exact Hr1| |exact Hr1|done].
  eapply lsim_mono; [exact Hs|]. by intros sp' [? _].
Qed.

(** ** Applying *)

Lemma apply_loop_panic n s s' : apply_loop n s = Panic s' → storage s' = storage s.
Proof.
  revert s. induction n as [|n IH]; intros s; simpl; [done|]. destruct (negb _); [done|].
  destruct (entryAt _ _) as [e|]; [|done]. destruct (apply_entry e _) as [m|]; [|by intros [= <-]]. by intros ->%IH.
Qed.

(** The applied marker is written. *)
Lemma saveApplied_disk hs s (m : nat) a t b :
  lastApplied s = Z.of_nat m → Z.of_nat m < 2 ^ 62 → disk_rel hs (storage s) a t b → commit_point hs (a_log a) m →
  disk_rel hs (storage (saveApplied s)) a t b ∧
  ∀ ops st, st_Snapshot = Some ops → storage s = Some st →
    ∃ st', storage (saveApplied s) = Some st' ∧ ss_LoadSnapshot ops st' = ss_LoadSnapshot ops st.
Proof.
  intros Hla Hm Hd Hc. unfold saveApplied. destruct (storage s) as [st|] eqn:Est; [|by destruct Hd as (st & l & ? & _)].
  destruct st_Applied as [ops|] eqn:Eops; [|rewrite Est; split; [done|intros ops st0 _ [= <-]; by exists st]].
  destruct (0 <? lastApplied s); [|rewrite Est; split; [done|intros ops' st0 _ [= <-]; by exists st]].
  pose proof (applied_keeps ops (lastApplied s) st Eops) as Hload.
  pose proof (applied_saved ops (lastApplied s) st Eops ltac:(unfold in_u64; lia)) as Hap.
  pose proof (λ ops' E, applied_keeps_snapshot ops ops' (lastApplied s) st Eops E) as Hsn.
  destruct (as_SaveApplied ops (lastApplied s) st) as [st' err]. cbn [fst] in *.
  assert (disk_rel hs (Some st') a t b) as Hd'.
  { destruct Hd as (st0 & l & [= <-] & Hrep & Hb & Hst & Ha & Hs). exists st', l. split; [done|]. split; [done|]. split; [done|]. split; [|split].
    - unfold state_on in *. by rewrite Hload.
    - intros ops' Hops'. rewrite Eops in Hops'. injection Hops' as <-. destruct Hap as [->| ->]; [|by apply Ha].
      exists m. by rewrite Hla.
    - unfold snapshot_on in *. destruct st_Snapshot as [ops'|]; [|done]. by rewrite Hsn. }
  destruct err; simpl; (split; [done|]); intros ops' st0 Hops' [= <-]; exists st'; auto.
Qed.

Lemma apply_all_alike es m m' :
  alike m m' → option_Forall2 (option_Forall2 alike) (apply_all es (Some m)) (apply_all es (Some m')).
Proof using SnapshotLaws0.
  revert m m'. induction es as [|e es IH]; intros m m' Hm; cbn [apply_all]; [by do 2 constructor|].
  pose proof (alike_apply e m m' Hm) as He.
  destruct (apply_entry e (Some m)) as [x|] eqn:Ex, (apply_entry e (Some m')) as [x'|] eqn:Ex'; simpl; inversion He; [|constructor].
  destruct (apply_entry_some _ _ _ Ex) as [z ->], (apply_entry_some _ _ _ Ex') as [z' ->]. apply IH.
  match goal with Ha : option_Forall2 alike _ _ |- _ => by inversion Ha end.
Qed.

Lemma machine_at_more g lo hi x x' :
  (lo ≤ hi)%nat → RaftRelation.machine_at m0 alike g lo x → apply_all (take (hi - lo) (drop lo g)) x = Some x' →
  RaftRelation.machine_at m0 alike g hi x'.
Proof using SnapshotLaws0.
  intros Hlo (m & m' & Hm & -> & Hal) Hx. unfold RaftRelation.machine_at. rewrite (apply_all_more g lo hi _ _ Hlo Hm).
  pose proof (apply_all_alike (take (hi - lo) (drop lo g)) m m' Hal) as Hboth. rewrite Hx in Hboth.
  inversion Hboth as [y y' Hy E1 E2|]; subst. inversion Hy as [z z' Hz E3 E4|E3 E4]; subst; [by exists z, z'|].
  symmetry in E1. apply apply_all_some in E1 as [? ?]. done.
Qed.

(** Learning a commit index and applying up to it. *)
Lemma live_apply sp me s k (m : nat) :
  live sp me (Up s) k → commit_point (sp_hist sp) (a_log (sp_node sp me)) m → (a_commit (sp_node sp me) ≤ m)%nat →
  match applyCommitted (set_commitIndex (Z.of_nat m) s) with
  | Ok s2 => lsim sp me (λ sp', live sp' me (Up s2) k ∧ sp_hist sp' = sp_hist sp) ∧
      id s2 = id s ∧ peers s2 = peers s ∧ role s2 = role s
  | Panic s2 => lsim sp me (λ sp', live sp' me (Down me (storage s2)) None)
  end.
Proof.
  intros Hlive Hc Hle. pose proof Hlive as [Hsp Hl Hin (Hm & Hp & t & Ht & Hd)]. pose proof Hm as [].
  set (a := sp_node sp me) in *. pose proof (commit_point_length _ _ _ Hc) as Hlen.
  set (s1 := set_commitIndex (Z.of_nat m) s).
  pose proof (apply_loop_spec (Z.to_nat (commitIndex s1 - lastApplied s1)) s1 (rep_wf _ _ mr_log) eq_refl) as Hloop.
  simpl in Hloop. rewrite mr_applied in Hloop. pose proof (base_Z _ _ mr_log). pose proof (rep_last _ _ mr_log).
  specialize (Hloop ltac:(lia) ltac:(lia)). rewrite (rep_between _ (a_log a)) in Hloop by (done || lia).
  unfold applyCommitted. simpl. rewrite mr_applied.
  destruct (apply_all (take (m - a_commit a) (drop (a_commit a) (a_log a))) (sm s)) as [m'|] eqn:Eall.
  - destruct Hloop as (s2 & El & Esm & Ela & (F1 & F2 & F3 & F4 & F5 & F6 & F7 & F8 & F9 & F10)).
    pose proof (apply_loop_ends (Z.to_nat (Z.of_nat m - Z.of_nat (a_commit a))) s1) as Hq.
    fold s1. rewrite El in Hq |- *. cbn [mbind outcome_bind]. destruct Hq as [(_ & _ & _ & Eid & _) _]. simpl in *.
    assert (nextIndex s2 = nextIndex s ∧ snapshot s2 = snapshot s) as [En Esn].
    { clear -El. revert s2 El. subst s1. generalize (Z.to_nat (Z.of_nat m - Z.of_nat (a_commit a))). intros n.
      change (nextIndex s) with (nextIndex (set_commitIndex (Z.of_nat m) s)).
      change (snapshot s) with (snapshot (set_commitIndex (Z.of_nat m) s)).
      generalize (set_commitIndex (Z.of_nat m) s). induction n as [|n IH]; intros s1 s2; simpl; [by intros [= <-]|].
      destruct (negb _); [by intros [= <-]|]. destruct (entryAt _ _) as [e|]; [|by intros [= <-]].
      destruct (apply_entry e _); [|done]. by intros [-> ->]%IH. }
    split.
    2: { unfold saveApplied. by repeat case_match. }
    pose proof (a_learn cfg sp me m Hc) as Hstep. cbv zeta in Hstep. fold a in Hstep.
    destruct (ainv_step cfg _ _ Hsp Hstep) as [Hsp' _]. apply (lsim_node _ _ _ _ Hstep). split; [|done]. split; [done..|].
    simpl. rewrite fn_lookup_insert. set (a' := mkANode _ _ _ _ _).
    assert (disk_rel (sp_hist sp) (storage s2) a' t (base (log s2))) as Hd2 by (rewrite F5, F1; exact Hd).
    destruct (saveApplied_disk (sp_hist sp) s2 m a' t _ ltac:(lia) ltac:(lia) Hd2 Hc) as [Hd3 Hsnap].
    assert (id (saveApplied s2) = id s2 ∧ peers (saveApplied s2) = peers s2 ∧ currentTerm (saveApplied s2) = currentTerm s2 ∧
      role (saveApplied s2) = role s2 ∧ log (saveApplied s2) = log s2 ∧ commitIndex (saveApplied s2) = commitIndex s2 ∧
      lastApplied (saveApplied s2) = lastApplied s2 ∧ sm (saveApplied s2) = sm s2 ∧ snapshot (saveApplied s2) = snapshot s2 ∧
      nextIndex (saveApplied s2) = nextIndex s2 ∧ matchIndex (saveApplied s2) = matchIndex s2)
      as (G1 & G2 & G3 & G4 & G5 & G6 & G7 & G8 & G9 & G11 & G12) by (unfold saveApplied; by repeat case_match).
    split; [|split].
    + split; simpl; rewrite ?G1, ?G2, ?G3, ?G4, ?G5, ?G6, ?G7, ?G8, ?G9, ?G11, ?G12; try congruence; try done; try lia.
      * rewrite F1. lia.
      * rewrite Esm. by eapply machine_at_more.
      * intros sn Hsn. rewrite Esn in Hsn. destruct (mr_snapshot sn Hsn). split; [done|]. rewrite F2. simpl. lia.
      * destruct mr_store as (st & Est & Hsn). destruct Hd3 as (st3 & l3 & Est3 & _). exists st3. split; [done|].
        rewrite F1. unfold snapshot_on in *. destruct st_Snapshot as [ops|] eqn:Eops; [|done].
        destruct (Hsnap ops st eq_refl ltac:(congruence)) as (st4 & Est4 & Eload).
        rewrite Est3 in Est4. injection Est4 as <-. by rewrite Eload.
      * rewrite En. done.
      * rewrite F10. simpl. intros Hr p k' Hpin Hk'. destruct (mr_match Hr p k' Hpin Hk') as [? Hor]. split; [done|].
        done.
    + intros c Hck. destruct (Hp c Hck) as (Hs1 & Hs2 & Hs3). simpl. rewrite G5, G6, F1, F2. simpl. split; [done|]. split; [lia|].
      intros Hsv. destruct (Hs3 Hsv) as (ops & st & Eops & Est & Eload).
      destruct (Hsnap ops st Eops ltac:(congruence)) as (st4 & Est4 & Eload4).
      exists ops, st4. split_and!; [done..|]. congruence.
    + exists t. simpl. rewrite G5. by split.
  - destruct Hloop as (s2 & El). fold s1. rewrite El. cbn [mbind outcome_bind].
    rewrite (apply_loop_panic _ _ _ El). change (storage s1) with (storage s). by eapply live_crash.
Qed.

(** ** Committing *)

Lemma advance_loop_shape fuel n s :
  0 ≤ commitIndex s → n < 2 ^ 63 →
  advance_loop fuel n s = Ok s ∨
  ∃ m, commitIndex s < m ≤ n ∧ committable m s ∧
    advance_loop fuel n s = (s ← applyCommitted (set_commitIndex m s); Ok (checkSelfRemovalLocked s)).
Proof.
  intros Hc. revert n. induction fuel as [|fuel IH]; intros n Hn; simpl; [by left|].
  destruct (Z.ltb_spec (commitIndex s) n) as [Hlt|]; simpl; [|by left].
  assert (advance_loop fuel (u64 (n - 1)) s = Ok s ∨ ∃ m, commitIndex s < m ≤ n ∧ committable m s ∧
    advance_loop fuel (u64 (n - 1)) s = (s ← applyCommitted (set_commitIndex m s); Ok (checkSelfRemovalLocked s))) as Hnext.
  { rewrite u64_small by (unfold in_u64; lia). destruct (IH (n - 1) ltac:(lia)) as [?|(m & ? & ? & ?)]; [by left|].
    right. exists m. split_and!; [lia|lia|done..]. }
  destruct (termAt (log s) n) as [t|] eqn:Ht; [|done]. destruct (Z.eqb_spec t (currentTerm s)) as [->|]; simpl; [|done].
  destruct (Nat.leb_spec (majority s) (matching n s)); [|done]. right. exists n. split_and!; [lia|lia|done..].
Qed.

Lemma checkSelf_member s : id s ∈ peers s → checkSelfRemovalLocked s = s.
Proof.
  intros Hin. unfold checkSelfRemovalLocked. apply Contains_spec in Hin. by repeat case_match.
Qed.

Lemma elem_or {A} (P : Prop) (Q : A → Prop) (l : list A) :
  (∀ x, x ∈ l → P ∨ Q x) → P ∨ ∀ x, x ∈ l → Q x.
Proof.
  induction l as [|y l IH]; intros Hall; [right; by intros x ?%elem_of_nil|].
  destruct (Hall y) as [?|Hy]; [by left|by left|]. destruct IH as [?|Hl]; [|by left|].
  - intros x Hx. apply Hall. by right.
  - right. intros x [->|Hx]%elem_of_cons; auto.
Qed.

(** An entry of the newest term in a log is committed with any that follows it. *)
Lemma commit_point_below hs g (n j : nat) e :
  hist_ok cfg hs → valid hs g → g !! pred n = Some e → (0 < n ≤ j)%nat →
  Forall (λ x, e_Term x ≤ e_Term e) g → commit_point hs g j → commit_point hs g n.
Proof.
  intros Hh Hg He Hn Hall [->|(x & Hj & Hx & Hc)]; [lia|]. right. exists e. split_and!; [lia|done|].
  assert (e_Term x = e_Term e) as Ex.
  { rewrite Forall_lookup in Hall. pose proof (Hall _ _ Hx).
    pose proof (valid_ordered cfg _ Hh _ Hg (pred n) (pred j) e x ltac:(lia) He Hx). lia. }
  rewrite Ex in Hc. destruct Hc as (c & L & y & q & HL & Hy & Ey & _ & Hq & Hack).
  destruct (Hg _ _ He) as (c' & L' & HL' & Htake). rewrite HL in HL'. injection HL' as <- <-.
  exists c, L, e, q. split_and!; [done| |done|lia|done|].
  - rewrite <- He. symmetry. apply (take_lookup_agree (S (pred n))); [lia|done].
  - intros z Hz. destruct (Hack z Hz) as (i & ? & ?). exists i. split; [lia|done].
Qed.

(** The leader's count is a majority that acknowledged. *)
Lemma live_committable sp me s k m :
  live sp me (Up s) k → role s = Leader → commitIndex s < m ≤ lastIndex (log s) → committable m s →
  commit_point (sp_hist sp) (a_log (sp_node sp me)) (Z.to_nat m).
Proof using Hcfg.
  intros [Hsp Hl Hin (Hm & _)] Hr Hrange [Ht Hmaj]. pose proof Hm as []. set (a := sp_node sp me) in *.
  pose proof (proj2 Hsp me) as Na. fold a in Na. rewrite mr_role in Hr.
  destruct (no_leader _ _ _ _ Na Hr) as [_ HL]. pose proof (rep_last _ _ mr_log) as Hlast.
  replace m with (Z.of_nat (Z.to_nat m)) in Ht by lia. set (n := Z.to_nat m) in *.
  rewrite (rep_term _ _ mr_log) in Ht by lia. injection Ht as Ht.
  destruct (lookup_lt_is_Some_2 (a_log a) (pred n)) as [e He]; [lia|].
  assert (e_Term e = a_term a) as Het.
  { rewrite <- (term_at_lookup _ _ _ He). replace (S (pred n)) with n by lia. congruence. }
  set (q := filter (λ p, m ≤ default 0 (matchIndex s !! p)) cfg).
  assert (commit_point (sp_hist sp) (a_log a) n ∨ ∀ p, p ∈ q → acked (sp_hist sp) p (a_term a) n) as [?|Hq]; [|done|].
  - apply elem_or. intros p [Hp Hpin]%list_elem_of_filter. destruct (matchIndex s !! p) as [j|] eqn:Ej; simpl in Hp; [|lia].
    destruct (mr_match Hr p j Hpin Ej) as [Hj [Hpt|[Hlow|Hack]]].
    + left. apply (commit_point_below (sp_hist sp) (a_log a) n (Z.to_nat j) e); [apply Hsp|apply (no_valid _ _ _ _ Na)|done|lia| |done].
      eapply Forall_impl; [apply (no_terms _ _ _ _ Na)|]. intros x Hx. simpl in Hx. pose proof (no_saved _ _ _ _ Na). lia.
    + exfalso. destruct (lookup_lt_is_Some_2 (a_log a) (pred (Z.to_nat j))) as [x Hx]; [lia|].
      pose proof (valid_ordered cfg _ (proj1 Hsp) _ (no_valid _ _ _ _ Na) (pred n) (pred (Z.to_nat j)) e x ltac:(lia) He Hx).
      pose proof (term_at_lookup _ _ _ Hx) as Hxt. replace (S (pred (Z.to_nat j))) with (Z.to_nat j) in Hxt by lia. lia.
    + right. destruct Hack as (i & Hi & Hin'). exists i. split; [lia|done].
  - right. exists e. split; [lia|]. split; [done|]. rewrite Het. exists me, (a_log a), e, q. split_and!; [done..|lia| |done].
    split; [by apply NoDup_filter|]. split; [intros x [_ Hx]%list_elem_of_filter; exact Hx|].
    unfold matching, majority in Hmaj. by rewrite mr_peers in Hmaj.
Qed.

Lemma live_advance sp me s k :
  live sp me (Up s) k →
  match advanceCommitIndexLocked s with
  | Ok s2 => lsim sp me (λ sp', live sp' me (Up s2) k)
  | Panic s2 => lsim sp me (λ sp', live sp' me (Down me (storage s2)) None)
  end.
Proof using All.
  intros Hlive. unfold advanceCommitIndexLocked. case_bool_decide as Hr; [by apply lsim_ret|].
  assert (role s = Leader) as Hrole by by destruct (role s). pose proof Hlive as [Hsp Hl Hin (Hm & _)]. pose proof Hm as [].
  pose proof (rep_last _ _ mr_log) as Hlast.
  destruct (advance_loop_shape (Z.to_nat (lastIndex (log s) - commitIndex s)) (lastIndex (log s)) s ltac:(lia) ltac:(lia))
    as [->|(m & Hrange & Hcom & ->)]; [by apply lsim_ret|].
  pose proof (live_committable sp me s k m Hlive Hrole Hrange Hcom) as Hpt.
  pose proof (live_apply sp me s k (Z.to_nat m) Hlive Hpt ltac:(lia)) as Ha.
  replace (Z.of_nat (Z.to_nat m)) with m in Ha by lia.
  destruct (applyCommitted (set_commitIndex m s)) as [s2|s2]; cbn [mbind outcome_bind]; [|done].
  destruct Ha as [Ha (Ei & Ep & _)]. rewrite checkSelf_member by (rewrite Ei, Ep, mr_id, mr_peers; done).
  eapply lsim_mono; [exact Ha|]. by intros sp' [? _].
Qed.

End Simulate.
