(* ===== verification/RaftReceive.v ===== *)
(** * Raft: AppendEntries as steps of the specification *)

From stdpp Require Import functions.
From S2P Require Import Prelude GoLib RaftTypes RaftLog RaftCodec RaftServer RaftLoop RaftSnapshot RaftRead.
From S2P Require Import RaftVotes RaftNode RaftElection RaftReplication RaftCommit RaftRestart.
From S2P Require Import RaftSpec RaftCluster RaftRelation RaftSimulate.

Local Open Scope Z_scope.

Section Receive.
Context {SM St : Type} `{StateMachine SM} `{Storage St} {storable : bytes → Prop}.
Context `{!StorageLaws St storable} {snapshot_storable : Z → Z → bytes → Prop} `{!RecoveryLaws St snapshot_storable}.
Context (cfg : Configuration) (m0 : SM) (alike : relation SM) `{!SnapshotLaws m0 alike} (Hcfg : NoDup cfg).
Implicit Type s : Server SM St.

Abbreviation commit_point := (commit_point cfg).
Abbreviation persistable := (persistable (storable := storable)).
Abbreviation mem_rel := (mem_rel (SM := SM) (St := St) cfg m0 alike).
Abbreviation live := (live (SM := SM) (St := St) cfg m0 alike).
Abbreviation lsim := (lsim cfg).

(** ** No configurations in the log *)

Lemma adopt_none s :
  Forall (λ e, app_command (e_Command e)) (tail (log s)) → adoptConfigFromLogLocked s = s.
Proof.
  intros Hall. unfold adoptConfigFromLogLocked. apply Forall_reverse in Hall.
  induction Hall as [|e es He _ IH]; simpl; [done|].
  assert (isConfigEntry (cmd_bytes (e_Command e)) = false) as ->; [|done].
  destruct e as [t i [b|]]; simpl in *; [by destruct He|done].
Qed.

Lemma valid_app hs g : leads_fine hs → valid hs g → Forall (λ e, app_command (e_Command e)) g.
Proof.
  intros Hl Hg. apply Forall_lookup. intros i e Hi. destruct (valid_lookup hs g i e Hg Hi) as (c & L & HL & _ & He).
  destruct (Hl _ _ _ HL) as (_ & _ & Hall). rewrite Forall_lookup in Hall. by apply (Hall i).
Qed.

Lemma valid_matching_at hs g L : valid hs g → valid hs L → matching_at g L.
Proof. intros Hg HL i x y Hx Hy E. by eapply valid_matching. Qed.

(** ** Writing over a log keeps what is committed *)

Lemma overwrite_keeps hs g t c L p :
  hist_ok cfg hs → valid hs g → Forall (λ e, e_Term e ≤ t) g → h_leads hs !! t = Some (c, L) →
  keeps_committed cfg hs g (overwrite p L g).
Proof.
  intros Hh Hg Ht HL m Hm. destruct (commit_point_lead cfg hs Hh g m t c L Hg Hm Ht HL) as [E _].
  unfold overwrite. case_decide as Hd; [done|]. rewrite take_take. destruct (decide (m ≤ p)%nat) as [?|?].
  - by rewrite Nat.min_l.
  - destruct Hd. apply (take_agree p m); [lia|done].
Qed.

(** A request of the leader of the term the server is in. *)
Section Request.
Context (sp : spec) (me : NodeID) (s : Server SM St) (k : option compaction) (c : NodeID) (L : list LogEntry) (prev p : nat).
Let a := sp_node sp me.
Let g := a_log a.
Context (Hlive : live sp me (Up s) k) (HL : h_leads (sp_hist sp) !! currentTerm s = Some (c, L)) (Hc : c ≠ me).
Context (Hp : (prev ≤ p ≤ length L)%nat) (Hmatch : matchesPrevLog (log s) (Z.of_nat prev) (term_at L prev) = true).
Let l := (appendFrom (Z.of_nat prev) (drop prev (take p L)) (log s)).1.
Let g' := overwrite p L g.

Lemma request_terms : Forall (λ e, e_Term e ≤ a_term a) g ∧ Forall (λ e, e_Term e ≤ a_saved a) g.
Proof using All.
  destruct Hlive as [Hsp _ _ _]. pose proof (proj2 Hsp me) as Na. pose proof (no_terms _ _ _ _ Na) as Ht. split; [|exact Ht].
  eapply Forall_impl; [exact Ht|]. intros e He. simpl in He. pose proof (no_saved _ _ _ _ Na). unfold a. lia.
Qed.

Lemma request_lead : h_leads (sp_hist sp) !! a_term a = Some (c, L).
Proof using All. destruct Hlive as [_ _ _ (Hm & _)]. rewrite <- HL. f_equal. by destruct Hm. Qed.

Lemma request_keeps : keeps_committed cfg (sp_hist sp) g g'.
Proof using All.
  pose proof request_terms as [Ht _]. pose proof request_lead as HL'. destruct Hlive as [Hsp _ _ _].
  eapply (overwrite_keeps (sp_hist sp) g (a_term a) c); [apply Hsp|apply (no_valid _ _ _ _ (proj2 Hsp me))|done..].
Qed.

Lemma request_anchor :
  (prev ≤ length g)%nat ∧ take ((prev `max` base (log s)) `min` p) g = take ((prev `max` base (log s)) `min` p) L.
Proof using All.
  pose proof request_terms as [Ht _]. pose proof request_lead as HL'. pose proof Hlive as [Hsp _ _ (Hm & _)]. pose proof Hm as [].
  fold a g in mr_log, mr_base, mr_commit. pose proof (base_Z _ _ mr_log) as Hb. pose proof (rep_base _ _ mr_log) as Hbg.
  pose proof (proj2 Hsp me) as Na. pose proof (matchesPrevLog_range _ _ _ (rep_wf _ _ mr_log) Hmatch) as Hr.
  rewrite (rep_last _ _ mr_log) in Hr. split; [lia|].
  unfold matchesPrevLog, compactedAway in Hmatch. destruct (Z.ltb_spec (Z.of_nat prev) (baseIndex (log s))) as [Hlt|Hge].
  - destruct (commit_point_lead cfg _ (proj1 Hsp) g (a_commit a) (a_term a) c L) as [E _];
      [apply (no_valid _ _ _ _ Na)|apply (no_commit _ _ _ _ Na)|done..|]. apply (take_agree _ (a_commit a)); [lia|done].
  - rewrite (rep_term _ _ mr_log) in Hmatch by lia. apply Z.eqb_eq in Hmatch.
    apply (take_agree _ prev); [lia|]. apply matching_term; [|lia|lia|done].
    apply (valid_matching_at (sp_hist sp)); [apply (no_valid _ _ _ _ Na)|].
    apply (lo_valid _ _ _ _ _ (hi_leads _ _ (proj1 Hsp) _ _ _ HL')).
Qed.

Lemma request_rep : rep l g' ∧ base l = base (log s) ∧ Z.of_nat (length g') < 2 ^ 62.
Proof using All.
  pose proof request_anchor as [Hprev Hag]. pose proof request_lead as HL'. pose proof Hlive as [Hsp Hfine _ (Hm & _)]. pose proof Hm as [].
  fold a g in mr_log, mr_bound. destruct (Hfine _ _ _ HL') as (Hidx & Hlen & _). pose proof (proj2 Hsp me) as Na.
  assert (rep l g') as Hrep.
  { apply rep_append; try done; [|lia]. apply (valid_matching_at (sp_hist sp)); [apply (no_valid _ _ _ _ Na)|].
    apply (lo_valid _ _ _ _ _ (hi_leads _ _ (proj1 Hsp) _ _ _ HL')). }
  split; [done|]. split; [|pose proof (overwrite_length p L g); unfold g'; lia]. unfold base, l. f_equal.
  pose proof (rep_last _ _ mr_log). apply appendFrom_base; [apply mr_log| |lia].
  apply (rep_room _ _ mr_log). rewrite length_drop, length_take. lia.
Qed.

(** When the log did not change, the request's entries were there. *)
Lemma request_unchanged : l = log s → g' = g.
Proof using All.
  intros El. pose proof request_rep as (Hrep & Hb & _). pose proof request_anchor as [_ Hag].
  pose proof Hlive as [_ _ _ (Hm & _)]. pose proof (mr_log _ _ _ _ _ _ _ Hm) as Hrep0. fold a g in Hrep0.
  assert (take (base l) g' = take (base l) g) as Et.
  { rewrite Hb. destruct (decide (base (log s) ≤ p)%nat) as [?|?].
    - apply overwrite_take; [done|]. apply (take_agree _ ((prev `max` base (log s)) `min` p)); [lia|done].
    - unfold g', overwrite. rewrite decide_True; [done|]. apply (take_agree _ ((prev `max` base (log s)) `min` p)); [lia|done]. }
  rewrite <- (take_drop (base l) g'), <- (take_drop (base l) g), Et. f_equal.
  rewrite <- (rep_tail _ _ Hrep), El. by rewrite (rep_tail _ _ Hrep0).
Qed.

(** The node after the step [a_receive]. *)
Let a1 := mkANode (a_term a) (a_saved a) (a_role a) g' (a_commit a).

Lemma request_mem hs' : grows (sp_hist sp) hs' →
  mem_rel hs' me (set_log l s) a1 ∧ pending_rel cfg m0 alike hs' (set_log l s) a1 k.
Proof using All.
  intros Hgr. pose proof request_rep as (Hrep & Hb & Hlen). pose proof request_keeps as Hk. pose proof request_lead as HL'.
  pose proof Hlive as [Hsp _ _ (Hm & Hpend & _)]. pose proof Hm as [].
  pose proof (proj2 Hsp me) as Na. fold a in Na, mr_commit, mr_term, mr_role, mr_sm, mr_snapshot, mr_store, Hpend.
  assert (a_role a ≠ Leader) as Hnl.
  { intros Hr. destruct (no_leader _ _ _ _ Na Hr) as [_ E]. rewrite HL' in E. congruence. }
  split.
  - split; simpl; try done.
    + by rewrite Hb.
    + eapply machine_at_agree; [|exact mr_sm]. apply (Hk _ (no_commit _ _ _ _ Na)).
    + intros sn Hsn. destruct (mr_snapshot sn Hsn) as [Hs ?]. split; [|done]. eapply snap_at_grows; [done|]. by eapply keeps_snap.
    + destruct mr_store as (st & Hst & Hsn). exists st. split; [done|]. rewrite Hb. eapply snapshot_on_grows; [done|].
      by eapply keeps_snapshot_on.
  - intros x Hx. destruct (Hpend x Hx) as (H1 & H2 & H3). simpl. rewrite Hb. split; [|done].
    eapply snap_at_grows; [done|]. by eapply keeps_snap.
Qed.

Let a2 := mkANode (a_term a) (a_term a) (a_role a) g' (a_commit a).

Lemma request_reach : ∃ sp1, lreach cfg sp me sp1 ∧ sp_node sp1 me = a2 ∧
  sp_hist sp1 = add_ack me (a_term a) p (sp_hist sp).
Proof using All.
  pose proof request_lead as HL'. pose proof (a_save cfg sp me) as Hs0. cbv zeta in Hs0. fold a in Hs0.
  set (a0 := mkANode (a_term a) (a_term a) (a_role a) (a_log a) (a_commit a)) in *.
  set (sp0 := set_anode me a0 sp) in *. assert (sp_node sp0 me = a0) as E0 by apply fn_lookup_insert.
  pose proof (a_receive cfg sp0 me c L p) as Hs1. cbv zeta in Hs1. rewrite E0 in Hs1.
  specialize (Hs1 HL' Hc eq_refl ltac:(lia)).
  exists (mkSpec (<[me:=a2]> (sp_node sp0)) (add_ack me (a_term a) p (sp_hist sp))).
  split; [|split; [apply fn_lookup_insert|done]].
  eapply lreach_trans; [by apply lreach_node|]. split; [by apply rtc_once|]. split_and!; [|done..].
  intros x Hx. simpl. by rewrite !fn_lookup_insert_ne by done.
Qed.

Lemma acked_new (n : NodeID) t hs : acked (add_ack n t p hs) n t p.
Proof. exists p. split; [done|]. simpl. apply elem_of_cons. by left. Qed.

(** The log changed: it is written, and then acknowledged. *)
Lemma request_write s2 :
  view s2 = view (set_log l s) → persistable s2 →
  match mustPersistLocked s2 with
  | Ok s3 => lsim sp me (λ sp', live sp' me (Up s3) k ∧ acked (sp_hist sp') me (currentTerm s) p ∧
      take p (a_log (sp_node sp' me)) = take p L ∧ grows (sp_hist sp) (sp_hist sp') ∧
      a_commit (sp_node sp' me) = a_commit (sp_node sp me))
  | Panic s3 => lsim sp me (λ sp', live sp' me (Down me (storage s3)) None)
  end.
Proof using All.
  intros Hv Hper. destruct request_reach as (sp1 & Hreach & E1 & Eh). pose proof Hlive as [Hsp Hfine Hin (Hm & _)].
  assert (grows (sp_hist sp) (sp_hist sp1)) as Hgr by (rewrite Eh; apply grows_add_ack).
  destruct (request_mem (sp_hist sp1) Hgr) as [Hm1 Hp1].
  assert (view s2 = view (set_log l s)) as Hv' by done. unfold view in Hv'. injection Hv' as V1 V2 V3 V4 V5 V6 V7 V8 V9 V10 V11 V12.
  pose proof (live_write cfg m0 alike sp sp1 me s s2 k Hlive Hreach) as Hw. rewrite E1 in Hw.
  assert (leads_fine (sp_hist sp1)) as Hfine1 by (rewrite Eh; exact Hfine).
  assert (mem_rel (sp_hist sp1) me s2 a2) as Hm2.
  { eapply mem_rel_view; [exact Hv|]. by destruct Hm1. }
  assert (pending_rel cfg m0 alike (sp_hist sp1) s2 a2 k) as Hp2.
  { intros x Hx. rewrite V5, V6, V10. by apply Hp1. }
  specialize (Hw Hfine1 Hm2 Hp2 V10 request_keeps Hper).
  destruct (mustPersistLocked s2) as [s3|s3]; [|exact Hw]. eapply lsim_mono; [exact Hw|]. intros sp' [-> Hlive'].
  rewrite E1. split_and!; [done| |apply overwrite_has|done|done].
  rewrite Eh, (mr_term _ _ _ _ _ _ _ Hm). apply acked_new.
Qed.

(** The log did not change, and the term is on disk: acknowledged. *)
Lemma request_acked :
  l = log s → a_saved a = a_term a →
  lsim sp me (λ sp', live sp' me (Up s) k ∧ acked (sp_hist sp') me (currentTerm s) p ∧
    take p (a_log (sp_node sp' me)) = take p L ∧ grows (sp_hist sp) (sp_hist sp') ∧
      a_commit (sp_node sp' me) = a_commit (sp_node sp me)).
Proof using All.
  intros El Hs. destruct request_reach as (sp1 & Hreach & E1 & Eh). pose proof Hlive as [Hsp Hfine Hin Hnode].
  assert (grows (sp_hist sp) (sp_hist sp1)) as Hgr by (rewrite Eh; apply grows_add_ack).
  assert (a2 = a) as Ea.
  { unfold a2. rewrite (request_unchanged El). rewrite <- Hs at 2. unfold g, a. by destruct (sp_node sp me). }
  destruct (lreach_inv cfg _ _ _ Hsp Hreach) as [Hsp1 _].
  exists sp1. split; [done|]. rewrite E1. split_and!.
  - split; [done|by rewrite Eh|done|]. rewrite E1, Ea. by eapply node_rel_grows.
  - rewrite Eh, (mr_term _ _ _ _ _ _ _ (proj1 Hnode)). apply acked_new.
  - apply overwrite_has.
  - done.
  - done.
Qed.

(** The log did not change, and the term is not on disk: the request holds nothing
    of the leader's own term. *)
Lemma request_old :
  l = log s → a_saved a < a_term a → term_at L p < currentTerm s ∧ take p g = take p L.
Proof using All.
  intros El Hs. pose proof (request_unchanged El) as Eg. pose proof (overwrite_has p L g) as Hh. fold g' in Hh. rewrite Eg in Hh.
  split; [|done]. rewrite <- (term_at_agree _ _ _ Hh). pose proof request_terms as [_ Ht]. pose proof Hlive as [Hsp _ _ (Hm & _)].
  rewrite (mr_term _ _ _ _ _ _ _ Hm). fold a. destruct (decide (take p g = [])) as [E|E].
  - unfold term_at. rewrite E. change (log_term []) with 0.
    pose proof (lo_pos _ _ _ _ _ (hi_leads _ _ (proj1 Hsp) _ _ _ request_lead)). done.
  - destruct (log_term_lookup _ E) as (e & He & Hlt). unfold term_at. rewrite Hlt.
    apply lookup_take_Some in He as [He _]. rewrite Forall_lookup in Ht. specialize (Ht _ _ He). lia.
Qed.

End Request.

(** ** The handler *)

(** The outcome of a handler can be saved. *)
Definition savable {A} (get : A → Server SM St) (o : outcome SM St A) : Prop :=
  match o with Ok x => persistable (get x) | Panic s => persistable s end.

Lemma live_heard sp me s k env args :
  live sp me (Up s) k → currentTerm s ≤ ae_Term args →
  let (s1, changed) := heardFromLeader env args s in
  lsim sp me (λ sp', live sp' me (Up s1) k ∧ a_log (sp_node sp' me) = a_log (sp_node sp me) ∧
    a_saved (sp_node sp' me) = a_saved (sp_node sp me) ∧ sp_hist sp' = sp_hist sp) ∧
  currentTerm s1 = ae_Term args ∧ log s1 = log s ∧ commitIndex s1 = commitIndex s.
Proof.
  intros Hlive Ht. unfold heardFromLeader, observeTerm, becomeFollower. simpl.
  destruct (Z.ltb_spec (currentTerm s) (ae_Term args)) as [Hlt|Hge]; simpl.
  - split; [|done]. eapply (live_observe cfg m0 alike sp me s _ k (ae_Term args)); try done. by left.
  - assert (currentTerm s = ae_Term args) as Et by lia. destruct (bool_decide (role s = Candidate) && _) eqn:Ec; simpl.
    + split; [|done]. eapply (live_observe cfg m0 alike sp me s _ k (ae_Term args)); try done. by left.
    + split; [|done]. eapply (live_observe cfg m0 alike sp me s _ k (ae_Term args)); try done. right. by split_and!.
Qed.

Lemma applyCommitted_savable s : savable self (applyCommitted s) → persistable s.
Proof.
  pose proof (applyCommitted_ends s) as Hq. destruct (applyCommitted s); simpl in *; by eapply quiet_persistable.
Qed.

Lemma persist_if_savable b s : savable self (persist_if b s) → persistable s.
Proof.
  destruct b; simpl; [|done]. pose proof (mustPersist_core s) as Hc.
  destruct (mustPersistLocked s); simpl; intros; by eapply same_core_persistable.
Qed.

Lemma set_log_same s : view (set_log (log s) s) = view s.
Proof. done. Qed.

(** What a successful reply says: [append_ok]'s request is acknowledged. *)
Definition answered_ok (hs : history) (me : NodeID) (t : Z) (L : list LogEntry) (p : nat) : Prop :=
  acked hs me t p ∨ term_at L p < t.

(** The log is updated and written if it has to be. *)
Lemma live_update sp me s k c L prev p (changed : bool) :
  live sp me (Up s) k → h_leads (sp_hist sp) !! currentTerm s = Some (c, L) → c ≠ me → (prev ≤ p ≤ length L)%nat →
  matchesPrevLog (log s) (Z.of_nat prev) (term_at L prev) = true →
  let (l, c) := appendFrom (Z.of_nat prev) (drop prev (take p L)) (log s) in
  let s2 := if c then adoptConfigFromLogLocked (set_log l s) else set_log l s in
  savable self (persist_if (c || changed) s2) →
  match persist_if (c || changed) s2 with
  | Ok s3 => lsim sp me (λ sp', live sp' me (Up s3) k ∧ answered_ok (sp_hist sp') me (currentTerm s) L p ∧
      take p (a_log (sp_node sp' me)) = take p L ∧ grows (sp_hist sp) (sp_hist sp') ∧
      a_commit (sp_node sp' me) = a_commit (sp_node sp me))
  | Panic s3 => lsim sp me (λ sp', live sp' me (Down me (storage s3)) None)
  end.
Proof using All.
  intros Hlive HL Hc Hp Hm.
  pose proof (request_rep sp me s k c L prev p Hlive HL Hc Hp Hm) as (Hrep & Hb & _).
  pose proof (request_write sp me s k c L prev p Hlive HL Hc Hp Hm) as Hw.
  pose proof (request_acked sp me s k c L prev p Hlive HL Hc Hp Hm) as Hack.
  pose proof (request_old sp me s k c L prev p Hlive HL Hc Hp Hm) as Hold.
  pose proof (appendFrom_unchanged (Z.of_nat prev) (drop prev (take p L)) (log s)) as Hun.
  destruct (appendFrom (Z.of_nat prev) (drop prev (take p L)) (log s)) as [l b]. cbn [fst snd] in *.
  pose proof Hlive as [Hsp Hfine _ (Hmem & _)]. pose proof (proj2 Hsp me) as Na.
  assert (adoptConfigFromLogLocked (set_log l s) = set_log l s) as ->.
  { apply adopt_none. change (log (set_log l s)) with l. rewrite (rep_tail _ _ Hrep).
    apply Forall_drop. unfold overwrite. case_decide; [by eapply valid_app, (no_valid _ _ _ _ Na)|].
    apply Forall_take. destruct (Hfine _ _ _ HL) as (_ & _ & ?). done. }
  replace (if b then set_log l s else set_log l s) with (set_log l s) by (by destruct b). cbv zeta.
  intros Hsav%persist_if_savable. destruct (b || changed) eqn:Ewrite; simpl.
  - specialize (Hw (set_log l s) eq_refl Hsav). destruct (mustPersistLocked (set_log l s)) as [s3|s3]; [|done].
    eapply lsim_mono; [exact Hw|]. intros sp' (? & ? & ? & ? & ?). split_and!; try done. by left.
  - apply orb_false_iff in Ewrite as [-> ->]. specialize (Hun eq_refl). subst l.
    destruct (decide (a_saved (sp_node sp me) = a_term (sp_node sp me))) as [Es|Es].
    + eapply lsim_mono; [exact (Hack eq_refl Es)|]. intros sp' (Hl & ? & ? & ? & ?).
      split; [by eapply live_view; [apply set_log_same|]|]. split; [by left|done].
    + pose proof (no_saved _ _ _ _ Na). destruct (Hold eq_refl ltac:(lia)) as [Hlow Hk].
      apply lsim_ret. split; [by eapply live_view; [apply set_log_same|]|]. split; [by right|done].
Qed.

(** A request of [replicateTo]. *)
Lemma live_append sp me s k env args :
  live sp me (Up s) k → append_ok cfg (sp_hist sp) args → ae_LeaderID args ≠ me → savable fst (AppendEntries env args s) →
  match AppendEntries env args s with
  | Ok (s', r) => lsim sp me (λ sp', live sp' me (Up s') k ∧ grows (sp_hist sp) (sp_hist sp') ∧
      reply_ok cfg (sp_hist sp') me args r)
  | Panic s' => lsim sp me (λ sp', live sp' me (Down me (storage s')) None)
  end.
Proof using All.
  intros Hlive Hargs Hne. pose proof Hargs as (L & prev & p & m & HL & Hp & Eprev & Epterm & Ees & Elc & Hmp & Hcp).
  assert (∀ term, append_ok cfg (sp_hist sp) args ∧ (aer_Success (mkAppendEntriesReply term false) = true → False)) as Hrefuse by done.
  unfold AppendEntries. destruct (stopped s).
  { intros _. apply lsim_ret. split_and!; [done..|]. by split. }
  destruct (Z.ltb_spec (ae_Term args) (currentTerm s)) as [|Hge].
  { intros _. apply lsim_ret. split_and!; [done..|]. by split. }
  pose proof (live_heard sp me s k env args Hlive Hge) as Hh.
  destruct (heardFromLeader env args s) as [s1 changed]. destruct Hh as ((sp1 & Hr1 & Hlive1 & Eg1 & Es1 & Eh1) & Et1 & El1 & Ec1).
  rewrite <- Eh1 in HL, Hcp, Hargs |- *. rewrite <- Et1 in HL. rewrite Eprev, Epterm, Ees.
  destruct (matchesPrevLog (log s1) (Z.of_nat prev) (term_at L prev)) eqn:Hmatch; simpl.
  - pose proof (live_update sp1 me s1 k (ae_LeaderID args) L prev p changed Hlive1 HL Hne Hp Hmatch) as Hup.
    destruct (appendFrom (Z.of_nat prev) (drop prev (take p L)) (log s1)) as [l b]. cbv zeta in Hup.
    set (s2 := if b then _ else _) in *. intros Hsav.
    assert (length (drop prev (take p L)) = (p - prev)%nat) as Elen by (rewrite length_drop, length_take; lia).
    assert (savable self (persist_if (b || changed) s2)) as Hsav2.
    { destruct (persist_if (b || changed) s2) as [s3|s3]; simpl in *; [|done]. destruct (commitIndex s3 <? _) eqn:Elt; simpl in *; [|done].
      match type of Hsav with context [applyCommitted ?x] => pose proof (applyCommitted_savable x) as Ha; destruct (applyCommitted x) end; by apply Ha. }
    specialize (Hup Hsav2). destruct (persist_if (b || changed) s2) as [s3|s3]; simpl; [|by eapply lsim_reach].
    destruct Hup as (sp3 & Hr3 & Hlive3 & Hans & Htake & Hgr & Ecom).
    assert (∀ sp' s', lreach cfg sp3 me sp' → live sp' me (Up s') k → sp_hist sp' = sp_hist sp3 →
      lsim sp me (λ sp', live sp' me (Up s') k ∧ grows (sp_hist sp1) (sp_hist sp') ∧
        reply_ok cfg (sp_hist sp') me args (mkAppendEntriesReply (currentTerm s') true))) as Hfin.
    { intros sp' s' Hr' Hl' Eh'. exists sp'. split; [eapply lreach_trans; [exact Hr1|]; by eapply lreach_trans|].
      rewrite Eh'. split_and!; [done..|]. split; [by eapply append_ok_grows|]. intros _. cbv zeta.
      rewrite Eprev, Ees, Elen. replace (Z.to_nat (Z.of_nat prev + Z.of_nat (p - prev))) with p by lia.
      rewrite Et1 in Hans. destruct Hans as [?|Hlow]; [by left|right]. destruct (gr_leads _ _ Hgr _ _ _ HL) as [es HL'].
      rewrite Et1 in HL'. exists (L ++ es). rewrite length_app. split_and!; [done|lia|].
      rewrite (term_at_agree (L ++ es) L); [done|]. apply take_app_le. lia. }
    pose proof Hlive3 as [_ _ _ (Hm3 & _)]. pose proof (mr_commit _ _ _ _ _ _ _ Hm3) as Ec3.
    destruct (Z.ltb_spec (commitIndex s3) (ae_LeaderCommit args)) as [Hlt|]; simpl.
    + rewrite Elen, Elc in *.
      assert (Z.of_nat m `min` u64 (Z.of_nat prev + Z.of_nat (p - prev)) = Z.of_nat m) as ->.
      { pose proof Hlive1 as [_ Hf _ _]. destruct (Hf _ _ _ HL) as (_ & Hlen & _).
        rewrite u64_small by (unfold in_u64; lia). lia. }
      pose proof (live_apply cfg m0 alike sp3 me s3 k m Hlive3) as Ha.
      assert (commit_point (sp_hist sp3) (a_log (sp_node sp3 me)) m) as Hc3.
      { apply (commit_point_grows cfg _ _ Hgr) in Hcp as [->|(e & ? & He & ?)]; [by left|]. right. exists e. split_and!; [done| |done].
        rewrite <- He. apply (take_lookup_agree p); [lia|done]. }
      specialize (Ha Hc3 ltac:(lia)). destruct (applyCommitted (set_commitIndex (Z.of_nat m) s3)) as [s4|s4]; simpl.
      * destruct Ha as [(sp4 & Hr4 & Hl4 & Eh4) _]. by eapply Hfin.
      * eapply lsim_reach; [exact Hr1|]. by eapply lsim_reach.
    + eapply Hfin; [apply lreach_refl|done..].
  - destruct changed; simpl.
    + pose proof (mustPersist_core s1) as Hcore. pose proof (live_save cfg m0 alike sp1 me s1 k Hlive1) as Hsave.
      destruct (mustPersistLocked s1) as [s3|s3]; simpl; intros Hper%(same_core_persistable _ _ Hcore).
      * specialize (Hsave Hper). eapply lsim_reach; [exact Hr1|]. eapply lsim_mono; [exact Hsave|].
        intros sp' (? & _ & _ & ->). split_and!; [done..|]. by split.
      * specialize (Hsave Hper). by eapply lsim_reach.
    + intros _. exists sp1. split_and!; [done..|]. by split.
Qed.

(** A heartbeat of a read: no entries, and a commit index that its sender's log backs. *)
Lemma live_probe sp me s k env args :
  live sp me (Up s) k → probe_ok cfg (sp_hist sp) args → savable fst (AppendEntries env args s) →
  match AppendEntries env args s with
  | Ok (s', r) => lsim sp me (λ sp', live sp' me (Up s') k)
  | Panic s' => lsim sp me (λ sp', live sp' me (Down me (storage s')) None)
  end.
Proof using All.
  intros Hlive (g0 & m & Hg0 & Hlen0 & Eprev & Epterm & Ees & Elc & Hmp & Hcp).
  unfold AppendEntries. destruct (stopped s); [intros _; by apply lsim_ret|].
  destruct (Z.ltb_spec (ae_Term args) (currentTerm s)) as [|Hge]; [intros _; by apply lsim_ret|].
  pose proof (live_heard sp me s k env args Hlive Hge) as Hh.
  destruct (heardFromLeader env args s) as [s1 changed]. destruct Hh as ((sp1 & Hr1 & Hlive1 & Eg1 & Es1 & Eh1) & _).
  rewrite <- Eh1 in Hg0, Hcp. rewrite Ees, Eprev, Epterm. pose proof Hlive1 as [Hsp1 _ _ (Hm1 & _)].
  pose proof (mr_log _ _ _ _ _ _ _ Hm1) as Hrep1.
  assert (savable self (persist_if changed s1) → match persist_if changed s1 with
    | Ok s3 => lsim sp1 me (λ sp', live sp' me (Up s3) k ∧ a_log (sp_node sp' me) = a_log (sp_node sp1 me) ∧
        sp_hist sp' = sp_hist sp1) ∧ log s3 = log s1
    | Panic s3 => lsim sp1 me (λ sp', live sp' me (Down me (storage s3)) None) end) as Hpersist.
  { intros Hsav%persist_if_savable. destruct changed; simpl; [|split; [by apply lsim_ret|done]].
    pose proof (live_save cfg m0 alike sp1 me s1 k Hlive1 Hsav) as Hs. pose proof (mustPersist_core s1) as Hcore.
    destruct (mustPersistLocked s1); [|done]. split; [|by apply Hcore]. eapply lsim_mono; [exact Hs|]. by intros sp' (? & _ & ? & ?). }
  destruct (matchesPrevLog _ _ _) eqn:Hmatch; simpl.
  - assert (set_log (log s1) s1 = s1) as -> by by destruct s1. intros Hsav.
    assert (savable self (persist_if changed s1)) as Hsav1.
    { destruct (persist_if changed s1) as [s3|s3]; simpl in *; [|done]. destruct (commitIndex s3 <? _); simpl in *; [|done].
      match type of Hsav with context [applyCommitted ?x] => pose proof (applyCommitted_savable x) as Ha; destruct (applyCommitted x) end; by apply Ha. }
    specialize (Hpersist Hsav1). destruct (persist_if changed s1) as [s3|s3]; simpl; [|by eapply lsim_reach].
    destruct Hpersist as [(sp3 & Hr3 & Hlive3 & Eg3 & Eh3) El3]. pose proof Hlive3 as [_ _ _ (Hm3 & _)].
    destruct (Z.ltb_spec (commitIndex s3) (ae_LeaderCommit args)) as [Hlt|]; simpl.
    + rewrite Elc, Z.add_0_r in *. rewrite u64_small by (unfold in_u64; lia). rewrite Z.min_l by lia.
      assert (commit_point (sp_hist sp3) (a_log (sp_node sp3 me)) m) as Hc3.
      { rewrite Eh3, Eg3. rewrite (mr_commit _ _ _ _ _ _ _ Hm3) in Hlt. pose proof (base_Z _ _ Hrep1) as Hb.
        pose proof (mr_base _ _ _ _ _ _ _ Hm3) as Hb3. 
        destruct Hcp as [->|(e & Hpos & He & Hce)]; [lia|]. right. exists e. split_and!; [done| |done].
        pose proof (matchesPrevLog_range _ _ _ (rep_wf _ _ Hrep1) Hmatch) as Hrange. rewrite (rep_last _ _ Hrep1) in Hrange.
        pose proof (proj2 Hsp1 me) as Na. unfold matchesPrevLog, compactedAway in Hmatch.
        destruct (Z.ltb_spec (Z.of_nat (length g0)) (baseIndex (log s1))) as [Hlow|Hhigh].
        - exfalso. rewrite El3 in Hb3. lia.
        - rewrite (rep_term _ _ Hrep1) in Hmatch by lia. apply Z.eqb_eq in Hmatch.
          rewrite <- (term_at_all g0 (length g0)) in Hmatch by done.
          pose proof (matching_term (a_log (sp_node sp1 me)) g0 (length g0)) as Htake.
          rewrite <- He. apply (take_lookup_agree (length g0)); [lia|]. apply Htake; [|lia|lia|done].
          apply (valid_matching_at (sp_hist sp1)); [apply (no_valid _ _ _ _ Na)|done]. }
      pose proof (live_apply cfg m0 alike sp3 me s3 k m Hlive3 Hc3) as Ha. rewrite (mr_commit _ _ _ _ _ _ _ Hm3) in Hlt.
      specialize (Ha ltac:(lia)). destruct (applyCommitted (set_commitIndex (Z.of_nat m) s3)) as [s4|s4]; simpl.
      * eapply lsim_reach; [exact Hr1|]. eapply lsim_reach; [exact Hr3|]. eapply lsim_mono; [exact (proj1 Ha)|]. by intros sp' [? _].
      * eapply lsim_reach; [exact Hr1|]. by eapply lsim_reach.
    + eapply lsim_reach; [exact Hr1|]. by exists sp3.
  - intros Hsav. assert (savable self (persist_if changed s1)) as Hsav1 by (by destruct (persist_if changed s1)).
    specialize (Hpersist Hsav1). destruct (persist_if changed s1) as [s3|s3]; simpl; eapply lsim_reach; [exact Hr1| |exact Hr1|done].
    eapply lsim_mono; [exact (proj1 Hpersist)|]. by intros sp' (? & _).
Qed.

End Receive.
