(* ===== verification/RaftLead.v ===== *)
(** * Raft: leaders and candidates as steps of the specification *)

From stdpp Require Import functions.
From S2P Require Import Prelude GoLib RaftTypes RaftLog RaftCodec RaftServer RaftLoop RaftSnapshot RaftRead.
From S2P Require Import RaftVotes RaftNode RaftElection RaftReplication RaftCommit RaftRestart.
From S2P Require Import RaftSpec RaftCluster RaftRelation RaftSimulate RaftReceive.

Local Open Scope Z_scope.

Section Lead.
Context {SM St : Type} `{StateMachine SM} `{Storage St} {storable : bytes → Prop}.
Context `{!StorageLaws St storable} {snapshot_storable : Z → Z → bytes → Prop} `{!RecoveryLaws St snapshot_storable}.
Context (cfg : Configuration) (m0 : SM) (alike : relation SM) `{!SnapshotLaws m0 alike} (Hcfg : NoDup cfg).
Implicit Type s : Server SM St.

Abbreviation commit_point := (commit_point cfg).
Abbreviation persistable := (persistable (storable := storable)).
Abbreviation savable := (savable (storable := storable)).
Abbreviation in_bounds := (in_bounds (storable := storable)).
Abbreviation mem_rel := (mem_rel (SM := SM) (St := St) cfg m0 alike).
Abbreviation live := (live (SM := SM) (St := St) cfg m0 alike).
Abbreviation lsim := (lsim cfg).

(** The node is up in state [s'], or down with the disk of [s']. *)
Definition follows {A} (sp : spec) (me : NodeID) (k : option compaction) (get : A → Server SM St) (o : outcome SM St A) : Prop :=
  match o with
  | Ok x => lsim sp me (λ sp', live sp' me (Up (get x)) k)
  | Panic s' => lsim sp me (λ sp', live sp' me (Down me (storage s')) None)
  end.

(** The outcome is in bounds. *)
Definition bounded {A} (get : A → Server SM St) (o : outcome SM St A) : Prop :=
  match o with Ok x => in_bounds (get x) | Panic s => in_bounds s end.

Lemma bounded_savable {A} (get : A → Server SM St) o : bounded get o → savable get o.
Proof. destruct o; by intros [? _]. Qed.

(** ** A leader writes an entry *)

(** [s1] is [s] as a leader with one more entry of its own. *)
Record wrote (s s1 : Server SM St) (e : LogEntry) : Prop := {
  w_id : id s1 = id s;
  w_peers : peers s1 = peers s;
  w_term : currentTerm s1 = currentTerm s;
  w_role : role s1 = Leader;
  w_log : log s1 = log s ++ [e];
  w_commit : commitIndex s1 = commitIndex s;
  w_applied : lastApplied s1 = lastApplied s;
  w_sm : sm s1 = sm s;
  w_snapshot : snapshot s1 = snapshot s;
  w_storage : storage s1 = storage s;
  w_next : ∀ p k, p ∈ cfg → nextIndex s1 !! p = Some k → 0 ≤ k ≤ lastIndex (log s) + 2;
  w_match : ∀ p k, p ∈ cfg → matchIndex s1 !! p = Some k →
    k = 0 ∨ (role s = Leader ∧ matchIndex s !! p = Some k) ∨ (p = id s ∧ k = lastIndex (log s) + 1)
}.

Lemma lreach_lead_write sp me e : astep cfg sp (lead_write me e sp) → lreach cfg sp me (lead_write me e sp).
Proof.
  intros Hs. split; [by apply rtc_once|]. split_and!; [|done..]. intros x Hx. simpl. by rewrite fn_lookup_insert_ne.
Qed.

Lemma live_wrote sp me s s1 k e :
  live sp me (Up s) k → astep cfg sp (lead_write me e sp) → wrote s s1 e →
  e_Term e = currentTerm s → e_Index e = lastIndex (log s) + 1 → app_command (e_Command e) →
  in_bounds s1 → follows sp me k self (mustPersistLocked s1).
Proof using All.
  intros Hlive Hstep [] Het Hei Hcmd [Hper Hbound]. pose proof Hlive as [Hsp Hfine Hin (Hm & Hpend & _)]. pose proof Hm as [].
  set (a := sp_node sp me) in *. set (g := a_log a) in *.
  destruct (ainv_step cfg _ _ Hsp Hstep) as [Hsp1 Hgr]. pose proof (rep_last _ _ mr_log) as Hlast.
  assert (Z.of_nat (length g) + 1 < 2 ^ 62) as Hlen.
  { rewrite w_log0, lastIndex_snoc in Hbound. lia. }
  set (a1 := mkANode (a_term a) (a_saved a) Leader (g ++ [e]) (a_commit a)).
  assert (sp_node (lead_write me e sp) me = a1) as E1 by (simpl; apply fn_lookup_insert).
  assert (rep (log s1) (g ++ [e])) as Hrep by (rewrite w_log0; apply rep_snoc; [done|lia|lia]).
  assert (base (log s1) = base (log s)) as Hb.
  { rewrite w_log0. unfold base. rewrite baseIndex_app; [done|]. apply (wf_nonempty _ (rep_wf _ _ mr_log)). }
  assert (keeps_committed cfg (sp_hist sp) g (g ++ [e])) as Hk.
  { intros m Hc. apply take_app_le. by eapply commit_point_length. }
  pose proof (proj2 Hsp me) as Na. fold a in Na.
  assert (leads_fine (sp_hist (lead_write me e sp))) as Hfine1.
  { intros t c L HL. simpl in HL. destruct (decide (t = a_term a)) as [->|Hne].
    - rewrite lookup_insert_eq in HL. injection HL as <- <-. split_and!.
      + apply indexed_snoc; [by apply mr_log|]. by rewrite Hei, Hlast.
      + rewrite length_app. simpl. unfold g, a in Hlen. lia.
      + apply Forall_app. split; [|by constructor]. by eapply valid_app, (no_valid _ _ _ _ Na).
    - rewrite lookup_insert_ne in HL by done. by eapply Hfine. }
  pose proof (live_write cfg m0 alike sp (lead_write me e sp) me s s1 k Hlive (lreach_lead_write _ _ _ Hstep) Hfine1) as Hw.
  rewrite E1 in Hw.
  assert (mem_rel (sp_hist (lead_write me e sp)) me s1 a1) as Hm1.
  { split; simpl; rewrite ?w_id0, ?w_peers0, ?w_term0, ?w_role0, ?w_commit0, ?w_applied0, ?w_sm0, ?w_storage0; try done.
    - rewrite length_app. simpl. lia.
    - by rewrite Hb.
    - eapply machine_at_agree; [|exact mr_sm]. apply take_app_le. eapply commit_point_length, (no_commit _ _ _ _ Na).
    - intros sn Hsn. rewrite w_snapshot0 in Hsn. destruct (mr_snapshot sn Hsn). split; [|done].
      eapply snap_at_grows; [done|]. by eapply keeps_snap.
    - destruct mr_store as (st & Hst & Hsn). exists st. split; [done|]. rewrite Hb. eapply snapshot_on_grows; [done|].
      by eapply keeps_snapshot_on.
    - intros _ p j Hp Hj. apply w_next0 in Hj; [|done]. rewrite length_app. simpl. fold g in Hlast. lia.
    - intros _ p j Hp Hj. unfold match_ok. simpl. rewrite length_app. simpl.
      destruct (w_match0 p j Hp Hj) as [->|[[Hr Hj']|[-> ->]]].
      + split; [lia|]. by left; left.
      + rewrite mr_role in Hr. destruct (mr_match Hr p j Hp Hj') as [Hrange Hor]. fold g in Hrange, Hor. split; [lia|].
        destruct Hor as [?|[?|?]]; [left; eapply commit_point_grows; [done|]; by eapply keeps_point| |right; right; by eapply acked_grows].
        right; left. rewrite (term_at_agree (g ++ [e]) g); [done|]. apply take_app_le. lia.
      + split; [lia|]. right; right. exists (length (g ++ [e])). rewrite length_app. simpl. split; [lia|].
        rewrite mr_id. fold a g. rewrite length_app. simpl. apply elem_of_cons. by left. }
  assert (pending_rel cfg m0 alike (sp_hist (lead_write me e sp)) s1 a1 k) as Hp1.
  { intros x Hx. destruct (Hpend x Hx) as (H1 & H2 & H3). rewrite Hb, w_commit0, w_storage0. split; [|done].
    eapply snap_at_grows; [done|]. by eapply keeps_snap. }
  specialize (Hw Hm1 Hp1 w_storage0 Hk Hper). unfold follows, self. destruct (mustPersistLocked s1) as [s2|s2]; [|done].
  eapply lsim_mono; [exact Hw|]. by intros sp' [-> ?].
Qed.

(** ... and then counts its followers. *)
Lemma live_wrote_advance sp me s s1 k e :
  live sp me (Up s) k → astep cfg sp (lead_write me e sp) → wrote s s1 e →
  e_Term e = currentTerm s → e_Index e = lastIndex (log s) + 1 → app_command (e_Command e) →
  bounded self (mustPersistLocked s1 ≫= advanceCommitIndexLocked) →
  follows sp me k self (mustPersistLocked s1 ≫= advanceCommitIndexLocked).
Proof using All.
  intros Hlive Hstep Hw Het Hei Hcmd Hb. pose proof (mustPersist_core s1) as Hcore.
  assert (in_bounds s1) as Hb1.
  { assert (bounded self (mustPersistLocked s1)) as Hb'.
    { destruct (mustPersistLocked s1) as [s2|s2]; simpl in *; [|done]. pose proof (advanceCommit_ends s2) as Hq.
      destruct (advanceCommitIndexLocked s2); simpl in *; destruct Hb as [Hp Hl]; unfold self in *;
        (split; [by eapply quiet_persistable|]); destruct Hq as [(_ & _ & El & _) _]; by rewrite El in Hl. }
    destruct (mustPersistLocked s1) as [s2|s2]; destruct Hb' as [Hp Hl]; (split; [by eapply same_core_persistable|]);
      destruct Hcore as (_ & _ & El & _); unfold self in *; by rewrite El in Hl. }
  pose proof (live_wrote sp me s s1 k e Hlive Hstep Hw Het Hei Hcmd Hb1) as Hf.
  destruct (mustPersistLocked s1) as [s2|s2]; simpl in *; [|done]. destruct Hf as (sp2 & Hr2 & Hlive2).
  pose proof (live_advance cfg m0 alike Hcfg sp2 me s2 k Hlive2) as Ha. unfold self in *.
  destruct (advanceCommitIndexLocked s2); simpl; by eapply lsim_reach.
Qed.

(** [Submit]. *)
Lemma live_submit sp me s k cmd :
  live sp me (Up s) k → app_command cmd → bounded fst (Submit cmd s) → follows sp me k fst (Submit cmd s).
Proof using All.
  intros Hlive Hcmd. unfold Submit. case_bool_decide as Hr; simpl; [intros _; by apply lsim_ret|].
  destruct (stopped s); simpl; [intros _; by apply lsim_ret|].
  assert (role s = Leader) as Hrole by by destruct (role s). pose proof Hlive as [Hsp Hfine _ (Hm & _)].
  pose proof (rep_last _ _ (mr_log _ _ _ _ _ _ _ Hm)) as Hlast. pose proof (mr_bound _ _ _ _ _ _ _ Hm) as Hlen.
  rewrite u64_small by (unfold in_u64; lia).
  set (e := mkEntry (currentTerm s) (lastIndex (log s) + 1) cmd).
  match goal with |- context [mustPersistLocked ?x] => set (s1 := x) end. intros Hb.
  assert (wrote s s1 e) as Hw.
  { split; try done.
    - intros p k' Hp Hk'. rewrite Hlast. pose proof (mr_next _ _ _ _ _ _ _ Hm ltac:(rewrite <- (mr_role _ _ _ _ _ _ _ Hm); done) p k' Hp Hk'). lia.
    - intros p k' Hp Hk'. simpl in Hk'. destruct (decide (p = id s)) as [->|Hne].
      + rewrite lookup_insert_eq in Hk'. injection Hk' as <-. right; right. done.
      + rewrite lookup_insert_ne in Hk' by done. by right; left. }
  pose proof (a_append cfg sp me e) as Hstep. cbv zeta in Hstep. rewrite <- (mr_role _ _ _ _ _ _ _ Hm), <- (mr_term _ _ _ _ _ _ _ Hm) in Hstep.
  specialize (Hstep Hrole eq_refl).
  pose proof (live_wrote_advance sp me s s1 k e Hlive Hstep Hw eq_refl eq_refl Hcmd) as Hf.
  destruct (mustPersistLocked s1) as [s2|s2]; simpl in *; [|by apply Hf].
  destruct (advanceCommitIndexLocked s2) as [s3|s3]; simpl in *; by apply Hf.
Qed.

(** ** Taking office *)

Lemma fresh_followers next (ps : list NodeID) s :
  let s' := foldl (λ s p, set_matchIndex (<[p:=0]> (matchIndex s)) (set_nextIndex (<[p:=next]> (nextIndex s)) s)) s ps in
  s' = set_matchIndex (matchIndex s') (set_nextIndex (nextIndex s') s) ∧
  ∀ p, p ∈ ps ∨ (nextIndex s !! p = Some next ∧ matchIndex s !! p = Some 0) →
    nextIndex s' !! p = Some next ∧ matchIndex s' !! p = Some 0.
Proof.
  revert s. induction ps as [|x ps IH]; intros s; simpl.
  { split; [by destruct s|]. by intros p [Hp%elem_of_nil|?]. }
  match goal with |- context [foldl _ ?y ps] => destruct (IH y) as [E Hall] end. split; [exact E|].
  intros p Hp. apply Hall. simpl. destruct (decide (p = x)) as [->|Hne]; [right; by rewrite !lookup_insert_eq|].
  rewrite !lookup_insert_ne by done. destruct Hp as [[->|Hp]%elem_of_cons|Hp]; [done|by left|by right].
Qed.

Lemma live_becomeLeader sp me s k q :
  live sp me (Up s) k → role s = Candidate → h_leads (sp_hist sp) !! currentTerm s = None → quorum cfg q →
  (∀ x, x ∈ q → ∃ v, v ∈ h_votes (sp_hist sp) ∧ av_voter v = x ∧ av_term v = currentTerm s ∧ av_for v = me) →
  bounded self (becomeLeader (currentTerm s) s) → follows sp me k self (becomeLeader (currentTerm s) s).
Proof using All.
  intros Hlive Hrole Hnone Hq Hvotes. pose proof Hlive as [Hsp Hfine _ (Hm & _)].
  pose proof (rep_last _ _ (mr_log _ _ _ _ _ _ _ Hm)) as Hlast. pose proof (mr_bound _ _ _ _ _ _ _ Hm) as Hlen.
  unfold becomeLeader. rewrite Hrole, bool_decide_false, Z.eqb_refl by (by intros []). cbn [orb negb]. cbv zeta. simpl id; simpl log; simpl peers.
  rewrite (u64_small (lastIndex (log s) + 1)) by (unfold in_u64; lia).
  pose proof (fresh_followers (lastIndex (log s) + 1) (peers s) (set_leaderID (id s) (set_role Leader s))) as Hfr.
  cbv zeta in Hfr. set (s0 := foldl _ _ _) in *. destruct Hfr as [E0 Hall].
  assert (log s0 = log s ∧ id s0 = id s ∧ currentTerm s0 = currentTerm s) as (El0 & Ei0 & Et0) by (rewrite E0; done).
  rewrite El0, Ei0, ?(u64_small (lastIndex (log s) + 1)), ?(u64_small (lastIndex (log s) + 1 + 1)) by (unfold in_u64; lia).
  set (e := mkEntry (currentTerm s) (lastIndex (log s) + 1) None).
  match goal with |- context [mustPersistLocked ?x] => set (s1 := x) end. intros Hb.
  assert (wrote s s1 e) as Hw.
  { split; try (by unfold s1; simpl; rewrite ?Et0; try rewrite E0).
    - intros p k' Hp Hk'. simpl in Hk'. rewrite <- (mr_peers _ _ _ _ _ _ _ Hm) in Hp. destruct (Hall p (or_introl Hp)) as [En _].
      destruct (decide (p = id s)) as [->|Hne].
      + rewrite lookup_insert_eq in Hk'. injection Hk' as <-. lia.
      + rewrite lookup_insert_ne, En in Hk' by done. injection Hk' as <-. lia.
    - intros p k' Hp Hk'. simpl in Hk'. rewrite <- (mr_peers _ _ _ _ _ _ _ Hm) in Hp. destruct (Hall p (or_introl Hp)) as [_ En].
      destruct (decide (p = id s)) as [->|Hne].
      + rewrite lookup_insert_eq in Hk'. injection Hk' as <-. right; right. done.
      + rewrite !lookup_insert_ne, En in Hk' by done. injection Hk' as <-. by left. }
  pose proof (a_lead cfg sp me e q) as Hstep. cbv zeta in Hstep. rewrite <- (mr_role _ _ _ _ _ _ _ Hm), <- (mr_term _ _ _ _ _ _ _ Hm) in Hstep.
  specialize (Hstep Hrole Hnone Hq Hvotes eq_refl).
  by apply (live_wrote_advance sp me s s1 k e Hlive Hstep Hw eq_refl eq_refl I Hb).
Qed.

(** ** Replies to a leader *)

Lemma live_raise_follows sp me s k t :
  live sp me (Up s) k → currentTerm s < t → bounded self (mustPersistLocked (becomeFollower t s)) →
  follows sp me k self (mustPersistLocked (becomeFollower t s)).
Proof using All.
  intros Hlive Ht Hb. pose proof (live_raise cfg m0 alike sp me s k t Hlive Ht) as Hr. apply bounded_savable in Hb.
  unfold follows, self. destruct (mustPersistLocked (becomeFollower t s)); by apply Hr.
Qed.

(** A leader changes what it believes of its followers, and counts them. *)
Lemma live_counted sp me s s1 k :
  live sp me (Up s) k → role s = Leader →
  s1 = set_lastContact (lastContact s1) (set_nextIndex (nextIndex s1) (set_matchIndex (matchIndex s1) s)) →
  (∀ p j, p ∈ cfg → nextIndex s1 !! p = Some j → nextIndex s !! p = Some j ∨ 0 ≤ j ≤ lastIndex (log s) + 1) →
  (∀ p j, p ∈ cfg → matchIndex s1 !! p = Some j → matchIndex s !! p = Some j ∨
     match_ok cfg (sp_hist sp) (sp_node sp me) p j) →
  live sp me (Up s1) k.
Proof using All.
  intros [Hsp Hfine Hin (Hm & Hp & Hd)] Hr E Hn Hma. split; [done..|]. rewrite E. split; [|split; [exact Hp|exact Hd]].
  pose proof (rep_last _ _ (mr_log _ _ _ _ _ _ _ Hm)) as Hlast.
  assert (a_role (sp_node sp me) = Leader) as Hra by (rewrite <- (mr_role _ _ _ _ _ _ _ Hm); done).
  destruct Hm. split; simpl; try done.
  - intros _ p j Hpin Hj. destruct (Hn p j Hpin Hj) as [Hj'|?]; [by eapply mr_next|lia].
  - intros _ p j Hpin Hj. destruct (Hma p j Hpin Hj) as [Hj'|?]; [by eapply mr_match|done].
Qed.

Lemma live_replicate_reply sp me s k env peer args reply :
  live sp me (Up s) k → reply_ok cfg (sp_hist sp) peer args reply → ae_LeaderID args = me →
  bounded self (replicate_reply env peer (ae_Term args) args reply s) →
  follows sp me k self (replicate_reply env peer (ae_Term args) args reply s).
Proof using All.
  intros Hlive [Hargs Hans] Hme. unfold replicate_reply.
  destruct (Z.ltb_spec (currentTerm s) (aer_Term reply)) as [Hlt|_]; [by apply live_raise_follows|].
  case_bool_decide as Hr; simpl; [intros _; by apply lsim_ret|].
  destruct (Z.eqb_spec (currentTerm s) (ae_Term args)) as [Et|]; simpl; [|intros _; by apply lsim_ret].
  assert (role s = Leader) as Hrole by by destruct (role s). pose proof Hlive as [Hsp Hfine _ (Hm & _)]. pose proof Hm as [].
  pose proof (rep_last _ _ mr_log) as Hlast. pose proof (proj2 Hsp me) as Na. set (a := sp_node sp me) in *.
  assert (h_leads (sp_hist sp) !! ae_Term args = Some (me, a_log a)) as Hown.
  { rewrite <- Et, mr_term. apply (no_leader _ _ _ _ Na). by rewrite <- mr_role. }
  destruct Hargs as (L & prev & p & m & HL & Hp & Eprev & _ & Ees & _). rewrite Hme, Hown in HL. injection HL as <-.
  assert (ae_PrevLogIndex args + Z.of_nat (length (ae_Entries args)) = Z.of_nat p) as Ep.
  { rewrite Eprev, Ees, length_drop, length_take. lia. }
  destruct (aer_Success reply).
  - rewrite Ep, u64_small by (unfold in_u64; lia). rewrite (u64_small (Z.of_nat p + 1)) by (unfold in_u64; lia). cbv zeta.
    match goal with |- context [advanceCommitIndexLocked ?x] => set (s1 := x) end. intros Hb.
    assert (match_ok cfg (sp_hist sp) a peer (Z.of_nat p)) as Hok.
    { split; [lia|]. rewrite Nat2Z.id. specialize (Hans eq_refl). cbv zeta in Hans. rewrite Ep, Nat2Z.id, <- Et, mr_term in Hans.
      destruct Hans as [?|(L & HL & _ & Hlow)]; [by right; right|]. rewrite <- mr_term, Et, Hme, Hown in HL. injection HL as <-.
      by right; left. }
    assert (live sp me (Up s1) k) as Hlive1.
    { apply (live_counted sp me s s1 k Hlive Hrole).
      - unfold s1. destruct (_ <? _); done.
      - intros x j Hx Hj. unfold s1 in Hj. simpl in Hj. destruct (_ <? _); simpl in Hj; [|by left].
        destruct (decide (x = peer)) as [->|Hne]; [rewrite lookup_insert_eq in Hj; injection Hj as <-; right; lia|].
        rewrite lookup_insert_ne in Hj by done. by left.
      - intros x j Hx Hj. unfold s1 in Hj. simpl in Hj. destruct (_ <? _); simpl in Hj; [|by left].
        destruct (decide (x = peer)) as [->|Hne]; [rewrite lookup_insert_eq in Hj; injection Hj as <-; by right|].
        rewrite lookup_insert_ne in Hj by done. by left. }
    pose proof (live_advance cfg m0 alike Hcfg sp me s1 k Hlive1) as Ha. unfold follows, self. by destruct (advanceCommitIndexLocked s1).
  - intros _. apply lsim_ret. apply (live_counted sp me s _ k Hlive Hrole).
    + unfold self. by case_match; destruct s.
    + intros x j Hx Hj. unfold self in Hj. destruct (Z.ltb_spec 1 (default 0 (nextIndex s !! peer))) as [Hlt|]; simpl in Hj; [|by left].
      destruct (decide (x = peer)) as [->|Hne]; [|rewrite lookup_insert_ne in Hj by done; by left].
      rewrite lookup_insert_eq in Hj. injection Hj as <-. right. destruct (nextIndex s !! peer) as [nx|] eqn:En; simpl in *; [|lia].
      pose proof (mr_next ltac:(by rewrite <- mr_role) peer nx Hx En). rewrite u64_small by (unfold in_u64; lia). lia.
    + intros x j Hx Hj. left. unfold self in Hj. by destruct (1 <? _).
Qed.

Lemma live_snapshot_reply sp me s k env peer args reply :
  live sp me (Up s) k → install_ok cfg m0 alike (St := St) (sp_hist sp) args → is_LeaderID args = me →
  bounded self (snapshot_reply env peer (is_Term args) args reply s) →
  follows sp me k self (snapshot_reply env peer (is_Term args) args reply s).
Proof using All.
  intros Hlive (L & HL & n & Eidx & Hn & _ & Hpt & _) Hme. unfold snapshot_reply.
  destruct (Z.ltb_spec (currentTerm s) (isr_Term reply)) as [Hlt|_]; [by apply live_raise_follows|].
  case_bool_decide as Hr; simpl; [intros _; by apply lsim_ret|].
  destruct (Z.eqb_spec (currentTerm s) (is_Term args)) as [Et|]; simpl; [|intros _; by apply lsim_ret].
  assert (role s = Leader) as Hrole by by destruct (role s). pose proof Hlive as [Hsp Hfine _ (Hm & _)]. pose proof Hm as [].
  pose proof (rep_last _ _ mr_log) as Hlast. pose proof (proj2 Hsp me) as Na. set (a := sp_node sp me) in *.
  assert (h_leads (sp_hist sp) !! is_Term args = Some (me, a_log a)) as Hown.
  { rewrite <- Et, mr_term. apply (no_leader _ _ _ _ Na). by rewrite <- mr_role. }
  rewrite Hme, Hown in HL. injection HL as <-. pose proof (commit_point_length cfg _ _ _ Hpt) as Hnl.
  rewrite Eidx, (u64_small (Z.of_nat n + 1)) by (unfold in_u64; lia). cbv zeta.
  match goal with |- context [advanceCommitIndexLocked ?x] => set (s1 := x) end. intros Hb.
  assert (match_ok cfg (sp_hist sp) a peer (Z.of_nat n)) as Hok by (split; [lia|left; by rewrite Nat2Z.id]).
  assert (live sp me (Up s1) k) as Hlive1.
  { apply (live_counted sp me s s1 k Hlive Hrole).
    - unfold s1. repeat destruct (_ <? _); by destruct s.
    - intros x j Hx Hj. assert (nextIndex s !! x = Some j ∨ j = Z.of_nat n + 1) as [?| ->]; [|by left|right; lia].
      unfold s1 in Hj. simpl in Hj. destruct (_ <? _) in Hj; simpl in Hj.
      + destruct (decide (x = peer)) as [->|Hne]; [rewrite lookup_insert_eq in Hj; injection Hj as <-; by right|].
        rewrite lookup_insert_ne in Hj by done. left. by destruct (_ <? _) in Hj.
      + left. by destruct (_ <? _) in Hj.
    - intros x j Hx Hj.
      assert (matchIndex s1 = matchIndex s ∨ matchIndex s1 = <[peer:=Z.of_nat n]> (matchIndex s)) as [E|E].
      { unfold s1. simpl. repeat destruct (_ <? _); auto. }
      + left. by rewrite <- E.
      + rewrite E in Hj. destruct (decide (x = peer)) as [->|Hne]; [rewrite lookup_insert_eq in Hj; injection Hj as <-; by right|].
        rewrite lookup_insert_ne in Hj by done. by left. }
  pose proof (live_advance cfg m0 alike Hcfg sp me s1 k Hlive1) as Ha. unfold follows, self.
  destruct (advanceCommitIndexLocked s1) as [s2|s2]; simpl; [|done]. eapply lsim_mono; [exact Ha|].
  intros sp' Hl'. by eapply live_view; [|exact Hl'].
Qed.

Lemma live_read_reply sp me s k term reply :
  live sp me (Up s) k → bounded fst (read_reply term reply s) → follows sp me k fst (read_reply term reply s).
Proof using All.
  intros Hlive. unfold read_reply. destruct (Z.ltb_spec (currentTerm s) (aer_Term reply)) as [Hlt|_].
  - pose proof (live_raise_follows sp me s k _ Hlive Hlt) as Hf. by destruct (mustPersistLocked _).
  - intros _. by apply lsim_ret.
Qed.

Lemma live_vote_reply sp me s k term reply :
  live sp me (Up s) k → bounded fst (vote_reply term reply s) → follows sp me k fst (vote_reply term reply s).
Proof using All.
  intros Hlive. unfold vote_reply. destruct (Z.ltb_spec (currentTerm s) (rvr_Term reply)) as [Hlt|_].
  - pose proof (live_raise_follows sp me s k _ Hlive Hlt) as Hf. by destruct (mustPersistLocked _).
  - intros _. by apply lsim_ret.
Qed.

(** ** Operations of one server alone *)

Lemma follows_view {A} sp me s s' k (get : A → Server SM St) x :
  live sp me (Up s) k → get x = s' → view s' = view s → follows sp me k get (Ok x).
Proof. intros Hl <- E. apply lsim_ret. by eapply live_view. Qed.

Lemma live_local sp me s k (y : system (SM := SM) (St := St)) o :
  live sp me (Up s) k → messages_ok cfg m0 alike (sp_hist sp) y → may y me o → bounded fst (exec o s) → follows sp me k fst (exec o s).
Proof using All.
  intros Hlive Hmsg. destruct o; simpl; try done.
  - intros _ _. eapply follows_view; [exact Hlive|done|]. unfold Start. by destruct (running s).
  - intros _ _. eapply follows_view; [exact Hlive|done|]. unfold Stop. by destruct (running s).
  - intros _ _. eapply follows_view; [exact Hlive|done|]. unfold broadcastAppendEntries. by case_bool_decide.
  - intros (Hr & Hme & <-). pose proof (live_replicate_reply sp me s k env peer args reply Hlive (mo_replies _ _ _ _ _ Hmsg _ _ _ Hr) Hme) as Hf.
    by destruct (replicate_reply _ _ _ _ _ _).
  - intros (Ha & Hme & <-). pose proof (live_snapshot_reply sp me s k env peer args reply Hlive (mo_snaps _ _ _ _ _ Hmsg _ Ha) Hme) as Hf.
    by destruct (snapshot_reply _ _ _ _ _ _).
  - intros _. pose proof (live_read_reply sp me s k term reply Hlive) as Hf. by destruct (read_reply _ _ _) as [[]|].
  - intros Hcmd. pose proof (live_submit sp me s k cmd Hlive Hcmd) as Hf. by destruct (Submit _ _) as [[]|].
  - intros _ _. eapply follows_view; [exact Hlive|done|]. unfold WaitApplied. by case_match.
  - intros _ _. eapply follows_view; [exact Hlive|done|]. done.
Qed.

End Lead.

(** * Raft: votes and candidacies as steps of the specification *)

Section Ballot.
Context {SM St : Type} `{StateMachine SM} `{Storage St} {storable : bytes → Prop}.
Context `{!StorageLaws St storable} {snapshot_storable : Z → Z → bytes → Prop} `{!RecoveryLaws St snapshot_storable}.
Context (cfg : Configuration) (m0 : SM) (alike : relation SM) `{!SnapshotLaws m0 alike} (Hcfg : NoDup cfg).
Implicit Type s : Server SM St.

Abbreviation persistable := (persistable (storable := storable)).
Abbreviation savable := (savable (storable := storable)).
Abbreviation mem_rel := (mem_rel (SM := SM) (St := St) cfg m0 alike).
Abbreviation live := (live (SM := SM) (St := St) cfg m0 alike).
Abbreviation lsim := (lsim cfg).

Lemma mustPersist_role r s :
  mustPersistLocked (set_role r s) =
  match mustPersistLocked s with Ok s' => Ok (set_role r s') | Panic s' => Panic (set_role r s') end.
Proof.
  unfold mustPersistLocked, persistLocked. simpl. destruct (storage s) as [st|]; simpl; [|done].
  by destruct (st_Save _ st) as [st' [err|]].
Qed.

Lemma live_observed sp me s k t :
  live sp me (Up s) k → currentTerm s ≤ t →
  lsim sp me (λ sp', live sp' me (Up (observeTerm t s).1) k ∧ a_log (sp_node sp' me) = a_log (sp_node sp me) ∧
    a_saved (sp_node sp' me) = a_saved (sp_node sp me) ∧ sp_hist sp' = sp_hist sp).
Proof.
  intros Hlive Ht. unfold observeTerm, becomeFollower. destruct (Z.ltb_spec (currentTerm s) t) as [Hlt|].
  - eapply (live_observe cfg m0 alike sp me s _ k t); simpl; destruct (Z.ltb_spec (currentTerm s) t); try done; try lia. by left.
  - by apply lsim_ret.
Qed.

Definition with_vote (v : avote) (sp : spec) : spec := set_hist (add_avote v (sp_hist sp)) sp.

Lemma live_hist sp me n k hs :
  live sp me n k → ainv cfg (set_hist hs sp) → grows (sp_hist sp) hs → h_leads hs = h_leads (sp_hist sp) →
  live (set_hist hs sp) me n k.
Proof.
  intros [Hsp Hl Hin Hn] Hsp' Hgr El. split; [done| |done|].
  - unfold leads_fine. simpl. by rewrite El.
  - simpl. by eapply node_rel_grows.
Qed.

Lemma add_avote_leads v hs : h_leads (add_avote v hs) = h_leads hs.
Proof. unfold add_avote. by destruct (h_leads hs !! av_term v). Qed.

Lemma isUpToDate_spec l g (h : list LogEntry) :
  rep l g → isUpToDate l (Z.of_nat (length h)) (log_term h) = true → up_to_date h g.
Proof.
  intros Hrep. unfold isUpToDate, up_to_date. rewrite (rep_lastTerm _ _ Hrep), (rep_last _ _ Hrep).
  destruct (Z.eqb_spec (log_term h) (log_term g)) as [E|E]; simpl; intros Hb; [right; split; [done|lia]|left; lia].
Qed.

(** [RequestVote]: refused, or granted with a vote the specification's node can cast. *)
Lemma live_vote sp me s k env args g :
  live sp me (Up s) k → (rv_CandidateID args, rv_Term args, g) ∈ h_cands (sp_hist sp) →
  rv_LastLogIndex args = Z.of_nat (length g) → rv_LastLogTerm args = log_term g →
  (∀ v, v ∈ h_votes (sp_hist sp) → av_voter v = me → (av_term v, Some (av_for v)) ⊑ᵥ ballot_of s) →
  savable fst (RequestVote env args s) →
  match RequestVote env args s with
  | Ok (s', r) =>
      if rvr_VoteGranted r then
        lsim sp me (λ sp', ∃ h, let v := mkAVote me (rv_Term args) (rv_CandidateID args) h in
          sp_hist sp' = sp_hist sp ∧ astep cfg sp' (with_vote v sp') ∧ live (with_vote v sp') me (Up s') k)
      else lsim sp me (λ sp', live sp' me (Up s') k)
  | Panic s' => lsim sp me (λ sp', live sp' me (Down me (storage s')) None)
  end.
Proof using All.
  intros Hlive Hcand Eidx Eterm Hballot. unfold RequestVote.
  destruct (stopped s); [intros _; by apply lsim_ret|].
  destruct (Z.ltb_spec (rv_Term args) (currentTerm s)) as [|Hge]; [intros _; by apply lsim_ret|].
  destruct (leaderIsReachingUs env s); [intros _; by apply lsim_ret|].
  pose proof (live_observed sp me s k (rv_Term args) Hlive Hge) as Hobs. pose proof (observeTerm_raises (rv_Term args) s) as Hraise.
  assert (currentTerm (observeTerm (rv_Term args) s).1 = rv_Term args ∧
    (∀ v, v ∈ h_votes (sp_hist sp) → av_voter v = me → av_term v = rv_Term args →
      votedFor (observeTerm (rv_Term args) s).1 = Some (av_for v))) as [Et1 Hvoted].
  { unfold observeTerm, becomeFollower. destruct (Z.ltb_spec (currentTerm s) (rv_Term args)) as [Hlt|Hle]; simpl.
    - rewrite (proj2 (Z.ltb_lt _ _) Hlt). split; [done|]. intros v Hv Hme Et.
      destruct (Hballot v Hv Hme) as [?|[? _]]; simpl in *; lia.
    - split; [lia|]. intros v Hv Hme Et. destruct (Hballot v Hv Hme) as [?|[? [?|?]]]; simpl in *; [lia|done|done]. }
  destruct (observeTerm (rv_Term args) s) as [s1 changed]. cbn [fst snd] in *.
  destruct Hobs as (sp1 & Hr1 & Hlive1 & Eg1 & Es1 & Eh1). pose proof Hlive1 as [_ _ _ (Hm1 & _)].
  destruct (_ || _) eqn:Eref; simpl.
  - destruct changed; simpl; [|intros _; by exists sp1].
    pose proof (mustPersist_core s1) as Hcore. pose proof (live_save cfg m0 alike sp1 me s1 k Hlive1) as Hs.
    destruct (mustPersistLocked s1) as [s2|s2]; simpl; intros Hp; eapply lsim_reach; [exact Hr1| |exact Hr1|by apply Hs; eapply same_core_persistable].
    eapply lsim_mono; [apply Hs; by eapply same_core_persistable|]. by intros sp' [? _].
  - apply orb_false_iff in Eref as [Hfree Hup%negb_false_iff]. rewrite Eidx, Eterm in Hup.
    apply (isUpToDate_spec _ _ _ (mr_log _ _ _ _ _ _ _ Hm1)) in Hup.
    set (s2 := resetElectionTimerLocked env _).
    assert (live sp1 me (Up s2) k) as Hlive2 by by eapply live_view; [|exact Hlive1].
    pose proof (mustPersist_core s2) as Hcore. pose proof (live_save cfg m0 alike sp1 me s2 k Hlive2) as Hs.
    destruct (mustPersistLocked s2) as [s3|s3]; simpl; intros Hp; [|eapply lsim_reach; [exact Hr1|apply Hs; by eapply same_core_persistable]].
    destruct (Hs ltac:(by eapply same_core_persistable)) as (sp3 & Hr3 & Hlive3 & Esv & Eg3 & Eh3).
    exists sp3. split; [by eapply lreach_trans|]. exists (a_log (sp_node sp3 me)). cbv zeta.
    assert (rv_Term args = a_term (sp_node sp3 me)) as Eterm3.
    { pose proof Hlive3 as [_ _ _ (Hm3 & _)]. rewrite <- (mr_term _ _ _ _ _ _ _ Hm3). destruct Hcore as (E & _). rewrite E. done. }
    rewrite Eterm3.
    assert (astep cfg sp3 (with_vote (mkAVote me (a_term (sp_node sp3 me)) (rv_CandidateID args) (a_log (sp_node sp3 me))) sp3)) as Hstep.
    { apply (a_vote cfg sp3 me (rv_CandidateID args) g); [done|by rewrite Eh3, Eh1, <- Eterm3|by rewrite Eg3|].
      intros v Hv Hvm Hvt. rewrite Eh3, Eh1 in Hv. rewrite <- Eterm3 in Hvt. specialize (Hvoted v Hv Hvm Hvt).
      rewrite Hvoted in Hfree. apply negb_false_iff, String.eqb_eq in Hfree. done. }
    split; [congruence|]. split; [done|]. destruct (ainv_step cfg _ _ (lv_spec _ _ _ _ _ _ _ Hlive3) Hstep) as [Hsp' Hgr].
    apply live_hist; [done..|apply add_avote_leads].
Qed.

(** [startElection]. *)
Lemma live_elect sp me s k env :
  live sp me (Up s) k → 0 ≤ currentTerm s < 2 ^ 64 - 1 → savable (fst ∘ fst) (startElection env s) →
  match startElection env s with
  | Ok (s', el, won) =>
      ∃ sp1 sp2 h, lreach cfg sp me sp1 ∧ sp_hist sp1 = sp_hist sp ∧ astep cfg sp1 sp2 ∧
        (∀ x, x ≠ me → sp_node sp2 x = sp_node sp1 x) ∧
        sp_hist sp2 = add_avote (mkAVote me (currentTerm s') me h) (add_cand me (currentTerm s') h (sp_hist sp)) ∧
        live sp2 me (Up s') k ∧ election_rel cfg (sp_hist sp2) el
  | Panic s' => lsim sp me (λ sp', live sp' me (Down me (storage s')) None)
  end.
Proof using All.
  intros Hlive Ht. unfold startElection. cbv zeta. simpl currentTerm. rewrite u64_small by (unfold in_u64; lia).
  set (f := resetElectionTimerLocked env (set_votedFor (Some (id s)) (set_currentTerm (currentTerm s + 1) (set_role Follower s)))).
  assert (lsim sp me (λ sp', live sp' me (Up f) k ∧ a_log (sp_node sp' me) = a_log (sp_node sp me) ∧
    a_saved (sp_node sp' me) = a_saved (sp_node sp me) ∧ sp_hist sp' = sp_hist sp)) as (sp1 & Hr1 & Hlive1 & Eg1 & Es1 & Eh1).
  { eapply (live_observe cfg m0 alike sp me s f k (currentTerm s + 1)); try done; [lia|by left]. }
  change (resetElectionTimerLocked env _) with (set_role Candidate f). rewrite mustPersist_role.
  pose proof (mustPersist_core f) as Hcore. pose proof (live_save cfg m0 alike sp1 me f k Hlive1) as Hs.
  destruct (mustPersistLocked f) as [s2|s2]; simpl; intros Hp.
  2: { eapply lsim_reach; [exact Hr1|]. apply Hs. by eapply same_core_persistable. }
  destruct (Hs ltac:(by eapply same_core_persistable)) as (sp3 & Hr3 & Hlive3 & Esv & Eg3 & Eh3).
  pose proof Hlive3 as [Hsp3 Hf3 Hin (Hm3 & Hp3 & td & Htd & Hd3)]. pose proof Hlive as [Hsp _ _ (Hm & _)].
  pose proof (proj2 Hsp me) as Na. pose proof (no_saved _ _ _ _ Na) as Hsv. pose proof (mr_term _ _ _ _ _ _ _ Hm) as Etm.
  set (a3 := sp_node sp3 me) in *.
  assert (a_term a3 = currentTerm s + 1) as Et3 by (rewrite <- (mr_term _ _ _ _ _ _ _ Hm3); destruct Hcore as (E & _); rewrite E; done).
  assert (currentTerm s2 = currentTerm s + 1) as Et2 by (rewrite <- Et3; apply (mr_term _ _ _ _ _ _ _ Hm3)).
  pose proof (a_campaign cfg sp3 me) as Hstep. cbv zeta in Hstep. fold a3 in Hstep.
  specialize (Hstep ltac:(lia) Esv).
  assert (Forall (λ e, e_Term e < a_term a3) (a_log a3)) as Hterms.
  { rewrite Eg3, Eg1. eapply Forall_impl; [apply (no_terms _ _ _ _ Na)|]. intros e He. simpl in He. lia. }
  specialize (Hstep Hterms). rewrite Eh3, Eh1 in Hstep.
  assert (∀ g, (me, a_term a3, g) ∉ h_cands (sp_hist sp)) as Hnc.
  { intros g Hg%(no_cands _ _ _ _ Na). lia. }
  assert (∀ v, v ∈ h_votes (sp_hist sp) → av_voter v = me → av_term v ≠ a_term a3) as Hnv.
  { intros v Hv Hvm E. pose proof (no_votes _ _ _ _ Na v Hv Hvm). lia. }
  specialize (Hstep Hnc Hnv). set (sp2 := mkSpec _ _) in Hstep.
  destruct (ainv_step cfg _ _ Hsp3 Hstep) as [Hsp2 Hgr].
  exists sp3, sp2, (a_log a3). rewrite Et2, <- Et3. split_and!.
  - by eapply lreach_trans.
  - congruence.
  - done.
  - intros x Hx. simpl. by rewrite fn_lookup_insert_ne.
  - done.
  - split; [done| |done|].
    + unfold leads_fine. simpl. rewrite add_avote_leads. simpl. rewrite <- Eh1, <- Eh3. exact Hf3.
    + unfold sp2 at 2. simpl sp_node. rewrite fn_lookup_insert. eapply node_rel_grows; [exact Hgr|].
      split; [|split; [exact Hp3|by exists td]]. by destruct Hm3.
  - split; [apply (mr_peers _ _ _ _ _ _ _ Hm3)|]. exists (a_log a3). unfold candidate, term_of. simpl.
    rewrite (mr_id _ _ _ _ _ _ _ Hm3). split_and!.
    + unfold add_avote. case_match; simpl; apply elem_of_cons; by left.
    + apply (rep_last _ _ (mr_log _ _ _ _ _ _ _ Hm3)).
    + apply (rep_lastTerm _ _ (mr_log _ _ _ _ _ _ _ Hm3)).
Qed.

End Ballot.
