(* ===== verification/RaftInstall.v ===== *)
(** * Raft: snapshots, restarts and what a server sends, as steps of the specification *)

From stdpp Require Import functions.
From S2P Require Import Prelude GoLib RaftTypes RaftLog RaftCodec RaftServer RaftLoop RaftSnapshot RaftRead.
From S2P Require Import RaftVotes RaftNode RaftElection RaftReplication RaftCommit RaftRestart.
From S2P Require Import RaftSpec RaftCluster RaftRelation RaftSimulate RaftReceive.

Local Open Scope Z_scope.

Section Install.
Context {SM St : Type} `{StateMachine SM} `{Storage St} {storable : bytes → Prop}.
Context `{!StorageLaws St storable} {snapshot_storable : Z → Z → bytes → Prop} `{!RecoveryLaws St snapshot_storable}.
Context (cfg : Configuration) (m0 : SM) (alike : relation SM) `{!SnapshotLaws m0 alike} (Hcfg : NoDup cfg).
Implicit Type s : Server SM St.

Abbreviation commit_point := (commit_point cfg).
Abbreviation persistable := (persistable (storable := storable)).
Abbreviation mem_rel := (mem_rel (SM := SM) (St := St) cfg m0 alike).
Abbreviation disk_rel := (disk_rel (SM := SM) (St := St) cfg m0 alike).
Abbreviation snap_at := (snap_at (SM := SM) (St := St) cfg m0 alike).
Abbreviation snapshot_on := (snapshot_on (SM := SM) (St := St) cfg m0 alike).
Abbreviation live := (live (SM := SM) (St := St) cfg m0 alike).
Abbreviation lsim := (lsim cfg).

Lemma disk_rel_mono hs d a t b b' : (b ≤ b')%nat → disk_rel hs d a t b → disk_rel hs d a t b'.
Proof. intros Hb (st & l & E & Hrep & Hl & Hrest). exists st, l. split_and!; [done..|lia|apply Hrest|apply Hrest|apply Hrest]. Qed.

Lemma snap_at_agree hs g g' idx term data :
  snap_at hs g idx term data → take (Z.to_nat idx) g' = take (Z.to_nat idx) g → snap_at hs g' idx term data.
Proof.
  intros (n & -> & Hpos & Ht & Hc & Hs & sn & m & Hsn & Hm & Hd). rewrite Nat2Z.id. intros E.
  exists n. split_and!; [done..| | |].
  - rewrite Ht. by apply term_at_agree.
  - destruct Hc as [->|(e & Hn & He & Hce)]; [by left|]. right. exists e. split_and!; [done| |done].
    rewrite <- He. apply (take_lookup_agree n); [lia|done].
  - split; [done|]. exists sn, m. split; [done|]. split; [|done]. by eapply machine_at_agree.
Qed.

(** ** Compaction *)

Lemma live_compact_take sp me s threshold idx term data :
  live sp me (Up s) None → compact_take threshold s = inr (idx, term, data) → Z.of_nat (length data) < 2 ^ 63 →
  live sp me (Up s) (Some (mkCompaction idx term data false)).
Proof.
  intros [Hsp Hf Hin (Hm & _ & Hd)]. unfold compact_take.
  destruct (sm s) as [m|] eqn:Esm; [|done]. destruct sm_Snapshotter as [snapper|] eqn:Esn; [|done].
  destruct (storage s) as [st|] eqn:Est; [|done]. destruct st_Snapshot as [ops|] eqn:Eops; [|done].
  destruct (Z.leb_spec (lastApplied s) (baseIndex (log s))) as [|Hlt]; simpl; [done|]. destruct (_ <? _); [done|].
  pose proof Hm as []. set (a := sp_node sp me) in *. pose proof (base_Z _ _ mr_log) as Hb. rewrite mr_applied in Hlt |- *.
  rewrite (rep_entry _ _ mr_log) by lia. destruct (a_log a !! pred (a_commit a)) as [e|] eqn:He; [|done].
  destruct (sn_Snapshot snapper m) as [|data'] eqn:Edata; [done|]. intros [= <- <- ->] Hlen.
  split; [done..|]. split; [exact Hm|]. split; [|rewrite Est; exact Hd]. intros c [= <-]. simpl.
  pose proof (rep_indexed _ _ mr_log _ _ He) as Hidx. split; [|split; [lia|done]].
  exists (a_commit a). split_and!; [lia|lia| |apply (no_commit _ _ _ _ (proj2 Hsp me))|].
  - rewrite <- (term_at_lookup _ _ _ He). f_equal. lia.
  - split; [by rewrite Eops|]. exists snapper, m. split_and!; [done| |done|done]. rewrite Esm in mr_sm. exact mr_sm.
Qed.

(** The snapshot is on disk, or the one before. *)
Lemma snapshot_on_saved hs ops st g b idx term data :
  st_Snapshot = Some ops → snapshot_storable idx term data → snap_at hs g idx term data → Z.of_nat b ≤ idx →
  snapshot_on hs st g b → snapshot_on hs (ss_SaveSnapshot ops idx term data st).1 g b.
Proof using All.
  intros Eops Hst Hsn Hb. unfold RaftRelation.snapshot_on. rewrite Eops.
  destruct (snapshot_saved ops idx term data st Eops Hst) as [->|[_ ->]]; [|done].
  intros _. right. by exists idx, term, data.
Qed.

Lemma live_compact_save sp me s s' err idx term data :
  live sp me (Up s) (Some (mkCompaction idx term data false)) → snapshot_storable idx term data →
  compact_save idx term data s = (s', err) →
  live sp me (Up s') (match err with None => Some (mkCompaction idx term data true) | Some _ => None end).
Proof using All.
  intros [Hsp Hf Hin (Hm & Hp & t & Ht & Hd)] Hst. destruct (Hp _ eq_refl) as (Hsn & Hrange & _). simpl in Hsn, Hrange.
  pose proof Hsn as (_ & _ & _ & _ & _ & [ops Eops] & _). unfold compact_save. rewrite Eops.
  destruct Hd as (st & l & Est & Hrep & Hbl & Hon & Hap & Hs). rewrite Est.
  pose proof (snapshot_on_saved (sp_hist sp) ops st (a_log (sp_node sp me)) (base l) idx term data Eops Hst Hsn ltac:(lia) Hs) as Hs1.
  pose proof (snapshot_keeps ops idx term data st Eops) as Hload.
  pose proof (λ ops' E, snapshot_keeps_applied ops ops' idx term data st Eops E) as Happ.
  pose proof (snapshot_saved ops idx term data st Eops Hst) as Hsaved.
  pose proof (mr_store _ _ _ _ _ _ _ Hm) as (st0 & Est0 & Hs0). rewrite Est in Est0. injection Est0 as <-.
  pose proof (snapshot_on_saved (sp_hist sp) ops st (a_log (sp_node sp me)) (base (log s)) idx term data Eops Hst Hsn ltac:(lia) Hs0) as Hs2.
  destruct (ss_SaveSnapshot ops idx term data st) as [st' err'] eqn:Esv. cbn [fst snd] in *. intros [= <- <-].
  split; [done..|]. split; [|split].
  - destruct Hm. split; simpl; try done. by exists st'.
  - intros c Hc. destruct err' as [|]; [done|]. injection Hc as <-. simpl. split_and!; [done|apply Hrange|apply Hrange|].
    intros _. exists ops, st'. split_and!; [done..|]. destruct Hsaved as [?|[? _]]; done.
  - exists t. split; [done|]. exists st', l. split_and!; [done..| | |done].
    + unfold state_on in *. by rewrite Hload.
    + intros ops' Eops'. rewrite Happ by done. by apply Hap.
Qed.

Lemma live_forget sp me s k : live sp me (Up s) k → live sp me (Up s) None.
Proof. intros [? ? ? (? & _ & ?)]. split; [done..|]. by split_and!. Qed.

Lemma live_compact_finish sp me s s' r idx term data :
  live sp me (Up s) (Some (mkCompaction idx term data true)) → compact_finish idx term data s = (s', r) →
  persistable s' → live sp me (Up s') None.
Proof using All.
  intros Hlive. pose proof (live_forget _ _ _ _ Hlive) as Hforget. pose proof Hlive as [Hsp Hf Hin (Hm & Hp & t & Ht & Hd)].
  destruct (Hp _ eq_refl) as (Hsn & Hrange & Hsaved). simpl in Hsn, Hrange, Hsaved.
  destruct (Hsaved eq_refl) as (ops & st & Eops & Est & Eload). pose proof Hsn as (n & -> & Hn & -> & Hpt & Hof).
  unfold compact_finish. destruct (_ || _); [by intros [= <- _]|]. destruct (entryAt _ _) as [e|]; [|by intros [= <- _]].
  destruct (negb _); [by intros [= <- _]|]. set (s1 := set_snapshot _ _). set (a := sp_node sp me) in *.
  pose proof (mr_log _ _ _ _ _ _ _ Hm) as Hrep. pose proof (commit_point_length cfg _ _ _ Hpt) as Hlen.
  pose proof (rep_discard _ _ Hrep n ltac:(lia)) as Hrep1.
  assert (base (discardThrough (Z.of_nat n) (term_at (a_log a) n) (log s)) = n) as Hb1 by (unfold base; rewrite discardThrough_base; lia).
  assert (snapshot_on (sp_hist sp) st (a_log a) n) as Hon.
  { unfold RaftRelation.snapshot_on. rewrite Eops. right. eexists _, _, _. split; [exact Eload|]. by split. }
  assert (applied_on cfg (sp_hist sp) st (a_log a)) as Hap.
  { destruct Hd as (st0 & l0 & Est0 & _ & _ & _ & Hap & _). rewrite Est in Est0. by injection Est0 as <-. }
  destruct (persistLocked s1) as [s2 err] eqn:Ep. intros [= <- <-] Hper.
  assert (persistable s1) as Hper1.
  { pose proof (persistLocked_core s1) as Hc. rewrite Ep in Hc. by eapply same_core_persistable. }
  destruct (persistLocked_disk cfg m0 alike s1 s2 err (sp_hist sp) a Ep Hper1) as (st' & st2 & Est' & -> & Hor & Hsnap); simpl.
  { by rewrite Est. }
  { apply (mr_term _ _ _ _ _ _ _ Hm). }
  { done. }
  { intros st0 Est0. rewrite Est in Est0. injection Est0 as <-. by rewrite Hb1. }
  simpl in Est'. rewrite Est in Est'. injection Est' as <-. pose proof (mr_commit _ _ _ _ _ _ _ Hm) as Hcm. fold a in Hcm.
  assert (snapshot_on (sp_hist sp) st2 (a_log a) n) as Hon2.
  { unfold RaftRelation.snapshot_on in *. rewrite Eops in *. by rewrite Hsnap. }
  split; [done..|]. split; [|split; [done|]].
  - destruct Hm. split; simpl; try done.
    + rewrite Hb1. fold a. lia.
    + intros sn [= <-]. simpl. split; [done|lia].
    + exists st2. split; [done|]. by rewrite Hb1.
  - destruct Hor as [Hd'|[_ Hsame]].
    + exists (a_term a). split; [split; [apply (no_saved _ _ _ _ (proj2 Hsp me))|apply Z.le_refl]|]. exact Hd'.
    + exists t. split; [done|]. simpl. rewrite Hb1. eapply (disk_rel_mono _ _ _ _ (base (log s))); [lia|].
      rewrite Est in Hd. by eapply disk_rel_same.
Qed.

(** ** InstallSnapshot *)

Lemma rebase_rep l g L (n : nat) :
  rep l g → indexed L → matching_at g L → (base l < n ≤ length L)%nat → Z.of_nat n + 1 < 2 ^ 63 →
  rep (rebase (Z.of_nat n) (term_at L n) l) (overwrite n L g) ∧ base (rebase (Z.of_nat n) (term_at L n) l) = n.
Proof.
  intros Hrep HL Hmat Hn Hbound. unfold rebase. rewrite (rep_entry _ _ Hrep) by lia.
  assert (take n g ≠ take n L →
    rep [mkEntry (term_at L n) (Z.of_nat n) None] (overwrite n L g) ∧ base [mkEntry (term_at L n) (Z.of_nat n) None] = n) as Hnew.
  { intros Hne. unfold overwrite. rewrite decide_False by done. split; [by apply rep_single; [|lia|]|]. unfold base. apply Nat2Z.id. }
  destruct (lookup_lt_is_Some_2 L (pred n)) as [y Hy]; [lia|].
  pose proof (term_at_lookup _ _ _ Hy) as Ety. replace (S (pred n)) with n in Ety by lia.
  destruct (g !! pred n) as [e|] eqn:He.
  - pose proof (term_at_lookup _ _ _ He) as Ete. replace (S (pred n)) with n in Ete by lia.
    pose proof (lookup_lt_Some _ _ _ He) as Hlen. destruct (Z.eqb_spec (e_Term e) (term_at L n)) as [E|E].
    + assert (take n g = take n L) as Etake by (apply matching_term; [done|lia|lia|congruence]).
      unfold overwrite. rewrite decide_True by done. rewrite <- E, <- Ete.
      split; [apply rep_discard; [done|lia]|]. unfold base. rewrite discardThrough_base. apply Nat2Z.id.
    + apply Hnew. intros Etake. apply E. rewrite <- Ete. by apply term_at_agree.
  - apply Hnew. intros Etake. apply (take_lookup_agree n (pred n)) in Etake; [|lia]. congruence.
Qed.

Lemma install_reach sp me c L (n : nat) :
  let a := sp_node sp me in
  h_leads (sp_hist sp) !! a_term a = Some (c, L) → c ≠ me → commit_point (sp_hist sp) L n →
  ∃ sp1, lreach cfg sp me sp1 ∧ sp_node sp1 me = mkANode (a_term a) (a_term a) (a_role a) (overwrite n L (a_log a)) n ∧
    sp_hist sp1 = add_ack me (a_term a) n (sp_hist sp).
Proof.
  intros a HL Hc Hpt. pose proof (commit_point_length cfg _ _ _ Hpt) as Hn.
  pose proof (a_save cfg sp me) as Hs0. cbv zeta in Hs0. fold a in Hs0.
  set (a0 := mkANode (a_term a) (a_term a) (a_role a) (a_log a) (a_commit a)) in *.
  set (sp0 := set_anode me a0 sp) in *. assert (sp_node sp0 me = a0) as E0 by apply fn_lookup_insert.
  pose proof (a_receive cfg sp0 me c L n) as Hs1. cbv zeta in Hs1. rewrite E0 in Hs1. specialize (Hs1 HL Hc eq_refl Hn).
  set (sp1 := mkSpec _ _) in Hs1.
  assert (sp_node sp1 me = mkANode (a_term a) (a_term a) (a_role a) (overwrite n L (a_log a)) (a_commit a)) as E1 by apply fn_lookup_insert.
  pose proof (a_learn cfg sp1 me n) as Hs2. cbv zeta in Hs2. rewrite E1 in Hs2. simpl a_log in Hs2.
  assert (commit_point (sp_hist sp1) (overwrite n L (a_log a)) n) as Hpt'.
  { apply (commit_point_grows cfg _ (sp_hist sp1)) in Hpt; [|apply grows_add_ack].
    destruct Hpt as [->|(e & ? & He & ?)]; [by left|]. right. exists e. split_and!; [done| |done].
    rewrite <- He. apply (take_lookup_agree n); [lia|apply overwrite_has]. }
  specialize (Hs2 Hpt'). simpl a_term in Hs2. simpl a_saved in Hs2. simpl a_role in Hs2. set (a2 := mkANode _ _ _ _ n) in Hs2.
  exists (set_anode me a2 sp1). split; [|split; [apply fn_lookup_insert|done]].
  eapply lreach_trans; [by apply lreach_node|]. eapply lreach_trans; [|by apply lreach_node].
  split; [by apply rtc_once|]. split_and!; [|done..]. intros x Hx. simpl. by rewrite !fn_lookup_insert_ne by done.
Qed.

(** The memory after the snapshot has replaced the prefix of the log. *)
Record installed (s s2 : Server SM St) (m : SM) (idx term : Z) (data : bytes) : Prop := {
  in_id : id s2 = id s;
  in_peers : peers s2 = peers s;
  in_term : currentTerm s2 = currentTerm s;
  in_role : role s2 = role s;
  in_log : log s2 = rebase idx term (log s);
  in_commit : commitIndex s2 = idx;
  in_applied : lastApplied s2 = idx;
  in_sm : sm s2 = Some m;
  in_snapshot : snapshot s2 = Some (mkSnapshotState idx term data);
  in_storage : storage s2 = storage s
}.

Lemma installed_intro s m idx term data :
  installed s (set_snapshot (Some (mkSnapshotState idx term data)) (set_commitIndex idx
    (set_lastApplied idx (set_log (rebase idx term (log s)) (set_sm (Some m) s))))) m idx term data.
Proof. split; reflexivity. Qed.

(** The snapshot is put in place: the state of the machine, the log, the disk. *)
Lemma live_installed sp me s s2 s3 s4 idx term data L c snapper m m' :
  live sp me (Up s) None → h_leads (sp_hist sp) !! currentTerm s = Some (c, L) → c ≠ me →
  snap_at (sp_hist sp) L idx term data → baseIndex (log s) < idx → lastApplied s < idx → snapshot_storable idx term data →
  sm_Snapshotter = Some snapper → sn_RestoreSnapshot snapper data m = (m', None) →
  installed s s2 m' idx term data → compact_save idx term data s2 = (s3, None) →
  persistLocked s3 = (s4, None) → persistable s3 →
  lsim sp me (λ sp', live sp' me (Up s4) None).
Proof using All.
  intros Hlive HL Hc Hsn Hbase Hla Hst Esn Eres Hput Hsave Hpers Hper.
  pose proof Hlive as [Hsp Hf Hin (Hm & _ & t & Ht & Hd)]. pose proof Hm as []. destruct Hput as []. set (a := sp_node sp me) in *.
  pose proof (proj2 Hsp me) as Na. fold a in Na. rewrite mr_term in HL.
  pose proof Hsn as (n & -> & Hn & -> & Hpt & [ops Eops] & snapper' & mm & Esn' & Emm & Edata & Hdlen).
  rewrite Esn in Esn'. injection Esn' as <-. pose proof Emm as (x & x' & Hx & [= <-] & Hal).
  destruct (snapshot_restores snapper _ x mm data m Esn Hx Hal Edata Hdlen) as (m2 & Em2 & Hal2).
  rewrite Em2 in Eres. injection Eres as ->.
  destruct (install_reach sp me c L n HL Hc Hpt) as (sp1 & Hreach & E1 & Eh1). fold a in E1, Eh1.
  destruct (lreach_inv cfg _ _ _ Hsp Hreach) as [Hsp1 Hgr]. set (g' := overwrite n L (a_log a)) in *.
  pose proof (lo_valid _ _ _ _ _ (hi_leads _ _ (proj1 Hsp) _ _ _ HL)) as HvL. destruct (Hf _ _ _ HL) as (HiL & HlenL & _).
  pose proof (commit_point_length cfg _ _ _ Hpt) as HnL. pose proof (base_Z _ _ mr_log) as Hb.
  destruct (rebase_rep (log s) (a_log a) L n mr_log HiL) as [Hrep' Hb'];
    [by apply (valid_matching_at (sp_hist sp)); [apply (no_valid _ _ _ _ Na)|]|lia|lia|]. fold g' in Hrep'.
  assert (keeps_committed cfg (sp_hist sp) (a_log a) g') as Hk.
  { eapply (overwrite_keeps cfg (sp_hist sp) _ (a_term a) c); [apply Hsp|apply (no_valid _ _ _ _ Na)| |done].
    eapply Forall_impl; [apply (no_terms _ _ _ _ Na)|]. intros e He. simpl in He. pose proof (no_saved _ _ _ _ Na). lia. }
  assert (snap_at (sp_hist sp1) g' (Z.of_nat n) (term_at L n) data) as Hsn'.
  { eapply snap_at_grows; [exact Hgr|]. eapply snap_at_agree; [exact Hsn|]. rewrite Nat2Z.id. apply overwrite_has. }
  destruct Hd as (st & l & Est & _ & _ & _ & Hap & _). unfold compact_save in Hsave. rewrite in_storage0, Est, Eops in Hsave.
  pose proof (λ ops' E, snapshot_keeps_applied ops ops' (Z.of_nat n) (term_at L n) data st Eops E) as Happ.
  pose proof (snapshot_saved ops (Z.of_nat n) (term_at L n) data st Eops Hst) as Hsaved.
  destruct (ss_SaveSnapshot ops _ _ _ st) as [st' e'] eqn:Esv. cbn [fst snd] in *. injection Hsave as <- ->.
  destruct Hsaved as [Hload|[? _]]; [|done].
  assert (snapshot_on (sp_hist sp1) st' g' n) as Hon.
  { unfold RaftRelation.snapshot_on. rewrite Eops. right. eexists _, _, _. split; [exact Hload|]. split; [done|lia]. }
  pose proof (persistLocked_disk cfg m0 alike _ s4 None (sp_hist sp1) (sp_node sp1 me) Hpers Hper (mk_is_Some _ st' eq_refl)) as Hdisk.
  rewrite E1 in Hdisk. cbn [currentTerm log storage set_storage a_log a_term] in Hdisk. rewrite in_term0, in_log0 in Hdisk.
  specialize (Hdisk mr_term Hrep').
  destruct Hdisk as (st0 & st2 & [= <-] & -> & [Hd'|[? _]] & Hsnap); [|..|done].
  { intros st0 [= <-]. split; [|by rewrite Hb']. eapply applied_on_grows; [exact Hgr|]. eapply keeps_applied_on; [exact Hk|].
    intros ops' Eops'. rewrite Happ by done. by apply Hap. }
  assert (a_role a ≠ Leader) as Hnl.
  { intros Hr. destruct (no_leader _ _ _ _ Na Hr) as [_ E]. rewrite HL in E. congruence. }
  exists sp1. split; [done|]. split; [done| |done|].
  - unfold leads_fine. rewrite Eh1. exact Hf.
  - rewrite E1. split; [|split; [done|]].
    + split; simpl; rewrite ?in_id0, ?in_peers0, ?in_term0, ?in_role0, ?in_log0, ?in_commit0, ?in_applied0, ?in_sm0, ?in_snapshot0; try done.
      * pose proof (overwrite_length n L (a_log a)). fold g' in H1. lia.
      * by rewrite Hb'.
      * exists x, m'. unfold g'. by rewrite overwrite_has.
      * intros sn [= <-]. simpl. split; [done|lia].
      * exists st2. split; [done|]. rewrite Hb'. unfold RaftRelation.snapshot_on in *. rewrite Eops in *. by rewrite Hsnap.
    + exists (a_term a). split; [simpl; lia|]. simpl. rewrite in_log0. exact Hd'.
Qed.

Lemma live_install sp me s env args s' r :
  live sp me (Up s) None → install_ok cfg m0 alike (St := St) (sp_hist sp) args → is_LeaderID args ≠ me →
  InstallSnapshot env args s = (s', r) → persistable s' → snapshotErrs s' = snapshotErrs s →
  snapshot_storable (is_LastIncludedIndex args) (is_LastIncludedTerm args) (is_Data args) →
  lsim sp me (λ sp', live sp' me (Up s') None).
Proof using All.
  intros Hlive (L & HL & Hsn) Hne. unfold InstallSnapshot.
  destruct (Z.ltb_spec (is_Term args) (currentTerm s)) as [|Hge]; [intros [= <- _] _ _ _; by apply lsim_ret|].
  set (s1 := resetElectionTimerLocked env _).
  assert (currentTerm s1 = is_Term args) as Et1 by (unfold s1; simpl; destruct (Z.ltb_spec (currentTerm s) (is_Term args)); simpl; [done|lia]).
  assert (lsim sp me (λ sp', live sp' me (Up s1) None ∧ a_log (sp_node sp' me) = a_log (sp_node sp me) ∧
    a_saved (sp_node sp' me) = a_saved (sp_node sp me) ∧ sp_hist sp' = sp_hist sp)) as (sp1 & Hr1 & Hlive1 & _ & _ & Eh1).
  { unfold s1. destruct (Z.ltb_spec (currentTerm s) (is_Term args)) as [Hlt|Hle].
    - eapply (live_observe cfg m0 alike sp me s _ None (is_Term args)); try done. by left.
    - eapply (live_observe cfg m0 alike sp me s _ None (is_Term args)); try done. all: simpl; try lia. right. split_and!; done. }
  assert (snapshotErrs s1 = snapshotErrs s) as Eerr1 by (unfold s1; simpl; by destruct (_ <? _)).
  clearbody s1. rewrite <- Eh1, <- Et1 in HL. rewrite <- Eh1 in Hsn.
  assert (lsim sp me (λ sp', live sp' me (Up s1) None)) as Hdone by by exists sp1.
  destruct (Z.leb_spec (is_LastIncludedIndex args) (baseIndex (log s1))) as [|Hb]; simpl; [by intros [= <- _]|].
  destruct (Z.leb_spec (is_LastIncludedIndex args) (lastApplied s1)) as [|Hla]; [by intros [= <- _]|].
  destruct (sm s1) as [m|] eqn:Esm; [|by intros [= <- _]]. destruct sm_Snapshotter as [snapper|] eqn:Esn; [|by intros [= <- _]].
  destruct (sn_RestoreSnapshot snapper (is_Data args) m) as [m' [err|]] eqn:Eres.
  { intros [= <- _] _ Ee. simpl in Ee. lia. }
  assert (commitIndex s1 = lastApplied s1) as Ecm.
  { destruct Hlive1 as [_ _ _ (Hm1 & _)]. by rewrite (mr_commit _ _ _ _ _ _ _ Hm1), (mr_applied _ _ _ _ _ _ _ Hm1). }
  simpl commitIndex. rewrite Ecm, (proj2 (Z.ltb_lt _ _) Hla).
  pose proof (installed_intro s1 m' (is_LastIncludedIndex args) (is_LastIncludedTerm args) (is_Data args)) as Hput.
  match type of Hput with installed _ ?x _ _ _ _ => set (s2 := x) in * end.
  change (log (set_sm (Some m') s1)) with (log s1). fold s2.
  assert (snapshotErrs s2 = snapshotErrs s1) as Ee2 by reflexivity. clearbody s2.
  destruct (compact_save _ _ _ s2) as [s3 e3] eqn:Ecs.
  destruct (persistLocked (count_snapshot_err e3 s3)) as [s4 e4] eqn:Ep. intros [= <- _] Hper Herr Hst.
  assert (snapshotErrs s3 = snapshotErrs s1 ∧ ∀ x : Server SM St, snapshotErrs (persistLocked x).1 = snapshotErrs x) as [Ee3 Eep].
  { split; [|intros x; unfold persistLocked; destruct (storage x) as [stx|]; [by destruct (st_Save _ stx)|done]].
    rewrite <- Ee2. clear -Ecs. unfold compact_save in Ecs. destruct (storage s2) as [stx|], st_Snapshot as [ops|]; [|by injection Ecs as <- _..].
    destruct (ss_SaveSnapshot _ _ _ _ _). by injection Ecs as <- _. }
  pose proof (Eep (count_snapshot_err e3 s3)) as E4. rewrite Ep in E4. simpl in E4.
  destruct e3 as [e3|]; [exfalso; destruct e4; simpl in *; lia|]. destruct e4 as [e4|]; [exfalso; simpl in *; lia|]. simpl in *.
  assert (persistable s3) as Hper3.
  { pose proof (persistLocked_core s3) as Hcore. rewrite Ep in Hcore. by eapply same_core_persistable. }
  eapply lsim_reach; [exact Hr1|].
  by eapply (live_installed sp1 me s1 s2 s3 s4 _ _ _ L (is_LeaderID args) snapper m m' Hlive1).
Qed.

(** ** Restart *)

Lemma replay_loop_inv n lo hi s s' :
  log_wf (log s) → n = Z.to_nat (hi - lo) → baseIndex (log s) ≤ lo ≤ hi → hi ≤ lastIndex (log s) →
  replay_loop n (u64 (lo + 1)) s = Ok (inr s') →
  apply_all (entries_between lo hi (log s)) (sm s) = Some (sm s') ∧ s' = set_sm (sm s') s.
Proof.
  revert lo s. induction n as [|n IH]; intros lo s Hl Hn Hlo Hhi.
  { unfold entries_between. replace (Z.to_nat (hi - lo)) with 0%nat by lia. simpl. intros [= <-]. split; [done|by destruct s]. }
  pose proof (wf_bound _ Hl). pose proof (wf_base _ Hl). pose proof (lastIndex_wf _ Hl).
  destruct (entryAt_slot (log s) (lo + 1) Hl ltac:(lia)) as [_ [e He]].
  rewrite (entries_between_cons _ _ _ e) by (done || lia). cbn [apply_all replay_loop].
  rewrite (u64_small (lo + 1)) by (unfold in_u64; lia). rewrite He.
  destruct (apply_entry e (sm s)) as [m1|]; [|done]. intros Hr.
  destruct (IH (lo + 1) (set_sm m1 s) Hl ltac:(lia) ltac:(simpl; lia) Hhi Hr) as [Hall ->]. by split.
Qed.

(** After [restore_snapshot]: the state machine stands at the base of the log. *)
Record restored (hs : history) (st : St) (g : list LogEntry) (s s' : Server SM St) (b : nat) : Prop := {
  rs_only : s' = set_log (log s') (set_lastApplied (lastApplied s') (set_commitIndex (commitIndex s')
    (set_snapshot (snapshot s') (set_sm (sm s') s))));
  rs_log : rep (log s') g;
  rs_base : base (log s') = b;
  rs_cut : (base (log s) ≤ b)%nat;
  rs_point : commit_point hs g b;
  rs_disk : snapshot_on hs st g b;
  rs_commit : commitIndex s' = Z.of_nat b;
  rs_applied : lastApplied s' = Z.of_nat b;
  rs_machine : machine_at m0 alike g b (sm s');
  rs_some : is_Some (sm s');
  rs_snapshot : ∀ sn, snapshot s' = Some sn →
    snap_at hs g (lastIncludedIndex sn) (lastIncludedTerm sn) (snap_data sn) ∧ lastIncludedIndex sn = Z.of_nat b
}.

Lemma restore_snapshot_rel hs s st g s' :
  storage s = Some st → rep (log s) g → sm s = Some m0 → commitIndex s = 0 → lastApplied s = 0 → snapshot s = None →
  snapshot_on hs st g (base (log s)) → restore_snapshot s = Ok (inr s') → ∃ b, restored hs st g s s' b.
Proof using All.
  intros Est Hrep Esm Ec Ea Esn Hon Hres.
  assert (base (log s) = 0%nat → restored hs st g s s 0) as Hsame.
  { intros Hb. split; rewrite ?Esm; try done; [destruct s; simpl in *; by subst|lia|by left|by rewrite <- Hb|by apply machine_at_0|congruence]. }
  unfold restore_snapshot in Hres. rewrite Est, Esm in Hres. pose proof Hon as Hon'. unfold RaftRelation.snapshot_on in Hon'.
  destruct st_Snapshot as [ops|] eqn:Eops; [|injection Hres as <-; exists 0%nat; by apply Hsame].
  destruct Hon' as [[El Hb]|(idx & term & data & El & Hsn & Hb)]; rewrite El in Hres; [injection Hres as <-; exists 0%nat; by apply Hsame|].
  pose proof Hsn as (n & -> & Hn & -> & Hpt & _ & snapper & mm & Esnp & Emm & Edata & Hdlen). rewrite Esnp in Hres.
  pose proof Emm as (x & x' & Hx & [= <-] & Hal).
  destruct (snapshot_restores snapper _ x mm data m0 Esnp Hx Hal Edata Hdlen) as (m2 & Em2 & Hal2).
  rewrite Em2 in Hres. simpl in Hres. injection Hres as <-.
  pose proof (base_Z _ _ Hrep) as Hbz. pose proof (commit_point_length cfg _ _ _ Hpt) as Hlen.
  assert (snapshot_on hs st g n) as Hon2.
  { unfold RaftRelation.snapshot_on. rewrite Eops. right. eexists _, _, _. split; [exact El|]. split; [done|lia]. }
  exists n. destruct (Z.ltb_spec (baseIndex (log s)) (Z.of_nat n)) as [Hlt|Hge]; simpl.
  - assert (rebase (Z.of_nat n) (term_at g n) (log s) = discardThrough (Z.of_nat n) (term_at g n) (log s)) as ->.
    { unfold rebase. rewrite (rep_entry _ _ Hrep) by lia. destruct (lookup_lt_is_Some_2 g (pred n)) as [e He]; [lia|]. rewrite He.
      pose proof (term_at_lookup _ _ _ He) as Et. replace (S (pred n)) with n in Et by lia. by rewrite Et, Z.eqb_refl. }
    pose proof (rep_discard _ _ Hrep n ltac:(lia)) as Hrep'.
    split; simpl; try done; [unfold base; rewrite discardThrough_base; lia|lia|by exists x, m2|]. intros sn [= <-]. by split.
  - split; simpl; try done; [lia|lia|by exists x, m2|]. intros sn [= <-]. by split.
Qed.

Lemma settled s i : commitIndex s = i → lastApplied s = i → s = set_lastApplied i (set_commitIndex i (set_sm (sm s) s)).
Proof. destruct s. simpl. by intros -> ->. Qed.

Lemma caught_up s i j :
  commitIndex s = i → lastApplied s = i → i ≤ j →
  (let s1 := if commitIndex s <? j then set_commitIndex j s else s in
   if lastApplied s1 <? j then set_lastApplied j s1 else s1) = set_lastApplied j (set_commitIndex j s).
Proof.
  intros E1 E2 Hij. cbv zeta. rewrite E1. destruct (Z.ltb_spec i j); simpl; rewrite E2.
  - by rewrite (proj2 (Z.ltb_lt _ _)).
  - rewrite (proj2 (Z.ltb_ge _ _)) by done. replace j with i by lia. destruct s. simpl in *. by subst.
Qed.

(** [replay_applied]: up to the applied marker, if it is above the base. *)
Lemma replay_applied_inv hs st g s s' s2 b :
  restored hs st g s s' b → storage s = Some st → applied_on cfg hs st g → replay_applied s' = Ok (inr s2) →
  ∃ m : nat, (b ≤ m)%nat ∧ commit_point hs g m ∧ machine_at m0 alike g m (sm s2) ∧
    (∀ ops j, st_Applied = Some ops → as_LoadApplied ops st = inr j → j ≤ Z.of_nat m) ∧
    s2 = set_lastApplied (Z.of_nat m) (set_commitIndex (Z.of_nat m) (set_sm (sm s2) s')).
Proof.
  intros [] Est Hap Hr. assert (storage s' = Some st) as Est' by (rewrite rs_only0; done).
  unfold replay_applied in Hr. rewrite Est' in Hr. destruct rs_some0 as [mm Emm]. rewrite Emm in Hr.
  destruct st_Applied as [ops|] eqn:Eops.
  2: { injection Hr as <-. exists b. split_and!; try done. by apply settled. }
  destruct (Hap ops Eops) as (i & Ei & Hpt). rewrite Ei in Hr. pose proof (commit_point_length cfg _ _ _ Hpt) as Hi.
  pose proof (base_Z _ _ rs_log0) as Hb. rewrite rs_base0 in Hb. pose proof (rep_last _ _ rs_log0) as Hlast.
  pose proof (rep_base _ _ rs_log0) as Hbl. rewrite rs_base0 in Hbl. set (m := (b `max` i)%nat). rewrite <- Hb, Hlast in Hr.
  replace (if Z.of_nat i <? Z.of_nat b then Z.of_nat b else Z.of_nat i) with (Z.of_nat m) in Hr
    by (destruct (Z.ltb_spec (Z.of_nat i) (Z.of_nat b)); lia).
  rewrite (proj2 (Z.ltb_ge _ _)) in Hr by lia.
  destruct (replay_loop _ _ s') as [[err|s3]|] eqn:Eloop; [done| |done]. simpl in Hr.
  apply (replay_loop_inv _ _ (Z.of_nat m)) in Eloop as [Hall Es3]; [|apply rs_log0|done|rewrite <- Hb; lia|lia].
  rewrite (rep_between _ g) in Hall by (done || lia).
  exists m. split; [lia|]. split; [destruct (decide (b ≤ i)%nat); [by replace m with i by lia|by replace m with b by lia]|].
  pose proof (caught_up s3 (Z.of_nat b) (Z.of_nat m) ltac:(by rewrite Es3) ltac:(by rewrite Es3) ltac:(lia)) as Hcu.
  cbv zeta in Hcu. rewrite Hcu in Hr. injection Hr as <-. simpl. split_and!.
  - by apply (machine_at_more m0 alike g b m (sm s')); [lia|..].
  - intros ops' j [= <-] Hj. rewrite Ei in Hj. injection Hj as <-. lia.
  - by rewrite Es3 at 1.
Qed.

Lemma valid_bound hs g : leads_fine hs → valid hs g → Z.of_nat (length g) < 2 ^ 62.
Proof.
  intros Hf Hg. destruct g as [|x g']; [simpl; lia|]. destruct (valid_prefix hs (x :: g') Hg) as (c & L & HL & E); [done|].
  destruct (Hf _ _ _ HL) as (_ & Hlen & _). apply (f_equal length) in E. rewrite length_take in E. lia.
Qed.

(** The server that comes up with the node's term and log, having applied [m] entries. *)
Lemma live_up sp me s st (m : nat) :
  live sp me (Down me (Some st)) None → commit_point (sp_hist sp) (a_log (sp_node sp me)) m →
  id s = me → peers s = cfg → currentTerm s = a_term (sp_node sp me) → role s = Follower → storage s = Some st →
  rep (log s) (a_log (sp_node sp me)) → commitIndex s = Z.of_nat m → lastApplied s = Z.of_nat m → (base (log s) ≤ m)%nat →
  machine_at m0 alike (a_log (sp_node sp me)) m (sm s) →
  (∀ sn, snapshot s = Some sn → snap_at (sp_hist sp) (a_log (sp_node sp me)) (lastIncludedIndex sn) (lastIncludedTerm sn)
     (snap_data sn) ∧ lastIncludedIndex sn ≤ Z.of_nat m) →
  snapshot_on (sp_hist sp) st (a_log (sp_node sp me)) (base (log s)) →
  disk_rel (sp_hist sp) (Some st) (sp_node sp me) (a_term (sp_node sp me)) (base (log s)) →
  lsim sp me (λ sp', live sp' me (Up s) None).
Proof.
  intros [Hsp Hf Hin (_ & _ & Hrole & _)] Hpt E1 E2 E3 E4 E5 Hrep E6 E7 Hb Hall Hsn Hon Hd.
  pose proof (a_learn cfg sp me m Hpt) as Hstep. cbv zeta in Hstep. set (a := sp_node sp me) in *.
  destruct (ainv_step cfg _ _ Hsp Hstep) as [Hsp' _]. apply (lsim_node _ _ _ _ _ Hstep).
  pose proof (proj2 Hsp me) as Na. fold a in Na. split; [done..|]. simpl. rewrite fn_lookup_insert. split; [|split; [done|]].
  - split; simpl; try congruence; try done.
    + by eapply valid_bound, (no_valid _ _ _ _ Na).
    + intros sn Esn. rewrite E6. by apply Hsn.
    + by exists st.
  - exists (a_term a). simpl. split; [split; [apply (no_saved _ _ _ _ Na)|lia]|]. by rewrite E5.
Qed.

Lemma rep_no_empty l g : rep l g → Forall (λ e, app_command (e_Command e)) (tail l) → no_empty_command l.
Proof.
  intros Hrep Happ. pose proof (rep_blank _ _ Hrep) as Hbk. destruct l as [|y l']; [constructor|]. simpl in *.
  constructor; [by rewrite Hbk|]. eapply Forall_impl; [exact Happ|]. intros e He E. cbv beta in He. rewrite E in He. by destruct He.
Qed.

Lemma live_restart sp me st tr cf s :
  live sp me (Down me (Some st)) None →
  Restore (SetStorage st (NewServerWith me cfg (Some m0) tr cf)) = Ok (inr s) →
  lsim sp me (λ sp', live sp' me (Up s) None).
Proof using All.
  intros Hlive. pose proof Hlive as [Hsp Hf Hin (_ & _ & Hrole & st' & l & [= <-] & Hrep & Hbl & Hst & Hap & Hon)].
  set (a := sp_node sp me) in *. pose proof (proj2 Hsp me) as Na. fold a in Na. unfold Restore. simpl.
  pose proof Hst as [(El & Et & ->)|(v & El & Hok)].
  - rewrite El. intros [= <-]. apply (live_up sp me _ st 0 Hlive); try done; [by left|by apply machine_at_0|fold a].
    exists st, [zeroEntry]. by split_and!.
  - rewrite El. destruct (encodeState (a_term a) v l) as [|x rest] eqn:Ee; [by apply encodeState_nonempty in Ee|]. rewrite <- Ee.
    assert (Forall (λ e, app_command (e_Command e)) (tail l)) as Happ.
    { rewrite (rep_tail _ _ Hrep). apply Forall_drop. by eapply valid_app, (no_valid _ _ _ _ Na). }
    rewrite decodeState_encode, norm_id by (done || by eapply rep_no_empty).
    destruct (Nat.eqb_spec (length l) 0); [pose proof (length_wf _ (rep_wf _ _ Hrep)); lia|].
    rewrite adopt_none by done. set (s1 := set_lastApplied _ _).
    destruct (restore_snapshot s1) as [[err|s2]|] eqn:Ers; [done| |done]. cbn [mbind outcome_bind].
    destruct (restore_snapshot_rel (sp_hist sp) s1 st (a_log a) s2) as [b Hres]; try done. intros Hrp.
    destruct (replay_applied_inv (sp_hist sp) st (a_log a) s1 s2 s b Hres eq_refl Hap Hrp) as (m & Hbm & Hpt & Hall & _ & Es).
    pose proof Hres as []. apply (live_up sp me s st m Hlive Hpt); try (by rewrite Es, rs_only0); fold a.
    + rewrite Es. simpl. by rewrite rs_base0.
    + rewrite Es. simpl. intros sn Hsn. destruct (rs_snapshot0 sn Hsn) as [? ?]. split; [done|lia].
    + rewrite Es. simpl. by rewrite rs_base0.
    + rewrite Es. simpl. rewrite rs_base0. exists st, l. by split_and!.
Qed.

(** *** A restart succeeds *)

(** The state machine panics on no log. *)
Definition never_panics : Prop :=
  ∀ es m e, apply_all es (Some m0) = Some (Some m) → apply_entry e (Some m) ≠ None.

Lemma replays es es' x x' :
  never_panics → apply_all es (Some m0) = Some (Some x) → alike x x' → is_Some (apply_all es' (Some x')).
Proof using All.
  intros Hnp. revert es x x'. induction es' as [|e es' IH]; intros es x x' Hx Hal; cbn [apply_all]; [by eexists|].
  pose proof (alike_apply e x x' Hal) as Hf. specialize (Hnp es x e Hx).
  destruct (apply_entry e (Some x)) as [y|] eqn:Ey; [|done]. apply RaftSpec.apply_entry_some in Ey as Hy.
  destruct Hy as [z ->]. destruct (apply_entry e (Some x')) as [y'|]; [|by inversion Hf].
  inversion Hf as [? ? Hf2|]; subst. inversion Hf2 as [? z' Hz|]; subst. cbn [mbind option_bind].
  apply (IH (es ++ [e]) z z'); [|done]. rewrite apply_all_app, Hx. cbn [mbind option_bind apply_all]. by rewrite Ey.
Qed.

Lemma restore_snapshot_runs hs s st g :
  storage s = Some st → sm s = Some m0 → snapshot_on hs st g (base (log s)) → ∃ s', restore_snapshot s = Ok (inr s').
Proof using All.
  intros Est Esm Hon. unfold restore_snapshot. rewrite Est, Esm. unfold RaftRelation.snapshot_on in Hon.
  destruct st_Snapshot as [ops|]; [|by eexists]. destruct Hon as [[-> _]|(idx & term & data & -> & Hsn & _)]; [by eexists|].
  destruct Hsn as (n & _ & _ & _ & _ & _ & snapper & mm & Esnp & (x & x' & Hx & [= <-] & Hal) & Ed & Hdlen).
  destruct (snapshot_restores snapper _ x mm data m0 Esnp Hx Hal Ed Hdlen) as (m2 & Em2 & _).
  rewrite Esnp, Em2. by eexists.
Qed.

Lemma replay_applied_runs hs st g s s' b :
  never_panics → restored hs st g s s' b → storage s = Some st → applied_on cfg hs st g →
  ∃ s2, replay_applied s' = Ok (inr s2).
Proof using All.
  intros Hnp [] Est Hap. assert (storage s' = Some st) as Est' by (rewrite rs_only0; done).
  unfold replay_applied. rewrite Est'. destruct rs_some0 as [mm Emm]. rewrite Emm.
  destruct st_Applied as [ops|] eqn:Eops; [|by eexists]. destruct (Hap ops Eops) as (i & -> & Hpt).
  pose proof (commit_point_length cfg _ _ _ Hpt) as Hi. pose proof (commit_point_length cfg _ _ _ rs_point0) as Hbg.
  pose proof (base_Z _ _ rs_log0) as Hb. rewrite rs_base0 in Hb. pose proof (rep_last _ _ rs_log0) as Hlast.
  rewrite <- Hb, Hlast. set (hi := if (_ <? _) then Z.of_nat b else Z.of_nat i).
  assert (Z.of_nat b ≤ hi ≤ Z.of_nat (length g)) as Hhi.
  { unfold hi. destruct (Z.ltb_spec (Z.of_nat i) (Z.of_nat b)); lia. }
  clearbody hi. rewrite (proj2 (Z.ltb_ge _ _)) by lia.
  destruct rs_machine0 as (x & x' & Hx & Ex & Hal).
  destruct (replays (take b g) (entries_between (Z.of_nat b) hi (log s')) x x' Hnp Hx Hal) as [m' Hm'].
  rewrite (replay_loop_spec _ _ hi s' m'); [by eexists|apply rs_log0|done|rewrite <- Hb; lia|lia|congruence].
Qed.

(** What a running server has on disk brings up a server with the same log, which has
    applied a committed part of it, at least up to the saved marker. *)
Lemma restart_runs sp me s0 k tr cf :
  never_panics → live sp me (Up s0) k →
  ∃ st s, storage s0 = Some st ∧ Restore (SetStorage st (NewServerWith me cfg (Some m0) tr cf)) = Ok (inr s) ∧
    role s = Follower ∧ currentTerm s ≤ currentTerm s0 ∧ rep (log s) (a_log (sp_node sp me)) ∧
    lastApplied s = commitIndex s ∧ baseIndex (log s) ≤ lastApplied s ∧
    commit_point (sp_hist sp) (a_log (sp_node sp me)) (Z.to_nat (lastApplied s)) ∧
    machine_at m0 alike (a_log (sp_node sp me)) (Z.to_nat (lastApplied s)) (sm s) ∧
    ∀ ops j, st_Applied = Some ops → as_LoadApplied ops st = inr j → j ≤ lastApplied s.
Proof using All.
  intros Hnp [Hsp Hf Hin (Hm & _ & t & Ht & st & l & Est & Hrep & Hbl & Hst & Hap & Hon)].
  set (a := sp_node sp me) in *. pose proof (proj2 Hsp me) as Na. fold a in Na. pose proof (mr_term _ _ _ _ _ _ _ Hm) as Et0.
  exists st. unfold Restore. simpl. pose proof Hst as [(El & -> & ->)|(v & El & Hok)].
  - rewrite El. eexists. split; [done|]. split; [done|]. simpl. split_and!; try done; [lia|by left|by apply machine_at_0|].
    intros ops j Hops Hj. destruct (Hap ops Hops) as (i & Ei & Hpt). rewrite Ei in Hj. injection Hj as <-.
    pose proof (commit_point_length cfg _ _ _ Hpt). pose proof (rep_last _ _ Hrep) as Hl0. change (lastIndex [zeroEntry]) with 0 in Hl0. fold a in Hl0. lia.
  - rewrite El. destruct (encodeState t v l) as [|x rest] eqn:Ee; [by apply encodeState_nonempty in Ee|]. rewrite <- Ee.
    assert (Forall (λ e, app_command (e_Command e)) (tail l)) as Happ.
    { rewrite (rep_tail _ _ Hrep). apply Forall_drop. by eapply valid_app, (no_valid _ _ _ _ Na). }
    rewrite decodeState_encode, norm_id by (done || by eapply rep_no_empty).
    destruct (Nat.eqb_spec (length l) 0); [pose proof (length_wf _ (rep_wf _ _ Hrep)); lia|].
    rewrite adopt_none by done. set (s1 := set_lastApplied _ _).
    destruct (restore_snapshot_runs (sp_hist sp) s1 st (a_log a)) as [s2 Es2]; [done..|]. rewrite Es2. cbn [mbind outcome_bind].
    destruct (restore_snapshot_rel (sp_hist sp) s1 st (a_log a) s2) as [b Hres]; try done.
    destruct (replay_applied_runs (sp_hist sp) st (a_log a) s1 s2 b Hnp Hres eq_refl Hap) as [s Hrp]. rewrite Hrp.
    destruct (replay_applied_inv (sp_hist sp) st (a_log a) s1 s2 s b Hres eq_refl Hap Hrp) as (m & Hbm & Hpt & Hall & Hmark & Es).
    pose proof Hres as []. exists s. split; [done|]. split; [done|].
    assert (lastApplied s = Z.of_nat m) as -> by (by rewrite Es). rewrite Nat2Z.id.
    split_and!; try done; try (by rewrite Es, rs_only0).
    + rewrite Es, rs_only0. simpl. lia.
    + rewrite Es. simpl. rewrite <- (base_Z _ _ rs_log0), rs_base0. lia.
Qed.

(** ** Sending *)

Lemma live_send sp me s k peer term args :
  live sp me (Up s) k → peer ∈ peers s → replicate_request peer term s = SendEntries args → append_ok cfg (sp_hist sp) args.
Proof.
  intros [Hsp Hf Hin (Hm & _)] Hpe. pose proof Hm as []. set (a := sp_node sp me) in *. pose proof (proj2 Hsp me) as Na. fold a in Na.
  pose proof (rep_last _ _ mr_log) as Hlast. pose proof (base_Z _ _ mr_log) as Hb. rewrite mr_peers in Hpe.
  unfold replicate_request. case_bool_decide as Hr; simpl; [done|].
  destruct (Z.eqb_spec (currentTerm s) term) as [<-|]; simpl; [|done].
  assert (a_role a = Leader) as Hra by (rewrite <- mr_role; by destruct (role s)).
  set (next := if _ <? 1 then 1 else _).
  assert (1 ≤ next ≤ Z.of_nat (length (a_log a)) + 1) as Hnext.
  { unfold next. destruct (nextIndex s !! peer) as [j|] eqn:Ej; simpl; [|lia].
    pose proof (mr_next Hra peer j Hpe Ej). destruct (Z.ltb_spec j 1); lia. }
  clearbody next. destruct (Z.leb_spec next (baseIndex (log s))); [done|]. case_bool_decide; [done|]. intros [= <-].
  rewrite (u64_small (next - 1)) by (unfold in_u64; lia). set (prev := Z.to_nat (next - 1)).
  replace (next - 1) with (Z.of_nat prev) by lia. rewrite (rep_term _ _ mr_log) by lia.
  exists (a_log a), prev, (length (a_log a)), (a_commit a). simpl.
  pose proof (no_commit _ _ _ _ Na) as Hpt. pose proof (commit_point_length cfg _ _ _ Hpt) as Hcl.
  split_and!; try done; try lia.
  - rewrite mr_term, mr_id. by apply (no_leader _ _ _ _ Na).
  - rewrite take_ge by done. rewrite Hlast. destruct (Z.leb_spec next (Z.of_nat (length (a_log a)))) as [Hle|Hgt].
    + rewrite slot_wf by (apply mr_log || lia). replace (Z.to_nat (next - baseIndex (log s))) with (S (prev - base (log s))) by lia.
      destruct (rep_head _ _ mr_log) as (x & _ & _ & El). rewrite El at 2. simpl. rewrite drop_drop. f_equal. lia.
    + rewrite drop_ge; [done|lia].
Qed.

Lemma live_probing sp me s k r args :
  live sp me (Up s) k → read_request r s = Some args → probe_ok cfg (sp_hist sp) args.
Proof.
  intros [Hsp Hf Hin (Hm & _)]. pose proof Hm as []. set (a := sp_node sp me) in *. pose proof (proj2 Hsp me) as Na. fold a in Na.
  unfold read_request. case_bool_decide; [done|]. intros [= <-]. exists (a_log a), (a_commit a). simpl.
  pose proof (no_commit _ _ _ _ Na) as Hpt.
  split_and!; try done; [apply (no_valid _ _ _ _ Na)|by apply rep_last|by apply rep_lastTerm|by eapply commit_point_length].
Qed.

Lemma live_send_snap sp me s k term s' args :
  live sp me (Up s) k → snapshot_request term s = (s', args) →
  live sp me (Up s') k ∧ ∀ x, args = Some x → install_ok cfg m0 alike (St := St) (sp_hist sp) x.
Proof.
  intros Hlive. pose proof Hlive as [Hsp Hf Hin (Hm & _)]. pose proof Hm as []. set (a := sp_node sp me) in *.
  pose proof (proj2 Hsp me) as Na. fold a in Na. unfold snapshot_request. destruct (_ || _) eqn:Eg; [by intros [= <- <-]|].
  apply orb_false_iff in Eg as [Hr%bool_decide_eq_false Ht]. destruct (snapshot s) as [sn|] eqn:Esn.
  - case_bool_decide; intros [= <- <-]; [split; [by eapply live_view; [|exact Hlive]|done]|]. split; [done|].
    intros x [= <-]. exists (a_log a). simpl. destruct (mr_snapshot sn eq_refl) as [? _]. split; [|done].
    rewrite mr_term, mr_id. apply (no_leader _ _ _ _ Na). rewrite <- mr_role. by apply dec_stable in Hr.
  - intros [= <- <-]. split; [by eapply live_view; [|exact Hlive]|done].
Qed.

End Install.
