(* ===== verification/RaftSafety.v ===== *)
(** * Raft: the cluster refines the specification *)

From stdpp Require Import functions.
From S2P Require Import Prelude GoLib RaftTypes RaftLog RaftCodec RaftServer RaftLoop RaftSnapshot RaftRead.
From S2P Require Import RaftVotes RaftNode RaftElection RaftReplication RaftCommit RaftRestart.
From S2P Require Import RaftSpec RaftCluster RaftRelation RaftSimulate RaftReceive RaftLead RaftInstall.

Local Open Scope Z_scope.

Section Safety.
Context {SM St : Type} `{StateMachine SM} `{Storage St} {storable : bytes → Prop}.
Context `{!StorageLaws St storable} {snapshot_storable : Z → Z → bytes → Prop} `{!RecoveryLaws St snapshot_storable}.
Context (cfg : Configuration) (m0 : SM) (alike : relation SM) `{!SnapshotLaws m0 alike} (Hcfg : NoDup cfg).
Implicit Type s : Server SM St.
Implicit Type y : system (SM := SM) (St := St).

Abbreviation live := (live (SM := SM) (St := St) cfg m0 alike).
Abbreviation sim := (sim (SM := SM) (St := St) cfg m0 alike).
Abbreviation messages_ok := (messages_ok (SM := SM) (St := St) cfg m0 alike).
Abbreviation sstep := (sstep (SM := SM) (St := St) (storable := storable) (snapshot_storable := snapshot_storable) cfg m0).

Lemma sim_live y sp me n : sim y sp → c_nodes (y_cluster y) !! me = Some n → live sp me n (y_compacting y !! me).
Proof. intros [] Hn. destruct (si_nodes _ _ Hn). by split. Qed.

Lemma sim_cinv y y' sp : sim y sp → sstep y y' → cinv (y_cluster y').
Proof. intros [] Hs. destruct (sstep_cluster cfg m0 _ _ Hs) as [->|Hc]; [done|]. by eapply cinv_step. Qed.

(** The messages of a system. *)
Definition mail y :=
  (c_elections (y_cluster y), y_appends y, y_replies y, y_probes y, y_snaps y).

Lemma messages_ok_mail hs y y' : mail y' = mail y → messages_ok hs y → messages_ok hs y'.
Proof. unfold mail. intros [= E1 E2 E3 E4 E5] []. split; rewrite ?E1, ?E2, ?E3, ?E4, ?E5; done. Qed.

Lemma votes_rel_same hs hs' (c c' : cluster (SM := SM) (St := St)) :
  votes_rel hs c → grows hs hs' → h_votes hs' = h_votes hs → c_votes c' = c_votes c → votes_rel hs' c'.
Proof.
  intros [V1 V2] Hgr Eh Ec. unfold votes_rel. rewrite Eh, Ec. split; [done|]. intros v Hv.
  destruct (V2 v Hv) as [[[x L] HL]|?]; [left|by right]. destruct (gr_leads _ _ Hgr _ _ _ HL) as [es ->]. by eexists.
Qed.

(** One node moves on, in the cluster and in the specification. *)
Lemma sim_move y sp sp' y' me n' :
  sim y sp → grows (sp_hist sp) (sp_hist sp') → (∀ x, x ≠ me → sp_node sp' x = sp_node sp x) →
  live sp' me n' (y_compacting y' !! me) → cinv (y_cluster y') → votes_rel (sp_hist sp') (y_cluster y') →
  messages_ok (sp_hist sp') y' → c_nodes (y_cluster y') = <[me:=n']> (c_nodes (y_cluster y)) →
  (∀ x, x ≠ me → y_compacting y' !! x = y_compacting y !! x) →
  (is_Some (y_compacting y' !! me) → ∃ s, n' = Up s) → sim y' sp'.
Proof.
  intros [] Hgr Hother [Hsp Hf Hin Hn] Hc Hv Hm En Ek Hup. split; try done.
  - intros x n. rewrite En. destruct (decide (x = me)) as [->|Hne].
    + rewrite lookup_insert_eq. intros [= <-]. by split.
    + rewrite lookup_insert_ne by done. intros Hx. destruct (si_nodes x n Hx). split; [done|].
      rewrite Hother, Ek by done. by eapply node_rel_grows.
  - intros x k Hk. rewrite En. destruct (decide (x = me)) as [->|Hne].
    + destruct Hup as [s ->]; [by rewrite Hk|]. exists s. by rewrite lookup_insert_eq.
    + rewrite Ek in Hk by done. destruct (si_compacting x k Hk) as [s Hs]. exists s. by rewrite lookup_insert_ne.
Qed.

(** The same for a node that casts no vote and sends nothing. *)
Lemma sim_local y sp y' me n' k :
  sim y sp → sstep y y' → lsim cfg sp me (λ sp', live sp' me n' k) →
  c_nodes (y_cluster y') = <[me:=n']> (c_nodes (y_cluster y)) → c_votes (y_cluster y') = c_votes (y_cluster y) →
  mail y' = mail y → y_compacting y' !! me = k → (∀ x, x ≠ me → y_compacting y' !! x = y_compacting y !! x) →
  (is_Some k → ∃ s, n' = Up s) → ∃ sp', rtc (astep cfg) sp sp' ∧ sim y' sp'.
Proof.
  intros Hsim Hstep (sp' & Hreach & Hlive) En Ev Em Ek Eo Hup. pose proof Hsim as [].
  destruct (lreach_inv cfg _ _ _ si_spec Hreach) as [_ Hgr]. pose proof Hreach as (Hrtc & Hother & Evotes & _).
  exists sp'. split; [done|]. eapply (sim_move y sp sp' y' me n'); try done.
  - by rewrite Ek.
  - by eapply sim_cinv.
  - by eapply votes_rel_same.
  - eapply messages_ok_mail; [exact Em|]. by eapply messages_ok_grows.
  - by rewrite Ek.
Qed.

(** A server is up in a new state. *)
Lemma sim_up y sp me s s' :
  sim y sp → sstep y (set_up me s' y) → up_at y me s →
  lsim cfg sp me (λ sp', live sp' me (Up s') (y_compacting y !! me)) →
  ∃ sp', rtc (astep cfg) sp sp' ∧ sim (set_up me s' y) sp'.
Proof. intros Hsim Hstep Hs Hl. eapply (sim_local y sp _ me (Up s') (y_compacting y !! me)); try done. by exists s'. Qed.

(** A server is down. *)
Lemma sim_down y sp me d :
  sim y sp →
  let y' := set_compacting (delete me (y_compacting y)) (set_cluster (set_node me (Down me d) (y_cluster y)) y) in
  sstep y y' → lsim cfg sp me (λ sp', live sp' me (Down me d) None) →
  ∃ sp', rtc (astep cfg) sp sp' ∧ sim y' sp'.
Proof.
  intros Hsim y' Hstep Hl. eapply (sim_local y sp _ me (Down me d) None); try done; unfold y'; simpl.
  - by rewrite lookup_delete_eq.
  - intros x Hx. by rewrite lookup_delete_ne.
Qed.

(** More messages, nothing else. *)
Lemma sim_mail y sp y' :
  sim y sp → cinv (y_cluster y') → c_nodes (y_cluster y') = c_nodes (y_cluster y) →
  c_votes (y_cluster y') = c_votes (y_cluster y) → y_compacting y' = y_compacting y →
  messages_ok (sp_hist sp) y' → sim y' sp.
Proof.
  intros [] Hc En Ev Ek Hm. split; rewrite ?En, ?Ek; try done. by eapply votes_rel_same.
Qed.

(** ** Votes and elections *)

Lemma vote_ballot y sp me s v :
  sim y sp → up_at y me s → v ∈ h_votes (sp_hist sp) → av_voter v = me → (av_term v, Some (av_for v)) ⊑ᵥ ballot_of s.
Proof.
  intros [] Hs Hv Hme. destruct (ci_nodes _ si_cluster _ _ Hs) as [(_ & b & Hcov & _ & Hle) _].
  etrans; [|exact Hle]. apply Hcov, elem_of_votes_of. rewrite <- Hme. by apply (proj1 si_votes).
Qed.

Lemma can_lead y sp el s :
  sim y sp → el ∈ c_elections (y_cluster y) → decided el → up_at y (candidate el) s →
  role s = Candidate → currentTerm s = term_of el →
  h_leads (sp_hist sp) !! currentTerm s = None ∧ ∃ q, quorum cfg q ∧
    ∀ x, x ∈ q → ∃ v, v ∈ h_votes (sp_hist sp) ∧ av_voter v = x ∧ av_term v = currentTerm s ∧ av_for v = candidate el.
Proof using Hcfg.
  intros Hsim Hel Hdec Hs Hrole Ht. pose proof Hsim as []. destruct (mo_elections _ _ _ _ _ si_messages _ Hel) as [Ecfg _].
  destruct (si_nodes _ _ Hs) as [Hin (Hm & _)]. pose proof (proj2 si_spec (candidate el)) as Na.
  destruct (decided_promotion _ el (ci_elections _ si_cluster _ Hel) Hdec) as (q & Hnd & Hsub & Hlen & Hq); simpl;
    rewrite ?Ecfg in *; [done..|]. simpl in *.
  assert (h_leads (sp_hist sp) !! currentTerm s = None) as Hnone.
  { destruct (h_leads (sp_hist sp) !! currentTerm s) as [[c L]|] eqn:HL; [exfalso|done].
    destruct (lo_elected _ _ _ _ _ (hi_leads _ _ (proj1 si_spec) _ _ _ HL)) as (q' & Hq' & Hvotes).
    destruct (quorum_meet cfg q q') as (x & Hx & Hx'); [by split_and!|done|]. destruct (Hvotes x Hx') as (v & Hv & Ev1 & Ev2 & Ev3).
    apply (proj1 si_votes) in Hv. rewrite Ev1, Ev2, Ev3 in Hv. specialize (Hq x Hx).
    destruct (ci_voters _ si_cluster _ Hv) as [n Hn]. destruct (ci_nodes _ si_cluster _ _ Hn) as [[Hone _] _].
    assert (c = candidate el) as ->.
    { apply (Hone (currentTerm s)); apply elem_of_votes_of; simpl; [done|]. by rewrite Ht. }
    destruct (no_candidate _ _ _ _ Na) as (_ & Hno & _); [by rewrite <- (mr_role _ _ _ _ _ _ _ Hm)|].
    rewrite (mr_term _ _ _ _ _ _ _ Hm) in HL. by apply (Hno L). }
  split; [done|]. exists q. split; [by split_and!|]. intros x Hx. destruct (proj2 si_votes _ (Hq x Hx)) as [Hsome|(w & Hw & E1 & E2 & E3)].
  - simpl in Hsome. rewrite <- Ht, Hnone in Hsome. by destruct Hsome.
  - exists w. simpl in *. by rewrite Ht.
Qed.

Lemma election_rel_args hs el el' :
  el_args el' = el_args el → el_config el' = el_config el → election_rel cfg hs el → election_rel cfg hs el'.
Proof. intros Ea Ec. unfold election_rel, candidate, term_of. by rewrite Ea, Ec. Qed.

(** Replacing an election by one with the same request. *)
Lemma replaced_elections hs (els : list Election) pre el post el' :
  els = pre ++ el :: post → (∀ e, e ∈ els → election_rel cfg hs e) →
  el_args el' = el_args el → el_config el' = el_config el → ∀ e, e ∈ pre ++ el' :: post → election_rel cfg hs e.
Proof.
  intros -> Hall Ea Ec e. rewrite elem_of_app, elem_of_cons. intros [He|[->|He]].
  - apply Hall. apply elem_of_app. by left.
  - eapply election_rel_args; [exact Ea|exact Ec|]. apply Hall. apply elem_of_app. right. apply elem_of_cons. by left.
  - apply Hall. apply elem_of_app. right. apply elem_of_cons. by right.
Qed.

(** ** The operations, one by one *)

Abbreviation in_bounds := (in_bounds (storable := storable)).

(** An operation that panics leaves a disk that the specification's crashed node describes. *)
Lemma live_panic y sp me o s s' :
  sim y sp → up_at y me s → may_panic y me o → op_ok o s → exec o s = Panic s' → in_bounds s' →
  lsim cfg sp me (λ sp', live sp' me (Down me (storage s')) None).
Proof using All.
  intros Hsim Hs Hmay Hok He Hb. pose proof (sim_live _ _ _ _ Hsim Hs) as Hlive. pose proof Hsim as [].
  assert (may y me o → lsim cfg sp me (λ sp', live sp' me (Down me (storage s')) None)) as Hlocal.
  { intros Hm. pose proof (live_local cfg m0 alike Hcfg sp me s _ y o Hlive si_messages Hm) as Hf. rewrite He in Hf. by apply Hf. }
  destruct o; try (by apply Hlocal); simpl in *; try done.
  - destruct (AppendEntries env args s) as [[? ?]|s1] eqn:E; simpl in He; [done|]. injection He as <-. destruct Hmay as [[Ha Hne]|Ha].
    + pose proof (live_append cfg m0 alike Hcfg sp me s _ env args Hlive (mo_appends _ _ _ _ _ si_messages _ Ha) Hne) as Hf.
      rewrite E in Hf. apply Hf. apply Hb.
    + pose proof (live_probe cfg m0 alike Hcfg sp me s _ env args Hlive (mo_probes _ _ _ _ _ si_messages _ Ha)) as Hf.
      rewrite E in Hf. apply Hf. apply Hb.
  - destruct (RequestVote env args s) as [[? ?]|s1] eqn:E; simpl in He; [done|]. injection He as <-.
    destruct Hmay as (el & Hel & <-). destruct (mo_elections _ _ _ _ _ si_messages _ Hel) as (_ & g & Hg & E1 & E2).
    pose proof (live_vote cfg m0 alike Hcfg sp me s _ env (el_args el) g Hlive Hg E1 E2 (λ v, vote_ballot _ _ _ _ v Hsim Hs)) as Hf.
    rewrite E in Hf. apply Hf. apply Hb.
  - destruct (startElection env s) as [[[? ?] ?]|s1] eqn:E; simpl in He; [done|]. injection He as <-.
    destruct (ci_nodes _ si_cluster _ _ Hs) as [Hinv _]. pose proof (ninv_term _ _ Hinv) as H0t.
    pose proof (live_elect cfg m0 alike Hcfg sp me s _ env Hlive (conj H0t Hok)) as Hf. rewrite E in Hf. apply Hf. apply Hb.
  - destruct (vote_reply term reply s) as [[? ?]|s1] eqn:E; simpl in He; [done|]. injection He as <-.
    pose proof (live_vote_reply cfg m0 alike Hcfg sp me s _ term reply Hlive) as Hf. rewrite E in Hf. apply Hf. apply Hb.
  - destruct (becomeLeader term s) as [?|s1] eqn:E; simpl in He; [done|]. injection He as <-.
    destruct Hmay as (el & Hel & Hdec & <- & <-).
    assert (role s = Candidate ∧ currentTerm s = term_of el) as [Hr Ht].
    { unfold becomeLeader in E. destruct (_ || _) eqn:Eg; [done|]. apply orb_false_iff in Eg as [Hr%bool_decide_eq_false Ht].
      split; [by apply dec_stable|]. by apply negb_false_iff, Z.eqb_eq in Ht. }
    destruct (can_lead _ _ _ _ Hsim Hel Hdec Hs Hr Ht) as (Hnone & q & Hq & Hvotes).
    pose proof (live_becomeLeader cfg m0 alike Hcfg sp _ s _ q Hlive Hr Hnone Hq Hvotes) as Hf. rewrite Ht, E in Hf. by apply Hf.
Qed.

(** A vote: the election of the candidate is under way, and the ballot allows it. *)
Lemma sim_vote y sp me env s s' reply el :
  sim y sp → up_at y me s → el ∈ c_elections (y_cluster y) → RequestVote env (el_args el) s = Ok (s', reply) → in_bounds s' →
  let c' := add_reply me (el_args el) reply (set_node me (Up s') (y_cluster y)) in
  let y' := set_cluster (if rvr_VoteGranted reply
    then add_vote (mkVote me (term_of el) (candidate el)) c' else c') y in
  cinv (y_cluster y') → ∃ sp', rtc (astep cfg) sp sp' ∧ sim y' sp'.
Proof using All.
  intros Hsim Hs Hel He [Hb _] c' y' Hc. pose proof Hsim as []. pose proof (sim_live _ _ _ _ Hsim Hs) as Hlive.
  destruct (mo_elections _ _ _ _ _ si_messages _ Hel) as (_ & g & Hg & E1 & E2).
  pose proof (live_vote cfg m0 alike Hcfg sp me s _ env (el_args el) g Hlive Hg E1 E2 (λ v, vote_ballot _ _ _ _ v Hsim Hs)) as Hf.
  rewrite He in Hf. specialize (Hf Hb). unfold y' in *. destruct (rvr_VoteGranted reply).
  - destruct Hf as (sp1 & Hr1 & h & Eh & Hstep & Hlive1). set (v := mkAVote _ _ _ h) in *. pose proof Hr1 as (Hrtc & Hoth & _).
    destruct (lreach_inv cfg _ _ _ si_spec Hr1) as [Hsp1 _]. destruct (ainv_step cfg _ _ Hsp1 Hstep) as [_ Hgr]. rewrite Eh in Hgr.
    exists (with_vote v sp1). split; [eapply rtc_r; [exact Hrtc|exact Hstep]|]. eapply (sim_move y sp _ _ me (Up s')); try done.
    + destruct si_votes as [V1 V2]. simpl. rewrite Eh. split.
      * intros w Hw. unfold add_avote in Hw. simpl. destruct (h_leads _ !! _) in Hw; [by right; apply V1|].
        simpl in Hw. apply elem_of_cons in Hw as [->|Hw]; [by left|by right; apply V1].
      * intros w Hw. rewrite add_avote_leads. simpl in Hw. apply elem_of_cons in Hw as [->|Hw].
        -- unfold add_avote. simpl. destruct (h_leads (sp_hist sp) !! _) eqn:HL; [left; by eexists|].
           right. exists v. split_and!; try done. apply elem_of_cons. by left.
        -- destruct (V2 w Hw) as [?|(z & Hz & Ez)]; [by left|]. right. exists z. split; [|done]. simpl in Hgr. rewrite Eh in Hgr. by apply (gr_votes _ _ Hgr).
    + eapply messages_ok_mail; [|eapply messages_ok_grows; [exact Hgr|exact si_messages]]. done.
    + by intros _; exists s'.
  - destruct Hf as (sp1 & Hr1 & Hlive1). pose proof Hr1 as (Hrtc & Hoth & Ev & _).
    destruct (lreach_inv cfg _ _ _ si_spec Hr1) as [_ Hgr]. exists sp1. split; [done|].
    eapply (sim_move y sp _ _ me (Up s')); try done.
    + by eapply votes_rel_same.
    + eapply messages_ok_mail; [|eapply messages_ok_grows; [exact Hgr|exact si_messages]]. done.
    + by intros _; exists s'.
Qed.

(** A candidacy. *)
Lemma sim_elect y sp me env s s' el won :
  sim y sp → up_at y me s → currentTerm s < 2 ^ 64 - 1 → startElection env s = Ok (s', el, won) → in_bounds s' →
  let y' := set_cluster (set_elections (el :: c_elections (y_cluster y))
    (add_vote (mkVote me (currentTerm s') me) (set_node me (Up s') (y_cluster y)))) y in
  cinv (y_cluster y') → ∃ sp', rtc (astep cfg) sp sp' ∧ sim y' sp'.
Proof using All.
  intros Hsim Hs Hmax He [Hb _] y' Hc. pose proof Hsim as []. pose proof (sim_live _ _ _ _ Hsim Hs) as Hlive.
  destruct (ci_nodes _ si_cluster _ _ Hs) as [Hinv _]. pose proof (ninv_term _ _ Hinv) as H0t.
  pose proof (live_elect cfg m0 alike Hcfg sp me s _ env Hlive (conj H0t Hmax)) as Hf. rewrite He in Hf.
  destruct (Hf Hb) as (sp1 & sp2 & h & Hr1 & Eh1 & Hstep & Hoth2 & Eh2 & Hlive2 & Hel).
  pose proof Hr1 as (Hrtc & Hoth & _). destruct (lreach_inv cfg _ _ _ si_spec Hr1) as [Hsp1 _].
  destruct (ainv_step cfg _ _ Hsp1 Hstep) as [_ Hgr]. rewrite Eh1 in Hgr.
  exists sp2. split; [by eapply rtc_r|]. eapply (sim_move y sp _ _ me (Up s')); try done.
  - intros x Hx. by rewrite Hoth2, Hoth.
  - destruct si_votes as [V1 V2]. set (v := mkAVote _ _ _ h) in *.
    assert (h_leads (sp_hist sp2) = h_leads (sp_hist sp)) as El by (rewrite Eh2, add_avote_leads; done). split.
    + intros w Hw. rewrite Eh2 in Hw. unfold add_avote in Hw. simpl in Hw |- *. destruct (h_leads _ !! _) in Hw; [by right; apply V1|].
      simpl in Hw. apply elem_of_cons in Hw as [->|Hw]; [by left|by right; apply V1].
    + intros w Hw. rewrite El. simpl in Hw. apply elem_of_cons in Hw as [->|Hw].
      * destruct (h_leads (sp_hist sp) !! currentTerm s') eqn:HL; [left; simpl; by rewrite HL|]. right. exists v.
        split_and!; try done. rewrite Eh2. unfold add_avote. simpl. rewrite HL. simpl. apply elem_of_cons. by left.
      * destruct (V2 w Hw) as [?|(z & Hz & Ez)]; [by left|]. right. exists z. split; [|done]. by apply (gr_votes _ _ Hgr).
  - destruct (messages_ok_grows cfg m0 alike _ _ Hgr _ si_messages). split; simpl; try done.
    intros e [->|Hin]%elem_of_cons; [done|]. by apply mo_elections.
  - by intros _; exists s'.
Qed.

(** A reply reaches a candidate. *)
Lemma sim_vote_reply y sp pre el post peer reply s s' ok :
  sim y sp → c_elections (y_cluster y) = pre ++ el :: post → up_at y (candidate el) s →
  vote_reply (term_of el) reply s = Ok (s', ok) → in_bounds s' →
  let y' := set_cluster (set_elections (pre ++ replied peer ok el :: post)
    (set_node (candidate el) (Up s') (y_cluster y))) y in
  cinv (y_cluster y') → ∃ sp', rtc (astep cfg) sp sp' ∧ sim y' sp'.
Proof using All.
  intros Hsim Hels Hs He Hb y' Hc. pose proof Hsim as []. pose proof (sim_live _ _ _ _ Hsim Hs) as Hlive.
  pose proof (live_vote_reply cfg m0 alike Hcfg sp _ s _ (term_of el) reply Hlive) as Hf. rewrite He in Hf.
  destruct (Hf Hb) as (sp1 & Hr1 & Hlive1). pose proof Hr1 as (Hrtc & Hoth & Ev & _).
  destruct (lreach_inv cfg _ _ _ si_spec Hr1) as [_ Hgr]. exists sp1. split; [done|].
  eapply (sim_move y sp _ _ (candidate el) (Up s')); try done.
  - by eapply votes_rel_same.
  - destruct (messages_ok_grows cfg m0 alike _ _ Hgr _ si_messages). split; simpl; try done.
    by eapply replaced_elections; [exact Hels|..].
  - by intros _; exists s'.
Qed.

Lemma sim_tally y sp pre el post peer :
  sim y sp → c_elections (y_cluster y) = pre ++ el :: post →
  let y' := set_cluster (set_elections (pre ++ (tally peer el).1 :: post) (y_cluster y)) y in
  cinv (y_cluster y') → sim y' sp.
Proof.
  intros Hsim Hels y' Hc. pose proof Hsim as []. apply (sim_mail y); try done.
  destruct si_messages. split; simpl; try done. by eapply replaced_elections; [exact Hels|..].
Qed.

Lemma sim_lead y sp el s s' :
  sim y sp → el ∈ c_elections (y_cluster y) → decided el → up_at y (candidate el) s →
  role s = Candidate → currentTerm s = term_of el → becomeLeader (term_of el) s = Ok s' → in_bounds s' →
  let y' := set_cluster (add_promotion (mkPromotion (term_of el) (candidate el) (el_config el))
    (set_node (candidate el) (Up s') (y_cluster y))) y in
  sstep y y' → ∃ sp', rtc (astep cfg) sp sp' ∧ sim y' sp'.
Proof using All.
  intros Hsim Hel Hdec Hs Hr Ht He Hb y' Hstep. pose proof (sim_live _ _ _ _ Hsim Hs) as Hlive.
  destruct (can_lead _ _ _ _ Hsim Hel Hdec Hs Hr Ht) as (Hnone & q & Hq & Hvotes).
  pose proof (live_becomeLeader cfg m0 alike Hcfg sp _ s _ q Hlive Hr Hnone Hq Hvotes) as Hf. rewrite Ht, He in Hf.
  eapply (sim_local y sp y' (candidate el) (Up s') (y_compacting y !! candidate el)); try done; [by apply Hf|]. by intros _; exists s'.
Qed.

(** A request of [replicateTo] is answered. *)
Lemma sim_append y sp me env args s s' reply :
  sim y sp → up_at y me s → args ∈ y_appends y → ae_LeaderID args ≠ me →
  AppendEntries env args s = Ok (s', reply) → in_bounds s' →
  let y' := send_reply me args reply (set_up me s' y) in
  cinv (y_cluster y') → ∃ sp', rtc (astep cfg) sp sp' ∧ sim y' sp'.
Proof using All.
  intros Hsim Hs Ha Hne He [Hb _] y' Hc. pose proof Hsim as []. pose proof (sim_live _ _ _ _ Hsim Hs) as Hlive.
  pose proof (live_append cfg m0 alike Hcfg sp me s _ env args Hlive (mo_appends _ _ _ _ _ si_messages _ Ha) Hne) as Hf.
  rewrite He in Hf. destruct (Hf Hb) as (sp1 & Hr1 & Hlive1 & Hgr & Hreply). pose proof Hr1 as (Hrtc & Hoth & Ev & _).
  exists sp1. split; [done|]. eapply (sim_move y sp _ _ me (Up s')); try done.
  - by eapply votes_rel_same.
  - destruct (messages_ok_grows cfg m0 alike _ _ Hgr _ si_messages). split; simpl; try done.
    intros p x r [[= -> -> ->]|Hin]%elem_of_cons; [done|by apply mo_replies].
  - by intros _; exists s'.
Qed.

Lemma sim_send_snap y sp me term s s' args :
  sim y sp → up_at y me s → snapshot_request term s = (s', args) →
  let y' := match args with Some args => send_snap args (set_up me s' y) | None => set_up me s' y end in
  cinv (y_cluster y') → sim y' sp.
Proof.
  intros Hsim Hs He y' Hc. pose proof Hsim as []. pose proof (sim_live _ _ _ _ Hsim Hs) as Hlive.
  destruct (live_send_snap cfg m0 alike sp me s _ term s' args Hlive He) as [Hlive' Hmsg].
  eapply (sim_move y sp sp y' me (Up s')); unfold y' in *; try done; try (by destruct args).
  - destruct args as [x|]; [|by eapply messages_ok_mail; [|exact si_messages]]. destruct si_messages. split; simpl; try done.
    intros z [->|Hz]%elem_of_cons; [by apply Hmsg|by apply mo_snaps].
  - by intros _; exists s'.
Qed.

(** ** Every step of the cluster is a run of the specification *)

Lemma sim_step y y' sp : sim y sp → sstep y y' → ∃ sp', rtc (astep cfg) sp sp' ∧ sim y' sp'.
Proof using All.
  intros Hsim Hstep. pose proof (sim_cinv _ _ _ Hsim Hstep) as Hc. pose proof Hsim as [].
  pose proof (λ me n Hn, sim_live y sp me n Hsim Hn) as Hlive.
  assert (∀ y'', sim y'' sp → ∃ sp', rtc (astep cfg) sp sp' ∧ sim y'' sp') as Hstay by (intros y'' ?; by exists sp).
  pose proof Hstep as Hstep'.
  destruct Hstep as [me o s s' vs Hs Hm He Hb|me o s s' Hs Hm Hok He Hb|me s Hs|me st tr cf s Hs Hr
    |me env args s s' reply el Hs Hel Ha Hv Hb c'|me env s s' el won Hs Ht He Hb
    |pre el post peer reply s s' ok Hels Hp Hr Hs Hv Hb|pre el post peer Hels Hg|el s s' Hel Hd Hs Hr Ht Hl Hb
    |me peer term s args Hs Hpe Hr|me env args s s' reply Hs Ha Hne He Hb|me r s args Hs Hr|me env args s s' reply Hs Ha He Hb
    |me term s s' args Hs Hr Hb|me env args s s' reply Hs Ha Hne Hk He [Hb _] Herr Hst|me thr s idx term data Hs Hk Ht Hdlen
    |me s s' err idx term data Hs Hk Hst He Hb|me s s' r idx term data Hs Hk He [Hb _]].
  - apply (sim_up y sp me s s' Hsim Hstep' Hs).
    pose proof (live_local cfg m0 alike Hcfg sp me s _ y o (Hlive _ _ Hs) si_messages Hm) as Hf. rewrite He in Hf. by apply Hf.
  - apply (sim_down y sp me _ Hsim Hstep'). by eapply live_panic.
  - apply (sim_down y sp me _ Hsim Hstep'). by eapply live_crash, Hlive.
  - pose proof (Hlive _ _ Hs) as Hl. pose proof Hl as [_ _ _ (_ & Ek & _)]. rewrite Ek in Hl.
    eapply (sim_local y sp _ me (Up s) None); try done. by eapply live_restart.
  - subst args. by apply (sim_vote y sp me env s s' reply el Hsim Hs Hel Hv Hb Hc).
  - by apply (sim_elect y sp me env s s' el won Hsim Hs Ht He Hb Hc).
  - by apply (sim_vote_reply y sp pre el post peer reply s s' ok Hsim Hels Hs Hv Hb Hc).
  - apply Hstay. by apply (sim_tally y sp pre el post peer Hsim Hels Hc).
  - by apply (sim_lead y sp el s s' Hsim Hel Hd Hs Hr Ht Hl Hb Hstep').
  - apply Hstay. apply (sim_mail y); try done. destruct si_messages. split; simpl; try done.
    intros x [->|Hx]%elem_of_cons; [by eapply live_send; [apply (Hlive me)|..]|by apply mo_appends].
  - by apply (sim_append y sp me env args s s' reply Hsim Hs Ha Hne He Hb Hc).
  - apply Hstay. apply (sim_mail y); try done. destruct si_messages. split; simpl; try done.
    intros x [->|Hx]%elem_of_cons; [by eapply live_probing; [apply (Hlive me)|]|by apply mo_probes].
  - apply (sim_up y sp me s s' Hsim Hstep' Hs). destruct Hb as [Hb _].
    pose proof (live_probe cfg m0 alike Hcfg sp me s _ env args (Hlive _ _ Hs) (mo_probes _ _ _ _ _ si_messages _ Ha)) as Hf.
    rewrite He in Hf. by apply Hf.
  - apply Hstay. by apply (sim_send_snap y sp me term s s' args Hsim Hs Hr Hc).
  - apply (sim_up y sp me s s' Hsim Hstep' Hs). pose proof (Hlive _ _ Hs) as Hl. rewrite Hk in Hl |- *.
    by apply (live_install cfg m0 alike Hcfg sp me s env args s' reply Hl (mo_snaps _ _ _ _ _ si_messages _ Ha) Hne He Hb Herr Hst).
  - pose proof (Hlive _ _ Hs) as Hl. rewrite Hk in Hl. apply (live_compact_take cfg m0 alike _ _ _ _ _ _ _ Hl) in Ht; [|exact Hdlen].
    eapply (sim_local y sp _ me (Up s) (Some (mkCompaction idx term data false))); try done; simpl.
    + by apply lsim_ret.
    + by rewrite insert_id.
    + by rewrite lookup_insert_eq.
    + intros x Hx. by rewrite lookup_insert_ne.
    + by intros _; exists s.
  - pose proof (Hlive _ _ Hs) as Hl. rewrite Hk in Hl. apply (live_compact_save cfg m0 alike Hcfg _ _ _ _ _ _ _ _ Hl Hst) in He.
    eapply (sim_local y sp _ me (Up s') (match err with None => Some (mkCompaction idx term data true) | Some _ => None end)); try done; simpl.
    + by apply lsim_ret.
    + destruct err; [by rewrite lookup_delete_eq|by rewrite lookup_insert_eq].
    + intros x Hx. destruct err; [by rewrite lookup_delete_ne|by rewrite lookup_insert_ne].
    + by intros _; exists s'.
  - pose proof (Hlive _ _ Hs) as Hl. rewrite Hk in Hl. apply (live_compact_finish cfg m0 alike Hcfg _ _ _ _ _ _ _ _ Hl) in He; [|exact Hb].
    eapply (sim_local y sp _ me (Up s') None); try done; simpl.
    + by apply lsim_ret.
    + by rewrite lookup_delete_eq.
    + intros x Hx. by rewrite lookup_delete_ne.
Qed.

(** ** Runs *)

Abbreviation sinitial := (sinitial (SM := SM) (St := St) cfg m0).

Definition spec0 : spec := mkSpec (λ _, mkANode 0 0 Follower [] 0) (mkHistory [] [] ∅ []).

Lemma sim_initial y : sinitial y → ainitial spec0 ∧ sim y spec0.
Proof using All.
  intros Hi. assert (ainitial spec0) as Hi0 by done. split; [done|].
  pose proof (cinv_initial _ (sinitial_cluster cfg m0 y Hi)) as Hc. destruct Hi as (V & R & E & P & Hn & M1 & M2 & M3 & M4 & K).
  assert (∀ hs (st : St), fresh_storage st → RaftRelation.snapshot_on (SM := SM) cfg m0 alike hs st [] 0) as Hfresh.
  { intros hs st (_ & _ & Hs). unfold RaftRelation.snapshot_on. destruct st_Snapshot as [ops|]; [|done]. left. auto. }
  split; [by apply ainv_initial|done| | | | |].
  - intros t c L HL. simpl in HL. by rewrite lookup_empty in HL.
  - split; simpl; [by intros v ?%elem_of_nil|]. rewrite V. by intros v ?%elem_of_nil.
  - split; rewrite ?E, ?M1, ?M2, ?M3, ?M4; intros *; by intros ?%elem_of_nil.
  - intros me n Hme. destruct (Hn me n Hme) as (Hin & tr & cf & st & -> & Hst). split; [done|]. rewrite K, lookup_empty. split; [|split; [done|]].
    + split; simpl; try done; [apply rep_initial|by apply machine_at_0|]. exists st. split; [done|]. by apply Hfresh.
    + exists 0. split; [done|]. exists st, [zeroEntry]. split_and!; [done|apply rep_initial|done| | |by apply Hfresh].
      * left. by split_and!; [apply Hst|..].
      * intros ops Hops. exists 0%nat. split; [by apply Hst|]. by left.
  - intros me c Hk. by rewrite K, lookup_empty in Hk.
Qed.

Lemma sim_run y y' sp : sim y sp → rtc sstep y y' → ∃ sp', rtc (astep cfg) sp sp' ∧ sim y' sp'.
Proof using All.
  intros Hsim Hrun. revert sp Hsim. induction Hrun as [y|y y1 y' Hs _ IH]; intros sp Hsim; [by exists sp|].
  destruct (sim_step _ _ _ Hsim Hs) as (sp1 & R1 & Hsim1). destruct (IH sp1 Hsim1) as (sp2 & R2 & Hsim2).
  exists sp2. split; [by etrans|done].
Qed.

(** Two moments of a run, seen with the later history. *)
Lemma two_moments y0 y1 y2 :
  sinitial y0 → rtc sstep y0 y1 → rtc sstep y1 y2 →
  ∃ sp1 sp2, sim y1 sp1 ∧ sim y2 sp2 ∧ grows (sp_hist sp1) (sp_hist sp2).
Proof using All.
  intros Hi R1 R2. destruct (sim_initial y0 Hi) as [_ Hs0]. destruct (sim_run _ _ _ Hs0 R1) as (sp1 & _ & Hs1).
  destruct (sim_run _ _ _ Hs1 R2) as (sp2 & A2 & Hs2). exists sp1, sp2. split_and!; [done..|].
  apply (ainv_steps cfg sp1 sp2); [apply Hs1|done].
Qed.

Lemma up_mem y sp me s : sim y sp → up_at y me s → mem_rel (SM := SM) (St := St) cfg m0 alike (sp_hist sp) me s (sp_node sp me).
Proof. intros [] Hs. by apply si_nodes in Hs as [_ (? & _)]. Qed.

Lemma up_valid y sp hs me : sim y sp → grows (sp_hist sp) hs → valid hs (a_log (sp_node sp me)).
Proof. intros [] Hgr. eapply valid_grows; [exact Hgr|]. apply (no_valid _ _ _ _ (proj2 si_spec me)). Qed.

Lemma up_committed y sp hs me :
  sim y sp → grows (sp_hist sp) hs → commit_point cfg hs (a_log (sp_node sp me)) (a_commit (sp_node sp me)).
Proof. intros [] Hgr. eapply commit_point_grows; [exact Hgr|]. apply (no_commit _ _ _ _ (proj2 si_spec me)). Qed.

(** The committed logs of two servers, at two moments: one is a prefix of the other. *)
Lemma committed_agree y1 y2 sp1 sp2 me1 me2 (m : nat) :
  sim y1 sp1 → sim y2 sp2 → grows (sp_hist sp1) (sp_hist sp2) →
  (m ≤ a_commit (sp_node sp1 me1))%nat → (m ≤ a_commit (sp_node sp2 me2))%nat →
  take m (a_log (sp_node sp1 me1)) = take m (a_log (sp_node sp2 me2)).
Proof using Hcfg.
  intros H1 H2 Hgr Hm1 Hm2. pose proof (up_valid y1 sp1 _ me1 H1 Hgr) as V1. pose proof (up_committed y1 sp1 _ me1 H1 Hgr) as C1.
  pose proof (up_valid y2 sp2 (sp_hist sp2) me2 H2 ltac:(done)) as V2.
  pose proof (up_committed y2 sp2 (sp_hist sp2) me2 H2 ltac:(done)) as C2.
  pose proof (proj1 (si_spec _ _ _ _ _ H2)) as Hh.
  destruct (decide (a_commit (sp_node sp1 me1) ≤ a_commit (sp_node sp2 me2))%nat).
  - apply (take_agree _ (a_commit (sp_node sp1 me1))); [done|]. by eapply commit_points_agree.
  - apply (take_agree _ (a_commit (sp_node sp2 me2))); [done|]. symmetry. eapply commit_points_agree; [done..|lia].
Qed.

(** An entry of a server's log is the entry of its node's. *)
Lemma up_entry y sp me s i :
  sim y sp → up_at y me s → baseIndex (log s) < i →
  entryAt (log s) i = a_log (sp_node sp me) !! pred (Z.to_nat i) ∧ 0 < i.
Proof.
  intros Hsim Hs Hi. pose proof (mr_log _ _ _ _ _ _ _ (up_mem _ _ _ _ Hsim Hs)) as Hrep. pose proof (base_Z _ _ Hrep) as Hb.
  rewrite <- (rep_entry _ _ Hrep) by lia. split; [f_equal; lia|lia].
Qed.

(** C1: The servers implement Raft.  Every run of a cluster of one configuration, with
    messages lost, delayed, repeated and reordered, crashes, failing writes, restarts,
    compaction and snapshot transfer, is a run of the abstract protocol, in which a
    server's term, role, log and commit index are those of its node: what is left of a
    compacted log stands for the node's whole log.  The runs are those of [sstep]: no
    membership change, no [InstallSnapshot] on a server between the locked regions of
    its [MaybeCompact] or one that counts an error, last index below 2^62 and a state
    that fits the storage, commands of the application. *)
Theorem cluster_refines_spec y0 y :
  sinitial y0 → rtc sstep y0 y →
  ∃ sp0 sp, ainitial sp0 ∧ rtc (astep cfg) sp0 sp ∧
    ∀ me s, up_at y me s →
      let a := sp_node sp me in
      currentTerm s = a_term a ∧ role s = a_role a ∧ rep (log s) (a_log a) ∧ commitIndex s = Z.of_nat (a_commit a).
Proof using All.
  intros Hi Hrun. destruct (sim_initial y0 Hi) as [Hi0 Hs0]. destruct (sim_run _ _ _ Hs0 Hrun) as (sp & Ha & Hsim).
  exists spec0, sp. split_and!; [done..|]. intros me s Hs. by destruct (up_mem _ _ _ _ Hsim Hs).
Qed.

(** C2: State Machine Safety, in a cluster whose configuration is fixed.  In every run
    of [sstep] (elections, replication, reads, compaction, snapshot transfer, crashes,
    failing writes and restarts, messages lost, late and repeated), whatever two servers
    have committed, at the same or at different moments, they have committed the same
    entry at every index that both logs still hold.  The runs have no [AddServer] or
    [RemoveServer] (with them it is false: [RaftScenarios.crossed_changes_diverge]), no
    [InstallSnapshot] on a server between the locked regions of its [MaybeCompact], no
    [InstallSnapshot] that counts an error, and stay within bounds: last index below
    2^62, a state that fits the storage, commands of the application. *)
Theorem state_machine_safety y0 y1 y2 a b s t i :
  sinitial y0 → rtc sstep y0 y1 → rtc sstep y1 y2 → up_at y1 a s → up_at y2 b t →
  baseIndex (log s) < i ≤ commitIndex s → baseIndex (log t) < i ≤ commitIndex t →
  ∃ e, entryAt (log s) i = Some e ∧ entryAt (log t) i = Some e.
Proof using All.
  intros Hi R1 R2 Ha Hb Hs Ht. destruct (two_moments _ _ _ Hi R1 R2) as (sp1 & sp2 & H1 & H2 & Hgr).
  destruct (up_entry _ _ _ _ i H1 Ha ltac:(lia)) as [E1 Hpos]. destruct (up_entry _ _ _ _ i H2 Hb ltac:(lia)) as [E2 _].
  pose proof (mr_commit _ _ _ _ _ _ _ (up_mem _ _ _ _ H1 Ha)) as C1. pose proof (mr_commit _ _ _ _ _ _ _ (up_mem _ _ _ _ H2 Hb)) as C2.
  pose proof (committed_agree y1 y2 sp1 sp2 a b (Z.to_nat i) H1 H2 Hgr ltac:(lia) ltac:(lia)) as Htake.
  pose proof (commit_point_length cfg _ _ _ (up_committed y1 sp1 _ a H1 ltac:(done))) as Hlen.
  destruct (lookup_lt_is_Some_2 (a_log (sp_node sp1 a)) (pred (Z.to_nat i))) as [e He]; [lia|].
  exists e. rewrite E1, E2, He. split; [done|]. rewrite <- He. symmetry. apply (take_lookup_agree (Z.to_nat i)); [lia|done].
Qed.

(** C3: Replicas agree, in a cluster whose configuration is fixed.  In every run of
    [sstep], two servers that have applied equally many entries, at the same or at
    different moments, before or after the crashes, restarts, compactions and snapshot
    transfers of the run, hold state machines that are alike (for the bank: the same
    ledger).  The runs have no membership change, no [InstallSnapshot] on a server
    between the locked regions of its [MaybeCompact] (with one it is false:
    [RaftScenarios.overtaken_compaction_loses_entries]), no [InstallSnapshot] that
    counts an error of the storage or of the state machine, and stay within bounds: last
    index below 2^62, a state and snapshots that fit the storage, commands of the
    application. *)
Theorem replicas_agree y0 y1 y2 a b s t :
  sinitial y0 → rtc sstep y0 y1 → rtc sstep y1 y2 → up_at y1 a s → up_at y2 b t → lastApplied s = lastApplied t →
  ∃ m m', sm s = Some m ∧ sm t = Some m' ∧ alike m m'.
Proof using All.
  intros Hi R1 R2 Ha Hb El. destruct (two_moments _ _ _ Hi R1 R2) as (sp1 & sp2 & H1 & H2 & Hgr).
  destruct (up_mem _ _ _ _ H1 Ha) as [_ _ _ _ _ _ _ A1 _ (x & m & Hx & Em & Hm) _ _ _ _].
  destruct (up_mem _ _ _ _ H2 Hb) as [_ _ _ _ _ _ _ A2 _ (x' & m' & Hx' & Em' & Hm') _ _ _ _].
  pose proof (committed_agree y1 y2 sp1 sp2 a b (a_commit (sp_node sp1 a)) H1 H2 Hgr ltac:(lia) ltac:(lia)) as Htake.
  replace (a_commit (sp_node sp2 b)) with (a_commit (sp_node sp1 a)) in Hx' by lia.
  rewrite Htake, Hx' in Hx. injection Hx as ->. exists m, m'. split_and!; [done..|]. by rewrite <- Hm.
Qed.

(** C7: Leader Completeness, in a cluster whose configuration is fixed.  In every run of
    [sstep], what a server has committed is in the log of every server that leads then
    or later, in the same or a later term than the one in which it was known to be
    committed.  The runs have no [AddServer] or [RemoveServer] (with them it is false:
    [RaftScenarios.crossed_changes_diverge]), no [InstallSnapshot] on a server between
    the locked regions of its [MaybeCompact] and none that counts an error, and stay
    within bounds: last index below 2^62, a state that fits the storage, commands of the
    application. *)
Theorem leader_completeness y0 y1 y2 a b s t i :
  sinitial y0 → rtc sstep y0 y1 → rtc sstep y1 y2 → up_at y1 a s → up_at y2 b t →
  role t = Leader → currentTerm s ≤ currentTerm t → i ≤ commitIndex s →
  i ≤ lastIndex (log t) ∧ (baseIndex (log s) < i → baseIndex (log t) < i → entryAt (log t) i = entryAt (log s) i).
Proof using All.
  intros Hi R1 R2 Ha Hb Hr Ht Hc. destruct (two_moments _ _ _ Hi R1 R2) as (sp1 & sp2 & H1 & H2 & Hgr).
  pose proof (up_mem _ _ _ _ H1 Ha) as M1. pose proof (up_mem _ _ _ _ H2 Hb) as M2.
  pose proof (proj2 (si_spec _ _ _ _ _ H2) b) as N2. destruct (no_leader _ _ _ _ N2) as [_ HL]; [by rewrite <- (mr_role _ _ _ _ _ _ _ M2)|].
  destruct (commit_point_lead cfg (sp_hist sp2) (proj1 (si_spec _ _ _ _ _ H2)) (a_log (sp_node sp1 a)) (a_commit (sp_node sp1 a))
    (a_term (sp_node sp2 b)) b (a_log (sp_node sp2 b))) as [Htake Hlen]; [by eapply up_valid|by eapply up_committed| |done|].
  { pose proof (proj2 (si_spec _ _ _ _ _ H1) a) as N1. eapply Forall_impl; [apply (no_terms _ _ _ _ N1)|]. intros e He. simpl in He.
    pose proof (no_saved _ _ _ _ N1). rewrite (mr_term _ _ _ _ _ _ _ M1), (mr_term _ _ _ _ _ _ _ M2) in Ht. lia. }
  pose proof (mr_commit _ _ _ _ _ _ _ M1) as C1. pose proof (rep_last _ _ (mr_log _ _ _ _ _ _ _ M2)) as Hlast.
  split; [lia|]. intros B1 B2. destruct (up_entry _ _ _ _ i H1 Ha B1) as [-> Hpos]. destruct (up_entry _ _ _ _ i H2 Hb B2) as [-> _].
  symmetry. apply (take_lookup_agree (a_commit (sp_node sp1 a))); [lia|done].
Qed.

(** C8: Log Matching, in a cluster whose configuration is fixed.  In every run of
    [sstep], if two logs, at the same or at different moments, have entries of one term
    at one index, they have the same entries at every index up to it that both still
    hold.  The runs have no [AddServer] or [RemoveServer] (a leader that removed itself
    can be one of two in a term: [RaftScenarios.self_removed_leader_reelected]), no
    [InstallSnapshot] on a server between the locked regions of its [MaybeCompact] and
    none that counts an error, and stay within bounds: last index below 2^62, a state
    that fits the storage, commands of the application. *)
Theorem log_matching y0 y1 y2 a b s t i j x z :
  sinitial y0 → rtc sstep y0 y1 → rtc sstep y1 y2 → up_at y1 a s → up_at y2 b t →
  baseIndex (log s) < j ≤ i → baseIndex (log t) < j →
  entryAt (log s) i = Some x → entryAt (log t) i = Some z → e_Term x = e_Term z →
  entryAt (log s) j = entryAt (log t) j.
Proof using All.
  intros Hi R1 R2 Ha Hb Hs Ht. destruct (two_moments _ _ _ Hi R1 R2) as (sp1 & sp2 & H1 & H2 & Hgr).
  destruct (up_entry _ _ _ _ i H1 Ha ltac:(lia)) as [-> Hpos]. destruct (up_entry _ _ _ _ i H2 Hb ltac:(lia)) as [-> _].
  destruct (up_entry _ _ _ _ j H1 Ha ltac:(lia)) as [-> Hposj]. destruct (up_entry _ _ _ _ j H2 Hb ltac:(lia)) as [-> _].
  intros Hx Hz E. apply (take_lookup_agree (S (pred (Z.to_nat i)))); [lia|].
  by eapply (valid_matching (sp_hist sp2)); [eapply up_valid|eapply up_valid| | |].
Qed.



End Safety.
