(* ===== verification/RaftDisk.v ===== *)
(** * The implementations behind Raft's interfaces
    (src/storage/raftstate.go, src/ledger/codec.go, src/shard/machine.go)

    [storage.RaftState] discharges the contract [StorageLaws] for every state up
    to the record limit; [ledger.Machine] and [shard.Machine] are the state
    machines Raft replicates, the second one indexed.  The concrete runs of the
    Raft theorems are over these implementations. *)

From S2P Require Import Prelude GoLib Storage RaftTypes RaftLog RaftCodec RaftServer RaftLoop RaftSnapshot RaftVotes RaftNode.
From S2P Require LedgerCodec LedgerSnapshot ShardMachine ShardSnapshot.

Local Open Scope Z_scope.

(** ** storage.RaftState *)

Section RaftState.
Context (r : RaftState) (tmp : string).

Definition disk_applied : AppliedStorage disk :=
  mkAppliedStorage disk (λ i d, (SaveApplied r i d, None)) (λ d, inr (LoadApplied r d)).

Definition disk_snapshots : SnapshotStorage disk :=
  mkSnapshotStorage disk (λ i t b d, (SaveSnapshot r tmp i t b d, None)) (λ d, inr (LoadSnapshot r d)).

Definition disk_storage : RaftTypes.Storage disk := {|
  st_Save := λ b d, (Save r tmp b d, None);
  st_Load := λ d, inr (default [] (Load r d));
  st_Applied := Some disk_applied;
  st_Snapshot := Some disk_snapshots
|}.

Context (Htmp : tmp ≠ rs_path r) (Hsnap : rs_path r ≠ snapshotPath r)
        (Happ : rs_applied r ≠ Some (rs_path r)).

Lemma Load_Save b d : fits b → Load r (Save r tmp b d) = Some b.
Proof using.
  intros Hb. unfold Load, Save, replace_file. rewrite lookup_insert_eq. simpl.
  rewrite readFramed_frame, fits_u32, Z.eqb_refl by done.
  destruct (Z.ltb_spec maxRecordSize (Z.of_nat (length b))); [unfold fits in *; lia|done].
Qed.

(** The file storage keeps the contract Raft relies on. *)
Lemma disk_laws : @StorageLaws disk disk_storage fits.
Proof using Htmp Hsnap Happ.
  split.
  - intros b d d' Hb [= <-]. simpl. by rewrite Load_Save.
  - intros b d d' e _ [= _ ?].
  - intros ops i d [= <-]. simpl. unfold SaveApplied, Load. destruct (rs_applied r) as [p|]; [|done].
    rewrite lookup_insert_ne; [done|]. congruence.
  - intros ops i t b d [= <-]. simpl. unfold SaveSnapshot, replace_file, Load.
    by rewrite lookup_insert_ne, lookup_delete_ne, lookup_insert_ne by done.
Qed.
End RaftState.

(** ** The state machines *)

#[global] Instance ledger_machine : StateMachine LedgerCodec.Machine := {|
  sm_Apply := λ cmd m, fst <$> LedgerCodec.Machine_Apply cmd m;
  sm_ApplyAt := None;
  sm_Snapshotter := Some (mkSnapshotter _ (λ m, inr (LedgerSnapshot.Machine_Snapshot m))
                            LedgerSnapshot.Machine_RestoreSnapshot)
|}.

#[global] Instance shard_machine : StateMachine ShardMachine.Machine := {|
  sm_Apply := λ cmd m, fst <$> ShardMachine.Apply cmd m;
  sm_ApplyAt := Some (λ i cmd m, fst <$> ShardMachine.ApplyAt i cmd m);
  sm_Snapshotter := Some (mkSnapshotter _ (λ m, inr (ShardSnapshot.Snapshot m))
                            ShardSnapshot.RestoreSnapshot)
|}.

(** ** A cluster of one server's disk *)

#[global] Instance sample_storage : RaftTypes.Storage disk := disk_storage st_sample "/data/tmp".

#[global] Instance sample_laws : StorageLaws disk fits.
Proof. apply disk_laws; by vm_compute. Qed.

Abbreviation bank_server := (Server LedgerCodec.Machine disk).

Definition bank_machine : LedgerCodec.Machine := LedgerCodec.NewMachine Ledger.New.

Definition new_server (me : NodeID) (ps : list NodeID) (d : disk) : bank_server :=
  SetStorage d (NewServerWith me ps (Some bank_machine) SnapshotCapable DefaultConfig).

(** ** Concrete runs *)

Definition three : list NodeID := ["n1"; "n2"; "n3"].
Definition env0 : Env := mkEnv 0 0.

(** The state after an operation. *)
Definition after (o : op) (s : bank_server) : bank_server :=
  match exec o s with Ok (s', _) => s' | Panic s' => s' end.

(** The state after a crash and a restart with the same flags. *)
Definition reboot (s : bank_server) : bank_server :=
  match Restore (new_server (id s) three (default ∅ (storage s))) with
  | Ok (inr s') => s'
  | _ => s
  end.

Definition entry_okb (e : LogEntry) : bool :=
  (0 <=? e_Term e) && (e_Term e <? 2 ^ 64) && (0 <=? e_Index e) && (e_Index e <? 2 ^ 64)
  && (Z.of_nat (length (cmd_bytes (e_Command e))) <? 2 ^ 32).

(** [persistable], decided. *)
Definition persistableb (s : bank_server) : bool :=
  (0 <=? currentTerm s) && (currentTerm s <? 2 ^ 64)
  && match votedFor s with Some v => slen v <? 2 ^ 16 | None => true end
  && (Z.of_nat (length (log s)) <? 2 ^ 64) && forallb entry_okb (log s)
  && (Z.of_nat (length (encoded s)) <=? maxRecordSize).

Lemma persistableb_spec (s : bank_server) :
  persistableb s = true → persistable (storable := fits) s.
Proof.
  unfold persistableb. intros H. bool_to_prop. split; [split|].
  - by split.
  - intros v Hv. rewrite Hv in *. by apply Z.ltb_lt.
  - unfold in_u64. lia.
  - apply Forall_forall. intros e He. assert (entry_okb e = true) as Hok.
    { rewrite forallb_forall in *. by apply H1, list_elem_of_In. }
    unfold entry_okb in Hok. bool_to_prop. unfold entry_ok, in_u64, in_u32. lia.
  - done.
Qed.

Lemma crash_step (s : bank_server) me d :
  id s = me → storage s = Some d → nstep (storable := fits) (Up s) [] (Down me (Some d)).
Proof. intros <- <-. apply nstep_crash. Qed.

Lemma restart_step me d (s : bank_server) :
  Restore (new_server me three d) = Ok (inr s) → nstep (storable := fits) (Down me (Some d)) [] (Up s).
Proof. apply nstep_restart. Qed.

Lemma op_step o (s s' : bank_server) vs :
  op_ok o s → exec o s = Ok (s', vs) → persistableb s' = true →
  nstep (storable := fits) (Up s) vs (Up s').
Proof. intros ?? ?%persistableb_spec. by eapply nstep_op. Qed.

Definition vote_for (c : NodeID) (t : Z) : op := OpRequestVote env0 (mkRequestVote t c 0 0).

Definition voted : bank_server := after (vote_for "n2" 1) (new_server "n1" three ∅).
Definition voted_disk : disk := default ∅ (storage voted).
Definition rebooted : bank_server := reboot voted.

Lemma voted_run :
  nrun (storable := fits) (Up (new_server "n1" three ∅)) [(1, "n2"); (1, "n2")]
    (Up (after (vote_for "n2" 1) rebooted)).
Proof.
  apply (nrun_step _ (Up rebooted) _ [(1, "n2")] [(1, "n2")]).
  - apply (nrun_step _ (Down "n1" (Some voted_disk)) _ [(1, "n2")] []).
    + apply (nrun_step _ (Up voted) _ [(1, "n2")] []).
      * apply (nrun_step _ (Up (new_server "n1" three ∅)) _ [] [(1, "n2")]); [apply nrun_start|].
        apply (op_step (vote_for "n2" 1)); [exact I|vm_compute; reflexivity..].
      * apply crash_step; vm_compute; reflexivity.
    + apply restart_step. vm_compute. reflexivity.
  - apply (op_step (vote_for "n2" 1)); [exact I|vm_compute; reflexivity..].
Qed.

(** n1 votes for n2 in term 1, crashes, restarts from disk and is asked again:
    it grants n2 and refuses n3. *)
Lemma one_vote_per_term_witness :
  exec (vote_for "n3" 1) rebooted = Ok (after (vote_for "n3" 1) rebooted, []) ∧
  ∀ t a b, (t, a) ∈ [(1, "n2"); (1, "n2")] → (t, b) ∈ [(1, "n2"); (1, "n2")] → a = b.
Proof.
  split; [vm_compute; reflexivity|].
  refine (one_vote_per_term (storable := fits) "n1" three (Some bank_machine) SnapshotCapable DefaultConfig
    ∅ _ _ _ voted_run). reflexivity.
Defined.
