(* ===== verification/RaftBank.v ===== *)
(** * The bank behind Raft's contracts
    (src/storage/raftstate.go, src/ledger/snapshot.go, src/ledger/codec.go)

    [storage.RaftState] discharges [RecoveryLaws] and [ledger.Machine] discharges
    [SnapshotLaws]: a snapshot carries the ledger of the machine, and two machines
    with one ledger stay that way.  The machine's tables of results answer clients
    and are not part of it. *)

From S2P Require Import Prelude GoLib Reader Hlc Storage Ledger LedgerInv LedgerCodec LedgerSnapshot.
From S2P Require Import RaftTypes RaftServer RaftSnapshot RaftCommit RaftDisk RaftCluster.
From S2P Require RaftSpec.

Local Open Scope Z_scope.

(** ** storage.RaftState *)

Definition snapshot_fits (index term : Z) (data : bytes) : Prop :=
  in_u64 index ∧ in_u64 term ∧ in_u64 (Z.of_nat (length data)).

Lemma applied_reload index file : in_u64 index → AppliedFile_Load (AppliedFile_Save index file) = index.
Proof.
  intros Hi. eapply (AppliedFile_roundtrip index file [] (applied_record index)); [done..|].
  intros E%(f_equal length). rewrite length_applied_record in E. done.
Qed.

Lemma snapshot_reload index term data :
  snapshot_fits index term data →
  decodeSnapshotRecord (encodeSnapshotRecord index term data) = Some (index, term, data).
Proof.
  intros (Hi & Ht & Hn).
  apply (snapshot_record_roundtrip index term data [] (encodeSnapshotRecord index term data) [Byte.x00]); try done.
Qed.

Section RaftState.
Context (r : RaftState) (tmp : string).
Context (Htmp : tmp ≠ rs_path r) (Hsnap : rs_path r ≠ snapshotPath r) (Happ : rs_applied r ≠ Some (rs_path r)).
Context (Htmp2 : tmp ≠ snapshotPath r) (Happ2 : rs_applied r ≠ Some (snapshotPath r)) (Happ3 : rs_applied r ≠ Some tmp).

Lemma disk_recovery : @RecoveryLaws disk (disk_storage r tmp) snapshot_fits.
Proof using All.
  split.
  - intros ops b d [= <-]. simpl. unfold LoadApplied, Save, replace_file. destruct (rs_applied r) as [p|]; [|done].
    by rewrite lookup_insert_ne, lookup_delete_ne, lookup_insert_ne by congruence.
  - intros ops b d [= <-]. simpl. unfold LoadSnapshot, Save, replace_file.
    by rewrite lookup_insert_ne, lookup_delete_ne, lookup_insert_ne by congruence.
  - intros ops i d [= <-] Hi. simpl. unfold LoadApplied, SaveApplied. destruct (rs_applied r) as [p|]; [|by right].
    left. rewrite lookup_insert_eq. simpl. by rewrite applied_reload.
  - intros ops ops' i d [= <-] [= <-]. simpl. unfold LoadSnapshot, SaveApplied. destruct (rs_applied r) as [p|]; [|done].
    by rewrite lookup_insert_ne by congruence.
  - intros ops i t b d [= <-] Hfit. left. simpl. unfold LoadSnapshot, SaveSnapshot, replace_file.
    rewrite lookup_insert_eq. simpl. by rewrite snapshot_reload.
  - intros ops ops' i t b d [= <-] [= <-]. simpl. unfold LoadApplied, SaveSnapshot, replace_file.
    destruct (rs_applied r) as [p|]; [|done]. by rewrite lookup_insert_ne, lookup_delete_ne, lookup_insert_ne by congruence.
Qed.
End RaftState.

#[global] Instance sample_recovery : RecoveryLaws disk snapshot_fits.
Proof. apply disk_recovery; by vm_compute. Qed.

(** ** Ledgers hold values of their Go types *)

Definition typed_command (c : Command) : Prop :=
  in_u8 (c_Op c) ∧ in_i64 (c_Amount c) ∧ in_u64 (Wall (c_Timestamp c)) ∧ in_u32 (Logical (c_Timestamp c)).

Definition typed_transaction (t : Transaction) : Prop :=
  in_u64 (t_Seq t) ∧ in_u8 (t_Op t) ∧ in_u64 (Wall (t_Timestamp t)) ∧ in_u32 (Logical (t_Timestamp t)) ∧
  Forall (λ e, in_i64 (e_Amount e)) (t_Entries t).

Record typed (s : State) : Prop := {
  ty_seq : in_u64 (Ledger.seq s);
  ty_balances : map_Forall (λ _, in_i64) (balances s);
  ty_applied : map_Forall (λ _ r, in_i64 (r_Balance r)) (applied s);
  ty_fingerprints : map_Forall (λ _, in_u64) (fingerprints s);
  ty_reserves : map_Forall (λ _ r, in_i64 (rv_Amount r)) (reserves s);
  ty_history : Forall typed_transaction (history s)
}.

Lemma in_i64_0 : in_i64 0.
Proof. unfold in_i64. lia. Qed.
#[local] Hint Resolve in_i64_0 i64_range : core.

Lemma Decode_typed data c : Decode data = Some c → typed_command c.
Proof.
  unfold Decode. destruct (ReadByte data) as [[op r]|]; [|done]. cbn [mbind option_bind].
  destruct (readStr r) as [[key r1]|]; [|done]. cbn [mbind option_bind].
  destruct (readStr r1) as [[from r2]|]; [|done]. cbn [mbind option_bind].
  destruct (readStr r2) as [[to r3]|]; [|done]. cbn [mbind option_bind].
  destruct (Read 8 r3) as [[amt r4]|]; [|done]. cbn [mbind option_bind]. pose proof (byte_Z_range op) as Hop.
  unfold ReadFull. destruct (Nat.leb_spec 12 (length r4)) as [H12|].
  - intros [= <-]. split_and!; simpl; [done|by auto| |].
    + pose proof (le_get_range (take 8 (take 12 r4))) as Hr. rewrite take_take, length_take in Hr.
      replace (Z.of_nat ((8 `min` 12) `min` length r4)) with 8 in Hr by lia. rewrite take_take. exact Hr.
    + pose proof (le_get_range (drop 8 (take 12 r4))) as Hr. rewrite length_drop, length_take in Hr.
      replace (Z.of_nat (12 `min` length r4 - 8)) with 4 in Hr by lia. exact Hr.
  - destruct (negb _); [done|]. intros [= <-]. by split_and!; simpl; auto.
Qed.

Lemma record_typed c es s s' :
  typed_command c → Forall (λ e, in_i64 (e_Amount e)) es → typed s → record c es s = Some s' → typed s'.
Proof.
  intros (? & ? & ? & ?) Hes []. unfold record. destruct (negb _); [done|]. intros [= <-]. split; simpl; try done.
  - apply u64_range.
  - apply Forall_app. split; [done|]. constructor; [|done]. split_and!; simpl; try done. apply u64_range.
Qed.

Lemma set_balance_typed a m s : typed s → in_i64 m → typed (set_balance a m s).
Proof. intros [] Hm. split; simpl; try done. by apply map_Forall_insert_2. Qed.

Lemma balance_of_typed s a : typed s → in_i64 (balance_of s a).
Proof. intros []. unfold balance_of. destruct (balances s !! a) as [b|] eqn:Eb; simpl; [by apply (ty_balances0 a)|auto]. Qed.

Lemma available_typed s a : in_i64 (availableLocked s a).1.
Proof. unfold availableLocked. destruct (balances s !! a); simpl; auto. Qed.

(** The result of an operation on a ledger. *)
Definition typed_result (o : option (State * Result)) : Prop :=
  match o with Some (s, res) => typed s ∧ in_i64 (r_Balance res) | None => True end.

Lemma recorded_typed c es s f :
  typed_command c → Forall (λ e, in_i64 (e_Amount e)) es → typed s → (∀ s', typed s' → in_i64 (r_Balance (f s'))) →
  typed_result (s' ← record c es s; Some (s', f s')).
Proof.
  intros Hc Hes Hs Hf. destruct (record c es s) as [s'|] eqn:Er; simpl; [|done].
  pose proof (record_typed c es s s' Hc Hes Hs Er). auto.
Qed.

Lemma refused_typed s res : typed s → in_i64 (r_Balance res) → typed_result (Some (s, res)).
Proof. done. Qed.

(** The branches of an operation that do not write. *)
Ltac refused := repeat (case_match; try (apply refused_typed; [done|simpl; first [apply in_i64_0|apply available_typed]])).

Lemma applyOpen_typed c s : typed_command c → typed s → typed_result (applyOpen c s).
Proof.
  intros Hc Hs. pose proof Hc as (_ & Hamt & _). unfold applyOpen. refused.
  apply recorded_typed; [done|by constructor|by apply set_balance_typed|done].
Qed.

Lemma applyDeposit_typed c s : typed_command c → typed s → typed_result (applyDeposit c s).
Proof.
  intros Hc Hs. pose proof Hc as (_ & Hamt & _). unfold applyDeposit. refused.
  apply recorded_typed; [done|by constructor|apply set_balance_typed; [done|apply i64_range]|intros; apply i64_range].
Qed.

Lemma applyWithdraw_typed c s : typed_command c → typed s → typed_result (applyWithdraw c s).
Proof.
  intros Hc Hs. unfold applyWithdraw. refused.
  apply recorded_typed; [done|constructor; [apply i64_range|done]|apply set_balance_typed; [done|apply i64_range]|intros; apply i64_range].
Qed.

Lemma applyTransfer_typed c s : typed_command c → typed s → typed_result (applyTransfer c s).
Proof.
  intros Hc Hs. pose proof Hc as (_ & Hamt & _). unfold applyTransfer. refused.
  apply recorded_typed; [done|constructor; [apply i64_range|by constructor]| |intros s' Hs'; by apply balance_of_typed].
  apply set_balance_typed; [apply set_balance_typed; [done|apply i64_range]|apply i64_range].
Qed.

Lemma applyLocked_typed c s : typed_command c → typed s → typed_result (applyLocked c s).
Proof.
  intros Hc Hs. unfold applyLocked.
  destruct (_ =? OpOpenAccount); [by apply applyOpen_typed|]. destruct (_ =? OpDeposit); [by apply applyDeposit_typed|].
  destruct (_ =? OpWithdraw); [by apply applyWithdraw_typed|]. destruct (_ =? OpTransfer); [by apply applyTransfer_typed|].
  apply refused_typed; [done|apply in_i64_0].
Qed.

Lemma fnv64a_write_u64 bs h : in_u64 h → in_u64 (fnv64a_write h bs).
Proof.
  revert h. induction bs as [|b bs IH]; intros h Hh; [done|]. apply (IH (u64 _)), u64_range.
Qed.

Lemma fingerprint_u64 c : in_u64 (fingerprint c).
Proof. unfold fingerprint. repeat apply fnv64a_write_u64. unfold in_u64, fnv64_offset. lia. Qed.

Lemma Apply_typed c s : typed_command c → typed s → typed_result (Apply c s).
Proof.
  intros Hc Hs. unfold Apply. case_bool_decide; [by split; simpl; auto|]. case_match; [by split; simpl; auto|].
  destruct (applied s !! c_IdempotencyKey c) as [prev|] eqn:Ea.
  - case_match; split; simpl; auto. by apply (ty_applied _ Hs (c_IdempotencyKey c)).
  - pose proof (applyLocked_typed c s Hc Hs) as Hr. destruct (applyLocked c s) as [[s' res]|]; simpl in *; [|done].
    destruct Hr as [[] Hb]. split; [|done]. split; simpl; try done; apply map_Forall_insert_2; try done. apply fingerprint_u64.
Qed.

(** ** A typed ledger whose snapshot is a slice can be read back *)

Lemma concat_elem {A} (l : list (list A)) x : x ∈ l → (length x ≤ length (concat l))%nat.
Proof.
  induction l as [|y l IH]; [by intros ?%elem_of_nil|]. simpl. rewrite length_app. intros [->|Hx]%elem_of_cons; [lia|].
  specialize (IH Hx). lia.
Qed.

Lemma concat_count {A} (l : list (list A)) : Forall (λ x, (0 < length x)%nat) l → (length l ≤ length (concat l))%nat.
Proof. induction 1; simpl; [lia|]. rewrite length_app. lia. Qed.

#[local] Transparent putStr.

Lemma length_putStr v : length (putStr v) = (8 + String.length v)%nat.
Proof. unfold putStr. by rewrite length_app, length_putUint64, length_str_bytes. Qed.

#[local] Opaque putStr.

Lemma put_map_bound {V} (zero : V) enc (m : gmap string V) :
  (∀ k v, (8 + String.length k ≤ length (enc (k, v)))%nat) →
  (size m ≤ length (put_map zero enc m))%nat ∧
  ∀ k v, m !! k = Some v → (length (enc (k, v)) ≤ length (put_map zero enc m))%nat.
Proof.
  intros Henc. rewrite put_map_entries, length_app, length_putUint64.
  assert (length (sorted_entries m) = size m) as El.
  { rewrite <- (length_fmap fst), sorted_entries_keys. apply length_sorted_keys. }
  split.
  - rewrite <- El, <- (length_fmap enc). pose proof (concat_count (enc <$> sorted_entries m)) as Hc.
    assert (length (enc <$> sorted_entries m) ≤ length (concat (enc <$> sorted_entries m)))%nat; [|lia].
    apply Hc. apply Forall_fmap, Forall_forall. intros [k v] _. simpl. specialize (Henc k v). lia.
  - intros k v Hk. assert (enc (k, v) ∈ enc <$> sorted_entries m) as Hin.
    { apply list_elem_of_fmap. exists (k, v). split; [done|]. by apply elem_of_sorted_entries. }
    apply concat_elem in Hin. lia.
Qed.

Lemma typed_representable s : typed s → Z.of_nat (length (LedgerSnapshot.Snapshot s)) < 2 ^ 63 → representable s.
Proof.
  intros [] Hlen. unfold LedgerSnapshot.Snapshot in Hlen. rewrite !length_app, !length_putUint64 in Hlen.
  destruct (put_map_bound 0 enc_balance (balances s)) as [S1 B1].
  { intros k v. unfold enc_balance. rewrite length_app, length_putStr. simpl. lia. }
  destruct (put_map_bound (mkResult false "" 0) enc_applied (applied s)) as [S2 B2].
  { intros k v. unfold enc_applied. rewrite length_app, length_putStr. simpl. lia. }
  destruct (put_map_bound 0 enc_fingerprint (fingerprints s)) as [S3 B3].
  { intros k v. unfold enc_fingerprint. rewrite length_app, length_putStr. simpl. lia. }
  destruct (put_map_bound (mkReserve "" "" 0) enc_reserve (reserves s)) as [S4 B4].
  { intros k v. unfold enc_reserve. rewrite length_app, length_putStr. simpl. lia. }
  assert (length (history s) ≤ length (concat (enc_transaction <$> history s)))%nat as S5.
  { rewrite <- (length_fmap enc_transaction). apply concat_count, Forall_fmap, Forall_forall. intros t _. simpl.
    unfold enc_transaction. rewrite length_app, length_putUint64. lia. }
  split; unfold str_ok, slen.
  - done.
  - unfold in_u64. lia.
  - intros k b Hk. split; [|by apply (ty_balances0 k)]. specialize (B1 k b Hk). unfold enc_balance at 1 in B1.
    rewrite length_app, length_putStr in B1. cbn [fst snd] in B1. unfold in_u64; lia.
  - intros k r Hk. specialize (B2 k r Hk). unfold enc_applied at 1 in B2. rewrite !length_app, !length_putStr in B2. cbn [fst snd] in B2.
    split; [unfold in_u64; lia|]. split; [unfold in_u64; lia|]. by apply (ty_applied0 k).
  - intros k f Hk. specialize (B3 k f Hk). unfold enc_fingerprint at 1 in B3. rewrite length_app, length_putStr in B3. cbn [fst snd] in B3.
    split; [unfold in_u64; lia|]. by apply (ty_fingerprints0 k).
  - intros k r Hk. specialize (B4 k r Hk). unfold enc_reserve at 1 in B4. rewrite !length_app, !length_putStr in B4. cbn [fst snd] in B4.
    split; [unfold in_u64; lia|]. split; [unfold in_u64; lia|]. split; [unfold in_u64; lia|]. by apply (ty_reserves0 k).
  - intros t Ht. assert (enc_transaction t ∈ enc_transaction <$> history s) as Hin by (by apply list_elem_of_fmap; exists t).
    apply concat_elem in Hin. unfold enc_transaction at 1 in Hin. rewrite !length_app, !length_putUint64, !length_putStr in Hin.
    rewrite Forall_forall in ty_history0. destruct (ty_history0 t Ht) as (T1 & T2 & T3 & T4 & T5).
    assert (length (t_Entries t) ≤ length (concat (enc_entry <$> t_Entries t)))%nat as S6.
    { rewrite <- (length_fmap enc_entry). apply concat_count, Forall_fmap, Forall_forall. intros e _. simpl.
      unfold enc_entry. rewrite length_app, length_putStr. lia. }
    split_and!; try done; try (unfold in_u64; lia). intros e He. rewrite Forall_forall in T5. split; [|by apply T5].
    assert (enc_entry e ∈ enc_entry <$> t_Entries t) as Hine by (by apply list_elem_of_fmap; exists e).
    apply concat_elem in Hine. unfold enc_entry at 1 in Hine. rewrite length_app, length_putStr in Hine. unfold in_u64; lia.
Qed.

(** ** The contract *)

Definition same_ledger (m m' : Machine) : Prop := m_State m = m_State m'.

Lemma apply_entry_ledger e m m' :
  same_ledger m m' → option_Forall2 (option_Forall2 same_ledger) (apply_entry e (Some m)) (apply_entry e (Some m')).
Proof.
  intros E. unfold apply_entry. simpl. destruct (RaftTypes.e_Command e) as [cmd|]; [|by do 2 constructor].
  unfold Machine_Apply. rewrite <- E. destruct (Decode cmd) as [c|]; [|by do 2 constructor].
  destruct (Apply c (m_State m)) as [[s' res]|]; simpl; constructor. by constructor.
Qed.

Lemma apply_entry_typed e m m' : typed (m_State m) → apply_entry e (Some m) = Some (Some m') → typed (m_State m').
Proof.
  intros Hm. unfold apply_entry. simpl. destruct (RaftTypes.e_Command e) as [cmd|]; [|by intros [= <-]].
  unfold Machine_Apply. destruct (Decode cmd) as [c|] eqn:Ed; [|by intros [= <-]].
  pose proof (Apply_typed c (m_State m) (Decode_typed _ _ Ed) Hm) as Ht.
  destruct (Apply c (m_State m)) as [[s' res]|]; simpl; [|done]. intros [= <-]. apply Ht.
Qed.

Lemma apply_all_typed es m m' : typed (m_State m) → apply_all es (Some m) = Some (Some m') → typed (m_State m').
Proof.
  revert m. induction es as [|e es IH]; intros m Hm; cbn [apply_all]; [by intros [= <-]|].
  destruct (apply_entry e (Some m)) as [[x|]|] eqn:Ex; cbn [mbind option_bind]; [| |done].
  - apply IH. by eapply apply_entry_typed.
  - by apply RaftSpec.apply_entry_some in Ex as [? ?].
Qed.

#[global] Instance bank_snapshots : SnapshotLaws bank_machine same_ledger.
Proof.
  split.
  - split; unfold same_ledger; [done|by intros m m' ->|by intros m m' m'' -> ->].
  - apply apply_entry_ledger.
  - intros snapper es m mm data m' [= <-] Hes E [= <-] Hlen. simpl. unfold Machine_RestoreSnapshot, Machine_Snapshot in *.
    assert (typed (m_State mm)) as Ht.
    { rewrite <- E. apply (apply_all_typed es bank_machine); [|done]. by split. }
    pose proof (RestoreSnapshot_codec (m_State mm) (m_State m') [] (typed_representable _ Ht Hlen)) as Hr.
    rewrite app_nil_r in Hr. rewrite Hr. eexists. split; [done|]. done.
Qed.

(** ** No log makes the bank panic *)

Lemma apply_entry_bank e m :
  Inv (m_State m) → ∃ m', apply_entry e (Some m) = Some (Some m') ∧ Inv (m_State m').
Proof.
  intros Hm. unfold apply_entry. simpl. destruct (RaftTypes.e_Command e) as [cmd|]; [|by eauto].
  unfold Machine_Apply. destruct (Decode cmd) as [c|] eqn:Ed; [|by simpl; eauto].
  destruct (exec_Inv (LApply c) (m_State m) Hm) as (s' & r & He & Hs'); [apply (Decode_typed _ _ Ed)|].
  simpl in He. destruct (Apply c (m_State m)) as [[s1 res]|]; simplify_eq/=; eauto.
Qed.

Lemma apply_all_bank es m m' : Inv (m_State m) → apply_all es (Some m) = Some (Some m') → Inv (m_State m').
Proof.
  revert m. induction es as [|e es IH]; intros m Hm; cbn [apply_all]; [by intros [= <-]|].
  destruct (apply_entry_bank e m Hm) as (m1 & -> & Hm1). cbn [mbind option_bind]. by apply IH.
Qed.

Lemma bank_never_panics es m e :
  apply_all es (Some bank_machine) = Some (Some m) → apply_entry e (Some m) ≠ None.
Proof.
  intros Hes%apply_all_bank; [|apply New_Inv]. by destruct (apply_entry_bank e m Hes) as (m' & -> & _).
Qed.
