(* ===== verification/RaftRuns.v ===== *)
(** * Raft: concrete runs of a whole cluster of bank servers

    The steps of [RaftCluster] as a function, sound for [sstep], and a run of three
    bank servers over the file storage: an election, a command replicated and
    committed, a compaction, a crash and a restart, a snapshot sent to the server that
    was cut off, a second leader.  The theorems of [RaftSafety] are applied to it. *)

From S2P Require Import Prelude GoLib Storage RaftTypes RaftLog RaftCodec RaftServer RaftLoop RaftSnapshot RaftRead.
From S2P Require Import RaftVotes RaftNode RaftElection RaftCommit RaftDisk RaftSpec RaftCluster RaftSafety RaftBank.
From S2P Require Hlc Ledger LedgerCodec.

Local Open Scope Z_scope.

Abbreviation bank_system := (system (SM := LedgerCodec.Machine) (St := disk)).
Abbreviation bstep := (sstep (SM := LedgerCodec.Machine) (St := disk) (storable := fits)
  (snapshot_storable := snapshot_fits) three bank_machine).
Abbreviation binitial := (sinitial (SM := LedgerCodec.Machine) (St := disk) three bank_machine).

(** ** Steps as a function *)

#[local] Instance in_u64_dec z : Decision (in_u64 z).
Proof. unfold in_u64. apply _. Defined.
#[local] Instance RequestVoteArgs_eq_dec : EqDecision RequestVoteArgs.
Proof. solve_decision. Defined.
#[local] Instance decided_dec el : Decision (decided el).
Proof. unfold decided. apply _. Defined.

Inductive action :=
  | AElect (me : NodeID)
  | AVote (me : NodeID) (now : Z)      (* the newest election's request *)
  | ACount (peer : NodeID)             (* the newest reply reaches the newest election, and is tallied *)
  | ALead
  | ASubmit (me : NodeID) (cmd : bytes)
  | ASend (me peer : NodeID)
  | AReceive (me : NodeID)             (* the newest request of [replicateTo] *)
  | AAck (me : NodeID)                 (* the newest reply *)
  | ACompact (me : NodeID)
  | ASendSnap (me : NodeID)
  | AInstall (me : NodeID)
  | ACrash (me : NodeID)
  | ARestart (me : NodeID).

Definition boundedb (s : bank_server) : bool := persistableb s && (lastIndex (log s) <? 2 ^ 62).

Definition up (me : NodeID) (y : bank_system) : option bank_server :=
  match c_nodes (y_cluster y) !! me with Some (Up s) => Some s | _ => None end.

(** The result of an operation, if it is one within bounds. *)
Definition done_ok {A} (get : A → bank_server) (o : outcome LedgerCodec.Machine disk A) : option A :=
  match o with Ok x => if boundedb (get x) then Some x else None | Panic _ => None end.

Definition local (me : NodeID) (o : op) (y : bank_system) : option bank_system :=
  s ← up me y; '(s', _) ← done_ok fst (exec o s); Some (set_up me s' y).

Definition act (a : action) (y : bank_system) : option bank_system :=
  match a with
  | AElect me =>
      s ← up me y; if negb (currentTerm s <? 2 ^ 64 - 1) then None else
      '(s', el, _) ← done_ok (fst ∘ fst) (startElection env0 s);
      Some (set_cluster (set_elections (el :: c_elections (y_cluster y))
        (add_vote (mkVote me (currentTerm s') me) (set_node me (Up s') (y_cluster y)))) y)
  | AVote me t =>
      s ← up me y; el ← head (c_elections (y_cluster y));
      '(s', reply) ← done_ok fst (RequestVote (mkEnv t 0) (el_args el) s);
      let c' := add_reply me (el_args el) reply (set_node me (Up s') (y_cluster y)) in
      Some (set_cluster (if rvr_VoteGranted reply
        then add_vote (mkVote me (rv_Term (el_args el)) (rv_CandidateID (el_args el))) c' else c') y)
  | ACount peer =>
      match c_elections (y_cluster y), c_replies (y_cluster y) with
      | el :: post, (p, args, reply) :: _ =>
          if negb (bool_decide (p = peer ∧ args = el_args el ∧ peer ∈ el_pending el)) then None else
          s ← up (candidate el) y; '(s', ok) ← done_ok fst (vote_reply (term_of el) reply s);
          let y' := set_cluster (set_elections (replied peer ok el :: post) (set_node (candidate el) (Up s') (y_cluster y))) y in
          if bool_decide (peer ∈ el_granted (replied peer ok el))
          then Some (set_cluster (set_elections ((tally peer (replied peer ok el)).1 :: post) (y_cluster y')) y')
          else Some y'
      | _, _ => None
      end
  | ALead =>
      el ← head (c_elections (y_cluster y)); s ← up (candidate el) y;
      if negb (bool_decide (decided el ∧ role s = Candidate ∧ currentTerm s = term_of el)) then None else
      s' ← done_ok self (becomeLeader (term_of el) s);
      Some (set_cluster (add_promotion (mkPromotion (term_of el) (candidate el) (el_config el))
        (set_node (candidate el) (Up s') (y_cluster y))) y)
  | ASubmit me cmd =>
      if bool_decide (cmd = []) || isConfigEntry cmd then None else local me (OpSubmit (Some cmd)) y
  | ASend me peer =>
      s ← up me y;
      if negb (bool_decide (peer ∈ peers s)) then None else
      match replicate_request peer (currentTerm s) s with SendEntries args => Some (send_append args y) | _ => None end
  | AReceive me =>
      s ← up me y; args ← head (y_appends y);
      if bool_decide (ae_LeaderID args = me) then None else
      '(s', reply) ← done_ok fst (AppendEntries env0 args s); Some (send_reply me args reply (set_up me s' y))
  | AAck me =>
      '(peer, args, reply) ← head (y_replies y);
      if negb (bool_decide (ae_LeaderID args = me)) then None else
      local me (OpReplicateReply env0 peer (ae_Term args) args reply) y
  | ACompact me =>
      s ← up me y; if bool_decide (is_Some (y_compacting y !! me)) then None else
      match compact_take 1 s with
      | inr (idx, term, data) =>
          if negb (bool_decide (in_u64 idx ∧ in_u64 term ∧ Z.of_nat (length data) < 2 ^ 63)) then None else
          match compact_save idx term data s with
          | (s1, None) =>
              let (s2, _) := compact_finish idx term data s1 in
              if boundedb s1 && boundedb s2 then Some (set_compacting (delete me (y_compacting y)) (set_up me s2 y)) else None
          | _ => None
          end
      | inl _ => None
      end
  | ASendSnap me =>
      s ← up me y;
      match snapshot_request (currentTerm s) s with
      | (s', Some args) => if boundedb s' then Some (send_snap args (set_up me s' y)) else None
      | _ => None
      end
  | AInstall me =>
      s ← up me y; args ← head (y_snaps y);
      if negb (bool_decide (is_LeaderID args ≠ me ∧ ¬ is_Some (y_compacting y !! me) ∧ in_u64 (is_LastIncludedIndex args) ∧
        in_u64 (is_LastIncludedTerm args) ∧ in_u64 (Z.of_nat (length (is_Data args))))) then None else
      let (s', _) := InstallSnapshot env0 args s in
      if boundedb s' && (snapshotErrs s' =? snapshotErrs s) then Some (set_up me s' y) else None
  | ACrash me =>
      s ← up me y;
      Some (set_compacting (delete me (y_compacting y)) (set_cluster (set_node me (Down me (storage s)) (y_cluster y)) y))
  | ARestart me =>
      match c_nodes (y_cluster y) !! me with
      | Some (Down me' (Some d)) =>
          if negb (bool_decide (me' = me)) then None else
          match Restore (new_server me three d) with Ok (inr s) => Some (set_up me s y) | _ => None end
      | _ => None
      end
  end.

Fixpoint run (acts : list action) (y : bank_system) : option bank_system :=
  match acts with
  | [] => Some y
  | a :: acts => y' ← act a y; run acts y'
  end.

(** ** The function takes steps *)

Lemma boundedb_spec s : boundedb s = true → in_bounds (storable := fits) s.
Proof. unfold boundedb. intros [Hp Hl]%andb_true_iff. split; [by apply persistableb_spec|by apply Z.ltb_lt]. Qed.

Lemma done_ok_Some {A} (get : A → bank_server) o x : done_ok get o = Some x → o = Ok x ∧ in_bounds (storable := fits) (get x).
Proof.
  unfold done_ok. destruct o as [z|]; [|done]. destruct (boundedb (get z)) eqn:Eb; [|done]. intros [= <-].
  split; [done|by apply boundedb_spec].
Qed.

Lemma up_Some me y s : up me y = Some s → up_at y me s.
Proof. unfold up, up_at. destruct (c_nodes (y_cluster y) !! me) as [[]|]; by intros [= <-]. Qed.

Lemma local_sound me o y y' : may y me o → local me o y = Some y' → bstep y y'.
Proof.
  unfold local. intros Hm. destruct (up me y) as [s|] eqn:Es; [|done]. cbn [mbind option_bind].
  destruct (done_ok fst (exec o s)) as [[s' vs]|] eqn:Ed; [|done]. intros [= <-].
  apply done_ok_Some in Ed as [Ed Hb]. apply up_Some in Es. by eapply s_local.
Qed.

(** Takes apart the guards and binds of [act]. *)
Ltac act_inv :=
  repeat match goal with
  | |- (?o ≫= _) = Some _ → _ => destruct o eqn:?; cbn [mbind option_bind]; [|done]
  | |- (let '(_, _) := ?p in _) = Some _ → _ => destruct p eqn:?
  | |- (let (_, _) := ?p in _) = Some _ → _ => destruct p eqn:?
  | |- (if ?b then _ else _) = Some _ → _ => destruct b eqn:?; try done
  | |- None = Some _ → _ => done
  | H : up _ _ = Some _ |- _ => apply up_Some in H
  | H : done_ok _ _ = Some _ |- _ => apply done_ok_Some in H as [? ?]
  | H : boundedb _ = true |- _ => apply boundedb_spec in H
  | H : _ && _ = true |- _ => apply andb_true_iff in H as [? ?]
  | H : negb _ = false |- _ => apply negb_false_iff in H
  | H : bool_decide _ = true |- _ => apply bool_decide_eq_true in H
  | H : bool_decide _ = false |- _ => apply bool_decide_eq_false in H
  | H : (_ <? _) = true |- _ => apply Z.ltb_lt in H
  | H : (_ =? _) = true |- _ => apply Z.eqb_eq in H
  | H : head ?l = Some ?x |- _ => destruct l eqn:?; simpl in H; [done|]; injection H as ->
  end.

Lemma compact_sound me y y' : act (ACompact me) y = Some y' → rtc bstep y y'.
Proof.
  simpl. destruct (up me y) as [s|] eqn:Es; [|done]. cbn [mbind option_bind]. apply up_Some in Es.
  destruct (bool_decide _) eqn:Ek; [done|]. apply bool_decide_eq_false, eq_None_not_Some in Ek.
  destruct (compact_take 1 s) as [|[[idx term] data]] eqn:Et; [done|]. destruct (negb _) eqn:Eg; [done|].
  apply negb_false_iff, bool_decide_eq_true in Eg as (Hi & Ht & Hl).
  destruct (compact_save idx term data s) as [s1 [|]] eqn:Esv; [done|]. destruct (compact_finish idx term data s1) as [s2 r] eqn:Ef.
  destruct (boundedb s1 && boundedb s2) eqn:Eb; [|done]. apply andb_true_iff in Eb as [B1%boundedb_spec B2%boundedb_spec].
  intros [= <-]. assert (snapshot_fits idx term data) as Hfit by (split_and!; [done..|]; unfold in_u64; lia).
  set (y1 := set_compacting (<[me:=mkCompaction idx term data false]> (y_compacting y)) y).
  eapply rtc_l; [by eapply (s_compact_take _ _ y me 1)|]. fold y1.
  pose proof (s_compact_save (storable := fits) (snapshot_storable := snapshot_fits) three bank_machine y1 me s s1 None idx term data) as Hsave.
  specialize (Hsave Es ltac:(apply lookup_insert_eq) Hfit Esv B1). simpl in Hsave.
  eapply rtc_l; [exact Hsave|]. clear Hsave. match goal with |- rtc _ ?y _ => set (y2 := y) end.
  pose proof (s_compact_finish (storable := fits) (snapshot_storable := snapshot_fits) three bank_machine y2 me s1 s2 r idx term data) as Hfin.
  specialize (Hfin ltac:(apply lookup_insert_eq) ltac:(apply lookup_insert_eq) Ef B2).
  apply rtc_once. eapply eq_ind; [exact Hfin|]. subst y2 y1. unfold set_up, set_compacting, set_cluster, set_node. simpl.
  by rewrite !insert_insert_eq, delete_insert_eq.
Qed.

Lemma count_sound peer y y' : act (ACount peer) y = Some y' → rtc bstep y y'.
Proof.
  simpl. destruct (c_elections (y_cluster y)) as [|el post] eqn:Eel; [done|].
  destruct (c_replies (y_cluster y)) as [|[[p args] reply] rs] eqn:Er; [done|]. destruct (negb _) eqn:Eg; [done|].
  apply negb_false_iff, bool_decide_eq_true in Eg as (-> & -> & Hpend).
  destruct (up (candidate el) y) as [s|] eqn:Es; [|done]. cbn [mbind option_bind]. apply up_Some in Es.
  destruct (done_ok fst _) as [[s' ok]|] eqn:Ed; [|done]. cbn [mbind option_bind]. apply done_ok_Some in Ed as [Ed Hb].
  set (y1 := set_cluster (set_elections (replied peer ok el :: post) (set_node (candidate el) (Up s') (y_cluster y))) y).
  assert (bstep y y1) as H1.
  { apply (s_vote_reply _ _ y [] el post peer reply s s' ok); try done. rewrite Er. by left. }
  case_bool_decide as Hgr; intros [= <-]; [|by apply rtc_once].
  eapply rtc_l; [exact H1|]. apply rtc_once. by apply (s_tally _ _ y1 [] (replied peer ok el) post peer).
Qed.

Lemma act_sound a y y' : act a y = Some y' → rtc bstep y y'.
Proof.
  destruct a; try (by apply compact_sound); try (by apply count_sound); simpl; act_inv.
  - intros [= <-]. apply rtc_once. by eapply s_elect.
  - intros [= <-]. apply rtc_once. eapply s_vote; try done. match goal with E : c_elections _ = _ |- _ => rewrite E end. by left.
  - intros [= <-]. apply rtc_once. destruct_and!. eapply s_lead; try done.
    match goal with E : c_elections _ = _ |- _ => rewrite E end. by left.
  - intros Hl. apply rtc_once. eapply local_sound; [|exact Hl]. by apply orb_false_iff in Heqb as [?%bool_decide_eq_false ?].
  - destruct (replicate_request _ _ _) eqn:Er; try done. intros [= <-]. apply rtc_once. by eapply s_send.
  - intros [= <-]. apply rtc_once. eapply s_append; try done. match goal with E : y_appends _ = _ |- _ => rewrite E end. by left.
  - intros Hl. apply rtc_once. eapply local_sound; [|exact Hl]. split; [|done].
    match goal with E : y_replies _ = _ |- _ => rewrite E end. by left.
  - destruct o as [args|]; [|done]. act_inv. intros [= <-]. apply rtc_once. by eapply (s_send_snap _ _ y me _ _ _ (Some args)).
  - intros [= <-]. apply rtc_once. destruct_and!. eapply s_install; try done.
    + match goal with E : y_snaps _ = _ |- _ => rewrite E end. by left.
    + by apply eq_None_not_Some.
  - intros [= <-]. apply rtc_once. by eapply s_crash.
  - destruct (c_nodes (y_cluster y) !! me) as [[|me' [d|]]|] eqn:En; try done. act_inv. subst me'.
    destruct (Restore _) as [[|s]|] eqn:Er; try done. intros [= <-]. apply rtc_once. by eapply s_restart.
Qed.

Lemma run_sound acts y y' : run acts y = Some y' → rtc bstep y y'.
Proof.
  revert y. induction acts as [|a acts IH]; intros y; simpl; [by intros [= ->]|].
  destruct (act a y) as [y1|] eqn:Ea; [|done]. simpl. intros Hr. etrans; [by eapply act_sound|by apply IH].
Qed.

(** ** A run of three bank servers *)

Definition open_alice : bytes :=
  LedgerCodec.Encode (Ledger.mkCommand Ledger.OpOpenAccount "k1" "" "alice" 100 (Hlc.mkTimestamp 1 0)).

Definition started : bank_system :=
  mkSystem (mkCluster (list_to_map ((λ me, (me, Up (new_server me three ∅))) <$> three)) [] [] [] []) [] [] [] [] ∅.

(** n1 is elected with n2's vote, opens an account and commits it with n2. *)
Definition first_reign : list action :=
  [AElect "n1"; AVote "n2" 0; ACount "n2"; ALead; ASubmit "n1" open_alice; ASend "n1" "n2"; AReceive "n2"; AAck "n1"].

(** n1 compacts and sends its snapshot to n3, which has seen nothing so far; n2 learns
    what is committed; n1 crashes and restarts. *)
Definition second_chance : list action :=
  [ACompact "n1"; ASendSnap "n1"; AInstall "n3"; ASend "n1" "n2"; AReceive "n2"; ACrash "n1"; ARestart "n1"].

(** n2 is elected with n3's vote and commits an entry of its own term. *)
Definition second_reign : list action :=
  [AElect "n2"; AVote "n3" 1000000000000; ACount "n3"; ALead; ASend "n2" "n3"; AReceive "n3"; AAck "n2"].

Definition after_run (acts : list action) (y : bank_system) : bank_system := default started (run acts y).

Definition moment1 : bank_system := after_run first_reign started.
Definition moment2 : bank_system := after_run (second_chance ++ second_reign) moment1.

Definition server (y : bank_system) (me : NodeID) : bank_server := default (new_server me three ∅) (up me y).

Lemma three_distinct : NoDup three.
Proof. apply (bool_decide_unpack _). vm_compute. exact I. Qed.

Lemma started_initial : binitial started.
Proof.
  split_and!; try done. intros me n Hn. unfold started in Hn. cbn [c_nodes y_cluster] in Hn. apply elem_of_list_to_map_2, list_elem_of_fmap in Hn as (x & [= -> ->] & Hx).
  split; [done|]. exists SnapshotCapable, DefaultConfig, ∅. split; [done|]. split_and!; [done|..]; by intros ops [= <-].
Qed.

Lemma run_reaches acts y : is_Some (run acts y) → rtc bstep y (after_run acts y).
Proof. intros [y' Hy]. unfold after_run. rewrite Hy. by apply (run_sound acts). Qed.

Lemma reach_moment1 : rtc bstep started moment1.
Proof. apply run_reaches. apply (bool_decide_unpack _). vm_compute. exact I. Qed.

Lemma reach_moment2 : rtc bstep moment1 moment2.
Proof. apply run_reaches. apply (bool_decide_unpack _). vm_compute. exact I. Qed.

Lemma server_up y me : is_Some (up me y) → up_at y me (server y me).
Proof. intros [s Hs]. unfold server. rewrite Hs. by apply up_Some. Qed.

Ltac running := apply server_up; apply (bool_decide_unpack _); vm_compute; exact I.

(** The run is one of the specification, with n2 as the leader of term 2. *)
Lemma cluster_refines_spec_witness :
  role (server moment2 "n2") = Leader ∧
  ∃ sp0 sp, ainitial sp0 ∧ rtc (astep three) sp0 sp ∧
    ∀ me s, up_at moment2 me s →
      let a := sp_node sp me in
      currentTerm s = a_term a ∧ role s = a_role a ∧ rep (log s) (a_log a) ∧ commitIndex s = Z.of_nat (a_commit a).
Proof.
  split; [vm_compute; reflexivity|].
  refine (cluster_refines_spec (storable := fits) (snapshot_storable := snapshot_fits) three bank_machine same_ledger
    three_distinct started moment2 started_initial _).
  etransitivity; [exact reach_moment1|exact reach_moment2].
Defined.

(** What n1 committed in its reign n2 has committed in its own. *)
Lemma state_machine_safety_witness :
  ∃ e, entryAt (log (server moment1 "n1")) 2 = Some e ∧ entryAt (log (server moment2 "n2")) 2 = Some e.
Proof.
  refine (state_machine_safety (storable := fits) (snapshot_storable := snapshot_fits) three bank_machine same_ledger
    three_distinct started moment1 moment2 "n1" "n2" _ _ 2 started_initial reach_moment1 reach_moment2 _ _ _ _);
    [running|running|vm_compute; split; congruence..].
Defined.

(** n1 before its crash and n3, which got the snapshot, hold the same ledger; it has the
    account. *)
Lemma replicas_agree_witness :
  (LedgerCodec.m_State <$> sm (server moment2 "n3")) ≫= (λ st, Ledger.balances st !! "alice") = Some 100 ∧
  ∃ m m', sm (server moment1 "n1") = Some m ∧ sm (server moment2 "n3") = Some m' ∧ same_ledger m m'.
Proof.
  split; [vm_compute; reflexivity|].
  refine (replicas_agree (storable := fits) (snapshot_storable := snapshot_fits) three bank_machine same_ledger
    three_distinct started moment1 moment2 "n1" "n3" _ _ started_initial reach_moment1 reach_moment2 _ _ _);
    [running|running|vm_compute; reflexivity].
Defined.

(** The leader of term 2 has what the leader of term 1 committed. *)
Lemma leader_completeness_witness :
  2 ≤ lastIndex (log (server moment2 "n2")) ∧
  (baseIndex (log (server moment1 "n1")) < 2 → baseIndex (log (server moment2 "n2")) < 2 →
   entryAt (log (server moment2 "n2")) 2 = entryAt (log (server moment1 "n1")) 2).
Proof.
  refine (leader_completeness (storable := fits) (snapshot_storable := snapshot_fits) three bank_machine same_ledger
    three_distinct started moment1 moment2 "n1" "n2" _ _ 2 started_initial reach_moment1 reach_moment2 _ _ _ _ _);
    [running|running|vm_compute; reflexivity|vm_compute; congruence..].
Defined.

Lemma log_matching_witness :
  entryAt (log (server moment1 "n1")) 1 = entryAt (log (server moment2 "n2")) 1.
Proof.
  refine (log_matching (storable := fits) (snapshot_storable := snapshot_fits) three bank_machine same_ledger
    three_distinct started moment1 moment2 "n1" "n2" _ _ 2 1 (mkEntry 1 2 (Some open_alice)) (mkEntry 1 2 (Some open_alice))
    started_initial reach_moment1 reach_moment2 _ _ _ _ _ _ _);
    [running|running|vm_compute; split; congruence|vm_compute; reflexivity..].
Defined.




(** ** The commands of the bank are commands of the application *)

Lemma Encode_app c : 0 ≤ Ledger.c_Op c < 192 → app_command (Some (LedgerCodec.Encode c)).
Proof.
  intros Hop. split; [done|]. unfold isConfigEntry, LedgerCodec.Encode, LedgerCodec.encode_head. simpl.
  apply bool_decide_eq_false. intros E%(f_equal byte_Z). rewrite byte_Z_byte in E.
  change (byte_Z configPrefix) with 192 in E. rewrite Z.mod_small in E by lia. lia.
Qed.
