(* ===== verification/RaftScenarios.v ===== *)
(** * Raft: concrete clusters

    A script runs whole RPC exchanges between servers by calling the handlers of
    both sides.  It gives the concrete runs of the cluster theorems, and the runs
    in which a leader that has removed itself is elected again beside another
    leader of the same term, two leaders' membership changes cross, a compaction
    overwrites the leader's snapshot, and a new leader answers a stale read. *)

From S2P Require Import Prelude GoLib Storage RaftTypes RaftLog RaftCodec RaftServer RaftLoop RaftSnapshot.
From S2P Require Import RaftVotes RaftNode RaftElection RaftDisk.
From S2P Require LedgerCodec Hlc Ledger.

Local Open Scope Z_scope.

Section Script.
Context {SM : Type} `{StateMachine SM}.

Abbreviation servers := (gmap NodeID (Server SM disk)).

Definition run_at {A} (me : NodeID) (f : Server SM disk → outcome SM disk (Server SM disk * A))
    (ns : servers) : option (servers * A) :=
  s ← ns !! me;
  match f s with
  | Ok (s', x) => Some (<[me:=s']> ns, x)
  | Panic _ => None
  end.

Definition unit_at (me : NodeID) (f : Server SM disk → outcome SM disk (Server SM disk))
    (ns : servers) : option servers :=
  fst <$> run_at me (λ s, s' ← f s; Ok (s', tt)) ns.

(** [me] campaigns and asks [voters] in turn. *)
Definition campaign (t : Z) (me : NodeID) (voters : list NodeID) (ns : servers) : option servers :=
  '(ns, el) ← run_at me (λ s, '(s, el, _) ← startElection (mkEnv t 0) s; Ok (s, el)) ns;
  fst <$> foldl (λ (acc : option (servers * Election)) peer,
    '(ns, el) ← acc;
    '(ns, reply) ← run_at peer (RequestVote (mkEnv t 0) (el_args el)) ns;
    '(ns, granted) ← run_at me (vote_reply (rv_Term (el_args el)) reply) ns;
    if (granted : bool) then
      let (el, won) := tally peer el in
      if (won : bool) then
        ns ← unit_at me (becomeLeader (rv_Term (el_args el))) ns;
        Some (ns, el)
      else Some (ns, el)
    else Some (ns, el)) (Some (ns, el)) voters.

(** One [replicateTo] exchange. *)
Definition replicate (t : Z) (me peer : NodeID) (ns : servers) : option servers :=
  s ← ns !! me;
  match replicate_request peer (currentTerm s) s with
  | SendEntries args =>
      '(ns, reply) ← run_at peer (AppendEntries (mkEnv t 0) args) ns;
      unit_at me (replicate_reply (mkEnv t 0) peer (currentTerm s) args reply) ns
  | _ => Some ns
  end.

Definition replicate_all (t : Z) (me : NodeID) (ps : list NodeID) (ns : servers) : option servers :=
  foldl (λ acc p, ns ← acc; replicate t me p ns) (Some ns) ps.

End Script.

Abbreviation servers := (gmap NodeID bank_server).

Definition four : list NodeID := ["a"; "b"; "c"; "d"].

Definition fresh_cluster (ps : list NodeID) : servers :=
  list_to_map ((λ p, (p, new_server p ps ∅)) <$> ps).

(** a is elected, replicates, removes itself, and commits the removal; when the
    others have not heard from a leader for a second, a and c campaign in the
    same term. *)
Definition self_removal : option servers :=
  ns ← campaign 0 "a" ["b"; "c"] (fresh_cluster four);
  ns ← replicate_all 0 "a" ["b"; "c"; "d"] ns;
  ns ← replicate_all 0 "a" ["b"; "c"; "d"] ns;
  '(ns, _) ← run_at "a" (λ s, Ok (RemoveServer "a" s)) ns;
  ns ← replicate_all 0 "a" ["b"; "c"; "d"] ns;
  ns ← replicate_all 0 "a" ["b"; "c"; "d"] ns;
  ns ← campaign 1000000000 "a" ["b"] ns;
  campaign 1000000000 "c" ["d"] ns.

Definition view (s : bank_server) : Role * Z * list NodeID * bool :=
  (role s, currentTerm s, peers s, removedFromCluster s).

(** Election Safety fails for a leader that has removed itself.  In a cluster
    of four, the leader a removes itself, the change commits and a steps down.
    Nothing stops it from campaigning again, and its own vote is counted although
    it is not a member of its configuration: with the single vote of b it reaches
    the majority of {b, c, d}.  In the same term c is elected by c and d.  Both
    are leaders of term 2. *)
Theorem self_removed_leader_reelected :
  ∃ ns sa sc, self_removal = Some ns ∧ ns !! "a" = Some sa ∧ ns !! "c" = Some sc ∧
    role sa = Leader ∧ role sc = Leader ∧ currentTerm sa = currentTerm sc ∧
    removedFromCluster sa = true ∧ Contains (peers sa) "a" = false ∧ peers sa = peers sc.
Proof.
  assert ((ns ← self_removal; a ← ns !! "a"; c ← ns !! "c"; Some (view a, view c))
    = Some ((Leader, 2, ["b"; "c"; "d"], true), (Leader, 2, ["b"; "c"; "d"], false))) as Hrun
    by (vm_compute; reflexivity).
  apply bind_Some in Hrun as (ns & Hns & Hrun). apply bind_Some in Hrun as (sa & Ha & Hrun).
  apply bind_Some in Hrun as (sc & Hc & Hrun). exists ns, sa, sc.
  unfold view in Hrun. injection Hrun as Ra Ta Pa Ma Rc Tc Pc _. rewrite Ra, Rc, Ta, Tc, Pa, Pc, Ma. by split_and!.
Qed.

(** ** An election in a cluster of three *)

Definition campaigning : bank_server := after (OpStartElection env0) (new_server "n1" three ∅).

Definition n1_election : Election :=
  mkElection (mkRequestVote 1 "n1" 0 0) 2 three ["n2"; "n3"] [] [] 1 false.

Definition n2_voted : bank_server := after (vote_for "n1" 1) (new_server "n2" three ∅).
Definition n1_leads : bank_server := after (OpBecomeLeader 1) campaigning.

Definition quiet_cluster : cluster :=
  mkCluster (Up <$> fresh_cluster three) [] [] [] [].

Lemma quiet_cluster_initial : initial quiet_cluster.
Proof.
  split_and!; [done..|]. intros me n Hn. simpl in Hn. rewrite lookup_fmap in Hn.
  apply fmap_Some in Hn as (s & Hs & ->). apply elem_of_list_to_map_2 in Hs.
  apply list_elem_of_fmap in Hs as (p & [= -> ->] & _).
  exists three, (Some bank_machine), SnapshotCapable, DefaultConfig, ∅. done.
Qed.

Lemma n1_elected_run :
  ∃ c, rtc (cstep (storable := fits)) quiet_cluster c ∧
    c_promotions c = [mkPromotion 1 "n1" three] ∧ c_nodes c !! "n1" = Some (Up n1_leads) ∧
    c_nodes c !! "n2" = Some (Up n2_voted).
Proof.
  eexists. split.
  { eapply rtc_l.
    { apply (cstep_elect _ "n1" env0 (new_server "n1" three ∅) campaigning n1_election false);
        [vm_compute; reflexivity|done|vm_compute; reflexivity|].
      apply persistableb_spec. vm_compute. reflexivity. }
    eapply rtc_l.
    { apply (cstep_vote _ "n2" env0 (mkRequestVote 1 "n1" 0 0) (new_server "n2" three ∅) n2_voted
               (mkRequestVoteReply 1 true));
        [vm_compute; reflexivity|vm_compute; reflexivity|].
      apply persistableb_spec. vm_compute. reflexivity. }
    eapply rtc_l.
    { apply (cstep_reply _ [] n1_election [] "n2" (mkRequestVoteReply 1 true) campaigning campaigning true);
        [reflexivity|by left|by left|vm_compute; reflexivity|vm_compute; reflexivity|].
      apply persistableb_spec. vm_compute. reflexivity. }
    eapply rtc_l.
    { apply (cstep_tally _ [] (replied "n2" true n1_election) [] "n2"); [reflexivity|by left]. }
    eapply rtc_l.
    { apply (cstep_lead _ (tally "n2" (replied "n2" true n1_election)).1 campaigning n1_leads);
        [by left|unfold decided; simpl; lia|vm_compute; reflexivity..|].
      apply persistableb_spec. vm_compute. reflexivity. }
    apply rtc_refl. }
  split; [reflexivity|]. split; [simpl; apply lookup_insert_eq|].
  simpl. rewrite !lookup_insert_ne by done. apply lookup_insert_eq.
Qed.

Lemma election_safety_witness :
  ∃ c, c_promotions c = [mkPromotion 1 "n1" three] ∧ role n1_leads = Leader ∧
    c_nodes c !! "n1" = Some (Up n1_leads) ∧
    ∃ cf, mkPromotion (currentTerm n1_leads) "n1" cf ∈ c_promotions c.
Proof.
  destruct n1_elected_run as (c & Hrun & Hp & Hn & _). exists c. split; [exact Hp|].
  assert (role n1_leads = Leader) as Hr by (vm_compute; reflexivity).
  split; [exact Hr|]. split; [exact Hn|].
  exact (proj2 (election_safety (storable := fits) quiet_cluster c quiet_cluster_initial Hrun)
    "n1" n1_leads Hn Hr).
Defined.

(** ** Two divergences of the receivers *)

Definition four_servers : Configuration := ["n1"; "n2"; "n3"; "n4"].

(** n2 receives, from the leader of term 1, the entry that adds n4; the leader of
    term 2 replaces it by an entry of its own. *)
Definition with_config : bank_server :=
  after (OpAppendEntries env0 (mkAppendEntries 1 "n1" 0 0
    [mkEntry 1 1 None; mkEntry 1 2 (Some (encodeConfig four_servers))] 0)) (new_server "n2" three ∅).
Definition config_truncated : bank_server :=
  after (OpAppendEntries env0 (mkAppendEntries 2 "n3" 1 1 [mkEntry 2 2 None] 0)) with_config.

(** A configuration entry that is truncated away stays in force.  The follower's
    log holds no configuration entry any more, but [adoptConfigFromLogLocked]
    only ever adopts one it finds: the membership of the discarded entry is kept. *)
Theorem truncated_config_kept :
  peers config_truncated = four_servers ∧
  log config_truncated = [zeroEntry; mkEntry 1 1 None; mkEntry 2 2 None] ∧
  configChangeIndex config_truncated = 2.
Proof. split; [|split]; vm_compute; reflexivity. Qed.

(** A snapshot the follower already covers, from a leader of a newer term. *)
Definition stale_snapshot : op :=
  OpInstallSnapshot env0 (mkInstallSnapshot 5 "n3" 0 0 [] true).

(** [InstallSnapshot] replies with a term that is not on disk.  The follower
    adopts term 5, finds nothing to install and returns early, without
    persisting; after a crash it is back in term 1. *)
Theorem InstallSnapshot_term_not_durable :
  currentTerm (after stale_snapshot voted) = 5 ∧ currentTerm (reboot (after stale_snapshot voted)) = 1.
Proof. split; vm_compute; reflexivity. Qed.

(** ** Two leaders' membership changes *)

(** A cluster of a, b, c, d and a fresh server e.  a is elected, commits its first
    entry and adds e; the change reaches only e.  b is elected by c and d, removes a
    and commits that with c.  a, which needs three of five, is elected by d and e and
    commits an entry of its own with them. *)
Definition crossed_changes : option servers :=
  let ns := <["e":=new_server "e" ["a"; "b"; "c"; "d"; "e"] ∅]> (fresh_cluster four) in
  ns ← campaign 0 "a" ["b"; "c"] ns;
  ns ← replicate_all 0 "a" ["b"; "c"; "d"] ns;
  '(ns, _) ← run_at "a" (λ s, Ok (AddServer "e" s)) ns;
  ns ← replicate_all 0 "a" ["e"; "e"; "e"] ns;
  ns ← campaign 1000000000 "b" ["c"; "d"] ns;
  '(ns, _) ← run_at "b" (λ s, Ok (RemoveServer "a" s)) ns;
  ns ← replicate_all 1000000000 "b" ["c"; "c"] ns;
  ns ← campaign 2000000000 "a" ["d"; "e"] ns;
  ns ← campaign 3000000000 "a" ["d"; "e"] ns;
  replicate_all 3000000000 "a" ["d"; "e"; "d"; "e"] ns.

(** Committed entries are lost when two leaders each change the membership by one
    server.  [changeConfiguration] lets a new leader change the configuration before it
    has committed an entry of its own term, so b's removal of a starts from the
    configuration without e while a's addition of e is still in a's log.  The
    majorities {b, c} of three and {a, d, e} of five do not meet: both leaders have
    committed three entries, and the second and the third of them differ. *)
Theorem crossed_changes_diverge :
  ∃ ns sa sb, crossed_changes = Some ns ∧ ns !! "a" = Some sa ∧ ns !! "b" = Some sb ∧
    commitIndex sa = 3 ∧ commitIndex sb = 3 ∧
    termAt (log sa) 2 = Some 1 ∧ termAt (log sb) 2 = Some 2 ∧
    termAt (log sa) 3 = Some 3 ∧ termAt (log sb) 3 = Some 2.
Proof.
  assert ((ns ← crossed_changes; a ← ns !! "a"; b ← ns !! "b";
    Some ((commitIndex a, termAt (log a) 2, termAt (log a) 3), (commitIndex b, termAt (log b) 2, termAt (log b) 3)))
    = Some ((3, Some 1, Some 3), (3, Some 2, Some 2))) as Hrun by (vm_compute; reflexivity).
  apply bind_Some in Hrun as (ns & Hns & Hrun). apply bind_Some in Hrun as (sa & Ha & Hrun).
  apply bind_Some in Hrun as (sb & Hb & Hrun). exists ns, sa, sb. injection Hrun as C1 A2 A3 C2 B2 B3. by split_and!.
Qed.

(** ** A compaction and a snapshot from the leader *)

Definition bank_command (op : Z) (key : string) (amount : Z) : option bytes :=
  Some (LedgerCodec.Encode (Ledger.mkCommand op key "" "alice" amount (Hlc.mkTimestamp 1 0))).

Definition submit_at (me : NodeID) (cmd : option bytes) (ns : servers) : option servers :=
  fst <$> run_at me (Submit cmd) ns.

(** n1 leads; an account is opened on all three; n3 takes a snapshot to compact with,
    and releases its mutex.  A deposit commits on n1 and n2, n1 compacts and sends n3
    its snapshot, which n3 installs; then n3 writes the snapshot it had taken, finds
    that its log has moved on, and leaves it.  n3 crashes and restarts. *)
Definition overtaken_compaction : option (bank_server * bank_server) :=
  ns ← campaign 0 "n1" ["n2"] (fresh_cluster three);
  ns ← submit_at "n1" (bank_command Ledger.OpOpenAccount "k1" 100) ns;
  ns ← replicate_all 0 "n1" ["n2"; "n3"; "n2"; "n3"] ns;
  s3 ← ns !! "n3";
  match compact_take 1 s3 with
  | inl _ => None
  | inr (idx, term, data) =>
      ns ← submit_at "n1" (bank_command Ledger.OpDeposit "k2" 50) ns;
      ns ← replicate_all 0 "n1" ["n2"] ns;
      s1 ← ns !! "n1";
      let (s1, _) := MaybeCompact 1 s1 in
      args ← (snapshot_request (currentTerm s1) s1).2;
      let (s3, _) := InstallSnapshot env0 args s3 in
      let (s3, _) := compact_save idx term data s3 in
      let (s3, _) := compact_finish idx term data s3 in
      Some (s1, reboot s3)
  end.

Definition alice (s : bank_server) : option Z := m ← sm s; Ledger.balances (LedgerCodec.m_State m) !! "alice".

(** A compaction overwrites the leader's snapshot.  [MaybeCompact] writes the snapshot
    without the mutex and without looking at the one on disk; if [InstallSnapshot]
    has run in between, the older snapshot replaces the newer one while the log starts
    after the newer one.  After a restart n3 counts three entries as applied, as n1
    does, but the third, a deposit of 50, never reached its ledger. *)
Theorem overtaken_compaction_loses_entries :
  ∃ s1 s3, overtaken_compaction = Some (s1, s3) ∧
    lastApplied s1 = 3 ∧ lastApplied s3 = 3 ∧ alice s1 = Some 150 ∧ alice s3 = Some 100.
Proof.
  assert (((λ x, (lastApplied x.1, lastApplied x.2, alice x.1, alice x.2)) <$> overtaken_compaction)
    = Some (3, 3, Some 150, Some 100)) as Hrun by (vm_compute; reflexivity).
  apply fmap_Some in Hrun as ([s1 s3] & Hrun & [= ? ? ? ?]). exists s1, s3. by split_and!.
Qed.

(** * Raft: concrete reads

    A read that is confirmed (the instance of [ReadIndex_confirms_leadership]),
    and the read a new leader answers from a state that misses a committed
    entry. *)

From S2P Require Import Hlc Ledger RaftRead.
From S2P Require Import RaftReads.

(** ** A read that is confirmed *)

Definition n1_read : ReadCall := mkRead "n1" 1 0 three 2 ["n2"; "n3"] [] [] 1.
Definition n1_heartbeat : AppendEntriesArgs := mkAppendEntries 1 "n1" 1 1 [] 0.
Definition n2_heard : bank_server := after (OpAppendEntries env0 n1_heartbeat) n2_voted.

Lemma confirmed_run (c : cluster (SM := LedgerCodec.Machine) (St := disk)) :
  c_nodes c !! "n1" = Some (Up n1_leads) → c_nodes c !! "n2" = Some (Up n2_voted) →
  ∃ rc, rtc (rstep (storable := fits)) (mkRCluster c []) rc ∧
    mkTracked (count_ack "n2" (answered "n2" true n1_read)) c [("n2", n1_heartbeat)]
      [("n2", mkAppendEntriesReply 1 false)] ∈ rc_reads rc.
Proof.
  intros H1 H2. eexists. split.
  { eapply rtc_l.
    { apply (rstep_begin _ "n1" n1_leads n1_read); [exact H1|vm_compute; reflexivity]. }
    eapply rtc_l.
    { apply (rstep_send _ [] (mkTracked n1_read c [] []) [] n1_leads "n2" n1_heartbeat);
        [reflexivity|exact H1|by left|vm_compute; reflexivity]. }
    eapply rtc_l.
    { eapply (rstep_handle _ [] _ [] env0 "n2" n1_heartbeat n2_voted n2_heard (mkAppendEntriesReply 1 false));
        [reflexivity|by left|exact H2|vm_compute; reflexivity|].
      apply persistableb_spec. vm_compute. reflexivity. }
    eapply rtc_l.
    { eapply (rstep_reply _ [] _ [] "n2" (mkAppendEntriesReply 1 false) n1_leads n1_leads true);
        [reflexivity|by left|by left| |vm_compute; reflexivity|].
      - simpl. rewrite lookup_insert_ne by done. exact H1.
      - apply persistableb_spec. vm_compute. reflexivity. }
    eapply rtc_l; [|apply rtc_refl]. eapply (rstep_count _ [] _ [] "n2"); [reflexivity|]. by left. }
  by left.
Qed.

Lemma lift_run (c c' : cluster (SM := LedgerCodec.Machine) (St := disk)) :
  rtc (cstep (storable := fits)) c c' → rtc (rstep (storable := fits)) (mkRCluster c []) (mkRCluster c' []).
Proof. induction 1; [apply rtc_refl|]. eapply rtc_l; [by apply rstep_cluster|]. done. Qed.

Lemma ReadIndex_confirms_leadership_witness :
  ReadIndex_finish (count_ack "n2" (answered "n2" true n1_read)) n1_leads = inr 0 ∧
  ∃ c : cluster (SM := LedgerCodec.Machine) (St := disk),
    c_promotions c = [mkPromotion 1 "n1" three] ∧ p_term (mkPromotion 1 "n1" three) ≤ currentTerm n1_leads.
Proof.
  destruct n1_elected_run as (c & Hrun & Hp & H1 & H2).
  destruct (confirmed_run c H1 H2) as (rc & Hread & Hin).
  assert (ReadIndex_finish (count_ack "n2" (answered "n2" true n1_read)) n1_leads = inr 0) as Hfin
    by (vm_compute; reflexivity).
  split; [exact Hfin|]. exists c. split; [exact Hp|].
  refine (proj2 (ReadIndex_confirms_leadership (storable := fits) (mkRCluster quiet_cluster []) rc _ n1_leads 0
    _ _ Hin eq_refl Hfin _ _) (mkPromotion 1 "n1" three) _ _ _ _).
  - split; [exact quiet_cluster_initial|reflexivity].
  - etrans; [by apply lift_run|exact Hread].
  - by apply (bool_decide_unpack _).
  - by apply (bool_decide_unpack _).
  - simpl. rewrite Hp. by left.
  - by apply (bool_decide_unpack _).
  - by apply (bool_decide_unpack _).
  - left. done.
Defined.

(** ** A read that misses a committed entry *)

Definition open_alice : Command := mkCommand OpOpenAccount "k1" "" "alice" 0 (mkTimestamp 1 0).

(** One heartbeat exchange of a read. *)
Definition read_exchange (t : Z) (peer : NodeID) (r : ReadCall) (ns : servers) : option (servers * ReadCall) :=
  s ← ns !! rd_server r;
  args ← read_request r s;
  '(ns, reply) ← run_at peer (AppendEntries (mkEnv t 0) args) ns;
  '(ns, ok) ← run_at (rd_server r) (read_reply (rd_term r) reply) ns;
  Some (ns, if (ok : bool) then count_ack peer (answered peer true r) else answered peer false r).

Definition applied_at (me : NodeID) (ns : servers) : option (Z * (Z * bool)) :=
  s ← ns !! me;
  m ← sm s;
  Some (lastApplied s, Balance (LedgerCodec.m_State m) "alice").

(** n1 leads, commits and applies the opening of an account with the
    acknowledgement of n2; it is cut off, and n2 is elected by n3.  A read at n2
    is confirmed by n3's answer to its heartbeat. *)
Definition stale_read : option (option (Z * (Z * bool)) * bool * (string + Z) * option (Z * (Z * bool))) :=
  ns ← campaign 0 "n1" ["n2"] (fresh_cluster three);
  ns ← replicate_all 0 "n1" ["n2"; "n3"] ns;
  '(ns, _) ← run_at "n1" (Submit (Some (LedgerCodec.Encode open_alice))) ns;
  ns ← replicate_all 0 "n1" ["n2"] ns;
  ns' ← campaign 1000000000 "n2" ["n3"] ns;
  s ← ns' !! "n2";
  match ReadIndex_begin s with
  | ReadPending r =>
      '(ns', r) ← read_exchange 1000000000 "n3" r ns';
      s ← ns' !! "n2";
      Some (applied_at "n1" ns, confirmed r, ReadIndex_finish r s,
            _ ← read_wait (rd_idx r) 0 0 s; applied_at "n2" ns')
  | _ => None
  end.

(** A linearizable read misses a committed write.  n1 has committed and
    applied entry 2, which opens the account alice, so its client has been told.
    n2 holds the entry, is elected in the next term and is asked to read before
    its blank entry is replicated: [ReadIndex] takes the commit index as it
    stands (1), is confirmed by n3 although n3 refuses the heartbeat (its log is
    behind), and the read finds no account. *)
Theorem ReadIndex_misses_committed :
  stale_read = Some (Some (2, (0, true)), true, inr 1, Some (1, (0, false))).
Proof. vm_compute. reflexivity. Qed.
