(* ===== verification/RaftWitnesses.v ===== *)
(** * Raft: concrete instances of the theorems

    The election of n1 in a cluster of three, its first replication, commits,
    a membership change, a compaction and a restart, on the file storage and
    the ledger machine. *)

From S2P Require Import Prelude GoLib Storage RaftTypes RaftLog RaftCodec RaftServer RaftLoop RaftSnapshot.
From S2P Require Import RaftVotes RaftNode RaftReplication RaftCommit RaftRestart RaftElection RaftDisk RaftScenarios.
From S2P Require LedgerCodec LedgerSnapshot.

Local Open Scope Z_scope.

(** ** Encodings *)

Definition two_entries : list LogEntry := [zeroEntry; mkEntry 1 1 (Some [Byte.x07])].

Lemma two_entries_ok : state_ok 1 (Some "n2") two_entries.
Proof.
  split.
  - by vm_compute.
  - intros v [= <-]. by vm_compute.
  - by vm_compute.
  - repeat constructor; by vm_compute.
Qed.

Lemma decodeState_roundtrip_witness :
  ∃ log', decodeState (encodeState 1 (Some "n2") two_entries) = Some (1, Some "n2", log') ∧ length log' = 2%nat.
Proof.
  destruct (decodeState_roundtrip 1 (Some "n2") two_entries two_entries_ok) as (l & E & Hn & _).
  exists l. split; [exact E|exact Hn].
Defined.

Lemma decodeConfig_roundtrip_witness :
  decodeConfig (encodeConfig three) = inr three ∧
  ∃ err, decodeConfig (take 20 (encodeConfig three)) = inl err.
Proof.
  apply (decodeConfig_roundtrip three _ (drop 20 (encodeConfig three))).
  - split; [by vm_compute|]. repeat constructor; by vm_compute.
  - symmetry. apply take_drop.
  - vm_compute. discriminate.
Defined.

(** ** Replication *)

Definition first_request : AppendEntriesArgs :=
  mkAppendEntries 1 "n1" 0 0 [mkEntry 1 1 None] 0.

Definition n2_follows : bank_server := after (OpAppendEntries env0 first_request) n2_voted.

Lemma AppendEntries_receiver_witness :
  termAt (log n2_follows) 1 = Some 1 ∧
  appendFrom 0 [mkEntry 1 1 None] (log n2_follows) = (log n2_follows, false).
Proof.
  assert (AppendEntries env0 first_request n2_voted = Ok (n2_follows, mkAppendEntriesReply 1 true)) as HA
    by (vm_compute; reflexivity).
  destruct (AppendEntries_receiver env0 first_request n2_voted n2_follows _ ltac:(solve_wf)
    ltac:(by vm_compute) ltac:(by vm_compute) HA) as (_ & _ & Hok).
  destruct (Hok eq_refl) as (_ & Hpres & _ & Hagain). split; [|exact Hagain].
  refine (Hpres 0%nat (mkEntry 1 1 None) eq_refl _). vm_compute. reflexivity.
Defined.

Lemma fresh_entry j x : entryAt [zeroEntry] j = Some x → j = 0 ∧ x = zeroEntry.
Proof.
  unfold entryAt, baseIndex, lastIndex, slot. simpl.
  destruct (Z.ltb_spec j 0), (Z.ltb_spec 0 j); simpl; try done; try lia.
  replace j with 0 by lia. intros E. vm_compute in E. simplify_eq. split; [lia|done].
Qed.

Lemma replication_matches_witness :
  matching_logs (log n2_follows) (log n1_leads) ∧
  entryAt (log n2_follows) 1 = entryAt (log n1_leads) 1.
Proof.
  assert (AppendEntries env0 first_request n2_voted = Ok (n2_follows, mkAppendEntriesReply 1 true)) as HA
    by (vm_compute; reflexivity).
  assert (matching_logs (log n2_voted) (log n1_leads)) as HLM.
  { assert (log n2_voted = [zeroEntry]) as -> by (vm_compute; reflexivity).
    intros i t _ _ j x X _ [-> ->]%fresh_entry HX.
    assert (entryAt (log n1_leads) 0 = Some zeroEntry) as E by (vm_compute; reflexivity).
    rewrite E in HX. injection HX as <-. by split. }
  destruct (replication_matches "n2" 1 env0 n1_leads first_request n2_voted n2_follows _
    ltac:(solve_wf) ltac:(solve_wf) ltac:(by vm_compute) HLM ltac:(by vm_compute)
    ltac:(vm_compute; reflexivity) ltac:(vm_compute; intros [? ?]; discriminate) HA) as [Hkeep Hsame].
  split; [exact Hkeep|].
  assert (baseIndex (log n2_voted) = 0 ∧ baseIndex (log n1_leads) = 0 ∧ lastIndex (log n1_leads) = 1)
    as (E1 & E2 & E3) by (split_and!; vm_compute; reflexivity).
  refine (Hsame eq_refl 1 _ _); [rewrite E1|rewrite E2, E3]; lia.
Defined.

(** ** Committing and applying *)

Definition submitted : bank_server := after (OpSubmit (Some [Byte.x07])) n1_leads.
Definition acked : bank_server :=
  set_matchIndex (<["n2":=2]> (matchIndex submitted)) submitted.
Definition committed : bank_server :=
  match advanceCommitIndexLocked acked with Ok s => s | Panic s => s end.

Lemma advanceCommitIndex_rule_witness :
  commitIndex committed = 2 ∧ committable 2 acked.
Proof.
  destruct (advanceCommitIndex_rule acked committed ltac:(solve_wf) ltac:(by vm_compute)
    ltac:(vm_compute; reflexivity)) as [_ Hlead].
  assert (commitIndex committed = 2) as E by (vm_compute; reflexivity). split; [exact E|].
  destruct Hlead as [[Hs _]|(_ & Hc & _)]; [vm_compute; reflexivity| |by rewrite E in Hc].
  apply (f_equal commitIndex) in Hs. rewrite E in Hs. vm_compute in Hs. discriminate.
Defined.

Definition waiting : bank_server := WaitApplied 2 7%nat (set_commitIndex 2 submitted).

Lemma applyCommitted_applies_witness :
  ∃ s', applyCommitted waiting = Ok s' ∧ lastApplied s' = 2 ∧ 7%nat ∈ closedChans s'.
Proof.
  pose proof (applyCommitted_applies waiting ltac:(solve_wf) ltac:(split; by vm_compute) ltac:(by vm_compute)) as Ha.
  destruct (apply_all (entries_between (lastApplied waiting) (commitIndex waiting) (log waiting)) (sm waiting))
    as [m|] eqn:E; [|vm_compute in E; discriminate].
  destruct Ha as (s' & Hs & _ & Hla & _ & _ & Hw). exists s'. split; [exact Hs|]. split; [exact Hla|].
  refine (proj1 (proj1 (Hw 2 [7%nat] 7%nat _ _) _)); [vm_compute; reflexivity|by left|by vm_compute].
Defined.

(** ** Membership *)

Definition changed : bank_server := (AddServer "n4" committed).1.

(** The leader takes a command after the change. *)
Definition changed_busy : bank_server :=
  match exec (OpSubmit (Some [Byte.x01])) changed with Ok (s, _) => s | Panic s => s end.

Lemma changed_busy_run : runs [OpSubmit (Some [Byte.x01])] changed changed_busy.
Proof. eapply runs_cons; [exact I|vm_compute; reflexivity|]. apply runs_nil. Qed.

Lemma changeConfiguration_single_witness :
  peers changed = ["n1"; "n2"; "n3"; "n4"] ∧ lastIndex (log changed_busy) = 4 ∧
  ∀ mutate, ∃ err, changeConfiguration mutate changed_busy = (changed_busy, inl err).
Proof.
  split; [vm_compute; reflexivity|]. split; [vm_compute; reflexivity|].
  assert (changeConfiguration (λ c,
    if Contains c "n4" then inl ("raft: " +:+ "n4" +:+ " is already in the configuration")
    else inr (withServer c "n4")) committed = (changed, inr 3)) as HA by (vm_compute; reflexivity).
  destruct (changeConfiguration_single (storable := fits) _ committed changed 3 ltac:(solve_wf) ltac:(by vm_compute)
    ltac:(by vm_compute) ltac:(by vm_compute) HA) as (_ & _ & _ & _ & _ & _ & _ & _ & _ & Hno).
  apply (Hno [OpSubmit (Some [Byte.x01])] changed_busy).
  - by repeat constructor.
  - exact changed_busy_run.
  - vm_compute. reflexivity.
  - vm_compute. reflexivity.
Defined.

(** ** Compaction and restart *)

Definition applied_two : bank_server :=
  match applyCommitted waiting with Ok s => s | Panic s => s end.
Definition compacted : bank_server := (MaybeCompact 1 applied_two).1.

Lemma MaybeCompact_keeps_witness :
  baseIndex (log compacted) = 2 ∧ lastIndex (log compacted) = 2 ∧ log_wf (log compacted).
Proof.
  destruct (MaybeCompact_keeps 1 applied_two compacted None ltac:(solve_wf) ltac:(vm_compute; reflexivity))
    as (m & snapper & data & e & _ & _ & _ & _ & _ & _ & Hwf & Hb & _ & Hlast & _).
  split; [rewrite Hb; vm_compute; reflexivity|]. split; [rewrite Hlast; vm_compute; reflexivity|exact Hwf].
Defined.

Definition compacted_disk : disk := default ∅ (storage compacted).

Lemma snapshot_state_ok : state_ok 1 (Some "n1") [mkEntry 1 2 None].
Proof.
  split; [by vm_compute| |by vm_compute|repeat constructor; by vm_compute].
  intros v [= <-]. by vm_compute.
Qed.

Lemma compacted_left :
  left_on_disk compacted compacted_disk (disk_applied st_sample) (disk_snapshots st_sample "/data/tmp") 2
    bank_machine bank_machine.
Proof.
  assert (log compacted = [mkEntry 1 2 None]) as El by (vm_compute; reflexivity).
  assert (votedFor compacted = Some "n1") as Ev by (vm_compute; reflexivity).
  assert (currentTerm compacted = 1) as Et by (vm_compute; reflexivity).
  split.
  - vm_compute. reflexivity.
  - rewrite El, Ev, Et. apply snapshot_state_ok.
  - solve_wf.
  - rewrite El. repeat constructor. by vm_compute.
  - vm_compute. reflexivity.
  - vm_compute. by split_and!.
  - right. exists 1, (LedgerSnapshot.Machine_Snapshot bank_machine), (mkSnapshotter _
      (λ m, inr (LedgerSnapshot.Machine_Snapshot m)) LedgerSnapshot.Machine_RestoreSnapshot).
    split; [vm_compute; reflexivity|]. split; [vm_compute; reflexivity|]. split; [reflexivity|].
    vm_compute. reflexivity.
  - vm_compute. reflexivity.
Qed.

Lemma Restore_rebuilds_witness :
  ∃ s', Restore (new_server "n1" three compacted_disk) = Ok (inr s') ∧ currentTerm s' = currentTerm compacted ∧
    sm s' = sm compacted ∧ lastApplied s' = lastApplied compacted.
Proof.
  assert (st_Applied (St := disk) = Some (disk_applied st_sample)) as Ha by reflexivity.
  assert (st_Snapshot (St := disk) = Some (disk_snapshots st_sample "/data/tmp")) as Hs by reflexivity.
  destruct (Restore_rebuilds compacted compacted_disk (disk_applied st_sample)
    (disk_snapshots st_sample "/data/tmp") 2 bank_machine bank_machine "n1" three
    SnapshotCapable DefaultConfig Ha Hs compacted_left)
    as (s' & Hr & Ht & _ & Hm & Hla & _). exists s'. split; [exact Hr|]. split; [exact Ht|]. by split.
Defined.
