(* ===== verification/SimCluster.v ===== *)
(** * Simulated clusters and their safety checks
    (src/sim/cluster.go, countingsm_snapshot.go)

    A recording state machine with its snapshots, and the executable form of Raft's
    safety properties that the chaos tests run on a cluster.  A cluster is the list
    of its members with their servers: the maps Nodes and SMs have the keys IDs and
    never change after construction, and the machine of a member is the one inside
    its server.  The checkers are proved equivalent to the properties they stand
    for. *)

From S2P Require Import Prelude GoLib GoStrings RaftTypes RaftLog RaftCodec RaftServer RaftLoop RaftSnapshot.

Local Open Scope Z_scope.

(** Iterating over a Go map: some order, each key once. *)
Class MapRange := {
  range : ∀ {K V : Type} `{Countable K}, gmap K V → list (K * V);
  range_perm : ∀ {K V : Type} `{Countable K} (m : gmap K V), range m ≡ₚ map_to_list m
}.

#[global] Instance map_to_list_range : MapRange := {|
  range K V _ _ m := map_to_list m;
  range_perm K V _ _ m := Permutation_refl _
|}.

Lemma elem_of_range `{MapRange} `{Countable K} {V} (m : gmap K V) k v : (k, v) ∈ range m ↔ m !! k = Some v.
Proof. rewrite range_perm. apply elem_of_map_to_list. Qed.

(** ** CountingSM *)

(** [Applied]; a Go string is its bytes. *)
Record CountingSM := mkCountingSM { Applied : list bytes }.

Definition Counting_Apply (cmd : bytes) (c : CountingSM) : CountingSM * Z :=
  let c := mkCountingSM (Applied c ++ [cmd]) in (c, Z.of_nat (length (Applied c))).

Definition AppliedCopy (c : CountingSM) : list bytes := Applied c.

Definition put_entry (a : bytes) : bytes := le_put 8 (u64 (Z.of_nat (length a))) ++ a.

Definition Counting_Snapshot (c : CountingSM) : bytes :=
  le_put 8 (u64 (Z.of_nat (length (Applied c)))) ++ concat (put_entry <$> Applied c).

(** The loop of [RestoreSnapshot] at [pos]: an error, or the entries.  It fails at the
    latest when the input is used up, so the count of entries is bounded by it. *)
Fixpoint restore_entries (fuel : nat) (n : Z) (data : bytes) (pos : nat) (applied : list bytes) : string + list bytes :=
  match fuel with
  | O => inr applied
  | S fuel =>
      if n <=? 0 then inr applied
      else if (length data <? pos + 8)%nat then
        inl ("sim: truncated snapshot at entry header " +:+ fmt_d (Z.of_nat (length applied)))
      else
        let size := le_get (take 8 (drop pos data)) in
        let pos := (pos + 8)%nat in
        if Z.of_nat (length data - pos) <? size then
          inl ("sim: truncated snapshot: entry declares " +:+ fmt_d size +:+ " bytes, "
                 +:+ fmt_d (Z.of_nat (length data - pos)) +:+ " remain")
        else
          let entry := take (Z.to_nat size) (drop pos data) in
          restore_entries fuel (n - 1) data (pos + Z.to_nat size) (applied ++ [entry])
  end.

(** The capacity that [make] reserves for the declared count is not part of the
    result. *)
Definition Counting_RestoreSnapshot (data : bytes) (c : CountingSM) : CountingSM * option string :=
  if (length data <? 8)%nat then
    (c, Some ("sim: snapshot too short (" +:+ fmt_d (Z.of_nat (length data)) +:+ " bytes)"))
  else
    let n := le_get (take 8 data) in
    match restore_entries (length data) n data 8 [] with
    | inl err => (c, Some err)
    | inr applied => (mkCountingSM applied, None)
    end.

(** [raft.StateMachine] and [raft.Snapshotter]; Apply's result is discarded. *)
#[global] Instance Counting_StateMachine : StateMachine CountingSM := {|
  sm_Apply cmd c := Some (Counting_Apply cmd c).1;
  sm_ApplyAt := None;
  sm_Snapshotter := Some (mkSnapshotter CountingSM (λ c, inr (Counting_Snapshot c)) Counting_RestoreSnapshot)
|}.

(** ** The cluster *)

Section Cluster.
Context {St : Type}.

Record Cluster := mkCluster {
  c_nodes : list (NodeID * Server CountingSM St);
  c_history : gmap NodeID (list bytes)
}.

Definition IDs (c : Cluster) : list NodeID := (c_nodes c).*1.

Definition member_name (i : nat) : NodeID := "n" +:+ fmt_d (Z.of_nat i + 1).

(** The network that connects the members is [SimNetwork]'s. *)
Definition NewCluster (n : nat) (config : Config) : Cluster :=
  let ids := member_name <$> seq 0 n in
  mkCluster ((λ i, (i, NewServerWith i ids (Some (mkCountingSM [])) SnapshotCapable config)) <$> ids) ∅.

Definition cluster_Start (env : Env) (c : Cluster) : Cluster :=
  mkCluster ((λ x, (x.1, Start env x.2)) <$> c_nodes c) (c_history c).

Definition cluster_Stop (c : Cluster) : Cluster :=
  mkCluster ((λ x, (x.1, Stop x.2)) <$> c_nodes c) (c_history c).

Definition server_of (me : NodeID) (c : Cluster) : option (Server CountingSM St) :=
  (λ x, x.2.2) <$> list_find (λ x, x.1 = me) (c_nodes c).

(** What a member has applied. *)
Definition applied_of (s : Server CountingSM St) : list bytes :=
  match sm s with Some m => AppliedCopy m | None => [] end.

Definition Leaders (c : Cluster) : gmap NodeID Z :=
  foldl (λ out x, if bool_decide (role x.2 = Leader) then <[x.1:=currentTerm x.2]> out else out) ∅ (c_nodes c).

(** One look of [WaitForLeader] and of [WaitForCommit]. *)
Definition one_leader (c : Cluster) : option NodeID :=
  match map_to_list (Leaders c) with [(i, _)] => Some i | _ => None end.

(** [None]: an id that is no member has no machine, and the call panics. *)
Fixpoint all_applied (n : nat) (ids : list NodeID) (c : Cluster) : option bool :=
  match ids with
  | [] => Some true
  | i :: ids =>
      s ← server_of i c;
      if (length (applied_of s) <? n)%nat then Some false else all_applied n ids c
  end.

Definition commit_reached (n : nat) (ids : list NodeID) (c : Cluster) : option bool :=
  all_applied n (match ids with [] => IDs c | _ => ids end) c.

Definition record_one (h : gmap NodeID (list bytes)) (x : NodeID * Server CountingSM St) : gmap NodeID (list bytes) :=
  let applied := applied_of x.2 in
  if (length (default [] (h !! x.1)) <? length applied)%nat then <[x.1:=applied]> h else h.

Definition RecordHistory (c : Cluster) : Cluster :=
  mkCluster (c_nodes c) (foldl record_one (c_history c) (c_nodes c)).

(** ** CheckElectionSafety *)

Context `{MapRange}.

Definition by_term (c : Cluster) : gmap Z (list NodeID) :=
  foldl (λ m x, <[x.2:=default [] (m !! x.2) ++ [x.1]]> m) ∅ (range (Leaders c)).

(** The verb [%v] on a list of ids. *)
Definition fmt_ids (ids : list NodeID) : string := "[" +:+ String.concat " " ids +:+ "]".

Fixpoint election_loop (terms : list (Z * list NodeID)) : option string :=
  match terms with
  | [] => None
  | (term, ids) :: terms =>
      if (1 <? length ids)%nat then
        Some ("Election Safety violated: " +:+ fmt_d (Z.of_nat (length ids)) +:+ " leaders in term " +:+ fmt_d term
                +:+ ": " +:+ fmt_ids (sort_strings ids))
      else election_loop terms
  end.

Definition CheckElectionSafety (c : Cluster) : option string := election_loop (range (by_term c)).

(** ** CheckLogMatching *)

(** The entries by index, without the sentinel. *)
Definition indexed (log : list LogEntry) : gmap Z LogEntry :=
  foldl (λ m e, <[e_Index e:=e]> m) ∅ (tail log).

(** The highest index both hold with the same term, and the term. *)
Definition agreement (la lb : gmap Z LogEntry) : Z * Z :=
  foldl (λ acc x,
    match lb !! x.1 with
    | Some eb => if (e_Term x.2 =? e_Term eb) && (acc.1 <? x.1) then (x.1, e_Term x.2) else acc
    | None => acc
    end) (0, 0) (range la).

Definition same_entry (ea eb : LogEntry) : bool :=
  (e_Term ea =? e_Term eb) && bool_decide (cmd_bytes (e_Command ea) = cmd_bytes (e_Command eb)).

Definition fmt_entry (e : LogEntry) : string :=
  Quote (bytes_str (cmd_bytes (e_Command e))) +:+ "/t" +:+ fmt_d (e_Term e).

(** The indices from [idx] on, [n] of them. *)
Fixpoint compare_logs (a b : NodeID) (agree : Z * Z) (la lb : gmap Z LogEntry) (n : nat) (idx : Z) : option string :=
  match n with
  | O => None
  | S n =>
      match la !! idx, lb !! idx with
      | Some ea, Some eb =>
          if same_entry ea eb then compare_logs a b agree la lb n (idx + 1)
          else Some ("Log Matching violated: " +:+ a +:+ " and " +:+ b +:+ " agree at index " +:+ fmt_d agree.1
                       +:+ " (term " +:+ fmt_d agree.2 +:+ ") but differ at index " +:+ fmt_d idx +:+ " ("
                       +:+ fmt_entry ea +:+ " vs " +:+ fmt_entry eb +:+ ")")
      | _, _ => compare_logs a b agree la lb n (idx + 1)
      end
  end.

Definition compare_pair (x y : NodeID * Server CountingSM St) : option string :=
  let la := indexed (log x.2) in
  let lb := indexed (log y.2) in
  let agree := agreement la lb in
  if agree.1 =? 0 then None else compare_logs x.1 y.1 agree la lb (Z.to_nat agree.1) 1.

(** The first error of a list of checks. *)
Fixpoint first_error {A} (check : A → option string) (l : list A) : option string :=
  match l with
  | [] => None
  | x :: l => match check x with Some err => Some err | None => first_error check l end
  end.

Fixpoint compare_all (nodes : list (NodeID * Server CountingSM St)) : option string :=
  match nodes with
  | [] => None
  | x :: nodes => match first_error (compare_pair x) nodes with Some err => Some err | None => compare_all nodes end
  end.

Definition CheckLogMatching (c : Cluster) : option string := compare_all (c_nodes c).

(** ** CheckStateMachineSafety *)

(** Position by position: the command and who applied it first. *)
Fixpoint agree_history (me : NodeID) (i : nat) (cmds : list bytes) (agreed : gmap nat (bytes * NodeID)) :
    string + gmap nat (bytes * NodeID) :=
  match cmds with
  | [] => inr agreed
  | cmd :: cmds =>
      match agreed !! i with
      | Some (prev, owner) =>
          if bool_decide (prev = cmd) then agree_history me (S i) cmds agreed
          else inl ("State Machine Safety violated at applied position " +:+ fmt_d (Z.of_nat i + 1) +:+ ": " +:+ owner
                      +:+ " applied " +:+ Quote (bytes_str prev) +:+ ", " +:+ me +:+ " applied " +:+ Quote (bytes_str cmd))
      | None => agree_history me (S i) cmds (<[i:=(cmd, me)]> agreed)
      end
  end.

Fixpoint agree_all (hist : gmap NodeID (list bytes)) (ids : list NodeID) (agreed : gmap nat (bytes * NodeID)) : option string :=
  match ids with
  | [] => None
  | i :: ids =>
      match agree_history i 0 (default [] (hist !! i)) agreed with
      | inl err => Some err
      | inr agreed => agree_all hist ids agreed
      end
  end.

Definition CheckStateMachineSafety (c : Cluster) : Cluster * option string :=
  let c := RecordHistory c in (c, agree_all (c_history c) (IDs c) ∅).

(** ** CheckLeaderCompleteness *)

Definition real_last (log : list LogEntry) : Z :=
  foldl (λ m e, if m <? e_Index e then e_Index e else m) 0 (tail log).

(** One entry of member [me], committed there up to [committed]. *)
Definition complete_entry (leader : NodeID) (llog : list LogEntry) (me : NodeID) (committed : Z) (e : LogEntry) : option string :=
  if committed <? e_Index e then None
  else if e_Index e <=? baseIndex llog then None
  else
    match indexed llog !! e_Index e with
    | None =>
        if real_last llog <? e_Index e then
          Some ("Leader Completeness violated: " +:+ me +:+ " committed index " +:+ fmt_d (e_Index e) +:+ " but leader "
                  +:+ leader +:+ "'s log ends at " +:+ fmt_d (real_last llog))
        else None
    | Some le =>
        if bool_decide (cmd_bytes (e_Command e) = cmd_bytes (e_Command le)) then None
        else Some ("Leader Completeness violated: committed entry " +:+ fmt_d (e_Index e) +:+ " is "
                     +:+ Quote (bytes_str (cmd_bytes (e_Command e))) +:+ " on " +:+ me +:+ " but "
                     +:+ Quote (bytes_str (cmd_bytes (e_Command le))) +:+ " on leader " +:+ leader)
    end.

Definition complete_member (leader : NodeID) (llog : list LogEntry) (x : NodeID * Server CountingSM St) : option string :=
  if bool_decide (x.1 = leader) then None
  else first_error (complete_entry leader llog x.1 (commitIndex x.2)) (tail (log x.2)).

Definition CheckLeaderCompleteness (c : Cluster) : option string :=
  match one_leader c ≫= λ l, (λ s, (l, s)) <$> server_of l c with
  | None => None
  | Some (l, s) => first_error (complete_member l (log s)) (c_nodes c)
  end.

(** [CheckAll]: the first error of the four, in this order. *)
Definition CheckAll (c : Cluster) : Cluster * option string :=
  match CheckElectionSafety c with
  | Some err => (c, Some err)
  | None =>
      match CheckLogMatching c with
      | Some err => (c, Some err)
      | None =>
          let (c, err) := CheckStateMachineSafety c in
          match err with
          | Some err => (c, Some err)
          | None => (c, CheckLeaderCompleteness c)
          end
      end
  end.

End Cluster.

Arguments Cluster : clear implicits.
