(* ===== verification/SimChecks.v ===== *)
(** * The safety checks are exact

    Each checker of [SimCluster] reports nothing exactly when the property of Raft
    that it is named after holds of the states it looks at, and the snapshots of the
    recording machine are read back as written. *)

From S2P Require Import Prelude GoLib RaftTypes RaftLog RaftCodec RaftServer RaftVotes RaftNode RaftElection SimCluster.

Local Open Scope Z_scope.

Section Checks.
Context {St : Type} `{MapRange}.
Implicit Types c : Cluster St.

Lemma first_error_None {A} (check : A → option string) l : first_error check l = None ↔ ∀ a, a ∈ l → check a = None.
Proof.
  induction l as [|a l IH]; simpl; [split; [by intros _ a ?%elem_of_nil|done]|].
  destruct (check a) eqn:E; [split; [done|intros Hall; by rewrite Hall in E by by left]|].
  rewrite IH. split; [intros Hl b [->|?]%elem_of_cons; auto|]. intros Hl b Hb. apply Hl. by right.
Qed.

(** ** Elections *)

Definition leads c (i : NodeID) (t : Z) : Prop := ∃ s, (i, s) ∈ c_nodes c ∧ role s = Leader ∧ currentTerm s = t.

Lemma Leaders_spec c i t : NoDup (IDs c) → Leaders c !! i = Some t ↔ leads c i t.
Proof.
  unfold IDs, Leaders, leads. intros Hnd.
  assert (∀ (l : list (NodeID * Server CountingSM St)) (m : gmap NodeID Z), NoDup l.*1 → (∀ j, j ∈ l.*1 → m !! j = None) →
    foldl (λ out y, if bool_decide (role y.2 = Leader) then <[y.1:=currentTerm y.2]> out else out) m l !! i = Some t
    ↔ m !! i = Some t ∨ ∃ s, (i, s) ∈ l ∧ role s = Leader ∧ currentTerm s = t) as Hl.
  { intros l. induction l as [|[j s] l IH]; intros m Hn Hm; csimpl.
    { split; [by left|]. intros [?|(s & ?%elem_of_nil & _)]; done. }
    csimpl in Hn. apply NoDup_cons in Hn as [Hj Hn]. rewrite IH; [|done|].
    - case_bool_decide as E.
      + destruct (decide (i = j)) as [->|Hne].
        * rewrite lookup_insert_eq. split.
          -- intros [Heq|(s' & Hs' & _)]; [right; exists s; split; [by left|split; congruence]|].
             destruct Hj. apply list_elem_of_fmap. by exists (j, s').
          -- intros [Hk|(s' & [Heq|Hs']%elem_of_cons & ? & <-)]; [|left; congruence|].
             ++ rewrite Hm in Hk; [done|]. by left.
             ++ destruct Hj. apply list_elem_of_fmap. by exists (j, s').
        * rewrite lookup_insert_ne by done. split; (intros [?|(s' & Hs' & ?)]; [by left|right; exists s'; split; [|done]]).
          -- by right.
          -- apply elem_of_cons in Hs' as [?|?]; [congruence|done].
      + split; (intros [?|(s' & Hs' & ?)]; [by left|right; exists s'; split; [|done]]).
        * by right.
        * apply elem_of_cons in Hs' as [[= -> ->]|?]; [destruct E; by destruct_and!|done].
    - intros k Hk. case_bool_decide; [rewrite lookup_insert_ne; [|by intros ->]|]; apply Hm; by right. }
  rewrite Hl; [|done|done]. split; [intros [?|?]; [done|done]|by right].
Qed.

(** The ids of a term, counted in any order of the map. *)
Lemma by_term_spec (l : list (NodeID * Z)) (m : gmap Z (list NodeID)) t :
  default [] (foldl (λ m x, <[x.2:=default [] (m !! x.2) ++ [x.1]]> m) m l !! t)
  = default [] (m !! t) ++ (filter (λ x, x.2 = t) l).*1.
Proof.
  revert m. induction l as [|[i u] l IH]; intros m; csimpl; [by rewrite app_nil_r|].
  rewrite IH. rewrite filter_cons. simpl. destruct (decide (u = t)) as [->|Hne].
  - rewrite lookup_insert_eq. csimpl. by rewrite <- app_assoc.
  - by rewrite lookup_insert_ne.
Qed.

Lemma election_loop_None terms : election_loop terms = None ↔ ∀ t ids, (t, ids) ∈ terms → (length ids ≤ 1)%nat.
Proof.
  induction terms as [|[t ids] terms IH]; simpl; [split; [by intros _ t ids ?%elem_of_nil|done]|].
  destruct (Nat.ltb_spec 1 (length ids)) as [Hlt|Hle].
  - split; [done|]. intros Hall. specialize (Hall t ids). lapply Hall; [lia|by left].
  - rewrite IH. split; [intros Hl u js [[= -> ->]|?]%elem_of_cons; [lia|eauto]|].
    intros Hl u js Hin. apply (Hl u). by right.
Qed.

Lemma CheckElectionSafety_spec c :
  NoDup (IDs c) → CheckElectionSafety c = None ↔ ∀ i j t, leads c i t → leads c j t → i = j.
Proof.
  intros Hnd. unfold CheckElectionSafety. rewrite election_loop_None.
  assert (∀ t, default [] (by_term c !! t) = (filter (λ x, x.2 = t) (range (Leaders c))).*1) as Hby.
  { intros t. unfold by_term. rewrite by_term_spec, lookup_empty. done. }
  assert (∀ i t, i ∈ default [] (by_term c !! t) ↔ leads c i t) as Hin.
  { intros i t. rewrite Hby, list_elem_of_fmap, <- Leaders_spec by done. split.
    - intros ([k u] & -> & [E Hr]%list_elem_of_filter). simpl in E. subst u. by apply elem_of_range in Hr.
    - intros Hl. exists (i, t). split; [done|]. apply list_elem_of_filter. split; [done|]. by apply elem_of_range. }
  split.
  - intros Hlen i j t Hi Hj. apply Hin in Hi, Hj. destruct (by_term c !! t) as [ids|] eqn:E; [|by apply elem_of_nil in Hi].
    simpl in Hi, Hj. specialize (Hlen t ids). lapply Hlen; [intros Hle|by apply elem_of_range].
    destruct ids as [|a [|b ids]]; simpl in Hle; [by apply elem_of_nil in Hi| |lia].
    apply list_elem_of_singleton in Hi, Hj. by subst.
  - intros Hone t ids Hr. apply elem_of_range in Hr.
    assert (NoDup ids) as Hn.
    { specialize (Hby t). rewrite Hr in Hby. simpl in Hby. rewrite Hby. 
      eapply sublist_NoDup; [|apply fmap_sublist, sublist_filter]. rewrite range_perm. apply NoDup_fst_map_to_list. }
    destruct ids as [|a [|b ids]]; simpl; [lia|lia|]. exfalso.
    apply NoDup_cons in Hn as [Hn _]. apply Hn. rewrite (Hone a b t); [by left| |]; apply Hin; rewrite Hr; simpl.
    + by left.
    + right. by left.
Qed.

(** ** Log matching *)

(** The entry with index [i] is in the log and not only its snapshot boundary. *)
Definition retained (l : list LogEntry) (i : Z) (e : LogEntry) : Prop := baseIndex l < i ∧ entryAt l i = Some e.

Definition agree (e f : LogEntry) : Prop := e_Term e = e_Term f ∧ cmd_bytes (e_Command e) = cmd_bytes (e_Command f).

(** Raft's Log Matching property, for what two logs retain. *)
Definition logs_match (l l' : list LogEntry) : Prop :=
  ∀ i e e', retained l i e → retained l' i e' → e_Term e = e_Term e' →
  ∀ j f f', j ≤ i → retained l j f → retained l' j f' → agree f f'.

Lemma logs_match_sym l l' : logs_match l l' → logs_match l' l.
Proof.
  intros Hm i e e' He He' Ht j f f' Hj Hf Hf'. destruct (Hm i e' e He' He (eq_sym Ht) j f' f Hj Hf' Hf). by split.
Qed.

Lemma indexed_wf l i e : log_wf l → indexed l !! i = Some e ↔ retained l i e.
Proof.
  intros Hl. unfold indexed, retained.
  assert (∀ (es : list LogEntry) b (m : gmap Z LogEntry), (∀ k f, es !! k = Some f → e_Index f = b + Z.of_nat k) →
    (∀ j, b ≤ j → m !! j = None) →
    foldl (λ m e, <[e_Index e:=e]> m) m es !! i = Some e ↔ m !! i = Some e ∨ (b ≤ i ∧ es !! Z.to_nat (i - b) = Some e)) as Hf.
  { intros es. induction es as [|f es IH]; intros b m Hi Hm; simpl.
    { rewrite lookup_nil. split; [by left|]. by intros [?|[_ ?]]. }
    pose proof (Hi 0%nat f eq_refl) as Hf0. rewrite (IH (b + 1)).
    - destruct (decide (i = b)) as [->|Hne].
      + replace (Z.to_nat (b - b)) with 0%nat by lia. simpl. replace (e_Index f) with b by lia. rewrite lookup_insert_eq.
        split; [intros [?|[? _]]; [right; split; [lia|done]|lia]|]. intros [Hk|[_ ?]]; [rewrite Hm in Hk by lia; done|by left].
      + rewrite lookup_insert_ne by lia. split; (intros [?|[? Hk]]; [by left|right]).
        * split; [lia|]. replace (Z.to_nat (i - b)) with (S (Z.to_nat (i - (b + 1)))) by lia. done.
        * split; [lia|]. replace (Z.to_nat (i - b)) with (S (Z.to_nat (i - (b + 1)))) in Hk by lia. done.
    - intros k g Hk. rewrite (Hi (S k) g Hk). lia.
    - intros j Hj. rewrite lookup_insert_ne by lia. apply Hm. lia. }
  destruct l as [|s es] eqn:E; [by destruct Hl|]. rewrite <- E in *.
  rewrite (Hf (tail l) (baseIndex l + 1) ∅).
  - rewrite lookup_empty. split.
    + intros [?|[Hi Hk]]; [done|]. split; [lia|]. rewrite entryAt_lookup by (done || lia).
      replace (Z.to_nat (i - baseIndex l)) with (S (Z.to_nat (i - (baseIndex l + 1)))) by lia. by rewrite E in *.
    + intros [Hi Hk]. right. split; [lia|]. rewrite entryAt_lookup in Hk by (done || lia).
      replace (Z.to_nat (i - baseIndex l)) with (S (Z.to_nat (i - (baseIndex l + 1)))) in Hk by lia. by rewrite E in *.
  - intros k f Hk. rewrite (wf_index l Hl (S k) f); [lia|]. by rewrite E in *.
  - intros j _. apply lookup_empty.
Qed.

Lemma agreement_max (l : list (Z * LogEntry)) (lb : gmap Z LogEntry) (acc : Z * Z) :
  let r := foldl (λ acc x,
    match lb !! x.1 with
    | Some eb => if (e_Term x.2 =? e_Term eb) && (acc.1 <? x.1) then (x.1, e_Term x.2) else acc
    | None => acc
    end) acc l in
  acc.1 ≤ r.1 ∧ (∀ i e eb, (i, e) ∈ l → lb !! i = Some eb → e_Term e = e_Term eb → i ≤ r.1) ∧
  (r.1 = acc.1 ∨ ∃ e eb, (r.1, e) ∈ l ∧ lb !! r.1 = Some eb ∧ e_Term e = e_Term eb).
Proof.
  revert acc. induction l as [|[i e] l IH]; intros acc; simpl.
  { split; [lia|]. split; [by intros ??? ?%elem_of_nil|by left]. }
  match goal with |- context [foldl _ ?a l] => set (acc' := a) end.
  destruct (IH acc') as (Hle & Hall & Hor). clear IH. set (r := foldl _ acc' l) in *.
  assert (acc.1 ≤ acc'.1 ∧ (∀ eb, lb !! i = Some eb → e_Term e = e_Term eb → i ≤ acc'.1) ∧
          (acc'.1 = acc.1 ∨ (acc'.1 = i ∧ ∃ eb, lb !! i = Some eb ∧ e_Term e = e_Term eb))) as (H1 & H2 & H3).
  { unfold acc'. destruct (lb !! i) as [eb|] eqn:E; [|split; [lia|split; [done|by left]]].
    destruct (Z.eqb_spec (e_Term e) (e_Term eb)) as [Ht|Ht]; simpl; [|split; [lia|split; [by intros ? [= <-]|by left]]].
    destruct (Z.ltb_spec acc.1 i); simpl; (split; [lia|]); (split; [intros; lia|]); [right|by left]. eauto. }
  split; [lia|]. split.
  - intros j f fb [[= -> ->]|Hj]%elem_of_cons Hb Ht; [specialize (H2 fb Hb Ht); lia|eauto].
  - destruct Hor as [Hr|(f & fb & Hf & ? & ?)]; [|right; exists f, fb; split; [by right|done]].
    rewrite Hr. destruct H3 as [->|(-> & eb & ? & ?)]; [by left|]. right. exists e, eb. split; [by left|done].
Qed.

Lemma compare_logs_None a b ag (la lb : gmap Z LogEntry) n idx :
  compare_logs a b ag la lb n idx = None ↔
  ∀ j ea eb, idx ≤ j < idx + Z.of_nat n → la !! j = Some ea → lb !! j = Some eb → agree ea eb.
Proof.
  revert idx. induction n as [|n IH]; intros idx; cbn [compare_logs]; [split; [intros; lia|done]|].
  assert (∀ ea eb, same_entry ea eb = true ↔ agree ea eb) as Hs.
  { intros ea eb. unfold same_entry, agree. rewrite andb_true_iff, Z.eqb_eq, bool_decide_eq_true. done. }
  assert ((∀ ea eb, la !! idx = Some ea → lb !! idx = Some eb → agree ea eb) →
    compare_logs a b ag la lb n (idx + 1) = None ↔
    ∀ j ea eb, idx ≤ j < idx + Z.of_nat (S n) → la !! j = Some ea → lb !! j = Some eb → agree ea eb) as Hgo.
  { intros H0. rewrite IH. split; intros Hj j ea eb Hr; [|apply Hj; lia].
    destruct (decide (j = idx)) as [->|]; [apply H0|apply Hj; lia]. }
  destruct (la !! idx) as [ea|] eqn:Ea; [|by apply Hgo].
  destruct (lb !! idx) as [eb|] eqn:Eb; [|by apply Hgo].
  destruct (same_entry ea eb) eqn:E.
  - apply Hgo. intros ? ? [= <-] [= <-]. by apply Hs.
  - split; [done|]. intros Hj. rewrite (proj2 (Hs ea eb)) in E; [done|]. apply (Hj idx); [lia|done|done].
Qed.

Lemma compare_pair_spec (x y : NodeID * Server CountingSM St) :
  log_wf (log x.2) → log_wf (log y.2) → compare_pair x y = None ↔ logs_match (log x.2) (log y.2).
Proof.
  intros Hx Hy. unfold compare_pair, agreement.
  pose proof (agreement_max (range (indexed (log x.2))) (indexed (log y.2)) (0, 0)) as (Hnn & Hall & Hor).
  set (r := foldl _ (0, 0) _) in *. simpl in Hnn.
  assert (∀ i e eb, retained (log x.2) i e → retained (log y.2) i eb → e_Term e = e_Term eb → i ≤ r.1) as Hmax.
  { intros i e eb He Heb. apply Hall; [apply elem_of_range|]; by apply indexed_wf. }
  assert (∀ l i e, log_wf l → retained l i e → 1 ≤ i) as Hpos.
  { intros l i e Hl [? _]. pose proof (wf_base l Hl). lia. }
  destruct (Z.eqb_spec r.1 0) as [H0|H0].
  { split; [|done]. intros _ i e e' He He' Ht. specialize (Hmax i e e' He He' Ht). pose proof (Hpos _ _ _ Hx He). lia. }
  destruct Hor as [?|(e & eb & He & Heb & Ht)]; [done|].
  apply elem_of_range, indexed_wf in He; [|done]. apply indexed_wf in Heb; [|done].
  rewrite compare_logs_None. split.
  - intros Hcmp i f f' Hf Hf' Htf j g g' Hj Hg Hg'. apply (Hcmp j); [|by apply indexed_wf|by apply indexed_wf].
    specialize (Hmax i f f' Hf Hf' Htf). pose proof (Hpos _ _ _ Hx Hg). lia.
  - intros Hm j f f' Hj Hf Hf'. apply indexed_wf in Hf; [|done]. apply indexed_wf in Hf'; [|done].
    apply (Hm r.1 e eb He Heb Ht j f f'); [lia|done|done].
Qed.

Lemma CheckLogMatching_spec c :
  NoDup (IDs c) → (∀ i s, (i, s) ∈ c_nodes c → log_wf (log s)) →
  CheckLogMatching c = None ↔
  ∀ i s j s', (i, s) ∈ c_nodes c → (j, s') ∈ c_nodes c → i ≠ j → logs_match (log s) (log s').
Proof.
  unfold CheckLogMatching, IDs. destruct c as [l hist]. simpl.
  induction l as [|[i s] l IH]; intros Hnd Hwf; csimpl; [split; [by intros _ ???? ?%elem_of_nil|done]|].
  csimpl in Hnd. apply NoDup_cons in Hnd as [Hi Hnd].
  assert (first_error (compare_pair (i, s)) l = None ↔ ∀ j s', (j, s') ∈ l → logs_match (log s) (log s')) as Hfe.
  { rewrite first_error_None. split.
    - intros Hall j s' Hj. apply (compare_pair_spec (i, s) (j, s')); [apply (Hwf i); by left|apply (Hwf j); by right|by apply Hall].
    - intros Hall [j s'] Hj. apply compare_pair_spec; [apply (Hwf i); by left|apply (Hwf j); by right|]. by apply (Hall j). }
  destruct (first_error _ l) eqn:E.
  { split; [done|]. intros Hall. assert (Some s0 = None) as ?; [|done]. apply Hfe. intros j s' Hj.
    apply (Hall i _ j); [by left|by right|]. intros ->. destruct Hi. apply list_elem_of_fmap. by exists (j, s'). }
  rewrite IH; [|done|intros j s' Hj; apply (Hwf j); by right]. destruct Hfe as [Hfe _]. specialize (Hfe eq_refl). split.
  - intros Hall j s1 k s2 [[= -> ->]|Hj]%elem_of_cons [[= -> ->]|Hk]%elem_of_cons Hne; [done|by eapply Hfe| |by eapply Hall].
    apply logs_match_sym. by eapply Hfe.
  - intros Hall j s1 k s2 Hj Hk. apply Hall; by right.
Qed.

(** ** State machine safety *)

(** What the checker compares for a member: what it has applied, or what was recorded
    of it before if that is more. *)
Definition recorded c (i : NodeID) : list bytes := default [] (c_history (RecordHistory c) !! i).

Lemma RecordHistory_spec c i s :
  NoDup (IDs c) → (i, s) ∈ c_nodes c →
  recorded c i = (if (length (default [] (c_history c !! i)) <? length (applied_of s))%nat then applied_of s
                  else default [] (c_history c !! i)).
Proof.
  unfold recorded, RecordHistory, IDs. simpl. generalize (c_history c) as h.
  induction (c_nodes c) as [|[j s'] l IH]; csimpl; intros h Hnd Hin; [by apply elem_of_nil in Hin|].
  apply NoDup_cons in Hnd as [Hj Hnd]. apply elem_of_cons in Hin as [[= -> ->]|Hin].
  - assert (∀ (h : gmap NodeID (list bytes)), foldl record_one h l !! j = h !! j) as Hkeep.
    { clear -Hj. induction l as [|[k s''] l IH]; intros h; simpl; [done|]. csimpl in Hj.
      rewrite IH by (intros ?; apply Hj; by right). unfold record_one. simpl. destruct (_ <? _)%nat; [|done].
      rewrite lookup_insert_ne; [done|]. intros ->. apply Hj. by left. }
    rewrite Hkeep. unfold record_one. simpl. destruct (_ <? _)%nat eqn:E; [by rewrite lookup_insert_eq|done].
  - rewrite (IH (record_one h (j, s')) Hnd Hin).
    assert (record_one h (j, s') !! i = h !! i) as ->; [|done].
    unfold record_one. simpl. destruct (_ <? _)%nat; [|done]. rewrite lookup_insert_ne; [done|].
    intros ->. apply Hj. apply list_elem_of_fmap. by exists (i, s).
Qed.

(** Two sequences agree wherever both have a position. *)
Definition compatible (l l' : list bytes) : Prop := ∀ k a b, l !! k = Some a → l' !! k = Some b → a = b.

Definition known (agreed : gmap nat (bytes * NodeID)) (k : nat) : option bytes := fst <$> agreed !! k.

Lemma agree_history_spec me i cmds (agreed : gmap nat (bytes * NodeID)) :
  match agree_history me i cmds agreed with
  | inl _ => ∃ k a b, cmds !! k = Some a ∧ known agreed (i + k) = Some b ∧ a ≠ b
  | inr agreed' =>
      (∀ k a b, cmds !! k = Some a → known agreed (i + k) = Some b → a = b) ∧
      ∀ k, known agreed' k = match known agreed k with
                             | Some a => Some a
                             | None => if (k <? i)%nat then None else cmds !! (k - i)%nat
                             end
  end.
Proof.
  revert i agreed. induction cmds as [|cmd cmds IH]; intros i agreed; cbn [agree_history].
  { split; [done|]. intros k. destruct (known agreed k); [done|]. by destruct (k <? i)%nat. }
  destruct (agreed !! i) as [[prev owner]|] eqn:E.
  - case_bool_decide as Heq.
    + subst prev. specialize (IH (S i) agreed). destruct (agree_history me (S i) cmds agreed).
      * destruct IH as (k & a & b & ? & Hk & ?). exists (S k), a, b. by rewrite Nat.add_succ_r.
      * destruct IH as [Hag Hk]. split.
        -- intros [|k] a b; simpl; [intros [= <-]; rewrite Nat.add_0_r; unfold known; rewrite E; by intros [= <-]|].
           rewrite Nat.add_succ_r. apply Hag.
        -- intros k. rewrite Hk. destruct (known agreed k) eqn:Ek; [done|].
           destruct (Nat.ltb_spec k (S i)), (Nat.ltb_spec k i); [done| |lia|].
           ++ replace k with i in Ek by lia. unfold known in Ek. by rewrite E in Ek.
           ++ replace (k - i)%nat with (S (k - S i)) by lia. done.
    + exists 0%nat, cmd, prev. rewrite Nat.add_0_r. unfold known. rewrite E. split; [done|]. split; [done|congruence].
  - set (agreed1 := <[i:=(cmd, me)]> agreed).
    assert (∀ k, known agreed1 k = if decide (k = i) then Some cmd else known agreed k) as H1.
    { intros k. unfold known, agreed1. destruct (decide (k = i)) as [->|]; [by rewrite lookup_insert_eq|].
      by rewrite lookup_insert_ne. }
    specialize (IH (S i) agreed1). destruct (agree_history me (S i) cmds agreed1).
    + destruct IH as (k & a & b & ? & Hk & ?). exists (S k), a, b. rewrite Nat.add_succ_r. rewrite H1 in Hk.
      destruct (decide _); [lia|done].
    + destruct IH as [Hag Hk]. split.
      * intros [|k] a b; simpl; [rewrite Nat.add_0_r; unfold known; by rewrite E|].
        rewrite Nat.add_succ_r. intros Ha Hb. apply (Hag k a b Ha). rewrite H1. destruct (decide _); [lia|done].
      * intros k. rewrite Hk, H1. destruct (decide (k = i)) as [->|Hne].
        -- unfold known. rewrite E. simpl. rewrite Nat.ltb_irrefl, Nat.sub_diag. done.
        -- destruct (known agreed k); [done|]. destruct (Nat.ltb_spec k (S i)), (Nat.ltb_spec k i); [done|lia|lia|].
           replace (k - i)%nat with (S (k - S i)) by lia. done.
Qed.

Lemma agree_all_None (hist : gmap NodeID (list bytes)) ids (agreed : gmap nat (bytes * NodeID)) :
  agree_all hist ids agreed = None ↔
  (∀ i, i ∈ ids → ∀ k a b, default [] (hist !! i) !! k = Some a → known agreed k = Some b → a = b) ∧
  (∀ i j, i ∈ ids → j ∈ ids → compatible (default [] (hist !! i)) (default [] (hist !! j))).
Proof.
  revert agreed. induction ids as [|i ids IH]; intros agreed; cbn [agree_all].
  { split; [|done]. intros _. split; [by intros ? ?%elem_of_nil|by intros ?? ?%elem_of_nil]. }
  pose proof (agree_history_spec i 0 (default [] (hist !! i)) agreed) as Hs.
  destruct (agree_history i 0 _ agreed) as [err|agreed'].
  { destruct Hs as (k & a & b & Ha & Hb & Hne). split; [done|]. intros [Hall _]. destruct Hne.
    by apply (Hall i (list_elem_of_here _ _) k). }
  destruct Hs as [Hag Hk]. simpl in Hag.
  assert (∀ k, known agreed' k = match known agreed k with Some a => Some a | None => default [] (hist !! i) !! k end) as Hk'.
  { intros k. rewrite Hk. destruct (known agreed k); [done|]. simpl. by rewrite Nat.sub_0_r. }
  rewrite IH. split; intros [H1 H2]; split.
  - intros j [->|Hj]%elem_of_cons k a b Ha Hb; [by eapply Hag|]. apply (H1 j Hj k); [done|]. by rewrite Hk', Hb.
  - assert (∀ j, j ∈ ids → compatible (default [] (hist !! j)) (default [] (hist !! i))) as Hi.
    { intros j Hj k a b Ha Hb. destruct (known agreed k) as [x|] eqn:E.
      - rewrite (Hag k b x Hb E). apply (H1 j Hj k); [done|]. by rewrite Hk', E.
      - apply (H1 j Hj k); [done|]. by rewrite Hk', E. }
    intros j j' [->|Hj]%elem_of_cons [->|Hj']%elem_of_cons; [|  |by apply Hi|by apply H2].
    + intros k a b Ha Hb. congruence.
    + intros k a b Ha Hb. symmetry. by eapply Hi.
  - intros j Hj k a b Ha Hb. rewrite Hk' in Hb. destruct (known agreed k) as [x|] eqn:E.
    + injection Hb as ->. apply (H1 j (list_elem_of_further _ _ _ Hj) k); done.
    + apply (H2 j i (list_elem_of_further _ _ _ Hj) (list_elem_of_here _ _) k); done.
  - intros j j' Hj Hj'. apply H2; by right.
Qed.

Lemma CheckStateMachineSafety_spec c :
  (CheckStateMachineSafety c).2 = None ↔ ∀ i j, i ∈ IDs c → j ∈ IDs c → compatible (recorded c i) (recorded c j).
Proof.
  unfold CheckStateMachineSafety. cbn [snd]. rewrite agree_all_None.
  change (IDs (RecordHistory c)) with (IDs c). split; [by intros [_ ?]|].
  intros Hall. split; [|done]. intros i _ k a b _. unfold known. by rewrite lookup_empty.
Qed.

(** ** Leader completeness *)

Lemma retained_tail l e : log_wf l → e ∈ tail l ↔ retained l (e_Index e) e.
Proof.
  intros Hl. unfold retained. destruct l as [|s es] eqn:E; [by destruct Hl|]. rewrite <- E in *. split.
  - intros [k Hk]%list_elem_of_lookup. assert (l !! S k = Some e) as Hk' by by rewrite E in *.
    rewrite (wf_index l Hl _ _ Hk'). split; [lia|]. rewrite entryAt_lookup by (done || lia).
    replace (Z.to_nat _) with (S k) by lia. done.
  - intros [Hb He]. rewrite entryAt_lookup in He by (done || lia). apply list_elem_of_lookup.
    exists (Z.to_nat (e_Index e - baseIndex l) - 1)%nat.
    replace (Z.to_nat (e_Index e - baseIndex l)) with (S (Z.to_nat (e_Index e - baseIndex l) - 1)) in He by lia.
    by rewrite E in *.
Qed.

Lemma real_last_le l : log_wf l → real_last l ≤ lastIndex l.
Proof.
  intros Hl. unfold real_last. pose proof (base_le_last l Hl) as Hb. pose proof (wf_base l Hl) as H0.
  assert (∀ e, e ∈ tail l → e_Index e ≤ lastIndex l) as Hall.
  { intros e He. apply retained_tail in He as [_ He]; [|done]. unfold entryAt in He.
    destruct (Z.ltb_spec (lastIndex l) (e_Index e)); [|lia]. by rewrite orb_true_r in He. }
  assert (∀ es m, m ≤ lastIndex l → (∀ e, e ∈ es → e_Index e ≤ lastIndex l) →
    foldl (λ m e, if m <? e_Index e then e_Index e else m) m es ≤ lastIndex l) as Hf.
  { intros es. induction es as [|e es IH]; intros m Hm He; simpl; [done|].
    apply IH; [|intros f Hf; apply He; by right]. destruct (m <? e_Index e); [apply He; by left|done]. }
  apply Hf; [lia|done].
Qed.

(** Raft's Leader Completeness, for what the leader's log and a member's retain. *)
Definition complete_for (llog : list LogEntry) (s : Server CountingSM St) : Prop :=
  ∀ i e, retained (log s) i e → i ≤ commitIndex s → baseIndex llog < i →
    ∃ le, retained llog i le ∧ cmd_bytes (e_Command e) = cmd_bytes (e_Command le).

Lemma complete_member_spec leader llog me s :
  log_wf llog → log_wf (log s) →
  complete_member leader llog (me, s) = None ↔ (me ≠ leader → complete_for llog s).
Proof.
  intros Hl Hs. unfold complete_member. cbn [fst snd].
  case_bool_decide as E; [split; [done|done]|]. rewrite first_error_None.
  assert (∀ e, complete_entry leader llog me (commitIndex s) e = None ↔
    (e_Index e ≤ commitIndex s → baseIndex llog < e_Index e →
     ∃ le, retained llog (e_Index e) le ∧ cmd_bytes (e_Command e) = cmd_bytes (e_Command le))) as He.
  { intros e. unfold complete_entry. destruct (Z.ltb_spec (commitIndex s) (e_Index e)); [split; [intros; lia|done]|].
    destruct (Z.leb_spec (e_Index e) (baseIndex llog)); [split; [intros; lia|done]|].
    destruct (indexed llog !! e_Index e) as [le|] eqn:Ei.
    - apply indexed_wf in Ei; [|done]. case_bool_decide as Hc; [split; [eauto|done]|]. split; [done|].
      intros Hx. destruct Hx as (le' & Hle' & Hc'); [done|done|]. destruct Hc. destruct Ei as [_ Ei], Hle' as [_ Hle'].
      rewrite Ei in Hle'. by injection Hle' as <-.
    - destruct (Z.ltb_spec (real_last llog) (e_Index e)) as [?|Hge].
      + split; [done|]. intros Hx. destruct Hx as (le' & Hle' & _); [done|done|].
        apply indexed_wf in Hle'; [|done]. by rewrite Ei in Hle'.
      + exfalso. pose proof (real_last_le llog Hl).
        destruct (entryAt_slot llog (e_Index e)) as [_ [le Hle]]; [done|lia|].
        assert (indexed llog !! e_Index e = Some le) as Hx; [apply indexed_wf; [done|by split; [lia|]]|]. by rewrite Ei in Hx. }
  split.
  - intros Hall _ i e Hr Hc Hb. assert (e_Index e = i) as Hi.
    { destruct Hr as [? Hr]. rewrite entryAt_lookup in Hr by (done || lia). rewrite (wf_index _ Hs _ _ Hr). lia. }
    subst i. apply He; [|done|done]. apply Hall. by apply retained_tail.
  - intros Hall e Ht. apply He. intros Hc Hb. apply (Hall E); [|done|done]. by apply retained_tail.
Qed.

Lemma one_leader_spec c l :
  NoDup (IDs c) → one_leader c = Some l ↔ (∃ t, leads c l t) ∧ ∀ j u, leads c j u → j = l.
Proof.
  intros Hnd. unfold one_leader. split.
  - destruct (map_to_list (Leaders c)) as [|[i t] [|]] eqn:E; [done| |done]. intros [= ->].
    assert (∀ j u, leads c j u → (j, u) = (l, t)) as Hall.
    { intros j u Hj. apply Leaders_spec, elem_of_map_to_list in Hj; [|done]. rewrite E in Hj.
      by apply list_elem_of_singleton in Hj. }
    split; [exists t; apply Leaders_spec; [done|]; apply elem_of_map_to_list; rewrite E; by left|].
    intros j u Hj. specialize (Hall j u Hj). congruence.
  - intros [[t Ht] Hall]. assert (Leaders c = {[l := t]}) as ->.
    { apply map_eq. intros j. destruct (decide (j = l)) as [->|Hne].
      - rewrite lookup_singleton_eq. by apply Leaders_spec.
      - rewrite lookup_singleton_ne by done. destruct (Leaders c !! j) as [u|] eqn:E; [|done].
        apply Leaders_spec in E; [|done]. by destruct Hne; eapply Hall. }
    by rewrite map_to_list_singleton.
Qed.

Lemma server_of_spec c l s : NoDup (IDs c) → server_of l c = Some s ↔ (l, s) ∈ c_nodes c.
Proof.
  unfold server_of, IDs. intros Hnd. split.
  - intros (x & Hx & Heq)%fmap_Some. destruct x as [k [i s']]. apply list_find_Some in Hx as (Hk & Hi & _).
    simpl in Hi, Heq. subst. by eapply list_elem_of_lookup_2.
  - intros [k Hk]%list_elem_of_lookup. apply fmap_Some. exists (k, (l, s)). split; [|done].
    apply list_find_Some. split; [done|]. split; [done|]. intros k' [i s'] Hk' Hlt Hi. simpl in Hi. subst i.
    assert (k = k'); [|lia]. eapply (NoDup_lookup _ k k' l Hnd); rewrite list_lookup_fmap; [by rewrite Hk|by rewrite Hk'].
Qed.

Lemma CheckLeaderCompleteness_spec c :
  NoDup (IDs c) → (∀ i s, (i, s) ∈ c_nodes c → log_wf (log s)) →
  CheckLeaderCompleteness c = None ↔
  ∀ l ls, (l, ls) ∈ c_nodes c → role ls = Leader → (∀ j u, leads c j u → j = l) →
  ∀ i s, (i, s) ∈ c_nodes c → i ≠ l → complete_for (log ls) s.
Proof.
  intros Hnd Hwf. unfold CheckLeaderCompleteness.
  destruct (one_leader c ≫= _) as [[l ls]|] eqn:E.
  - apply bind_Some in E as (l' & Hl & E). apply fmap_Some in E as (s' & Hs & [= -> ->]).
    apply server_of_spec in Hs; [|done]. apply one_leader_spec in Hl as [[t (s0 & Hs0 & Hr & _)] Hone]; [|done].
    assert (s' = s0) as ->.
    { apply server_of_spec in Hs0, Hs; [|done..]. congruence. }
    rewrite first_error_None. split.
    + intros Hall l ls Hl Hlr Hu i s Hi Hne. assert (l' = l) as ->.
      { apply (Hu _ (currentTerm s0)). exists s0. done. }
      assert (ls = s0) as ->. { apply server_of_spec in Hl, Hs; [|done..]. congruence. }
      apply (complete_member_spec l (log s0) i s); [by eapply Hwf|by eapply Hwf|by apply Hall|done].
    + intros Hall [i s] Hi. apply complete_member_spec; [by eapply Hwf|by eapply Hwf|]. intros Hne.
      by apply (Hall l' s0 Hs0 Hr Hone i).
  - split; [|done]. intros _ l ls Hl Hlr Hu. exfalso.
    assert (one_leader c = Some l) as Hol.
    { apply one_leader_spec; [done|]. split; [|done]. exists (currentTerm ls). by exists ls. }
    rewrite Hol in E. cbn in E. apply server_of_spec in Hl; [|done]. by rewrite Hl in E.
Qed.

(** C34: The chaos tests' safety checks are exact.  On a cluster of distinct members with
    well-formed logs, [CheckAll] reports nothing exactly when no two members lead the
    same term, every two logs satisfy Log Matching on the entries both retain, what
    any two members are known to have applied agrees position by position, and a
    sole leader retains, with the same command, every entry that another member
    retains and has committed, unless the leader's snapshot covers it. *)
Theorem CheckAll_exact c :
  NoDup (IDs c) → (∀ i s, (i, s) ∈ c_nodes c → log_wf (log s)) →
  (CheckAll c).2 = None ↔
  (∀ i j t, leads c i t → leads c j t → i = j) ∧
  (∀ i s j s', (i, s) ∈ c_nodes c → (j, s') ∈ c_nodes c → i ≠ j → logs_match (log s) (log s')) ∧
  (∀ i j, i ∈ IDs c → j ∈ IDs c → compatible (recorded c i) (recorded c j)) ∧
  (∀ l ls, (l, ls) ∈ c_nodes c → role ls = Leader → (∀ j u, leads c j u → j = l) →
   ∀ i s, (i, s) ∈ c_nodes c → i ≠ l → complete_for (log ls) s).
Proof.
  intros Hnd Hwf. rewrite <- CheckElectionSafety_spec, <- CheckLogMatching_spec by done.
  rewrite <- CheckStateMachineSafety_spec. rewrite <- CheckLeaderCompleteness_spec by done. unfold CheckAll.
  destruct (CheckElectionSafety c); [by split; [|intros [? _]]|].
  destruct (CheckLogMatching c); [by split; [|intros (_ & ? & _)]|].
  destruct (CheckStateMachineSafety c) as [c' err] eqn:E. cbn [snd]. destruct err; [by split; [|intros (_ & _ & ? & _)]|].
  assert (CheckLeaderCompleteness c' = CheckLeaderCompleteness c) as Hc.
  { unfold CheckStateMachineSafety in E. injection E as <- _. done. }
  cbn [snd]. rewrite Hc. split; [done|by intros (_ & _ & _ & ?)].
Qed.

End Checks.

(** ** Election safety and its checker *)

(** The checker stays silent on every reachable cluster whose leaders were promoted
    under one configuration that they belong to. *)
Theorem CheckElectionSafety_reachable {St} `{Storage St} {storable : bytes → Prop} `{!StorageLaws St storable} `{MapRange}
    (c0 cl : cluster) (c : Cluster St) (config : Configuration) :
  initial c0 → rtc (cstep (storable := storable)) c0 cl →
  NoDup (IDs c) → (∀ i s, (i, s) ∈ SimCluster.c_nodes c → RaftElection.c_nodes cl !! i = Some (Up s)) →
  NoDup config → (∀ p, p ∈ c_promotions cl → p_config p = config ∧ p_leader p ∈ config) →
  CheckElectionSafety c = None.
Proof.
  intros Hi Hrun Hnd Hup Hcn Hcf. pose proof (cinv_reachable c0 cl Hi Hrun) as Hc.
  apply CheckElectionSafety_spec; [done|]. intros i j t (s & Hs & Hr & Ht) (s' & Hs' & Hr' & Ht').
  destruct (ci_leaders cl Hc i s) as [cf Hp]; [by apply Hup|done|].
  destruct (ci_leaders cl Hc j s') as [cf' Hq]; [by apply Hup|done|].
  destruct (Hcf _ Hp) as [Ec Em]. destruct (Hcf _ Hq) as [Ec' Em']. simpl in *. subst cf cf'.
  apply (promotions_agree cl _ _ Hc Hp Hq); simpl; try done; [congruence|]. by left.
Qed.

(** ** Snapshots of the recording machine *)

(** The fuel is enough: more changes nothing. *)
Lemma restore_entries_fuel fuel fuel' n data pos acc :
  (length data - pos < fuel)%nat → (fuel ≤ fuel')%nat →
  restore_entries fuel' n data pos acc = restore_entries fuel n data pos acc.
Proof.
  revert fuel' n pos acc. induction fuel as [|fuel IH]; intros [|fuel'] n pos acc Hf Hle; [lia|lia|lia|]. cbn [restore_entries].
  destruct (n <=? 0); [done|]. destruct (Nat.ltb_spec (length data) (pos + 8)); [done|].
  destruct (_ <? _); [done|]. apply IH; lia.
Qed.

Lemma put_entry_head (a rest : bytes) : Z.of_nat (length a) < 2 ^ 64 →
  le_get (take 8 (put_entry a ++ rest)) = Z.of_nat (length a) ∧ drop 8 (put_entry a ++ rest) = a ++ rest.
Proof.
  intros Ha. unfold put_entry. rewrite <- app_assoc. pose proof (length_le_put 8 (u64 (Z.of_nat (length a)))) as Hl.
  rewrite take_app_le, take_ge by lia. rewrite drop_app_ge, Hl, drop_0 by lia. split; [|done].
  rewrite le_get_put8, !u64_small; [done|..]; unfold in_u64; rewrite ?u64_small; unfold in_u64; lia.
Qed.

Lemma restore_entries_reads fuel es pre rest acc :
  (length es ≤ fuel)%nat → Forall (λ a, Z.of_nat (length a) < 2 ^ 64) es →
  restore_entries fuel (Z.of_nat (length es)) (pre ++ concat (put_entry <$> es) ++ rest) (length pre) acc = inr (acc ++ es).
Proof.
  revert fuel pre acc. induction es as [|a es IH]; intros fuel pre acc Hf Hs; rewrite ?fmap_cons; cbn [concat].
  { rewrite app_nil_r. by destruct fuel. }
  destruct fuel as [|fuel]; [simpl in Hf; lia|]. apply Forall_cons in Hs as [Ha Hs]. cbn [restore_entries].
  destruct (Z.leb_spec (Z.of_nat (length (a :: es))) 0); [simpl in *; lia|].
  rewrite <- !app_assoc. set (tl := concat (put_entry <$> es) ++ rest).
  destruct (put_entry_head a tl Ha) as [Hg Hd].
  assert (length (put_entry a) = (8 + length a)%nat) as Hpl by (unfold put_entry; rewrite length_app, length_le_put; done).
  rewrite !length_app, drop_app_length. rewrite Hg.
  destruct (Nat.ltb_spec (length pre + (length (put_entry a) + length tl)) (length pre + 8)); [lia|].
  destruct (Z.ltb_spec (Z.of_nat (length pre + (length (put_entry a) + length tl) - (length pre + 8))) (Z.of_nat (length a))); [lia|].
  rewrite Nat2Z.id. replace (drop (length pre + 8) (pre ++ put_entry a ++ tl)) with (a ++ tl)
    by (rewrite <- drop_drop, drop_app_length; done).
  rewrite take_app_length. replace (Z.of_nat (length (a :: es)) - 1) with (Z.of_nat (length es)) by (simpl; lia).
  specialize (IH fuel (pre ++ put_entry a) (acc ++ [a])). fold tl in IH. rewrite length_app, Hpl in IH.
  replace (length pre + 8 + length a)%nat with (length pre + (8 + length a))%nat by lia.
  replace (pre ++ put_entry a ++ tl) with ((pre ++ put_entry a) ++ tl) by by rewrite <- app_assoc.
  rewrite IH by (simpl in Hf; lia || done). by rewrite <- app_assoc.
Qed.

Lemma restore_entries_cut fuel es pre p q acc :
  (length p < fuel)%nat → Forall (λ a, Z.of_nat (length a) < 2 ^ 64) es →
  concat (put_entry <$> es) = p ++ q → q ≠ [] →
  ∃ err, restore_entries fuel (Z.of_nat (length es)) (pre ++ p) (length pre) acc = inl err.
Proof.
  revert fuel pre p acc. induction es as [|a es IH]; intros fuel pre p acc Hf Hs Hpq Hq.
  { symmetry in Hpq. by apply app_eq_nil in Hpq as [_ ?]. }
  rewrite fmap_cons in Hpq. cbn [concat] in Hpq. apply Forall_cons in Hs as [Ha Hs].
  destruct fuel as [|fuel]; [lia|]. cbn [restore_entries].
  destruct (Z.leb_spec (Z.of_nat (length (a :: es))) 0); [simpl in *; lia|].
  assert (length (put_entry a) = (8 + length a)%nat) as Hpl by (unfold put_entry; rewrite length_app, length_le_put; done).
  rewrite length_app, drop_app_length.
  destruct (Nat.ltb_spec (length pre + length p) (length pre + 8)); [eauto|].
  destruct (put_entry_head a (concat (put_entry <$> es)) Ha) as [Hg Hd]. rewrite Hpq in Hg, Hd.
  rewrite take_app_le in Hg by lia. rewrite Hg. rewrite drop_app_le in Hd by lia.
  destruct (Z.ltb_spec (Z.of_nat (length pre + length p - (length pre + 8))) (Z.of_nat (length a))); [eauto|].
  rewrite Nat2Z.id. rewrite <- drop_drop, drop_app_length.
  assert (∃ p', p = put_entry a ++ p') as [p' ->].
  { exists (drop (8 + length a) p). rewrite <- (take_drop (8 + length a) p) at 1. f_equal.
    apply (f_equal (take (8 + length a))) in Hpq. rewrite !take_app_le in Hpq by lia.
    rewrite <- Hpq. by rewrite take_ge by lia. }
  rewrite <- app_assoc in Hpq. apply app_inv_head in Hpq. rewrite length_app in *.
  replace (Z.of_nat (length (a :: es)) - 1) with (Z.of_nat (length es)) by (simpl; lia).
  destruct (IH fuel (pre ++ put_entry a) p' (acc ++ [take (length a) (drop 8 (put_entry a ++ p'))])) as [err Herr]; [lia|done|done|done|].
  exists err. rewrite <- Herr. f_equal; [by rewrite app_assoc|rewrite length_app; lia].
Qed.

(** Snapshots of the recording machine.  What a machine writes is read back,
    whatever the machine that reads it held before; every cut of it is refused, and a
    refused restore leaves the machine as it was. *)
Theorem Counting_snapshot_roundtrip c c0 :
  Z.of_nat (length (Counting_Snapshot c)) < 2 ^ 63 →
  Counting_RestoreSnapshot (Counting_Snapshot c) c0 = (c, None) ∧
  ∀ p q, Counting_Snapshot c = p ++ q → q ≠ [] → ∃ err, Counting_RestoreSnapshot p c0 = (c0, Some err).
Proof.
  intros Hlen.
  assert (Forall (λ a, Z.of_nat (length a) < 2 ^ 64) (Applied c) ∧ (length (Applied c) ≤ length (concat (put_entry <$> Applied c)))%nat
          ∧ Z.of_nat (length (Applied c)) < 2 ^ 64) as (Hs & Hf & Hn).
  { unfold Counting_Snapshot in Hlen. rewrite length_app, length_le_put in Hlen.
    assert (∀ es, Forall (λ a, (length a ≤ length (concat (put_entry <$> es)))%nat) es ∧
                  (length es ≤ length (concat (put_entry <$> es)))%nat) as Hall.
    { intros es. induction es as [|a es [IH1 IH2]]; [by split|]. rewrite fmap_cons. cbn [concat].
      rewrite length_app. unfold put_entry at 1 3. rewrite !length_app, length_le_put. split; [|simpl; lia].
      constructor; [lia|]. eapply Forall_impl; [exact IH1|]. simpl. intros; lia. }
    destruct (Hall (Applied c)) as [H1 H2]. split; [|lia]. eapply Forall_impl; [exact H1|]. simpl. intros; lia. }
  pose proof (length_le_put 8 (u64 (Z.of_nat (length (Applied c))))) as H8.
  assert (le_get (le_put 8 (u64 (Z.of_nat (length (Applied c))))) = Z.of_nat (length (Applied c))) as Hget.
  { rewrite le_get_put8, !u64_small; [done|..]; unfold in_u64; rewrite ?u64_small; unfold in_u64; lia. }
  split.
  - unfold Counting_RestoreSnapshot, Counting_Snapshot. rewrite length_app, H8.
    destruct (Nat.ltb_spec (8 + length (concat (put_entry <$> Applied c))) 8); [lia|].
    rewrite take_app_le, take_ge, Hget by lia.
    pose proof (restore_entries_reads (8 + length (concat (put_entry <$> Applied c))) (Applied c)
      (le_put 8 (u64 (Z.of_nat (length (Applied c))))) [] [] ltac:(lia) Hs) as Hr.
    rewrite app_nil_r, H8 in Hr. rewrite Hr. simpl. by destruct c.
  - intros p q Hpq Hq. unfold Counting_RestoreSnapshot. destruct (Nat.ltb_spec (length p) 8); [eauto|].
    unfold Counting_Snapshot in Hpq.
    assert (∃ p', p = le_put 8 (u64 (Z.of_nat (length (Applied c)))) ++ p') as [p' ->].
    { exists (drop 8 p). rewrite <- (take_drop 8 p) at 1. f_equal. apply (f_equal (take 8)) in Hpq.
      rewrite !take_app_le in Hpq by lia. rewrite <- Hpq. by rewrite take_ge by lia. }
    rewrite <- app_assoc in Hpq. apply app_inv_head in Hpq. rewrite take_app_le, take_ge, Hget by lia.
    destruct (restore_entries_cut (length (le_put 8 (u64 (Z.of_nat (length (Applied c)))) ++ p')) (Applied c)
      (le_put 8 (u64 (Z.of_nat (length (Applied c))))) p' q []) as [err Herr]; [rewrite length_app; lia|done|done|done|].
    rewrite H8 in Herr. rewrite Herr. eauto.
Qed.

(** * The simulated network: concrete instances *)

From S2P Require Import GoFloat Storage Ring RaftSnapshot.
From S2P Require Import RaftLoop RaftDisk RaftScenarios RaftWitnesses RaftDuplicates SimNetwork.

(** A generator that alternates between 0 and 1. *)
#[local] Instance alternating : Rand Z := {|
  rnd_new seed := seed;
  rnd_Float64 r := (float_of_int (r `mod` 2), r + 1);
  rnd_Int63n k r := (r `mod` k, r + 1)
|}.

(** n1 and n2 on a network that loses half of the messages. *)
Definition lossy : Network Z bank_server :=
  SetDropRate (literal 1 2) (Register "n2" n2_voted (Register "n1" n1_leads (NewNetwork 7))).

Lemma link_reproducible_witness :
  on_link "n1->n2" (traffic [("n1", "n2"); ("n2", "n1"); ("n1", "n2")] lossy) =
  on_link "n1->n2" (traffic [("n1", "n2"); ("n1", "n2"); ("n2", "n1"); ("n2", "n1")] lossy) ∧
  length (on_link "n1->n2" (traffic [("n1", "n2"); ("n1", "n2")] lossy)) = 2%nat.
Proof.
  split; [|vm_compute; reflexivity]. apply link_reproducible; [reflexivity|vm_compute; reflexivity].
Defined.

Definition split_net : Network Z bank_server := Partition [["n1"]; ["n2"; "n3"]] (SetDropRate fzero lossy).

Lemma Partition_isolates_witness :
  (deliverable "n1" "n2" split_net).2 = None ∧ (deliverable "n2" "n1" split_net).2 = None.
Proof.
  destruct (Partition_isolates [["n1"]; ["n2"; "n3"]] (SetDropRate fzero lossy) "n1" "n2" 0 1 ["n1"] ["n2"; "n3"])
    as (H1 & H2 & _); [apply (bool_decide_unpack _); vm_compute; exact I|reflexivity|reflexivity|by left|by left|done|].
  unfold split_net. rewrite H1, H2. split; reflexivity.
Defined.

Lemma duplicate_delivery_witness :
  ∃ s' reply c d,
    deliver (λ env, AppendEntries env first_request) env0 (mkEnv 5 0) false n2_voted = Some (s', reply) ∧
    aer_Success reply = true ∧
    deliver (λ env, AppendEntries env first_request) env0 (mkEnv 5 0) true n2_voted =
      Some (set_electionDeadline d (set_lastLeaderContact c s'), reply).
Proof.
  assert (deliver (λ env, AppendEntries env first_request) env0 (mkEnv 5 0) false n2_voted =
    Some (n2_follows, mkAppendEntriesReply 1 true)) as HA by (vm_compute; reflexivity).
  destruct (proj1 (duplicate_delivery env0 (mkEnv 5 0) n2_voted) first_request n2_follows (mkAppendEntriesReply 1 true)
    ltac:(solve_wf) ltac:(by vm_compute) ltac:(by vm_compute) ltac:(by vm_compute) HA) as (c & d & H2).
  exists n2_follows, (mkAppendEntriesReply 1 true), c, d. split; [exact HA|]. split; [reflexivity|exact H2].
Defined.

(** ** A checked run *)

Definition counting_server (me : NodeID) (ps : list NodeID) : Server CountingSM disk :=
  SetStorage ∅ (NewServerWith me ps (Some (mkCountingSM [])) SnapshotCapable DefaultConfig).

(** n1 is elected by n2, proposes a command and replicates it; n3 lags. *)
Definition sim_run : option (gmap NodeID (Server CountingSM disk)) :=
  ns ← campaign 0 "n1" ["n2"] (list_to_map ((λ p, (p, counting_server p three)) <$> three));
  '(ns, _) ← run_at "n1" (Submit (Some (str_bytes "cmd"))) ns;
  ns ← replicate_all 0 "n1" ["n2"; "n3"] ns;
  replicate_all 0 "n1" ["n2"] ns.

Definition sim_cluster (ns : gmap NodeID (Server CountingSM disk)) : Cluster disk := SimCluster.mkCluster (map_to_list ns) ∅.

Lemma CheckAll_exact_witness :
  ∃ ns, sim_run = Some ns ∧ leads (sim_cluster ns) "n1" 1 ∧
    (∀ i j t, leads (sim_cluster ns) i t → leads (sim_cluster ns) j t → i = j) ∧
    (∀ i s j s', (i, s) ∈ map_to_list ns → (j, s') ∈ map_to_list ns → i ≠ j → logs_match (log s) (log s')).
Proof.
  assert ((ns ← sim_run; Some (forallb (λ x, log_wfb (log x.2)) (map_to_list ns), (CheckAll (sim_cluster ns)).2,
                               Leaders (sim_cluster ns) !! "n1"))
    = Some (true, None, Some 1)) as Hrun by (vm_compute; reflexivity).
  apply bind_Some in Hrun as (ns & Hns & Hrun). injection Hrun as Hwf Hck Hl. exists ns. split; [exact Hns|].
  assert (NoDup (IDs (sim_cluster ns))) as Hnd by apply NoDup_fst_map_to_list.
  split; [apply Leaders_spec; [exact Hnd|exact Hl]|].
  destruct (CheckAll_exact (sim_cluster ns) Hnd) as [Hx _].
  - intros i s Hs. apply log_wfb_spec. rewrite forallb_forall in Hwf. apply (Hwf (i, s)). by apply list_elem_of_In.
  - destruct (Hx Hck) as (H1 & H2 & _). split; [exact H1|exact H2].
Defined.

Lemma Counting_snapshot_roundtrip_witness :
  Counting_RestoreSnapshot (Counting_Snapshot (mkCountingSM [str_bytes "a"; []])) (mkCountingSM [str_bytes "old"])
  = (mkCountingSM [str_bytes "a"; []], None).
Proof. apply Counting_snapshot_roundtrip. vm_compute. reflexivity. Defined.
