(* ===== verification/SimView.v ===== *)
(** * Simulated clusters: the printed view, storage and submissions
    (src/sim/view.go, cluster_storage.go, cluster_submit.go, cluster_membership.go)

    What the chaos tests print when a run fails, the clusters whose members keep
    their state in files, and one look of the loops that wait for a leader. *)

From S2P Require Import Prelude GoLib GoFloat GoRunes RaftTypes RaftLog RaftCodec RaftServer RaftLoop RaftSnapshot RaftNode SimNetwork SimCluster.

Local Open Scope Z_scope.

Definition eol : string := String (Ascii.ascii_of_nat 10) "".

(** ** View *)

Record NodeView := mkNodeView {
  v_ID : NodeID;
  v_Role : Role;
  v_Term : Z;
  v_CommitIndex : Z;
  v_LastApplied : Z;
  v_LogLength : Z;
  v_Log : list LogEntry;
  v_Applied : list bytes;
  v_Crashed : bool;
  v_Partition : Z
}.

Section View.
Context {St : Type}.

Definition node_view (crashed : gset NodeID) (parts : gmap NodeID Z) (x : NodeID * Server CountingSM St) : NodeView :=
  let '(nid, s) := x in
  mkNodeView nid (role s) (currentTerm s) (commitIndex s) (lastApplied s) (Z.of_nat (length (log s)) - 1) (log s)
    (applied_of s) (bool_decide (nid ∈ crashed)) (default 0 (parts !! nid)).

Definition View {R Srv : Type} (net : Network R Srv) (c : Cluster St) : list NodeView :=
  node_view (n_crashed net) (n_partitions net) <$> c_nodes c.

End View.

Definition status (n : NodeView) : string :=
  if v_Crashed n then "CRASHED" else if negb (v_Partition n =? 0) then "partition " +:+ fmt_d (v_Partition n) else "ok".

Definition row (n : NodeView) : string :=
  "  " +:+ pad 6 (v_ID n) +:+ " " +:+ pad 10 (Role_String (v_Role n)) +:+ " " +:+ pad 5 (fmt_d (v_Term n)) +:+ " "
    +:+ pad 7 (fmt_d (v_CommitIndex n)) +:+ " " +:+ pad 8 (fmt_d (v_LastApplied n)) +:+ " " +:+ pad 4 (fmt_d (v_LogLength n))
    +:+ " " +:+ status n +:+ eol.

Definition view_String (v : list NodeView) : string :=
  eol +:+ "  NODE   ROLE       TERM  COMMIT  APPLIED  LOG  STATUS" +:+ eol
    +:+ "  ----   ----       ----  ------  -------  ---  ------" +:+ eol +:+ String.concat "" (row <$> v).

(** [Log[1:]] of an empty log panics; a server's log always has its sentinel. *)
Definition log_row (n : NodeView) : string :=
  "  " +:+ pad 6 (v_ID n) +:+ " "
    +:+ String.concat "" ((λ e, "[" +:+ fmt_d (e_Index e) +:+ ":" +:+ fmt_d (e_Term e) +:+ ":" +:+ bytes_str (cmd_bytes (e_Command e)) +:+ "] ")
                            <$> tail (v_Log n))
    +:+ eol.

Definition LogsString (v : list NodeView) : string :=
  eol +:+ "  logs (index:term:command)" +:+ eol +:+ String.concat "" (log_row <$> v).

(** ** Storage *)

Section Storage.
Context {St : Type} `{Storage St}.

(** [open_state] opens the state file of a path; there is no applied marker. *)
Definition NewClusterWithStorage (open_state : string → St) (n : nat) (dir : string) (config : Config) : Cluster St :=
  let ids := member_name <$> List.seq 0 n in
  mkCluster ((λ i, (i, SetStorage (open_state (Join dir (i +:+ ".wal")))
                        (NewServerWith i ids (Some (mkCountingSM [])) SnapshotCapable config))) <$> ids) ∅.

(** The members in order, up to the first that cannot be restored; [None] is a
    panic. *)
Fixpoint restore_loop (nodes : list (NodeID * Server CountingSM St)) : option (list (NodeID * Server CountingSM St) * option string) :=
  match nodes with
  | [] => Some ([], None)
  | (nid, s) :: nodes =>
      match Restore s with
      | Panic _ => None
      | Ok (inl err) => Some ((nid, s) :: nodes, Some ("restore " +:+ nid +:+ ": " +:+ err))
      | Ok (inr s') => r ← restore_loop nodes; Some ((nid, s') :: r.1, r.2)
      end
  end.

Definition RestoreAll (c : Cluster St) : option (Cluster St * option string) :=
  r ← restore_loop (c_nodes c); Some (mkCluster r.1 (c_history c), r.2).

(** ** One look *)

(** [WaitForLeaderAmong]; [None] is the panic on an id that is no member. *)
Fixpoint leader_among (candidates : list NodeID) (c : Cluster St) : option (option NodeID) :=
  match candidates with
  | [] => Some None
  | i :: candidates => s ← server_of i c; if bool_decide (role s = Leader) then Some (Some i) else leader_among candidates c
  end.

(** One round of [SubmitWithRetry] with the leader that was found: the cluster
    afterwards and whether the command was accepted. *)
Definition submit_round (leader : NodeID) (cmd : bytes) (c : Cluster St) : option (Cluster St * bool) :=
  s ← server_of leader c;
  match Submit (Some cmd) s with
  | Panic _ => None
  | Ok (s', (_, _, accepted)) =>
      Some (mkCluster ((λ x, if bool_decide (x.1 = leader) then (x.1, s') else x) <$> c_nodes c) (c_history c), accepted)
  end.

(** ** Properties *)

(** A restart restores everyone or says who failed: without an error every member is
    what its file gives; with one, the error names the first member whose file is
    refused, and the members before it are restored. *)
Theorem RestoreAll_exact (c c' : Cluster St) err :
  RestoreAll c = Some (c', err) →
  match err with
  | None => Forall2 (λ x y, y.1 = x.1 ∧ Restore x.2 = Ok (inr y.2)) (c_nodes c) (c_nodes c')
  | Some msg => ∃ pre nid s post e pre', c_nodes c = pre ++ (nid, s) :: post ∧ c_nodes c' = pre' ++ (nid, s) :: post ∧
      Forall2 (λ x y, y.1 = x.1 ∧ Restore x.2 = Ok (inr y.2)) pre pre' ∧
      Restore s = Ok (inl e) ∧ msg = "restore " +:+ nid +:+ ": " +:+ e
  end.
Proof.
  unfold RestoreAll. destruct (restore_loop (c_nodes c)) as [[l e]|] eqn:E; [|done]. intros [= <- <-]. cbn [c_nodes fst snd].
  revert l e E. induction (c_nodes c) as [|[nid s] nodes IH]; intros l e; cbn [restore_loop].
  { intros [= <- <-]. constructor. }
  destruct (Restore s) as [[e0|s']|] eqn:Er; [|destruct (restore_loop nodes) as [[l' e']|]; [|done]|done].
  - intros [= <- <-]. exists [], nid, s, nodes, e0, []. repeat split; [constructor|done].
  - intros [= <- <-]. specialize (IH l' e' eq_refl). cbn [fst snd]. destruct e' as [msg|]; [|by constructor].
    destruct IH as (pre & n & s1 & post & e1 & pre' & -> & -> & HF & ? & ?).
    exists ((nid, s) :: pre), n, s1, post, e1, ((nid, s') :: pre'). split_and!; [done|done|by constructor|done|done].
Qed.

(** A submission that is accepted was taken by a leader, and nobody else changed. *)
Lemma submit_round_leader leader cmd (c c' : Cluster St) :
  submit_round leader cmd c = Some (c', true) →
  ∃ s, server_of leader c = Some s ∧ role s = Leader ∧ stopped s = false ∧
    ∀ nid s', (nid, s') ∈ c_nodes c' → nid ≠ leader → (nid, s') ∈ c_nodes c.
Proof.
  unfold submit_round. destruct (server_of leader c) as [s|]; [|done]. cbn [mbind option_bind].
  destruct (Submit (Some cmd) s) as [[s' [[i t] acc]]|] eqn:Es; [|done]. intros [= <- ->]. exists s. split; [done|].
  unfold Submit in Es. destruct (bool_decide (role s ≠ Leader) || stopped s) eqn:E; [done|].
  apply orb_false_iff in E as [Hr%bool_decide_eq_false ?]. split; [by destruct (decide (role s = Leader))|]. split; [done|].
  cbn [c_nodes]. intros nid s2 Hin Hne. apply list_elem_of_fmap in Hin as ([n x] & Heq & Hx). simpl in Heq.
  case_bool_decide; [subst; by injection Heq as -> _|by rewrite Heq].
Qed.

End Storage.

Example view_of_three :
  view_String [mkNodeView "n1" Leader 3 12 11 12 [] [] false 0; mkNodeView "n2" Follower 2 7 7 9 [] [] true 1;
               mkNodeView "n3" Candidate 4 0 0 0 [] [] false 2] =
  eol +:+ "  NODE   ROLE       TERM  COMMIT  APPLIED  LOG  STATUS" +:+ eol
      +:+ "  ----   ----       ----  ------  -------  ---  ------" +:+ eol
      +:+ "  n1     Leader     3     12      11       12   ok" +:+ eol
      +:+ "  n2     Follower   2     7       7        9    CRASHED" +:+ eol
      +:+ "  n3     Candidate  4     0       0        0    partition 2" +:+ eol.
Proof. vm_compute. reflexivity. Qed.
