(* ===== verification/Admin.v ===== *)
(** * RPC: membership changes over the wire (src/rpc/admin.go)

    The handlers of [AdminService] over one Raft server.  [change] waits between
    the mutation and its reply, so it is two definitions, with whatever the server
    does meanwhile in between; the same holds for the error path, which asks the
    server for the leader after the mutation has released the mutex. *)

From S2P Require Import Prelude GoLib Storage.
From S2P Require Import RaftTypes RaftLog RaftCodec RaftServer RaftLoop RaftRead RaftNode RaftCommit RaftDisk RaftScenarios RaftWitnesses.

Local Open Scope Z_scope.

Record AdminArgs := mkAdminArgs { aa_NodeID : NodeID; aa_Timeout : Z }.

Record AdminReply := mkAdminReply {
  ar_OK : bool;
  ar_Indeterminate : bool;
  ar_NotLeader : bool;
  ar_LeaderID : NodeID;
  ar_Index : Z;
  ar_Servers : list NodeID;
  ar_Err : string
}.

Definition ErrConfigUnknown : string := "rpc: configuration change appended but commit unconfirmed".

Definition refused_reply (err : string) : AdminReply := mkAdminReply false false false "" 0 [] err.
Definition not_leader (leader : NodeID) (err : string) : AdminReply :=
  mkAdminReply false false true leader 0 [] err.
Definition ok_reply (idx : Z) (servers : list NodeID) : AdminReply :=
  mkAdminReply true false false "" idx servers "".
Definition unknown_reply (idx : Z) : AdminReply :=
  mkAdminReply false true false "" idx []
    (ErrConfigUnknown +:+ " (index " +:+ fmt_d idx +:+ "); read Configuration to see whether it took effect").

(** [NewAdminService]: the timeout in use. *)
Definition admin_timeout (commitTimeout : Z) : Z :=
  if commitTimeout <=? 0 then 3000 * Millisecond else commitTimeout.

Definition wait_budget (args : AdminArgs) (commitTimeout : Z) : Z :=
  if aa_Timeout args <=? 0 then admin_timeout commitTimeout else aa_Timeout args.

Section Admin.
Context {SM St : Type} `{StateMachine SM} `{Storage St}.
Implicit Type s : Server SM St.

Definition mutation := NodeID → Server SM St → Server SM St * (string + Z).

(** [change] up to the [select], or its reply when nothing was proposed.  [later]
    is the server when [LeaderID] is called. *)
Definition change_begin (args : AdminArgs) (mutate : mutation) s : Server SM St * (string + Z) :=
  if String.eqb (aa_NodeID args) "" then (s, inl "rpc: no node id given") else mutate (aa_NodeID args) s.

Definition change_error (err : string) (later : Server SM St) : AdminReply :=
  if String.eqb err ErrNotLeader then
    let (id, ok) := LeaderID later in not_leader (if (ok : bool) then id else "") err
  else refused_reply err.

Definition change_wait (idx : Z) (ch : nat) s : Server SM St := WaitApplied idx ch s.

(** The [select]: the entry was applied, or the timer fired. *)
Definition change_end (applied : bool) (idx : Z) s : AdminReply :=
  if applied then ok_reply idx (CurrentConfiguration s) else unknown_reply idx.

Definition Admin_Configuration s : AdminReply :=
  let (id, ok) := LeaderID s in
  mkAdminReply true false false (if (ok : bool) then id else "") 0 (CurrentConfiguration s) "".

(** ** Properties *)

Lemma changeConfiguration_refused mutate s s' err :
  changeConfiguration mutate s = (s', inl err) → s' = s ∨
  ∃ next, log s' = log s ++ [mkEntry (currentTerm s) (u64 (lastIndex (log s) + 1)) (Some (encodeConfig next))] ∧
    peers s' = next ∧ role s = Leader ∧ ∃ s1, persistLocked s1 = (s', Some err).
Proof.
  unfold changeConfiguration. case_bool_decide as Hr; [intros [= <- _]; by left|].
  destruct (negb _); [intros [= <- _]; by left|]. destruct (_ <? _); [intros [= <- _]; by left|].
  destruct (mutate _) as [|next]; [intros [= <- _]; by left|]. destruct (negb _); [intros [= <- _]; by left|].
  match goal with |- context [useConfigurationLocked next ?x] => set (s1 := x) end.
  pose proof (useConfiguration_fields next s1) as (P2 & L2 & _).
  pose proof (persistLocked_fields (useConfigurationLocked next s1)) as (P3 & L3 & _).
  destruct (persistLocked (useConfigurationLocked next s1)) as [s3 [e|]] eqn:Ep; [|done].
  intros [= <- <-]. right. exists next. simpl in P3, L3. rewrite L3, L2, P3, P2.
  split; [done|]. split; [done|]. split; [by destruct (role s)|]. by eexists.
Qed.

(** C37: What an administrator is told.  When the server answers at once the reply
    claims neither success nor doubt; the server is as it was, unless it leads and
    the error is its storage's; and the reply blames leadership exactly when the
    error is raft's own "not leader", which is what every server that does not lead
    answers to a named node.  When [change] goes on to wait, the log has grown by
    exactly the entry at the index the reply will name, that entry holds the
    configuration now in use, and the reply says that the change is committed or
    that it is in doubt, never that it failed. *)
Theorem Admin_change_outcomes args server s s' r :
  change_begin args (λ n s, if (server : bool) then AddServer n s else RemoveServer n s) s = (s', r) →
  match r with
  | inl err => ∀ later,
      let reply := change_error err later in
      ar_OK reply = false ∧ ar_Indeterminate reply = false ∧ ar_Err reply = err ∧
      (s' = s ∨ role s = Leader ∧ log s' ≠ log s ∧ ∃ s1, persistLocked s1 = (s', Some err)) ∧
      (ar_NotLeader reply = true ↔ err = ErrNotLeader) ∧
      (role s ≠ Leader → s' = s ∧ (aa_NodeID args ≠ "" → ar_NotLeader reply = true))
  | inr idx =>
      role s = Leader ∧
      log s' = log s ++ [mkEntry (currentTerm s) idx (Some (encodeConfig (peers s')))] ∧
      ∀ applied later,
        let reply := change_end applied idx later in
        ar_Index reply = idx ∧ ar_NotLeader reply = false ∧ ar_OK reply = applied ∧
        ar_Indeterminate reply = negb applied ∧ (applied = true → ar_Servers reply = peers later)
  end.
Proof.
  unfold change_begin. destruct (String.eqb_spec (aa_NodeID args) "") as [E|Hne].
  { intros [= <- <-] later. simpl. split; [done|]. split; [done|]. split; [done|]. split; [by left|]. split; [done|].
    by intros _. }
  assert (∃ mutate, (if server then AddServer (aa_NodeID args) s else RemoveServer (aa_NodeID args) s) =
    changeConfiguration mutate s) as [mutate ->] by (destruct server; by eexists).
  intros E. destruct r as [err|idx].
  - intros later. destruct (changeConfiguration_refused mutate s s' err E) as [->|(next & Hl & _ & Hlead & Hs1)].
    + assert (ar_NotLeader (change_error err later) = true ↔ err = ErrNotLeader) as Hnl.
      { unfold change_error. destruct (String.eqb_spec err ErrNotLeader); by destruct (LeaderID later). }
      assert (role s ≠ Leader → err = ErrNotLeader) as Hrole.
      { intros Hr. unfold changeConfiguration in E. rewrite bool_decide_eq_true_2 in E by done. congruence. }
      split_and!; try done; try (unfold change_error; case_match; by destruct (LeaderID later)); [by left|].
      intros Hr. split; [done|]. intros _. by apply Hnl, Hrole.
    + split_and!; try (unfold change_error; case_match; by destruct (LeaderID later)).
      * right. split; [done|]. split; [|done]. rewrite Hl. intros Hlen%(f_equal length).
        rewrite length_app in Hlen. simpl in Hlen. lia.
      * unfold change_error. destruct (String.eqb_spec err ErrNotLeader); by destruct (LeaderID later).
  - unfold changeConfiguration in E. case_bool_decide as Hr; [done|]. destruct (negb _); [done|].
    destruct (_ <? _); [done|]. destruct (mutate _) as [|next]; [done|]. destruct (negb _); [done|].
    match type of E with context [useConfigurationLocked next ?x] => set (s1 := x) in * end.
    pose proof (useConfiguration_fields next s1) as (P2 & L2 & _).
    pose proof (persistLocked_fields (useConfigurationLocked next s1)) as (P3 & L3 & _).
    destruct (persistLocked (useConfigurationLocked next s1)) as [s3 [e|]]; [done|].
    injection E as <- <-. simpl in P3, L3. rewrite L3, L2, P3, P2. split; [by destruct (role s)|].
    split; [done|]. intros [] later; simpl; split_and!; by try done.
Qed.

(** A refused administrator is never told who leads: [LeaderID]'s flag says whether
    this server leads, not whether it knows the leader, so the reply that says
    "not leader" leaves the field empty on every server that does not lead, and
    [Configuration] does the same. *)
Theorem admin_redirect_empty err s :
  role s ≠ Leader → ar_LeaderID (change_error err s) = "" ∧ ar_LeaderID (Admin_Configuration s) = "".
Proof.
  intros Hr. unfold change_error, Admin_Configuration, LeaderID.
  rewrite bool_decide_eq_false_2 by done. by case_match.
Qed.

End Admin.

(** ** Scenarios *)

Definition add_n4 : AdminArgs := mkAdminArgs "n4" 0.

Lemma Admin_change_outcomes_witness :
  ∃ s', change_begin add_n4 AddServer committed = (s', inr 3) ∧ role committed = Leader ∧
    ar_OK (change_end false 3 s') = false ∧ ar_Indeterminate (change_end false 3 s') = true.
Proof.
  exists changed. assert (change_begin add_n4 AddServer committed = (changed, inr 3)) as E by (vm_compute; reflexivity).
  split; [exact E|]. destruct (Admin_change_outcomes add_n4 true committed changed (inr 3) E) as (Hr & _ & Hrep).
  split; [exact Hr|]. destruct (Hrep false changed) as (_ & _ & H1 & H2 & _). split; [exact H1|exact H2].
Defined.

Lemma admin_redirect_empty_witness :
  leaderID n2_follows = "n1" ∧ ar_LeaderID (change_error ErrNotLeader n2_follows) = "".
Proof.
  split; [vm_compute; reflexivity|]. apply (admin_redirect_empty ErrNotLeader n2_follows). vm_compute. discriminate.
Defined.

(** n1 appends the addition of n4 at index 3 and waits; n2 is elected in term 2
    and its blank entry takes the index, is committed and applied at n1. *)
Definition overruled : bank_server :=
  after (OpAppendEntries (mkEnv 1000000000 0) (mkAppendEntries 2 "n2" 2 1 [mkEntry 2 3 None] 3))
    (change_wait 3 7%nat changed).

(** OK without the change.  [WaitApplied] waits for an index, not for an entry.
    When another leader's entry takes the index, the administrator is told that the
    addition was appended and committed, and shown a configuration with n4, yet
    the log holds no configuration entry at all, and n4 belongs to no committed
    configuration. *)
Theorem admin_ok_superseded :
  7%nat ∈ closedChans overruled ∧
  change_end true 3 overruled = ok_reply 3 ["n1"; "n2"; "n3"; "n4"] ∧
  commitIndex overruled = 3 ∧ entryAt (log overruled) 3 = Some (mkEntry 2 3 None) ∧
  forallb (λ e, match e_Command e with Some c => negb (isConfigEntry c) | None => true end) (log overruled) = true.
Proof.
  split; [apply (bool_decide_unpack _); vm_compute; exact I|]. split_and!; vm_compute; reflexivity.
Qed.

(** n1 leads a cluster of two; its first entry is on both and committed. *)
Definition pair_leader : bank_server :=
  after (OpReplicateReply env0 "n2" 1 (mkAppendEntries 1 "n1" 0 0 [mkEntry 1 1 None] 0) (mkAppendEntriesReply 1 true))
    (after (OpBecomeLeader 1) (after (OpStartElection env0) (new_server "n1" ["n1"; "n2"] ∅))).

Definition alone_now : bank_server := (change_begin (mkAdminArgs "n2" 0) RemoveServer pair_leader).1.

Lemma broadcast_alone {SM St} `{StateMachine SM} `{Storage St} env (s : Server SM St) :
  peers s = [id s] →
  let (s', targets) := broadcastAppendEntries env s in
  targets = [] ∧ peers s' = peers s ∧ id s' = id s ∧ commitIndex s' = commitIndex s.
Proof.
  intros Hp. unfold broadcastAppendEntries. case_bool_decide; [done|]. simpl. rewrite Hp.
  rewrite filter_cons_False by (intros Hn; by apply Hn). done.
Qed.

(** Shrinking a cluster to its leader does not finish by itself.  The removal of
    the other server is accepted and in use, and the leader alone is a majority,
    but the commit index is only advanced by replies and by client writes: however
    often the heartbeat fires, it goes to nobody and the entry stays uncommitted, so
    the administrator's wait times out.  The next client write commits it. *)
Theorem removal_to_one_stalls :
  change_begin (mkAdminArgs "n2" 0) RemoveServer pair_leader = (alone_now, inr 2) ∧
  majority alone_now = 1%nat ∧
  (∀ envs, let s := foldl (λ s env, (broadcastAppendEntries env s).1) alone_now envs in commitIndex s = 1) ∧
  commitIndex (after (OpSubmit (Some [Byte.x07])) alone_now) = 3.
Proof.
  split; [vm_compute; reflexivity|]. split; [vm_compute; reflexivity|]. split; [|vm_compute; reflexivity].
  assert (peers alone_now = [id alone_now] ∧ commitIndex alone_now = 1) as Hstart by (split; vm_compute; reflexivity).
  revert Hstart. generalize alone_now. intros s Hs envs. revert s Hs.
  induction envs as [|env envs IH]; intros s [Hp Hc]; simpl; [done|].
  apply IH. pose proof (broadcast_alone env s Hp) as Hb. destruct (broadcastAppendEntries env s) as [s' ts].
  destruct Hb as (_ & Hp' & Hi' & Hc'). simpl. split; congruence.
Qed.
