(* ===== verification/ClientApi.v ===== *)
(** * RPC: the client API of a single Raft group
    (src/rpc/client_api.go, the tokenAuth of src/rpc/security.go)

    A call of [Submit] is split where it lets go of a lock: authentication and
    admission, the lookup of an earlier result, the proposal to Raft, the
    registration of the waiter, and one round of the [select] that waits.  The
    machine the service reads is the one its Raft server applies entries to. *)

From S2P Require Import Prelude GoLib GoFloat GoStrings Hlc Ledger Admission RaftTypes RaftLog RaftCodec RaftServer RaftLoop RaftRead.
From S2P Require Import RaftDisk LedgerCodec.

Local Open Scope Z_scope.

Record TxArgs := mkTxArgs {
  ta_Op : string;
  ta_IdempotencyKey : string;
  ta_From : string;
  ta_To : string;
  ta_Amount : Z;
  ta_Token : string;
  ta_ClientID : string
}.

Record TxReply := mkTxReply {
  tr_OK : bool;
  tr_Err : string;
  tr_Balance : Z;
  tr_NotLeader : bool;
  tr_LeaderAddr : string;
  tr_Conflict : bool;
  tr_Indeterminate : bool;
  tr_Unauthenticated : bool;
  tr_Busy : bool;
  tr_RetryAfter : Z
}.

(** The replies of the branches; everything not named is Go's zero value. *)
Definition unauthenticated_reply (err : string) : TxReply :=
  mkTxReply false err 0 false "" false false true false 0.
Definition busy_reply (rej : Rejection) : TxReply :=
  mkTxReply false (Reason rej) 0 false "" false false false true (RetryAfter rej).
Definition error_reply (err : string) : TxReply := mkTxReply false err 0 false "" false false false false 0.
Definition conflict_reply (err : string) : TxReply := mkTxReply false err 0 false "" true false false false 0.
Definition result_reply (r : Result) : TxReply :=
  mkTxReply (r_OK r) (r_Err r) (r_Balance r) false "" false false false false 0.
Definition not_leader_reply (err addr : string) : TxReply :=
  mkTxReply false err 0 true addr false false false false 0.
Definition lost_leader_reply (err addr : string) : TxReply :=
  mkTxReply false err 0 true addr false true false false 0.
Definition indeterminate_reply (err : string) : TxReply :=
  mkTxReply false err 0 false "" false true false false 0.

(** ** tokenAuth *)

Definition ErrUnauthenticated : string := "rpc: unauthenticated: a valid client token is required".

Definition auth_check (token presented : string) : bool :=
  if String.eqb token "" then true else String.eqb token presented.

Definition auth_required (token : string) : bool := negb (String.eqb token "").

(** ** toCommand *)

Definition unknown_op (op : string) : string := "unknown op " +:+ Quote op.

Definition toCommand (args : TxArgs) : string + Command :=
  let command op := inr (mkCommand op (ta_IdempotencyKey args) (ta_From args) (ta_To args)
                           (ta_Amount args) zeroTimestamp) in
  if String.eqb (ta_Op args) "deposit" then command OpDeposit
  else if String.eqb (ta_Op args) "withdraw" then command OpWithdraw
  else if String.eqb (ta_Op args) "transfer" then command OpTransfer
  else if String.eqb (ta_Op args) "open" then command OpOpenAccount
  else inl (unknown_op (ta_Op args)).

(** ** The service *)

Section Service.
Context {St : Type} `{Storage St}.

Record ClientService := mkClientService {
  cs_raft : Server Machine St;
  cs_addrs : gmap NodeID string;
  cs_token : string;
  cs_admit : Admitter
}.

Definition set_raft (s : Server Machine St) (c : ClientService) : ClientService :=
  mkClientService s (cs_addrs c) (cs_token c) (cs_admit c).
Definition set_admit (a : Admitter) (c : ClientService) : ClientService :=
  mkClientService (cs_raft c) (cs_addrs c) (cs_token c) a.

Definition NewClientServiceAuth (s : Server Machine St) (addrs : gmap NodeID string) (token : string) :
    ClientService :=
  mkClientService s addrs token (NewAdmitter (mkLimits 0 fzero 0)).

Definition SetLimits (l : Limits) (c : ClientService) : ClientService := set_admit (NewAdmitter l) c.

Definition machine (c : ClientService) : Machine := default (NewMachine New) (sm (cs_raft c)).

Definition leaderAddr (c : ClientService) : string :=
  let id := (LeaderID (cs_raft c)).1 in
  if String.eqb id "" then "" else default "" (cs_addrs c !! id).

(** ** Submit *)

(** Up to [toCommand]; a slot is held when a command comes back, and when the
    operation is unknown it has been given back. *)
Definition submit_admit (now : Z) (args : TxArgs) (c : ClientService) : ClientService * (TxReply + Command) :=
  if negb (auth_check (cs_token c) (ta_Token args)) then (c, inl (unauthenticated_reply ErrUnauthenticated))
  else
    let (a, r) := Admit now (ta_ClientID args) (cs_admit c) in
    match r with
    | inl rej => (set_admit a c, inl (busy_reply rej))
    | inr _ =>
        match toCommand args with
        | inl err => (set_admit (release a) c, inl (error_reply err))
        | inr cmd => (set_admit a c, inr cmd)
        end
    end.

(** An earlier result of the same key. *)
Definition submit_lookup (cmd : Command) (c : ClientService) : option TxReply :=
  match ResultFor (machine c) cmd with
  | Conflict => Some (conflict_reply ErrIdempotencyConflict)
  | Known r => Some (result_reply r)
  | Unknown => None
  end.

(** The proposal: the index to wait for, or the redirect. *)
Definition submit_propose (cmd : Command) (c : ClientService) :
    outcome Machine St (ClientService * (TxReply + Z)) :=
  '(s, (idx, _, isLeader)) ← Submit (Some (Encode cmd)) (cs_raft c);
  let c := set_raft s c in
  Ok (if (isLeader : bool) then (c, inr idx) else (c, inl (not_leader_reply ErrNotLeader (leaderAddr c)))).

Definition submit_wait (idx : Z) (ch : nat) (c : ClientService) : ClientService :=
  set_raft (WaitApplied idx ch (cs_raft c)) c.

(** What the [select] received. *)
Inductive wakeup := Applied | Ticked | Expired.

(** One round of the [select]; [None] goes round again. *)
Definition submit_round (ev : wakeup) (cmd : Command) (c : ClientService) : option TxReply :=
  match ev with
  | Applied =>
      Some (match Machine_Result (machine c) (c_IdempotencyKey cmd) with
            | Some r => result_reply r
            | None => indeterminate_reply
                "entry was superseded before it committed; retry with the same idempotency key"
            end)
  | Ticked =>
      if (LeaderID (cs_raft c)).2 then None
      else Some (lost_leader_reply "leadership lost before commit; retry with the same idempotency key"
                   (leaderAddr c))
  | Expired =>
      Some (indeterminate_reply "timed out waiting for commit; retry with the same idempotency key")
  end.

(** The deferred [release]. *)
Definition submit_done (c : ClientService) : ClientService := set_admit (release (cs_admit c)) c.

(** ** Balance *)

Record BalanceArgs := mkBalanceArgs {
  ba_Account : string;
  ba_Token : string;
  ba_ClientID : string;
  ba_Linearizable : bool
}.

Record BalanceReply := mkBalanceReply {
  br_Balance : Z;
  br_Found : bool;
  br_Err : string;
  br_NotLeader : bool;
  br_LeaderAddr : string;
  br_Stale : bool;
  br_Unauthenticated : bool;
  br_Busy : bool;
  br_RetryAfter : Z
}.

(** Up to the choice of the read path: a reply, or the slot is held. *)
Definition balance_admit (now : Z) (args : BalanceArgs) (c : ClientService) :
    ClientService * option BalanceReply :=
  if negb (auth_check (cs_token c) (ba_Token args))
  then (c, Some (mkBalanceReply 0 false ErrUnauthenticated false "" false true false 0))
  else
    let (a, r) := Admit now (ba_ClientID args) (cs_admit c) in
    (set_admit a c,
     match r with
     | inl rej => Some (mkBalanceReply 0 false (Reason rej) false "" false false true (RetryAfter rej))
     | inr _ => None
     end).

Definition local_balance (account : string) (stale : bool) (m : Machine) : BalanceReply :=
  let (bal, found) := Balance (m_State m) account in
  mkBalanceReply bal found "" false "" stale false false 0.

(** The stale-tolerant path. *)
Definition balance_local (args : BalanceArgs) (c : ClientService) : BalanceReply :=
  local_balance (ba_Account args) true (machine c).

(** The reader that [LinearizableRead] runs, and the reply to its error. *)
Definition balance_read (args : BalanceArgs) (m : option Machine) : BalanceReply :=
  local_balance (ba_Account args) false (default (NewMachine New) m).

Definition balance_error (err : string) (c : ClientService) : BalanceReply :=
  if String.eqb err ErrNotLeader then mkBalanceReply 0 false err true (leaderAddr c) false false false 0
  else mkBalanceReply 0 false err false "" false false false 0.

(** ** Status *)

Record StatusReply := mkStatusReply {
  sr_ID : string;
  sr_Role : string;
  sr_Term : Z;
  sr_CommitIndex : Z;
  sr_LastApplied : Z;
  sr_LogLength : Z;
  sr_LeaderID : string;
  sr_Balances : gmap string Z
}.

Definition Status (c : ClientService) : StatusReply :=
  let s := cs_raft c in
  mkStatusReply (id s) (Role_String (role s)) (currentTerm s) (commitIndex s) (lastApplied s)
    (Z.of_nat (length (log s)) - 1) (LeaderID s).1 (Balances (m_State (machine c))).

End Service.

(** * RPC: what the replies of the client API mean *)

From S2P Require Import AdmissionProps.
From S2P Require Import Storage RaftVotes RaftNode RaftReplication RaftCommit.

(** ** Replies that promise nothing was proposed *)

Section Refusals.
Context {St : Type} `{Storage St}.

#[local] Opaque spend find_bucket i64.

(** A rejected request leaves the counter as it was; an admitted one adds one. *)
Lemma Admit_inFlight now client a a' r :
  0 ≤ inFlight a < 2 ^ 63 - 1 → Admit now client a = (a', r) →
  inFlight a' = inFlight a + match r with inl _ => 0 | inr _ => 1 end.
Proof.
  intros Ha. unfold Admit. destruct (draining a); [intros [= <- <-]; lia|].
  pose proof (find_bucket_fields now client a) as (_ & Hf & _).
  pose proof (spend_fields now client (find_bucket now client a)) as Hs.
  set (spent := if rate_limited (limits a) then _ else _).
  assert (inFlight spent.1 = inFlight a) as Hin.
  { unfold spent. destruct (rate_limited (limits a)); [|done].
    destruct (spend _ _ _) as [a1 ok]. destruct Hs as (_ & Hs & _). simpl. congruence. }
  clearbody spent. destruct spent as [a1 ok]. simpl in Hin. destruct ok.
  - destruct (_ && _) in |- *; intros [= <- <-]; simpl; rewrite Hin;
      rewrite (i64_small (inFlight a + 1)) by (unfold in_i64; lia); [|lia].
    rewrite i64_small by (unfold in_i64; lia). lia.
  - intros [= <- <-]. simpl. lia.
Qed.

(** C27: Refusals leave nothing behind.  When [Submit] ends before its proposal
    (no valid token, shed by admission control, an unknown operation) the Raft
    server is untouched, the in-flight counter is what it was, and the reply is
    neither a success nor indeterminate nor a redirect; it is unauthenticated
    exactly when the token is wrong.  When Raft refuses the proposal, the server
    is untouched too and the reply is a redirect that is not indeterminate. *)
Theorem Submit_refusals now args cmd (c c' : ClientService (St := St)) reply :
  0 ≤ inFlight (cs_admit c) < 2 ^ 63 - 1 →
  (submit_admit now args c = (c', inl reply) →
   cs_raft c' = cs_raft c ∧ inFlight (cs_admit c') = inFlight (cs_admit c) ∧
   tr_OK reply = false ∧ tr_Indeterminate reply = false ∧ tr_NotLeader reply = false ∧
   tr_Unauthenticated reply = negb (auth_check (cs_token c) (ta_Token args))) ∧
  (submit_propose cmd c = Ok (c', inl reply) →
   c' = c ∧ tr_OK reply = false ∧ tr_Indeterminate reply = false ∧ tr_NotLeader reply = true).
Proof.
  intros Hin. split.
  - unfold submit_admit. destruct (auth_check _ _); simpl; [|by intros [= <- <-]].
    destruct (Admit _ _ _) as [a r] eqn:E. apply Admit_inFlight in E; [|done].
    destruct r as [rej|]; simpl in *; [intros [= <- <-]; split_and!; try done; simpl; lia|].
    destruct (toCommand args); [|done]. intros [= <- <-]. split_and!; try done. simpl.
    rewrite i64_small by (unfold in_i64; lia). lia.
  - unfold submit_propose, Submit. destruct (_ || _); simpl.
    { intros [= <- <-]. split_and!; try done. by destruct c. }
    destruct (mustPersistLocked _) as [s1|]; simpl; [|done].
    destruct (advanceCommitIndexLocked s1); simpl; done.
Qed.

(** ** A group of one server *)

(** C26: A write to a group of one is answered by the ledger.  When the server
    leads alone, has applied its whole log and can write its storage, proposing
    a command whose strings fit their 16-bit lengths ([encodable]) takes the next index, commits and applies it at once: the ledger
    has moved exactly as it does for this command, the channel registered for
    the index is closed, and the round that receives from it replies with the
    ledger's own result. *)
Theorem Submit_single_server (c : ClientService (St := St)) cmd m st r ch :
  alone (cs_raft c) → sm (cs_raft c) = Some m → encodable cmd →
  Ledger.Apply cmd (m_State m) = Some (st, r) →
  ∃ c' idx, submit_propose cmd c = Ok (c', inr idx) ∧ idx = lastIndex (log (cs_raft c)) + 1 ∧
    m_State (machine c') = st ∧ ch ∈ closedChans (cs_raft (submit_wait idx ch c')) ∧
    submit_round Applied cmd (submit_wait idx ch c') = Some (result_reply r).
Proof.
  intros Hal Hsm Henc Happ.
  set (m' := mkMachine st (<[c_IdempotencyKey cmd:=r]> (m_results m))
                          (<[c_IdempotencyKey cmd:=fingerprint cmd]> (m_fingerprints m))).
  destruct (Submit_alone (cs_raft c) (Encode cmd) (Some m') Hal) as (s' & Hs & Hsm' & Hla).
  { rewrite Hsm. unfold apply_entry. simpl. unfold Machine_Apply.
    rewrite Decode_Encode_self by done. by rewrite Happ. }
  exists (set_raft s' c), (lastIndex (log (cs_raft c)) + 1).
  unfold submit_propose. rewrite Hs. simpl. unfold machine. simpl. rewrite Hsm'. simpl.
  unfold WaitApplied. rewrite Hla. rewrite (proj2 (Z.leb_le _ _)) by lia. simpl.
  split_and!; try done; [rewrite elem_of_app; right; by left|].
  rewrite Hsm'. simpl. unfold Machine_Result. simpl. by rewrite lookup_insert_eq.
Qed.

End Refusals.

(** ** Two requests under one key *)

Definition solo : Server Machine disk := after (OpBecomeLeader 1) (after (OpStartElection env0) (new_server "n1" ["n1"] ∅)).
Definition solo_service : ClientService := NewClientServiceAuth solo {["n1" := "host:1"]} "".

Definition open_cmd (account : string) (amount : Z) : Command :=
  mkCommand OpOpenAccount "k" "" account amount zeroTimestamp.

Definition proposed (cmd : Command) (c : ClientService) : ClientService :=
  match submit_propose cmd c with Ok (c', _) => c' | Panic _ => c end.

(** A opens "alice", B opens "bob" under the same key; both have looked the key
    up before either proposes. *)
Definition both : ClientService := proposed (open_cmd "bob" 20) (proposed (open_cmd "alice" 10) solo_service).

(** A committed write is reported as a conflict.  Two requests race under
    one idempotency key.  Neither finds an earlier result, both are committed and
    applied, the second as a conflict.  The machine files the conflict under the
    key, and the first caller, woken afterwards, is told that its request failed
    with a conflict; yet the ledger holds the account it opened, and a retry of
    the same request is refused as a conflict as well. *)
Theorem Submit_conflict_race :
  submit_lookup (open_cmd "alice" 10) solo_service = None ∧
  submit_lookup (open_cmd "bob" 20) solo_service = None ∧
  submit_round Applied (open_cmd "alice" 10) (proposed (open_cmd "alice" 10) solo_service)
    = Some (result_reply (succeeded 10)) ∧
  submit_round Applied (open_cmd "alice" 10) both = Some (error_reply ErrIdempotencyConflict) ∧
  submit_lookup (open_cmd "alice" 10) both = Some (conflict_reply ErrIdempotencyConflict) ∧
  Balance (m_State (machine both)) "alice" = (10, true).
Proof. split_and!; vm_compute; reflexivity. Qed.

Lemma solo_alone : alone solo.
Proof.
  split; [vm_compute; reflexivity|vm_compute; reflexivity|vm_compute; reflexivity|solve_wf|vm_compute; reflexivity..|].
  intros s' _. unfold persistLocked. destruct (storage s'); reflexivity.
Qed.

Lemma Submit_refusals_witness :
  let c := NewClientServiceAuth solo ∅ "secret" in
  ∃ c' reply, submit_admit 0 (mkTxArgs "open" "k" "" "a" 1 "guess" "") c = (c', inl reply) ∧
    tr_Unauthenticated reply = true ∧ cs_raft c' = cs_raft c.
Proof.
  intros c. eexists _, _. split; [reflexivity|]. split; [reflexivity|].
  refine (proj1 (proj1 (Submit_refusals 0 (mkTxArgs "open" "k" "" "a" 1 "guess" "") (open_cmd "a" 1) c c _ _) eq_refl)).
  split; [done|]. simpl. lia.
Defined.

Lemma Submit_single_server_witness :
  ∃ c' idx, submit_propose (open_cmd "alice" 10) solo_service = Ok (c', inr idx) ∧
    submit_round Applied (open_cmd "alice" 10) (submit_wait idx 0%nat c') = Some (result_reply (succeeded 10)).
Proof.
  assert (sm solo = Some bank_machine) as Hsm by (vm_compute; reflexivity).
  assert (encodable (open_cmd "alice" 10)) as Henc by (vm_compute; repeat split; congruence).
  destruct (Ledger.Apply (open_cmd "alice" 10) (m_State bank_machine)) as [[st r]|] eqn:E;
    [|vm_compute in E; done].
  assert (r = succeeded 10) as -> by (vm_compute in E; by injection E).
  destruct (Submit_single_server solo_service (open_cmd "alice" 10) bank_machine st (succeeded 10) 0%nat
    solo_alone Hsm Henc E) as (c' & idx & H1 & _ & _ & _ & H2).
  exists c', idx. split; [exact H1|exact H2].
Defined.
