(* ===== verification/Bankcli.v ===== *)
(** * The command-line client (src/cmd/bankcli/main.go)

    What it prints and the status it exits with, for every command line.  The
    server is a set of answers: an error of the call, or a reply.  Parsing the
    arguments of the process and the transport are net/rpc's and the shell's. *)

From Stdlib Require Import Ascii.
From S2P Require Import Prelude GoLib GoStrings GoRunes Ledger ClientApi.

Local Open Scope Z_scope.

Record Bank := mkBank {
  bank_Dial : string → option string;
  bank_Status : string + StatusReply;
  bank_Submit : TxArgs → string + TxReply;
  bank_Balance : BalanceArgs → string + BalanceReply
}.

(** What a run leaves: exit status, standard output, standard error. *)
Record run := mkRun { run_exit : Z; run_out : string; run_err : string }.

Definition line_end : string := String (ascii_of_nat 10) "".
Definition two_quotes : string := String (ascii_of_nat 34) (String (ascii_of_nat 34) "").

Definition usage : string :=
  "usage:" +:+ line_end +:+
  "  bankcli <addr> status" +:+ line_end +:+
  "  bankcli <addr> tx <op> <key> <from> <amount> <to>     op: open|deposit|withdraw|transfer" +:+ line_end +:+
  "  bankcli <addr> bal <account> <lin|stale>" +:+ line_end +:+ line_end +:+
  "amounts are integer minor units (cents): 50000 = 500.00" +:+ line_end +:+
  "use " +:+ two_quotes +:+ " for an unused from/to field, e.g. tx open o1 " +:+ two_quotes +:+ " 50000 alice".

Definition fail (msg : string) : run := mkRun 1 "" (msg +:+ line_end).

(** ** The verbs of the format strings *)

Definition fmt_bool (b : bool) : string := if b then "true" else "false".

(** [%v] of a map: the keys in order. *)
Definition fmt_map (m : gmap string Z) : string :=
  "map[" +:+ String.concat " " ((λ k, k +:+ ":" +:+ fmt_d (default 0 (m !! k))) <$> sorted_keys m) +:+ "]".

(** ** The commands *)

Definition doStatus (b : Bank) : run :=
  match bank_Status b with
  | inl err => fail ("status: " +:+ err)
  | inr r =>
      mkRun 0 (pad 4 (sr_ID r) +:+ " " +:+ pad 9 (sr_Role r) +:+ " term=" +:+ pad 3 (fmt_d (sr_Term r))
        +:+ " commit=" +:+ pad 3 (fmt_d (sr_CommitIndex r)) +:+ " applied=" +:+ pad 3 (fmt_d (sr_LastApplied r))
        +:+ " log=" +:+ pad 3 (fmt_d (sr_LogLength r)) +:+ " leader=" +:+ sr_LeaderID r +:+ " balances=" +:+ fmt_map (sr_Balances r)
        +:+ line_end) ""
  end.

Definition tx_exit (r : TxReply) : Z :=
  if tr_OK r then 0 else if tr_NotLeader r then 3 else if tr_Indeterminate r then 4 else if tr_Conflict r then 5 else 1.

Definition doTx (b : Bank) (op key from amountArg to : string) : run :=
  let (amount, err) := ParseInt amountArg in
  match err with
  | Some _ => fail ("bad amount " +:+ Quote amountArg +:+ ": want an integer number of cents")
  | None =>
      match bank_Submit b (mkTxArgs op key from to amount "" "") with
      | inl err => fail ("submit: " +:+ err)
      | inr r =>
          mkRun (tx_exit r)
            ("ok=" +:+ fmt_bool (tr_OK r) +:+ " err=" +:+ Quote (tr_Err r) +:+ " balance=" +:+ fmt_d (tr_Balance r)
             +:+ " notLeader=" +:+ fmt_bool (tr_NotLeader r) +:+ " leaderAddr=" +:+ tr_LeaderAddr r
             +:+ " conflict=" +:+ fmt_bool (tr_Conflict r) +:+ " indeterminate=" +:+ fmt_bool (tr_Indeterminate r) +:+ line_end) ""
      end
  end.

Definition doBal (b : Bank) (account mode : string) : run :=
  if negb (String.eqb mode "lin") && negb (String.eqb mode "stale") then
    fail ("read mode must be 'lin' or 'stale', got " +:+ Quote mode)
  else
    match bank_Balance b (mkBalanceArgs account "" "" (String.eqb mode "lin")) with
    | inl err => fail ("balance: " +:+ err)
    | inr r =>
        mkRun (if negb (String.eqb (br_Err r) "") then 1 else if negb (br_Found r) then 2 else 0)
          ("balance=" +:+ fmt_d (br_Balance r) +:+ " found=" +:+ fmt_bool (br_Found r) +:+ " stale=" +:+ fmt_bool (br_Stale r)
           +:+ " err=" +:+ Quote (br_Err r) +:+ line_end) ""
    end.

(** [args] are the arguments of the process, its own name first. *)
Definition bankcli (b : Bank) (args : list string) : run :=
  match args with
  | _ :: addr :: cmd :: rest =>
      match bank_Dial b addr with
      | Some err => fail ("dial " +:+ addr +:+ ": " +:+ err)
      | None =>
          if String.eqb cmd "status" then doStatus b
          else if String.eqb cmd "tx" then
            match rest with
            | [op; key; from; amount; to] => doTx b op key from amount to
            | _ => fail ("tx needs 5 arguments" +:+ line_end +:+ line_end +:+ usage)
            end
          else if String.eqb cmd "bal" then
            match rest with
            | [account; mode] => doBal b account mode
            | _ => fail ("bal needs 2 arguments" +:+ line_end +:+ line_end +:+ usage)
            end
          else fail ("unknown command " +:+ Quote cmd +:+ line_end +:+ line_end +:+ usage)
      end
  | _ => fail usage
  end.

(** ** Properties *)

(** A failed transaction never exits 0.  [bankcli tx] exits 0 exactly when the
    node was reached, the amount is an integer of 64 bits and the reply says the
    transaction succeeded; it exits 3, 4 or 5 only for a reply that is not a success
    and says, in this order of precedence, that the node does not lead, that the outcome is
    unknown, or that the key was used for another request; anything else is 1. *)
Theorem tx_exit_codes b prog addr op key from amount to :
  let out := run_exit (bankcli b [prog; addr; "tx"; op; key; from; amount; to]) in
  let reply r := bank_Dial b addr = None ∧ ∃ n, ParseInt amount = (n, None) ∧ bank_Submit b (mkTxArgs op key from to n "" "") = inr r in
  (out = 0 ↔ ∃ r, reply r ∧ tr_OK r = true) ∧
  (out = 3 ↔ ∃ r, reply r ∧ tr_OK r = false ∧ tr_NotLeader r = true) ∧
  (out = 4 ↔ ∃ r, reply r ∧ tr_OK r = false ∧ tr_NotLeader r = false ∧ tr_Indeterminate r = true) ∧
  (out = 5 ↔ ∃ r, reply r ∧ tr_OK r = false ∧ tr_NotLeader r = false ∧ tr_Indeterminate r = false ∧ tr_Conflict r = true) ∧
  out ∈ [0; 1; 3; 4; 5].
Proof.
  cbn zeta. unfold bankcli. cbn [String.eqb Ascii.eqb Bool.eqb].
  assert (∀ P : TxReply → Prop, (∀ r, ¬ (bank_Dial b addr = None ∧ ∃ n, ParseInt amount = (n, None) ∧
    bank_Submit b (mkTxArgs op key from to n "" "") = inr r)) →
    ∀ k, k ≠ 1 → (1 = k ↔ ∃ r, (bank_Dial b addr = None ∧ ∃ n, ParseInt amount = (n, None) ∧
    bank_Submit b (mkTxArgs op key from to n "" "") = inr r) ∧ P r)) as Hno.
  { intros P Hn k Hk. split; [congruence|]. intros (r & Hr & _). by destruct (Hn r). }
  assert (1 ∈ [0; 1; 3; 4; 5]) as H1 by (right; left).
  destruct (bank_Dial b addr) as [err|] eqn:Ed.
  { assert (∀ r, ¬ (Some err = None ∧ ∃ n, ParseInt amount = (n, None) ∧ bank_Submit b (mkTxArgs op key from to n "" "") = inr r))
      as Hn by by intros r [? _].
    cbn [run_exit fail]. split_and!; [by apply Hno..|done]. }
  unfold doTx. destruct (ParseInt amount) as [n [e|]] eqn:Ep.
  { cbn [run_exit fail]. split_and!; [apply Hno; [by intros r (_ & ? & ? & _)|done]..|done]. }
  destruct (bank_Submit b _) as [e|r] eqn:Es.
  { assert (∀ r, ¬ ((None : option string) = None ∧ ∃ n', (n, None : option num_error) = (n', None) ∧ bank_Submit b (mkTxArgs op key from to n' "" "") = inr r)) as Hn.
    { intros r (_ & n' & [= <-] & E). congruence. }
    cbn [run_exit fail]. split_and!; [by apply Hno..|done]. }
  assert (∀ P : TxReply → Prop, (∃ r', ((None : option string) = None ∧ ∃ n', (n, None : option num_error) = (n', None) ∧
    bank_Submit b (mkTxArgs op key from to n' "" "") = inr r') ∧ P r') ↔ P r) as Hyes.
  { intros P. split; [|intros HP; exists r; split; [|done]; split; [done|by exists n]].
    intros (r' & (_ & n' & [= <-] & E) & HP). assert (r' = r) as -> by congruence. done. }
  rewrite !Hyes. clear. cbn [run_exit]. unfold tx_exit.
  destruct (tr_OK r), (tr_NotLeader r), (tr_Indeterminate r), (tr_Conflict r); (split_and!; [intuition congruence..|]);
    apply (bool_decide_unpack _); reflexivity.
Qed.

(** Every other failure exits non-zero too: a run that exits 0 got a status, a
    transaction that succeeded, or the balance of an account that exists, read without
    an error. *)
Theorem exit_zero_means_done b args :
  run_exit (bankcli b args) = 0 →
  run_err (bankcli b args) = "" ∧
  ((∃ r, bank_Status b = inr r) ∨
   (∃ a r, bank_Submit b a = inr r ∧ tr_OK r = true) ∨
   (∃ a r, bank_Balance b a = inr r ∧ br_Found r = true ∧ br_Err r = "")).
Proof.
  unfold bankcli. destruct args as [|p [|addr [|cmd rest]]]; [done..|]. destruct (bank_Dial b addr); [done|].
  destruct (String.eqb cmd "status").
  { unfold doStatus. destruct (bank_Status b) as [|r]; [done|]. intros _. split; [done|]. left. by exists r. }
  destruct (String.eqb cmd "tx").
  { destruct rest as [|op [|key [|from [|amount [|to [|]]]]]]; [done..| |done]. unfold doTx.
    destruct (ParseInt amount) as [n [|]]; [done|]. destruct (bank_Submit b _) as [|r] eqn:E; [done|].
    cbn [run_exit run_err]. unfold tx_exit. destruct (tr_OK r) eqn:Eo.
    - intros _. split; [done|]. right. left. eauto.
    - by destruct (tr_NotLeader r), (tr_Indeterminate r), (tr_Conflict r). }
  destruct (String.eqb cmd "bal"); [|done]. destruct rest as [|account [|mode [|]]]; [done..| |done]. unfold doBal.
  destruct (_ && _); [done|]. destruct (bank_Balance b _) as [|r] eqn:E; [done|]. cbn [run_exit run_err].
  destruct (String.eqb_spec (br_Err r) ""); [|done]. destruct (br_Found r) eqn:Ef; [|done]. intros _. split; [done|].
  right. right. eauto.
Qed.

(** A bank that answers every transfer with 70 left. *)
Definition easy_bank : Bank :=
  mkBank (λ _, None) (inl "down") (λ a, inr (result_reply (mkResult true "" 70))) (λ _, inl "down").

Lemma exit_zero_means_done_witness :
  let out := bankcli easy_bank ["bankcli"; "a:1"; "tx"; "transfer"; "k1"; "alice"; "30"; "bob"] in
  run_exit out = 0 ∧ run_err out = "" ∧
  run_out out = "ok=true err=" +:+ two_quotes +:+ " balance=70 notLeader=false leaderAddr= conflict=false indeterminate=false" +:+ line_end.
Proof.
  intros out. assert (run_exit out = 0) as E by reflexivity. split; [exact E|]. split; [|reflexivity].
  exact (proj1 (exit_zero_means_done easy_bank ["bankcli"; "a:1"; "tx"; "transfer"; "k1"; "alice"; "30"; "bob"] E)).
Defined.

Example status_line :
  run_out (doStatus (mkBank (λ _, None) (inr (mkStatusReply "n1" "Leader" 3 12 12 13 "n1" {["bob" := 5; "alice" := 70]}))
    (λ _, inl "") (λ _, inl ""))) =
  "n1   Leader    term=3   commit=12  applied=12  log=13  leader=n1 balances=map[alice:70 bob:5]" +:+ line_end.
Proof. vm_compute. reflexivity. Qed.
