(* ===== verification/ShardNode.v ===== *)
(** * RPC: hosting shard replicas and the network group (src/rpc/shardnode.go, and rpc.go's services)

    A host keeps one Raft server per shard it has a replica of.  [NetworkGroup]
    implements the coordinator's [Group] interface over them.  [Propose] waits
    for its entry to be applied; what the hosted servers do meanwhile (messages
    from peers, other requests) is the next element of [h_script], a list of
    operations, together with what the [select] receives at the end.  A panic
    ends the process, so nothing is said about what follows one.  The services of a
    node and the calls between nodes are at the end. *)

From S2P Require Import Prelude GoLib GoStrings Hlc Ledger Ring TwoPC ShardMachine Coordinator Storage.
From S2P Require Import RaftTypes RaftLog RaftCodec RaftServer RaftLoop RaftRead RaftNode RaftCommit RaftDisk.
From S2P Require RaftSnapshot Transport.

Local Open Scope Z_scope.

Abbreviation replica := (Server ShardMachine.Machine disk).

(** Whether the timer fired although the entry may be applied: a [select] with
    both channels ready takes either. *)
Record wait := mkWait { wt_ops : list (ID * op); wt_expired : bool }.

Record ShardHost := mkShardHost {
  h_replicas : gmap ID replica;
  h_script : list wait;
  h_chan : nat
}.

Definition set_replicas (rs : gmap ID replica) (h : ShardHost) : ShardHost :=
  mkShardHost rs (h_script h) (h_chan h).

Definition Replica (s : ID) (h : ShardHost) : option replica := h_replicas h !! s.

Definition ShardIDs (h : ShardHost) : list ID := merge_sort String.le (map_to_list (h_replicas h)).*1.

Definition host_Start (env : Env) (h : ShardHost) : ShardHost := set_replicas (RaftLoop.Start env <$> h_replicas h) h.

Definition host_Stop (h : ShardHost) : ShardHost := set_replicas (RaftLoop.Stop <$> h_replicas h) h.

(** ** net/rpc's table of services *)

(** A service holds a pointer [P] to the server it serves. *)
Inductive service (P : Type) := RaftService (srv : P) | BankService | AdminService (srv : P).
Arguments RaftService {P}.
Arguments BankService {P}.
Arguments AdminService {P}.

Abbreviation registry P := (gmap string (service P)).

(** [rpc.Server.RegisterName], for a name that is not empty. *)
Definition RegisterName {P} (name : string) (svc : service P) (r : registry P) : string + registry P :=
  if bool_decide (is_Some (r !! name)) then inl ("rpc: service already defined: " +:+ name)
  else inr (<[name:=svc]> r).

Definition register_bank {P} (client : bool) (r : registry P) : string + registry P :=
  if client then
    match RegisterName "Bank" BankService r with
    | inl err => inl ("rpc: register bank: " +:+ err)
    | inr r => inr r
    end
  else inr r.

(** [ListenSecure] (rpc.go) up to the listener: one group, on the name Raft. *)
Definition ListenSecure {P} (srv : P) (client : bool) (listen_err : option string) : string + registry P :=
  match RegisterName "Raft" (RaftService srv) ∅ with
  | inl err => inl ("rpc: register raft: " +:+ err)
  | inr r =>
      match register_bank client r with
      | inl err => inl err
      | inr r =>
          match RegisterName "Admin" (AdminService srv) r with
          | inl err => inl ("rpc: register admin: " +:+ err)
          | inr r => match listen_err with Some err => inl err | None => inr r end
          end
      end
  end.

(** ** RegisterShards

    An element is a pointer to a replica, whose server and machine may be missing.
    A nil pointer fails the check and is then dereferenced for the message: [None]
    is that panic.  A Raft service points to the server of its shard. *)
Fixpoint register (reps : list (option (ID * option replica))) (r : registry ID) (byID : gmap ID replica) :
    option (string + registry ID * gmap ID replica) :=
  match reps with
  | [] => Some (inr (r, byID))
  | None :: _ => None
  | Some (s, None) :: _ => Some (inl ("rpc: incomplete replica for shard " +:+ Quote s))
  | Some (s, Some rep) :: reps =>
      if bool_decide (is_Some (byID !! s)) then Some (inl ("rpc: shard " +:+ s +:+ " registered twice on this node"))
      else
        let name := "Raft-" +:+ s in
        match RegisterName name (RaftService s) r with
        | inl err => Some (inl ("rpc: register " +:+ name +:+ ": " +:+ err))
        | inr r => register reps r (<[s:=rep]> byID)
        end
  end.

(** What [listenOn] answers is an input. *)
Definition RegisterShards (reps : list (option (ID * option replica))) (client : bool) (listen_err : option string) :
    option (string + registry ID * ShardHost) :=
  match reps with
  | [] => Some (inl "rpc: no shard replicas to host")
  | _ =>
      match register reps ∅ ∅ with
      | None => None
      | Some (inl err) => Some (inl err)
      | Some (inr (r, byID)) =>
          match register_bank client r with
          | inl err => Some (inl err)
          | inr r =>
              match listen_err with
              | Some err => Some (inl err)
              | None => Some (inr (r, mkShardHost byID [] 0))
              end
          end
      end
  end.

(** ** NetworkGroup *)

Definition machine_at (s : ID) (h : ShardHost) : Machine :=
  default (NewMachine s New) (r ← Replica s h; sm r).

Definition leads (s : ID) (h : ShardHost) : bool :=
  match Replica s h with Some r => bool_decide (role r = Leader) | None => false end.

(** The operations of the other goroutines, in order. *)
Definition run_op (rs : gmap ID replica) (x : ID * op) : gmap ID replica :=
  match rs !! x.1 with
  | None => rs
  | Some r => match exec x.2 r with Ok (r', _) => <[x.1:=r']> rs | Panic r' => <[x.1:=r']> rs end
  end.

Definition no_replica (s : ID) : error := Plain ("rpc: no replica of shard " +:+ s +:+ " on this node").
Definition lost_leadership (s : ID) : error :=
  Plain ("rpc: shard " +:+ s +:+ " lost leadership mid-propose").
Definition timed_out (s : ID) (idx : Z) : error :=
  Plain ("rpc: shard " +:+ s +:+ " timed out applying entry " +:+ fmt_d idx).

(** The [select]: the channel of the waiter, or the timer. *)
Definition propose_end (s : ID) (idx : Z) (ch : nat) (expired : bool) (h : ShardHost) :
    Result * bool * option error :=
  match Replica s h with
  | None => (zeroResult, false, Some (no_replica s))
  | Some r =>
      if bool_decide (ch ∈ closedChans r) && negb expired
      then (AppliedResult (machine_at s h) idx, true, None)
      else if bool_decide (role r ≠ Leader) then (zeroResult, false, Some (lost_leadership s))
      else (zeroResult, true, Some (timed_out s idx))
  end.

Definition network_propose (s : ID) (cmd : Command) (timeout : Z) (h : ShardHost) :
    ShardHost * (Result * bool * option error) :=
  match Replica s h with
  | None => (h, (zeroResult, false, Some (no_replica s)))
  | Some r =>
      match Submit (Some (TwoPC.Encode cmd)) r with
      | Panic r' => (set_replicas (<[s:=r']> (h_replicas h)) h, (zeroResult, false, None))
      | Ok (r', (idx, _, isLeader)) =>
          if negb isLeader then (set_replicas (<[s:=r']> (h_replicas h)) h, (zeroResult, false, None))
          else
            let ch := h_chan h in
            let rs := <[s:=WaitApplied idx ch r']> (h_replicas h) in
            let (w, script) := match h_script h with [] => (mkWait [] false, []) | w :: ws => (w, ws) end in
            let h := mkShardHost (foldl run_op rs (wt_ops w)) script (S ch) in
            (h, propose_end s idx ch (wt_expired w) h)
      end
  end.

#[global] Instance network_group : Group ShardHost := {|
  Propose := network_propose;
  MachineOf := machine_at;
  IsLeader := leads
|}.

(** ** What Propose returns *)

Lemma applied_result (m m' : Machine) i cmd res :
  ApplyAt i (TwoPC.Encode cmd) m = Some (m', res) → AppliedResult m' i = res.
Proof.
  unfold ApplyAt. destruct (apply _ m) as [[m1 r1]|]; simpl; [|done]. intros [= <- <-].
  unfold AppliedResult. simpl. by rewrite lookup_insert_eq.
Qed.

(** C28: A proposal to a shard of one replica keeps the contract of [Group].
    When the hosted replica leads alone and nothing intervenes, [Propose] replicates and applies
    the command: it returns the machine's own result for it with leadership and
    no error, the shard's machine is the one that result belongs to, and no
    other shard is touched. *)
Theorem network_propose_alone s cmd timeout h r m m' res :
  Replica s h = Some r → alone r → sm r = Some m → h_script h = [] →
  ApplyAt (lastIndex (log r) + 1) (TwoPC.Encode cmd) m = Some (m', res) →
  ∃ h', network_propose s cmd timeout h = (h', (res, true, None)) ∧ machine_at s h' = m' ∧
    took_effect cmd (machine_at s h) (machine_at s h') res ∧
    ∀ s', s' ≠ s → machine_at s' h' = machine_at s' h.
Proof.
  intros Hr Hal Hsm Hscript Happ.
  destruct (Submit_alone r (TwoPC.Encode cmd) (Some m') Hal) as (r' & Hs & Hsm' & Hla).
  { rewrite Hsm. unfold apply_entry. simpl. by rewrite Happ. }
  unfold network_propose. rewrite Hr, Hs, Hscript. cbn [negb wt_ops wt_expired foldl].
  set (w := WaitApplied _ _ r').
  assert (sm w = Some m' ∧ h_chan h ∈ closedChans w) as [Hw1 Hw2].
  { unfold w, WaitApplied. rewrite Hla, (proj2 (Z.leb_le _ _)) by lia. simpl. split; [done|].
    rewrite elem_of_app. right. by left. }
  clearbody w. set (h' := mkShardHost _ _ _).
  assert (machine_at s h' = m') as Hm'.
  { unfold machine_at, Replica, h'. simpl. by rewrite lookup_insert_eq; simpl; rewrite Hw1. }
  exists h'. split_and!; [|done| |].
  - unfold propose_end. replace (Replica s h') with (Some w)
      by (unfold Replica, h'; simpl; by rewrite lookup_insert_eq).
    rewrite bool_decide_eq_true_2 by done. simpl. by rewrite Hm', (applied_result m m' _ cmd res).
  - exists (lastIndex (log r) + 1). rewrite Hm'. unfold machine_at. rewrite Hr. simpl. by rewrite Hsm.
  - intros s' Hne. unfold machine_at, Replica, h'. simpl. by rewrite lookup_insert_ne.
Qed.

(** ** Concrete hosts *)

Definition shard_server (s : ID) (me : NodeID) (ps : list NodeID) : replica :=
  SetStorage ∅ (NewServerWith me ps (Some (NewMachine s New)) SnapshotCapable DefaultConfig).

Definition step_all (os : list op) (r : replica) : replica :=
  foldl (λ r o, match exec o r with Ok (r', _) => r' | Panic r' => r' end) r os.

(** n1 elected in term 1 with the vote of n2, its blank entry committed. *)
Definition elected (r : replica) : replica :=
  step_all [OpStartElection env0; OpVoteReply 1 (mkRequestVoteReply 1 true); OpBecomeLeader 1;
            OpReplicateReply env0 "n2" 1 (mkAppendEntries 1 "n1" 0 0 [mkEntry 1 1 None] 0)
              (mkAppendEntriesReply 1 true)] r.

Definition open_entry (key account : string) (amount : Z) : Command :=
  mkCommand OpSingle "" (Ledger.mkCommand OpOpenAccount key "" account amount (mkTimestamp 1 0)) false false [] "".

(** Shard s1 is a group of one, shard s2 a group of three led from here; alice
    has 100 on s1, bob has 5 on s2 (entry 2, acknowledged by n2). *)
Definition s1_replica : replica :=
  step_all [OpStartElection env0; OpBecomeLeader 1; OpSubmit (Some (TwoPC.Encode (open_entry "o1" "alice" 100)))]
    (shard_server "s1" "n1" ["n1"]).

Definition s2_replica : replica :=
  step_all [OpSubmit (Some (TwoPC.Encode (open_entry "o2" "bob" 5)));
            OpReplicateReply env0 "n2" 1
              (mkAppendEntries 1 "n1" 1 1 [mkEntry 1 2 (Some (TwoPC.Encode (open_entry "o2" "bob" 5)))] 1)
              (mkAppendEntriesReply 1 true)]
    (elected (shard_server "s2" "n1" three)).

Definition bank_host (script : list wait) : ShardHost :=
  mkShardHost {["s1" := s1_replica; "s2" := s2_replica]} script 0.

Definition transfer_cmd : Ledger.Command := Ledger.mkCommand OpTransfer "k" "alice" "bob" 30 (mkTimestamp 5 0).

Definition two_shards : Coordinator := NewCoordinator (@NewRing merge_SortSlice ["s1"; "s2"] 4) {["s1"; "s2"]}.

Definition money (account : string) (s : ID) (h : ShardHost) : Z * bool :=
  Balance (m_State (machine_at s h)) account.

(** While the credit side's prepare waits at index 3 of shard s2, n2 is elected
    in term 2 and its blank entry replaces it and is committed. *)
Definition superseded : wait :=
  mkWait [("s2", OpAppendEntries (mkEnv 1000000000 0)
             (mkAppendEntries 2 "n2" 2 1 [mkEntry 2 3 None] 3))] false.

Definition quiet_wait : wait := mkWait [] false.

(** A superseded prepare counts as a yes vote, and the money is gone.  The
    node leads shard s1 and, at first, shard s2.  The debit side prepares.  The
    prepare of the credit side is appended to s2's log but another leader is
    elected there and its blank entry takes the index; when that entry is
    applied here, the waiter wakes, and [AppliedResult] finds no result for the
    index and reports success.  The coordinator commits: 30 leave alice's account, the
    outcome for s2 is dropped because this node no longer leads it, the client is
    told the transfer succeeded, bob has what he had, and no shard holds
    the transaction in doubt. *)
Theorem superseded_credit_destroys_money :
  let (h, r) := twoPhase two_shards "k" transfer_cmd "s1" "s2" (bank_host [quiet_wait; superseded]) in
  r = (succeeded 70, None) ∧ money "alice" "s1" h = (70, true) ∧ money "bob" "s2" h = (5, true) ∧
  Tx (machine_at "s2" h) "k" = None ∧ InDoubt (machine_at "s1" h) = [] ∧ InDoubt (machine_at "s2" h) = [].
Proof.
  destruct (twoPhase _ _ _ _ _ _) as [h r] eqn:E.
  assert ((h, r).2 = (succeeded 70, None) ∧ money "alice" "s1" (h, r).1 = (70, true) ∧
    money "bob" "s2" (h, r).1 = (5, true) ∧ Tx (machine_at "s2" (h, r).1) "k" = None ∧
    InDoubt (machine_at "s1" (h, r).1) = [] ∧ InDoubt (machine_at "s2" (h, r).1) = []) as Hall
    by (rewrite <- E; split_and!; vm_compute; reflexivity).
  exact Hall.
Qed.

Lemma network_propose_alone_witness :
  ∃ h', network_propose "s1" (open_entry "o3" "c" 7) 0 (bank_host []) = (h', (succeeded 7, true, None)) ∧
    took_effect (open_entry "o3" "c" 7) (machine_at "s1" (bank_host [])) (machine_at "s1" h') (succeeded 7).
Proof.
  destruct (sm s1_replica) as [m|] eqn:Em; [|vm_compute in Em; done].
  destruct (ApplyAt (lastIndex (log s1_replica) + 1) (TwoPC.Encode (open_entry "o3" "c" 7)) m) as [[m' res]|] eqn:Ea;
    [|vm_compute in Em; injection Em as <-; vm_compute in Ea; done].
  assert (res = succeeded 7) as -> by (vm_compute in Em; injection Em as <-; vm_compute in Ea; by injection Ea).
  assert (Replica "s1" (bank_host []) = Some s1_replica) as Hr by reflexivity.
  assert (alone s1_replica) as Hal.
  { split; [vm_compute; reflexivity|vm_compute; reflexivity|vm_compute; reflexivity|solve_wf|vm_compute; reflexivity..|].
    intros s' _. unfold persistLocked. destruct (storage s'); reflexivity. }
  destruct (network_propose_alone "s1" (open_entry "o3" "c" 7) 0 (bank_host []) s1_replica m m' (succeeded 7)
    Hr Hal Em eq_refl Ea) as (h' & H1 & _ & H2 & _).
  exists h'. split; [exact H1|exact H2].
Defined.

(** ** Calls between nodes (rpc.go, snapshot_rpc.go)

    A call names a service and a method.  The name is taken apart at its last dot, as
    net/rpc does, and the service is looked up in the table. *)

Inductive raft_request :=
  | ReqAppendEntries (args : AppendEntriesArgs)
  | ReqRequestVote (args : RequestVoteArgs)
  | ReqInstallSnapshot (args : InstallSnapshotArgs).

Inductive raft_reply :=
  | RepAppendEntries (r : AppendEntriesReply)
  | RepRequestVote (r : RequestVoteReply)
  | RepInstallSnapshot (r : InstallSnapshotReply).

Definition method_of (req : raft_request) : string :=
  match req with
  | ReqAppendEntries _ => "AppendEntries"
  | ReqRequestVote _ => "RequestVote"
  | ReqInstallSnapshot _ => "InstallSnapshot"
  end.

(** [var reply]: what the caller has when nothing was copied to it. *)
Definition zero_reply (req : raft_request) : raft_reply :=
  match req with
  | ReqAppendEntries _ => RepAppendEntries (mkAppendEntriesReply 0 false)
  | ReqRequestVote _ => RepRequestVote (mkRequestVoteReply 0 false)
  | ReqInstallSnapshot _ => RepInstallSnapshot (mkInstallSnapshotReply 0)
  end.

(** A transport beside its pool. *)
Record transport := mkTransport { t_service : string; t_timeout : Z }.

Definition NewTransportSecure (timeout : Z) : transport := mkTransport "Raft" timeout.
Definition ForShard (s : ID) (t : transport) : transport := mkTransport ("Raft-" +:+ s) (t_timeout t).

Definition service_method (t : transport) (req : raft_request) : string := t_service t +:+ "." +:+ method_of req.

Definition call_timeout (t : transport) (req : raft_request) : Z :=
  match req with ReqInstallSnapshot _ => Transport.snapshotSendTimeout (t_timeout t) | _ => t_timeout t end.

(** The entry points of [RaftService]. *)
Definition serve_raft {SM St} `{StateMachine SM} `{Storage St} (env : Env) (req : raft_request) (s : Server SM St) :
    outcome SM St (Server SM St * raft_reply) :=
  match req with
  | ReqAppendEntries args => '(s, r) ← AppendEntries env args s; Ok (s, RepAppendEntries r)
  | ReqRequestVote args => '(s, r) ← RequestVote env args s; Ok (s, RepRequestVote r)
  | ReqInstallSnapshot args => let (s, r) := RaftSnapshot.InstallSnapshot env args s in Ok (s, RepInstallSnapshot r)
  end.

Definition dot : Ascii.ascii := byte 46.

Definition service_and_method (name : string) : option (string * string) :=
  let t := to_text name in (λ i, (of_text (take i t), of_text (drop (S i) t))) <$> last_index_of dot t.

(** The server a request reaches, or net/rpc's refusal; of the services only
    [RaftService] has the methods of a request. *)
Definition find_raft {P} (r : registry P) (name : string) (req : raft_request) : string + P :=
  match service_and_method name with
  | None => inl ("rpc: service/method request ill-formed: " +:+ name)
  | Some (svc, m) =>
      match r !! svc with
      | None => inl ("rpc: can't find service " +:+ name)
      | Some (RaftService srv) => if String.eqb m (method_of req) then inr srv else inl ("rpc: can't find method " +:+ name)
      | Some _ => inl ("rpc: can't find method " +:+ name)
      end
  end.

(** How a host answers: a refusal, a reply, or a panic of the handler, which ends
    the process. *)
Inductive answer := Refused (err : string) | Replied (r : raft_reply) | Died.

Definition host_call (env : Env) (reg : registry ID) (t : transport) (req : raft_request) (h : ShardHost) :
    ShardHost * answer :=
  match find_raft reg (service_method t req) req with
  | inl err => (h, Refused err)
  | inr s =>
      match Replica s h with
      | None => (h, Died)
      | Some r =>
          match serve_raft env req r with
          | Ok (r, reply) => (set_replicas (<[s:=r]> (h_replicas h)) h, Replied reply)
          | Panic r => (set_replicas (<[s:=r]> (h_replicas h)) h, Died)
          end
      end
  end.

(** [callWithTimeout] at the caller.  Every error of the call looks alike, a refusal
    too, and only a call that ended well has its reply copied. *)
Definition call_fate (expired : bool) (a : answer) : Transport.fate :=
  if expired then Transport.TimesOut else match a with Replied _ => Transport.Succeeds | _ => Transport.Fails end.

Definition copyReply (expired : bool) (a : answer) (req : raft_request) : raft_reply :=
  match a with Replied r => if expired then zero_reply req else r | _ => zero_reply req end.

(** *** Names *)

Lemma last_index_of_last c (a b : text) : c ∉ b → last_index_of c (a ++ c :: b) = Some (length a).
Proof.
  intros Hb. unfold last_index_of, index_of. rewrite reverse_app, reverse_cons, <- app_assoc.
  rewrite list_find_app_r.
  - simpl. rewrite decide_True by done. simpl. f_equal. rewrite length_app. simpl. rewrite length_reverse. lia.
  - apply list_find_None, Forall_forall. intros x Hx <-. apply Hb. rewrite <- (reverse_involutive b). by apply elem_of_reverse_2.
Qed.

(** A call is taken apart where it was put together, dots in the service or not. *)
Lemma service_method_split t req : service_and_method (service_method t req) = Some (t_service t, method_of req).
Proof.
  unfold service_and_method, service_method. rewrite !to_text_app. change (to_text ".") with [dot].
  change ([dot] ++ to_text (method_of req)) with (dot :: to_text (method_of req)).
  rewrite last_index_of_last.
  - cbn [fmap option_fmap option_map]. rewrite take_app_length, <- (Nat.add_1_r (length _)), drop_app_add. simpl.
    by rewrite drop_0, !of_to_text.
  - destruct req; apply (bool_decide_unpack _); vm_compute; exact I.
Qed.

(** *** The table of a host *)

(** Each hosted shard has its service, and no service points anywhere else. *)
Record routes (reg : registry ID) (h : ShardHost) : Prop := {
  ro_shard : ∀ s, is_Some (Replica s h) → reg !! ("Raft-" +:+ s) = Some (RaftService s);
  ro_name : ∀ name s, reg !! name = Some (RaftService s) → name = "Raft-" +:+ s ∧ is_Some (Replica s h);
  ro_prefix : ∀ s, is_Some (reg !! ("Raft-" +:+ s)) → is_Some (Replica s h)
}.

Lemma prefix_inj s s' : "Raft-" +:+ s = "Raft-" +:+ s' → s = s'.
Proof. by intros [=]. Qed.

Lemma routes_register reps reg byID reg' byID' script ch :
  routes reg (mkShardHost byID script ch) → register reps reg byID = Some (inr (reg', byID')) →
  routes reg' (mkShardHost byID' script ch).
Proof.
  revert reg byID. induction reps as [|[[s [rep|]]|] reps IH]; intros reg byID Hr; cbn [register]; try done; [by intros [= <- <-]|].
  case_bool_decide; [done|]. unfold RegisterName. case_bool_decide as Hn; [done|]. apply IH. destruct Hr as [R1 R2 R3].
  split; unfold Replica in *; cbn [h_replicas] in *.
  - intros s'. destruct (base.decide (s = s')) as [->|Hne]; [by rewrite !lookup_insert_eq|].
    rewrite !lookup_insert_ne by (try done; by intros ?%prefix_inj). apply R1.
  - intros name s'. rewrite lookup_insert_Some. intros [[<- [= <-]]|[_ Hl]]; [by rewrite lookup_insert_eq|].
    destruct (R2 _ _ Hl) as [-> [x Hx]]. split; [done|]. destruct (base.decide (s = s')) as [->|]; [by rewrite lookup_insert_eq|].
    rewrite lookup_insert_ne by done. by exists x.
  - intros s'. destruct (base.decide (s = s')) as [->|Hne]; [by rewrite !lookup_insert_eq|].
    rewrite !lookup_insert_ne by (try done; by intros ?%prefix_inj). apply R3.
Qed.

Lemma routes_bank client reg reg' h : routes reg h → register_bank client reg = inr reg' → routes reg' h.
Proof.
  intros [R1 R2 R3]. unfold register_bank, RegisterName. destruct client; [|by intros [= <-]]. case_bool_decide as Hb; [done|].
  intros [= <-]. split.
  - intros s Hs. rewrite lookup_insert_ne by done. by apply R1.
  - intros name s. rewrite lookup_insert_Some. intros [[_ ?]|[_ ?]]; [done|]. by apply R2.
  - intros s. rewrite lookup_insert_ne by done. apply R3.
Qed.

Lemma RegisterShards_routes reps client err reg h : RegisterShards reps client err = Some (inr (reg, h)) → routes reg h.
Proof.
  unfold RegisterShards. destruct reps as [|rep reps]; [done|].
  destruct (register _ ∅ ∅) as [[|[r byID]]|] eqn:Er; try done. destruct (register_bank client r) as [|r'] eqn:Eb; [done|].
  destruct err; [done|]. intros [= <- <-]. eapply routes_bank; [|exact Eb]. eapply routes_register; [|exact Er].
  split; [intros s [? E]|intros name s E|intros s [? E]]; unfold Replica in E; simpl in E; by rewrite lookup_empty in E.
Qed.

Lemma routes_same_shards reg h h' : (∀ s, is_Some (Replica s h) ↔ is_Some (Replica s h')) → routes reg h → routes reg h'.
Proof.
  intros E [R1 R2 R3]. split.
  - intros s Hs. apply R1. by apply E.
  - intros name s Hn. destruct (R2 _ _ Hn). split; [done|]. by apply E.
  - intros s Hs. by apply E, R3.
Qed.

(** A call of any name changes at most the shard that the name is of. *)
Lemma host_call_only env reg t req h s :
  routes reg h → t_service t ≠ "Raft-" +:+ s → Replica s (host_call env reg t req h).1 = Replica s h.
Proof.
  intros [_ R2 _] Hne. unfold host_call, find_raft. rewrite service_method_split.
  destruct (reg !! t_service t) as [[s'| |s']|] eqn:Es; try done. rewrite String.eqb_refl.
  destruct (R2 _ _ Es) as [E _]. destruct (Replica s' h) as [r|]; [|done].
  assert (s' ≠ s) as Hs by (intros ->; by apply Hne).
  unfold Replica. destruct (serve_raft env req r) as [[r' reply]|r']; simpl; by apply lookup_insert_ne.
Qed.

(** net/rpc refuses a call for a shard without a replica here. *)
Lemma host_call_unhosted env reg t req h s :
  routes reg h → Replica s h = None → ∃ err, host_call env reg (ForShard s t) req h = (h, Refused err).
Proof.
  intros [_ _ R3] Hs. unfold host_call, find_raft. rewrite service_method_split. cbn [t_service ForShard].
  destruct (reg !! _) as [x|] eqn:En; [|by eexists]. destruct (R3 s) as [y Hy]; [by rewrite En|]. by rewrite Hs in Hy.
Qed.

(** C29: A Raft call for one shard reaches that shard's server and no other.  On a host
    that [RegisterShards] has set up and that has its replicas still, whatever they
    have done since, a call through [ForShard s] runs the handler of the replica of [s]
    and answers with its reply; the other replicas stay as they are; if the host has no
    replica of [s], net/rpc refuses the call and nothing changes, and the caller is left
    with the zero reply. *)
Theorem shard_calls_isolated reps client reg h0 h env t s req :
  RegisterShards reps client None = Some (inr (reg, h0)) →
  (∀ s', is_Some (Replica s' h0) ↔ is_Some (Replica s' h)) →
  let (h', a) := host_call env reg (ForShard s t) req h in
  (∀ s', s' ≠ s → Replica s' h' = Replica s' h) ∧
  match Replica s h with
  | Some r =>
      match serve_raft env req r with
      | Ok (r', reply) => Replica s h' = Some r' ∧ a = Replied reply ∧ copyReply false a req = reply
      | Panic r' => Replica s h' = Some r' ∧ a = Died
      end
  | None => h' = h ∧ (∃ err, a = Refused err) ∧ copyReply false a req = zero_reply req
  end.
Proof.
  intros Hreg Hsame. pose proof (routes_same_shards _ _ _ Hsame (RegisterShards_routes _ _ _ _ _ Hreg)) as Hr.
  pose proof (λ s' Hne, host_call_only env reg (ForShard s t) req h s' Hr Hne) as Honly.
  destruct (host_call env reg (ForShard s t) req h) as [h' a] eqn:Ec. cbn [fst] in Honly. split.
  { intros s' Hne. apply Honly. simpl. by intros ?%prefix_inj. }
  destruct (Replica s h) as [r|] eqn:Es.
  - unfold host_call, find_raft in Ec. rewrite service_method_split in Ec. cbn [t_service ForShard] in Ec.
    rewrite (ro_shard _ _ Hr) in Ec by (by exists r). rewrite String.eqb_refl, Es in Ec.
    destruct (serve_raft env req r) as [[r' reply]|r']; injection Ec as <- <-; unfold Replica; simpl; by rewrite lookup_insert_eq.
  - destruct (host_call_unhosted env reg t req h s Hr Es) as [err E]. rewrite E in Ec. injection Ec as <- <-.
    split_and!; [done|by exists err|done].
Qed.

Definition two_replicas : list (option (ID * option replica)) :=
  [Some ("s1", Some s1_replica); Some ("s2", Some s2_replica)].

(** A request for a vote in shard s1: its replica answers, that of s2 is untouched. *)
Lemma shard_calls_isolated_witness :
  ∃ reg h, RegisterShards two_replicas true None = Some (inr (reg, h)) ∧
    let (h', a) := host_call env0 reg (ForShard "s1" (NewTransportSecure 0)) (ReqRequestVote (mkRequestVote 9 "n2" 9 9)) h in
    Replica "s2" h' = Some s2_replica ∧ ∃ reply, a = Replied reply.
Proof.
  assert (∃ reg h, RegisterShards two_replicas true None = Some (inr (reg, h)) ∧ Replica "s1" h = Some s1_replica ∧
    Replica "s2" h = Some s2_replica) as (reg & h & Hreg & H1 & H2).
  { eexists _, _. split; [reflexivity|]. by split. }
  exists reg, h. split; [exact Hreg|].
  pose proof (shard_calls_isolated two_replicas true reg h h env0 (NewTransportSecure 0) "s1"
    (ReqRequestVote (mkRequestVote 9 "n2" 9 9)) Hreg (λ s', iff_refl _)) as Hiso.
  destruct (host_call _ _ _ _ h) as [h' a]. destruct Hiso as [Hother Hs1]. rewrite H1 in Hs1.
  split; [rewrite Hother; [exact H2|discriminate]|].
  assert (match serve_raft env0 (ReqRequestVote (mkRequestVote 9 "n2" 9 9)) s1_replica with Ok _ => true | Panic _ => false end = true)
    as Hok by (vm_compute; reflexivity).
  destruct (serve_raft _ _ s1_replica) as [[r' reply]|r']; [|discriminate Hok].
  exists reply. exact (proj1 (proj2 Hs1)).
Defined.

(** A refused call costs the connection.  [callWithTimeout] takes every error of the
    call for a broken connection and closes the one that all its shards share: a peer
    that is asked for a shard it does not host cuts off the calls under way for the
    shards it does host. *)
Theorem refused_call_closes_connection reps client reg h env t s req p to c :
  RegisterShards reps client None = Some (inr (reg, h)) → Replica s h = None → Transport.p_conns p !! to = Some c →
  let a := (host_call env reg (ForShard s t) req h).2 in
  Transport.call_step (call_fate false a) (Transport.CCall to c) p = Some (p, Transport.CDrop to) ∧
  c ∈ Transport.p_closed (Transport.drop to p) ∧ Transport.p_conns (Transport.drop to p) !! to = None.
Proof.
  intros Hreg Hs Hc a. destruct (host_call_unhosted env reg t req h s (RegisterShards_routes _ _ _ _ _ Hreg) Hs) as [err E].
  unfold a. rewrite E. split; [done|]. unfold Transport.drop. rewrite Hc. simpl. split; [set_solver|by apply lookup_delete_eq].
Qed.

(** A single group answers to calls of a transport that is for no shard. *)
Lemma node_call_reaches {P} (srv : P) client reg timeout req :
  ListenSecure srv client None = inr reg → find_raft reg (service_method (NewTransportSecure timeout) req) req = inr srv.
Proof.
  intros Hl. unfold find_raft. rewrite service_method_split. cbn [t_service NewTransportSecure].
  assert (reg !! "Raft" = Some (RaftService srv)) as ->; [|by rewrite String.eqb_refl].
  unfold ListenSecure, register_bank, RegisterName in Hl. destruct client; repeat case_bool_decide; try done;
    injection Hl as <-; rewrite !lookup_insert_ne by done; apply lookup_insert_eq.
Qed.
