(* ===== verification/ShardClient.v ===== *)
(** * RPC: the client API of a sharded cluster (src/rpc/shardclient.go)

    [Submit] and [Balance] of [ShardClientService], over the hosted replicas. *)

From S2P Require Import Prelude GoLib GoFloat Hlc Ledger Ring TwoPC ShardMachine Coordinator Storage Admission.
From S2P Require Import RaftTypes RaftLog RaftServer RaftLoop RaftRead RaftNode RaftDisk ClientApi ShardNode.

Local Open Scope Z_scope.

Record ShardClientService := mkShardClientService {
  sc_host : ShardHost;
  sc_coordinator : Coordinator;
  sc_auth : string;
  sc_admit : Admitter;
  sc_addrs : gmap NodeID string
}.

Definition NewShardClientService (h : ShardHost) (c : Coordinator) (token : string)
    (addrs : gmap NodeID string) : ShardClientService :=
  mkShardClientService h c token (NewAdmitter (mkLimits 0 fzero 0)) addrs.

Definition shard_SetLimits (l : Limits) (c : ShardClientService) : ShardClientService :=
  mkShardClientService (sc_host c) (sc_coordinator c) (sc_auth c) (NewAdmitter l) (sc_addrs c).

Definition set_admitter (a : Admitter) (c : ShardClientService) : ShardClientService :=
  mkShardClientService (sc_host c) (sc_coordinator c) (sc_auth c) a (sc_addrs c).
Definition set_backend (h : ShardHost) (co : Coordinator) (c : ShardClientService) : ShardClientService :=
  mkShardClientService h co (sc_auth c) (sc_admit c) (sc_addrs c).

Definition leaderAddrFor (account : string) (c : ShardClientService) : option string :=
  r ← Replica (ShardFor (sc_coordinator c) account) (sc_host c);
  let (id, isLeader) := LeaderID r in
  if isLeader || String.eqb id "" then None else sc_addrs c !! id.

Definition routedAccount (cmd : Ledger.Command) : string :=
  if (c_Op cmd =? OpOpenAccount) || (c_Op cmd =? OpDeposit) then c_To cmd else c_From cmd.

(** The switch on the coordinator's error. *)
Definition transfer_reply (cmd : Ledger.Command) (res : Result) (err : option error) (c : ShardClientService) :
    TxReply :=
  match err with
  | None => result_reply res
  | Some e =>
      if errors_Is e Coordinator.ErrNotLeader then
        not_leader_reply (Error e) (default "" (leaderAddrFor (routedAccount cmd) c))
      else
        match e with
        | Sentinel ErrTxAborted =>
            error_reply (if String.eqb (r_Err res) "" then Error e else r_Err res)
        | _ => indeterminate_reply (Error e)
        end
  end.

(** The whole call, with the clock readings of the limiter and of the
    coordinator's hybrid clock. *)
Definition shard_Submit (now physical : Z) (args : TxArgs) (c : ShardClientService) : ShardClientService * TxReply :=
  if negb (auth_check (sc_auth c) (ta_Token args)) then (c, unauthenticated_reply ErrUnauthenticated)
  else
    let (a, r) := Admit now (ta_ClientID args) (sc_admit c) in
    let c := set_admitter a c in
    match r with
    | inl rej => (c, busy_reply rej)
    | inr _ =>
        let done c reply := (set_admitter (release (sc_admit c)) c, reply) in
        match toCommand args with
        | inl err => done c (error_reply err)
        | inr cmd =>
            if String.eqb (c_IdempotencyKey cmd) "" then
              done c (error_reply "an idempotency key is required")
            else
              let '(co, (h, (res, err))) :=
                Transfer (sc_coordinator c) physical (c_IdempotencyKey cmd) cmd (sc_host c) in
              let c := set_backend h co c in
              done c (transfer_reply cmd res err c)
        end
    end.

(** ** Balance *)

Definition no_replica_for (s account : string) : string :=
  "rpc: this node holds no replica of shard " +:+ s +:+ ", which owns account " +:+ account.

Definition shard_Balance (now : Z) (args : BalanceArgs) (c : ShardClientService) :
    ShardClientService * BalanceReply :=
  if negb (auth_check (sc_auth c) (ba_Token args))
  then (c, mkBalanceReply 0 false ErrUnauthenticated false "" false true false 0)
  else
    let (a, r) := Admit now (ba_ClientID args) (sc_admit c) in
    let c := set_admitter a c in
    match r with
    | inl rej => (c, mkBalanceReply 0 false (Reason rej) false "" false false true (RetryAfter rej))
    | inr _ =>
        let account := ba_Account args in
        let sid := ShardFor (sc_coordinator c) account in
        (set_admitter (release (sc_admit c)) c,
         match Replica sid (sc_host c) with
         | None => mkBalanceReply 0 false (no_replica_for sid account) false "" false false false 0
         | Some rep =>
             if ba_Linearizable args && bool_decide (role rep ≠ Leader) then
               mkBalanceReply 0 false RaftLoop.ErrNotLeader true (default "" (leaderAddrFor account c))
                 false false false 0
             else
               let (bal, found) := Ledger.Balance (m_State (machine_at sid (sc_host c))) account in
               mkBalanceReply bal found "" false ""
                 (negb (ba_Linearizable args) || bool_decide (role rep ≠ Leader)) false false 0
         end)
    end.

(** ** Status *)

Record ShardStatusReply := mkShardStatusReply {
  ss_ShardID : string;
  ss_Role : string;
  ss_Term : Z;
  ss_CommitIndex : Z;
  ss_LastApplied : Z;
  ss_LogLength : Z;
  ss_LeaderID : string;
  ss_InDoubt : Z;
  ss_Balances : gmap string Z
}.

Definition shard_Status (c : ShardClientService) : list ShardStatusReply :=
  omap (λ sid,
    rep ← Replica sid (sc_host c);
    let m := machine_at sid (sc_host c) in
    Some (mkShardStatusReply sid (Role_String (role rep)) (currentTerm rep) (commitIndex rep) (lastApplied rep)
            (Z.of_nat (length (log rep)) - 1) (LeaderID rep).1 (Z.of_nat (length (InDoubt m)))
            (Balances (m_State m)))) (ShardIDs (sc_host c)).

(** * RPC: what the sharded client API answers *)

From S2P Require Import AdmissionProps.
From S2P Require Import RaftCodec RaftScenarios.

(** ** Slots and refusals *)

Lemma slot_back now client a a' u :
  0 ≤ inFlight a < 2 ^ 63 - 1 → Admit now client a = (a', inr u) → inFlight (release a') = inFlight a.
Proof.
  intros Ha E. apply Admit_inFlight in E; [|done]. simpl. rewrite i64_small by (unfold in_i64; lia). lia.
Qed.

Lemma slot_kept now client a a' rej :
  0 ≤ inFlight a < 2 ^ 63 - 1 → Admit now client a = (a', inl rej) → inFlight a' = inFlight a.
Proof. intros Ha E. apply Admit_inFlight in E; [|done]. lia. Qed.

(** Every call of the sharded API gives its slot back, on every path: after
    [Submit] and after [Balance] the in-flight counter is what it was.  A
    [Submit] that is unauthenticated or shed proposes nothing: shards and
    coordinator are untouched.  [Balance] never changes a shard. *)
Theorem shard_api_slots now physical args bargs c :
  0 ≤ inFlight (sc_admit c) < 2 ^ 63 - 1 →
  let (c', reply) := shard_Submit now physical args c in
  inFlight (sc_admit c') = inFlight (sc_admit c) ∧
  (tr_Unauthenticated reply = true ∨ tr_Busy reply = true →
   sc_host c' = sc_host c ∧ sc_coordinator c' = sc_coordinator c) ∧
  inFlight (sc_admit (shard_Balance now bargs c).1) = inFlight (sc_admit c) ∧
  sc_host (shard_Balance now bargs c).1 = sc_host c.
Proof.
  intros Ha.
  assert (inFlight (sc_admit (shard_Balance now bargs c).1) = inFlight (sc_admit c) ∧
    sc_host (shard_Balance now bargs c).1 = sc_host c) as [Hb1 Hb2].
  { unfold shard_Balance. destruct (negb _); [done|].
    destruct (Admit now (ba_ClientID bargs) (sc_admit c)) as [a [rej|u]] eqn:E; simpl.
    - apply slot_kept in E; [done|done].
    - by apply slot_back in E. }
  unfold shard_Submit. destruct (negb _); [done|].
  destruct (Admit now (ta_ClientID args) (sc_admit c)) as [a [rej|u]] eqn:E.
  { apply slot_kept in E; done. }
  apply slot_back in E; [|done]. destruct (toCommand args) as [err|cmd]; [by split_and!; try intros [|]|].
  destruct (String.eqb _ ""); [by split_and!; try intros [|]|].
  destruct (Transfer _ _ _ _ _) as [co [h [res err]]]. split_and!; try done. intros Hr. exfalso. revert Hr.
  unfold transfer_reply. destruct err as [e|]; [|by intros [|]].
  destruct (errors_Is e _); [by intros [|]|]. by destruct e as [[]| |]; intros [|].
Qed.

Lemma shard_api_slots_witness :
  let c := NewShardClientService (bank_host []) two_shards "secret" ∅ in
  let r := shard_Submit 0 0 (mkTxArgs "open" "k" "" "x" 1 "guess" "") c in
  tr_Unauthenticated r.2 = true ∧ sc_host r.1 = bank_host [].
Proof.
  intros c. pose proof (shard_api_slots 0 0 (mkTxArgs "open" "k" "" "x" 1 "guess" "")
    (mkBalanceArgs "x" "" "" false) c) as H.
  destruct (shard_Submit 0 0 (mkTxArgs "open" "k" "" "x" 1 "guess" "") c) as [c' reply] eqn:E. intros r.
  assert (tr_Unauthenticated reply = true) as Hu by (unfold shard_Submit in E; simpl in E; injection E as <- <-; reflexivity).
  split; [exact Hu|]. destruct H as (_ & H & _); [split; [done|simpl; lia]|]. by destruct (H (or_introl Hu)).
Defined.

(** ** Redirects *)

(** The node leads shard s1, which owns alice; n2 leads shard s2, which owns bob. *)
Definition split_leaders : ShardHost :=
  mkShardHost {["s1" := s1_replica;
    "s2" := step_all [OpAppendEntries env0 (mkAppendEntries 1 "n2" 0 0 [] 0)] (shard_server "s2" "n1" three)]} [] 0.

Definition node_addrs : gmap NodeID string := {["n1" := "h1:1"; "n2" := "h2:1"; "n3" := "h3:1"]}.

Definition transfer_args : TxArgs := mkTxArgs "transfer" "k" "alice" "bob" 30 "" "".

Definition redirected : ShardClientService * TxReply :=
  shard_Submit 0 5 transfer_args (NewShardClientService split_leaders two_shards "" node_addrs).

Definition retried : TxReply := (shard_Submit 0 6 transfer_args redirected.1).2.

(** A transfer between shards led by different nodes is redirected nowhere.
    The node leads the debit shard and not the credit shard.  The reply is a
    redirect without an address (the address is looked up for the debit account,
    whose leader is this node), and it is not "nothing was proposed": the debit
    side has been prepared and aborted, so the key is spent, and the same
    request sent again is refused as aborted for good. *)
Theorem split_leaders_redirect :
  tr_NotLeader redirected.2 = true ∧ tr_LeaderAddr redirected.2 = "" ∧ tr_Indeterminate redirected.2 = false ∧
  (tx_Phase <$> Tx (machine_at "s1" (sc_host redirected.1)) "k") = Some PhaseAborted ∧
  tr_OK retried = false ∧ tr_NotLeader retried = false ∧ tr_Indeterminate retried = false.
Proof. split_and!; vm_compute; reflexivity. Qed.

(** While the debit side's prepare waits, another leader of the shard s2 is heard
    from; the entry stays in the log and may be committed by it. *)
Definition deposed : wait :=
  mkWait [("s2", OpAppendEntries (mkEnv 1000000000 0) (mkAppendEntries 2 "n2" 2 1 [] 2))] true.

Definition refund_args : TxArgs := mkTxArgs "transfer" "k2" "bob" "alice" 3 "" "".

Definition misreported : ShardClientService * TxReply :=
  shard_Submit 0 5 refund_args (NewShardClientService (bank_host [deposed]) two_shards "" node_addrs).

(** A redirect can hide a proposal.  The debit shard's leadership is lost
    while its prepare is waiting: [Propose] reports an error together with
    "not leader", the coordinator looks at the second first, and the client is
    told to go elsewhere with [Indeterminate] unset.  The prepare is still in the
    replica's log, where the new leader can commit it. *)
Theorem redirect_hides_proposal :
  tr_NotLeader misreported.2 = true ∧ tr_Indeterminate misreported.2 = false ∧
  (r ← Replica "s2" (sc_host misreported.1); e ← log r !! 3%nat; data ← e_Command e;
   match DecodeCommand data with inr cmd => Some (sc_Op cmd, sc_TxID cmd, e_Index e) | inl _ => None end)
  = Some (OpPrepare, "k2", 3).
Proof. split_and!; vm_compute; reflexivity. Qed.

(** ** Linearizable balances *)

Definition deposit_entry : Command :=
  mkCommand OpSingle "" (Ledger.mkCommand OpDeposit "d" "" "bob" 10 (mkTimestamp 2 0)) false false [] "".

(** n1 leads and opens bob's account; it is cut off, n2 is elected by n3 and
    commits a deposit. *)
Definition partitioned : option (gmap NodeID replica) :=
  ns ← campaign 0 "n1" ["n2"] (list_to_map ((λ p, (p, shard_server "s2" p three)) <$> three));
  ns ← replicate_all 0 "n1" ["n2"; "n3"] ns;
  '(ns, _) ← run_at "n1" (Submit (Some (TwoPC.Encode (open_entry "o2" "bob" 5)))) ns;
  ns ← replicate_all 0 "n1" ["n2"; "n3"] ns;
  ns ← campaign 1000000000 "n2" ["n3"] ns;
  '(ns, _) ← run_at "n2" (Submit (Some (TwoPC.Encode deposit_entry))) ns;
  replicate_all 1000000000 "n2" ["n3"] ns.

(** What node [me] answers to a linearizable read of bob's balance. *)
Definition ask (me : NodeID) : option (Z * bool * bool * bool) :=
  ns ← partitioned; r ← ns !! me;
  let c := NewShardClientService (mkShardHost {["s2" := r]} [] 0) two_shards "" node_addrs in
  let reply := (shard_Balance 0 (mkBalanceArgs "bob" "" "" true) c).2 in
  Some (br_Balance reply, br_Found reply, br_Stale reply, br_NotLeader reply).

(** A linearizable balance can be stale.  The sharded [Balance] only checks
    that the local replica believes it leads; it never confirms that with a
    majority.  A leader that has been cut off and replaced answers a
    linearizable read with the old balance, marked as not stale, while the new
    leader has committed and applied a deposit. *)
Theorem linearizable_balance_stale :
  ask "n1" = Some (5, true, false, false) ∧ ask "n2" = Some (15, true, false, false).
Proof. split; vm_compute; reflexivity. Qed.
