(* ===== verification/Startup.v ===== *)
(** * Starting a node (src/node/main.go, src/cmd/shardnode/main.go, src/cmd/demo/main.go, src/obs/logging.go)

    From the values of the flags to a serving process: the checks in order, the
    replicas with their storage, the coordinator, the client service.  What the
    files hold when they are opened, and whether the operating system refuses a
    directory or the listener, is an input.  Parsing the command line, log lines
    and waiting for the signal are not modelled. *)

From S2P Require Import Prelude GoLib GoFloat GoStrings GoRunes GoTime Hlc Ledger LedgerCodec Ring Storage TwoPC ShardMachine Coordinator.
From S2P Require Import RaftTypes RaftLog RaftCodec RaftServer RaftLoop RaftSnapshot RaftNode RaftDisk.
From S2P Require Import Peers Security Admission ClientApi ShardNode ShardClient.

Local Open Scope Z_scope.

(** ** How a start ends early

    [flag.Usage] and exit status 2, [log.Fatalf] with status 1, or a panic. *)
Inductive exit :=
  | Usage
  | Fatal (msg : string)
  | Crash.

Definition exit_code (e : exit) : Z := match e with Usage => 2 | Fatal _ => 1 | Crash => 2 end.

(** The texts of the errors of the two flag parsers. *)
Definition parse_error_text (e : parse_error) : string :=
  match e with
  | NotOneEquals part => "bad peer " +:+ Quote part +:+ ": want exactly one '=', as id=host:port"
  | EmptyID part => "bad peer " +:+ Quote part +:+ ": empty node id"
  | EmptyAddress part => "bad peer " +:+ Quote part +:+ ": empty address"
  | DuplicateID id => "duplicate node id " +:+ Quote id +:+ ": quorum size would be wrong, and the missing node can later overwrite committed entries"
  | BadAddress addr id why =>
      "bad address " +:+ Quote addr +:+ " for node " +:+ Quote id +:+ ": address " +:+ addr +:+ ": " +:+ why +:+ " (want host:port)"
  | NoPeers => "no peers given"
  | DuplicateShard id => "duplicate shard " +:+ Quote id +:+ " in assignment"
  | NoShards => "no shards given"
  end.

(** ** The logger's flags (src/obs/logging.go) *)

Inductive LogFormat := LogText | LogJSON.
Inductive Level := LevelDebug | LevelInfo | LevelWarn | LevelError.

Definition ParseLogFormat (s : string) : LogFormat := if EqualFold s "json" then LogJSON else LogText.

Definition ParseLogLevel (s : string) : Level :=
  let t := of_text (TrimSpace (to_text s)) in
  if ToLower_is t "debug" then LevelDebug
  else if ToLower_is t "warn" || ToLower_is t "warning" then LevelWarn
  else if ToLower_is t "error" then LevelError
  else LevelInfo.

Example log_flags :
  ParseLogFormat <$> ["JSON"; "jſon"; "json "; ""] = [LogJSON; LogJSON; LogText; LogText] ∧
  ParseLogLevel <$> [" DEBUG "; "Warning"; "warnİng"; "error"; "verbose"; ""] =
    [LevelDebug; LevelWarn; LevelWarn; LevelError; LevelInfo; LevelInfo].
Proof. vm_compute. split; reflexivity. Qed.

(** ** The checks both nodes make *)

Record timing := mkTiming {
  rpcTimeout : Z;
  electionMin : Z;
  electionMax : Z;
  heartbeat : Z
}.

(** [why] is what the node's message adds for the first check. *)
Definition check_timing (prog why : string) (t : timing) : option exit :=
  if electionMin t <=? rpcTimeout t then
    Some (Fatal (prog +:+ ": -rpc-timeout (" +:+ Duration_String (rpcTimeout t) +:+ ") must be well below -election-min ("
                   +:+ Duration_String (electionMin t) +:+ ")" +:+ why))
  else if electionMax t <=? electionMin t then
    Some (Fatal (prog +:+ ": -election-min (" +:+ Duration_String (electionMin t) +:+ ") must be below -election-max ("
                   +:+ Duration_String (electionMax t) +:+ ")"))
  else if electionMin t <=? heartbeat t then
    Some (Fatal (prog +:+ ": -heartbeat (" +:+ Duration_String (heartbeat t) +:+ ") must be well below -election-min ("
                   +:+ Duration_String (electionMin t) +:+ ")"))
  else None.

Definition check_peers (prog id peerList : string) (allowSolo : bool) : exit + (gmap NodeID string * list NodeID) :=
  match ParsePeers peerList with
  | inl err => inl (Fatal (prog +:+ ": " +:+ parse_error_text err))
  | inr (addrs, ids) =>
      if bool_decide (addrs !! id = None) then inl (Fatal (prog +:+ ": -id " +:+ Quote id +:+ " is not in -peers"))
      else if (Z.of_nat (length ids) <? 3) && negb allowSolo then
        inl (Fatal (prog +:+ ": " +:+ fmt_d (Z.of_nat (length ids))
              +:+ " peer(s) configured; a cluster needs at least 3 to tolerate a single failure. Pass -allow-single-node to override for local testing."))
      else inr (addrs, ids)
  end.

(** A seed of 0 is replaced by one derived from the id. *)
Definition derive_seed (seed : Z) (id : string) : Z :=
  if seed =? 0 then foldl (λ s ch, i64 (s * 31 + ch)) 0 (runes id) else seed.

Definition raft_config (t : timing) : Config :=
  mkConfig (Milliseconds (electionMin t)) (Milliseconds (electionMax t)) (Milliseconds (heartbeat t)).

Definition nonempty (s : string) : bool := negb (String.eqb s "").

(** The observability endpoints, if -obs-listen names an address for them. *)
Definition listen_obs (program addr : string) (obs_err : option string) : option exit :=
  if nonempty addr then (λ err, Fatal (program +:+ ": observability listen: " +:+ err)) <$> obs_err else None.

(** ** node *)

Record node_flags := mkNodeFlags {
  nf_id : string;
  nf_listen : string;
  nf_peers : string;
  nf_data : string;
  nf_seed : Z;
  nf_timing : timing;
  nf_solo : bool;
  nf_limits : Limits;
  nf_obs : string
}.

Definition check_node (f : node_flags) : exit + (gmap NodeID string * list NodeID) :=
  if negb (nonempty (nf_id f) && nonempty (nf_listen f) && nonempty (nf_peers f)) then inl Usage
  else
    match check_peers "node" (nf_id f) (nf_peers f) (nf_solo f) with
    | inl e => inl e
    | inr r =>
        match check_timing "node" "; otherwise a single slow RPC triggers spurious elections" (nf_timing f) with
        | Some e => inl e
        | None => inr r
        end
    end.

(** The files of the node, opened: an error, or what they hold. *)
Definition boot_node (open_files : string → string → string + disk) (listen_err obs_err : option string) (env : Env) (f : node_flags) :
    exit + ClientService (St := disk) :=
  match check_node f with
  | inl e => inl e
  | inr (addrs, ids) =>
      let walPath := Join (nf_data f) (nf_id f +:+ ".wal") in
      let appliedPath := Join (nf_data f) (nf_id f +:+ ".applied") in
      match open_files walPath appliedPath with
      | inl err => inl (Fatal ("node: open applied index: " +:+ err))
      | inr d =>
          let srv := SetStorage d (NewServerWith (nf_id f) ids (Some (LedgerCodec.NewMachine Ledger.New)) SnapshotCapable
                                     (raft_config (nf_timing f))) in
          match Restore srv with
          | Panic _ => inl Crash
          | Ok (inl err) => inl (Fatal ("node: restore: " +:+ err))
          | Ok (inr srv) =>
              match listen_err with
              | Some err => inl (Fatal ("node: listen: " +:+ err))
              | None =>
                  let client := SetLimits (nf_limits f) (NewClientServiceAuth (RaftLoop.Start env srv) addrs "") in
                  match listen_obs "node" (nf_obs f) obs_err with Some e => inl e | None => inr client end
              end
          end
      end
  end.

(** ** shardnode *)

Record shard_flags := mkShardFlags {
  sf_id : string;
  sf_listen : string;
  sf_peers : string;
  sf_shards : string;
  sf_hosts : string;
  sf_data : string;
  sf_seed : Z;
  sf_timing : timing;
  sf_solo : bool;
  sf_tls : TLSConfig;
  sf_token : string;
  sf_limits : Limits;
  sf_obs : string
}.

(** What the checks leave: the peers, every shard, and those hosted here. *)
Record plan := mkPlan {
  pl_addrs : gmap NodeID string;
  pl_ids : list NodeID;
  pl_shards : list ID;
  pl_hosted : list ID
}.

Definition check_shards (shardList hostList : string) : exit + list ID * list ID :=
  match ParseShardAssignment shardList with
  | inl err => inl (Fatal ("shardnode: -shards: " +:+ parse_error_text err))
  | inr allShards =>
      match (if nonempty hostList then ParseShardAssignment hostList else inr allShards) with
      | inl err => inl (Fatal ("shardnode: -hosts: " +:+ parse_error_text err))
      | inr hosted =>
          match filter (.∉ allShards) hosted with
          | s :: _ => inl (Fatal ("shardnode: -hosts names " +:+ Quote s +:+ ", which is not in -shards"))
          | [] => inr (allShards, hosted)
          end
      end
  end.

Definition check_shardnode (net : Net) (f : shard_flags) : exit + plan :=
  if negb (nonempty (sf_id f) && nonempty (sf_listen f) && nonempty (sf_peers f) && nonempty (sf_shards f)) then inl Usage
  else
    match check_peers "shardnode" (sf_id f) (sf_peers f) (sf_solo f) with
    | inl e => inl e
    | inr (addrs, ids) =>
        match check_timing "shardnode" "" (sf_timing f) with
        | Some e => inl e
        | None =>
            match check_shards (sf_shards f) (sf_hosts f) with
            | inl e => inl e
            | inr (allShards, hosted) =>
                match Validate net (sf_tls f) with
                | Some err => inl (Fatal ("shardnode: " +:+ err))
                | None => inr (mkPlan addrs ids allShards hosted)
                end
            end
        end
    end.

(** The files of a hosted shard, and the seed of its election timers. *)
Definition replica_base (f : shard_flags) (sid : ID) : string := Join (sf_data f) (sf_id f +:+ "-" +:+ sid).

Definition replica_seed (f : shard_flags) (i : nat) : Z := i64 (derive_seed (sf_seed f) (sf_id f) + i64 (Z.of_nat i * 7919)).

Definition new_server (f : shard_flags) (ids : list NodeID) (sid : ID) (d : disk) : replica :=
  SetStorage d (NewServerWith (sf_id f) ids (Some (ShardMachine.NewMachine sid Ledger.New)) SnapshotCapable (raft_config (sf_timing f))).

(** The loop over the hosted shards; [open_files] gives what the files of a base
    name hold, or why they cannot be opened. *)
Fixpoint build_replicas (open_files : string → string + disk) (f : shard_flags) (ids : list NodeID) (hosted : list ID)
    (acc : list (ID * replica)) : exit + list (ID * replica) :=
  match hosted with
  | [] => inr acc
  | sid :: hosted =>
      match open_files (replica_base f sid) with
      | inl err => inl (Fatal ("shardnode: open applied index for " +:+ sid +:+ ": " +:+ err))
      | inr d =>
          match Restore (new_server f ids sid d) with
          | Panic _ => inl Crash
          | Ok (inl err) => inl (Fatal ("shardnode: restore " +:+ sid +:+ ": " +:+ err))
          | Ok (inr srv) => build_replicas open_files f ids hosted (acc ++ [(sid, srv)])
          end
      end
  end.

(** A serving process: its client service, which holds the host and the
    coordinator. *)
Definition boot_shardnode `{SortSlice} (net : Net) (mkdir_err : option string) (open_files : string → string + disk)
    (listen_err obs_err : option string) (env : Env) (f : shard_flags) : exit + ShardClientService :=
  match check_shardnode net f with
  | inl e => inl e
  | inr p =>
      match mkdir_err with
      | Some err => inl (Fatal ("shardnode: create data dir: " +:+ err))
      | None =>
          match build_replicas open_files f (pl_ids p) (pl_hosted p) [] with
          | inl e => inl e
          | inr replicas =>
              let coord := NewCoordinator (NewRing (pl_shards p) (Z.of_nat DefaultVNodes)) (list_to_set replicas.*1) in
              match RegisterShards ((λ x, Some (x.1, Some x.2)) <$> replicas) true listen_err with
              | None => inl Crash
              | Some (inl err) => inl (Fatal ("shardnode: listen: " +:+ err))
              | Some (inr (_, host)) =>
                  let client :=
                    shard_SetLimits (sf_limits f) (NewShardClientService (host_Start env host) coord (sf_token f) (pl_addrs p)) in
                  match listen_obs "shardnode" (sf_obs f) obs_err with Some e => inl e | None => inr client end
              end
          end
      end
  end.

(** ** demo: the check of the replication factor *)

Definition check_demo (replicas nodes : Z) : option exit :=
  if nodes <? replicas then
    Some (Fatal ("demo: replication factor " +:+ fmt_d replicas +:+ " exceeds " +:+ fmt_d nodes
                   +:+ " machines; a shard cannot have more replicas than there are machines to hold them"))
  else None.

(** ** The checks *)

Lemma shard_loop_ok parts out l :
  NoDup out → shard_loop parts out = inr l → NoDup l.
Proof.
  revert out. induction parts as [|t parts IH]; intros out Hout; simpl; [by intros [= <-]|].
  destruct (TrimSpace t) as [|c t']; [by apply IH|]. case_bool_decide as Hin; [done|]. apply IH.
  apply NoDup_app. split; [done|]. split; [|apply NoDup_singleton]. intros x Hx ->%list_elem_of_singleton. done.
Qed.

Lemma ParseShardAssignment_ok s l : ParseShardAssignment s = inr l → NoDup l ∧ l ≠ [].
Proof.
  unfold ParseShardAssignment. destruct (shard_loop _ _) as [|out] eqn:E; [done|].
  apply shard_loop_ok in E; [|apply NoDup_nil_2]. by destruct out; [|intros [= <-]].
Qed.

Lemma check_timing_None prog why t :
  check_timing prog why t = None ↔
  rpcTimeout t < electionMin t ∧ electionMin t < electionMax t ∧ heartbeat t < electionMin t.
Proof.
  unfold check_timing. destruct (Z.leb_spec (electionMin t) (rpcTimeout t)); [split; [done|lia]|].
  destruct (Z.leb_spec (electionMax t) (electionMin t)); [split; [done|lia]|].
  destruct (Z.leb_spec (electionMin t) (heartbeat t)); [split; [done|lia]|]. split; [lia|done].
Qed.

Lemma check_peers_inr prog id s solo addrs ids :
  check_peers prog id s solo = inr (addrs, ids) ↔
  ParsePeers s = inr (addrs, ids) ∧ is_Some (addrs !! id) ∧ ((3 ≤ length ids)%nat ∨ solo = true).
Proof.
  unfold check_peers. destruct (ParsePeers s) as [|[a l]]; [by split; [|intros [? _]]|].
  case_bool_decide as Hid.
  { split; [done|]. intros ([= -> ->] & [? E] & _). congruence. }
  assert (is_Some (a !! id)) as Hs by (destruct (a !! id); [eauto|done]).
  destruct ((Z.of_nat (length l) <? 3) && negb solo) eqn:E.
  - apply andb_true_iff in E as [?%Z.ltb_lt ?%negb_true_iff]. split; [done|]. intros ([= -> ->] & _ & [?|?]); [lia|congruence].
  - split; [|by intros ([= -> ->] & _)]. intros [= -> ->]. split; [done|]. split; [done|].
    apply andb_false_iff in E as [?%Z.ltb_ge|?%negb_false_iff]; [left; lia|by right].
Qed.

Lemma check_shards_inr shards hosts l h :
  check_shards shards hosts = inr (l, h) ↔
  ParseShardAssignment shards = inr l ∧ (if nonempty hosts then ParseShardAssignment hosts = inr h else h = l) ∧ h ⊆ l.
Proof.
  unfold check_shards. destruct (ParseShardAssignment shards) as [|l']; [by split; [|intros [? _]]|].
  set (r := if nonempty hosts then _ else _).
  destruct r as [|h'] eqn:Er.
  { split; [done|]. intros (_ & Hh & _). unfold r in Er. destruct (nonempty hosts); [congruence|done]. }
  destruct (filter (.∉ l') h') as [|x xs] eqn:Ef.
  - assert (h' ⊆ l') as Hsub.
    { intros y Hy. destruct (base.decide (y ∈ l')) as [|Hn]; [done|]. exfalso.
      assert (y ∈ filter (.∉ l') h') as Hin by by apply list_elem_of_filter. rewrite Ef in Hin. by apply elem_of_nil in Hin. }
    split.
    + intros [= -> ->]. split; [done|]. split; [|done]. unfold r in Er. destruct (nonempty hosts); [done|by injection Er].
    + intros ([= ->] & Hh & _). unfold r in Er. destruct (nonempty hosts); simplify_eq; [|done]. rewrite Hh in Er. by injection Er as ->.
  - split; [done|]. intros ([= ->] & Hh & Hsub). exfalso.
    assert (x ∈ filter (.∉ l) h') as [Hx Hxh]%list_elem_of_filter by (rewrite Ef; by left).
    apply Hx, Hsub. unfold r in Er. destruct (nonempty hosts); [rewrite Hh in Er|subst h]; by injection Er as ->.
Qed.

(** What [shardnode] accepts: the four flags are given, the peers parse and include
    this node, there are three of them or the override is given, the timeouts are
    ordered, both shard lists parse, every hosted shard is one of the cluster's, and
    TLS is configured entirely or not at all. *)
Lemma check_shardnode_inr net f p :
  check_shardnode net f = inr p ↔
  (sf_id f ≠ "" ∧ sf_listen f ≠ "" ∧ sf_peers f ≠ "" ∧ sf_shards f ≠ "") ∧
  (ParsePeers (sf_peers f) = inr (pl_addrs p, pl_ids p) ∧ is_Some (pl_addrs p !! sf_id f) ∧
    ((3 ≤ length (pl_ids p))%nat ∨ sf_solo f = true)) ∧
  (rpcTimeout (sf_timing f) < electionMin (sf_timing f) ∧ electionMin (sf_timing f) < electionMax (sf_timing f) ∧
    heartbeat (sf_timing f) < electionMin (sf_timing f)) ∧
  (ParseShardAssignment (sf_shards f) = inr (pl_shards p) ∧
    (if nonempty (sf_hosts f) then ParseShardAssignment (sf_hosts f) = inr (pl_hosted p) else pl_hosted p = pl_shards p) ∧
    pl_hosted p ⊆ pl_shards p) ∧
  Validate net (sf_tls f) = None.
Proof.
  rewrite <- (check_peers_inr "shardnode"), <- (check_timing_None "shardnode" ""), <- check_shards_inr.
  assert (∀ s, nonempty s = true ↔ s ≠ "") as Hne by (intros s; unfold nonempty; rewrite negb_true_iff; apply String.eqb_neq).
  unfold check_shardnode. destruct (_ && nonempty (sf_shards f)) eqn:E; cbn [negb].
  2: { split; [done|]. intros [(?%Hne & ?%Hne & ?%Hne & ?%Hne) _].
       destruct (nonempty (sf_id f)), (nonempty (sf_listen f)), (nonempty (sf_peers f)), (nonempty (sf_shards f)); done. }
  rewrite !andb_true_iff, !Hne in E. destruct E as [[[? ?] ?] ?].
  destruct (check_peers _ _ _ _) as [|[addrs ids]]; [split; [done|by intros (_ & ? & _)]|].
  destruct (check_timing _ _ _); [split; [done|by intros (_ & _ & ? & _)]|].
  destruct (check_shards _ _) as [|[l h]]; [split; [done|by intros (_ & _ & _ & ? & _)]|].
  destruct (Validate _ _); [split; [done|by intros (_ & _ & _ & _ & ?)]|]. destruct p. simpl.
  split; [by intros [= -> -> -> ->]|by intros (_ & [= -> ->] & _ & [= -> ->] & _)].
Qed.

(** ** The process *)

(** A hosted replica comes out of its own files. *)
Definition recovered (open_files : string → string + disk) (f : shard_flags) (ids : list NodeID) (sid : ID) (r : replica) : Prop :=
  ∃ d, open_files (replica_base f sid) = inr d ∧ Restore (new_server f ids sid d) = Ok (inr r).

Lemma build_replicas_inr open_files f ids hosted acc l :
  build_replicas open_files f ids hosted acc = inr l ↔
  ∃ rs, l = acc ++ rs ∧ Forall2 (λ sid x, x.1 = sid ∧ recovered open_files f ids sid x.2) hosted rs.
Proof.
  revert acc. induction hosted as [|sid hosted IH]; intros acc; cbn [build_replicas].
  { split; [intros [= <-]; exists []; by rewrite app_nil_r|]. intros (rs & -> & Hr). inversion Hr. by rewrite app_nil_r. }
  destruct (open_files _) as [|d] eqn:Ed.
  { split; [done|]. intros (rs & _ & Hr). inversion Hr as [|? ? ? ? (_ & d & E & _)]. congruence. }
  destruct (Restore _) as [[|srv]|] eqn:Er.
  - split; [done|]. intros (rs & _ & Hr). inversion Hr as [|? ? ? ? (_ & d' & E & E')]. congruence.
  - rewrite IH. split.
    + intros (rs & -> & Hr). exists ((sid, srv) :: rs). rewrite <- app_assoc. split; [done|].
      constructor; [|done]. split; [done|]. by exists d.
    + intros (rs & -> & Hr). inversion Hr as [|? x ? rs' (Hs & d' & E & E') Hr']; subst. destruct x as [sid r].
      exists rs'. rewrite <- app_assoc. split; [|done]. simpl in *. congruence.
  - split; [done|]. intros (rs & _ & Hr). inversion Hr as [|? ? ? ? (_ & d' & E & E')]. congruence.
Qed.

Lemma Forall2_keys (P : ID → ID * replica → Prop) hosted rs :
  Forall2 (λ sid x, x.1 = sid ∧ P sid x) hosted rs → rs.*1 = hosted.
Proof. induction 1 as [|sid [x r] hosted rs [<- _] _ IH]; [done|]. rewrite fmap_cons. by rewrite IH. Qed.

(** The names that are taken are those of the shards so far. *)
Definition only_shards (reg : registry ID) (m : gmap ID replica) : Prop :=
  ∀ name, is_Some (reg !! name) → ∃ s, name = "Raft-" +:+ s ∧ is_Some (m !! s).

Lemma register_distinct (l : list (ID * replica)) reg m :
  NoDup l.*1 → only_shards reg m → (∀ k, k ∈ l.*1 → m !! k = None) →
  ∃ reg' b, register ((λ x, Some (x.1, Some x.2)) <$> l) reg m = Some (inr (reg', b)) ∧ only_shards reg' b ∧
    ∀ k r, b !! k = Some r ↔ (k, r) ∈ l ∨ m !! k = Some r.
Proof.
  revert reg m. induction l as [|[k r] l IH]; intros reg m; rewrite ?fmap_cons; cbn [register fst snd].
  { intros _ Ho _. exists reg, m. split_and!; [done..|]. intros k r. split; [by right|by intros [?%elem_of_nil|?]]. }
  intros [Hk Hnd]%NoDup_cons Ho Hfresh. assert (m !! k = None) as Hm0 by (apply Hfresh; by left).
  rewrite bool_decide_eq_false_2 by (rewrite Hm0; by intros [??]).
  unfold RegisterName. rewrite bool_decide_eq_false_2.
  2: { intros (s & E%ShardNode.prefix_inj & Hs)%Ho. subst s. rewrite Hm0 in Hs. by destruct Hs. }
  destruct (IH (<["Raft-" +:+ k:=RaftService k]> reg) (<[k:=r]> m)) as (reg' & b & -> & Ho' & Hb); [done| | |].
  { intros name Hn. destruct (base.decide (name = "Raft-" +:+ k)) as [->|Hne]; [exists k; by rewrite lookup_insert_eq|].
    rewrite lookup_insert_ne in Hn by done. destruct (Ho name Hn) as (s & -> & Hs). exists s. split; [done|].
    rewrite lookup_insert_ne by (intros ->; done). done. }
  { intros k' Hk'. rewrite lookup_insert_ne by (intros ->; done). apply Hfresh. by right. }
  exists reg', b. split_and!; [done..|]. intros k' r'. rewrite Hb, lookup_insert_Some, elem_of_cons. split.
  - intros [?|[[-> ->]|[_ ?]]]; [by left; right|by left; left|by right].
  - intros [[[= -> ->]|?]|Hm]; [right; by left|by left|right; right]. split; [|done]. intros ->.
    rewrite Hfresh in Hm by by left. done.
Qed.

Lemma hosted_shards net f p : check_shardnode net f = inr p → NoDup (pl_hosted p) ∧ pl_hosted p ≠ [] ∧ pl_shards p ≠ [].
Proof.
  intros (_ & _ & _ & (Hs & Hh & _) & _)%check_shardnode_inr. apply ParseShardAssignment_ok in Hs as [? ?].
  destruct (nonempty _); [by apply ParseShardAssignment_ok in Hh as [? ?]|by rewrite Hh].
Qed.

Lemma listen_obs_none program addr obs_err : listen_obs program addr obs_err = None ↔ addr = "" ∨ obs_err = None.
Proof.
  unfold listen_obs, nonempty. destruct (String.eqb_spec addr "") as [->|Hne]; simpl; [split; auto|].
  destruct obs_err; simpl; split; [done|by intros [?|?]|auto|done].
Qed.

Section Boot.
Context `{SortSlice} (net : Net) (open_files : string → string + disk) (obs_err : option string).
Context (env : Env) (f : shard_flags) (p : plan).
Hypothesis Hcheck : check_shardnode net f = inr p.

(** The process that the replicas make. *)
Lemma boot_replicas rs :
  listen_obs "shardnode" (sf_obs f) obs_err = None →
  Forall2 (λ sid x, x.1 = sid ∧ recovered open_files f (pl_ids p) sid x.2) (pl_hosted p) rs →
  ∃ c, boot_shardnode net None open_files None obs_err env f = inr c ∧
    sc_coordinator c = NewCoordinator (NewRing (pl_shards p) (Z.of_nat DefaultVNodes)) (list_to_set (pl_hosted p)) ∧
    sc_auth c = sf_token f ∧ sc_admit c = NewAdmitter (sf_limits f) ∧ sc_addrs c = pl_addrs p ∧
    ∀ sid r, Replica sid (sc_host c) = Some r ↔ ∃ r0, (sid, r0) ∈ rs ∧ r = RaftLoop.Start env r0.
Proof.
  intros Hobs Hrs. pose proof (Forall2_keys _ _ _ Hrs) as Hkeys. destruct (hosted_shards _ _ _ Hcheck) as (Hnd & Hne & _).
  unfold boot_shardnode. rewrite Hcheck, Hobs.
  rewrite (proj2 (build_replicas_inr open_files f (pl_ids p) (pl_hosted p) [] rs)) by (exists rs; by split).
  destruct (register_distinct rs ∅ ∅) as (reg & b & Hb & Ho & Hlook); [by rewrite Hkeys| |by intros; apply lookup_empty|].
  { intros name [? E]. by rewrite lookup_empty in E. }
  unfold RegisterShards. destruct rs as [|x rs]; [by inversion Hrs; congruence|].
  rewrite Hkeys. rewrite fmap_cons. rewrite fmap_cons in Hb. rewrite Hb.
  unfold register_bank, RegisterName. rewrite bool_decide_eq_false_2 by (by intros (s & E & _)%Ho).
  eexists. split; [reflexivity|]. split_and!; [done..|].
  intros sid r. unfold Replica, host_Start, set_replicas. simpl. rewrite lookup_fmap, fmap_Some. setoid_rewrite Hlook.
  split; intros (r0 & Hr0 & ->); exists r0; (split; [|done]); [by destruct Hr0|by left].
Qed.

Lemma recovered_all :
  (∀ sid, sid ∈ pl_hosted p → ∃ r, recovered open_files f (pl_ids p) sid r) →
  ∃ rs, Forall2 (λ sid x, x.1 = sid ∧ recovered open_files f (pl_ids p) sid x.2) (pl_hosted p) rs.
Proof.
  induction (pl_hosted p) as [|sid l IH]; intros Hall; [by exists []|].
  destruct (Hall sid) as [r Hr]; [by left|]. destruct IH as [rs Hrs]; [intros; apply Hall; by right|].
  exists ((sid, r) :: rs). by constructor.
Qed.

Lemma boot_built c :
  boot_shardnode net None open_files None obs_err env f = inr c →
  listen_obs "shardnode" (sf_obs f) obs_err = None ∧
  ∃ rs, Forall2 (λ sid x, x.1 = sid ∧ recovered open_files f (pl_ids p) sid x.2) (pl_hosted p) rs.
Proof.
  unfold boot_shardnode. rewrite Hcheck. destruct (build_replicas _ _ _ _ _) as [|l] eqn:E; [done|]. intros Hb. split.
  - destruct (RegisterShards _ _ _) as [[|[? ?]]|]; [done| |done]. by destruct (listen_obs _ _ _).
  - apply build_replicas_inr in E as (rs & _ & Hrs). by exists rs.
Qed.

Lemma Forall2_elem (P : ID → ID * replica → Prop) hosted rs sid r :
  Forall2 (λ sid x, x.1 = sid ∧ P sid x) hosted rs → (sid, r) ∈ rs → sid ∈ hosted ∧ P sid (sid, r).
Proof.
  induction 1 as [|? [x r'] hosted rs [<- HP] _ IH]; [by intros ?%elem_of_nil|].
  intros [[= <- <-]|Hin]%elem_of_cons; [split; [by left|done]|]. destruct (IH Hin). split; [by right|done].
Qed.

Lemma Forall2_elem_r (P : ID → ID * replica → Prop) hosted rs sid :
  Forall2 (λ sid x, x.1 = sid ∧ P sid x) hosted rs → sid ∈ hosted → ∃ r, (sid, r) ∈ rs ∧ P sid (sid, r).
Proof.
  induction 1 as [|? [x r'] hosted rs [<- HP] _ IH]; [by intros ?%elem_of_nil|].
  intros [->|Hin]%elem_of_cons; [exists r'; split; [by left|done]|]. destruct (IH Hin) as (r & ? & ?). exists r. split; [by right|done].
Qed.

Lemma recovered_fun sid r r' : recovered open_files f (pl_ids p) sid r → recovered open_files f (pl_ids p) sid r' → r = r'.
Proof. intros (d & E & E') (d2 & E2 & E2'). congruence. Qed.

Lemma recovered_follower sid r : recovered open_files f (pl_ids p) sid r → id r = sf_id f ∧ role r ≠ Leader.
Proof. intros (d & _ & E). apply Restore_ballot in E as (? & _ & _ & ?). done. Qed.

End Boot.

(** C39: What a sharded node serves.  Once the flags are accepted and the system gives
    it its directory and its port, the process starts if and only if the files of
    every hosted shard open and restore and the observability endpoints, if the flags
    ask for them, get their port.  It then hosts exactly the shards named by
    -hosts, each replica being what its own files held, running as a follower under
    this node's id; the coordinator can reach exactly these shards, and the ring sends
    every account to a shard of -shards. *)
Theorem boot_shardnode_serves `{SortSlice} net open_files obs_err env f p :
  check_shardnode net f = inr p →
  ((∃ c, boot_shardnode net None open_files None obs_err env f = inr c) ↔
     (∀ sid, sid ∈ pl_hosted p → ∃ r, recovered open_files f (pl_ids p) sid r) ∧
     (sf_obs f = "" ∨ obs_err = None)) ∧
  ∀ c, boot_shardnode net None open_files None obs_err env f = inr c →
    (∀ sid r, Replica sid (sc_host c) = Some r ↔
       sid ∈ pl_hosted p ∧ ∃ r0, recovered open_files f (pl_ids p) sid r0 ∧ r = RaftLoop.Start env r0) ∧
    (∀ sid r, Replica sid (sc_host c) = Some r → id r = sf_id f ∧ running r = true ∧ role r ≠ Leader) ∧
    co_groups (sc_coordinator c) = list_to_set (pl_hosted p) ∧
    (∀ account, ShardFor (sc_coordinator c) account ∈ pl_shards p).
Proof.
  intros Hcheck. split.
  - split.
    + intros [c Hc]. apply (boot_built _ _ _ _ _ p) in Hc as [Hobs%listen_obs_none [rs Hrs]]; [|done]. split; [|done]. intros sid Hsid.
      by destruct (Forall2_elem_r (λ sid x, recovered open_files f (pl_ids p) sid x.2) _ _ sid Hrs Hsid) as (r & _ & ?); exists r.
    + intros [Hall Hobs]. apply (listen_obs_none "shardnode") in Hobs. apply recovered_all in Hall as [rs Hrs].
      destruct (boot_replicas net open_files obs_err env f p Hcheck rs Hobs Hrs) as (c & ? & _).
      by exists c.
  - intros c Hc. destruct (boot_built _ _ _ _ _ p Hcheck c Hc) as [Hobs [rs Hrs]].
    destruct (boot_replicas net open_files obs_err env f p Hcheck rs Hobs Hrs) as (c' & Hc' & Hco & _ & _ & _ & Hrep).
    assert (c' = c) as -> by congruence. clear Hc'. pose proof (hosted_shards _ _ _ Hcheck) as (_ & _ & Hne).
    assert (∀ sid r, Replica sid (sc_host c) = Some r ↔
       sid ∈ pl_hosted p ∧ ∃ r0, recovered open_files f (pl_ids p) sid r0 ∧ r = RaftLoop.Start env r0) as Hiff.
    { intros sid r. rewrite Hrep. split.
      - intros (r0 & Hin & ->). destruct (Forall2_elem (λ sid x, recovered open_files f (pl_ids p) sid x.2) _ _ _ _ Hrs Hin) as [? ?].
        split; [done|]. by exists r0.
      - intros (Hsid & r0 & Hr0 & ->). exists r0. split; [|done].
        destruct (Forall2_elem_r (λ sid x, recovered open_files f (pl_ids p) sid x.2) _ _ sid Hrs Hsid) as (r1 & Hin & Hr1).
        assert (r0 = r1) as -> by (eapply recovered_fun; eauto). done. }
    split; [done|]. rewrite Hco. split; [|split; [done|]].
    + intros sid r (_ & r0 & Hr0 & ->)%Hiff. apply recovered_follower in Hr0 as [? ?].
      unfold RaftLoop.Start. by destruct (running r0) eqn:Er.
    + intros account. unfold ShardFor. simpl. destruct (NewRing_Lookup (pl_shards p) (Z.of_nat DefaultVNodes) account Hne) as (q & [Hin _] & ->).
      by eapply all_points_shard.
Qed.

(** ** Membership *)

Lemma Restore_fresh f ids sid d : st_Load d = inr [] → Restore (new_server f ids sid d) = Ok (inr (new_server f ids sid d)).
Proof. intros E. unfold Restore, new_server at 1. cbn [SetStorage set_storage storage]. by rewrite E. Qed.

(** A node that starts with empty files gives every shard it hosts the whole of
    -peers as its members, whichever of them host the shard. *)
Lemma fresh_membership open_files f ids sid d r :
  open_files (replica_base f sid) = inr d → st_Load d = inr [] → recovered open_files f ids sid r →
  peers r = ids ∧ log r = [zeroEntry].
Proof.
  intros Ho Hl (d' & Hd & Hr). assert (d' = d) as -> by congruence. rewrite Restore_fresh in Hr by done.
  by injection Hr as <-.
Qed.

(** ** Files *)

Definition no_slash (s : string) : bool := bool_decide (slash ∉ to_text s).

Lemma base_name_plain id sid : no_slash id = true → no_slash sid = true → plain_name (to_text (id +:+ "-" +:+ sid)).
Proof.
  intros Hi%bool_decide_eq_true Hs%bool_decide_eq_true. rewrite !to_text_app. change (to_text "-") with [byte 45].
  assert (∀ t, byte 45 ∉ t → to_text id ++ [byte 45] ++ to_text sid ≠ t) as Hdash.
  { intros t Ht <-. apply Ht, elem_of_app. right. by left. }
  split_and!.
  - rewrite !not_elem_of_app. split_and!; [done| |done]. by apply (bool_decide_unpack _).
  - apply Hdash. apply not_elem_of_nil.
  - apply Hdash. by apply (bool_decide_unpack _).
  - apply Hdash. by apply (bool_decide_unpack _).
Qed.

(** Two shards of one process share no file: names without a slash lead to
    different base paths. *)
Theorem replica_base_distinct f sid sid' :
  no_slash (sf_id f) = true → no_slash sid = true → no_slash sid' = true →
  replica_base f sid = replica_base f sid' → sid = sid'.
Proof.
  unfold replica_base. intros Hi Hs Hs' E. apply Join_inj in E; try by apply base_name_plain.
  by apply (inj (String.append _)), (inj (String.append _)) in E.
Qed.

(** ** Seeds *)

Lemma derive_seed_snoc l c : foldl (λ s ch, i64 (s * 31 + ch)) 0 (l ++ [c]) = i64 (foldl (λ s ch, i64 (s * 31 + ch)) 0 l * 31 + c).
Proof. by rewrite foldl_app. Qed.

Definition ascii_name (s : string) : bool := forallb (λ b, b <? 128) (bytes_of s).

(** Ids that differ in their last character only, as n1, n2 and n3 do, get
    different derived seeds. *)
Theorem derive_seed_last (s : string) (a b : Ascii.ascii) :
  ascii_name (s +:+ String a "") = true → ascii_name (s +:+ String b "") = true → a ≠ b →
  derive_seed 0 (s +:+ String a "") ≠ derive_seed 0 (s +:+ String b "").
Proof.
  intros Ha Hb Hne. unfold derive_seed. simpl.
  assert (∀ c, ascii_name (s +:+ String c "") = true →
    runes (s +:+ String c "") = bytes_of s ++ [Z.of_nat (Ascii.nat_of_ascii c)] ∧ 0 ≤ Z.of_nat (Ascii.nat_of_ascii c) < 128) as Hr.
  { intros c Hc. unfold ascii_name in Hc. rewrite forallb_forall in Hc.
    assert (bytes_of (s +:+ String c "") = bytes_of s ++ [Z.of_nat (Ascii.nat_of_ascii c)]) as E
      by (unfold bytes_of; by rewrite to_text_app, fmap_app).
    split.
    - unfold runes. rewrite decode_ascii; [done|]. apply Forall_forall. intros x Hx. apply Z.ltb_lt, Hc. by apply list_elem_of_In.
    - split; [lia|]. apply Z.ltb_lt, Hc. rewrite E. apply in_or_app. right. by left. }
  destruct (Hr a Ha) as [-> Hra], (Hr b Hb) as [-> Hrb]. rewrite !derive_seed_snoc. intros E. apply Hne.
  assert (Z.of_nat (Ascii.nat_of_ascii a) = Z.of_nat (Ascii.nat_of_ascii b)) as E'.
  { generalize dependent (foldl (λ s ch, i64 (s * 31 + ch)) 0 (bytes_of s)). intros v E. unfold i64 in E.
    assert ((v * 31 + Z.of_nat (Ascii.nat_of_ascii a) + 2 ^ 63) mod 2 ^ 64 = (v * 31 + Z.of_nat (Ascii.nat_of_ascii b) + 2 ^ 63) mod 2 ^ 64) as Em by lia.
    apply Z.cong_iff_0 in Em. replace (_ - _) with (Z.of_nat (Ascii.nat_of_ascii a) - Z.of_nat (Ascii.nat_of_ascii b)) in Em by lia.
    apply Z.mod_divide in Em as [k Hk]; [|lia]. lia. }
  rewrite <- (Ascii.ascii_nat_embedding a), <- (Ascii.ascii_nat_embedding b). f_equal. lia.
Qed.

(** Two ids may still get the same one. *)
Lemma derived_seeds_collide : derive_seed 0 "nAa" = derive_seed 0 "nBB".
Proof. reflexivity. Qed.

(** ** Timeouts

    The checks are on durations; Raft gets whole milliseconds, and two timeouts in
    order can become equal. *)
Lemma raft_config_order prog why t :
  check_timing prog why t = None →
  ElectionTimeoutMin (raft_config t) ≤ ElectionTimeoutMax (raft_config t) ∧
  HeartbeatInterval (raft_config t) ≤ ElectionTimeoutMin (raft_config t).
Proof.
  intros (_ & ? & ?)%check_timing_None. unfold raft_config, Milliseconds. simpl. split; apply Z.quot_le_mono; lia.
Qed.

Lemma equal_timeouts_accepted :
  let t := mkTiming 100000 1200000 1900000 500000 in
  check_timing "node" "" t = None ∧ raft_config t = mkConfig 1 1 0.
Proof. split; reflexivity. Qed.

(** ** Concrete flags *)

Definition lan_timing : timing := mkTiming 100000000 150000000 300000000 50000000.

Definition plain_tls : TLSConfig := mkTLSConfig "" "" "".

Definition sample_flags (id hosts : string) : shard_flags :=
  mkShardFlags id "127.0.0.1:9001" "n1=127.0.0.1:9001,n2=127.0.0.1:9002,n3=127.0.0.1:9003" "shard-0,shard-1" hosts "./data" 0
    lan_timing false plain_tls "" (mkLimits 0 fzero 0) "".

Definition no_net : Net := mkNet (λ _, None) (λ _ _, None) (λ _, inr true) (λ _ _, inl "down") (λ _ _, None) (λ _ _, inl "down").

(** Two nodes with one data directory: the shard "a-b" of n1 and the shard "b" of
    n1-a have the same files. *)
Lemma nodes_share_files : replica_base (sample_flags "n1" "") "a-b" = replica_base (sample_flags "n1-a" "") "b".
Proof. reflexivity. Qed.

Lemma boot_shardnode_serves_witness :
  let f := sample_flags "n1" "shard-1" in
  ∃ c, boot_shardnode (H := merge_SortSlice) no_net None (λ _, inr ∅) None None env0 f = inr c ∧
    (∀ sid r, Replica sid (sc_host c) = Some r → sid = "shard-1" ∧ id r = "n1" ∧ running r = true) ∧
    is_Some (Replica "shard-1" (sc_host c)) ∧ (∀ account, ShardFor (sc_coordinator c) account ∈ ["shard-0"; "shard-1"]).
Proof.
  intros f.
  assert (check_shardnode no_net f = inr (mkPlan {["n1" := "127.0.0.1:9001"; "n2" := "127.0.0.1:9002"; "n3" := "127.0.0.1:9003"]}
    ["n1"; "n2"; "n3"] ["shard-0"; "shard-1"] ["shard-1"])) as Hcheck by (vm_compute; reflexivity).
  destruct (boot_shardnode_serves (H := merge_SortSlice) no_net (λ _, inr ∅) None env0 f _ Hcheck) as [Hboot Hserve].
  assert (∀ sid : string, recovered (λ _, inr ∅) f ["n1"; "n2"; "n3"] sid (new_server f ["n1"; "n2"; "n3"] sid ∅)) as Hrec
    by (intros sid; exists ∅; split; [done|apply Restore_fresh; vm_compute; reflexivity]).
  destruct (proj2 Hboot) as [c Hc]; [split; [intros sid _; eexists; apply Hrec|by left]|].
  exists c. split; [exact Hc|]. destruct (Hserve c Hc) as (Hr & Hid & _ & Hacc). split; [|split; [|exact Hacc]].
  - intros sid r Hsr. destruct (Hid sid r Hsr) as (Hi & Hrun & _), (proj1 (Hr sid r) Hsr) as [Hs _]. clear Hr Hboot Hserve Hc Hsr.
    split; [by apply list_elem_of_singleton in Hs|]. split; [exact Hi|exact Hrun].
  - eexists. apply (proj2 (Hr "shard-1" _)). split; [left|]. exists (new_server f ["n1"; "n2"; "n3"] "shard-1" ∅). split; [apply Hrec|reflexivity].
Defined.

Lemma replica_base_distinct_witness : replica_base (sample_flags "n1" "") "shard-0" ≠ replica_base (sample_flags "n1" "") "shard-1".
Proof. intros E. assert ("shard-0" = "shard-1") by (apply (replica_base_distinct (sample_flags "n1" "")); [reflexivity..|exact E]). done. Defined.

Lemma derive_seed_last_witness : derive_seed 0 "n1" ≠ derive_seed 0 "n2".
Proof. apply (derive_seed_last "n" (byte 49) (byte 50)); [reflexivity..|discriminate]. Defined.
