(* ===== verification/Daemon.v ===== *)
(** * The background loops of a node (src/node/main.go, src/cmd/shardnode/main.go)

    One tick of each loop, as a function of the servers: compaction, the report of
    role changes, and the recovery of in-doubt transactions on becoming leader.  The
    structured log lines are values; the tickers and the channel that ends a loop are
    the caller's. *)

From S2P Require Import Prelude GoLib Hlc Ledger Ring TwoPC ShardMachine Coordinator.
From S2P Require Import RaftTypes RaftLog RaftCodec RaftServer RaftLoop RaftSnapshot RaftVotes RaftNode RaftRestart RaftDisk RaftWitnesses ShardNode.

Local Open Scope Z_scope.

(** ** Log lines *)

Inductive note :=
  | CompactionFailed (shard err : string)
  | CompactedLog (shard : string) (index term : Z)
  | BecameLeader (shard : string) (term : Z)
  | RecoveryIncomplete (shard : string) (e : error)
  | RecoveryResolved (shard : string) (n : Z)
  | RoleChanged (r : Role) (term commit : Z).

Section Loops.
Context {SM St : Type} `{StateMachine SM} `{Storage St}.
Implicit Type s : Server SM St.

Definition SnapshotInfo s : Z * Z * bool :=
  match snapshot s with
  | None => (0, 0, false)
  | Some sn => (lastIncludedIndex sn, lastIncludedTerm sn, true)
  end.

(** ** compactPeriodically *)

(** The other operations on the server, in the order in which they get the mutex; a
    panic ends the process. *)
Fixpoint exec_ops (os : list op) s : option (Server SM St) :=
  match os with
  | [] => Some s
  | o :: os => match exec o s with Ok (s, _) => exec_ops os s | Panic _ => None end
  end.

(** What happens to a replica before its turn, between the snapshot and its write, and
    between the write and the second locked region of [MaybeCompact]. *)
Record meanwhile := mkMeanwhile { w_before : list op; w_taken : list op; w_saved : list op }.

(** [MaybeCompact] with what happens while it does not hold the mutex. *)
Definition MaybeCompact_during (threshold : Z) (w : meanwhile) s : option (Server SM St * (bool * option string)) :=
  match compact_take threshold s with
  | inl err => Some (s, (false, err))
  | inr (idx, term, data) =>
      s ← exec_ops (w_taken w) s;
      match compact_save idx term data s with
      | (s, Some err) => Some (s, (false, Some ("raft: save snapshot: " +:+ err)))
      | (s, None) => s ← exec_ops (w_saved w) s; Some (compact_finish idx term data s)
      end
  end.

Definition compact_one (threshold : Z) (shard : string) (w : meanwhile) s : option (Server SM St * list note) :=
  r ← MaybeCompact_during threshold w s;
  match r with
  | (s, (_, Some err)) => Some (s, [CompactionFailed shard err])
  | (s, (true, None)) => let '(idx, term, _) := SnapshotInfo s in Some (s, [CompactedLog shard idx term])
  | (s, (false, None)) => Some (s, [])
  end.


(** The tick of a node with one group, whose log lines name no shard. *)
Definition node_compact_tick (threshold : Z) (w : meanwhile) s : option (Server SM St * list note) :=
  compact_one threshold "" w s.

(** ** reportRole

    The role and term last reported; none before the first tick. *)
Definition report_role (last : option Role * Z) s : (option Role * Z) * list note :=
  if bool_decide (last.1 ≠ Some (role s)) || negb (last.2 =? currentTerm s)
  then ((Some (role s), currentTerm s), [RoleChanged (role s) (currentTerm s) (commitIndex s)])
  else (last, []).

Fixpoint report_ticks (last : option Role * Z) (seen : list (Server SM St)) : list note :=
  match seen with
  | [] => []
  | s :: seen => let (last, notes) := report_role last s in notes ++ report_ticks last seen
  end.

End Loops.

(** ** recoverOnLeadership

    [order] is the order in which the coordinator's map of groups is enumerated. *)
Definition recover_one (c : Coordinator) (order : list ID) (acc : ShardHost * gmap ID bool * list note) (sid : ID) :
    ShardHost * gmap ID bool * list note :=
  let '(h, wasLeader, notes) := acc in
  let isLeader := leads sid h in
  if isLeader && negb (default false (wasLeader !! sid)) then
    let term := default 0 (currentTerm <$> Replica sid h) in
    let '(h, (n, err)) := RecoverInDoubt c order h in
    (h, <[sid:=isLeader]> wasLeader,
     notes ++ BecameLeader sid term ::
       match err with
       | Some e => [RecoveryIncomplete sid e]
       | None => if 0 <? n then [RecoveryResolved sid n] else []
       end)
  else (h, <[sid:=isLeader]> wasLeader, notes).

Definition recover_tick (c : Coordinator) (order hosted : list ID) (h : ShardHost) (wasLeader : gmap ID bool) :
    ShardHost * gmap ID bool * list note :=
  foldl (recover_one c order) (h, wasLeader, []) hosted.

(** ** Compaction bounds the log *)

Section Compaction.
Context {SM St : Type} `{StateMachine SM} `{Storage St}.
Implicit Type s : Server SM St.











(** ** The report of roles *)

(** The last line reported is the present role and term. *)
Lemma report_ticks_current last0 (seen : list (Server SM St)) s :
  match list.last (report_ticks last0 (seen ++ [s])) with
  | Some n => ∃ c, n = RoleChanged (role s) (currentTerm s) c
  | None => last0 = (Some (role s), currentTerm s)
  end.
Proof.
  revert last0. induction seen as [|s' seen IH]; intros last0; cbn [app report_ticks].
  - unfold report_role. destruct (_ || _) eqn:E; [simpl; eauto|]. apply orb_false_iff in E as [Hr%bool_decide_eq_false Ht%negb_false_iff%Z.eqb_eq].
    simpl. destruct last0 as [[r|] t]; simpl in *; [|by destruct Hr]. f_equal; [|done].
    destruct (base.decide (Some r = Some (role s))); [done|]. by destruct Hr.
  - unfold report_role at 1. destruct (_ || _); [|apply IH].
    specialize (IH (Some (role s'), currentTerm s')). cbn [app].
    destruct (report_ticks _ (seen ++ [s])) as [|n l]; [simpl in *; injection IH as -> ->; eauto|]. rewrite last_cons_cons.
    destruct (list.last (n :: l)) eqn:El; [done|]. by apply last_None in El.
Qed.

(** The report follows the role.  However often the loop looks, its last line shows
    the role and term of the server at the last look. *)
Theorem report_role_current (seen : list (Server SM St)) s :
  ∃ c, list.last (report_ticks (None, 0) (seen ++ [s])) = Some (RoleChanged (role s) (currentTerm s) c).
Proof.
  pose proof (report_ticks_current (None, 0) seen s) as Hr. destruct (list.last _) as [n|]; [|done].
  destruct Hr as [c ->]. by exists c.
Qed.

End Compaction.

(** ** Recovery *)

Section Recovery.
Variables (c : Coordinator) (order : list ID).

(** No shard newly led: nothing runs.  In particular a recovery that was incomplete
    is not tried again while this node keeps leading. *)
Lemma recover_tick_idle hosted h wasLeader notes :
  (∀ sid, sid ∈ hosted → leads sid h = true → wasLeader !! sid = Some true) →
  ∃ was', foldl (recover_one c order) (h, wasLeader, notes) hosted = (h, was', notes) ∧
    ∀ sid, sid ∉ hosted → was' !! sid = wasLeader !! sid.
Proof.
  revert wasLeader. induction hosted as [|sid l IH]; intros was Hlead; [by exists was|]. cbn [foldl]. unfold recover_one at 2.
  assert (leads sid h && negb (default false (was !! sid)) = false) as ->.
  { destruct (leads sid h) eqn:E; [|done]. by rewrite (Hlead sid) by (by left || done). }
  destruct (IH (<[sid:=leads sid h]> was)) as (was' & -> & Hw).
  - intros s Hs E. destruct (base.decide (s = sid)) as [->|]; [by rewrite lookup_insert_eq, E|].
    rewrite lookup_insert_ne by done. apply Hlead; [by right|done].
  - exists was'. split; [done|]. intros s [Hne Hs]%not_elem_of_cons. rewrite Hw by done. by rewrite lookup_insert_ne.
Qed.

(** Recovery runs on becoming leader, and only then.  A tick in which this node
    leads no shard that it did not lead before changes nothing and reports nothing.  If
    it newly leads a shard, the first such shard in the order of the loop makes the
    coordinator recover, and the rest of the tick goes on from there. *)
Theorem recovery_on_becoming_leader h wasLeader :
  (∀ hosted, (∀ sid, sid ∈ hosted → leads sid h = true → wasLeader !! sid = Some true) →
     ∃ was', recover_tick c order hosted h wasLeader = (h, was', [])) ∧
  (∀ pre sid post, (∀ s, s ∈ pre → leads s h = true → wasLeader !! s = Some true) → sid ∉ pre →
     leads sid h = true → wasLeader !! sid ≠ Some true →
     ∃ was' notes, recover_tick c order (pre ++ sid :: post) h wasLeader =
       foldl (recover_one c order) ((RecoverInDoubt c order h).1, <[sid:=true]> was', notes) post ∧
       ∃ term, head notes = Some (BecameLeader sid term)).
Proof.
  split.
  - intros hosted Hlead. destruct (recover_tick_idle hosted h wasLeader [] Hlead) as (was' & ? & _). by exists was'.
  - intros pre sid post Hpre Hsid Hl Hw. unfold recover_tick. rewrite foldl_app.
    destruct (recover_tick_idle pre h wasLeader [] Hpre) as (was' & -> & Hsame). cbn [foldl]. unfold recover_one at 2.
    rewrite Hl, Hsame by done.
    assert (default false (wasLeader !! sid) = false) as -> by (destruct (wasLeader !! sid) as [[]|]; done).
    cbn [andb negb]. destruct (RecoverInDoubt c order h) as [h' [n err]]. eexists was', _. split; [reflexivity|]. by eexists.
Qed.

End Recovery.




