(* ===== verification/EventLog.v ===== *)
(** * The demo's event log (src/demo/eventlog.go)

    A bounded buffer of numbered events, the filter the dashboard uses, and the
    lists of names it offers.  [strings.EqualFold] compares under Unicode case
    folding and is a parameter; so is the order in which Go iterates over a map. *)

From S2P Require Import Prelude GoLib.

Local Open Scope Z_scope.

Definition EventKind : Type := string.
Definition KindClient : EventKind := "client".
Definition KindRaft : EventKind := "raft".
Definition KindControl : EventKind := "control".
Definition KindDrift : EventKind := "drift".

Record Event := mkEvent {
  ev_Seq : Z;
  ev_At : string;
  ev_Kind : EventKind;
  ev_Text : string;
  ev_Account : string;
  ev_Shard : string;
  ev_Node : string;
  ev_Outcome : string
}.

Definition set_Seq (v : Z) (e : Event) : Event :=
  mkEvent v (ev_At e) (ev_Kind e) (ev_Text e) (ev_Account e) (ev_Shard e) (ev_Node e) (ev_Outcome e).
Definition set_At (v : string) (e : Event) : Event :=
  mkEvent (ev_Seq e) v (ev_Kind e) (ev_Text e) (ev_Account e) (ev_Shard e) (ev_Node e) (ev_Outcome e).

Record eventLog := mkEventLog { el_events : list Event; el_seq : Z; el_max : Z }.

Definition newEventLog (max : Z) : eventLog := mkEventLog [] 0 max.

(** The event as it is filed; [clock] is the formatted time. *)
Definition stamped (clock : string) (seq : Z) (e : Event) : Event :=
  let e := set_Seq seq e in if String.eqb (ev_At e) "" then set_At clock e else e.

(** [None]: the slice bounds of the trim are out of range, which needs a negative bound. *)
Definition add (clock : string) (e : Event) (l : eventLog) : option eventLog :=
  let seq := u64 (el_seq l + 1) in
  let events := el_events l ++ [stamped clock seq e] in
  let len := Z.of_nat (length events) in
  if el_max l <? len then
    if el_max l <? 0 then None
    else Some (mkEventLog (drop (Z.to_nat (len - el_max l)) events) seq (el_max l))
  else Some (mkEventLog events seq (el_max l)).

Definition el_snapshot (l : eventLog) : list Event := el_events l.

Definition lines (l : eventLog) : list string := (λ e, ev_At e +:+ "  " +:+ ev_Text e) <$> el_snapshot l.

(** ** Filters *)

Record EventFilter := mkFilter {
  f_Account : string;
  f_Shard : string;
  f_Node : string;
  f_Kind : EventKind;
  f_ExcludeKind : EventKind
}.

Section Filter.
Variable EqualFold : string → string → bool.

Definition matches (f : EventFilter) (e : Event) : bool :=
  if negb (String.eqb (f_Account f) "") && negb (EqualFold (ev_Account e) (f_Account f)) then false
  else if negb (String.eqb (f_Shard f) "") && negb (EqualFold (ev_Shard e) (f_Shard f)) then false
  else if negb (String.eqb (f_Node f) "") && negb (EqualFold (ev_Node e) (f_Node f)) then false
  else if negb (String.eqb (f_Kind f) "") && negb (String.eqb (ev_Kind e) (f_Kind f)) then false
  else if negb (String.eqb (f_ExcludeKind f) "") && String.eqb (ev_Kind e) (f_ExcludeKind f) then false
  else true.

Definition Events (f : EventFilter) (limit : Z) (l : eventLog) : list Event :=
  let out := List.filter (matches f) (el_snapshot l) in
  if (0 <? limit) && (limit <? Z.of_nat (length out)) then drop (Z.to_nat (Z.of_nat (length out) - limit)) out else out.

End Filter.

(** ** Names *)

(** [s[j] < s[j-1]] and the swap, down from [j]. *)
Fixpoint sift (j : nat) (s : list string) : list string :=
  match j with
  | O => s
  | S j' =>
      match s !! j, s !! j' with
      | Some x, Some y => if String.ltb x y then sift j' (<[j':=x]> (<[j:=y]> s)) else s
      | _, _ => s
      end
  end.

Definition sortStrings (s : list string) : list string := foldl (λ s i, sift i s) s (seq 1 (length s - 1)).

Definition axis (iter : gset string → list string) (name : Event → string) (l : eventLog) : list string :=
  sortStrings (iter (list_to_set (List.filter (λ v, negb (String.eqb v "")) (name <$> el_snapshot l)))).

(** The three axes; the keys are literals. *)
Definition EventAxes (iter : gset string → list string) (l : eventLog) : list string * list string * list string :=
  (axis iter ev_Account l, axis iter ev_Shard l, axis iter ev_Node l).

(** ** Properties of the buffer *)

(** All events ever added, as they were filed. *)
Definition filed (es : list (string * Event)) : list Event :=
  imap (λ i x, stamped x.1 (Z.of_nat i + 1) x.2) es.

Definition add_all (es : list (string * Event)) (l : eventLog) : option eventLog :=
  foldl (λ l x, l ← l; add x.1 x.2 l) (Some l) es.

(** The log keeps the newest.  However many events are added to a fresh log (below
    2^64), adding never fails, and the log holds exactly the last [max] of them, in
    order, each with its own number: the first event ever is 1, and numbers are
    consecutive. *)
Theorem add_keeps_newest max es :
  0 ≤ max → Z.of_nat (length es) < 2 ^ 64 - 1 →
  ∃ l, add_all es (newEventLog max) = Some l ∧
    el_snapshot l = drop (length es - Z.to_nat max) (filed es) ∧
    (∀ k e, el_snapshot l !! k = Some e → ev_Seq e = Z.of_nat (length es - length (el_snapshot l)) + Z.of_nat k + 1).
Proof.
  intros Hmax Hlen.
  assert (∃ l, add_all es (newEventLog max) = Some l ∧ el_events l = drop (length es - Z.to_nat max) (filed es) ∧
    el_seq l = Z.of_nat (length es) ∧ el_max l = max) as (l & E & Hev & Hseq & Hm).
  { unfold add_all. induction es as [|x es IH] using rev_ind; [by eexists|].
    rewrite length_app in Hlen. simpl in Hlen. destruct IH as (l & E & Hev & Hseq & Hm); [lia|].
    rewrite foldl_app, E. simpl. unfold add. rewrite Hm, Hseq, u64_small by (unfold in_u64; lia).
    assert (length (filed es) = length es) as Hf by apply length_imap.
    set (e := stamped _ _ _).
    assert (filed (es ++ [x]) = filed es ++ [e]) as Hfiled.
    { unfold filed. rewrite imap_app. simpl. by rewrite Nat.add_0_r. }
    rewrite Hev, Hfiled, !length_app, length_drop, Hf. simpl.
    case_match eqn:Hlt; apply Z.ltb_lt in Hlt || apply Z.ltb_ge in Hlt.
    - destruct (Z.ltb_spec max 0); [lia|]. eexists. split; [done|]. simpl.
      split; [|split; [lia|done]]. rewrite <- drop_app_le by (rewrite Hf; lia). rewrite drop_drop. f_equal. lia.
    - eexists. split; [done|]. simpl. split; [|split; [lia|done]].
      replace (length es + 1 - Z.to_nat max)%nat with 0%nat by lia.
      by replace (length es - Z.to_nat max)%nat with 0%nat by lia. }
  exists l. split; [done|]. split; [done|]. unfold el_snapshot. rewrite Hev. intros k e.
  rewrite length_drop. unfold filed at 2. rewrite length_imap, lookup_drop. unfold filed. rewrite list_lookup_imap.
  destruct (es !! (length es - Z.to_nat max + k)%nat) as [x|] eqn:Ex; [|done]. simpl. intros [= <-].
  apply lookup_lt_Some in Ex. unfold stamped. destruct (String.eqb _ _); simpl; lia.
Qed.

(** ** Properties of the filter *)

Lemma guard_and (a b c : bool) : (if negb a && negb b then false else c) = (a || b) && c.
Proof. by destruct a, b. Qed.

(** The filter and its limit.  [Events] returns the newest [limit] matching
    events in the order of the log (all of them without a limit), and an event
    matches when it agrees with every named axis, is of the named kind and not of
    the excluded one. *)
Theorem Events_newest_matching EqualFold f limit l :
  Events EqualFold f limit l `suffix_of` List.filter (matches EqualFold f) (el_snapshot l) ∧
  (limit ≤ 0 → Events EqualFold f limit l = List.filter (matches EqualFold f) (el_snapshot l)) ∧
  (0 < limit → Z.of_nat (length (Events EqualFold f limit l)) =
     Z.min limit (Z.of_nat (length (List.filter (matches EqualFold f) (el_snapshot l))))) ∧
  (∀ e, matches EqualFold f e = true ↔
     (f_Account f = "" ∨ EqualFold (ev_Account e) (f_Account f) = true) ∧
     (f_Shard f = "" ∨ EqualFold (ev_Shard e) (f_Shard f) = true) ∧
     (f_Node f = "" ∨ EqualFold (ev_Node e) (f_Node f) = true) ∧
     (f_Kind f = "" ∨ ev_Kind e = f_Kind f) ∧ (f_ExcludeKind f = "" ∨ ev_Kind e ≠ f_ExcludeKind f)).
Proof.
  unfold Events. set (out := List.filter _ _). split; [|split; [|split]].
  - destruct (_ && _); [|done]. exists (take (Z.to_nat (Z.of_nat (length out) - limit)) out). by rewrite take_drop.
  - intros Hl. by destruct (Z.ltb_spec 0 limit); [lia|].
  - intros Hl. destruct (Z.ltb_spec 0 limit); [|lia]. simpl.
    destruct (Z.ltb_spec limit (Z.of_nat (length out))); [rewrite length_drop|]; lia.
  - intros e. unfold matches. rewrite !guard_and, !andb_true_iff, !orb_true_iff, !String.eqb_eq.
    destruct (String.eqb_spec (f_ExcludeKind f) ""), (String.eqb_spec (ev_Kind e) (f_ExcludeKind f)); simpl; intuition congruence.
Qed.

(** A filter by account hides what has no account.  An empty string equals no
    other under case folding, so an event with no account never passes a filter
    that names one. *)
Theorem filter_hides_unattributed EqualFold f e :
  (∀ s, EqualFold "" s = true → s = "") → f_Account f ≠ "" → ev_Account e = "" → matches EqualFold f e = false.
Proof.
  intros Hfold Hf He. unfold matches. rewrite He. destruct (String.eqb_spec (f_Account f) ""); [done|].
  destruct (EqualFold "" (f_Account f)) eqn:E; [by apply Hfold in E|done].
Qed.

(** ** Sorting *)

Lemma ltb_le x y : String.ltb x y = false → String.le y x.
Proof.
  unfold String.ltb, String.le, String.leb. rewrite (String.compare_antisym y x). by destruct (String.compare x y).
Qed.

Lemma ltb_lt x y : String.ltb x y = true → String.le x y.
Proof. unfold String.ltb, String.le, String.leb. by destruct (String.compare x y). Qed.

(** [sift] moves the element behind a sorted prefix into it. *)
Lemma sift_insert l x r :
  Sorted String.le l →
  ∃ l', sift (length l) (l ++ x :: r) = l' ++ r ∧ l' ≡ₚ x :: l ∧ Sorted String.le l'.
Proof.
  revert x r. induction l as [|y l IH] using rev_ind; intros x r Hs.
  { exists [x]. split; [done|]. split; [done|]. by repeat constructor. }
  rewrite length_app. simpl. rewrite Nat.add_1_r. cbn [sift].
  rewrite <- app_assoc. simpl.
  rewrite lookup_app_r, Nat.sub_succ_l, Nat.sub_diag by lia. rewrite lookup_app_r, Nat.sub_diag by lia. cbn [lookup list_lookup].
  assert (Sorted String.le l) as Hl.
  { apply Sorted_StronglySorted in Hs; [|apply _]. apply StronglySorted_app in Hs as (_ & Hs & _).
    by apply StronglySorted_Sorted. }
  destruct (String.ltb x y) eqn:Exy.
  - replace (<[length l:=x]> (<[S (length l):=y]> (l ++ y :: x :: r))) with (l ++ x :: y :: r).
    2:{ rewrite !insert_app_r_alt by lia. by rewrite Nat.sub_diag, Nat.sub_succ_l, Nat.sub_diag by lia. }
    destruct (IH x (y :: r) Hl) as (l' & -> & Hp & Hs'). exists (l' ++ [y]). rewrite <- app_assoc.
    split; [done|]. split; [rewrite Hp; simpl; by rewrite (Permutation_app_comm l [y])|].
    apply Sorted_StronglySorted in Hs, Hs'; [|apply _..]. apply StronglySorted_Sorted, StronglySorted_app.
    apply StronglySorted_app in Hs as (Hy & _ & _). split; [|split; [done|by repeat constructor]].
    intros a b Ha ->%list_elem_of_singleton. rewrite Hp in Ha. apply elem_of_cons in Ha as [->|Ha].
    + by apply ltb_lt.
    + apply Hy; [done|by apply list_elem_of_singleton].
  - exists (l ++ [y; x]). rewrite <- app_assoc. split; [done|].
    split; [by rewrite (Permutation_app_comm l [y; x]), (Permutation_app_comm l [y]); simpl; apply Permutation_swap|].
    change [y; x] with ([y] ++ [x]). rewrite app_assoc. apply Sorted_StronglySorted in Hs; [|apply _].
    apply StronglySorted_Sorted, StronglySorted_app. split; [|split; [done|by repeat constructor]].
    intros a b Ha ->%list_elem_of_singleton. apply ltb_le in Exy. apply elem_of_app in Ha as [Ha| ->%list_elem_of_singleton]; [|done].
    apply StronglySorted_app in Hs as (Hy & _ & _). transitivity y; [|done]. apply Hy; [done|by apply list_elem_of_singleton].
Qed.

Lemma sort_prefix s k :
  (k < length s)%nat →
  ∃ l r, foldl (λ s i, sift i s) s (seq 1 k) = l ++ r ∧ length l = S k ∧ l ≡ₚ take (S k) s ∧ r = drop (S k) s ∧
    Sorted String.le l.
Proof.
  induction k as [|k IH]; intros Hk.
  - destruct s as [|x s]; simpl in Hk; [lia|]. exists [x], s. split_and!; try done. by repeat constructor.
  - destruct IH as (l & r & E & Hlen & Hp & -> & Hs); [lia|].
    rewrite seq_S, foldl_app, E. simpl.
    destruct (lookup_lt_is_Some_2 s (S k) Hk) as [x Hx].
    rewrite (drop_S s x (S k) Hx). rewrite <- Hlen.
    destruct (sift_insert l x (drop (S (length l)) s) Hs) as (l' & E' & Hp' & Hs').
    rewrite Hlen in *. exists l', (drop (S (S k)) s). split; [done|].
    assert (l' ≡ₚ take (S (S k)) s) as Hp''.
    { rewrite Hp', Hp, (take_S_r s (S k) x Hx). apply Permutation_cons_append. }
    split_and!; try done. by rewrite Hp', <- Hlen.
Qed.

(** The names offered to the dashboard.  [sortStrings] is a sort: it returns its
    argument in ascending order.  So each axis lists every non-empty name in the log
    once, in ascending order, whichever way the map was iterated. *)
Theorem axis_sorted iter name l :
  (∀ X, iter X ≡ₚ elements X) →
  Sorted String.le (axis iter name l) ∧ NoDup (axis iter name l) ∧
  (∀ v, v ∈ axis iter name l ↔ v ≠ "" ∧ ∃ e, e ∈ el_snapshot l ∧ name e = v) ∧
  ∀ iter', (∀ X, iter' X ≡ₚ elements X) → axis iter' name l = axis iter name l.
Proof.
  intros Hiter.
  assert (∀ s, Sorted String.le (sortStrings s) ∧ sortStrings s ≡ₚ s) as Hsort.
  { intros s. unfold sortStrings. destruct s as [|x s]; [by repeat constructor|].
    destruct (sort_prefix (x :: s) (length (x :: s) - 1)) as (l' & r & -> & Hlen & Hp & -> & Hs); [simpl; lia|].
    assert (S (length (x :: s) - 1) = length (x :: s)) as E by (simpl; lia). rewrite E in *.
    rewrite drop_all, app_nil_r. split; [done|]. by rewrite Hp, firstn_all. }
  unfold axis. set (X := list_to_set _ : gset string). destruct (Hsort (iter X)) as [Hs Hp].
  split; [done|]. split; [rewrite Hp, Hiter; apply NoDup_elements|]. split.
  - intros v. rewrite Hp, (Hiter X), elem_of_elements. unfold X. rewrite elem_of_list_to_set, list_elem_of_In, filter_In.
    rewrite <- list_elem_of_In, list_elem_of_fmap, negb_true_iff, String.eqb_neq. split.
    + intros [(e & -> & He) Hv]. split; [done|]. by exists e.
    + intros (Hv & e & He & <-). split; [by exists e|done].
  - intros iter' Hiter'. destruct (Hsort (iter' X)) as [Hs' Hp'].
    apply (Sorted_unique String.le); [done|done|]. by rewrite Hp', Hp, Hiter, Hiter'.
Qed.

(** ** Witnesses *)

Definition kill_event (n : string) : Event := mkEvent 0 "" KindControl "killed" "" "" n "".

Lemma add_keeps_newest_witness :
  ∃ l, add_all [("t1", kill_event "node-1"); ("t2", kill_event "node-2"); ("t3", kill_event "node-3")] (newEventLog 2)
    = Some l ∧ ev_Node <$> el_snapshot l = ["node-2"; "node-3"].
Proof.
  destruct (add_keeps_newest 2 [("t1", kill_event "node-1"); ("t2", kill_event "node-2"); ("t3", kill_event "node-3")])
    as (l & E & Hs & _); [lia|simpl; lia|]. exists l. split; [exact E|]. rewrite Hs. reflexivity.
Defined.

Lemma filter_hides_unattributed_witness :
  matches String.eqb (mkFilter "vu" "" "" "" "") (kill_event "node-1") = false.
Proof.
  apply (filter_hides_unattributed String.eqb); [|done|reflexivity].
  intros s E. apply String.eqb_eq in E. by rewrite <- E.
Defined.

Lemma axis_sorted_witness :
  Sorted String.le (axis elements ev_Node (mkEventLog [kill_event "node-2"; kill_event "node-1"] 2 5)).
Proof. apply (axis_sorted elements). reflexivity. Defined.
