(* ===== verification/Placement.v ===== *)
(** * Replica placement (src/sim/placement.go)

    Which machines hold which shard: the names, the staggered offset, and the refusals.
    The servers that a placed cluster starts are those of [Rereplicate.new_replica]. *)

From S2P Require Import Prelude GoLib Ring RaftTypes RaftServer.

Local Open Scope Z_scope.

(** ** Placement *)

Definition node_name (i : nat) : NodeID := "node-" +:+ fmt_d (Z.of_nat i + 1).
Definition shard_name (i : nat) : ID := "shard-" +:+ fmt_d (Z.of_nat i).

(** The machines of shard number [si]. *)
Definition holders_of (nNodes rf si : nat) : list NodeID :=
  (λ k, node_name ((si + k) mod nNodes)) <$> seq 0 rf.

(** The arguments are Go ints; ranging over a negative one does nothing. *)
Definition NewPlacedCluster (nShards nNodes replicationFactor : Z) : string + list (ID * list NodeID) :=
  if replicationFactor <? 1 then inl "sim: replication factor must be at least 1"
  else if nNodes <? replicationFactor then
    inl ("sim: replication factor " +:+ fmt_d replicationFactor +:+ " exceeds " +:+ fmt_d nNodes
           +:+ " machines; a shard cannot have more replicas than there are machines to put them on")
  else inr ((λ si, (shard_name si, holders_of (Z.to_nat nNodes) (Z.to_nat replicationFactor) si)) <$> seq 0 (Z.to_nat nShards)).

Lemma node_name_inj i j : node_name i = node_name j → i = j.
Proof.
  unfold node_name, fmt_d. intros E. apply (inj (String.append _)) in E. apply (inj pretty) in E. lia.
Qed.

Lemma shard_name_inj i j : shard_name i = shard_name j → i = j.
Proof.
  unfold shard_name, fmt_d. intros E. apply (inj (String.append _)) in E. apply (inj pretty) in E. lia.
Qed.

Lemma mod_shift_inj n si i j : (i < n)%nat → (j < n)%nat → ((si + i) mod n = (si + j) mod n)%nat → i = j.
Proof.
  intros Hi Hj E. pose proof (Nat.div_mod (si + i) n ltac:(lia)). pose proof (Nat.div_mod (si + j) n ltac:(lia)).
  assert ((si + i) / n = (si + j) / n)%nat; [|lia].
  destruct (Nat.lt_trichotomy ((si + i) / n) ((si + j) / n)) as [Hlt|[?|Hlt]]; [|done|]; nia.
Qed.

Lemma holders_nodup n rf si : (rf ≤ n)%nat → NoDup (holders_of n rf si).
Proof.
  intros Hle. unfold holders_of. apply NoDup_fmap_2_strong; [|apply NoDup_seq].
  intros i j Hi Hj E%node_name_inj. apply elem_of_seq in Hi, Hj. apply (mod_shift_inj n si); [lia|lia|done].
Qed.

(** *** How evenly

    Counting with a Boolean test. *)
Definition countb {A} (p : A → bool) (l : list A) : nat := length (List.filter p l).

Lemma countb_app {A} (p : A → bool) l1 l2 : countb p (l1 ++ l2) = (countb p l1 + countb p l2)%nat.
Proof. unfold countb. by rewrite List.filter_app, length_app. Qed.

Lemma countb_fmap {A B} (f : A → B) (p : B → bool) l : countb p (f <$> l) = countb (p ∘ f) l.
Proof.
  unfold countb. induction l as [|x l IH]; [done|]. rewrite fmap_cons. simpl.
  destruct (p (f x)); simpl; by rewrite IH.
Qed.

Lemma countb_perm {A} (p : A → bool) l1 l2 : l1 ≡ₚ l2 → countb p l1 = countb p l2.
Proof.
  induction 1 as [|x l1 l2 _ IH|x y l|l1 l2 l3 _ IH1 _ IH2]; unfold countb in *; simpl; [done| | |lia].
  - destruct (p x); simpl; lia.
  - by destruct (p x), (p y).
Qed.

Lemma countb_ext {A} (p q : A → bool) l : (∀ x, x ∈ l → p x = q x) → countb p l = countb q l.
Proof.
  intros Hpq. induction l as [|x l IH]; [done|]. unfold countb in *. simpl.
  rewrite (Hpq x) by by left. destruct (q x); simpl; rewrite IH; [done|by intros y Hy; apply Hpq; right|done|by intros y Hy; apply Hpq; right].
Qed.

Lemma countb_below rf n : (rf ≤ n)%nat → countb (λ d, d <? rf)%nat (seq 0 n) = rf.
Proof.
  intros Hle. replace n with (rf + (n - rf))%nat at 1 by lia. rewrite seq_app, countb_app.
  assert (∀ k, countb (λ d, d <? rf)%nat (seq rf k) = 0%nat) as ->.
  { intros k. induction k as [|k IH]; [done|]. rewrite seq_S, countb_app, IH. unfold countb. simpl.
    by destruct (Nat.ltb_spec (rf + k) rf); [lia|]. }
  rewrite Nat.add_0_r. assert (∀ k, (k ≤ rf)%nat → countb (λ d, d <? rf)%nat (seq 0 k) = k) as Hk; [|by apply Hk].
  intros k. induction k as [|k IH]; [done|]. intros Hk. rewrite seq_S, countb_app, IH by lia. unfold countb. simpl.
  destruct (Nat.ltb_spec k rf); simpl; lia.
Qed.

(** Machine [m] holds shard [si] when it is less than [rf] places after it, around
    the circle of machines. *)
Definition distance (n m si : nat) : nat := ((m + n - si mod n) mod n)%nat.

Lemma distance_spec n m si k :
  (m < n)%nat → (k < n)%nat → ((si + k) mod n)%nat = m ↔ distance n m si = k.
Proof.
  intros Hm Hk. unfold distance. pose proof (Nat.mod_upper_bound si n ltac:(lia)) as Hr.
  rewrite <- Nat.Div0.add_mod_idemp_l. set (r := (si mod n)%nat) in *. split.
  - intros <-. destruct (Nat.lt_ge_cases (r + k) n) as [Hlt|Hge].
    + rewrite (Nat.mod_small (r + k)) by done. replace (r + k + n - r)%nat with (k + 1 * n)%nat by lia.
      rewrite Nat.Div0.mod_add, Nat.mod_small; lia.
    + replace (r + k)%nat with (r + k - n + 1 * n)%nat by lia. rewrite Nat.Div0.mod_add, (Nat.mod_small (r + k - n)) by lia.
      replace (r + k - n + n - r)%nat with k by lia. by rewrite Nat.mod_small.
  - intros <-. destruct (Nat.le_gt_cases r m) as [Hle|Hgt].
    + replace (m + n - r)%nat with (m - r + 1 * n)%nat by lia. rewrite Nat.Div0.mod_add, (Nat.mod_small (m - r)) by lia.
      replace (r + (m - r))%nat with m by lia. by rewrite Nat.mod_small.
    + rewrite (Nat.mod_small (m + n - r)) by lia. replace (r + (m + n - r))%nat with (m + 1 * n)%nat by lia.
      rewrite Nat.Div0.mod_add, Nat.mod_small; lia.
Qed.

Lemma holds_iff n rf si m :
  (m < n)%nat → (rf ≤ n)%nat → node_name m ∈ holders_of n rf si ↔ (distance n m si < rf)%nat.
Proof.
  intros Hm Hrf. unfold holders_of. rewrite list_elem_of_fmap. split.
  - intros (k & E%node_name_inj & Hk). apply elem_of_seq in Hk. symmetry in E.
    apply distance_spec in E; [|done|lia]. lia.
  - intros Hd. exists (distance n m si). split; [|apply elem_of_seq; lia]. f_equal. symmetry.
    apply distance_spec; [done|lia|done].
Qed.

Lemma distance_perm n m a : (m < n)%nat → distance n m <$> seq a n ≡ₚ seq 0 n.
Proof.
  intros Hm. apply submseteq_length_Permutation; [|by rewrite length_fmap, !length_seq].
  apply NoDup_submseteq.
  - apply NoDup_fmap_2_strong; [|apply NoDup_seq]. intros i j Hi Hj E. apply elem_of_seq in Hi, Hj.
    assert (distance n m i < n)%nat as Hd by (apply Nat.mod_upper_bound; lia).
    pose proof (proj2 (distance_spec n m i (distance n m i) Hm Hd) eq_refl) as E1.
    pose proof (proj2 (distance_spec n m j (distance n m i) Hm Hd) (eq_sym E)) as E2.
    assert (((a + distance n m i) + (i - a)) mod n = ((a + distance n m i) + (j - a)) mod n)%nat as E3.
    { replace (a + distance n m i + (i - a))%nat with (i + distance n m i)%nat by lia.
      replace (a + distance n m i + (j - a))%nat with (j + distance n m i)%nat by lia. congruence. }
    apply mod_shift_inj in E3; lia.
  - intros d (si & -> & _)%list_elem_of_fmap. apply elem_of_seq. split; [lia|].
    pose proof (Nat.mod_upper_bound (m + n - si mod n) n ltac:(lia)). unfold distance. lia.
Qed.

(** How many of the shards a machine holds. *)
Definition load (m : NodeID) (placed : list (ID * list NodeID)) : nat :=
  countb (λ x, bool_decide (m ∈ x.2)) placed.

Lemma load_window n rf m a k :
  (m < n)%nat → (rf ≤ n)%nat →
  load (node_name m) ((λ si, (shard_name si, holders_of n rf si)) <$> seq a k) =
  countb (λ si, distance n m si <? rf)%nat (seq a k).
Proof.
  intros Hm Hrf. unfold load. rewrite countb_fmap. apply countb_ext. intros si _. simpl.
  apply eq_true_iff_eq. rewrite bool_decide_eq_true, Nat.ltb_lt. by apply holds_iff.
Qed.

Lemma full_period n rf m a : (m < n)%nat → (rf ≤ n)%nat → countb (λ si, distance n m si <? rf)%nat (seq a n) = rf.
Proof.
  intros Hm Hrf. transitivity (countb (λ d, d <? rf)%nat (seq 0 n)); [|by apply countb_below].
  rewrite <- (countb_perm _ _ _ (distance_perm n m a Hm)). by rewrite countb_fmap.
Qed.

(** Placement.  A cluster is placed exactly when the replication factor is at
    least one and at most the number of machines.  Then the shards have distinct
    names, each has exactly [replicationFactor] different machines of the cluster, and
    the load is even: every machine holds [rf] shards of each full round of the
    machines, so between [rf * (nShards / nNodes)] and [rf] more. *)
Theorem NewPlacedCluster_even nShards nNodes rf :
  0 ≤ nShards →
  match NewPlacedCluster nShards nNodes rf with
  | inl _ => rf < 1 ∨ nNodes < rf
  | inr placed =>
      1 ≤ rf ≤ nNodes ∧ Z.of_nat (length placed) = nShards ∧ NoDup placed.*1 ∧
      (∀ sid hs, (sid, hs) ∈ placed → Z.of_nat (length hs) = rf ∧ NoDup hs ∧
         ∀ h, h ∈ hs → ∃ m, Z.of_nat m < nNodes ∧ h = node_name m) ∧
      (∀ m, Z.of_nat m < nNodes →
         rf * (nShards / nNodes) ≤ Z.of_nat (load (node_name m) placed) ≤ rf * (nShards / nNodes) + rf)
  end.
Proof.
  intros Hns. unfold NewPlacedCluster. destruct (Z.ltb_spec rf 1); [lia|]. destruct (Z.ltb_spec nNodes rf); [lia|].
  split; [lia|]. split; [rewrite length_fmap, length_seq; lia|]. split; [|split].
  - rewrite <- list_fmap_compose. apply NoDup_fmap_2; [|apply NoDup_seq]. intros i j. apply shard_name_inj.
  - intros sid hs (si & [= -> ->] & _)%list_elem_of_fmap. split; [unfold holders_of; rewrite length_fmap, length_seq; lia|].
    split; [apply holders_nodup; lia|]. intros h (k & -> & _)%list_elem_of_fmap. eexists. split; [|done].
    pose proof (Nat.mod_upper_bound (si + k) (Z.to_nat nNodes) ltac:(lia)). lia.
  - intros m Hm. rewrite load_window by lia.
    set (n := Z.to_nat nNodes) in *. set (r := Z.to_nat rf). set (k := Z.to_nat nShards).
    assert (∀ q a, countb (λ si, distance n m si <? r)%nat (seq a (q * n)) = (q * r)%nat) as Hq.
    { intros q. induction q as [|q IH]; intros a; [done|]. simpl. rewrite seq_app, countb_app, IH, full_period by lia. lia. }
    pose proof (Nat.div_mod k n ltac:(lia)) as Hk. pose proof (Nat.mod_upper_bound k n ltac:(lia)) as Hmod.
    replace k with (k / n * n + k mod n)%nat by lia. rewrite seq_app, countb_app, Hq.
    assert (countb (λ si, distance n m si <? r)%nat (seq (0 + k / n * n) (k mod n)) ≤ r)%nat as Hpart.
    { set (b := (0 + k / n * n)%nat). pose proof (full_period n r m b ltac:(lia) ltac:(lia)) as Hf.
      assert (seq b n = seq b (k mod n) ++ seq (b + k mod n) (n - k mod n)) as E by (rewrite <- seq_app; f_equal; lia).
      rewrite E, countb_app in Hf. lia. }
    assert (nShards / nNodes = Z.of_nat (k / n)) as ->.
    { rewrite Nat2Z.inj_div. f_equal; lia. }
    lia.
Qed.

Lemma NewPlacedCluster_even_witness :
  ∃ placed, NewPlacedCluster 10 9 3 = inr placed ∧
    ∀ m, Z.of_nat m < 9 → 3 ≤ Z.of_nat (load (node_name m) placed) ≤ 6.
Proof.
  pose proof (NewPlacedCluster_even 10 9 3 ltac:(lia)) as H.
  destruct (NewPlacedCluster 10 9 3) as [err|placed]; [lia|]. exists placed. split; [reflexivity|].
  destruct H as (_ & _ & _ & _ & Hload). intros m Hm. specialize (Hload m Hm).
  change (3 * (10 / 9)) with 3 in Hload. lia.
Defined.
