(* ===== verification/Heal.v ===== *)
(** * Repairing replication (src/sim/shardcluster.go, rereplicate.go, src/demo/heal.go)

    Which replica of a group counts as its leader, which shards are short of
    replicas, and the policy that replaces the replicas of dead machines.  Adding and
    removing a replica are configuration changes of the shard's Raft group; to the
    policy they are two operations on the world that may fail. *)

From S2P Require Import Prelude GoLib Ring RaftTypes RaftServer RaftRead Placement EventLog.

Local Open Scope Z_scope.

(** ** The leader of a group *)

Section Leader.
Context {SM St : Type}.

Definition leader_step (nodes : gmap NodeID (Server SM St)) (acc : NodeID * Z) (id : NodeID) : NodeID * Z :=
  let (best, bestTerm) := acc in
  match nodes !! id with
  | None => acc
  | Some srv =>
      if bool_decide (role srv ≠ Leader) then acc
      else if String.eqb best "" || (bestTerm <? currentTerm srv) then (id, currentTerm srv) else acc
  end.

Definition group_leader (ids : list NodeID) (nodes : gmap NodeID (Server SM St)) : NodeID :=
  (foldl (leader_step nodes) ("", 0) ids).1.

(** [id] is a member that says it leads, in term [t]. *)
Definition claims (nodes : gmap NodeID (Server SM St)) (id : NodeID) (t : Z) : Prop :=
  ∃ srv, nodes !! id = Some srv ∧ role srv = Leader ∧ currentTerm srv = t.

Lemma leader_loop nodes ids :
  "" ∉ ids →
  let (best, t) := foldl (leader_step nodes) ("", 0) ids in
  (best = "" → ∀ id t', id ∈ ids → ¬ claims nodes id t') ∧
  (best ≠ "" → best ∈ ids ∧ claims nodes best t ∧ ∀ id t', id ∈ ids → claims nodes id t' → t' ≤ t).
Proof.
  induction ids as [|id ids IH] using rev_ind; intros Hne; simpl.
  { split; [intros _ id t' Hin; by apply elem_of_nil in Hin|done]. }
  rewrite foldl_app. simpl. apply not_elem_of_app in Hne as [Hne Hid]. specialize (IH Hne).
  apply not_elem_of_cons in Hid as [Hid _].
  destruct (foldl (leader_step nodes) ("", 0) ids) as [best t]. destruct IH as [IH1 IH2]. unfold leader_step.
  assert (∀ x, x ∈ ids ++ [id] ↔ x ∈ ids ∨ x = id) as Hmem.
  { intros x. by rewrite elem_of_app, list_elem_of_singleton. }
  assert ((∀ t', ¬ claims nodes id t') →
    (best = "" → ∀ x t', x ∈ ids ++ [id] → ¬ claims nodes x t') ∧
    (best ≠ "" → best ∈ ids ++ [id] ∧ claims nodes best t ∧ ∀ x t', x ∈ ids ++ [id] → claims nodes x t' → t' ≤ t)) as Hskip.
  { intros Hno. split.
    - intros E x t' [Hx| ->]%Hmem; [by apply IH1|apply Hno].
    - intros E. destruct (IH2 E) as (H1 & H2 & H3). split; [apply Hmem; by left|]. split; [done|].
      intros x t' [Hx| ->]%Hmem Hc; [by eapply H3|by destruct (Hno t')]. }
  destruct (nodes !! id) as [srv|] eqn:En.
  2:{ apply Hskip. intros t' (srv & E & _). congruence. }
  case_bool_decide as Hr.
  { apply Hskip. intros t' (srv' & E & Hl & _). rewrite En in E. injection E as <-. done. }
  assert (claims nodes id (currentTerm srv)) as Hc by (by exists srv).
  assert (∀ t', claims nodes id t' → t' = currentTerm srv) as Huniq.
  { intros t' (srv' & E & _ & <-). rewrite En in E. by injection E as <-. }
  destruct (String.eqb_spec best "") as [->|Hb]; simpl.
  - split; [intros ->; by destruct Hid|]. intros _. split; [apply Hmem; by right|]. split; [done|].
    intros x t' [Hx| ->]%Hmem Hx'; [by destruct (IH1 eq_refl x t' Hx)|]. by rewrite (Huniq t' Hx').
  - destruct (IH2 Hb) as (H1 & H2 & H3). destruct (Z.ltb_spec t (currentTerm srv)).
    + split; [intros ->; by destruct Hid|]. intros _. split; [apply Hmem; by right|]. split; [done|].
      intros x t' [Hx| ->]%Hmem Hx'; [specialize (H3 x t' Hx Hx'); lia|]. by rewrite (Huniq t' Hx').
    + split; [done|]. intros _. split; [apply Hmem; by left|]. split; [done|].
      intros x t' [Hx| ->]%Hmem Hx'; [by eapply H3|]. by rewrite (Huniq t' Hx').
Qed.

(** The group's leader.  Among the members that say they lead, the one returned
    has the highest term, so a deposed leader that has not heard of its successor is
    never preferred to it; nothing is returned only if no member says it leads. *)
Theorem group_leader_newest ids (nodes : gmap NodeID (Server SM St)) :
  "" ∉ ids →
  (group_leader ids nodes = "" ↔ ∀ id t, id ∈ ids → ¬ claims nodes id t) ∧
  (group_leader ids nodes ≠ "" → group_leader ids nodes ∈ ids ∧
     ∃ t, claims nodes (group_leader ids nodes) t ∧ ∀ id t', id ∈ ids → claims nodes id t' → t' ≤ t).
Proof.
  intros Hne. pose proof (leader_loop nodes ids Hne) as Hl. unfold group_leader.
  destruct (foldl (leader_step nodes) ("", 0) ids) as [best t]. destruct Hl as [H1 H2]. simpl. split; [split; [done|]|].
  - intros Hno. destruct (String.eqb_spec best "") as [|Hb]; [done|]. destruct (H2 Hb) as (Hin & Hc & _).
    by destruct (Hno best t Hin).
  - intros Hb. destruct (H2 Hb) as (Hin & Hc & Hmax). split; [done|]. by exists t.
Qed.

End Leader.

Definition withoutNode (ids : list NodeID) (drop : NodeID) : list NodeID := filter (λ id, id ≠ drop) ids.

(** ** Shards short of replicas *)

Record UnderReplicated := mkUnderReplicated {
  u_Shard : ID;
  u_Live : Z;
  u_Configured : Z;
  u_Quorum : Z;
  u_Healable : bool;
  u_Dead : list NodeID;
  u_Spares : list NodeID
}.

Definition under_replicated (rf : Z) (nodes : nat) (crashed : gset NodeID) (sid : ID) (holders : list NodeID) :
    option UnderReplicated :=
  let dead := filter (λ h, h ∈ crashed) holders in
  let live := Z.of_nat (length (filter (λ h, h ∉ crashed) holders)) in
  if (length dead =? 0)%nat && (rf <=? Z.of_nat (length holders)) then None
  else
    let quorum := Z.of_nat (length holders) / 2 + 1 in
    let spares := filter (λ id, (id ∉ holders) ∧ (id ∉ crashed)) (node_name <$> seq 0 nodes) in
    Some (mkUnderReplicated sid live rf quorum (quorum <=? live) dead spares).

Definition UnderReplicatedShards (shards : list ID) (holders : ID → list NodeID) (rf : Z) (nodes : nat)
    (crashed : gset NodeID) : list UnderReplicated :=
  omap (λ sid, under_replicated rf nodes crashed sid (holders sid)) shards.

(** ** The policy *)

Record HealResult := mkHealResult {
  hr_Shard : ID;
  hr_Added : NodeID;
  hr_Removed : NodeID;
  hr_Skipped : string
}.

Definition raft_event (sid : ID) (node outcome text : string) : Event := mkEvent 0 "" KindRaft text "" sid node outcome.

Section Policy.
Context {W : Type}.
Variable AddReplica RemoveReplica : ID → NodeID → W → W * option string.

(** One round of the loop; the results and the events it logs. *)
Definition heal_one (u : UnderReplicated) (w : W) : W * list HealResult * list Event :=
  let sid := u_Shard u in
  if negb (u_Healable u) then
    let msg := "below quorum (" +:+ fmt_d (u_Live u) +:+ "/" +:+ fmt_d (u_Configured u) +:+ " live, need "
                 +:+ fmt_d (u_Quorum u) +:+ ") - cannot re-replicate without a majority to copy from; revive a machine holding it" in
    (w, [mkHealResult sid "" "" msg], [raft_event sid "" "refused" (sid +:+ " NOT healed: " +:+ msg)])
  else
    match u_Dead u, u_Spares u with
    | [], _ => (w, [], [])
    | _ :: _, [] =>
        let msg := "no spare machine available to hold a new replica" in
        (w, [mkHealResult sid "" "" msg], [raft_event sid "" "refused" (sid +:+ " NOT healed: " +:+ msg)])
    | dead :: _, spare :: _ =>
        match AddReplica sid spare w with
        | (w, Some err) =>
            (w, [mkHealResult sid "" "" err], [raft_event sid "" "refused" (sid +:+ " heal failed: " +:+ err)])
        | (w, None) =>
            let e1 := raft_event sid spare "ok" (sid +:+ " re-replicated onto " +:+ spare +:+ " (was " +:+ fmt_d (u_Live u)
                        +:+ "/" +:+ fmt_d (u_Configured u) +:+ " live)") in
            match RemoveReplica sid dead w with
            | (w, Some err) =>
                let skipped := "added " +:+ spare +:+ " but could not retire " +:+ dead +:+ ": " +:+ err in
                (w, [mkHealResult sid spare "" skipped], [e1; raft_event sid "" "" (sid +:+ ": " +:+ skipped)])
            | (w, None) =>
                (w, [mkHealResult sid spare dead ""],
                 [e1; raft_event sid dead "ok" (sid +:+ " retired dead replica " +:+ dead)])
            end
        end
    end.

Fixpoint heal_loop (us : list UnderReplicated) (w : W) : W * list HealResult * list Event :=
  match us with
  | [] => (w, [], [])
  | u :: us =>
      let '(w, rs, es) := heal_one u w in
      let '(w, rs', es') := heal_loop us w in
      (w, rs ++ rs', es ++ es')
  end.

Definition Heal (shards : list ID) (holders : ID → list NodeID) (rf : Z) (nodes : nat) (crashed : gset NodeID) (w : W) :
    W * list HealResult * list Event :=
  heal_loop (UnderReplicatedShards shards holders rf nodes crashed) w.

End Policy.

(** ** Properties *)

Lemma under_replicated_spec rf nodes crashed sid holders u :
  under_replicated rf nodes crashed sid holders = Some u →
  u_Shard u = sid ∧ u_Configured u = rf ∧
  (u_Healable u = true ↔ (length holders / 2 + 1 ≤ length (filter (λ h, h ∉ crashed) holders))%nat) ∧
  (∀ d, d ∈ u_Dead u ↔ d ∈ holders ∧ d ∈ crashed) ∧
  (∀ x, x ∈ u_Spares u ↔ (x ∉ holders) ∧ (x ∉ crashed) ∧ ∃ i, (i < nodes)%nat ∧ x = node_name i).
Proof.
  unfold under_replicated. destruct (_ && _); [done|]. intros [= <-]. cbn [u_Shard u_Configured u_Healable u_Dead u_Spares].
  split; [done|]. split; [done|]. split; [|split].
  - rewrite Z.leb_le. change 2 with (Z.of_nat 2). rewrite <- Nat2Z.inj_div. lia.
  - intros d. rewrite list_elem_of_filter. tauto.
  - intros x. rewrite list_elem_of_filter, list_elem_of_fmap. split.
    + intros ([? ?] & i & -> & Hi). apply elem_of_seq in Hi. split; [done|]. split; [done|]. exists i. split; [lia|done].
    + intros (? & ? & i & Hi & ->). split; [done|]. exists i. split; [done|]. apply elem_of_seq. lia.
Qed.

(** What the policy did: every call, and whether it succeeded. *)
Inductive action := Added (sid : ID) (n : NodeID) (ok : bool) | Removed (sid : ID) (n : NodeID) (ok : bool).

Definition logged {W} (act : ID → NodeID → bool → action) (f : ID → NodeID → W → W * option string) :
    ID → NodeID → W * list action → (W * list action) * option string :=
  λ sid n wt, let (w', err) := f sid n wt.1 in
    ((w', wt.2 ++ [act sid n (match err with None => true | Some _ => false end)]), err).

(** The calls one shard may cause. *)
Inductive repair (u : UnderReplicated) : list action → Prop :=
  | repair_none : (u_Healable u = false ∨ u_Dead u = [] ∨ u_Spares u = []) → repair u []
  | repair_failed dead ds spare ss :
      u_Healable u = true → u_Dead u = dead :: ds → u_Spares u = spare :: ss →
      repair u [Added (u_Shard u) spare false]
  | repair_done dead ds spare ss ok :
      u_Healable u = true → u_Dead u = dead :: ds → u_Spares u = spare :: ss →
      repair u [Added (u_Shard u) spare true; Removed (u_Shard u) dead ok].

Lemma heal_one_repair {W} (add rem : ID → NodeID → W → W * option string) u w tr :
  let '((w', tr'), rs, es) := heal_one (logged Added add) (logged Removed rem) u (w, tr) in
  (∃ acts, tr' = tr ++ acts ∧ repair u acts) ∧
  (rs = [] ↔ u_Healable u = true ∧ u_Dead u = []) ∧ (length rs ≤ 1)%nat ∧ (∀ r, r ∈ rs → hr_Shard r = u_Shard u).
Proof.
  unfold heal_one. destruct (u_Healable u) eqn:Eh; simpl.
  2:{ split; [exists []; rewrite app_nil_r; split; [done|by constructor; left]|].
      split; [by split; [|intros [? _]]|]. split; [lia|]. by intros r ->%list_elem_of_singleton. }
  destruct (u_Dead u) as [|dead ds] eqn:Ed; simpl.
  { split; [exists []; rewrite app_nil_r; split; [done|constructor; auto]|]. split; [done|]. split; [lia|].
    by intros r Hr%elem_of_nil. }
  destruct (u_Spares u) as [|spare ss] eqn:Es; simpl.
  { split; [exists []; rewrite app_nil_r; split; [done|constructor; auto]|].
    split; [by split; [|intros [_ ?]]|]. split; [lia|]. by intros r ->%list_elem_of_singleton. }
  unfold logged at 1. simpl. destruct (add (u_Shard u) spare w) as [w1 [err|]]; simpl.
  { split; [eexists; split; [done|by eapply repair_failed]|].
    split; [by split; [|intros [_ ?]]|]. split; [lia|]. by intros r ->%list_elem_of_singleton. }
  unfold logged. simpl. destruct (rem (u_Shard u) dead w1) as [w2 [err|]]; simpl; rewrite <- app_assoc; simpl;
    (split; [eexists; split; [done|by eapply repair_done]|]);
    (split; [by split; [|intros [_ ?]]|]); (split; [lia|]); by intros r ->%list_elem_of_singleton.
Qed.

(** Repair never loses redundancy.  Whatever the operations do, the calls of
    [Heal] are, shard by shard in order: nothing for a shard without a live
    majority, without a dead replica or without a spare machine; otherwise one
    addition on a live machine that holds no replica, and only if it succeeded, the
    removal of one replica on a dead machine.  A shard that is short of replicas
    gets exactly one result, except one that has no dead replica, which gets none. *)
Theorem Heal_add_before_remove {W} (add rem : ID → NodeID → W → W * option string) shards holders rf nodes crashed w :
  let us := UnderReplicatedShards shards holders rf nodes crashed in
  let '((w', tr), rs, es) := Heal (logged Added add) (logged Removed rem) shards holders rf nodes crashed (w, []) in
  (∃ actss, tr = concat actss ∧ Forall2 repair us actss) ∧
  hr_Shard <$> rs = u_Shard <$> filter (λ u, ¬ (u_Healable u = true ∧ u_Dead u = [])) us ∧
  (∀ u, u ∈ us →
     (u_Healable u = true ↔
        (length (holders (u_Shard u)) / 2 + 1 ≤ length (filter (λ h, h ∉ crashed) (holders (u_Shard u))))%nat) ∧
     (∀ d, d ∈ u_Dead u → d ∈ holders (u_Shard u) ∧ d ∈ crashed) ∧
     (∀ x, x ∈ u_Spares u → (x ∉ holders (u_Shard u)) ∧ (x ∉ crashed))).
Proof.
  intros us. unfold Heal. fold us.
  assert (∀ us w tr0, let '((w', tr), rs, es) := heal_loop (logged Added add) (logged Removed rem) us (w, tr0) in
    (∃ actss, tr = tr0 ++ concat actss ∧ Forall2 repair us actss) ∧
    hr_Shard <$> rs = u_Shard <$> filter (λ u, ¬ (u_Healable u = true ∧ u_Dead u = [])) us) as Hloop.
  { clear us. intros us. induction us as [|u us IH]; intros w0 tr0; simpl.
    { split; [exists []; by rewrite app_nil_r|done]. }
    pose proof (heal_one_repair add rem u w0 tr0) as H1.
    destruct (heal_one _ _ u (w0, tr0)) as [[[w1 tr1] rs] es]. destruct H1 as ((acts & -> & Ha) & Hnil & Hlen & Hrs).
    specialize (IH w1 (tr0 ++ acts)). destruct (heal_loop _ _ us _) as [[[w2 tr2] rs'] es'].
    destruct IH as [(actss & -> & Hf) Hrs']. split.
    { exists (acts :: actss). simpl. rewrite app_assoc. split; [done|by constructor]. }
    rewrite fmap_app, Hrs'. destruct (decide (u_Healable u = true ∧ u_Dead u = [])) as [Hu|Hu].
    - rewrite filter_cons_False by tauto. by rewrite (proj2 Hnil Hu).
    - rewrite filter_cons_True by done. destruct rs as [|r rs]; [by destruct Hu; apply Hnil|].
      destruct rs; simpl in Hlen; [|lia]. simpl. by rewrite (Hrs r) by by left. }
  specialize (Hloop us w []). destruct (heal_loop _ _ us (w, [])) as [[[w' tr] rs] es]. destruct Hloop as [H1 H2].
  split; [done|]. split; [done|]. intros u (sid & Hsid & Hu)%list_elem_of_omap.
  destruct (under_replicated_spec _ _ _ _ _ _ Hu) as (-> & _ & Hh & Hd & Hs). split; [done|].
  split; [intros d; apply Hd|]. intros x Hx%Hs. tauto.
Qed.

(** What a completed repair leaves.  Replacing a dead holder by a live spare keeps
    the number of replicas and raises the number of live ones by one. *)
Theorem repair_keeps_factor holders (crashed : gset NodeID) dead spare :
  NoDup holders → dead ∈ holders → dead ∈ crashed → spare ∉ holders → spare ∉ crashed →
  let next := withoutNode (holders ++ [spare]) dead in
  NoDup next ∧ length next = length holders ∧
  length (filter (λ h, h ∉ crashed) next) = S (length (filter (λ h, h ∉ crashed) holders)).
Proof.
  intros Hnd Hd Hdc Hs Hsc. unfold withoutNode. rewrite filter_app.
  assert (spare ≠ dead) as Hne by (intros ->; done). rewrite (filter_cons_True _ spare) by done. cbn [filter].
  destruct (elem_of_Permutation holders dead) as [Hp _]. destruct (Hp Hd) as [l Hl]. clear Hp.
  assert ((dead ∉ l) ∧ NoDup l) as [Hdl Hndl] by (by rewrite Hl in Hnd; apply NoDup_cons in Hnd).
  assert (filter (λ h, h ≠ dead) holders ≡ₚ l) as Hf.
  { rewrite Hl, filter_cons_False by (intros Hn; by apply Hn). clear -Hdl.
    induction l as [|x l IH]; [done|]. apply not_elem_of_cons in Hdl as [Hx Hdl].
    rewrite filter_cons_True by congruence. by rewrite (IH Hdl). }
  assert (spare ∉ l) as Hsl by (intros Hx; apply Hs; rewrite Hl; by right).
  split; [|split].
  - rewrite Hf. apply NoDup_app. split; [done|]. split; [|by apply NoDup_singleton].
    intros x Hx ->%list_elem_of_singleton. done.
  - rewrite length_app, (Permutation_length Hf), (Permutation_length Hl). simpl. lia.
  - rewrite filter_app, length_app, (filter_cons_True _ spare) by done.
    rewrite (Permutation_length (filter_Permutation _ _ _ Hf)), (Permutation_length (filter_Permutation (λ h, h ∉ crashed) _ _ Hl)).
    rewrite filter_cons_False by auto. simpl. lia.
Qed.

(** ** Witnesses: a deposed leader, and a repair *)

Definition claimant (term : Z) : Server unit unit := set_role Leader (set_currentTerm term (NewServer "x" [] None)).

Lemma group_leader_newest_witness :
  group_leader ["n1"; "n2"; "n3"] {["n1" := claimant 3; "n2" := NewServer "n2" [] None; "n3" := claimant 5]} = "n3" ∧
  ∃ t, claims {["n1" := claimant 3; "n2" := NewServer "n2" [] None; "n3" := claimant 5]} "n3" t ∧
    ∀ id t', id ∈ ["n1"; "n2"; "n3"] →
      claims {["n1" := claimant 3; "n2" := NewServer "n2" [] None; "n3" := claimant 5]} id t' → t' ≤ t.
Proof.
  split; [vm_compute; reflexivity|].
  refine (proj2 (proj2 (group_leader_newest ["n1"; "n2"; "n3"]
    {["n1" := claimant 3; "n2" := NewServer "n2" [] None; "n3" := claimant 5]} _) _)).
  - apply (bool_decide_unpack _). vm_compute. exact I.
  - vm_compute. discriminate.
Defined.

Lemma repair_keeps_factor_witness :
  let next := withoutNode (["node-1"; "node-2"; "node-3"] ++ ["node-4"]) "node-2" in
  length next = 3%nat ∧ length (filter (λ h, h ∉ ({["node-2"]} : gset NodeID)) next) = 3%nat.
Proof.
  destruct (repair_keeps_factor ["node-1"; "node-2"; "node-3"] {["node-2"]} "node-2" "node-4") as (_ & H1 & H2);
    [apply (bool_decide_unpack _); vm_compute; exact I..|]. split; [exact H1|]. rewrite H2. reflexivity.
Defined.
