(* ===== verification/Rereplicate.v ===== *)
(** * Adding and removing replicas of a running shard (src/sim/rereplicate.go, shardcluster.go)

    [g_servers] is the store of the group's servers, those the network can reach;
    [g_Nodes] is the set of keys of the group's own table.  Both operations wait for
    their configuration entry between two definitions; whatever the servers do
    meanwhile happens to the store in between. *)

From S2P Require Import Prelude GoLib Ring Storage RaftTypes RaftLog RaftCodec RaftServer RaftLoop RaftNode RaftCommit RaftDisk ShardNode Heal.
From S2P Require ShardMachine Ledger.

Local Open Scope Z_scope.

Record ShardGroup := mkShardGroup {
  g_ID : ID;
  g_IDs : list NodeID;
  g_Nodes : gset NodeID;
  g_servers : gmap NodeID replica
}.

Definition simConfig : Config := mkConfig 250 500 40.

(** The table of the group: what the store holds under its keys. *)
Definition table (g : ShardGroup) : gmap NodeID replica := filter (λ kv, kv.1 ∈ g_Nodes g) (g_servers g).

Definition sg_leader (g : ShardGroup) : NodeID := group_leader (g_IDs g) (table g).

Definition set_server (n : NodeID) (s : replica) (g : ShardGroup) : ShardGroup :=
  mkShardGroup (g_ID g) (g_IDs g) (g_Nodes g) (<[n:=s]> (g_servers g)).

Definition stop_server (n : NodeID) (g : ShardGroup) : ShardGroup :=
  match g_servers g !! n with Some s => set_server n (Stop s) g | None => g end.

(** A replica that holds nothing, started. *)
Definition new_replica (env : Env) (sid : ID) (nid : NodeID) (peers : list NodeID) : replica :=
  Start env (NewServerWith nid peers (Some (ShardMachine.NewMachine sid Ledger.New)) SnapshotCapable simConfig).

(** [AddReplica] up to the wait: an error, or the leader, the index to wait for and
    the membership to install. *)
Definition add_begin (env : Env) (nid : NodeID) (ch : nat) (g : ShardGroup) :
    ShardGroup * (string + (NodeID * Z * list NodeID)) :=
  let sid := g_ID g in
  if bool_decide (nid ∈ g_Nodes g) then (g, inl ("sim: " +:+ nid +:+ " already holds a replica of " +:+ sid))
  else
    let leaderID := sg_leader g in
    if String.eqb leaderID "" then
      (g, inl ("sim: shard " +:+ sid +:+ " has no leader; a shard below quorum cannot be re-replicated because there is no majority to copy committed entries from"))
    else
      match table g !! leaderID with
      | None => (g, inl ("sim: shard " +:+ sid +:+ " leader " +:+ leaderID +:+ " vanished mid-heal"))
      | Some leader =>
          let peers := g_IDs g ++ [nid] in
          let g := set_server nid (new_replica env sid nid peers) g in
          match AddServer nid leader with
          | (leader, inl err) =>
              (stop_server nid (set_server leaderID leader g), inl ("sim: adding " +:+ nid +:+ " to " +:+ sid +:+ ": " +:+ err))
          | (leader, inr idx) => (set_server leaderID (WaitApplied idx ch leader) g, inr (leaderID, idx, peers))
          end
      end.

(** After the wait; [applied] says which channel fired. *)
Definition add_end (applied : bool) (nid : NodeID) (peers : list NodeID) (g : ShardGroup) : ShardGroup * option string :=
  if applied then (mkShardGroup (g_ID g) peers ({[nid]} ∪ g_Nodes g) (g_servers g), None)
  else
    (stop_server nid g,
     Some ("sim: adding " +:+ nid +:+ " to " +:+ g_ID g +:+ ": configuration change did not commit within 3s; the shard has no majority to accept it")).

Definition remove_begin (nid : NodeID) (ch : nat) (g : ShardGroup) : ShardGroup * (string + (NodeID * Z)) :=
  let sid := g_ID g in
  if negb (bool_decide (nid ∈ g_Nodes g)) then (g, inl ("sim: " +:+ nid +:+ " holds no replica of " +:+ sid))
  else
    let leaderID := sg_leader g in
    if String.eqb leaderID "" then
      (g, inl ("sim: shard " +:+ sid +:+ " has no leader; cannot change configuration"))
    else
      match table g !! leaderID with
      | None => (g, inl ("sim: shard " +:+ sid +:+ " leader " +:+ leaderID +:+ " vanished mid-change"))
      | Some leader =>
          match RemoveServer nid leader with
          | (leader, inl err) =>
              (set_server leaderID leader g, inl ("sim: removing " +:+ nid +:+ " from " +:+ sid +:+ ": " +:+ err))
          | (leader, inr idx) => (set_server leaderID (WaitApplied idx ch leader) g, inr (leaderID, idx))
          end
      end.

Definition remove_end (applied : bool) (nid : NodeID) (g : ShardGroup) : ShardGroup * option string :=
  if applied then
    let g := if bool_decide (nid ∈ g_Nodes g) then stop_server nid g else g in
    (mkShardGroup (g_ID g) (withoutNode (g_IDs g) nid) (g_Nodes g ∖ {[nid]}) (g_servers g), None)
  else
    (g, Some ("sim: removing " +:+ nid +:+ " from " +:+ g_ID g +:+ ": configuration change did not commit within 3s")).

(** [Holders] *)
Definition Holders (g : ShardGroup) : list NodeID := g_IDs g.

(** [replicaSeed], in 64 bits. *)
Definition replicaSeed (sid : ID) (nid : NodeID) : Z :=
  let h := foldl (λ h b, i64 (Z.lxor h (byte_Z b) * 1099511628211)) 1469598103934665603 (str_bytes (sid +:+ "|" +:+ nid)) in
  if h <? 0 then i64 (- h) else h.

(** ** Properties *)

Lemma stop_server_lookup n g s :
  g_servers g !! n = Some s → running s = true → ∃ s', g_servers (stop_server n g) !! n = Some s' ∧ stopped s' = true.
Proof.
  intros Hs Hr. unfold stop_server. rewrite Hs. eexists. simpl. rewrite lookup_insert_eq. split; [done|].
  unfold Stop. by rewrite Hr.
Qed.

(** Replicas come and go whole.  [AddReplica] changes the group's membership only
    when its configuration entry was applied, and then by exactly the new machine;
    whenever it fails after building a replica, the replica is stopped; a group none
    of whose members says it leads is left exactly as it was.  [RemoveReplica]
    likewise removes exactly the named machine and stops its server. *)
Theorem replica_changes env nid ch (g : ShardGroup) :
  nid ∉ g_Nodes g → sg_leader g ≠ nid →
  (let (g', r) := add_begin env nid ch g in
   g_IDs g' = g_IDs g ∧ g_Nodes g' = g_Nodes g ∧
   (sg_leader g = "" → g' = g) ∧
   match r with
   | inl _ => g' = g ∨ ∃ s, g_servers g' !! nid = Some s ∧ stopped s = true
   | inr (leader, idx, peers) =>
       leader = sg_leader g ∧ peers = g_IDs g ++ [nid] ∧
       (∃ s, g_servers g' !! nid = Some s ∧ running s = true ∧ log s = [zeroEntry]) ∧
       (add_end true nid peers g').1 = mkShardGroup (g_ID g') (g_IDs g ++ [nid]) ({[nid]} ∪ g_Nodes g) (g_servers g') ∧
       ∃ s, g_servers (add_end false nid peers g').1 !! nid = Some s ∧ stopped s = true
   end) ∧
  (∀ n, g_IDs (remove_end true n g).1 = withoutNode (g_IDs g) n ∧ (n ∉ g_Nodes (remove_end true n g).1) ∧
     (remove_end false n g).1 = g).
Proof.
  intros Hn Hl. split.
  - unfold add_begin. rewrite bool_decide_eq_false_2 by done.
    destruct (String.eqb_spec (sg_leader g) "") as [E|E]; [split_and!; try done; by left|].
    destruct (table g !! sg_leader g) as [leader|]; [|split_and!; try done; by left].
    set (r := new_replica env (g_ID g) nid (g_IDs g ++ [nid])). set (g1 := set_server nid r g).
    destruct (AddServer nid leader) as [leader' [err|idx]].
    + assert (g_servers (set_server (sg_leader g) leader' g1) !! nid = Some r) as Hr.
      { simpl. rewrite lookup_insert_ne, lookup_insert_eq by done. done. }
      destruct (stop_server_lookup nid _ r Hr eq_refl) as (s & Hs & Hst).
      unfold stop_server in *. rewrite Hr in *. split_and!; try done. right. by exists s.
    + assert (g_servers (set_server (sg_leader g) (WaitApplied idx ch leader') g1) !! nid = Some r) as Hr.
      { simpl. rewrite lookup_insert_ne, lookup_insert_eq by done. done. }
      split_and!; try done; [by exists r|]. unfold add_end. by apply (stop_server_lookup nid _ r).
  - intros n. unfold remove_end. split_and!; try done.
    + by case_bool_decide; [unfold stop_server; destruct (g_servers g !! n)|].
    + case_bool_decide; [unfold stop_server; destruct (g_servers g !! n)|]; simpl;
        rewrite elem_of_difference; intros [_ Hx]; by apply Hx, elem_of_singleton.
Qed.

(** ** A repair that times out *)

Definition three_nodes : list NodeID := ["n1"; "n2"; "n3"].

Definition led_group : ShardGroup :=
  mkShardGroup "s2" three_nodes (list_to_set three_nodes)
    {["n1" := s2_replica; "n2" := shard_server "s2" "n2" three_nodes; "n3" := shard_server "s2" "n3" three_nodes]}.

(** The addition of n4 is appended, nobody acknowledges it in time. *)
Definition timed_out_group : ShardGroup := (add_end false "n4" ["n1"; "n2"; "n3"; "n4"] (add_begin env0 "n4" 7 led_group).1).1.

(** The acknowledgements of n2 and n3 arrive afterwards, so the entry commits. *)
Definition acked_late : ShardGroup :=
  match g_servers timed_out_group !! "n1" with
  | None => timed_out_group
  | Some s =>
      let ack p := OpReplicateReply env0 p 1 (mkAppendEntries 1 "n1" 2 1 (drop 3 (log s)) 2) (mkAppendEntriesReply 1 true) in
      set_server "n1" (step_all [ack "n2"; ack "n3"] s) timed_out_group
  end.

(** A repair that times out is not undone.  The replica is stopped and the group's
    own membership is what it was, but the leader's configuration has grown on append:
    until the entry commits every further change is refused, and once it commits the
    stopped machine is a member for good that counts toward the majority, is in no table
    of the group, and cannot be added again. *)
Theorem failed_heal_sticks :
  snd (add_begin env0 "n4" 7 led_group) = inr ("n1", 3, ["n1"; "n2"; "n3"; "n4"]) ∧
  g_IDs timed_out_group = three_nodes ∧
  (λ s, (peers s, majority s)) <$> (g_servers timed_out_group !! "n1") = Some (["n1"; "n2"; "n3"; "n4"], 3%nat) ∧
  stopped <$> (g_servers timed_out_group !! "n4") = Some true ∧
  (add_begin env0 "n5" 8 timed_out_group).2 =
    inl ("sim: adding n5 to s2: raft: a configuration change is already in progress") ∧
  commitIndex <$> (g_servers acked_late !! "n1") = Some 3 ∧ Holders acked_late = three_nodes ∧
  (add_begin env0 "n4" 8 acked_late).2 = inl "sim: adding n4 to s2: raft: n4 is already in the configuration".
Proof. split_and!; vm_compute; reflexivity. Qed.

Lemma replica_changes_witness :
  ∃ g' leader idx peers, add_begin env0 "n4" 7 led_group = (g', inr (leader, idx, peers)) ∧
    g_IDs g' = g_IDs led_group ∧ peers = g_IDs led_group ++ ["n4"].
Proof.
  assert ("n4" ∉ g_Nodes led_group) as H1 by (apply (bool_decide_unpack _); vm_compute; exact I).
  assert (sg_leader led_group ≠ "n4") as H2 by (vm_compute; discriminate).
  assert ((add_begin env0 "n4" 7 led_group).2 = inr ("n1", 3, ["n1"; "n2"; "n3"; "n4"])) as Hr by (vm_compute; reflexivity).
  revert H1 H2 Hr. generalize led_group. intros g H1 H2 Hr.
  destruct (replica_changes env0 "n4" 7 g H1 H2) as [Hadd _]. destruct (add_begin env0 "n4" 7 g) as [g' r].
  simpl in Hr. subst r.
  destruct Hadd as (Hids & _ & _ & _ & Hp & _). exists g', "n1", 3, ["n1"; "n2"; "n3"; "n4"].
  split; [reflexivity|]. split; [exact Hids|exact Hp].
Defined.
