(* ===== verification/SimShards.v ===== *)
(** * Simulated sharded clusters (src/sim/shardcluster.go, colocated.go, shardcluster_storage.go)

    Several Raft groups in one process, with the ring and the coordinator over them.
    [Propose] waits for its entry; what the servers of the group do meanwhile is the
    next element of the script, as for the network group.  The two locked reads of
    [leader] and [snapshot] are one.  A group that does not exist is a nil pointer:
    the coordinator never asks for one. *)

From S2P Require Import Prelude GoLib GoRunes Hlc Ledger Ring TwoPC ShardMachine Coordinator Storage.
From S2P Require Import RaftTypes RaftLog RaftCodec RaftServer RaftLoop RaftSnapshot RaftRead RaftNode RaftCommit RaftDisk.
From S2P Require Import ShardNode Placement Heal Rereplicate SimCluster.

Local Open Scope Z_scope.

(** What happens during a wait: operations of the group's servers, and whether the
    timer is the channel that is received from. *)
Record sim_wait := mkSimWait { sw_ops : list (NodeID * op); sw_expired : bool }.

Record ShardCluster := mkShardCluster {
  shc_Ring : Ring;
  shc_Groups : gmap ID ShardGroup;
  shc_Coordinator : Coordinator;
  shc_script : list sim_wait;
  shc_chan : nat
}.

Definition set_group (s : ID) (g : ShardGroup) (w : ShardCluster) : ShardCluster :=
  mkShardCluster (shc_Ring w) (<[s:=g]> (shc_Groups w)) (shc_Coordinator w) (shc_script w) (shc_chan w).

Definition advance (w : ShardCluster) : ShardCluster :=
  mkShardCluster (shc_Ring w) (shc_Groups w) (shc_Coordinator w) (tail (shc_script w)) (S (shc_chan w)).

(** ** ShardGroup: the interface of the coordinator *)

Definition sim_no_leader (s : ID) : error := Plain ("sim: shard " +:+ s +:+ " has no leader").
Definition sim_gone (s : ID) (n : NodeID) : error := Plain ("sim: shard " +:+ s +:+ " leader " +:+ n +:+ " is no longer a member").
Definition sim_lost (s : ID) : error := Plain ("sim: shard " +:+ s +:+ " lost leadership mid-propose").
Definition sim_timeout (s : ID) (idx : Z) : error :=
  Plain ("sim: shard " +:+ s +:+ " timed out applying entry " +:+ fmt_d idx).

Definition sim_machine_of (sid : ID) (r : replica) : Machine := default (NewMachine sid Ledger.New) (sm r).

(** The goroutines of the group's servers; a server that is not registered does
    nothing. *)
Definition group_op (g : ShardGroup) (x : NodeID * op) : ShardGroup :=
  match g_servers g !! x.1 with
  | None => g
  | Some r => match exec x.2 r with Ok (r', _) => set_server x.1 r' g | Panic r' => set_server x.1 r' g end
  end.

(** The [select] at the end, on the server the entry was submitted to. *)
Definition sim_end (sid : ID) (leader : NodeID) (idx : Z) (ch : nat) (expired : bool) (g : ShardGroup) : Result * bool * option error :=
  match g_servers g !! leader with
  | None => (zeroResult, false, None)
  | Some r =>
      if bool_decide (ch ∈ closedChans r) && negb expired then (AppliedResult (sim_machine_of sid r) idx, true, None)
      else if bool_decide (role r ≠ Leader) then (zeroResult, false, Some (sim_lost sid))
      else (zeroResult, true, Some (sim_timeout sid idx))
  end.

Definition sim_propose (s : ID) (cmd : Command) (timeout : Z) (w : ShardCluster) :
    ShardCluster * (Result * bool * option error) :=
  match shc_Groups w !! s with
  | None => (w, (zeroResult, false, None))
  | Some g =>
      let leader := sg_leader g in
      if String.eqb leader "" then (w, (zeroResult, false, Some (sim_no_leader s)))
      else
        match table g !! leader with
        | None => (w, (zeroResult, false, Some (sim_gone s leader)))
        | Some r =>
            match Submit (Some (TwoPC.Encode cmd)) r with
            | Panic r' => (set_group s (set_server leader r' g) w, (zeroResult, false, None))
            | Ok (r', (idx, _, ok)) =>
                if negb ok then (set_group s (set_server leader r' g) w, (zeroResult, false, None))
                else
                  let g := set_server leader (WaitApplied idx (shc_chan w) r') g in
                  let wt := default (mkSimWait [] false) (head (shc_script w)) in
                  let g := foldl group_op g (sw_ops wt) in
                  (set_group s g (advance w), sim_end s leader idx (shc_chan w) (sw_expired wt) g)
            end
        end
  end.

(** [Machine]: the leader's, or the first member's. *)
Definition sim_machine (s : ID) (w : ShardCluster) : Machine :=
  default (NewMachine s Ledger.New) (
    g ← shc_Groups w !! s;
    let leader := sg_leader g in
    nid ← (if String.eqb leader "" then head (g_IDs g) else Some leader);
    r ← table g !! nid;
    sm r).

Definition sim_IsLeader (s : ID) (w : ShardCluster) : bool :=
  match shc_Groups w !! s with Some g => negb (String.eqb (sg_leader g) "") | None => false end.

#[global] Instance sim_group : Group ShardCluster := {|
  Propose := sim_propose;
  MachineOf := sim_machine;
  IsLeader := sim_IsLeader
|}.

(** ** Building a cluster *)

(** A member of a group: its own machine, over the files that [open_files] gives. *)
Definition sim_server (open_files : NodeID → option disk) (sid : ID) (ids : list NodeID) (nid : NodeID) : replica :=
  let r := NewServerWith nid ids (Some (NewMachine sid Ledger.New)) SnapshotCapable simConfig in
  match open_files nid with Some d => SetStorage d r | None => r end.

Definition sim_group_of (open_files : NodeID → option disk) (sid : ID) (ids : list NodeID) : ShardGroup :=
  mkShardGroup sid ids (list_to_set ids) (list_to_map ((λ n, (n, sim_server open_files sid ids n)) <$> ids)).

(** [members sid] are the ids of the shard's group. *)
Definition build `{SortSlice} (open_files : NodeID → option disk) (members : ID → list NodeID) (shardIDs : list ID) : ShardCluster :=
  let ring := NewRing shardIDs (Z.of_nat DefaultVNodes) in
  mkShardCluster ring (list_to_map ((λ sid, (sid, sim_group_of open_files sid (members sid))) <$> shardIDs))
    (NewCoordinator ring (list_to_set shardIDs)) [] 0.

Definition shard_member (sid : ID) (j : nat) : NodeID := sid +:+ "-n" +:+ fmt_d (Z.of_nat j + 1).

Definition NewShardCluster `{SortSlice} (nShards nPerShard : nat) : ShardCluster :=
  build (λ _, None) (λ sid, shard_member sid <$> List.seq 0 nPerShard) (shard_name <$> List.seq 0 nShards).

Definition NewColocatedCluster `{SortSlice} (nShards nNodes : nat) : ShardCluster :=
  build (λ _, None) (λ _, node_name <$> List.seq 0 nNodes) (shard_name <$> List.seq 0 nShards).

(** [files nid] is what the node's two files hold. *)
Definition NewShardClusterWithStorage `{SortSlice} (files : NodeID → disk) (nShards nPerShard : nat) : ShardCluster :=
  build (λ nid, Some (files nid)) (λ sid, shard_member sid <$> List.seq 0 nPerShard) (shard_name <$> List.seq 0 nShards).

(** *** Placed on machines (placement.go)

    Every replica has its own two files; [open_files] is what the system answers for
    a base name. *)
Definition placed_base (dir : string) (sid : ID) (nid : NodeID) : string := Join dir (nid +:+ "." +:+ sid).

Definition placed_server (open_files : string → string + disk) (dir : string) (sid : ID) (holders : list NodeID) (nid : NodeID) :
    string + replica :=
  let srv := NewServerWith nid holders (Some (NewMachine sid Ledger.New)) SnapshotCapable simConfig in
  if String.eqb dir "" then inr srv
  else
    match open_files (placed_base dir sid nid) with
    | inl err => inl ("sim: open applied file for " +:+ nid +:+ "/" +:+ sid +:+ ": " +:+ err)
    | inr d => inr (SetStorage d srv)
    end.

Fixpoint placed_servers (open_files : string → string + disk) (dir : string) (sid : ID) (holders ids : list NodeID) :
    string + list (NodeID * replica) :=
  match ids with
  | [] => inr []
  | nid :: ids =>
      match placed_server open_files dir sid holders nid with
      | inl err => inl err
      | inr srv =>
          match placed_servers open_files dir sid holders ids with
          | inl err => inl err
          | inr srvs => inr ((nid, srv) :: srvs)
          end
      end
  end.

Fixpoint placed_groups (open_files : string → string + disk) (dir : string) (placed : list (ID * list NodeID)) :
    string + list (ID * ShardGroup) :=
  match placed with
  | [] => inr []
  | (sid, holders) :: placed =>
      match placed_servers open_files dir sid holders holders with
      | inl err => inl err
      | inr srvs =>
          match placed_groups open_files dir placed with
          | inl err => inl err
          | inr groups => inr ((sid, mkShardGroup sid holders (list_to_set holders) (list_to_map srvs)) :: groups)
          end
      end
  end.

Definition NewPlacedClusterWithStorage `{SortSlice} (open_files : string → string + disk)
    (nShards nNodes replicationFactor : Z) (dir : string) : string + ShardCluster :=
  match NewPlacedCluster nShards nNodes replicationFactor with
  | inl err => inl err
  | inr placed =>
      match placed_groups open_files dir placed with
      | inl err => inl err
      | inr groups =>
          let ring := NewRing placed.*1 (Z.of_nat DefaultVNodes) in
          inr (mkShardCluster ring (list_to_map groups) (NewCoordinator ring (list_to_set placed.*1)) [] 0)
      end
  end.

(** *** Replicas by shard (rereplicate.go) *)

Definition AddReplica_begin (env : Env) (sid : ID) (nid : NodeID) (ch : nat) (w : ShardCluster) :
    ShardCluster * (string + (NodeID * Z * list NodeID)) :=
  match shc_Groups w !! sid with
  | None => (w, inl ("sim: unknown shard " +:+ sid))
  | Some g => let (g, r) := add_begin env nid ch g in (set_group sid g w, r)
  end.

Definition RemoveReplica_begin (sid : ID) (nid : NodeID) (ch : nat) (w : ShardCluster) :
    ShardCluster * (string + (NodeID * Z)) :=
  match shc_Groups w !! sid with
  | None => (w, inl ("sim: unknown shard " +:+ sid))
  | Some g => let (g, r) := remove_begin nid ch g in (set_group sid g w, r)
  end.

(** ** Operations on the whole cluster *)

Definition on_members (f : replica → replica) (g : ShardGroup) : ShardGroup :=
  foldl (λ g n, match g_servers g !! n with Some r => set_server n (f r) g | None => g end) g (g_IDs g).

Definition on_groups (f : ShardGroup → ShardGroup) (w : ShardCluster) : ShardCluster :=
  mkShardCluster (shc_Ring w) (f <$> shc_Groups w) (shc_Coordinator w) (shc_script w) (shc_chan w).

Definition shc_Start (env : Env) : ShardCluster → ShardCluster := on_groups (on_members (RaftLoop.Start env)).
Definition shc_Stop : ShardCluster → ShardCluster := on_groups (on_members RaftLoop.Stop).

Section Range.
Context `{MapRange}.

(** One look of [WaitForLeaders]. *)
Definition all_led (w : ShardCluster) : bool := forallb (λ x, negb (String.eqb (sg_leader x.2) "")) (range (shc_Groups w)).

(** [TotalMoney]: the balances of every group's machine, added in 64 bits. *)
Definition TotalMoney (w : ShardCluster) : Z :=
  foldl (λ t x, foldl (λ t b, i64 (t + b.2)) t (range (Balances (m_State (sim_machine x.1 w))))) 0 (range (shc_Groups w)).

Definition shc_InDoubt (w : ShardCluster) : Z := InDoubtCount ((range (shc_Groups w)).*1) w.

(** Every member of every group, up to the first that cannot be restored; [None] is
    a panic. *)
Fixpoint restore_members (sid : ID) (ids : list NodeID) (g : ShardGroup) : option (ShardGroup * option string) :=
  match ids with
  | [] => Some (g, None)
  | nid :: ids =>
      r ← g_servers g !! nid;
      match Restore r with
      | Panic _ => None
      | Ok (inl err) => Some (g, Some ("restore " +:+ sid +:+ "/" +:+ nid +:+ ": " +:+ err))
      | Ok (inr r') => restore_members sid ids (set_server nid r' g)
      end
  end.

Fixpoint restore_groups (groups : list (ID * ShardGroup)) (w : ShardCluster) : option (ShardCluster * option string) :=
  match groups with
  | [] => Some (w, None)
  | (sid, g) :: groups =>
      r ← restore_members sid (g_IDs g) g;
      match r.2 with
      | Some err => Some (set_group sid r.1 w, Some err)
      | None => restore_groups groups (set_group sid r.1 w)
      end
  end.

Definition shc_RestoreAll (w : ShardCluster) : option (ShardCluster * option string) := restore_groups (range (shc_Groups w)) w.

End Range.

(** [Open]; without a group for the account it panics. *)
Definition shc_Open (account : string) (amount : Z) (w : ShardCluster) : option (ShardCluster * option error) :=
  let sid := ShardFor (shc_Coordinator w) account in
  if bool_decide (shc_Groups w !! sid = None) then None
  else
    let '(w, (_, _, err)) :=
      sim_propose sid (mkCommand OpSingle "" (Ledger.mkCommand OpOpenAccount ("open-" +:+ account) "" account amount zeroTimestamp)
                         false false [] "") 3000000000 w in
    Some (w, err).

Definition shc_Balance (account : string) (w : ShardCluster) : Z * bool :=
  Balance (m_State (sim_machine (ShardFor (shc_Coordinator w) account) w)) account.

(** ** View *)

Definition shard_row (w : ShardCluster) (sid : ID) : string :=
  match shc_Groups w !! sid with
  | None => ""
  | Some g =>
      let leader := sg_leader g in
      let srv := if String.eqb leader "" then None else table g !! leader in
      "  " +:+ pad 10 sid +:+ " " +:+ pad 19 leader +:+ " " +:+ pad 5 (fmt_d (default 0 (currentTerm <$> srv))) +:+ " "
        +:+ pad 7 (fmt_d (default 0 (commitIndex <$> srv))) +:+ " "
        +:+ pad 9 (fmt_d (Z.of_nat (size (Balances (m_State (sim_machine sid w)))))) +:+ " "
        +:+ fmt_d (Z.of_nat (length (InDoubt (sim_machine sid w)))) +:+ String (Ascii.ascii_of_nat 10) ""
  end.

Definition shc_View (w : ShardCluster) : string :=
  String (Ascii.ascii_of_nat 10) "" +:+ "  SHARD      LEADER              TERM  COMMIT  ACCOUNTS  IN-DOUBT" +:+ String (Ascii.ascii_of_nat 10) ""
    +:+ "  -----      ------              ----  ------  --------  --------" +:+ String (Ascii.ascii_of_nat 10) ""
    +:+ String.concat "" (shard_row w <$> shards (shc_Ring w)).

(** ** Properties *)

(** A proposal touches its own group only, and a group without a leader refuses it
    and stays as it was. *)
Theorem sim_propose_isolated s cmd timeout w :
  let '(w', (_, lead, err)) := sim_propose s cmd timeout w in
  shc_Ring w' = shc_Ring w ∧ shc_Coordinator w' = shc_Coordinator w ∧
  (∀ s', s' ≠ s → shc_Groups w' !! s' = shc_Groups w !! s' ∧ sim_machine s' w' = sim_machine s' w) ∧
  (sim_IsLeader s w = false → w' = w ∧ lead = false ∧ (is_Some (shc_Groups w !! s) → err = Some (sim_no_leader s))).
Proof.
  assert (∀ s' w1, shc_Groups w1 !! s' = shc_Groups w !! s' → sim_machine s' w1 = sim_machine s' w) as Hm
    by (intros s' w1 E; unfold sim_machine; by rewrite E).
  unfold sim_propose, sim_IsLeader. destruct (shc_Groups w !! s) as [g|] eqn:Eg.
  2: { split; [done|]. split; [done|]. split; [done|]. intros _. split; [done|]. split; [done|]. by intros [? ?]. }
  destruct (String.eqb (sg_leader g) ""); cbn [negb].
  { split; [done|]. split; [done|]. split; [done|]. intros _. by split_and!. }
  destruct (table g !! sg_leader g) as [r|].
  2: { split; [done|]. split; [done|]. by split. }
  assert (∀ g' w1, shc_Groups w1 = shc_Groups w → ∀ s', s' ≠ s →
    shc_Groups (set_group s g' w1) !! s' = shc_Groups w !! s' ∧ sim_machine s' (set_group s g' w1) = sim_machine s' w) as Ho.
  { intros g' w1 E s' Hne. assert (shc_Groups (set_group s g' w1) !! s' = shc_Groups w !! s') as E'
      by (simpl; rewrite E; by rewrite lookup_insert_ne). split; [done|by apply Hm]. }
  destruct (Submit _ r) as [[r' [[idx t] []]]|r']; cbn [negb].
  - destruct (sim_end _ _ _ _ _ _) as [[res lead] err]. split_and!; [done|done|by apply Ho|done].
  - split_and!; [done|done|by apply Ho|done].
  - split_and!; [done|done|by apply Ho|done].
Qed.

(** A proposal to a group of one that leads, with nothing in the way, is replicated
    and applied: the result is the machine's own. *)
Theorem sim_propose_alone s cmd timeout w g r m m' res :
  shc_Groups w !! s = Some g → sg_leader g ≠ "" → table g !! sg_leader g = Some r →
  alone r → sm r = Some m → shc_script w = [] →
  ApplyAt (lastIndex (log r) + 1) (TwoPC.Encode cmd) m = Some (m', res) →
  ∃ w' g', sim_propose s cmd timeout w = (w', (res, true, None)) ∧ shc_Groups w' !! s = Some g' ∧
    (∃ r', g_servers g' !! sg_leader g = Some r' ∧ sm r' = Some m').
Proof.
  intros Hg Hne Hr Hal Hsm Hscript Happ. unfold sim_propose. rewrite Hg, (proj2 (String.eqb_neq _ _) Hne), Hr.
  destruct (Submit_alone r (TwoPC.Encode cmd) (Some m') Hal) as (r' & Hs & Hsm' & Hla).
  { rewrite Hsm. unfold apply_entry. simpl. by rewrite Happ. }
  rewrite Hs, Hscript. cbn [negb head default sw_ops sw_expired foldl].
  set (x := WaitApplied _ _ r').
  assert (sm x = Some m' ∧ shc_chan w ∈ closedChans x) as [Hw1 Hw2].
  { unfold x, WaitApplied. rewrite Hla, (proj2 (Z.leb_le _ _)) by lia. simpl. split; [done|].
    rewrite elem_of_app. right. by left. }
  clearbody x. exists (set_group s (set_server (sg_leader g) x g) (advance w)), (set_server (sg_leader g) x g). split; [|split; [simpl; by rewrite lookup_insert_eq|]].
  - f_equal. unfold sim_end. simpl. rewrite lookup_insert_eq, bool_decide_eq_true_2 by done. simpl.
    unfold sim_machine_of. rewrite Hw1. simpl. by rewrite (applied_result m m' _ cmd res).
  - exists x. split; [simpl; by rewrite lookup_insert_eq|done].
Qed.

(** The money of the cluster.  Whatever the order in which the maps are walked, the
    loop of [TotalMoney] computes the exact sum of the balances held by the machine of
    every group, wrapped to 64 bits. *)
Theorem TotalMoney_exact `{MapRange} w :
  TotalMoney w =
  i64 (foldr (λ x s, map_sum (λ b, b) (Balances (m_State (sim_machine x.1 w))) + s) 0 (map_to_list (shc_Groups w))).
Proof.
  unfold TotalMoney. set (val := λ x : ID * ShardGroup, map_sum (λ b : Z, b) (Balances (m_State (sim_machine x.1 w)))).
  assert (∀ l acc, foldl (λ t x, foldl (λ t b, i64 (t + b.2)) t (range (Balances (m_State (sim_machine x.1 w))))) (i64 acc) l =
    i64 (acc + foldr (λ x s, val x + s) 0 l)) as Hl.
  { induction l as [|x l IH]; intros acc; cbn [foldl foldr]; [by rewrite Z.add_0_r|].
    rewrite (go_sum_exact_from (λ b : string * Z, b.2)), <- (map_sum_list (λ b, b) _ _ (range_perm _)), IH.
    f_equal. unfold val. lia. }
  etransitivity; [exact (Hl _ 0)|]. f_equal. rewrite Z.add_0_l.
  change (foldr (λ x s, val x + s) 0 (range (shc_Groups w)) = foldr (λ x s, val x + s) 0 (map_to_list (shc_Groups w))).
  clear Hl. clearbody val.
  generalize (range_perm (shc_Groups w)). generalize (range (shc_Groups w)), (map_to_list (shc_Groups w)).
  intros l1 l2 Hp. induction Hp as [|x ? ? _ IH|x y ?|? ? ? _ IH1 _ IH2]; cbn [foldr]; lia.
Qed.

Lemma build_group `{SortSlice} open_files members shardIDs sid :
  sid ∈ shardIDs → shc_Groups (build open_files members shardIDs) !! sid = Some (sim_group_of open_files sid (members sid)).
Proof.
  intros Hin. unfold build. cbn [shc_Groups]. induction shardIDs as [|x l IH]; [by apply elem_of_nil in Hin|].
  rewrite fmap_cons. simpl. destruct (base.decide (x = sid)) as [->|Hne]; [by rewrite lookup_insert_eq|].
  rewrite lookup_insert_ne by done. apply IH. by apply elem_of_cons in Hin as [?|?].
Qed.

Lemma sim_group_server open_files sid ids nid :
  g_servers (sim_group_of open_files sid ids) !! nid = if base.decide (nid ∈ ids) then Some (sim_server open_files sid ids nid) else None.
Proof.
  unfold sim_group_of. cbn [g_servers].
  assert (∀ l, (list_to_map ((λ n, (n, sim_server open_files sid ids n)) <$> l) : gmap NodeID replica) !! nid =
    if base.decide (nid ∈ l) then Some (sim_server open_files sid ids nid) else None) as Hl; [|apply Hl].
  induction l as [|x l IH]; [by destruct (base.decide (nid ∈ [])) as [?%elem_of_nil|]|]. rewrite fmap_cons. simpl.
  destruct (base.decide (nid = x)) as [->|Hne].
  - rewrite lookup_insert_eq. by destruct (base.decide (x ∈ x :: l)) as [|Hn]; [|destruct Hn; left].
  - rewrite lookup_insert_ne by done. rewrite IH. destruct (base.decide (nid ∈ l)), (base.decide (nid ∈ x :: l)) as [Hi|Hi]; try done.
    + destruct Hi. by right.
    + by apply elem_of_cons in Hi as [?|?].
Qed.

Lemma fresh_no_leader ids (nodes : gmap NodeID replica) best :
  (∀ n r, nodes !! n = Some r → role r = Follower) → foldl (leader_step nodes) best ids = best.
Proof.
  intros Hf. revert best. induction ids as [|n ids IH]; intros best; [done|]. simpl. rewrite IH. unfold leader_step.
  destruct best as [b t]. destruct (nodes !! n) as [r|] eqn:E; [|done]. by rewrite (Hf n r E).
Qed.

(** A new cluster has a group for every account.  For at least one shard, the group of the
    shard that owns an account exists and has the intended members, all of them
    followers of a machine that is their own; no group leads yet, so the coordinator's
    proposals are refused, and there is no money. *)
Theorem build_serves `{SortSlice, MapRange} open_files members shardIDs account :
  shardIDs ≠ [] →
  let w := build open_files members shardIDs in
  let sid := ShardFor (shc_Coordinator w) account in
  sid ∈ co_groups (shc_Coordinator w) ∧
  (∃ g, shc_Groups w !! sid = Some g ∧ g_IDs g = members sid ∧
     ∀ nid, nid ∈ members sid → ∃ r, table g !! nid = Some r ∧ id r = nid ∧ peers r = members sid ∧ role r = Follower ∧
       sm r = Some (NewMachine sid Ledger.New)) ∧
  (∀ s, sim_IsLeader s w = false) ∧ TotalMoney w = 0.
Proof.
  intros Hne w sid.
  assert (sid ∈ shardIDs) as Hsid.
  { unfold sid, ShardFor, w. simpl. destruct (NewRing_Lookup shardIDs (Z.of_nat DefaultVNodes) account Hne) as (q & [Hin _] & ->).
    by eapply all_points_shard. }
  assert (∀ s ids nid r, g_servers (sim_group_of open_files s ids) !! nid = Some r →
    id r = nid ∧ peers r = ids ∧ role r = Follower ∧ sm r = Some (NewMachine s Ledger.New)) as Hsrv.
  { intros s ids nid r. rewrite sim_group_server. destruct (base.decide _); [|done]. intros [= <-]. unfold sim_server. by destruct (open_files nid). }
  assert (∀ s g, shc_Groups w !! s = Some g → g = sim_group_of open_files s (members s)) as Hgrp.
  { intros s g Hg. destruct (base.decide (s ∈ shardIDs)) as [Hin|Hn]; [unfold w in Hg; rewrite build_group in Hg by done; by injection Hg|].
    exfalso. apply elem_of_list_to_map_2, list_elem_of_fmap in Hg as (s' & [= -> _] & ?). done. }
  assert (∀ s g, shc_Groups w !! s = Some g → sg_leader g = "") as Hlead.
  { intros s g ->%Hgrp. unfold sg_leader, group_leader. rewrite fresh_no_leader; [done|].
    intros n r [Hr _]%map_lookup_filter_Some. by apply Hsrv in Hr as (_ & _ & ? & _). }
  split; [unfold w, build; simpl; by apply elem_of_list_to_set|]. split; [|split].
  - eexists. split; [by apply build_group|]. split; [done|]. intros nid Hnid.
    assert (g_servers (sim_group_of open_files sid (members sid)) !! nid = Some (sim_server open_files sid (members sid) nid)) as Hs
      by (rewrite sim_group_server; by destruct (base.decide _)).
    exists (sim_server open_files sid (members sid) nid). split; [|by apply Hsrv in Hs].
    apply map_lookup_filter_Some. split; [done|]. simpl. by apply elem_of_list_to_set.
  - intros s. unfold sim_IsLeader. destruct (shc_Groups w !! s) as [g|] eqn:Eg; [|done]. by rewrite (Hlead s g Eg).
  - rewrite TotalMoney_exact. change 0 with (i64 0) at 2. f_equal.
    assert (∀ l, l ⊆ map_to_list (shc_Groups w) →
      foldr (λ x s, map_sum (λ b, b) (Balances (m_State (sim_machine x.1 w))) + s) 0 l = 0) as Hz; [|by apply Hz].
    induction l as [|[s g] l IH]; intros Hsub; [done|]. cbn [foldr fst]. rewrite IH by (intros y Hy; apply Hsub; by right).
    assert (shc_Groups w !! s = Some g) as Hg by (apply elem_of_map_to_list, Hsub; by left).
    replace (sim_machine s w) with (NewMachine s Ledger.New); [done|]. unfold sim_machine. rewrite Hg. cbn [mbind option_bind].
    rewrite (Hlead s g Hg). simpl. destruct (head (g_IDs g)) as [n|]; [|done]. simpl.
    destruct (table g !! n) as [r|] eqn:Er; [|done]. simpl.
    apply map_lookup_filter_Some in Er as [Hr _]. rewrite (Hgrp s g Hg) in Hr. by apply Hsrv in Hr as (_ & _ & _ & ->).
Qed.

Lemma build_serves_witness :
  let w := NewShardCluster (H := merge_SortSlice) 2 3 in
  (∃ g, shc_Groups w !! ShardFor (shc_Coordinator w) "alice" = Some g) ∧ (∀ s, sim_IsLeader s w = false) ∧ TotalMoney w = 0.
Proof.
  intros w.
  pose proof (build_serves (H := merge_SortSlice) (λ _, None) (λ sid, shard_member sid <$> List.seq 0 3)
    (shard_name <$> List.seq 0 2) "alice" ltac:(intros E; apply (f_equal length) in E; discriminate)) as Hb.
  change (build (λ _, None) (λ sid, shard_member sid <$> List.seq 0 3) (shard_name <$> List.seq 0 2)) with w in Hb.
  clearbody w. cbn zeta in Hb. destruct Hb as (_ & (g & Hg & _) & Hl & Ht). split; [by exists g|]. split; [exact Hl|exact Ht].
Defined.

(** *** The placed cluster *)

Lemma placed_servers_ok open_files dir sid holders ids :
  (∀ nid, nid ∈ ids → ∃ r, placed_server open_files dir sid holders nid = inr r) →
  ∃ srvs, placed_servers open_files dir sid holders ids = inr srvs ∧
    ∀ nid, nid ∈ ids → ∃ r, placed_server open_files dir sid holders nid = inr r ∧
      (list_to_map srvs : gmap NodeID replica) !! nid = Some r.
Proof.
  induction ids as [|x ids IH]; intros Hall; simpl; [exists []; split; [done|]; by intros ? ?%elem_of_nil|].
  destruct (Hall x) as [r Er]; [by left|]. rewrite Er. destruct IH as (srvs & -> & Hl); [intros; apply Hall; by right|].
  eexists. split; [done|]. intros nid [->|Hin]%elem_of_cons; [exists r; split; [done|apply lookup_insert_eq]|].
  destruct (base.decide (x = nid)) as [<-|Hne]; [exists r; split; [done|apply lookup_insert_eq]|].
  destruct (Hl nid Hin) as (r' & ? & E). exists r'. split; [done|]. simpl. by rewrite lookup_insert_ne.
Qed.

(** The group of a shard, as it was placed. *)
Definition placed_group (open_files : string → string + disk) (dir : string) (sid : ID) (holders : list NodeID) (g : ShardGroup) : Prop :=
  g_ID g = sid ∧ g_IDs g = holders ∧ g_Nodes g = list_to_set holders ∧
  ∀ nid, nid ∈ holders → ∃ r, placed_server open_files dir sid holders nid = inr r ∧ table g !! nid = Some r.

Lemma placed_groups_ok open_files dir placed :
  NoDup placed.*1 →
  (∀ sid holders nid, (sid, holders) ∈ placed → nid ∈ holders → ∃ r, placed_server open_files dir sid holders nid = inr r) →
  ∃ groups, placed_groups open_files dir placed = inr groups ∧
    ∀ sid holders, (sid, holders) ∈ placed →
      ∃ g, (list_to_map groups : gmap ID ShardGroup) !! sid = Some g ∧ placed_group open_files dir sid holders g.
Proof.
  induction placed as [|[x hs] placed IH]; intros Hnd Hall; simpl; [exists []; split; [done|]; by intros ? ? ?%elem_of_nil|].
  rewrite fmap_cons in Hnd. apply NoDup_cons in Hnd as [Hx Hnd]. simpl in Hx.
  destruct (placed_servers_ok open_files dir x hs hs) as (srvs & -> & Hl); [intros nid Hn; apply (Hall x hs); [by left|done]|].
  destruct IH as (groups & -> & Hg); [done|intros sid hs' nid Hin; apply Hall; by right|].
  eexists. split; [done|]. intros sid hs' [[= -> ->]|Hin]%elem_of_cons.
  - eexists. split; [apply lookup_insert_eq|]. split_and!; [done..|]. intros nid Hn. destruct (Hl nid Hn) as (r & ? & E).
    exists r. split; [done|]. unfold table. apply map_lookup_filter_Some. split; [done|]. simpl. by apply elem_of_list_to_set.
  - simpl. rewrite lookup_insert_ne; [by apply Hg|]. intros ->. apply Hx. apply list_elem_of_fmap. by exists (sid, hs').
Qed.

(** A placed cluster has what it was asked for.  With a replication factor between one
    and the number of machines, and files that open, every shard gets a group of exactly
    as many different machines; each member's peers are the members of its group, and its
    storage is that of its own files, or none without a directory. *)
Theorem NewPlacedClusterWithStorage_replicas `{SortSlice} open_files nShards nNodes rf dir :
  1 ≤ rf ≤ nNodes → (∀ base, is_Some (match open_files base with inr d => Some d | inl _ => None end)) →
  ∃ w, NewPlacedClusterWithStorage open_files nShards nNodes rf dir = inr w ∧
    ∀ si, (si < Z.to_nat nShards)%nat → ∃ g, shc_Groups w !! shard_name si = Some g ∧
      Z.of_nat (length (g_IDs g)) = rf ∧ NoDup (g_IDs g) ∧
      ∀ nid, nid ∈ g_IDs g → ∃ r, table g !! nid = Some r ∧ id r = nid ∧ peers r = g_IDs g ∧
        storage r = if String.eqb dir "" then None
                    else match open_files (placed_base dir (shard_name si) nid) with inr d => Some d | inl _ => None end.
Proof.
  intros Hrf Hopen. unfold NewPlacedClusterWithStorage, NewPlacedCluster.
  destruct (Z.ltb_spec rf 1); [lia|]. destruct (Z.ltb_spec nNodes rf); [lia|].
  set (placed := _ <$> _).
  destruct (placed_groups_ok open_files dir placed) as (groups & -> & Hg).
  { unfold placed. rewrite <- list_fmap_compose. apply NoDup_fmap_2_strong; [|apply NoDup_seq].
    intros i j _ _. apply shard_name_inj. }
  { intros sid hs nid _ _. unfold placed_server. destruct (String.eqb dir ""); [by eexists|].
    specialize (Hopen (placed_base dir sid nid)). destruct (open_files _); [by destruct Hopen|by eexists]. }
  eexists. split; [done|]. cbn [shc_Groups]. intros si Hsi.
  destruct (Hg (shard_name si) (holders_of (Z.to_nat nNodes) (Z.to_nat rf) si)) as (g & Eg & _ & Eids & _ & Hmem).
  { unfold placed. apply list_elem_of_fmap. exists si. split; [done|]. apply elem_of_seq. lia. }
  exists g. split; [done|]. rewrite Eids. split_and!.
  - unfold holders_of. rewrite length_fmap, length_seq. lia.
  - apply holders_nodup. lia.
  - intros nid Hn. destruct (Hmem nid Hn) as (r & Er & Et). exists r. split; [done|]. unfold placed_server in Er.
    specialize (Hopen (placed_base dir (shard_name si) nid)).
    destruct (String.eqb dir ""); [by injection Er as <-|].
    destruct (open_files _) as [err|d]; [done|]. by injection Er as <-.
Qed.
