(* ===== verification/Metrics.v ===== *)
(** * The observability endpoints (src/obs/obs.go, src/node/observability.go,
    src/rpc/observability.go, src/rpc/admission_obs.go)

    The adapter that collects the health of every hosted group and the readiness
    endpoint over it; the text of /metrics, the data of /status, the text of /healthz,
    and the source of the single-group node.  A reader of the exposition format takes
    the values back out of the text.  Serving HTTP and the encoding of JSON are not
    modelled. *)

From S2P Require Import Prelude GoLib Ring Ledger ShardMachine RaftTypes RaftServer RaftHealth Admission ShardNode.

Local Open Scope Z_scope.

Record ShardHealth := mkShardHealth {
  sh_ShardID : string;
  sh_Raft : Health;
  sh_InDoubt : Z;
  sh_Accounts : Z
}.

(** [HostSource.Snapshot] *)
Definition host_health (window now : Z) (h : ShardHost) : list ShardHealth :=
  omap (λ sid,
    rep ← Replica sid h;
    Some (mkShardHealth sid (health_report window now rep) (Z.of_nat (length (InDoubt (machine_at sid h))))
            (Z.of_nat (size (Balances (m_State (machine_at sid h))))))) (ShardIDs h).

(** [HostSource.Admission]; the last field is whether there is an admitter. *)
Record AdmissionView := mkAdmissionView {
  av_InFlight : Z;
  av_Admitted : Z;
  av_ShedBusy : Z;
  av_ShedRate : Z;
  av_Draining : bool;
  av_Available : bool
}.

Definition admission_view (a : option Admitter) : AdmissionView :=
  match a with
  | None => mkAdmissionView 0 0 0 0 false false
  | Some a => let '(f, n, b, r) := Stats a in mkAdmissionView f n b r (Draining a) true
  end.

(** ** handleReadyz *)

Definition newline : string := String (Ascii.ascii_of_nat 10) "".

Definition shard_line (sh : ShardHealth) : string :=
  if negb (h_Ready (sh_Raft sh)) then
    sh_ShardID sh +:+ ": NOT READY (" +:+ h_NotReadyReason (sh_Raft sh) +:+ ")" +:+ newline
  else
    sh_ShardID sh +:+ ": ready (" +:+ Role_String (h_Role (sh_Raft sh)) +:+ ", term " +:+ fmt_d (h_Term (sh_Raft sh))
      +:+ ")" +:+ newline.

Fixpoint readyz_loop (shards : list ShardHealth) (ready : bool) (body : string) : bool * string :=
  match shards with
  | [] => (ready, body)
  | sh :: shards => readyz_loop shards (if negb (h_Ready (sh_Raft sh)) then false else ready) (body +:+ shard_line sh)
  end.

Definition handleReadyz (node : string) (shards : list ShardHealth) : Z * string :=
  let (ready, body) := readyz_loop shards (negb (length shards =? 0)%nat) "" in
  let body := if (length shards =? 0)%nat then body +:+ "no Raft groups hosted on this node" +:+ newline else body in
  (if ready then 200 else 503, "node=" +:+ node +:+ newline +:+ body).

(** ** Properties *)

Lemma readyz_loop_ready shards ready body :
  (readyz_loop shards ready body).1 = true ↔ ready = true ∧ ∀ sh, sh ∈ shards → h_Ready (sh_Raft sh) = true.
Proof.
  revert ready body. induction shards as [|sh shards IH]; intros ready body; simpl.
  { split; [intros ->; split; [done|]; by intros sh Hsh%elem_of_nil|by intros [? _]]. }
  rewrite IH. destruct (h_Ready (sh_Raft sh)) eqn:E; simpl.
  - split; intros [-> Hall]; (split; [done|]); intros x Hx; [apply elem_of_cons in Hx as [->|]; auto|].
    apply Hall. by right.
  - split; [by intros [? _]|]. intros [_ Hall]. rewrite (Hall sh) in E by by left. done.
Qed.

Lemma ShardIDs_elem sid h : sid ∈ ShardIDs h ↔ is_Some (h_replicas h !! sid).
Proof.
  unfold ShardIDs. rewrite merge_sort_Permutation, list_elem_of_fmap. split.
  - intros ([k r] & -> & Hk). apply elem_of_map_to_list in Hk. by exists r.
  - intros [r Hr]. exists (sid, r). split; [done|]. by apply elem_of_map_to_list.
Qed.

(** Readiness of a node.  The endpoint answers 200 exactly when the node hosts at
    least one shard and the Raft server of every shard it hosts is ready to make
    progress; in every other case it answers 503. *)
Theorem readyz_every_shard node window now (h : ShardHost) :
  let code := (handleReadyz node (host_health window now h)).1 in
  (code = 200 ∨ code = 503) ∧
  (code = 200 ↔ h_replicas h ≠ ∅ ∧
     ∀ sid rep, h_replicas h !! sid = Some rep → h_Ready (health_report window now rep) = true).
Proof.
  intros code.
  assert (∀ sh, sh ∈ host_health window now h ↔ ∃ sid rep, h_replicas h !! sid = Some rep ∧
    sh = mkShardHealth sid (health_report window now rep) (Z.of_nat (length (InDoubt (machine_at sid h))))
            (Z.of_nat (size (Balances (m_State (machine_at sid h)))))) as Hmem.
  { intros sh. unfold host_health. rewrite list_elem_of_omap. unfold Replica. split.
    - intros (sid & _ & E). destruct (h_replicas h !! sid) as [rep|] eqn:Er; [|done]. injection E as <-. by exists sid, rep.
    - intros (sid & rep & Er & ->). exists sid. split; [apply ShardIDs_elem; by exists rep|]. by rewrite Er. }
  assert ((length (host_health window now h) =? 0)%nat = true ↔ h_replicas h = ∅) as Hempty.
  { rewrite Nat.eqb_eq, length_zero_iff_nil. split.
    - intros E. apply map_empty. intros sid. destruct (h_replicas h !! sid) as [rep|] eqn:Er; [|done].
      exfalso. eapply (not_elem_of_nil (mkShardHealth sid _ _ _)). rewrite <- E. apply Hmem. by exists sid, rep.
    - intros E. destruct (host_health window now h) as [|sh l]; [done|]. exfalso.
      destruct (proj1 (Hmem sh) (ltac:(by left))) as (sid & rep & Er & _). by rewrite E, lookup_empty in Er. }
  unfold code, handleReadyz.
  pose proof (readyz_loop_ready (host_health window now h) (negb (length (host_health window now h) =? 0)%nat) "") as Hloop.
  destruct (readyz_loop _ _ _) as [ready body]. simpl in *. split; [destruct ready; auto|].
  transitivity (ready = true); [by destruct ready|]. rewrite Hloop, negb_true_iff, <- not_true_iff_false, Hempty.
  split; intros [Hne Hall]; (split; [done|]).
  - intros sid rep Er. exact (Hall _ (proj2 (Hmem _) (ex_intro _ sid (ex_intro _ rep (conj Er eq_refl))))).
  - intros sh (sid & rep & Er & ->)%Hmem. simpl. by apply (Hall sid).
Qed.

(** * Metrics and status *)

From Stdlib Require Import Ascii.
From S2P Require Import GoStrings GoTime LedgerCodec.

(** ** The source of the single-group node *)

Section Single.
Context {St : Type}.

Definition singleGroup_Snapshot (window now : Z) (s : Server LedgerCodec.Machine St) (st : State) : list ShardHealth :=
  [mkShardHealth "default" (health_report window now s) 0 (Z.of_nat (size (Balances st)))].

End Single.

(** ** handleHealthz *)

Definition handleHealthz (node : string) (uptime : Z) : Z * string :=
  (200, "ok" +:+ newline +:+ "node=" +:+ node +:+ newline +:+ "uptime=" +:+ Duration_String (Round 1000000000 uptime) +:+ newline).

(** ** handleStatus *)

Definition members (ids : list NodeID) : list string := foldl (λ out x, out ++ [x]) [] ids.

Record shardOut := mkShardOut {
  so_ShardID : string;
  so_Role : string;
  so_Term : Z;
  so_CommitIndex : Z;
  so_LastApplied : Z;
  so_LogLength : Z;
  so_LeaderID : string;
  so_Ready : bool;
  so_Reason : string;
  so_QuorumContact : Z;
  so_QuorumNeeded : Z;
  so_SnapshotIndex : Z;
  so_HasSnapshot : bool;
  so_Members : list string;
  so_InDoubt : Z;
  so_Accounts : Z
}.

Definition shard_out (sh : ShardHealth) : shardOut :=
  let r := sh_Raft sh in
  mkShardOut (sh_ShardID sh) (Role_String (h_Role r)) (h_Term r) (h_CommitIndex r) (h_LastApplied r) (h_LogLength r)
    (h_LeaderID r) (h_Ready r) (h_NotReadyReason r) (h_QuorumContact r) (h_QuorumNeeded r) (h_SnapshotIndex r)
    (h_HasSnapshot r) (members (h_ConfigServers r)) (sh_InDoubt sh) (sh_Accounts sh).

(** The node, its uptime and the shards, in the source's order. *)
Definition handleStatus (node : string) (uptime : Z) (shards : list ShardHealth) : string * string * list shardOut :=
  (node, Duration_String (Round 1000000000 uptime), shard_out <$> shards).

(** ** handleMetrics *)

Definition shardid_le (a b : ShardHealth) : Prop := str_le (sh_ShardID a) (sh_ShardID b).

#[global] Instance shardid_le_dec : RelDecision shardid_le.
Proof. intros a b. unfold shardid_le. apply _. Defined.

Definition dquote : string := String (ascii_of_nat 34) "".

Definition metric (name help typ body : string) : string :=
  "# HELP " +:+ name +:+ " " +:+ help +:+ newline +:+ "# TYPE " +:+ name +:+ " " +:+ typ +:+ newline +:+ body.

Definition lbl (node shard : string) : string :=
  "{node=" +:+ dquote +:+ node +:+ dquote +:+ ",shard=" +:+ dquote +:+ shard +:+ dquote +:+ "}".

Definition sample (name labels : string) (v : Z) : string := name +:+ labels +:+ " " +:+ fmt_d v +:+ newline.

Definition role_int (r : Role) : Z := match r with Follower => 0 | Candidate => 1 | Leader => 2 end.

Definition bit (b : bool) : Z := if b then 1 else 0.

(** The sixteen metrics of a shard, in order: name, help, type, value. *)
Definition shard_metrics : list (string * string * string * (ShardHealth → Z)) :=
  [("corebank_raft_role", "Raft role of this node for a shard (0=follower, 1=candidate, 2=leader).", "gauge",
    λ sh, role_int (h_Role (sh_Raft sh)));
   ("corebank_raft_term", "Current Raft term. Rapid growth means leadership churn, which costs liveness.", "gauge",
    λ sh, h_Term (sh_Raft sh));
   ("corebank_raft_commit_index", "Highest log index known committed.", "gauge", λ sh, h_CommitIndex (sh_Raft sh));
   ("corebank_raft_last_applied", "Highest log index applied to the state machine.", "gauge",
    λ sh, h_LastApplied (sh_Raft sh));
   ("corebank_raft_apply_lag", "commitIndex minus lastApplied. A growing value means the state machine is behind.", "gauge",
    λ sh, i64 (i64 (h_CommitIndex (sh_Raft sh)) - i64 (h_LastApplied (sh_Raft sh))));
   ("corebank_raft_log_entries", "Log length. The input to the compaction decision (section 7).", "gauge",
    λ sh, h_LogLength (sh_Raft sh));
   ("corebank_raft_snapshot_index", "Log index covered by the newest snapshot; 0 if never compacted.", "gauge",
    λ sh, h_SnapshotIndex (sh_Raft sh));
   ("corebank_raft_ready", "1 if this node is in a quorum that can commit, 0 otherwise. THE signal that distinguishes a degraded cluster from a healthy one.", "gauge",
    λ sh, bit (h_Ready (sh_Raft sh)));
   ("corebank_raft_quorum_contact", "Servers this leader has heard from recently, including itself. 0 on a follower.", "gauge",
    λ sh, h_QuorumContact (sh_Raft sh));
   ("corebank_raft_quorum_needed", "Majority size for the full cluster.", "gauge", λ sh, h_QuorumNeeded (sh_Raft sh));
   ("corebank_txn_in_doubt", "2PC transactions blocked awaiting a decision. These hold reserved customer funds.", "gauge",
    λ sh, sh_InDoubt sh);
   ("corebank_ledger_accounts", "Accounts held by this shard's ledger.", "gauge", λ sh, sh_Accounts sh);
   ("corebank_storage_persist_failures_total", "Failures to persist the applied-index marker. Non-zero means storage is degrading.", "counter",
    λ sh, h_AppliedPersistFailures (sh_Raft sh));
   ("corebank_raft_cluster_size", "Servers in the configuration this node is operating under. A node disagreeing with its peers here has been left behind by a reconfiguration.", "gauge",
    λ sh, Z.of_nat (length (h_ConfigServers (sh_Raft sh))));
   ("corebank_raft_config_failures_total", "Malformed configuration entries seen. Non-zero means this node may be operating under the wrong membership, which decides who counts toward quorum.", "counter",
    λ sh, h_ConfigFailures (sh_Raft sh));
   ("corebank_snapshot_failures_total", "Failed snapshot operations. A node that cannot compact will hit the write-amplification wall.", "counter",
    λ sh, h_SnapshotFailures (sh_Raft sh))].

Definition shard_samples (node name : string) (value : ShardHealth → Z) (shards : list ShardHealth) : string :=
  foldr (λ sh rest, sample name (lbl node (sh_ShardID sh)) (value sh) +:+ rest) "" shards.

(** The node's admission metrics, when the source reports them. *)
Definition admission_metrics : list (string * string * string * (AdmissionView → Z)) :=
  [("corebank_admission_in_flight", "Requests currently admitted and not yet finished.", "gauge", av_InFlight);
   ("corebank_admission_admitted_total", "Requests admitted since start.", "counter", av_Admitted);
   ("corebank_admission_shed_busy_total", "Requests shed because the node was at its in-flight limit. Shedding must be visible: a system that sheds silently looks identical to one that is merely slow.", "counter", av_ShedBusy);
   ("corebank_admission_shed_rate_total", "Requests shed because a client exceeded its rate budget.", "counter", av_ShedRate);
   ("corebank_admission_draining", "1 while this node is draining for shutdown and refusing new work.", "gauge",
    λ a, bit (av_Draining a))].

Definition node_label (node : string) : string := "{node=" +:+ Quote node +:+ "}".

(** The page, built up from the end.  [adm] is absent when the source does not
    implement [AdmissionSource]; [seconds] is the uptime in whole seconds. *)
Definition uptime_metric (node : string) (seconds : Z) : string :=
  metric "corebank_uptime_seconds" "Seconds since this process started serving metrics." "gauge"
    (sample "corebank_uptime_seconds" ("{node=" +:+ dquote +:+ node +:+ dquote +:+ "}") seconds).

Definition admission_part (node : string) (adm : option AdmissionView) (rest : string) : string :=
  match adm with
  | Some a =>
      if av_Available a then
        foldr (λ m rest, let '(name, help, typ, value) := m in
                         metric name help typ (sample name (node_label node) (value a)) +:+ rest) rest admission_metrics
      else rest
  | None => rest
  end.

Definition metrics_page (node : string) (seconds : Z) (shards : list ShardHealth) (adm : option AdmissionView) : string :=
  foldr (λ m rest, let '(name, help, typ, value) := m in
                   metric name help typ (shard_samples node name value shards) +:+ rest)
    (admission_part node adm (uptime_metric node seconds)) shard_metrics.

Definition handleMetrics (node : string) (seconds : Z) (shards : list ShardHealth) (adm : option AdmissionView) : string :=
  metrics_page node seconds (merge_sort shardid_le shards) adm.

(** ** Reading the exposition format

    The values of the lines that carry exactly the given metric and labels. *)
Definition nl : ascii := byte 10.

Definition read_sample (key line : text) : option Z :=
  rest ← strip_prefix key line;
  match ParseInt (of_text rest) with (v, None) => Some v | _ => None end.

Definition scan (key page : text) : list Z := omap (read_sample key) (split_on nl page).

Definition scrape (page name labels : string) : list Z := scan (to_text (name +:+ labels +:+ " ")) (to_text page).

(** ** Properties *)

Lemma string_app_assoc (a b c : string) : a +:+ (b +:+ c) = (a +:+ b) +:+ c.
Proof. induction a as [|x a IH]; [done|]. exact (f_equal (String x) IH). Qed.

Lemma string_app_nil (a : string) : a +:+ "" = a.
Proof. induction a as [|x a IH]; [done|]. exact (f_equal (String x) IH). Qed.

Lemma digits_no_nl (x : N) s : nl ∉ to_text s → nl ∉ to_text (pretty_N_go x s).
Proof.
  revert s. induction x as [x IH] using (well_founded_induction N.lt_wf_0). intros s Hs.
  destruct (decide (0 < x)%N) as [Hx|Hx].
  - rewrite pretty_N_go_step by done. apply IH; [apply N.div_lt; lia|]. apply not_elem_of_cons. split; [|done].
    unfold pretty_N_char, nl. repeat case_match; done.
  - assert (x = 0%N) as -> by lia. by rewrite pretty_N_go_0.
Qed.

Lemma fmt_d_no_nl z : nl ∉ to_text (fmt_d z).
Proof.
  assert (∀ x : N, nl ∉ to_text (pretty x)) as Hn.
  { intros x. unfold pretty, pretty_N. case_decide; [apply not_elem_of_cons; split; [done|apply not_elem_of_nil]|].
    apply digits_no_nl, not_elem_of_nil. }
  unfold fmt_d. destruct z as [|p|p]; [apply (Hn 0%N)|apply (Hn (N.pos p))|].
  change (pretty (Z.neg p)) with ("-" +:+ pretty (N.pos p)). rewrite to_text_app.
  apply not_elem_of_app. split; [|apply Hn]. apply not_elem_of_cons. split; [done|apply not_elem_of_nil].
Qed.

Lemma Quote_no_nl s : nl ∉ to_text (Quote s).
Proof.
  unfold Quote, to_text, of_text. rewrite String.list_ascii_of_string_of_list_ascii.
  assert (∀ c, nl ∉ quote_byte c) as Hq.
  { intros c. apply (bool_decide_unpack _). destruct c as [[] [] [] [] [] [] [] []]; vm_compute; done. }
  apply not_elem_of_cons. split; [done|]. apply not_elem_of_app. split.
  - induction (String.list_ascii_of_string s) as [|c t IH]; [apply not_elem_of_nil|]. rewrite fmap_cons. cbn [concat].
    by apply not_elem_of_app.
  - apply not_elem_of_cons. split; [done|apply not_elem_of_nil].
Qed.

Lemma strip_prefix_self p t : strip_prefix p (p ++ t) = Some t.
Proof. induction p as [|c p IH]; [done|]. simpl. by rewrite decide_True. Qed.

(** Two prefixes up to the first [c] match only if they are the same. *)
Lemma strip_prefix_cut c a b p t :
  c ∉ a → c ∉ b → strip_prefix (a ++ c :: p) (b ++ c :: t) = if decide (a = b) then strip_prefix p t else None.
Proof.
  revert b. induction a as [|x a IH]; intros [|y b] Ha Hb; simpl.
  - rewrite (decide_True _ _ eq_refl). by destruct (decide (@nil ascii = [])).
  - apply not_elem_of_cons in Hb as [Hb _]. rewrite decide_False by done. by destruct (decide ([] = y :: b)).
  - apply not_elem_of_cons in Ha as [Ha _]. rewrite decide_False by done. by destruct (decide (x :: a = [])).
  - apply not_elem_of_cons in Ha as [? Ha], Hb as [? Hb]. destruct (decide (x = y)) as [->|Hne].
    + rewrite IH by done. destruct (decide (a = b)) as [->|]; destruct (decide _); congruence.
    + by rewrite decide_False by congruence.
Qed.

(** The key of a shard's metric, and the names of the page: no brace, no line end,
    and not a comment. *)
Definition shard_key (name node shard : string) : text := to_text (name +:+ lbl node shard +:+ " ").

Definition good_name (name : string) : bool :=
  bool_decide ((byte 123 ∉ to_text name) ∧ (nl ∉ to_text name) ∧ head (to_text name) = Some "c"%char).

Definition one_line (s : string) : bool := bool_decide (nl ∉ to_text s).

Definition label_ok (s : string) : Prop := (nl ∉ to_text s) ∧ (byte 34 ∉ to_text s).

Lemma scan_line key l t : nl ∉ l → scan key (l ++ nl :: t) = option_list (read_sample key l) ++ scan key t.
Proof. intros Hl. unfold scan. rewrite split_on_app by done. simpl. by destruct (read_sample key l). Qed.

Ltac no_nl := repeat (rewrite ?to_text_app; apply not_elem_of_app; split);
  try first [done | by apply (bool_decide_unpack _) | apply fmt_d_no_nl | apply Quote_no_nl].

Lemma good_name_parts name : good_name name = true →
  (byte 123 ∉ to_text name) ∧ (nl ∉ to_text name) ∧ ∃ t, to_text name = "c"%char :: t.
Proof.
  intros (? & ? & Hh)%bool_decide_eq_true. split; [done|]. split; [done|].
  destruct (to_text name); simplify_eq/=. eauto.
Qed.

Lemma one_line_spec s : one_line s = true → nl ∉ to_text s.
Proof. apply bool_decide_eq_true. Qed.

Section Scan.
Variables (node shard name : string).
Hypothesis Hname : good_name name = true.

Lemma read_comment t : read_sample (shard_key name node shard) ("#"%char :: t) = None.
Proof.
  destruct (good_name_parts _ Hname) as (_ & _ & n & E). unfold read_sample, shard_key. rewrite to_text_app, E. done.
Qed.

(** The comments of a metric say nothing. *)
Lemma scan_metric n help typ body rest :
  good_name n = true → one_line help = true → one_line typ = true →
  scan (shard_key name node shard) (to_text (metric n help typ body +:+ rest)) =
  scan (shard_key name node shard) (to_text (body +:+ rest)).
Proof.
  intros (_ & Hn & _)%good_name_parts Hh%one_line_spec Ht%one_line_spec. unfold metric.
  replace (to_text (("# HELP " +:+ n +:+ " " +:+ help +:+ newline +:+ "# TYPE " +:+ n +:+ " " +:+ typ +:+ newline +:+ body) +:+ rest))
    with (to_text ("# HELP " +:+ n +:+ " " +:+ help) ++ nl :: to_text ("# TYPE " +:+ n +:+ " " +:+ typ) ++ nl :: to_text (body +:+ rest)).
  2: { rewrite !to_text_app, <- !app_assoc. done. }
  rewrite scan_line by no_nl. rewrite scan_line by no_nl.
  change (to_text ("# HELP " +:+ ?x)) with ("#"%char :: to_text (" HELP " +:+ x)).
  change (to_text ("# TYPE " +:+ ?x)) with ("#"%char :: to_text (" TYPE " +:+ x)). by rewrite !read_comment.
Qed.

(** A sample of another metric is not read. *)
Lemma scan_other n labels v rest :
  good_name n = true → nl ∉ to_text labels → n ≠ name →
  scan (shard_key name node shard) (to_text (sample n ("{" +:+ labels) v +:+ rest)) =
  scan (shard_key name node shard) (to_text rest).
Proof.
  intros (Hb & Hn & _)%good_name_parts Hl Hne. destruct (good_name_parts _ Hname) as (Hb' & _ & _). unfold sample.
  replace (to_text ((n +:+ ("{" +:+ labels) +:+ " " +:+ fmt_d v +:+ newline) +:+ rest))
    with (to_text (n +:+ "{" +:+ labels +:+ " " +:+ fmt_d v) ++ nl :: to_text rest).
  2: { rewrite !to_text_app, <- !app_assoc. done. }
  rewrite scan_line by no_nl.
  assert (read_sample (shard_key name node shard) (to_text (n +:+ "{" +:+ labels +:+ " " +:+ fmt_d v)) = None) as ->; [|done].
  unfold read_sample, shard_key, lbl. rewrite !(to_text_app name), !(to_text_app n).
  change (to_text (("{node=" +:+ ?x) +:+ ?y)) with (byte 123 :: to_text (("node=" +:+ x) +:+ y)).
  change (to_text ("{" +:+ ?x)) with (byte 123 :: to_text x). rewrite strip_prefix_cut by done.
  rewrite decide_False; [done|]. intros E. apply (f_equal of_text) in E. rewrite !of_to_text in E. congruence.
Qed.

Lemma strip_prefix_common (p a b : text) : strip_prefix (p ++ a) (p ++ b) = strip_prefix a b.
Proof. induction p as [|c p IH]; [done|]. simpl. by rewrite decide_True. Qed.

Hypotheses (Hnode : label_ok node) (Hshard : label_ok shard).

Lemma lbl_no_nl s : label_ok s → nl ∉ to_text (lbl node s).
Proof. intros [? _]. destruct Hnode as [? _]. unfold lbl, dquote. no_nl. Qed.

(** A sample of this metric is read when it is of this shard. *)
Lemma scan_same s v rest :
  label_ok s → (s = shard → in_i64 v) →
  scan (shard_key name node shard) (to_text (sample name (lbl node s) v +:+ rest)) =
  (if decide (shard = s) then [v] else []) ++ scan (shard_key name node shard) (to_text rest).
Proof.
  intros Hs Hv. destruct (good_name_parts _ Hname) as (_ & Hn & _). unfold sample.
  replace (to_text ((name +:+ lbl node s +:+ " " +:+ fmt_d v +:+ newline) +:+ rest))
    with (to_text (name +:+ lbl node s +:+ " " +:+ fmt_d v) ++ nl :: to_text rest).
  2: { rewrite !to_text_app, <- !app_assoc. done. }
  rewrite scan_line.
  2: { rewrite !to_text_app. apply not_elem_of_app. split; [done|]. apply not_elem_of_app. split; [by apply lbl_no_nl|no_nl]. }
  f_equal. unfold read_sample, shard_key, lbl.
  set (p := to_text (name +:+ "{node=" +:+ dquote +:+ node +:+ dquote +:+ ",shard=" +:+ dquote)).
  assert (∀ s t, to_text (name +:+ ("{node=" +:+ dquote +:+ node +:+ dquote +:+ ",shard=" +:+ dquote +:+ s +:+ dquote +:+ "}") +:+ " " +:+ t)
    = p ++ to_text s ++ byte 34 :: to_text ("} " +:+ t)) as Hp.
  { intros s' t. unfold p. rewrite !to_text_app, <- !app_assoc. done. }
  pose proof (Hp shard "") as Hk. change (" " +:+ "") with " " in Hk. rewrite Hk, Hp, strip_prefix_common, strip_prefix_cut by (apply Hshard || apply Hs).
  destruct (decide (shard = s)) as [->|Hne].
  - rewrite decide_True by done. change (to_text ("} " +:+ "")) with (to_text "} "). rewrite to_text_app.
    rewrite strip_prefix_self. cbn [mbind option_bind]. rewrite of_to_text, ParseInt_fmt_d by auto. done.
  - rewrite decide_False; [done|]. intros E. apply (f_equal of_text) in E. rewrite !of_to_text in E. congruence.
Qed.

Variable shards : list ShardHealth.
Hypothesis Hids : ∀ sh, sh ∈ shards → label_ok (sh_ShardID sh).

Lemma scan_shards_same value rest :
  (∀ sh, sh ∈ shards → sh_ShardID sh = shard → in_i64 (value sh)) →
  scan (shard_key name node shard) (to_text (shard_samples node name value shards +:+ rest)) =
  (value <$> filter (λ sh, shard = sh_ShardID sh) shards) ++ scan (shard_key name node shard) (to_text rest).
Proof.
  intros Hv. induction shards as [|sh l IH]; [done|]. unfold shard_samples. cbn [foldr].
  fold (shard_samples node name value l). rewrite <- string_app_assoc, scan_same.
  - rewrite IH; [|intros; apply Hids; by right|intros; apply Hv; [by right|done]]. rewrite filter_cons.
    destruct (decide (shard = sh_ShardID sh)); [|done]. done.
  - apply Hids. by left.
  - intros. apply Hv; [by left|done].
Qed.

Lemma scan_shards_other n value rest :
  good_name n = true → n ≠ name →
  scan (shard_key name node shard) (to_text (shard_samples node n value shards +:+ rest)) =
  scan (shard_key name node shard) (to_text rest).
Proof.
  intros Hn Hne. induction shards as [|sh l IH]; [done|]. unfold shard_samples. cbn [foldr].
  fold (shard_samples node n value l). rewrite <- string_app_assoc.
  assert (nl ∉ to_text (lbl node (sh_ShardID sh))) as Hl by (apply lbl_no_nl, Hids; by left).
  change (lbl node (sh_ShardID sh)) with ("{" +:+ ("node=" +:+ dquote +:+ node +:+ dquote +:+ ",shard=" +:+ dquote +:+ sh_ShardID sh +:+ dquote +:+ "}")) in *.
  rewrite scan_other; [apply IH; intros; apply Hids; by right|done| |done].
  rewrite to_text_app in Hl. by apply not_elem_of_app in Hl as [_ ?].
Qed.

End Scan.

(** The tables: names without braces, one-line texts, no name twice. *)
Definition good_metric {A} (m : string * string * string * A) : bool :=
  good_name m.1.1.1 && one_line m.1.1.2 && one_line m.1.2.

Lemma tables_ok :
  forallb good_metric shard_metrics = true ∧ forallb good_metric admission_metrics = true ∧
  NoDup (((λ m, m.1.1.1) <$> shard_metrics) ++ "corebank_uptime_seconds" :: ((λ m, m.1.1.1) <$> admission_metrics)).
Proof. split; [vm_compute; done|]. split; [vm_compute; done|]. apply (bool_decide_unpack _). vm_compute. done. Qed.

(** What follows the shards' metrics holds none of theirs. *)
Lemma scan_tail name node shard seconds adm :
  good_name name = true → label_ok node →
  name ∉ "corebank_uptime_seconds" :: ((λ m : string * string * string * (AdmissionView → Z), m.1.1.1) <$> admission_metrics) →
  scan (shard_key name node shard) (to_text (admission_part node adm (uptime_metric node seconds))) = [].
Proof.
  intros Hg [Hnl _] [Hup Hadm]%not_elem_of_cons.
  assert (scan (shard_key name node shard) (to_text (uptime_metric node seconds)) = []) as Hu.
  { unfold uptime_metric. rewrite <- (string_app_nil (metric _ _ _ _)), scan_metric by done.
    change ("{node=" +:+ ?x) with ("{" +:+ ("node=" +:+ x)). rewrite scan_other; [| |done| |done]; [|done|unfold dquote; no_nl].
    unfold scan. simpl. destruct (good_name_parts _ Hg) as (_ & _ & n & E). unfold read_sample, shard_key. by rewrite to_text_app, E. }
  unfold admission_part. destruct adm as [a|]; [|done]. destruct (av_Available a); [|done].
  destruct tables_ok as (_ & Ht & _). revert Ht Hadm. induction admission_metrics as [|[[[n h] t] v] ms IH]; [done|].
  cbn [forallb foldr]. intros [[[Hn Hh]%andb_true_iff Ht]%andb_true_iff Hms]%andb_true_iff [Hne Hadm]%not_elem_of_cons.
  rewrite scan_metric by done. unfold node_label. change ("{node=" +:+ ?x) with ("{" +:+ ("node=" +:+ x)).
  rewrite scan_other; [by apply IH|done|done| |done]. no_nl.
Qed.

Lemma scan_page name node shard seconds adm shards help typ value :
  label_ok node → label_ok shard → (∀ sh, sh ∈ shards → label_ok (sh_ShardID sh)) →
  (name, help, typ, value) ∈ shard_metrics →
  (∀ sh, sh ∈ shards → sh_ShardID sh = shard → in_i64 (value sh)) →
  scan (shard_key name node shard) (to_text (metrics_page node seconds shards adm)) =
  value <$> filter (λ sh, shard = sh_ShardID sh) shards.
Proof.
  intros Hnode Hshard Hids Hin Hv. unfold metrics_page. destruct tables_ok as (Ht & _ & Hnd).
  assert (good_name name = true) as Hg.
  { rewrite forallb_forall in Ht. specialize (Ht (name, help, typ, value) (proj1 (list_elem_of_In _ _) Hin)).
    by apply andb_true_iff in Ht as [[Hg _]%andb_true_iff _]. }
  revert Hin Ht Hnd. induction shard_metrics as [|[[[n h] t] v] ms IH]; [by intros ?%elem_of_nil|].
  rewrite fmap_cons. cbn [forallb foldr app fst snd].
  intros Hin [[[Hn Hh]%andb_true_iff Hty]%andb_true_iff Hms]%andb_true_iff [Hnot Hnd]%NoDup_cons.
  rewrite scan_metric by done. destruct (decide (n = name)) as [->|Hne].
  - assert (v = value) as ->.
    { apply elem_of_cons in Hin as [[= _ _ ->]|Hin]; [done|]. exfalso. apply Hnot, elem_of_app. left.
      apply list_elem_of_fmap. by exists (name, help, typ, value). }
    rewrite scan_shards_same by done. rewrite <- app_nil_r. f_equal. clear IH Hin.
    revert Hms Hnd Hnot. induction ms as [|[[[n' h'] t'] v'] ms IH].
    { intros _ _ Hnot. by apply scan_tail. }
    rewrite fmap_cons. cbn [forallb foldr app fst snd].
    intros [[[Hn' Hh']%andb_true_iff Hty']%andb_true_iff Hms]%andb_true_iff [_ Hnd]%NoDup_cons [Hne Hnot]%not_elem_of_cons.
    rewrite scan_metric, scan_shards_other by done. by apply IH.
  - rewrite scan_shards_other by done. apply IH; [|done|done]. apply elem_of_cons in Hin as [[= ? _ _ _]|?]; [congruence|done].
Qed.

(** The metrics page, read back line by line, gives for every metric of the table and
    every shard exactly one value. *)
Lemma scrape_metric node seconds adm shards name help typ value sh :
  label_ok node → (∀ x, x ∈ shards → label_ok (sh_ShardID x)) → NoDup (sh_ShardID <$> shards) →
  (name, help, typ, value) ∈ shard_metrics → sh ∈ shards → in_i64 (value sh) →
  scrape (handleMetrics node seconds shards adm) name (lbl node (sh_ShardID sh)) = [value sh].
Proof.
  intros Hnode Hids Hnd Hm Hsh Hv. unfold scrape, handleMetrics. fold (shard_key name node (sh_ShardID sh)).
  assert (∀ x, x ∈ shards → sh_ShardID x = sh_ShardID sh → x = sh) as Hinj.
  { intros x Hx E. clear -Hx Hsh Hnd E. induction shards as [|y l IH]; [by apply elem_of_nil in Hx|].
    rewrite fmap_cons in Hnd. apply NoDup_cons in Hnd as [Hy Hnd].
    apply elem_of_cons in Hx as [->|Hx], Hsh as [->|Hsh]; auto; exfalso; apply Hy, list_elem_of_fmap; eauto. }
  erewrite scan_page; [|done|by apply Hids| |done|].
  - assert (filter (λ x, sh_ShardID sh = sh_ShardID x) (merge_sort shardid_le shards) ≡ₚ [sh]) as Hp.
    { rewrite (filter_Permutation _ _ _ (merge_sort_Permutation _ _)). clear -Hnd Hsh Hinj. apply NoDup_Permutation.
      - apply NoDup_filter. by eapply NoDup_fmap_1.
      - apply NoDup_singleton.
      - intros x. rewrite list_elem_of_filter, list_elem_of_singleton. split; [intros [? ?]; by apply Hinj|by intros ->]. }
    apply Permutation_singleton_r in Hp. by rewrite Hp.
  - intros x. rewrite merge_sort_Permutation. apply Hids.
  - intros x Hx E. rewrite merge_sort_Permutation in Hx. by rewrite (Hinj x Hx E).
Qed.

Lemma scrape_nth node seconds adm shards sh :
  label_ok node → (∀ x, x ∈ shards → label_ok (sh_ShardID x)) → NoDup (sh_ShardID <$> shards) → sh ∈ shards →
  ∀ k m, shard_metrics !! k = Some m → in_i64 (m.2 sh) →
  scrape (handleMetrics node seconds shards adm) m.1.1.1 (lbl node (sh_ShardID sh)) = [m.2 sh].
Proof.
  intros Hnode Hids Hnd Hsh k m Hk%list_elem_of_lookup_2. destruct m as [[[n he] t] v].
  exact (scrape_metric node seconds adm shards n he t v sh Hnode Hids Hnd Hk Hsh).
Qed.

(** *** From the servers of a host to the page *)

Lemma host_health_in window now (h : ShardHost) sid s :
  Replica sid h = Some s →
  mkShardHealth sid (health_report window now s) (Z.of_nat (length (InDoubt (machine_at sid h))))
    (Z.of_nat (size (Balances (ShardMachine.m_State (machine_at sid h))))) ∈ host_health window now h.
Proof.
  intros Hs. unfold host_health. apply list_elem_of_omap. exists sid. split; [apply ShardIDs_elem; by exists s|].
  by rewrite Hs.
Qed.

Lemma host_health_ids window now (h : ShardHost) :
  NoDup (sh_ShardID <$> host_health window now h) ∧
  ∀ sh, sh ∈ host_health window now h → is_Some (Replica (sh_ShardID sh) h).
Proof.
  assert (NoDup (ShardIDs h)) as Hnd.
  { unfold ShardIDs. rewrite merge_sort_Permutation. apply NoDup_fst_map_to_list. }
  unfold host_health. revert Hnd. induction (ShardIDs h) as [|sid l IH]; [by split; [apply NoDup_nil_2|intros ? ?%elem_of_nil]|].
  intros [Hsid Hnd]%NoDup_cons. destruct (IH Hnd) as [H1 H2]. simpl. destruct (Replica sid h) as [s|] eqn:Er; [|done]. simpl. split.
  - apply NoDup_cons. split; [|done]. intros (sh & E & Hin)%list_elem_of_fmap. apply Hsid. clear -E Hin.
    apply list_elem_of_omap in Hin as (x & Hx & Ex). destruct (Replica x h); [|done]. injection Ex as <-. simpl in E. by subst.
  - intros sh [->|Hin]%elem_of_cons; [by exists s|by apply H2].
Qed.

(** What the report says of a server. *)
Lemma report_fields window now (s : replica) :
  let r := health_report window now s in
  h_Role r = role s ∧ h_Term r = currentTerm s ∧ h_CommitIndex r = commitIndex s ∧ h_LastApplied r = lastApplied s ∧
  h_LogLength r = Z.of_nat (length (log s)) - 1 ∧ h_QuorumNeeded r = Z.of_nat (majority s) ∧
  h_SnapshotIndex r = match snapshot s with Some sn => lastIncludedIndex sn | None => 0 end ∧
  h_AppliedPersistFailures r = appliedErrs s ∧ h_SnapshotFailures r = snapshotErrs s ∧
  h_ConfigFailures r = configErrs s ∧ h_ConfigServers r = peers s ∧
  h_QuorumContact r = if stopped s then 0 else match role s with Leader => quorum_contact window now s | _ => 0 end.
Proof. cbv zeta. unfold health_report, ready, not_ready. repeat case_match; by split_and!. Qed.

(** The numbers are those of an [int64], as indices and terms are in practice. *)
Record printable (window now : Z) (m : ShardMachine.Machine) (s : replica) : Prop := {
  pr_term : in_i64 (currentTerm s);
  pr_commit : 0 ≤ commitIndex s < 2 ^ 63;
  pr_applied : 0 ≤ lastApplied s < 2 ^ 63;
  pr_log : Z.of_nat (length (log s)) < 2 ^ 63;
  pr_snapshot : ∀ sn, snapshot s = Some sn → in_i64 (lastIncludedIndex sn);
  pr_peers : Z.of_nat (length (peers s)) < 2 ^ 63 - 1;
  pr_errs : in_i64 (appliedErrs s) ∧ in_i64 (snapshotErrs s) ∧ in_i64 (configErrs s);
  pr_machine : Z.of_nat (length (InDoubt m)) < 2 ^ 63 ∧ Z.of_nat (size (balances (ShardMachine.m_State m))) < 2 ^ 63
}.

Lemma contact_range window now (s : replica) :
  1 ≤ quorum_contact window now s ≤ 1 + Z.of_nat (length (peers s)).
Proof. rewrite quorum_contact_count. pose proof (length_filter (λ p, p ≠ id s ∧ recent window now s p = true) (peers s)). lia. Qed.

Lemma lag_small a b : 0 ≤ a < 2 ^ 63 → 0 ≤ b < 2 ^ 63 → i64 (i64 a - i64 b) = a - b ∧ in_i64 (a - b).
Proof.
  intros Ha Hb. rewrite (i64_small a), (i64_small b) by (unfold in_i64; lia).
  split; [apply i64_small|]; unfold in_i64; lia.
Qed.

(** C40: A scrape tells the truth about the servers.  Take the metrics page of a host,
    with or without admission control reported, and read it back line by line, for the
    label of a shard that the host has.  Every metric has exactly one value, and it is
    the one of the shard's own Raft server and machine: its role, term, commit index,
    last applied index, their difference, the entries of its log, the index of its
    snapshot, whether it reports itself ready, how many servers a leader heard from
    within the window, the majority of its configuration, the transactions in doubt,
    the accounts, its failures to save the applied index, the size of its
    configuration, its bad configuration entries and failed snapshots.  The names of
    the node and of the shards hold no quote and no line end ([lbl] writes them
    unescaped), and the numbers fit an [int64]. *)
Theorem scrape_handleMetrics node seconds adm window now (h : ShardHost) sid (s : replica) :
  label_ok node → (∀ x, is_Some (Replica x h) → label_ok x) →
  Replica sid h = Some s → printable window now (machine_at sid h) s →
  let page := handleMetrics node seconds (host_health window now h) adm in
  let value name := scrape page ("corebank_" +:+ name) (lbl node sid) in
  value "raft_role" = [match role s with Follower => 0 | Candidate => 1 | Leader => 2 end] ∧
  value "raft_term" = [currentTerm s] ∧
  value "raft_commit_index" = [commitIndex s] ∧
  value "raft_last_applied" = [lastApplied s] ∧
  value "raft_apply_lag" = [commitIndex s - lastApplied s] ∧
  value "raft_log_entries" = [Z.of_nat (length (log s)) - 1] ∧
  value "raft_snapshot_index" = [match snapshot s with Some sn => lastIncludedIndex sn | None => 0 end] ∧
  value "raft_ready" = [if h_Ready (health_report window now s) then 1 else 0] ∧
  value "raft_quorum_contact" =
    [if stopped s then 0 else match role s with Leader => quorum_contact window now s | _ => 0 end] ∧
  value "raft_quorum_needed" = [Z.of_nat (majority s)] ∧
  value "txn_in_doubt" = [Z.of_nat (length (InDoubt (machine_at sid h)))] ∧
  value "ledger_accounts" = [Z.of_nat (size (balances (ShardMachine.m_State (machine_at sid h))))] ∧
  value "storage_persist_failures_total" = [appliedErrs s] ∧
  value "raft_cluster_size" = [Z.of_nat (length (peers s))] ∧
  value "raft_config_failures_total" = [configErrs s] ∧
  value "snapshot_failures_total" = [snapshotErrs s].
Proof.
  intros Hnode Hids Hs [] page value. destruct (host_health_ids window now h) as [Hnd Hin].
  destruct (report_fields window now s) as (F1 & F2 & F3 & F4 & F5 & F6 & F7 & F8 & F9 & F10 & F11 & F12).
  pose proof (host_health_in window now h sid s Hs) as Hsh. pose proof (contact_range window now s) as Hcr.
  assert (∀ x, x ∈ host_health window now h → label_ok (sh_ShardID x)) as Hlab by (intros x Hx; by apply Hids, Hin).
  pose proof (scrape_nth node seconds adm _ _ Hnode Hlab Hnd Hsh) as Hm. fold page in Hm. cbn [sh_ShardID] in Hm.
  assert (Z.of_nat (majority s) ≤ 1 + Z.of_nat (length (peers s))) as Hmaj.
  { unfold majority. assert (length (peers s) / 2 ≤ length (peers s))%nat by (apply Nat.Div0.div_le_upper_bound; lia). lia. }
  assert (in_i64 (match snapshot s with Some sn => lastIncludedIndex sn | None => 0 end)) as Hsn.
  { destruct (snapshot s) as [sn|]; [by apply pr_snapshot0|unfold in_i64; lia]. }
  destruct pr_errs0 as (? & ? & ?). destruct pr_machine0 as [? ?].
  assert (∀ z, 0 ≤ z < 2 ^ 63 → in_i64 z) as Hpos by (unfold in_i64; lia).
  assert (in_i64 (Z.of_nat (length (log s)) - 1)) by (unfold in_i64; lia).
  assert (in_i64 (Z.of_nat (majority s))) by (unfold in_i64; lia).
  assert (in_i64 (Z.of_nat (length (peers s)))) by (unfold in_i64; lia).
  assert (in_i64 (if stopped s then 0 else match role s with Leader => quorum_contact window now s | _ => 0 end))
    by (unfold in_i64; destruct (stopped s), (role s); lia).
  assert (in_i64 (Z.of_nat (length (InDoubt (machine_at sid h))))) by (unfold in_i64; lia).
  assert (in_i64 (Z.of_nat (size (Balances (ShardMachine.m_State (machine_at sid h)))))) by (unfold in_i64, Balances; lia).
  unfold value. clearbody page.
  split_and!;
    [pose proof (Hm 0%nat _ eq_refl) as X|pose proof (Hm 1%nat _ eq_refl) as X|pose proof (Hm 2%nat _ eq_refl) as X
    |pose proof (Hm 3%nat _ eq_refl) as X|pose proof (Hm 4%nat _ eq_refl) as X|pose proof (Hm 5%nat _ eq_refl) as X
    |pose proof (Hm 6%nat _ eq_refl) as X|pose proof (Hm 7%nat _ eq_refl) as X|pose proof (Hm 8%nat _ eq_refl) as X
    |pose proof (Hm 9%nat _ eq_refl) as X|pose proof (Hm 10%nat _ eq_refl) as X|pose proof (Hm 11%nat _ eq_refl) as X
    |pose proof (Hm 12%nat _ eq_refl) as X|pose proof (Hm 13%nat _ eq_refl) as X|pose proof (Hm 14%nat _ eq_refl) as X
    |pose proof (Hm 15%nat _ eq_refl) as X];
    clear Hm; cbn [fst snd sh_Raft sh_InDoubt sh_Accounts] in X;
    rewrite ?F1, ?F2, ?F3, ?F4, ?F5, ?F6, ?F7, ?F8, ?F9, ?F10, ?F11, ?F12 in X.
  - apply X. by destruct (role s).
  - by apply X.
  - by apply X, Hpos.
  - by apply X, Hpos.
  - destruct (lag_small _ _ pr_commit0 pr_applied0) as [El Hl]. rewrite El in X. by apply X.
  - by apply X.
  - by apply X.
  - apply X. by destruct (h_Ready _).
  - by apply X.
  - by apply X.
  - by apply X.
  - by apply X.
  - by apply X.
  - by apply X.
  - by apply X.
  - by apply X.
Qed.

(** The page of the host of the two shards: it leads s2, with bob's account on it. *)
Definition s2_values (page : string) : list Z :=
  concat ((λ name, scrape page ("corebank_" +:+ name) (lbl "n1" "s2")) <$>
    ["raft_role"; "raft_term"; "raft_commit_index"; "raft_log_entries"; "raft_cluster_size"; "ledger_accounts"]).

Lemma scrape_handleMetrics_witness :
  s2_values (handleMetrics "n1" 12 (host_health 0 0 (bank_host [])) (Some (mkAdmissionView 1 2 3 4 false true))) = [2; 1; 2; 2; 3; 1].
Proof.
  assert (∀ s, bool_decide (nl ∉ to_text s) && bool_decide (byte 34 ∉ to_text s) = true → label_ok s) as Hl
    by (by intros s [?%bool_decide_eq_true ?%bool_decide_eq_true]%andb_true_iff).
  assert (∀ x, is_Some (Replica x (bank_host [])) → label_ok x) as Hids.
  { intros x [r Hr]. unfold Replica, bank_host in Hr. cbn [h_replicas] in Hr.
    apply lookup_insert_Some in Hr as [[<- _]|[_ Hr]]; [by apply Hl|].
    apply lookup_singleton_Some in Hr as [<- _]. by apply Hl. }
  assert (printable 0 0 (machine_at "s2" (bank_host [])) s2_replica) as Hp.
  { assert (snapshot s2_replica = None) as Hsn by (vm_compute; reflexivity).
    split; [|..|by rewrite Hsn| | |]; repeat split; vm_compute; first [reflexivity|discriminate]. }
  destruct (scrape_handleMetrics "n1" 12 (Some (mkAdmissionView 1 2 3 4 false true)) 0 0 (bank_host []) "s2" s2_replica
    (Hl "n1" eq_refl) Hids eq_refl Hp) as (V1 & V2 & V3 & _ & _ & V6 & _ & _ & _ & _ & _ & V12 & _ & V14 & _).
  unfold s2_values. cbn [fmap list_fmap concat]. rewrite V1, V2, V3, V6, V12, V14. vm_compute. reflexivity.
Defined.
