(* ===== verification/DemoHealth.v ===== *)
(** * Simulated machine health in the demo (src/demo/health.go)

    The operator's settings and the background drift.  [d_health] is the table under
    the cluster's mutex, [d_pushed] the level that the replicas of a machine were last
    given.  A tick of the drift copies the locks in one locked region and then writes
    machine by machine, each write in its own region: the operator may come between.
    Events are results: the caller hands them to the log of [EventLog]. *)

From S2P Require Import Prelude GoLib RaftTypes Placement EventLog.

Local Open Scope Z_scope.

#[global] Instance NodeHealth_eq_dec : EqDecision NodeHealth.
Proof. solve_decision. Defined.

Record healthState := mkHealthState { hs_level : NodeHealth; hs_locked : bool }.

Record Machines := mkMachines {
  d_nodes : nat;
  d_holders : gset NodeID;                (** machines that hold a replica *)
  d_health : gmap NodeID healthState;
  d_pushed : gmap NodeID NodeHealth
}.

Definition knowsMachine (id : NodeID) (c : Machines) : bool :=
  bool_decide (id ∈ d_holders c) || bool_decide (id ∈ node_name <$> seq 0 (d_nodes c)).

Definition set_table (id : NodeID) (st : healthState) (c : Machines) : Machines :=
  mkMachines (d_nodes c) (d_holders c) (<[id:=st]> (d_health c)) (d_pushed c).

(** [applyHealth] on the machines that hold a replica. *)
Definition applyHealth (id : NodeID) (level : NodeHealth) (c : Machines) : Machines :=
  if bool_decide (id ∈ d_holders c)
  then mkMachines (d_nodes c) (d_holders c) (d_health c) (<[id:=level]> (d_pushed c)) else c.

(** An event about machine [id] that carries a text and nothing else. *)
Definition node_event (kind : EventKind) (id : NodeID) (text : string) : Event := mkEvent 0 "" kind text "" "" id "".

Definition SetHealth (id : NodeID) (level : NodeHealth) (lock : bool) (c : Machines) : Machines * (string + Event) :=
  if negb (knowsMachine id c) then (c, inl ("unknown machine " +:+ id))
  else
    (applyHealth id level (set_table id (mkHealthState level lock) c),
     inr (node_event KindControl id
            (if lock then id +:+ " health LOCKED at " +:+ NodeHealth_String level
             else id +:+ " health set to " +:+ NodeHealth_String level +:+ " (will drift again)"))).

Definition UnlockHealth (id : NodeID) (c : Machines) : Machines * (string + Event) :=
  match d_health c !! id with
  | Some st =>
      (set_table id (mkHealthState (hs_level st) false) c, inr (node_event KindControl id (id +:+ " health unlocked")))
  | None => (c, inl ("unknown machine " +:+ id))
  end.

Definition HealthOf (id : NodeID) (c : Machines) : NodeHealth * bool :=
  match d_health c !! id with Some st => (hs_level st, hs_locked st) | None => (HealthNormal, false) end.

(** ** The drift *)

(** The copy of the locks at the start of a tick. *)
Definition drift_begin (c : Machines) : gmap NodeID bool := hs_locked <$> d_health c.

(** [rnd.Intn(10)] to a level. *)
Definition drift_level (r : Z) : NodeHealth :=
  if r <? 2 then HealthLow else if r <? 5 then HealthHigh else HealthNormal.

(** One machine, and the event that a change logs. *)
Definition drift_one (locked : gmap NodeID bool) (i : nat) (r : Z) (c : Machines) : Machines * option Event :=
  let id := node_name i in
  if default false (locked !! id) then (c, None)
  else
    let level := drift_level r in
    let prev := d_health c !! id in
    (applyHealth id level (set_table id (mkHealthState level false) c),
     if match prev with Some st => bool_decide (hs_level st ≠ level) | None => true end
     then Some (node_event KindDrift id (id +:+ " health drifted to " +:+ NodeHealth_String level)) else None).

(** A tick that nobody interrupts, with the numbers drawn. *)
Definition drift_tick (rs : nat → Z) (c : Machines) : Machines :=
  foldl (λ c' i, (drift_one (drift_begin c) i (rs i) c').1) c (seq 0 (d_nodes c)).

(** An undisturbed drift respects the operator.  Whatever is drawn, a tick leaves a
    locked machine's entry and the level of its replicas as they were, keeps every
    other machine unlocked, and its replicas then run at the level in the table. *)
Theorem drift_respects_locks rs c :
  (∀ id, (HealthOf id c).2 = true →
     d_health (drift_tick rs c) !! id = d_health c !! id ∧ d_pushed (drift_tick rs c) !! id = d_pushed c !! id) ∧
  (∀ i, (i < d_nodes c)%nat → (HealthOf (node_name i) c).2 = false →
     HealthOf (node_name i) (drift_tick rs c) = (drift_level (rs i), false) ∧
     (node_name i ∈ d_holders c → d_pushed (drift_tick rs c) !! node_name i = Some (drift_level (rs i)))).
Proof.
  set (L := drift_begin c).
  assert (∀ id, default false (L !! id) = (HealthOf id c).2) as HL.
  { intros id. unfold L, drift_begin, HealthOf. rewrite lookup_fmap. by destruct (d_health c !! id). }
  assert (∀ k, let c' := foldl (λ c' i, (drift_one L i (rs i) c').1) c (seq 0 k) in
    d_holders c' = d_holders c ∧
    (∀ id, (∀ i, (i < k)%nat → (HealthOf (node_name i) c).2 = false → id ≠ node_name i) →
       d_health c' !! id = d_health c !! id ∧ d_pushed c' !! id = d_pushed c !! id) ∧
    (∀ i, (i < k)%nat → (HealthOf (node_name i) c).2 = false →
       d_health c' !! node_name i = Some (mkHealthState (drift_level (rs i)) false) ∧
       (node_name i ∈ d_holders c → d_pushed c' !! node_name i = Some (drift_level (rs i))))) as Hloop.
  { intros k. induction k as [|k IH]; [split_and!; [done|done|intros i; lia]|]. rewrite seq_S, foldl_app. simpl.
    destruct (foldl _ c (seq 0 k)) as [nn hh tt pp]. simpl in IH. destruct IH as (-> & IH1 & IH2).
    unfold drift_one. rewrite HL. destruct (HealthOf (node_name k) c).2 eqn:Ek; simpl.
    - split; [done|]. split.
      + intros id Hid. apply IH1. intros i Hi. apply Hid. lia.
      + intros i Hi Hun. apply IH2; [|done]. destruct (decide (i = k)) as [->|]; [congruence|lia].
    - unfold applyHealth. simpl. split; [by case_bool_decide|]. split.
      + intros id Hid. assert (id ≠ node_name k) as Hne by (apply Hid; [lia|done]).
        destruct (IH1 id) as [E1 E2]; [intros i Hi; apply Hid; lia|].
        case_bool_decide; simpl; by rewrite !lookup_insert_ne.
      + intros i Hi Hun. destruct (decide (i = k)) as [->|Hne].
        * case_bool_decide; simpl; by rewrite !lookup_insert_eq.
        * destruct (IH2 i) as [E1 E2]; [lia|done|].
          assert (node_name k ≠ node_name i) by (intros E; by apply node_name_inj in E).
          case_bool_decide; simpl; by rewrite !lookup_insert_ne. }
  destruct (Hloop (d_nodes c)) as (_ & H1 & H2). unfold drift_tick. fold L. split.
  - intros id Hlock. apply H1. intros i _ Hun ->. congruence.
  - intros i Hi Hun. destruct (H2 i Hi Hun) as [E1 E2]. split; [|done]. unfold HealthOf. by rewrite E1.
Qed.

(** ** A lock lost to a tick under way *)

Definition two_machines : Machines := mkMachines 2 {["node-1"; "node-2"]} ∅ ∅.

(** The tick has copied the locks; the operator pins node-1 at high; the tick then
    comes to node-1 with a draw of 0. *)
Definition pinned_in_between : Machines * option Event :=
  drift_one (drift_begin two_machines) 0 0 (SetHealth "node-1" HealthHigh true two_machines).1.

(** A lock can be lost.  An operator who locks a machine while a tick is between
    its copy of the locks and its write gets no error, but the machine is unlocked
    and its level overwritten. *)
Theorem lock_lost :
  (SetHealth "node-1" HealthHigh true two_machines).2 = inr (node_event KindControl "node-1" "node-1 health LOCKED at high") ∧
  HealthOf "node-1" (SetHealth "node-1" HealthHigh true two_machines).1 = (HealthHigh, true) ∧
  HealthOf "node-1" pinned_in_between.1 = (HealthLow, false).
Proof. split_and!; vm_compute; reflexivity. Qed.
