(* ===== verification/DemoControl.v ===== *)
(** * The demo's control actions (src/demo/control.go, seed.go, resize.go, and demo.go's state)

    The cluster behind the dashboard: a coordinator over groups, the fault state that
    the operator injected, and the two event logs.  The groups live in a world [W] as
    in [Coordinator]; their members are [d_holders], and one simulated network connects
    all machines.  [at] is the formatted time of an event. *)

From Stdlib Require Import SpecFloat.
From S2P Require Import Prelude GoLib GoFloat GoStrings Hlc Ledger Ring TwoPC ShardMachine Coordinator Storage RaftTypes RaftDisk.
From S2P Require Import DemoHealth SimNetwork EventLog Placement Heal ShardNode.

Local Open Scope Z_scope.

Section Demo.
Context {W R Srv : Type} `{Group W} `{Rand R} `{SortSlice}.

Record Demo := mkDemo {
  d_coord : Coordinator;
  d_world : W;
  d_holders : gmap string (list NodeID);
  d_net : Network R Srv;
  d_crashed : gset NodeID;
  d_events : list string;
  d_eventLog : eventLog;
  d_accounts : list string;
  d_nodes : Z;
  d_replicationFactor : Z
}.

Definition set_called (c : Coordinator) (w : W) (d : Demo) : Demo :=
  mkDemo c w (d_holders d) (d_net d) (d_crashed d) (d_events d) (d_eventLog d) (d_accounts d) (d_nodes d) (d_replicationFactor d).
Definition set_faults (net : Network R Srv) (crashed : gset NodeID) (d : Demo) : Demo :=
  mkDemo (d_coord d) (d_world d) (d_holders d) net crashed (d_events d) (d_eventLog d) (d_accounts d) (d_nodes d)
    (d_replicationFactor d).
Definition set_logs (events : list string) (l : eventLog) (d : Demo) : Demo :=
  mkDemo (d_coord d) (d_world d) (d_holders d) (d_net d) (d_crashed d) events l (d_accounts d) (d_nodes d) (d_replicationFactor d).
Definition set_accounts (accounts : list string) (d : Demo) : Demo :=
  mkDemo (d_coord d) (d_world d) (d_holders d) (d_net d) (d_crashed d) (d_events d) (d_eventLog d) accounts (d_nodes d)
    (d_replicationFactor d).

(** ** The logs *)

(** The last 200 lines. *)
Definition clip (events : list string) : list string := drop (length events - 200) events.

Definition logf (at_ text : string) (d : Demo) : Demo :=
  set_logs (clip (d_events d ++ [at_ +:+ "  " +:+ text])) (d_eventLog d) d.

(** [add] fails only on a negative bound; the demo's log is made with 500. *)
Definition logEvent (at_ : string) (e : Event) (d : Demo) : Demo :=
  set_logs (clip (d_events d ++ [at_ +:+ "  " +:+ ev_Text e])) (default (d_eventLog d) (add at_ e (d_eventLog d))) d.

(** The verb [%v] on an error. *)
Definition fmt_err (err : option error) : string := match err with Some e => Error e | None => "<nil>" end.

(** [errors.Is(err, s)]; no error is nothing. *)
Definition is_err (err : option error) (s : sentinel) : bool := match err with Some e => errors_Is e s | None => false end.

(** ** Money *)

Definition client_event (outcome account shard text : string) : Event := mkEvent 0 "" KindClient text account shard "" outcome.

Definition open_command (account : string) (amount : Z) : Ledger.Command :=
  Ledger.mkCommand OpOpenAccount ("open-" +:+ account) "" account amount zeroTimestamp.

Definition Open (physical : Z) (at_ account : string) (amount : Z) (d : Demo) : Demo * (Result * option error) :=
  if amount <? 0 then (d, (zeroResult, Some (Plain "opening balance cannot be negative")))
  else
    let '(c, (w, (res, err))) := Transfer (d_coord d) physical ("open-" +:+ account) (open_command account amount) (d_world d) in
    let d := set_called c w d in
    let sid := ShardFor (d_coord d) account in
    if bool_decide (err = None) && r_OK res then
      let d := if bool_decide (account ∈ d_accounts d) then d else set_accounts (d_accounts d ++ [account]) d in
      (logEvent at_ (client_event "ok" account sid
         ("opened " +:+ account +:+ " with " +:+ Money_String amount +:+ " on " +:+ sid)) d, (res, err))
    else
      (logEvent at_ (client_event "refused" account sid
         ("open " +:+ account +:+ " FAILED: " +:+ fmt_err err +:+ " " +:+ r_Err res)) d, (res, err)).

Definition op_named (op : string) : option Z :=
  if String.eqb op "deposit" then Some OpDeposit
  else if String.eqb op "withdraw" then Some OpWithdraw
  else if String.eqb op "transfer" then Some OpTransfer
  else None.

Definition txAccount (from to : string) : string := if String.eqb from "" then to else from.

(** What happened, as the log tells it. *)
Definition tx_event (op key : string) (amount : Z) (account sid : string) (res : Result) (err : option error) : Event :=
  if bool_decide (err = None) && r_OK res then
    client_event "ok" account sid
      (op +:+ " " +:+ Money_String amount +:+ " ok (key " +:+ key +:+ ") balance=" +:+ Money_String (r_Balance res))
  else if is_err err ErrInDoubt || is_err err ErrCommitUnknown then
    client_event "indeterminate" account sid
      (op +:+ " " +:+ Money_String amount +:+ " INDETERMINATE (key " +:+ key
         +:+ ") — entry is in the log, awaiting quorum; retry with the same key")
  else
    let reason := if String.eqb (r_Err res) "" && bool_decide (err ≠ None) then fmt_err err else r_Err res in
    client_event "refused" account sid
      (op +:+ " " +:+ Money_String amount +:+ " refused (key " +:+ key +:+ "): " +:+ reason).

Definition Transact (physical : Z) (at_ op key from to : string) (amount : Z) (d : Demo) : Demo * (Result * option error) :=
  match op_named op with
  | None => (d, (zeroResult, Some (Plain ("unknown op " +:+ Quote op))))
  | Some lop =>
      if String.eqb key "" then (d, (zeroResult, Some (Plain "an idempotency key is required")))
      else
        let '(c, (w, (res, err))) :=
          Transfer (d_coord d) physical key (Ledger.mkCommand lop key from to amount zeroTimestamp) (d_world d) in
        let d := set_called c w d in
        let account := txAccount from to in
        (logEvent at_ (tx_event op key amount account (ShardFor (d_coord d) account) res err) d, (res, err))
  end.

(** [order] is the order in which the coordinator's map of groups is enumerated. *)
Definition demo_RecoverInDoubt (order : list ID) (at_ : string) (d : Demo) : Demo * (Z * option error) :=
  let '(w, (n, err)) := Coordinator.RecoverInDoubt (d_coord d) order (d_world d) in
  let d := set_called (d_coord d) w d in
  (logf at_ (match err with
             | Some e => "recovery incomplete: " +:+ Error e
             | None => if 0 <? n then "recovery resolved " +:+ fmt_d n +:+ " in-doubt transaction(s)"
                       else "recovery found nothing in doubt"
             end) d, (n, err)).

(** ** Faults *)

Definition holders_in (d : Demo) (sid : ID) : list NodeID := default [] (d_holders d !! sid).

(** [groupOf]; every group is on the one network, so only whether there is one matters. *)
Definition groupOf (me : NodeID) (d : Demo) : option ID :=
  snd <$> list_find (λ sid, me ∈ holders_in d sid) (Shards (co_ring (d_coord d))).

Definition control_event (me : NodeID) (text : string) : Event := mkEvent 0 "" KindControl text "" "" me "".

Definition Kill (at_ : string) (me : NodeID) (d : Demo) : Demo * option string :=
  match groupOf me d with
  | None => (d, Some ("unknown node " +:+ me))
  | Some _ =>
      if bool_decide (me ∈ d_crashed d) then (d, Some (me +:+ " is already down"))
      else
        let d := set_faults (Crash me (d_net d)) ({[me]} ∪ d_crashed d) d in
        (logEvent at_ (control_event me ("KILLED " +:+ me)) d, None)
  end.

Definition Revive (at_ : string) (me : NodeID) (d : Demo) : Demo * option string :=
  match groupOf me d with
  | None => (d, Some ("unknown node " +:+ me))
  | Some _ =>
      if negb (bool_decide (me ∈ d_crashed d)) then (d, Some (me +:+ " is not down"))
      else
        let d := set_faults (Net_Restore me (d_net d)) (d_crashed d ∖ {[me]}) d in
        (logEvent at_ (control_event me ("REVIVED " +:+ me +:+ " — catching up from the leader")) d, None)
  end.

Definition isCrashed (me : NodeID) (d : Demo) : bool := bool_decide (me ∈ d_crashed d).

(** ** Shape *)

(** [range] over the accounts to open, stopping at the first error. *)
Fixpoint seed_loop (physical : Z) (at_ : string) (want : list (string * Z)) (d : Demo) : Demo * option error :=
  match want with
  | [] => (d, None)
  | (name, amount) :: want =>
      match Open physical at_ name amount d with
      | (d, (_, Some e)) => (d, Some (wrap (λ m, "seed " +:+ name +:+ ": " +:+ m) e))
      | (d, (_, None)) => seed_loop physical at_ want d
      end
  end.

Definition seeded : list (string * Z) := [("alice", 100000); ("bob", 50000); ("carol", 25000); ("dave", 10000)].

Definition SeedAccounts (physical : Z) (at_ : string) (d : Demo) : Demo * option error :=
  match seed_loop physical at_ seeded d with
  | (d, Some e) => (d, Some e)
  | (d, None) =>
      let placement : gset string := list_to_set ((λ x, ShardFor (d_coord d) x.1) <$> seeded) in
      (if (size placement <? 2)%nat then
         logf at_ "NOTE: every seeded account landed on one shard, so no cross-shard transfer is possible with these four; open another account to get one" d
       else d, None)
  end.

(** The network of a placed cluster; [srv] are the servers it starts. *)
Definition placed_net (seed : Z) (srv : ID → NodeID → Srv) (placed : list (ID * list NodeID)) : Network R Srv :=
  foldl (λ net p, foldl (λ net n, RegisterGroup p.1 n (srv p.1 n) net) net p.2) (NewNetwork seed) placed.

(** The demo over a cluster whose groups are [w]. *)
Definition demo_over (seed : Z) (srv : ID → NodeID → Srv) (w : W) (placed : list (ID * list NodeID)) (events : list string)
    (l : eventLog) (nNodes replicationFactor : Z) : Demo :=
  let ids := placed.*1 in
  mkDemo (NewCoordinator (NewRing ids (Z.of_nat DefaultVNodes)) (list_to_set ids)) w (list_to_map placed)
    (placed_net seed srv placed) ∅ events l [] nNodes replicationFactor.

(** [NewWithStorage]: what the system says of the directory, of the restore and of the
    elections is given. *)
Definition NewWithStorage (at_ : string) (srv : ID → NodeID → Srv) (w : W) (mkdir_err restore_err : option string) (elected : bool)
    (nShards nNodes replicationFactor seed : Z) (dataDir : string) : string + Demo :=
  let durable := negb (String.eqb dataDir "") in
  match (if durable then mkdir_err else None) with
  | Some err => inl ("demo: creating data directory: " +:+ err)
  | None =>
      match NewPlacedCluster nShards nNodes replicationFactor with
      | inl err => inl err
      | inr placed =>
          match (if durable then restore_err else None) with
          | Some err => inl ("demo: restoring from " +:+ dataDir +:+ ": " +:+ err)
          | None =>
              if negb elected then inl "demo: cluster did not elect leaders"
              else
                let d := demo_over seed srv w placed [] (newEventLog 500) nNodes replicationFactor in
                let d := logEvent at_ (mkEvent 0 "" KindControl ("cluster started: " +:+ fmt_d nShards +:+ " shards across "
                           +:+ fmt_d nNodes +:+ " machines, replication factor " +:+ fmt_d replicationFactor) "" "" "" "") d in
                inr (if durable then
                       logEvent at_ (mkEvent 0 "" KindControl ("restored from " +:+ dataDir
                         +:+ " — balances and in-flight transactions replayed from each replica's log") "" "" "" "") d
                     else d)
          end
      end
  end.

(** Accounts opened again after a resize; a failure is only logged. *)
Fixpoint reopen (physical : Z) (at_ : string) (accounts : list string) (d : Demo) : Demo :=
  match accounts with
  | [] => d
  | a :: accounts =>
      match Open physical at_ a 10000 d with
      | (d, (_, Some e)) => reopen physical at_ accounts (logf at_ ("could not reopen " +:+ a +:+ " after resize: " +:+ Error e) d)
      | (d, (_, None)) => reopen physical at_ accounts d
      end
  end.

(** [Resize]: [next] is the world of the groups that were started and [elected] whether
    they all had a leader within five seconds. *)
Definition Resize (physical : Z) (at_ : string) (srv : ID → NodeID → Srv) (next : W) (elected : bool)
    (nShards nNodes replicationFactor : Z) (d : Demo) : Demo * option string :=
  if replicationFactor <? 1 then (d, Some "replication factor must be at least 1")
  else if nNodes <? replicationFactor then
    (d, Some ("replication factor " +:+ fmt_d replicationFactor +:+ " exceeds " +:+ fmt_d nNodes
                +:+ " machines: a shard cannot have more replicas than there are machines to hold them"))
  else if nShards <? 1 then (d, Some "a cluster needs at least one shard")
  else
    match NewPlacedCluster nShards nNodes replicationFactor with
    | inl err => (d, Some err)
    | inr placed =>
        if negb elected then (d, Some "the resized cluster did not elect leaders")
        else
          let accounts := d_accounts d in
          let d := demo_over 42 srv next placed (d_events d) (d_eventLog d) nNodes replicationFactor in
          let d := logf at_ ("REBUILT as " +:+ fmt_d nShards +:+ " shards over " +:+ fmt_d nNodes
                     +:+ " machines (replication factor " +:+ fmt_d replicationFactor
                     +:+ ") — a live cluster would migrate replicas instead; this rebuilds to show the resulting placement") d in
          (reopen physical at_ accounts d, None)
    end.

Definition Topology (d : Demo) : Z * Z * Z :=
  (Z.of_nat (length (Shards (co_ring (d_coord d)))), d_nodes d, d_replicationFactor d).

(** ** Properties *)

(** What holds of the demo at all times: the operator's fault state is the network's,
    accounts are listed once, and both logs are bounded. *)
Record demo_ok (d : Demo) : Prop := {
  do_faults : d_crashed d = n_crashed (d_net d);
  do_accounts : NoDup (d_accounts d);
  do_events : (length (d_events d) ≤ 200)%nat;
  do_log : 0 ≤ el_max (d_eventLog d) ∧ Z.of_nat (length (el_events (d_eventLog d))) ≤ el_max (d_eventLog d)
}.

Inductive dstep (d : Demo) : Demo → Prop :=
  | dstep_open physical at_ account amount : dstep d (Open physical at_ account amount d).1
  | dstep_tx physical at_ op key from to amount : dstep d (Transact physical at_ op key from to amount d).1
  | dstep_recover order at_ : dstep d (demo_RecoverInDoubt order at_ d).1
  | dstep_kill at_ me : dstep d (Kill at_ me d).1
  | dstep_revive at_ me : dstep d (Revive at_ me d).1
  | dstep_seed physical at_ : dstep d (SeedAccounts physical at_ d).1
  | dstep_resize physical at_ srv next elected nShards nNodes rf :
      dstep d (Resize physical at_ srv next elected nShards nNodes rf d).1
  | dstep_event at_ e : dstep d (logEvent at_ e d).

Lemma clip_bound events : (length (clip events) ≤ 200)%nat.
Proof. unfold clip. rewrite length_drop. lia. Qed.

Lemma add_bounded at_ e l :
  0 ≤ el_max l → ∃ l', add at_ e l = Some l' ∧ el_max l' = el_max l ∧ Z.of_nat (length (el_events l')) ≤ el_max l'.
Proof.
  intros Hm. unfold add. set (es := el_events l ++ _). destruct (Z.ltb_spec (el_max l) (Z.of_nat (length es))) as [Hlt|Hge].
  - destruct (Z.ltb_spec (el_max l) 0); [lia|]. eexists. split; [done|]. simpl. rewrite length_drop. split; [done|lia].
  - eexists. by split.
Qed.

Lemma logf_ok at_ text d : demo_ok d → demo_ok (logf at_ text d).
Proof. intros [? ? ? ?]. split; simpl; try done. apply clip_bound. Qed.

Lemma logEvent_ok at_ e d : demo_ok d → demo_ok (logEvent at_ e d).
Proof.
  intros [? ? ? [Hm ?]]. split; simpl; try done; [apply clip_bound|].
  destruct (add_bounded at_ e _ Hm) as (l' & -> & Hmax & Hlen). simpl. rewrite Hmax in *. done.
Qed.

Lemma Open_ok physical at_ account amount d : demo_ok d → demo_ok (Open physical at_ account amount d).1.
Proof.
  intros Hd. unfold Open. destruct (amount <? 0); [done|].
  destruct (Transfer _ _ _ _ _) as [c [w [res err]]]. destruct (_ && _); cbn [fst]; apply logEvent_ok; [|by destruct Hd].
  case_bool_decide as E; [by destruct Hd|]. destruct Hd. split; simpl; try done.
  apply NoDup_app. split; [done|]. split; [|apply NoDup_singleton]. intros a Ha ->%list_elem_of_singleton. by destruct E.
Qed.

Lemma seed_loop_ok physical at_ want d : demo_ok d → demo_ok (seed_loop physical at_ want d).1.
Proof.
  revert d. induction want as [|[name amount] want IH]; intros d Hd; simpl; [done|].
  pose proof (Open_ok physical at_ name amount d Hd) as Ho. destruct (Open _ _ _ _ _) as [d' [res [e|]]]; simpl in *; auto.
Qed.

Lemma reopen_ok physical at_ accounts d : demo_ok d → demo_ok (reopen physical at_ accounts d).
Proof.
  revert d. induction accounts as [|a accounts IH]; intros d Hd; cbn [reopen]; [done|].
  pose proof (Open_ok physical at_ a 10000 d Hd) as Ho. destruct (Open _ _ _ _ _) as [d' [res [e|]]]; simpl in *; auto using logf_ok.
Qed.

Lemma placed_net_crashed seed srv placed : n_crashed (placed_net seed srv placed) = ∅.
Proof.
  unfold placed_net. assert (n_crashed (NewNetwork seed : Network R Srv) = ∅) as E by done. revert E.
  generalize (NewNetwork seed : Network R Srv). induction placed as [|[sid ns] placed IH]; intros net E; simpl; [done|].
  apply IH. clear IH. revert net E. induction ns as [|n ns IH]; intros net E; simpl; [done|]. by apply IH.
Qed.

(** The demo starts consistent. *)
Lemma NewWithStorage_ok at_ srv w mkdir_err restore_err elected nShards nNodes rf seed dataDir d :
  NewWithStorage at_ srv w mkdir_err restore_err elected nShards nNodes rf seed dataDir = inr d → demo_ok d.
Proof.
  unfold NewWithStorage. destruct (if negb _ then mkdir_err else None); [done|].
  destruct (NewPlacedCluster _ _ _) as [|placed]; [done|]. destruct (if negb _ then restore_err else None); [done|].
  destruct elected; [|done]. cbn [negb]. intros [= <-].
  assert (demo_ok (demo_over seed srv w placed [] (newEventLog 500) nNodes rf)) as Hd
    by (split; simpl; [by rewrite placed_net_crashed|constructor|lia|lia]).
  destruct (negb _); repeat apply logEvent_ok; done.
Qed.

(** The demo's state stays consistent.  Along any sequence of operator and client
    actions, whatever the groups answer, the machines that the dashboard shows as
    killed are those the network cuts off, no account is listed twice, and neither
    log grows past its bound. *)
Theorem demo_ok_invariant d d' : demo_ok d → rtc dstep d d' → demo_ok d'.
Proof.
  intros Hd Hrun. induction Hrun as [|d1 d2 d3 Hstep _ IH]; [done|]. apply IH. clear IH.
  destruct Hstep.
  - by apply Open_ok.
  - unfold Transact. destruct (op_named op); [|done]. destruct (String.eqb key ""); [done|].
    destruct (Transfer _ _ _ _ _) as [c [w [res err]]]. apply logEvent_ok. by destruct Hd.
  - unfold demo_RecoverInDoubt. destruct (Coordinator.RecoverInDoubt _ _ _) as [w [n err]]. apply logf_ok. by destruct Hd.
  - unfold Kill. destruct (groupOf _ _); [|done]. case_bool_decide; [done|]. apply logEvent_ok.
    destruct Hd as [Hf ? ? ?]. split; simpl; try done. by rewrite Hf.
  - unfold Revive. destruct (groupOf _ _); [|done]. destruct (negb _); [done|]. apply logEvent_ok.
    destruct Hd as [Hf ? ? ?]. split; simpl; try done. by rewrite Hf.
  - unfold SeedAccounts. pose proof (seed_loop_ok physical at_ seeded d1 Hd) as Hs.
    destruct (seed_loop _ _ _ _) as [d' [e|]]; [done|]. simpl in *. destruct (_ <? _)%nat; [by apply logf_ok|done].
  - unfold Resize. destruct (rf <? 1); [done|]. destruct (nNodes <? rf); [done|]. destruct (nShards <? 1); [done|].
    destruct (NewPlacedCluster _ _ _) as [|placed]; [done|]. destruct elected; [|done]. cbn [negb fst].
    apply reopen_ok, logf_ok. destruct Hd. split; simpl; try done; [by rewrite placed_net_crashed|constructor].
  - by apply logEvent_ok.
Qed.

(** Killing and reviving.  A machine that holds a replica and is up can be killed;
    no message then reaches it or leaves it, whatever the network draws; it can be
    revived, after which the operator's fault state is what it was.  A machine that
    no group knows, a second kill, and reviving a machine that is up are refused and
    change nothing. *)
Theorem Kill_Revive at_ at' me d :
  demo_ok d →
  match groupOf me d with
  | None => (Kill at_ me d).1 = d ∧ (Revive at_ me d).1 = d ∧
            is_Some (Kill at_ me d).2 ∧ is_Some (Revive at_ me d).2
  | Some _ =>
      if isCrashed me d then (Kill at_ me d).1 = d ∧ is_Some (Kill at_ me d).2 ∧ (Revive at_ me d).2 = None
      else
        let k := (Kill at_ me d).1 in
        (Revive at_ me d).1 = d ∧ is_Some (Revive at_ me d).2 ∧ (Kill at_ me d).2 = None ∧
        (∀ x, (deliverable me x (d_net k)).2 = None ∧ (deliverable x me (d_net k)).2 = None) ∧
        (Revive at' me k).2 = None ∧ d_crashed (Revive at' me k).1 = d_crashed d ∧
        n_crashed (d_net (Revive at' me k).1) = n_crashed (d_net d)
  end.
Proof.
  intros Hd. unfold Kill, Revive, isCrashed.
  destruct (groupOf me d) as [sid|] eqn:Eg; [|split_and!; simpl; eauto]. case_bool_decide as Ec; cbn [negb fst snd].
  { split_and!; eauto. }
  assert (me ∈ {[me]} ∪ d_crashed d) as Hin by (clear; set_solver).
  assert (({[me]} ∪ d_crashed d) ∖ {[me]} = d_crashed d) as Hback.
  { apply set_eq. intros x. rewrite elem_of_difference, elem_of_union, !elem_of_singleton.
    split; [by intros [[->|?] ?]|]. intros ?. split; [by right|by intros ->]. }
  set (k := logEvent at_ _ _). change (groupOf me k) with (groupOf me d). rewrite Eg.
  change (d_crashed k) with ({[me]} ∪ d_crashed d). rewrite (bool_decide_true _ Hin). cbn [negb fst snd].
  split_and!; eauto.
  - intros x. unfold deliverable. simpl n_crashed. rewrite <- (do_faults d Hd).
    rewrite (bool_decide_true (me ∈ _)) by exact Hin. rewrite orb_true_r. by split.
  - simpl. rewrite <- (do_faults d Hd). exact Hback.
Qed.

(** The event that a step files. *)
Definition filed_event (at_ : string) (e : Event) (d d' : Demo) : Prop :=
  add at_ e (d_eventLog d) = Some (d_eventLog d') ∧ d_events d' = clip (d_events d ++ [at_ +:+ "  " +:+ ev_Text e]).

(** What a client action does.  An unknown operation or a missing key touches
    nothing.  Otherwise exactly the coordinator is called, its answer is returned as it
    is, and one event tells it apart: "ok" only for a success, "indeterminate" exactly
    for an outcome that is not known (also when the error is wrapped), "refused" for
    everything else. *)
Theorem Transact_outcomes physical at_ op key from to amount d :
  demo_ok d →
  let '(d', (res, err)) := Transact physical at_ op key from to amount d in
  if bool_decide (op_named op = None) || bool_decide (key = "") then d' = d ∧ res = zeroResult ∧ is_Some err
  else
    ∃ lop e, op_named op = Some lop ∧
      Transfer (d_coord d) physical key (Ledger.mkCommand lop key from to amount zeroTimestamp) (d_world d)
      = (d_coord d', (d_world d', (res, err))) ∧
      filed_event at_ e d d' ∧ ev_Kind e = KindClient ∧
      (ev_Outcome e = "ok" ↔ err = None ∧ r_OK res = true) ∧
      (ev_Outcome e = "indeterminate" ↔ is_err err ErrInDoubt = true ∨ is_err err ErrCommitUnknown = true) ∧
      (ev_Outcome e = "refused" ↔
        (err = None → r_OK res = false) ∧ is_err err ErrInDoubt = false ∧ is_err err ErrCommitUnknown = false).
Proof.
  intros Hd. unfold Transact. destruct (op_named op) as [lop|]; simpl; [|by split_and!].
  destruct (String.eqb_spec key "") as [->|Hk]; [by split_and!|]. rewrite bool_decide_false by done.
  destruct (Transfer _ _ _ _ _) as [c [w [res err]]] eqn:E. cbn [orb].
  exists lop. eexists. split; [done|]. split; [exact E|]. split.
  { split; [|done]. simpl. destruct (add_bounded at_ (tx_event op key amount (txAccount from to)
      (ShardFor c (txAccount from to)) res err) (d_eventLog d) (proj1 (do_log d Hd))) as (l' & -> & _). done. }
  unfold tx_event. destruct err as [e|]; [rewrite (bool_decide_false (Some e = None)) by done|rewrite bool_decide_true by done].
  - cbn [andb]. unfold is_err. destruct (errors_Is e ErrInDoubt), (errors_Is e ErrCommitUnknown); simpl; split_and!; try done;
      split; try done; try (by intros [? ?]); try (by intros (? & ? & ?)); try (by intros _; auto); try (by intros [?|?]).
  - cbn [andb is_err orb]. destruct (r_OK res); simpl; split_and!; try done;
      split; try done; try (by intros [? ?]); try (by intros (Hx & ? & ?); specialize (Hx eq_refl)); try (by intros [?|?]).
Qed.

(** A killed machine that no group holds any more, as after its replicas were
    replaced, cannot be revived: every attempt is refused as an unknown node. *)
Theorem retired_machine_stays_down at_ me d :
  (∀ sid, sid ∈ Shards (co_ring (d_coord d)) → me ∉ holders_in d sid) →
  Revive at_ me d = (d, Some ("unknown node " +:+ me)).
Proof.
  intros Hno. unfold Revive, groupOf. destruct (list_find _ _) as [[k sid]|] eqn:E; [|done].
  apply list_find_Some in E as (Hk & Hin & _). destruct (Hno sid); [by eapply list_elem_of_lookup_2|done].
Qed.

End Demo.

Arguments Demo : clear implicits.

(** ** Concrete instances *)

#[local] Instance still : Rand unit := {|
  rnd_new seed := tt;
  rnd_Float64 r := (fzero, r);
  rnd_Int63n k r := (0, r)
|}.

#[local] Existing Instance merge_SortSlice.

(** The groups of [ShardNode.bank_host] behind the dashboard. *)
Definition demo0 : Demo ShardHost unit unit :=
  mkDemo two_shards (bank_host []) {["s1" := ["n1"]; "s2" := three]} (NewNetwork 42) ∅ [] (newEventLog 500) [] 3 3.

Lemma demo0_ok : demo_ok demo0.
Proof. split; [reflexivity|constructor|simpl; lia|simpl; lia]. Qed.

Lemma demo_ok_invariant_witness :
  demo_ok (Kill "t" "n2" demo0).1 ∧ d_crashed (Kill "t" "n2" demo0).1 = {["n2"]}.
Proof.
  split; [|reflexivity]. apply (demo_ok_invariant demo0); [exact demo0_ok|]. apply rtc_once. apply dstep_kill.
Defined.

Lemma Kill_Revive_witness :
  groupOf "n2" demo0 = Some "s2" ∧ (Kill "t" "n2" demo0).2 = None ∧ (Revive "t" "n2" (Kill "t" "n2" demo0).1).2 = None.
Proof.
  pose proof (Kill_Revive "t" "t" "n2" demo0 demo0_ok) as Hk.
  assert (groupOf "n2" demo0 = Some "s2") as Hg by (vm_compute; reflexivity). rewrite Hg in Hk.
  destruct Hk as (_ & _ & H1 & _ & H2 & _). split; [reflexivity|]. split; [exact H1|exact H2].
Defined.

(** alice withdraws 30 of her 100. *)
Lemma Transact_outcomes_witness :
  (Transact 5 "t" "withdraw" "w1" "alice" "" 30 demo0).2 = (succeeded 70, None) ∧
  ∃ e, filed_event "t" e demo0 (Transact 5 "t" "withdraw" "w1" "alice" "" 30 demo0).1 ∧ ev_Outcome e = "ok".
Proof.
  pose proof (Transact_outcomes 5 "t" "withdraw" "w1" "alice" "" 30 demo0 demo0_ok) as Ht.
  assert ((Transact 5 "t" "withdraw" "w1" "alice" "" 30 demo0).2 = (succeeded 70, None)) as Hr by (vm_compute; reflexivity).
  destruct (Transact 5 "t" "withdraw" "w1" "alice" "" 30 demo0) as [d' [res err]].
  cbn [snd] in Hr. injection Hr as -> ->. cbn in Ht. destruct Ht as (lop & e & _ & _ & Hf & _ & Hok & _).
  split; [reflexivity|]. exists e. split; [exact Hf|]. by apply Hok.
Defined.

(** * The demo's HTTP handlers (src/demo/server.go)

    Each handler as a function of the query ([Query().Get]: the first value of a name,
    or the empty string) and of the cluster, to the object that is written as JSON.
    Listening, the event stream's ticker and the JSON text itself are left to the
    standard library. *)


Inductive jval :=
  | JBool (b : bool)
  | JInt (z : Z)
  | JStr (s : string)
  | JHeals (rs : list HealResult)
  | JUnder (us : list UnderReplicated)
  | JEvents (es : list Event)
  | JAxes (axes : list string * list string * list string).

Definition object : Type := gmap string jval.

Definition refusal (err : string) : object := {["ok" := JBool false; "err" := JStr err]}.

(** [replyOf]: == on errors is identity of the value, so only the sentinel itself. *)
Definition replyOf (res : Result) (err : option error) : object :=
  let out : object := {["ok" := JBool (bool_decide (err = None) && r_OK res); "balance" := JInt (r_Balance res)]} in
  match err with
  | None => if r_OK res then out else <["err":=JStr (r_Err res)]> out
  | Some e =>
      if errors_Is e ErrInDoubt || errors_Is e ErrCommitUnknown then
        <["err":=JStr (Error e)]> (<["indeterminate":=JBool true]> out)
      else
        match e with
        | Sentinel ErrTxAborted =>
            <["err":=JStr (if String.eqb (r_Err res) "" then Error e else r_Err res)]> (<["aborted":=JBool true]> out)
        | _ => <["err":=JStr (Error e)]> out
        end
  end.

(** The amount of a request; the error is dropped. *)
Definition amount_of (q : string → string) : Z := (ParseInt (q "amount")).1.

(** The reply to an operation that has nothing to say but its error. *)
Definition done_reply (err : option string) : object :=
  match err with Some e => refusal e | None => {["ok" := JBool true]} end.

Section Handlers.
Context {W R Srv : Type} `{Group W} `{Rand R} `{SortSlice}.
Implicit Types (d : Demo W R Srv) (q : string → string).

Definition handleOpen (physical : Z) (at_ : string) q d : Demo W R Srv * object :=
  let account := q "account" in
  if String.eqb account "" then (d, refusal "account is required")
  else let '(d, (res, err)) := Open physical at_ account (amount_of q) d in (d, replyOf res err).

Definition handleTx (physical : Z) (at_ : string) q d : Demo W R Srv * object :=
  let '(d, (res, err)) := Transact physical at_ (q "op") (q "key") (q "from") (q "to") (amount_of q) d in (d, replyOf res err).

Definition handleKill (at_ : string) q d : Demo W R Srv * object :=
  let (d, err) := Kill at_ (q "node") d in (d, done_reply err).

Definition handleRevive (at_ : string) q d : Demo W R Srv * object :=
  let (d, err) := Revive at_ (q "node") d in (d, done_reply err).

Definition handleRecover (order : list ID) (at_ : string) d : Demo W R Srv * object :=
  let '(d, (n, err)) := demo_RecoverInDoubt order at_ d in
  let out : object := {["ok" := JBool (bool_decide (err = None)); "resolved" := JInt n]} in
  (d, match err with Some e => <["err":=JStr (Error e)]> out | None => out end).

(** A missing, malformed or zero number keeps the current value. *)
Definition resize_arg (q : string → string) (name : string) (cur : Z) : Z :=
  let n := (Atoi (q name)).1 in if n =? 0 then cur else n.

Definition handleResize (physical : Z) (at_ : string) (srv : ID → NodeID → Srv) (next : W) (elected : bool) q d :
    Demo W R Srv * object :=
  let '(cs, cn, crf) := Topology d in
  let shards := resize_arg q "shards" cs in
  let nodes := resize_arg q "nodes" cn in
  let rf := resize_arg q "rf" crf in
  match Resize physical at_ srv next elected shards nodes rf d with
  | (d, Some err) => (d, refusal err)
  | (d, None) => (d, {["ok" := JBool true; "shards" := JInt shards; "nodes" := JInt nodes; "rf" := JInt rf]})
  end.

(** The health table is [DemoHealth]'s part of the cluster. *)
Definition level_named (level : string) : option NodeHealth :=
  if String.eqb level "low" then Some HealthLow
  else if String.eqb level "high" then Some HealthHigh
  else if String.eqb level "normal" then Some HealthNormal
  else None.

(** The event of a health change goes to the log. *)
Definition health_reply (at_ : string) (r : string + Event) (ok : object) d : Demo W R Srv * object :=
  match r with inl err => (d, refusal err) | inr e => (logEvent at_ e d, ok) end.

Definition handleHealth (at_ : string) q (m : Machines) d : Machines * (Demo W R Srv * object) :=
  let node := q "node" in
  if String.eqb (q "unlock") "1" then
    let (m, r) := UnlockHealth node m in
    (m, health_reply at_ r {["ok" := JBool true; "locked" := JBool false]} d)
  else
    match level_named (q "level") with
    | None => (m, (d, refusal "level must be low, normal or high"))
    | Some level =>
        let lock := negb (String.eqb (q "lock") "0") in
        let (m, r) := SetHealth node level lock m in
        (m, health_reply at_ r
              {["ok" := JBool true; "level" := JStr (NodeHealth_String level); "locked" := JBool lock]} d)
    end.

Definition log_all (at_ : string) (es : list Event) d : Demo W R Srv := foldl (λ d e, logEvent at_ e d) d es.

(** [AddReplica] and [RemoveReplica] act on the whole demo. *)
Definition handleHeal (AddReplica RemoveReplica : ID → NodeID → Demo W R Srv → Demo W R Srv * option string)
    (at_ : string) d : Demo W R Srv * object :=
  let '(d', results, es) :=
    Heal.Heal AddReplica RemoveReplica (Shards (co_ring (d_coord d))) (holders_in d) (d_replicationFactor d)
      (Z.to_nat (d_nodes d)) (d_crashed d) d in
  let healed := Z.of_nat (length (List.filter (λ r, negb (String.eqb (hr_Added r) "")) results)) in
  (log_all at_ es d', {["ok" := JBool true; "healed" := JInt healed; "results" := JHeals results]}).

Definition handleUnderReplicated d : object :=
  {["ok" := JBool true;
    "shards" := JUnder (UnderReplicatedShards (Shards (co_ring (d_coord d))) (holders_in d) (d_replicationFactor d)
                          (Z.to_nat (d_nodes d)) (d_crashed d))]}.

Definition limit_of q : Z :=
  if String.eqb (q "limit") "" then 200
  else match Atoi (q "limit") with (n, None) => if 0 <? n then n else 200 | _ => 200 end.

Definition handleEvents (EqualFold : string → string → bool) (iter : gset string → list string) q d : object :=
  {["ok" := JBool true;
    "events" := JEvents (Events EqualFold (mkFilter (q "account") (q "shard") (q "node") (q "kind") (q "exclude_kind"))
                           (limit_of q) (d_eventLog d));
    "axes" := JAxes (EventAxes iter (d_eventLog d))]}.

End Handlers.

(** ** Properties *)

(** The reply keeps the outcomes apart.  "ok" is true only for a success, which
    carries no error; "indeterminate" is set exactly when the outcome is not known,
    wrapped or not; "aborted" is set for the abort itself; no reply has two of the
    three, and every reply that is not a success carries an error. *)
Theorem replyOf_outcomes res err :
  let out := replyOf res err in
  (out !! "ok" = Some (JBool true) ↔ err = None ∧ r_OK res = true) ∧
  (out !! "indeterminate" = Some (JBool true) ↔ is_err err ErrInDoubt = true ∨ is_err err ErrCommitUnknown = true) ∧
  (out !! "aborted" = Some (JBool true) ↔ err = Some (Sentinel ErrTxAborted)) ∧
  (out !! "ok" = Some (JBool true) → out !! "indeterminate" = None ∧ out !! "aborted" = None ∧ out !! "err" = None) ∧
  (out !! "ok" ≠ Some (JBool true) → is_Some (out !! "err")) ∧
  (out !! "indeterminate" = Some (JBool true) → out !! "aborted" = None).
Proof.
  unfold replyOf. destruct err as [e|].
  - rewrite (bool_decide_false (Some e = None)) by done. cbn [andb is_err].
    destruct e as [[]|[] msg|msg]; cbn [errors_Is orb bool_decide]; simpl; split_and!; try done;
      split; try done; try (by intros [? ?]); try (by intros [?|?]); try (by intros _; auto); by intros [=].
  - rewrite bool_decide_true by done. cbn [andb is_err]. destruct (r_OK res); simpl; split_and!; try done;
      split; try done; try (by intros [? ?]); try (by intros [?|?]).
Qed.

(** Amounts of the demo's requests.  The amount that a handler passes on is always
    an int64, and a printed amount is passed on as it is; but the parse error is
    dropped, so that text opens an account with nothing in it and a number that does
    not fit becomes the largest amount there is. *)
Theorem amount_of_request q :
  in_i64 (amount_of q) ∧ (∀ z, in_i64 z → q "amount" = fmt_d z → amount_of q = z) ∧
  (q "amount" = "abc" → amount_of q = 0) ∧
  (q "amount" = "99999999999999999999" → amount_of q = maxMoney).
Proof.
  unfold amount_of. split; [apply ParseInt_range|]. split; [intros z Hz ->; by rewrite ParseInt_fmt_d|].
  split; intros ->; vm_compute; reflexivity.
Qed.
