(* ===== verification/RaftWatch.v ===== *)
(** * Watching leadership (src/demo/raftwatch.go)

    The observer that turns changes of leadership and of quorum into events.  One
    sample reads, per shard, the holders, their servers and the operator's fault
    state, and compares with what it saw last. *)

From S2P Require Import Prelude GoLib RaftTypes RaftServer RaftRead EventLog Placement Heal.

Local Open Scope Z_scope.

Record leaderState := mkLeaderState { ls_leader : NodeID; ls_term : Z; ls_hadQuorum : bool }.

#[global] Instance leaderState_eq_dec : EqDecision leaderState.
Proof. solve_decision. Defined.

Section Watch.
Context {SM St : Type}.

(** The loop over the holders. *)
Definition watch_step (nodes : gmap NodeID (Server SM St)) (acc : NodeID * Z) (nid : NodeID) : NodeID * Z :=
  match nodes !! nid with
  | None => acc
  | Some srv =>
      let t := currentTerm srv in
      if bool_decide (role srv = Leader) && (String.eqb acc.1 "" || (acc.2 <? t)) then (nid, t) else acc
  end.

Definition watch_leader (holders : list NodeID) (nodes : gmap NodeID (Server SM St)) : NodeID * Z :=
  foldl (watch_step nodes) ("", 0) holders.

Definition quorum_of (holders : list NodeID) : nat := (length holders / 2 + 1)%nat.

Definition live_of (crashed : gset NodeID) (holders : list NodeID) : nat := length (filter (λ n, n ∉ crashed) holders).

(** What a sample of one shard sees. *)
Definition observe (holders : list NodeID) (nodes : gmap NodeID (Server SM St)) (crashed : gset NodeID) : leaderState :=
  let (leader, term) := watch_leader holders nodes in
  mkLeaderState leader term (quorum_of holders <=? live_of crashed holders)%nat.

Definition fmt_quorum (holders : list NodeID) (crashed : gset NodeID) : string :=
  "(" +:+ fmt_d (Z.of_nat (live_of crashed holders)) +:+ "/" +:+ fmt_d (Z.of_nat (length holders)) +:+ " live, needs "
    +:+ fmt_d (Z.of_nat (quorum_of holders)) +:+ ")".

Definition quorum_events (sid : string) (holders : list NodeID) (crashed : gset NodeID) (prev now : leaderState) : list Event :=
  if bool_decide (ls_hadQuorum prev = ls_hadQuorum now) then []
  else if ls_hadQuorum now then
    [raft_event sid "" "ok" (sid +:+ " REGAINED quorum " +:+ fmt_quorum holders crashed +:+ " — writes can commit again")]
  else
    [raft_event sid "" "refused"
       (sid +:+ " LOST quorum " +:+ fmt_quorum holders crashed +:+ " — writes are refused; " +:+ ls_leader now
          +:+ " may still call itself leader but cannot commit")].

Definition leader_events (sid : string) (prev now : leaderState) : list Event :=
  let l := ls_leader now in
  let p := ls_leader prev in
  if String.eqb p l && (ls_term prev =? ls_term now) then []
  else if String.eqb l "" && negb (String.eqb p "") then
    [raft_event sid p "refused" (sid +:+ " LOST its leader (" +:+ p +:+ ", term " +:+ fmt_d (ls_term prev)
       +:+ ") — campaigning; no writes can commit until one is elected")]
  else if negb (String.eqb l "") && String.eqb p "" then
    [raft_event sid l "ok" (sid +:+ " ELECTED " +:+ l +:+ " as leader in term " +:+ fmt_d (ls_term now)
       +:+ " — writes can commit again")]
  else if negb (String.eqb l p) then
    [raft_event sid l "ok" (sid +:+ " leadership moved " +:+ p +:+ " → " +:+ l +:+ " (term " +:+ fmt_d (ls_term prev)
       +:+ " → " +:+ fmt_d (ls_term now) +:+ ")")]
  else
    [raft_event sid l "" (sid +:+ " re-elected " +:+ l +:+ " in a new term (" +:+ fmt_d (ls_term prev) +:+ " → "
       +:+ fmt_d (ls_term now) +:+ ")")].

Record shard_obs := mkObs { o_holders : list NodeID; o_nodes : gmap NodeID (Server SM St) }.

(** One shard; [None]: the cluster has no such group. *)
Definition sample_shard (crashed : gset NodeID) (sid : string) (g : option shard_obs) (seen : gmap string leaderState) :
    gmap string leaderState * list Event :=
  match g with
  | None => (seen, [])
  | Some g =>
      let now := observe (o_holders g) (o_nodes g) crashed in
      (<[sid:=now]> seen,
       match seen !! sid with
       | None => []
       | Some prev => quorum_events sid (o_holders g) crashed prev now ++ leader_events sid prev now
       end)
  end.

Fixpoint sampleLeadership (crashed : gset NodeID) (groups : string → option shard_obs) (shards : list string)
    (seen : gmap string leaderState) : gmap string leaderState * list Event :=
  match shards with
  | [] => (seen, [])
  | sid :: shards =>
      let (seen, es) := sample_shard crashed sid (groups sid) seen in
      let (seen, es') := sampleLeadership crashed groups shards seen in
      (seen, es ++ es')
  end.

(** ** Properties *)

Lemma watch_leader_group holders nodes : watch_leader holders nodes = foldl (leader_step nodes) ("", 0) holders.
Proof.
  unfold watch_leader. generalize ("", 0). induction holders as [|n holders IH]; intros acc; simpl; [done|].
  rewrite IH. f_equal. unfold watch_step, leader_step. destruct acc as [best t]. simpl. destruct (nodes !! n) as [srv|]; [|done].
  destruct (role srv); simpl; try done. 
Qed.

Lemma leader_events_shard sid prev now e : e ∈ leader_events sid prev now → ev_Shard e = sid.
Proof.
  unfold leader_events. destruct (_ && _); [by intros ?%elem_of_nil|].
  repeat (destruct (_ && _); [by intros ->%list_elem_of_singleton|]).
  destruct (negb _); by intros ->%list_elem_of_singleton.
Qed.

Lemma quorum_events_shard sid hs crashed prev now e : e ∈ quorum_events sid hs crashed prev now → ev_Shard e = sid.
Proof.
  unfold quorum_events. case_bool_decide; [by intros ?%elem_of_nil|].
  destruct (ls_hadQuorum now); by intros ->%list_elem_of_singleton.
Qed.

Lemma leader_events_nil sid prev now :
  leader_events sid prev now = [] ↔ ls_leader prev = ls_leader now ∧ ls_term prev = ls_term now.
Proof.
  unfold leader_events. destruct (String.eqb_spec (ls_leader prev) (ls_leader now)) as [El|El],
    (Z.eqb_spec (ls_term prev) (ls_term now)) as [Et|Et]; cbn [andb]; [done| | |];
    (split; [|intros [? ?]; congruence]);
    repeat (destruct (_ && _); [done|]); destruct (negb _); done.
Qed.

Lemma quorum_events_nil sid hs crashed prev now :
  quorum_events sid hs crashed prev now = [] ↔ ls_hadQuorum prev = ls_hadQuorum now.
Proof. unfold quorum_events. case_bool_decide; [done|]. by destruct (ls_hadQuorum now). Qed.

(** What one shard's sample says about another: nothing. *)
Lemma sample_shard_spec crashed sid g (seen : gmap string leaderState) :
  let (seen', es) := sample_shard crashed sid g seen in
  (∀ e, e ∈ es → ev_Shard e = sid) ∧ (∀ x, x ≠ sid → seen' !! x = seen !! x) ∧
  match g with
  | None => seen' = seen ∧ es = []
  | Some g =>
      let now := observe (o_holders g) (o_nodes g) crashed in
      seen' !! sid = Some now ∧ (es ≠ [] ↔ ∃ prev, seen !! sid = Some prev ∧ prev ≠ now)
  end.
Proof.
  unfold sample_shard. destruct g as [g|]; [|split_and!; [by intros ? ?%elem_of_nil|done..]].
  set (now := observe _ _ _). split; [|split; [intros x Hx; by rewrite lookup_insert_ne|split; [by rewrite lookup_insert_eq|]]].
  - destruct (seen !! sid) as [prev|]; [|by intros ? ?%elem_of_nil].
    intros e [?|?]%elem_of_app; [by eapply quorum_events_shard|by eapply leader_events_shard].
  - destruct (seen !! sid) as [prev|]; [|split; [done|by intros (? & ? & _)]]. split.
    + intros Hne. exists prev. split; [done|]. intros ->. apply Hne. apply app_nil. split;
        [by apply quorum_events_nil|by apply leader_events_nil].
    + intros (p & [= <-] & Hne) [Hq%quorum_events_nil [Hl Ht]%leader_events_nil]%app_nil. apply Hne.
      destruct prev, now. simpl in *. congruence.
Qed.

(** The watcher reports exactly the changes.  After a sample, what was seen of a
    shard is its current leader (the one the groups themselves use), the leader's
    term, and whether a majority of its holders is up; an event about the shard is
    logged if and only if it had been seen before and one of the three changed.
    Nothing is recorded or logged about any other shard. *)
Theorem sampleLeadership_exact crashed groups shards (seen : gmap string leaderState) :
  NoDup shards →
  let (seen', es) := sampleLeadership crashed groups shards seen in
  (∀ sid g, sid ∈ shards → groups sid = Some g →
     let now := observe (o_holders g) (o_nodes g) crashed in
     seen' !! sid = Some now ∧ ls_leader now = group_leader (o_holders g) (o_nodes g) ∧
     ((∃ e, e ∈ es ∧ ev_Shard e = sid) ↔ ∃ prev, seen !! sid = Some prev ∧ prev ≠ now)) ∧
  (∀ sid, sid ∉ shards ∨ groups sid = None → seen' !! sid = seen !! sid ∧ ∀ e, e ∈ es → ev_Shard e ≠ sid).
Proof.
  revert seen. induction shards as [|s shards IH]; intros seen Hnd; cbn [sampleLeadership].
  { split; [by intros sid g ?%elem_of_nil|]. intros sid _. split; [done|by intros e ?%elem_of_nil]. }
  apply NoDup_cons in Hnd as [Hs Hnd].
  pose proof (sample_shard_spec crashed s (groups s) seen) as Hone.
  destruct (sample_shard _ _ _ _) as [seen1 es1]. destruct Hone as (He & Hx & Hg).
  specialize (IH seen1 Hnd). destruct (sampleLeadership _ _ _ _) as [seen2 es2]. destruct IH as [IH1 IH2]. split.
  - intros sid g Hin Hsid. set (now := observe _ _ _). cbn zeta.
    assert (ls_leader now = group_leader (o_holders g) (o_nodes g)) as Hlead.
    { unfold now, observe, group_leader. rewrite watch_leader_group. by destruct (foldl _ _ _). }
    destruct (decide (sid = s)) as [->|Hne].
    + rewrite Hsid in Hg. destruct Hg as [Hg1 Hg2]. destruct (IH2 s) as [H1 H2]; [by left|]. split; [by rewrite H1|].
      split; [done|]. fold now in Hg2. rewrite <- Hg2. split.
      * intros (e & [Hin1|?]%elem_of_app & Hes); [|by destruct (H2 e)]. intros ->. by apply elem_of_nil in Hin1.
      * destruct es1 as [|e es1]; [done|]. intros _. exists e. split; [by left|]. apply He. by left.
    + apply elem_of_cons in Hin as [?|Hin]; [done|]. destruct (IH1 sid g Hin Hsid) as (H1 & _ & H2). split; [done|].
      split; [done|]. rewrite Hx in H2 by done. fold now in H2. rewrite <- H2. split; intros (e & Hin' & Hes); exists e; (split; [|done]).
      * apply elem_of_app in Hin' as [Hin'|?]; [|done]. rewrite (He e Hin') in Hes. congruence.
      * apply elem_of_app. by right.
  - intros sid Hno. destruct (decide (sid = s)) as [->|Hne].
    + destruct Hno as [Hno|Hno]; [destruct Hno; by left|]. rewrite Hno in Hg. destruct Hg as [-> ->].
      destruct (IH2 s) as [H1 H2]; [by right|]. done.
    + destruct (IH2 sid) as [H1 H2]. { destruct Hno as [Hno|?]; [left|by right]. intros ?. apply Hno. by right. }
      rewrite H1, Hx by done. split; [done|]. intros e [Hin|?]%elem_of_app; [rewrite (He e Hin); congruence|by apply H2].
Qed.

End Watch.

(** ** A leader lost *)

Definition watched (leading : bool) : Server unit unit :=
  let s := NewServer "n1" ["n1"; "n2"; "n3"] None in if leading then set_role Leader (set_currentTerm 4 s) else s.

Definition watched_group (leading : bool) : shard_obs (SM := unit) (St := unit) := mkObs ["n1"; "n2"; "n3"] {["n1" := watched leading]}.

Lemma sampleLeadership_exact_witness :
  ∃ e, e ∈ (sampleLeadership ∅ (λ _, Some (watched_group false)) ["s"] {["s" := mkLeaderState "n1" 4 true]}).2 ∧
       ev_Shard e = "s" ∧
       (sampleLeadership ∅ (λ _, Some (watched_group true)) ["s"] {["s" := mkLeaderState "n1" 4 true]}).2 = [].
Proof.
  pose proof (sampleLeadership_exact ∅ (λ _, Some (watched_group false)) ["s"] {["s" := mkLeaderState "n1" 4 true]}
    (NoDup_singleton _)) as Hx.
  destruct (sampleLeadership _ _ _ _) as [seen es]. destruct Hx as [Hx _].
  destruct (Hx "s" (watched_group false)) as (_ & _ & [_ He]); [by left|done|].
  destruct He as (e & Hin & Hs). { exists (mkLeaderState "n1" 4 true). split; [reflexivity|]. intros [=]. }
  exists e. split; [exact Hin|]. split; [exact Hs|]. vm_compute. reflexivity.
Defined.
