(* ===== verification/DemoView.v ===== *)
(** * The dashboard's view of the cluster (src/demo/demo.go)

    [Snapshot] and what it is made of.  A shard is given by its members in the order of
    the group's IDs, each with its server at the time of the walk; the machine of a
    member is the one inside its server.  [now] and [clock] are the time, as a number
    and as text; the account keys of a ledger come in the order of the map and are
    sorted before they are shown. *)

From S2P Require Import Prelude GoLib GoTime Hlc Ledger Ring TwoPC ShardMachine Coordinator.
From S2P Require Import RaftTypes RaftLog RaftCodec RaftServer RaftHealth EventLog Placement Heal DemoHealth.

Local Open Scope Z_scope.

Record NodeView := mkNodeView {
  nv_ID : NodeID;
  nv_Shard : ID;
  nv_Role : string;
  nv_Term : Z;
  nv_Commit : Z;
  nv_Applied : Z;
  nv_LogLen : Z;
  nv_Crashed : bool;
  nv_Lagging : bool
}.

Record TransactionView := mkTransactionView {
  tv_Seq : Z;
  tv_Op : string;
  tv_Key : string;
  tv_Timestamp : string;
  tv_Wall : Z;
  tv_Logical : Z;
  tv_Summary : string
}.

Record LogEntryView := mkLogEntryView {
  lv_Index : Z;
  lv_Term : Z;
  lv_Summary : string;
  lv_Committed : bool;
  lv_Applied : bool
}.

Record ShardView := mkShardView {
  sv_ID : ID;
  sv_Leader : NodeID;
  sv_Term : Z;
  sv_Nodes : list NodeView;
  sv_Accounts : gmap string Z;
  sv_InDoubt : Z;
  sv_Ready : bool;
  sv_Reason : string;
  sv_Keys : list string;
  sv_Unreachable : bool;
  sv_Recent : list TransactionView;
  sv_Reserved : gmap string Z;
  sv_Live : Z;
  sv_Needed : Z;
  sv_CanWrite : bool;
  sv_CanRead : bool
}.

(** ** Rendering *)

(** [amt] is negated in an int64. *)
Definition entry_summary (e : Ledger.Entry) : string :=
  let amt := e_Amount e in
  let '(sign, amt) := if amt <? 0 then ("-", i64 (- amt)) else ("+", amt) in
  e_Account e +:+ " " +:+ sign +:+ Money_String amt +:+ "  ".

Definition transaction_view (t : Transaction) : TransactionView :=
  mkTransactionView (t_Seq t) (Op_String (t_Op t)) (t_IdempotencyKey t) (Timestamp_String (t_Timestamp t))
    (Wall (t_Timestamp t)) (Logical (t_Timestamp t)) (String.concat "" (entry_summary <$> t_Entries t)).

(** The newest [n], newest first. *)
Definition recentTransactions (history : list Transaction) (n : nat) : list TransactionView :=
  reverse (transaction_view <$> drop (length history - n) history).

Definition summarizeCommand (cmd : option bytes) : string :=
  match cmd_bytes cmd with
  | [] => "no-op (new leader)"
  | data =>
      match DecodeCommand data with
      | inl _ => "entry"
      | inr sc =>
          if sc_Op sc =? OpPrepare then "2PC prepare " +:+ sc_TxID sc
          else if sc_Op sc =? OpDecision then (if sc_Commit sc then "2PC COMMIT " else "2PC ABORT ") +:+ sc_TxID sc
          else if sc_Op sc =? OpOutcome then "2PC outcome " +:+ sc_TxID sc
          else
            let l := sc_Ledger sc in
            if c_Op l =? OpOpenAccount then "open " +:+ c_To l +:+ " " +:+ Money_String (c_Amount l)
            else if c_Op l =? OpDeposit then "deposit " +:+ Money_String (c_Amount l) +:+ " to " +:+ c_To l
            else if c_Op l =? OpWithdraw then "withdraw " +:+ Money_String (c_Amount l) +:+ " from " +:+ c_From l
            else if c_Op l =? OpTransfer then
              "transfer " +:+ Money_String (c_Amount l) +:+ " " +:+ c_From l +:+ "->" +:+ c_To l
            else "entry"
      end
  end.

Section View.
Context {St : Type}.
Abbreviation member := (NodeID * Server Machine St)%type.

(** A ledger, or the machine of a server without one, which has none. *)
Definition machine_in (s : Server Machine St) : Machine := default (NewMachine "" Ledger.New) (sm s).

Definition logTail (s : Server Machine St) (n : nat) : list LogEntryView :=
  match log s with
  | _ :: (_ :: _) as entries =>
      (λ e, mkLogEntryView (e_Index e) (RaftTypes.e_Term e) (summarizeCommand (e_Command e)) (e_Index e <=? commitIndex s)
              (e_Index e <=? lastApplied s)) <$> drop (length (tail (log s)) - n) (tail (log s))
  | _ => []
  end.

(** The loop of [freshestMachine]: the first live leader returns at once. *)
Fixpoint freshest (members : list member) (crashed : gset NodeID) (best : option (Machine * Z)) : option Machine :=
  match members with
  | [] => fst <$> best
  | (nid, s) :: members =>
      if bool_decide (nid ∈ crashed) then freshest members crashed best
      else if bool_decide (role s = Leader) then Some (machine_in s)
      else
        match best with
        | Some (_, bestApplied) =>
            if bestApplied <? lastApplied s then freshest members crashed (Some (machine_in s, lastApplied s))
            else freshest members crashed best
        | None => freshest members crashed (Some (machine_in s, lastApplied s))
        end
  end.

Definition freshestMachine (members : list member) (crashed : gset NodeID) : option Machine := freshest members crashed None.

Definition highestApplied (members : list member) (crashed : gset NodeID) : Z :=
  foldl (λ h x, if bool_decide (x.1 ∈ crashed) then h else if h <? lastApplied x.2 then lastApplied x.2 else h) 0 members.

Definition node_view (sid : ID) (highest : Z) (crashed : gset NodeID) (x : member) : NodeView :=
  let '(nid, s) := x in
  let down := bool_decide (nid ∈ crashed) in
  mkNodeView nid sid (if down then "Down" else Role_String (role s)) (currentTerm s) (commitIndex s) (lastApplied s)
    (Z.of_nat (length (log s)) - 1) down (negb down && (lastApplied s <? highest)).

(** Every live leader overwrites the one before. *)
Definition shown_leader (members : list member) (crashed : gset NodeID) : option member :=
  foldl (λ acc x, if bool_decide (x.1 ∈ crashed) then acc else if bool_decide (role x.2 = Leader) then Some x else acc) None members.

(** The reserved amounts that are not zero. *)
Definition reserved_view (st : State) : gmap string Z :=
  omap (λ r, if r =? 0 then None else Some r) (map_imap (λ a _, Some (Reserved st a)) (Balances st)).

Definition shard_view (now : Z) (sid : ID) (members : list member) (crashed : gset NodeID) : ShardView :=
  let highest := highestApplied members crashed in
  let live := length (filter (λ x, x.1 ∉ crashed) members) in
  let needed := (length members / 2 + 1)%nat in
  let leader := shown_leader members crashed in
  let health := (λ x, health_report 500000000 now x.2) <$> leader in
  let m := freshestMachine members crashed in
  let st := default Ledger.New (m_State <$> m) in
  mkShardView sid (default "" (fst <$> leader)) (default 0 ((λ x, currentTerm x.2) <$> leader))
    (node_view sid highest crashed <$> members)
    (Balances st) (default 0 ((λ m, Z.of_nat (length (InDoubt m))) <$> m))
    (default false (h_Ready <$> health)) (default "no leader" (h_NotReadyReason <$> health))
    (sorted_keys (Balances st)) (bool_decide (m = None)) (recentTransactions (History st) 8) (reserved_view st)
    (Z.of_nat live) (Z.of_nat needed) (needed <=? live)%nat (0 <? live)%nat.

(** ** Machines *)

Record MachineReplica := mkMachineReplica {
  mr_Shard : ID;
  mr_Role : string;
  mr_Term : Z;
  mr_Applied : Z;
  mr_Commit : Z;
  mr_LogLen : Z;
  mr_Lagging : bool;
  mr_Accounts : gmap string Z;
  mr_Log : list LogEntryView
}.

Definition shard_le (a b : MachineReplica) : Prop := str_le (mr_Shard a) (mr_Shard b).

#[global] Instance shard_le_dec : RelDecision shard_le.
Proof. intros a b. unfold shard_le. apply _. Defined.

Record MachineView := mkMachineView {
  mv_ID : NodeID;
  mv_Crashed : bool;
  mv_Replicas : list MachineReplica;
  mv_Accounts : list string;
  mv_LeaderOf : list ID;
  mv_Health : string;
  mv_Locked : bool
}.

Abbreviation shards_of := (list (ID * list member)).

Definition replica_view (crashed : gset NodeID) (highest : Z) (sid : ID) (nid : NodeID) (s : Server Machine St) : MachineReplica :=
  let down := bool_decide (nid ∈ crashed) in
  mkMachineReplica sid (if down then "Down" else Role_String (role s)) (currentTerm s) (lastApplied s) (commitIndex s)
    (Z.of_nat (length (log s)) - 1) (negb down && (lastApplied s <? highest)) (Balances (m_State (machine_in s))) (logTail s 6).

(** The replicas that machine [nid] holds, in the order of the shards. *)
Definition replicas_on (groups : shards_of) (nid : NodeID) : list (ID * list member * Server Machine St) :=
  concat ((λ g : ID * list member, (λ x : member, (g.1, g.2, x.2)) <$> filter (λ x : member, x.1 = nid) g.2) <$> groups).

(** The machines that hold something, each once, then those that hold nothing.  The
    result is sorted, so the order in which they are met does not show. *)
Definition machine_order (nodes : nat) (groups : shards_of) : list NodeID :=
  let held := remove_dups (concat ((λ g : ID * list member, g.2.*1) <$> groups)) in
  held ++ filter (λ n, n ∉ held) (node_name <$> List.seq 0 nodes).

Definition machine_view (crashed : gset NodeID) (health : NodeID → NodeHealth * bool) (groups : shards_of) (nid : NodeID) :
    MachineView :=
  let rs := replicas_on groups nid in
  let (lvl, locked) := health nid in
  mkMachineView nid (bool_decide (nid ∈ crashed))
    (merge_sort shard_le
       ((λ r, replica_view crashed (highestApplied r.1.2 crashed) r.1.1 nid r.2) <$> rs))
    (sort_strings (remove_dups (concat ((λ r : ID * list member * Server Machine St, (map_to_list (Balances (m_State (machine_in r.2)))).*1) <$> rs))))
    ((λ r : ID * list member * Server Machine St, r.1.1) <$> filter (λ r : ID * list member * Server Machine St, (nid ∉ crashed) ∧ role r.2 = Leader) rs)
    (NodeHealth_String lvl) locked.

Definition machines (nodes : nat) (crashed : gset NodeID) (health : NodeID → NodeHealth * bool) (groups : shards_of) :
    list MachineView :=
  machine_view crashed health groups <$> sort_strings (machine_order nodes groups).

(** ** Snapshot *)

Record RingPoint := mkRingPoint { rp_Account : string; rp_Shard : ID; rp_Angle : Z }.

Definition angle_le (a b : RingPoint) : Prop := rp_Angle a ≤ rp_Angle b.

#[global] Instance angle_le_dec : RelDecision angle_le.
Proof. intros a b. unfold angle_le. apply _. Defined.

Definition ring_point (ring : Ring) (a : string) : RingPoint := mkRingPoint a (Lookup ring a) (ringAngle a).

Record ClusterView := mkClusterView {
  cv_Time : string;
  cv_Shards : list ShardView;
  cv_Machines : list MachineView;
  cv_Ring : list RingPoint;
  cv_Arcs : list RingArc;
  cv_VNodes : nat;
  cv_Total : Z;
  cv_NodeCount : Z;
  cv_ReplicationFactor : Z;
  cv_Events : list string;
  cv_Healthy : bool
}.

(** The newest forty, newest first. *)
Definition shown_events (events : list string) : list string := take 40 (reverse events).

(** Two accounts at the same angle may be listed either way round. *)
Definition Snapshot (clock : string) (now : Z) (ring : Ring) (groups : shards_of) (crashed : gset NodeID)
    (events : list string) (accounts : list string) (nodes : Z) (rf : Z) (health : NodeID → NodeHealth * bool) : ClusterView :=
  let shards := (λ g, shard_view now g.1 g.2 crashed) <$> groups in
  mkClusterView clock shards (machines (Z.to_nat nodes) crashed health groups) 
    (merge_sort angle_le (ring_point ring <$> accounts)) (ringArcs ring) (VNodes ring) (foldl (λ t sv, i64 (t + map_sum (λ b, b) (sv_Accounts sv))) 0 shards) nodes rf (shown_events events)
    (forallb sv_Ready shards).

(** ** Properties *)

Definition up (crashed : gset NodeID) (members : list member) (s : Server Machine St) : Prop :=
  ∃ nid, (nid, s) ∈ members ∧ nid ∉ crashed.

(** What the loop keeps: the most advanced of the live members passed, none a leader. *)
Lemma freshest_loop (members : list member) crashed (best : option (Machine * Z)) :
  match freshest members crashed best with
  | None => best = None ∧ ∀ s, ¬ up crashed members s
  | Some m =>
      (∃ s, up crashed members s ∧ m = machine_in s ∧ role s = Leader) ∨
      (∀ s, up crashed members s → role s ≠ Leader) ∧
      ∃ a, (best = Some (m, a) ∨ ∃ s, up crashed members s ∧ m = machine_in s ∧ a = lastApplied s) ∧
           (∀ b, best = Some b → b.2 ≤ a) ∧ (∀ s, up crashed members s → lastApplied s ≤ a)
  end.
Proof.
  assert (∀ nid s l s', up crashed ((nid, s) :: l) s' ↔ ((nid ∉ crashed) ∧ s' = s) ∨ up crashed l s') as Hcons.
  { intros nid s l s'. unfold up. split.
    - intros (n & [[= -> ->]|Hin]%elem_of_cons & Hn); [by left|right; eauto].
    - intros [[? ->]|(n & ? & ?)]; [exists nid; split; [by left|done]|exists n; split; [by right|done]]. }
  revert best. induction members as [|[nid s] l IH]; intros best; cbn [freshest].
  { assert (∀ s, ¬ up crashed [] s) as Hno by by intros s (n & ?%elem_of_nil & _).
    destruct best as [[m a]|]; simpl; [|done]. right. split; [intros s Hs; by destruct (Hno s)|].
    exists a. split; [by left|]. split; [by intros b [= <-]|]. intros s Hs. by destruct (Hno s). }
  case_bool_decide as Hc.
  { specialize (IH best). destruct (freshest l crashed best).
    - destruct IH as [(s' & Hu & ?)|(Hn & a & Ha & Hb & Hall)].
      + left. exists s'. split; [apply Hcons; by right|done].
      + right. split; [intros s' [[? _]|?]%Hcons; [done|auto]|]. exists a. split; [|split; [done|]].
        * destruct Ha as [?|(s' & ? & ?)]; [by left|right; exists s'; split; [apply Hcons; by right|done]].
        * intros s' [[? _]|?]%Hcons; [done|auto].
    - destruct IH as [? Hn]. split; [done|]. intros s' [[? _]|?]%Hcons; [done|by destruct (Hn s')]. }
  case_bool_decide as Hr; [left; exists s; split; [apply Hcons; by left|done]|].
  assert (∀ best', (∀ b, best = Some b → ∃ b', best' = Some b' ∧ b.2 ≤ b'.2) →
    (∃ b', best' = Some b' ∧ lastApplied s ≤ b'.2 ∧ (best = Some b' ∨ b' = (machine_in s, lastApplied s))) →
    match freshest l crashed best' with
    | None => best = None ∧ ∀ s', ¬ up crashed ((nid, s) :: l) s'
    | Some m =>
      (∃ s', up crashed ((nid, s) :: l) s' ∧ m = machine_in s' ∧ role s' = Leader) ∨
      (∀ s', up crashed ((nid, s) :: l) s' → role s' ≠ Leader) ∧
      ∃ a, (best = Some (m, a) ∨ ∃ s', up crashed ((nid, s) :: l) s' ∧ m = machine_in s' ∧ a = lastApplied s') ∧
           (∀ b, best = Some b → b.2 ≤ a) ∧ (∀ s', up crashed ((nid, s) :: l) s' → lastApplied s' ≤ a)
    end) as Hgo.
  { intros best' Hmono (b' & -> & Hle & Hsrc). specialize (IH (Some b')). destruct (freshest l crashed (Some b')) as [m|]; [|by destruct IH].
    destruct IH as [(s' & Hu & ?)|(Hn & a & Ha & Hb & Hall)]; [left; exists s'; split; [apply Hcons; by right|done]|].
    right. split; [intros s' [[_ ->]|?]%Hcons; [done|auto]|]. exists a. specialize (Hb b' eq_refl). split; [|split].
    - destruct Ha as [[= ->]|(s' & ? & ?)]; [|right; exists s'; split; [apply Hcons; by right|done]].
      destruct Hsrc as [->|[= -> ->]]; [by left|]. right. exists s. split; [apply Hcons; by left|done].
    - intros b Hbb. destruct (Hmono b Hbb) as (b'' & [= <-] & ?). lia.
    - intros s' [[_ ->]|?]%Hcons; [lia|auto]. }
  destruct best as [[m0 a0]|].
  - destruct (Z.ltb_spec a0 (lastApplied s)); apply Hgo.
    + intros b [= <-]. eexists. split; [done|]. simpl. lia.
    + eexists. split; [done|]. simpl. split; [lia|by right].
    + intros b [= <-]. eexists. split; [done|]. simpl. lia.
    + eexists. split; [done|]. simpl. split; [lia|by left].
  - apply Hgo; [done|]. eexists. split; [done|]. simpl. split; [lia|by right].
Qed.

(** The dashboard shows what can be read.  A shard is shown as unreachable exactly
    when every member is down, and then with no balances.  Otherwise the balances are
    those of a live member: a live one that leads or, if none does, the live one that
    has applied most.  It is shown as writable exactly when a strict majority of its
    members is live, and as readable exactly when one is. *)
Theorem shard_view_honest now sid (members : list member) crashed :
  let v := shard_view now sid members crashed in
  (sv_Unreachable v = true ↔ ∀ s, ¬ up crashed members s) ∧
  (sv_Unreachable v = true → sv_Accounts v = ∅ ∧ sv_Keys v = [] ∧ sv_Recent v = []) ∧
  (sv_Unreachable v = false → ∃ s, up crashed members s ∧ sv_Accounts v = Balances (m_State (machine_in s)) ∧
     (role s = Leader ∨ ∀ s', up crashed members s' → role s' ≠ Leader ∧ lastApplied s' ≤ lastApplied s)) ∧
  (sv_CanWrite v = true ↔ Z.of_nat (length members) < 2 * sv_Live v) ∧
  (sv_CanRead v = true ↔ ∃ s, up crashed members s).
Proof.
  cbn zeta. unfold shard_view. cbn [sv_Unreachable sv_Accounts sv_Keys sv_Recent sv_CanWrite sv_CanRead sv_Live].
  pose proof (freshest_loop members crashed None) as Hf. fold (freshestMachine members crashed) in Hf.
  rewrite bool_decide_eq_true, bool_decide_eq_false.
  destruct (freshestMachine members crashed) as [m|]; cbn [fmap option_fmap option_map default].
  - assert (∃ s, up crashed members s ∧ m = machine_in s ∧
      (role s = Leader ∨ ∀ s', up crashed members s' → role s' ≠ Leader ∧ lastApplied s' ≤ lastApplied s)) as (s & Hu & -> & Hs).
    { destruct Hf as [(s & ? & ? & ?)|(Hn & a & [?|(s & ? & ? & ->)] & _ & Hall)]; [eauto|done|].
      exists s. split; [done|]. split; [done|]. right. intros s' Hs'. auto. }
    split; [split; [done|intros Hn; by destruct (Hn s)]|]. split; [done|]. split; [eauto|]. split.
    + rewrite Nat.leb_le. pose proof (Nat.div_mod (length members) 2 ltac:(lia)). pose proof (Nat.mod_upper_bound (length members) 2). lia.
    + rewrite Nat.ltb_lt. split; [eauto|]. intros _. destruct Hu as (n & Hin & Hn).
      assert ((n, s) ∈ filter (λ x, x.1 ∉ crashed) members) as Hx by by apply list_elem_of_filter.
      destruct (filter _ members); [by apply elem_of_nil in Hx|simpl; lia].
  - destruct Hf as [_ Hn]. split; [done|]. split; [done|]. split; [done|].
    assert (filter (λ x, x.1 ∉ crashed) members = []) as ->.
    { destruct (filter _ members) as [|[n s] l] eqn:E; [done|]. exfalso. apply (Hn s). exists n.
      assert ((n, s) ∈ filter (λ x, x.1 ∉ crashed) members) as Hx by (rewrite E; by left).
      apply list_elem_of_filter in Hx as [? ?]. done. }
    split; [rewrite Nat.leb_le; simpl; lia|]. split; [done|]. intros [s Hs]. by destruct (Hn s).
Qed.

(** Of several live members that say they lead, the dashboard names the last in the
    list, whatever its term, while the balances come from the first. *)
Lemma shown_leader_last (members : list member) crashed nid s :
  nid ∉ crashed → role s = Leader → shown_leader (members ++ [(nid, s)]) crashed = Some (nid, s).
Proof.
  intros Hn Hr. unfold shown_leader. rewrite foldl_app. simpl. rewrite bool_decide_eq_false_2 by done.
  by rewrite bool_decide_eq_true_2.
Qed.

Lemma freshestMachine_first (members : list member) crashed nid s :
  nid ∉ crashed → role s = Leader → freshestMachine ((nid, s) :: members) crashed = Some (machine_in s).
Proof.
  intros Hn Hr. unfold freshestMachine. simpl. rewrite bool_decide_eq_false_2 by done. by rewrite bool_decide_eq_true_2.
Qed.

Lemma elem_of_machine_order nodes (groups : shards_of) n :
  n ∈ machine_order nodes groups ↔
  (∃ sid ms s, (sid, ms) ∈ groups ∧ (n, s) ∈ ms) ∨ ∃ i, (i < nodes)%nat ∧ n = node_name i.
Proof.
  unfold machine_order. set (held := remove_dups _).
  assert (n ∈ held ↔ ∃ sid ms s, (sid, ms) ∈ groups ∧ (n, s) ∈ ms) as Hh.
  { unfold held. rewrite elem_of_remove_dups. split.
    - intros Hin. apply list_elem_of_In, in_concat in Hin as (l & Hl & Hn). apply list_elem_of_In in Hl, Hn.
      apply list_elem_of_fmap in Hl as ([sid ms] & -> & Hg). apply list_elem_of_fmap in Hn as ([n' s] & -> & Hs). eauto.
    - intros (sid & ms & s & Hg & Hs). apply list_elem_of_In, in_concat. exists ms.*1.
      split; apply list_elem_of_In; apply list_elem_of_fmap; [by exists (sid, ms)|by exists (n, s)]. }
  rewrite <- Hh, elem_of_app, list_elem_of_filter, list_elem_of_fmap. setoid_rewrite elem_of_seq. split.
  - intros [?|[_ (i & -> & ?)]]; [by left|right]. exists i. split; [lia|done].
  - intros [?|(i & ? & ->)]; [by left|]. destruct (base.decide (node_name i ∈ held)) as [Hin|Hin]; [by left|right].
    split; [done|]. exists i. split; [done|lia].
Qed.

(** The machine view is complete.  It lists, sorted and each once, exactly the
    machines that hold a replica or are configured; and a machine is shown with a
    replica of a shard if and only if it is a member of that shard's group. *)
Theorem machines_complete nodes crashed health (groups : shards_of) :
  let vs := machines nodes crashed health groups in
  NoDup (mv_ID <$> vs) ∧ Sorted str_le (mv_ID <$> vs) ∧
  (∀ n, n ∈ mv_ID <$> vs ↔ (∃ sid ms s, (sid, ms) ∈ groups ∧ (n, s) ∈ ms) ∨ ∃ i, (i < nodes)%nat ∧ n = node_name i) ∧
  (∀ v sid, v ∈ vs → (sid ∈ mr_Shard <$> mv_Replicas v ↔ ∃ ms s, (sid, ms) ∈ groups ∧ (mv_ID v, s) ∈ ms)).
Proof.
  cbn zeta. unfold machines.
  assert (mv_ID <$> (machine_view crashed health groups <$> sort_strings (machine_order nodes groups))
          = sort_strings (machine_order nodes groups)) as E.
  { rewrite <- list_fmap_compose. rewrite <- (list_fmap_id (sort_strings _)) at 2. apply list_fmap_ext.
    intros _ n _. unfold machine_view. simpl. by destruct (health n). }
  rewrite E. split; [|split; [apply sort_strings_sorted|split]].
  - rewrite sort_strings_perm. unfold machine_order. apply NoDup_app. split; [apply NoDup_remove_dups|]. split.
    + intros n Hn [? _]%list_elem_of_filter. done.
    + apply NoDup_filter. apply NoDup_fmap_2; [|apply NoDup_seq]. intros i j. apply node_name_inj.
  - intros n. rewrite sort_strings_perm. apply elem_of_machine_order.
  - intros v sid (n & -> & _)%list_elem_of_fmap. unfold machine_view. destruct (health n) as [lvl locked]. cbn [mv_Replicas mv_ID].
    rewrite merge_sort_Permutation, <- list_fmap_compose.
    transitivity (sid ∈ (λ r : ID * list member * Server Machine St, r.1.1) <$> replicas_on groups n).
    { match goal with |- ?x ∈ ?f <$> ?l ↔ ?x ∈ ?g <$> ?l => replace (f <$> l) with (g <$> l) by (apply list_fmap_ext; done) end. done. }
    unfold replicas_on. rewrite list_elem_of_fmap. split.
    + intros ([[sid' ms] s] & -> & Hin). apply list_elem_of_In, in_concat in Hin as (l & Hl & Hn).
      apply list_elem_of_In in Hl, Hn. apply list_elem_of_fmap in Hl as ([sid2 ms2] & -> & Hg).
      apply list_elem_of_fmap in Hn as ([n' s'] & [= -> -> ->] & [Hn' Hm]%list_elem_of_filter). simpl in *. subst n'. eauto.
    + intros (ms & s & Hg & Hm). exists (sid, ms, s). split; [done|]. apply list_elem_of_In, in_concat.
      eexists. split; apply list_elem_of_In; [apply list_elem_of_fmap; exists (sid, ms); split; [reflexivity|done]|].
      apply list_elem_of_fmap. exists (n, s). split; [done|]. apply list_elem_of_filter. done.
Qed.

End View.
